(* ===== verification/_CoqProject ===== *)
-Q . S2P
Prelude.v
Core.v
Context.v
Priolist.v
Pipes.v
Protocol.v
Codec.v
Push.v
Pull.v
Sub.v
Bus.v
Publ.v
Pair.v
PairPrefetch.v
Req.v
Rep.v
Resp.v
Surv.v
Socket.v
Stream.v
Framing.v
Tcp.v
Ipc.v
Delivery.v
Provenance.v
Closed.v
AsyncPipe.v
Exchange.v
Probe.v
Device.v
Session.v
Acceptor.v
Windows.v
Adapter.v
Dispatcher.v
Facade.v
Tenants.v
Timers.v
Reactor.v
Walk.v
System.v
Integrity.v
Outbound.v
Loopback.v
IntegrationTests.v
Scenarios.v
Bench.v
PushTests.v
PullTests.v
SubTests.v
BusTests.v
PairTests.v
PairPrefetchTests.v
ReqTests.v
RepTests.v
SurvTests.v
PriolistTests.v
PipeBench.v
PipeTests.v
WindowsTests.v
SocketTests.v
ProbeTests.v
IpcTests.v
