(* ===== verification/Prelude.v ===== *)
(** * Scaproust: the protocol machinery of a nanomsg library, modelled and verified

    Scaproust is a Rust implementation of the nanomsg "scalability protocols".  An
    application calls a blocking facade (src/facade); each call is a request on a
    channel to one reactor thread (src/reactor), which owns every socket.  A socket
    (src/core/socket.rs) drives a protocol (src/proto): a state machine that is
    given requests, readiness and acknowledgements, and answers through a reply
    channel, a network, a scheduler and an event bus.  Transports (src/transport)
    move the messages.

    ** What is modelled, and where

    - [Prelude]: errors ([io_error.rs]), machine arithmetic with the overflow
      check of the build ([Build]), and the monad [M] of handlers.
    - [Core]: ids, messages, endpoint descriptions, the id hasher (core/mod.rs),
      options (core/config.rs), events and timed tasks (core/context.rs), requests
      and replies (core/socket.rs), protocol numbers (proto/mod.rs), sequence.rs.
    - [Context]: the traits [Network], [Scheduler] and [Context] (core/network.rs,
      core/context.rs), pipes and acceptors (core/endpoint.rs).
    - [Priolist]: the list of pipes by priority (proto/priolist.rs).
    - [Pipes]: pipe collections and the broadcast, fair queueing and load
      balancing policies (proto/pipes.rs, proto/policy.rs).
    - [Protocol]: the trait [Protocol] and the contract between the protocols and
      the socket.
    - [Codec]: the interface of the byteorder crate.
    - [Push], [Pull], [Sub], [Bus], [Publ], [Pair], [Req], [Rep], [Resp], [Surv]:
      one protocol each (the file of the same name in src/proto); [PairPrefetch]:
      the PAIR of proto/pair-prefetch.rs, which no module declares and whose
      trait is an older one, on its own.
    - [Socket]: the socket over any protocol (core/socket.rs).
    - [Stream]: byte streams, the handshake and the trait [AsyncPipeStub]
      (transport/async/stub.rs).
    - [Framing], [Tcp], [Ipc]: sending and receiving a message over a stream
      (transport/tcp, transport/ipc): what the two transports share, then each.
    - [AsyncPipe]: the states of a pipe (transport/async), over any stub.
    - [Acceptor]: the traits of pipes, acceptors and transports and their
      implementations by TCP and IPC, over the sockets of the operating system
      (class [Os]).
    - [Windows]: what Windows builds instead: the active state of a pipe
      (transport/async/active/windows.rs) and IPC over named pipes
      (transport/ipc/windows).
    - [Probe], [Device], [Session]: polling several sockets, watching the two
      sockets of a device, and the collections that hold them all (core/probe.rs,
      core/device.rs, core/session.rs).
    - [Adapter]: what the reactor lends its sockets: the bus of signals (bus.rs),
      endpoints, schedule and contexts (reactor/adapter.rs, reactor/mod.rs).
      [context_env] is the [Env] that a handler of a socket runs in: what its
      context answers is computed from the reactor; [carry_out] then does to the
      reactor what the handler did.
    - [Dispatcher]: the thread of the reactor (reactor/dispatcher.rs,
      reactor/event_loop.rs): requests, signals, timed tasks and readiness, the
      three loops and the event loop.  Whatever the loops do is a sequence of
      [rx_step]s ([EventLoop_stepwise]).
    - [Facade]: the blocking calls of the application (src/facade), as programs
      that send requests and await replies ([client]).
    - Proofs only: [Delivery] and [Provenance] (what each protocol hands to the
      facade, and where what it sends comes from), [Closed] (the protocols once they
      are closed), [Exchange] (REQ, devices and REP together), [Tenants] (the
      protocols as the reactor sees them), [Timers] (the schedule over the timer),
      [Reactor] (the thread of the reactor), [Walk] (its handlers, gone through once
      for all: [walkable]), [System] (threads of the application and the reactor,
      interleaved), [Integrity] and [Outbound] (the messages, from the pipes to the
      application and from the application to the pipes).
    - Tests: [Bench] (core/tests.rs) and [PipeBench] (the test modules of transport)
      are the contexts, sensors and stubs of the unit tests; [PushTests] and the
      other [*Tests] are the unit tests themselves, assertion by assertion, which
      the model passes as the code does ([push_suite_passes], ...).
    - The whole of it at work: [Loopback] is a machine to run the model on, an
      operating system that is a loop back and threads that take turns with the event
      loop; [IntegrationTests] are the programs of src/test, each of which passes on
      it ([integration_suite_passes]); [Scenarios] are programs in which the library
      fails its caller.

    ** How the code is read

    A handler takes the state it mutates and gives it back: [fn f(&mut self, ctx,
    x)] is [f x : T -> P T].  [P] is [M] over [Context.effect]: a handler runs
    against the history of what was emitted so far, and either panics (an index
    out of range, an overflow when the build checks them, an [expect]) or is
    [Done] with a value and the effects it emitted, in order.  Every call through
    [ctx] and every reply is an effect; what such a call returns is asked of the
    class [Env], as a function of the history, and so is the iteration order of
    the hash collections.  Theorems hold for every [Env]; [ref_env] is one, on
    which the examples run.

    The transports are closer to the stream: there a handler is a run in [Stream.IO],
    on a [Sink] or a [Source] that holds what the network will answer, with errors
    and panics as results; the states of a pipe emit their effects in [M].

    Integers are [Z]; additions that can overflow go through [checked_add], which
    panics or wraps as the build says; [as u32] is [wrap 32]. Indices of vectors
    are [nat] and out-of-range accesses panic.  [HashMap] and [HashSet] are [gmap]
    and [gset].  [Option<State>] is kept as it is in the protocols: the state is
    taken out while a transition runs.  Logging and [State::name] are left out,
    and so are the [Rc]s, which share immutable messages.

    Definitions have the names of the source, prefixed by the type where Rust
    methods would clash: [State_send], [Inner_send] and [Push_send] are
    [State::send], [Inner::send] and [Push::send].

    ** What is proved

    - The data: [Priolist] refines an abstract map from ids to priorities and
      activity; what it pops is active and of the best priority, and nobody
      waits more than one round ([priolist_refines_spec], [priolist_pop_fair],
      [priolist_peek_active]).  One hazard of [remove] is exhibited
      ([priolist_remove_dangles]) and excluded by [remove_safe] elsewhere.
    - The contract ([Protocol.Contract]): the facade sends one request at a time.
      Each protocol promises that no call panics, that every request gets exactly
      one reply of its kind, that the timer of a request is cancelled when it is
      answered by anything else, that no other timer is cancelled but its own, and
      that the poller is told of every change of readiness.  Every protocol is an
      instance, [drive_ok] lifts the promise to sequences of calls, and the
      [*_conversation] theorems state it for fresh sockets.  [Protocol.good] is
      the obligation on one transition, with rules for the usual shapes
      ([good_take], [good_reply], [good_expire], ...), so that a protocol's
      instance is one small lemma per transition.
    - What each protocol is for: PUB, BUS and SURVEYOR reach every ready pipe
      once and nobody else ([pub_broadcasts], [bus_forwards], [surv_broadcasts]);
      SUB filters ([sub_filters]); PAIR is exclusive ([pair_exclusive]); REQ and
      SURVEYOR match replies to ids ([req_reply_matches], [surv_only_current]) and
      keep their timers ([req_resend], [surv_deadline_ends]); REP parses routes
      exactly ([rep_accepts_routes]) and sends the reply back where the request
      came from ([rep_answers_origin]); RESPONDENT is REP ([resp_is_rep]).
    - REQ and REP together: a request crosses as many devices as the time to live
      allows, and its reply comes back by the way it came and is delivered
      ([exchange_round_trip]); one device more and the request is dropped
      ([exchange_too_far]).
    - The socket, over any protocol with a contract: [relay] tells which call of
      the protocol a call of the socket amounts to; from it the contract with the
      facade follows ([socket_conversation], [socket_disarms]), then reconnections,
      options, accepted pipes and closing ([socket_*]).
    - The transports: whatever pieces the network makes, a frame sent is the frame
      received ([tcp_round_trip], [ipc_round_trip]; over TCP a message with a header
      and no body that is cut inside its header is not: [tcp_empty_body_panics]), the two ends agree on their
      protocols ([handshake_agrees]), and a pipe tells its socket a coherent story
      ([pipe_lifecycle]); on Windows it tells the one that unix tells when it hears of
      no hang up, over a stub that reads and writes nothing after each message and
      connects when it is registered ([windows_pipe_is_unix]).  A transport proves one lemma per step ([Framing.Sends]),
      a pipe relies on [Stream.StubLaws], which [Framing] proves of both, for the
      messages each takes: those that fit a vector, and for TCP not the ones above.
    - Session, probes, devices, acceptors: [session_links], [probe_refines] (a probe
      is its watch), [device_answers_checks], [acceptor_accepts].
    - The reactor: ids of timers, given once, over the timer of mio-extras
      ([schedule_refines]); and on any interleaving of requests, signals, timeouts
      and readiness over any sockets of any protocols ([Tenants.AnyProtocol] is
      one type with all ten), no panic, one reply to each request, in order, and
      no timeout that hits another request than its own ([reactor_conversation]).
      This discharges what the contract of the sockets supposes of timers.
      [process_channel_ends] is the termination of the loop over the channel; the
      loop over the bus has no such bound, signals make signals.
    - The facade: composed with the reactor, in disciplined runs, the discipline "one request at a
      time" is discharged too, and no call ever gets an unexpected reply
      ([facade_conversation]), down to the drop of a socket, which returns once the
      reactor has removed it; a bridge loses, repeats and reorders nothing
      ([bridge_forwards]).
    - The messages, end to end: what the application gets from a socket is drawn,
      in order and each once, from what the pipes of that socket read, payloads
      unchanged but for the ids and routes cut off their front
      ([application_gets]).  Each protocol promises it of one call
      ([Tenants.tenant_hands]); [Integrity] follows the messages over the bus,
      through the socket and the channel of replies.  The other way, a message that
      the pipes of a socket are given, be it held, resent or broadcast, has the
      payload of one the application asked that very socket to send
      ([application_sends]): each protocol promises that what it sends, and what it
      keeps, it was given ([Provenance.provenance]), and [Outbound] follows it from
      the calls over the channel, the socket and the bus.  Both are proved as
      invariants of the steps, one handler at a time ([Walk.walkable]).
    - Integers at their width: [req_ids_bounds].
    - The hypotheses are not idle: [peer_that_leaves_panics] is a program over TCP that
      breaks the one about [remove] and ends in a panic of the reactor;
      [tcp_empty_body_panics] is a pipe that panics; and the other programs of
      [Scenarios] block, lose a request or leave things behind.
    - Some theorems state that the code does not do what its documentation or its
      callers expect; their comments say so ([req_malformed_extra_reply],
      [rep_late_ack_loses_route], [rep_send_lost_with_pipe],
      [surv_deadline_ignored], [resp_announces_twice], [socket_retry_constant],
      [handshake_cut]).  The PAIR that prefetches delivers in order
      ([prefetch_in_order]) and is not finished ([prefetch_forgets_timer],
      [prefetch_loses_message], [prefetch_unannounced]): the tests it disables
      fail on the model too ([prefetch_disabled_fails]).

    Hypotheses. A sequence of calls is [disciplined] when each call is allowed
    where it is made: one request at a time, timers that fire while their request
    waits, and the [guard] of the protocol (a pipe is added once and under its own
    id with a priority in range, the [remove] hazard is avoided, messages from the
    network are not too short, ids do not overflow).  [disciplined] computes, and
    each theorem has a witness on a concrete conversation.  The byteorder crate is
    a class with its documented laws ([Codec.ByteOrder]), and so is the conversion of
    slices by the iovec crate, which panics on an empty one ([Tcp.IoVec]).  Over the reactor,
    [rx_disciplined] supposes of each step the guards of the protocols, that no
    pipe or acceptor panics, that ids do not run out, and of each request that its
    socket exists and does not wait; [sys_disciplined] drops the last, which the
    facade ensures.  A socket asked to close is asked nothing more, but what was on
    its way to it still comes; its protocol is then [asleep], with a guard of its
    own.  The timer of mio-extras is a class with its documented laws
    ([Timers.TimerLaws], instance [ListTimer]); pipes, acceptors and transports are
    classes too, with the instances of [Acceptor].

    Fuel: [Rep.take_hops] recurses on [ttl - hops], the bound the loop itself
    checks.  The loops of the transport operations go from step to later step:
    three steps for a send, two for a reception, is their fuel, and
    [Framing.resume_at_ends] and [Framing.recv_resume_at_ends] show that it never
    runs out.  The loops of the dispatcher and of the devices take fuel and say
    whether it ran out; [process_channel_ends] gives enough for the first.

    ** What is not modelled, and why

    mio itself, its poll and its channels, the sockets of the operating system (mio,
    mio-uds, mio-named-pipes), iovec and byteorder are other people's code: classes, with
    their documented laws where a theorem needs one.  The spawning of the thread
    ([SessionBuilder::build]), the constructors that only copy their arguments, [Debug]
    and [State::name] are glue.  The examples are command line programs over
    those sockets; the tests that are commented out and the one of lib.rs, which is
    about the language, say nothing of the library.
    What the theorems leave open: in [System] each thread has a socket, and devices and
    probes answer to their own theorems ([bridge_forwards], [probe_refines]); the
    exchange of [Exchange] goes through the protocols, one after the other, and the
    network between two reactors is that of [tcp_round_trip], pipe by pipe.  Programs
    with all of it at once are run, in [IntegrationTests]. *)

(** * Prelude

    Errors, machine arithmetic, the handler monad and its reasoning rules. *)

From stdpp Require Export base tactics list gmap strings numbers sorting.

Declare Scope scaproust_scope.
Delimit Scope scaproust_scope with scap.
Global Open Scope Z_scope.

(** ** Results and [io::Error] (std::io, src/io_error.rs) *)

(** [io::ErrorKind]: the kinds the sources build or test, and any other one. *)
Inductive ErrorKind : Type :=
| KOther
| KInvalidData
| KWouldBlock
| KInvalidInput
| KTimedOut
| KInterrupted
| KUnlisted (code : Z).

Record io_error : Type := mk_io_error { err_kind : ErrorKind; err_msg : string }.

#[global] Instance ErrorKind_eq_dec : EqDecision ErrorKind.
Proof. solve_decision. Defined.
#[global] Instance io_error_eq_dec : EqDecision io_error.
Proof. solve_decision. Defined.

Definition other_io_error (msg : string) : io_error := mk_io_error KOther msg.
Definition invalid_data_io_error (msg : string) : io_error := mk_io_error KInvalidData msg.
Definition would_block_io_error (msg : string) : io_error := mk_io_error KWouldBlock msg.
Definition invalid_input_io_error (msg : string) : io_error := mk_io_error KInvalidInput msg.
Definition timedout_io_error (msg : string) : io_error := mk_io_error KTimedOut msg.

Inductive result (A : Type) : Type :=
| Ok (a : A)
| Err (e : io_error).
Arguments Ok {A} a.
Arguments Err {A} e.

(** [Result::ok]. *)
Definition result_ok {A} (r : result A) : option A :=
  match r with Ok a => Some a | Err _ => None end.

(** ** Machine integers

    A fixed-width integer is a [Z]; the width appears where the source can
    wrap.  Rust's [+] panics on overflow when the build has overflow checks
    (the dev profile) and wraps otherwise (the release profile): the profile is
    the parameter [overflow_checks]. *)

Class Build : Type := { overflow_checks : bool }.

Definition wrap (w x : Z) : Z := x mod 2 ^ w.
Definition in_range (w x : Z) : Prop := 0 <= x < 2 ^ w.

(** [x + y] at width [w]; [None] is a panic. *)
Definition checked_add `{Build} (w x y : Z) : option Z :=
  if decide (x + y < 2 ^ w) then Some (x + y)
  else if overflow_checks then None
  else Some (wrap w (x + y)).

(** A range [lo..hi] of indices, and one of integers. *)
Definition range (lo hi : nat) : list nat := seq lo (hi - lo).
Definition zrange (lo hi : Z) : list Z := seqZ lo (hi - lo).

(** [Duration], in nanoseconds. *)
Abbreviation Duration := Z.
Definition from_millis (n : Z) : Duration := n * 1000000.
Definition from_secs (n : Z) : Duration := n * 1000000000.

Lemma checked_add_fits `{Build} w x y :
  x + y < 2 ^ w → checked_add w x y = Some (x + y).
Proof. intros Hlt. unfold checked_add. by rewrite decide_True. Qed.

Lemma elem_of_range i lo hi : i ∈ range lo hi ↔ (lo <= i < hi)%nat.
Proof. unfold range. rewrite elem_of_seq. lia. Qed.

Lemma elem_of_zrange x lo hi : x ∈ zrange lo hi ↔ lo <= x < hi.
Proof. unfold zrange. rewrite elem_of_seqZ. lia. Qed.

(** ** The handler monad

    A handler runs against a history of what has been emitted so far and either
    finishes with a value and the list of things it emitted itself, in order, or
    panics (an index out of bounds, an overflow with overflow checks). *)

Inductive outcome (E A : Type) : Type :=
| Done (a : A) (out : list E)
| Panicked.
Arguments Done {E A} a out.
Arguments Panicked {E A}.

Definition M (E A : Type) : Type := list E → outcome E A.

#[global] Instance M_ret {E} : MRet (M E) := λ A a _, Done a [].
#[global] Instance M_bind {E} : MBind (M E) := λ A B k m h,
  match m h with
  | Done a o1 =>
      match k a (h ++ o1) with
      | Done b o2 => Done b (o1 ++ o2)
      | Panicked => Panicked
      end
  | Panicked => Panicked
  end.

(** Emit one event; read the history; panic; run a fallible pure function. *)
Definition emit {E} (e : E) : M E () := λ _, Done () [e].
Definition history {E} : M E (list E) := λ h, Done h [].
Definition panic {E A} : M E A := λ _, Panicked.
Definition lift {E A} (o : option A) : M E A := λ _,
  match o with Some a => Done a [] | None => Panicked end.

(** A loop over a vector: [for x in l { f(x) }]. *)
Fixpoint for_each {E A} (f : A → M E ()) (l : list A) : M E () :=
  match l with
  | [] => mret ()
  | x :: r => f x;; for_each f r
  end.

(** [if let Some(x) = o { f(x) }]. *)
Definition if_some {E A} (o : option A) (f : A → M E ()) : M E () :=
  match o with Some x => f x | None => mret () end.

(** What a finished run emitted, and its value. *)
Definition emitted {E A} (o : outcome E A) : list E :=
  match o with Done _ out => out | Panicked => [] end.
Definition returned {E A} (o : outcome E A) : option A :=
  match o with Done a _ => Some a | Panicked => None end.

Lemma bind_run {E A B} (m : M E A) (k : A → M E B) h :
  (m ≫= k) h =
  match m h with
  | Done a o1 =>
      match k a (h ++ o1) with
      | Done b o2 => Done b (o1 ++ o2)
      | Panicked => Panicked
      end
  | Panicked => Panicked
  end.
Proof. reflexivity. Qed.

Lemma bind_done {E A B} (m : M E A) (k : A → M E B) h a o1 b o2 :
  m h = Done a o1 → k a (h ++ o1) = Done b o2 → (m ≫= k) h = Done b (o1 ++ o2).
Proof. intros Hm Hk. rewrite bind_run, Hm, Hk. done. Qed.

Lemma ret_run {E A} (a : A) (h : list E) : (mret a : M E A) h = Done a [].
Proof. reflexivity. Qed.

Lemma emit_run {E} (e : E) h : emit e h = Done () [e].
Proof. reflexivity. Qed.

Lemma lift_some {E A} (a : A) (h : list E) : lift (Some a) h = Done a [].
Proof. reflexivity. Qed.

(** ** What a handler may emit and return

    [runs Q R m]: whatever history [m] runs against, if it finishes, all it emits
    satisfies [Q] and its value satisfies [R].  The rules below go through a
    handler's text; [every Q] forgets the value. *)

Definition runs {E A} (Q : E → Prop) (R : A → Prop) (m : M E A) : Prop :=
  ∀ h a out, m h = Done a out → Forall Q out ∧ R a.

Abbreviation every Q := (runs Q (λ _, True)).

Section runs.
Context {E : Type} (Q : E → Prop).

Lemma runs_ret {A} (R : A → Prop) a : R a → runs Q R (mret a : M E A).
Proof. intros HR h a' out [= <- <-]. by split. Qed.

Lemma runs_bind {A B} (R1 : A → Prop) (R : B → Prop) (m : M E A) (k : A → M E B) :
  runs Q R1 m → (∀ a, R1 a → runs Q R (k a)) → runs Q R (m ≫= k).
Proof.
  intros Hm Hk h b out. rewrite bind_run. destruct (m h) as [a o1|] eqn:H1; [|done].
  destruct (k a (h ++ o1)) as [b' o2|] eqn:H2; [|done]. intros [= <- <-].
  destruct (Hm _ _ _ H1) as [Ho1 HR1]. destruct (Hk _ HR1 _ _ _ H2) as [Ho2 HR].
  split; [by apply Forall_app|done].
Qed.

Lemma every_bind {A B} (R : B → Prop) (m : M E A) (k : A → M E B) :
  every Q m → (∀ a, runs Q R (k a)) → runs Q R (m ≫= k).
Proof. intros Hm Hk. eapply runs_bind; [apply Hm|auto]. Qed.

Lemma runs_emit e (R : () → Prop) : Q e → R () → runs Q R (emit e).
Proof. intros HQ HR h [] out [= <-]. split; [by repeat constructor|done]. Qed.

Lemma every_history : every Q history.
Proof. intros h a out [= _ <-]. by split. Qed.

Lemma runs_lift {A} (R : A → Prop) o : (∀ a, o = Some a → R a) → runs Q R (lift o).
Proof.
  intros HR h a out. unfold lift. destruct o; [|done]. intros [= <- <-]. split; [done|by apply HR].
Qed.

Lemma every_for_each {A} (f : A → M E ()) l : (∀ x, x ∈ l → every Q (f x)) → every Q (for_each f l).
Proof.
  induction l as [|x l IH]; intros Hf; simpl; [by apply runs_ret|].
  apply every_bind; [apply Hf; set_solver|]. intros _. apply IH. set_solver.
Qed.

Lemma every_if_some {A} (o : option A) (f : A → M E ()) :
  (∀ x, o = Some x → every Q (f x)) → every Q (if_some o f).
Proof. intros Hf. destruct o; [by apply Hf|by apply runs_ret]. Qed.
End runs.

Lemma runs_mono {E A} (Q Q' : E → Prop) (R R' : A → Prop) (m : M E A) :
  runs Q R m → (∀ e, Q e → Q' e) → (∀ a, R a → R' a) → runs Q' R' m.
Proof.
  intros Hm HQ HR h a out Hrun. destruct (Hm _ _ _ Hrun) as [Ho Ha].
  split; [by eapply Forall_impl|by apply HR].
Qed.

(** Walk a handler, leaving what is emitted and returned as goals. *)
Ltac walk :=
  repeat first
    [ apply runs_ret | apply every_history
    | apply every_bind; [|intros ?]
    | apply every_if_some; intros ? _
    | apply runs_emit
    | apply runs_lift; intros ? _
    | match goal with
      | |- runs _ _ (match ?x with _ => _ end) => destruct x eqn:?
      end ];
  try exact I.

(** ** Runs that correspond

    [like f m m']: [m'] does what [m] does, with the same trace, and its value is
    [f] of [m]'s, whatever the histories.  A component that repeats another one on
    its own data is proved like it once, and inherits what is known of it. *)

Definition outcome_map {E A B} (f : A → B) (o : outcome E A) : outcome E B :=
  match o with Done a out => Done (f a) out | Panicked => Panicked end.

Definition like {E A B} (f : A → B) (m : M E A) (m' : M E B) : Prop :=
  ∀ h h', m' h' = outcome_map f (m h).

(** The outcome does not depend on the history. *)
Definition steady {E A} (m : M E A) : Prop := ∀ h h', m h' = m h.

Section like.
Context {E : Type}.

Lemma steady_ret {A} (a : A) : steady (mret a : M E A).
Proof. by intros h h'. Qed.
Lemma steady_emit (e : E) : steady (emit e).
Proof. by intros h h'. Qed.
Lemma steady_lift {A} (o : option A) : steady (lift o : M E A).
Proof. by intros h h'. Qed.
Lemma steady_bind {A B} (m : M E A) (k : A → M E B) :
  steady m → (∀ a, steady (k a)) → steady (m ≫= k).
Proof.
  intros Hm Hk h h'. rewrite !bind_run, (Hm h h'). destruct (m h) as [a o1|]; [|done].
  by rewrite (Hk a (h ++ o1)).
Qed.
Lemma steady_if_some {A} (o : option A) (f : A → M E ()) :
  (∀ x, steady (f x)) → steady (if_some o f).
Proof. intros Hf. destruct o; [apply Hf|apply steady_ret]. Qed.

Lemma like_ret {A B} (f : A → B) a b : b = f a → like (E := E) f (mret a) (mret b).
Proof. by intros -> h. Qed.

Lemma like_bind {A B A' B'} (f : A → A') (g : B → B') (m : M E A) (m' : M E A')
    (k : A → M E B) (k' : A' → M E B') :
  like f m m' → (∀ a, like g (k a) (k' (f a))) → like g (m ≫= k) (m' ≫= k').
Proof.
  intros Hm Hk h h'. rewrite !bind_run, (Hm h h'). destruct (m h) as [a o1|]; [|done]. simpl.
  rewrite (Hk a (h ++ o1)). by destruct (k a _).
Qed.

(** The same call on both sides. *)
Lemma like_same {A B B'} (g : B → B') (m : M E A) (k : A → M E B) (k' : A → M E B') :
  steady m → (∀ a, like g (k a) (k' a)) → like g (m ≫= k) (m ≫= k').
Proof. intros Hm. apply (like_bind id). intros h h'. rewrite (Hm h h'). by destruct (m h). Qed.
End like.

Create HintDb steady.
#[export] Hint Resolve steady_ret steady_emit steady_lift steady_bind steady_if_some : steady.
#[export] Hint Constants Transparent : steady.

(** ** Refinement

    [tracks R m m']: run against the same history, both finish with the same
    trace, and values related by [R]: [m] implements [m']. *)

Definition tracks {E A B} (R : A → B → Prop) (m : M E A) (m' : M E B) : Prop :=
  ∀ h, ∃ a b out, m h = Done a out ∧ m' h = Done b out ∧ R a b.

Section tracks.
Context {E : Type}.

Lemma tracks_ret {A B} (R : A → B → Prop) a b : R a b → tracks (E := E) R (mret a) (mret b).
Proof. intros HR h. by exists a, b, []. Qed.

Lemma tracks_bind {A B A' B'} (R : A → A' → Prop) (R' : B → B' → Prop) (m : M E A) (m' : M E A')
    (k : A → M E B) (k' : A' → M E B') :
  tracks R m m' → (∀ a a', R a a' → tracks R' (k a) (k' a')) → tracks R' (m ≫= k) (m' ≫= k').
Proof.
  intros Hm Hk h. destruct (Hm h) as (a & a' & o1 & H1 & H1' & HR).
  destruct (Hk a a' HR (h ++ o1)) as (b & b' & o2 & H2 & H2' & HR').
  exists b, b', (o1 ++ o2). split; [by eapply bind_done|]. split; [by eapply bind_done|done].
Qed.

(** The same call on both sides, when it finishes. *)
Lemma tracks_same {A B B'} (R' : B → B' → Prop) (m : M E A) (k : A → M E B) (k' : A → M E B') :
  (∀ h, ∃ a out, m h = Done a out) → (∀ a, tracks R' (k a) (k' a)) → tracks R' (m ≫= k) (m ≫= k').
Proof.
  intros Hm Hk. apply (tracks_bind eq); [|by intros a ? <-].
  intros h. destruct (Hm h) as (a & out & Hrun). by exists a, a, out.
Qed.

(** A silent step of the implementation. *)
Lemma tracks_silent {A B B'} (R' : B → B' → Prop) (m : M E A) a (k : A → M E B) (m' : M E B') :
  (∀ h, m h = Done a []) → tracks R' (k a) m' → tracks R' (m ≫= k) m'.
Proof.
  intros Hm Hk h. destruct (Hk h) as (b & b' & out & H1 & H2 & HR). exists b, b', out.
  rewrite bind_run, Hm, app_nil_r, H1. by split.
Qed.

Lemma tracks_mono {A B} (R R' : A → B → Prop) (m : M E A) (m' : M E B) :
  tracks R m m' → (∀ a b, R a b → R' a b) → tracks R' m m'.
Proof. intros Hm HR h. destruct (Hm h) as (a & b & out & ? & ? & ?). exists a, b, out. auto. Qed.

Lemma emit_finishes (e : E) h : ∃ a out, emit e h = Done a out.
Proof. by exists (), [e]. Qed.

Lemma if_some_finishes {A} (o : option A) (f : A → M E ()) h :
  (∀ x h, ∃ a out, f x h = Done a out) → ∃ a out, if_some o f h = Done a out.
Proof. intros Hf. destruct o; [apply Hf|by exists (), []]. Qed.

Lemma for_each_finishes {A} (f : A → M E ()) l h :
  (∀ x h, ∃ a out, f x h = Done a out) → ∃ a out, for_each f l h = Done a out.
Proof.
  intros Hf. revert h. induction l as [|x l IH]; intros h; [by exists (), []|]. cbn [for_each].
  destruct (Hf x h) as ([] & o1 & H1). destruct (IH (h ++ o1)) as ([] & o2 & H2).
  exists (), (o1 ++ o2). by eapply bind_done.
Qed.
End tracks.


(** ** Runs that settle

    [settles R m]: [m] finishes, whatever the history, with a value in [R]. *)

Definition settles {E A} (R : A → Prop) (m : M E A) : Prop := ∀ h, ∃ a out, m h = Done a out ∧ R a.

Section settles.
Context {E : Type}.

Lemma settles_ret {A} (R : A → Prop) a : R a → settles (E := E) R (mret a).
Proof. intros HR h. by exists a, []. Qed.

Lemma settles_emit (R : () → Prop) (e : E) : R () → settles R (emit e).
Proof. intros HR h. by exists (), [e]. Qed.

Lemma settles_history (R : list E → Prop) : (∀ h, R h) → settles R history.
Proof. intros HR h. exists h, []. by split. Qed.

Lemma settles_lift {A} (R : A → Prop) o : (∃ a, o = Some a ∧ R a) → settles (E := E) R (lift o).
Proof. intros (a & -> & HR) h. by exists a, []. Qed.

Lemma settles_bind {A B} (R1 : A → Prop) (R : B → Prop) (m : M E A) (k : A → M E B) :
  settles R1 m → (∀ a, R1 a → settles R (k a)) → settles R (m ≫= k).
Proof.
  intros Hm Hk h. destruct (Hm h) as (a & o1 & Ha & HR1). destruct (Hk a HR1 (h ++ o1)) as (b & o2 & Hb & HR).
  exists b, (o1 ++ o2). split; [by eapply bind_done|done].
Qed.

(** What comes first says nothing. *)
Lemma settles_then {A B} (R : B → Prop) (m : M E A) (k : A → M E B) :
  settles (λ _, True) m → (∀ a, settles R (k a)) → settles R (m ≫= k).
Proof. intros Hm Hk. eapply settles_bind; [done|auto]. Qed.

Lemma settles_if_some {A} (o : option A) (f : A → M E ()) :
  (∀ x, settles (λ _, True) (f x)) → settles (λ _, True) (if_some o f).
Proof. intros Hf. destruct o; [apply Hf|by apply settles_ret]. Qed.

Lemma settles_for_each {A} (f : A → M E ()) l :
  (∀ x, settles (λ _, True) (f x)) → settles (λ _, True) (for_each f l).
Proof.
  intros Hf. induction l as [|x l IH]; cbn [for_each]; [by apply settles_ret|]. by apply settles_then.
Qed.
End settles.
