(* ===== verification/Core.v ===== *)
(** * Core data: ids, messages, endpoints, options, events

    Models src/core/mod.rs (ids, endpoint descriptions, messages, the id
    hasher), src/core/config.rs (socket options), the data of
    src/core/context.rs and src/core/socket.rs (events, timed tasks, requests and
    replies), src/proto/mod.rs (protocol numbers) and src/sequence.rs. *)

From S2P Require Import Prelude.

(** ** Ids (core/mod.rs): newtypes over [usize] *)

Record Scheduled : Type := Scheduled_from { Scheduled_into : Z }.
Record EndpointId : Type := EndpointId_from { EndpointId_into : Z }.
Record SocketId : Type := SocketId_from { SocketId_into : Z }.
Record DeviceId : Type := DeviceId_from { DeviceId_into : Z }.
Record ProbeId : Type := ProbeId_from { ProbeId_into : Z }.

#[global] Instance Scheduled_eq_dec : EqDecision Scheduled.
Proof. solve_decision. Defined.
#[global] Instance EndpointId_eq_dec : EqDecision EndpointId.
Proof. solve_decision. Defined.
#[global] Instance SocketId_eq_dec : EqDecision SocketId.
Proof. solve_decision. Defined.
#[global] Instance DeviceId_eq_dec : EqDecision DeviceId.
Proof. solve_decision. Defined.
#[global] Instance ProbeId_eq_dec : EqDecision ProbeId.
Proof. solve_decision. Defined.

#[global] Instance Scheduled_countable : Countable Scheduled.
Proof. by apply (inj_countable' Scheduled_into Scheduled_from); intros []. Defined.
#[global] Instance EndpointId_countable : Countable EndpointId.
Proof. by apply (inj_countable' EndpointId_into EndpointId_from); intros []. Defined.
#[global] Instance SocketId_countable : Countable SocketId.
Proof. by apply (inj_countable' SocketId_into SocketId_from); intros []. Defined.
#[global] Instance DeviceId_countable : Countable DeviceId.
Proof. by apply (inj_countable' DeviceId_into DeviceId_from); intros []. Defined.
#[global] Instance ProbeId_countable : Countable ProbeId.
Proof. by apply (inj_countable' ProbeId_into ProbeId_from); intros []. Defined.

Abbreviation Timeout := (option Scheduled).

(** ** Endpoint descriptions (core/mod.rs) *)

Record EndpointDesc : Type := mkEndpointDesc {
  send_priority : Z;
  recv_priority : Z;
  tcp_no_delay : bool;
  recv_max_size : Z
}.

Record EndpointSpec : Type := mkEndpointSpec { url : string; desc : EndpointDesc }.
Record EndpointTmpl : Type := mkEndpointTmpl { pids : Z * Z; spec : EndpointSpec }.

Record PollReq : Type := mkPollReq { req_sid : SocketId; req_recv : bool; req_send : bool }.
Record PollRes : Type := mkPollRes { res_recv : bool; res_send : bool }.

(** [String::into_bytes]: a string is its UTF-8 bytes. *)
Definition into_bytes (s : string) : list Z :=
  (λ c, Z.of_N (Ascii.N_of_ascii c)) <$> String.list_ascii_of_string s.

(** ** Message (core/mod.rs): vectors of bytes, a byte being a [Z] in [0..256) *)

Abbreviation bytes := (list Z).

Record Message : Type := mkMessage { header : bytes; body : bytes }.

Definition Message_new : Message := mkMessage [] [].
Definition from_body (b : bytes) : Message := mkMessage [] b.
Definition from_header_and_body (h b : bytes) : Message := mkMessage h b.
Definition Message_len (m : Message) : Z := Z.of_nat (length (header m) + length (body m)).
Definition get_header (m : Message) : bytes := header m.
Definition get_body (m : Message) : bytes := body m.
Definition Message_split (m : Message) : bytes * bytes := (header m, body m).
Definition without_header (m : Message) : Message := from_body (body m).
Definition Message_into_vec (m : Message) : bytes := body m.
Definition Message_from_vec (v : bytes) : Message := from_body v.

#[global] Instance Message_eq_dec : EqDecision Message.
Proof. solve_decision. Defined.

(** ** IdHasher (core/mod.rs): a wrapping sum of what is written *)

Record IdHasher : Type := mkIdHasher { finish : Z }.

Definition IdHasher_default : IdHasher := mkIdHasher 0.
Definition write_u64 (i : Z) (self : IdHasher) : IdHasher := mkIdHasher (wrap 64 (finish self + i)).
Definition write (bs : bytes) (self : IdHasher) : IdHasher :=
  foldl (λ s x, write_u64 x s) self bs.
(** [i as u64] of a signed integer is its value modulo 2^64, and of an unsigned
    one the value itself. *)
Definition write_int (i : Z) (self : IdHasher) : IdHasher := write_u64 (wrap 64 i) self.
Definition build_hasher : IdHasher := mkIdHasher 0.

(** ** Protocol numbers (proto/mod.rs) *)

Definition PAIR : Z := 16.
Definition PUB : Z := 2 * 16.
Definition SUB : Z := 2 * 16 + 1.
Definition REQ : Z := 3 * 16.
Definition REP : Z := 3 * 16 + 1.
Definition PUSH : Z := 5 * 16.
Definition PULL : Z := 5 * 16 + 1.
Definition SURVEYOR : Z := 6 * 16 + 2.
Definition RESPONDENT : Z := 6 * 16 + 3.
Definition BUS : Z := 7 * 16.

(** ** Sequence (sequence.rs): a counter shared through an [Rc<Cell<usize>>]

    Every clone of a sequence reads and writes the same cell, so the model keeps
    one cell and passes it to whoever holds a clone. *)

Definition Sequence : Type := Z.
Definition Sequence_new : Sequence := 0.
Definition Sequence_next `{Build} (self : Sequence) : option (Z * Sequence) :=
  n ← checked_add 64 self 1; Some (self, n).

(** ** Socket options (core/config.rs) *)

Record Config : Type := mkConfig {
  cfg_send_timeout : option Duration;
  cfg_send_priority : Z;
  cfg_recv_timeout : option Duration;
  cfg_recv_priority : Z;
  cfg_retry_ivl : Duration;
  cfg_retry_ivl_max : option Duration;
  cfg_tcp_no_delay : bool;
  cfg_recv_max_size : Z
}.

Inductive ConfigOption : Type :=
| Linger (d : Duration)
| SendTimeout (d : option Duration)
| SendPriority (p : Z)
| RecvTimeout (d : option Duration)
| RecvPriority (p : Z)
| RecvMaxSize (n : Z)
| RetryIvl (d : Duration)
| RetryIvlMax (d : option Duration)
| TcpNoDelay (b : bool)
| Subscribe (s : string)
| Unsubscribe (s : string)
| ReqResendIvl (d : Duration)
| SurveyDeadline (d : Duration).

Definition Config_default : Config := {|
  cfg_send_timeout := None;
  cfg_send_priority := 8;
  cfg_recv_timeout := None;
  cfg_recv_priority := 8;
  cfg_retry_ivl := from_millis 100;
  cfg_retry_ivl_max := None;
  cfg_tcp_no_delay := false;
  cfg_recv_max_size := 1024 * 1024
|}.

(** [Config::set]: the updated record, or the error with the record untouched. *)
Definition Config_set (cfg_opt : ConfigOption) (self : Config) : result () * Config :=
  let '(mkConfig st sp rt rp ri rim nd ms) := self in
  match cfg_opt with
  | SendTimeout t => (Ok (), mkConfig t sp rt rp ri rim nd ms)
  | SendPriority p => (Ok (), mkConfig st p rt rp ri rim nd ms)
  | RecvTimeout t => (Ok (), mkConfig st sp t rp ri rim nd ms)
  | RecvPriority p => (Ok (), mkConfig st sp rt p ri rim nd ms)
  | RetryIvl i => (Ok (), mkConfig st sp rt rp i rim nd ms)
  | RetryIvlMax i => (Ok (), mkConfig st sp rt rp ri i nd ms)
  | RecvMaxSize x => (Ok (), mkConfig st sp rt rp ri rim nd x)
  | TcpNoDelay x => (Ok (), mkConfig st sp rt rp ri rim x ms)
  | _ => (Err (invalid_input_io_error "option not supported"), self)
  end.

Definition is_generic (o : ConfigOption) : bool :=
  match o with
  | Linger _ | SendTimeout _ | SendPriority _ | RecvMaxSize _ | RecvTimeout _
  | RecvPriority _ | RetryIvl _ | RetryIvlMax _ | TcpNoDelay _ => true
  | _ => false
  end.

(** ** Events and timed tasks (core/context.rs) *)

Inductive Command : Type := Poll.

Inductive Event : Type :=
| CanSend (b : bool)
| CanRecv (b : bool)
| Closed.

Inductive Schedulable : Type :=
| Reconnect (eid : EndpointId) (sp : EndpointSpec)
| Rebind (eid : EndpointId) (sp : EndpointSpec)
| TaskSendTimeout
| TaskRecvTimeout
| ReqResend
| SurveyCancel.

(** ** Requests and replies of a socket (core/socket.rs) *)

Inductive Request : Type :=
| RequestConnect (u : string)
| RequestBind (u : string)
| RequestSend (m : Message) (try : bool)
| RequestRecv (try : bool)
| RequestSetOption (o : ConfigOption)
| RequestClose.

Inductive Reply : Type :=
| ReplyErr (e : io_error)
| ReplyConnect (eid : EndpointId)
| ReplyBind (eid : EndpointId)
| ReplySend
| ReplyRecv (m : Message)
| ReplySetOption.

#[global] Instance Event_eq_dec : EqDecision Event.
Proof. solve_decision. Defined.
#[global] Instance Reply_eq_dec : EqDecision Reply.
Proof. solve_decision. Defined.

(** ** Facts *)

Lemma Sequence_next_fresh `{Build} s :
  0 <= s → s + 1 < 2 ^ 64 → Sequence_next s = Some (s, s + 1).
Proof. intros ? ?. unfold Sequence_next. by rewrite checked_add_fits. Qed.

Lemma write_finish bs s :
  0 <= finish s < 2 ^ 64 → finish (write bs s) = wrap 64 (finish s + foldr Z.add 0 bs).
Proof.
  unfold write. revert s. induction bs as [|b bs IH]; intros s Hs; simpl.
  - unfold wrap. rewrite Z.mod_small; lia.
  - rewrite IH.
    + simpl. unfold wrap. rewrite Zplus_mod_idemp_l. f_equal. lia.
    + simpl. unfold wrap. apply Z.mod_pos_bound. lia.
Qed.
