(* ===== verification/Context.v ===== *)
(** * The context of a socket, and endpoints

    Models the traits [Network] (src/core/network.rs), [Scheduler] and [Context]
    (src/core/context.rs) and the endpoints of src/core/endpoint.rs.

    A handler is given a [&mut dyn Context] and holds a clone of the reply
    channel.  Every call through either is one [effect], emitted in order; the
    calls that return something get their answer from [Env], which may depend on
    the whole history, so that a theorem for every [Env] holds for every
    deterministic implementation of the traits. *)

From S2P Require Import Prelude Core.

Inductive effect : Type :=
| NetConnect (sid : SocketId) (tmpl : EndpointTmpl)
| NetReconnect (sid : SocketId) (eid : EndpointId) (tmpl : EndpointTmpl)
| NetBind (sid : SocketId) (tmpl : EndpointTmpl)
| NetRebind (sid : SocketId) (eid : EndpointId) (tmpl : EndpointTmpl)
| NetOpen (eid : EndpointId) (remote : bool)
| NetClose (eid : EndpointId) (remote : bool)
| NetSend (eid : EndpointId) (msg : Message)
| NetRecv (eid : EndpointId)
| SchSchedule (task : Schedulable) (delay : Duration)
| SchCancel (s : Scheduled)
| Raise (evt : Event)
| SendReply (r : Reply).

Abbreviation trace := (list effect).
Abbreviation P := (M effect).

(** What the implementation of the traits answers, and the iteration order of
    the standard library's hash collections, which is unspecified: [drain]
    yields every element once, in some order that may differ from call to call. *)
Class Env : Type := {
  env_build :: Build;
  connect_answer : trace → SocketId → EndpointTmpl → result EndpointId;
  reconnect_answer : trace → SocketId → EndpointId → EndpointTmpl → result ();
  bind_answer : trace → SocketId → EndpointTmpl → result EndpointId;
  rebind_answer : trace → SocketId → EndpointId → EndpointTmpl → result ();
  schedule_answer : trace → Schedulable → Duration → result Scheduled;
  drain_set : trace → gset EndpointId → list EndpointId;
  drain_map : ∀ A, trace → gmap EndpointId A → list (EndpointId * A);
  drain_set_perm : ∀ h s, drain_set h s ≡ₚ elements s;
  drain_map_perm : ∀ A h (m : gmap EndpointId A), drain_map A h m ≡ₚ map_to_list m
}.
Arguments drain_map {_} {_} _ _.

Section context.
Context `{Env}.

(** ** Network (core/network.rs) *)

Definition ctx_connect (sid : SocketId) (tmpl : EndpointTmpl) : P (result EndpointId) :=
  h ← history; emit (NetConnect sid tmpl);; mret (connect_answer h sid tmpl).
Definition ctx_reconnect (sid : SocketId) (eid : EndpointId) (tmpl : EndpointTmpl) : P (result ()) :=
  h ← history; emit (NetReconnect sid eid tmpl);; mret (reconnect_answer h sid eid tmpl).
Definition ctx_bind (sid : SocketId) (tmpl : EndpointTmpl) : P (result EndpointId) :=
  h ← history; emit (NetBind sid tmpl);; mret (bind_answer h sid tmpl).
Definition ctx_rebind (sid : SocketId) (eid : EndpointId) (tmpl : EndpointTmpl) : P (result ()) :=
  h ← history; emit (NetRebind sid eid tmpl);; mret (rebind_answer h sid eid tmpl).
Definition ctx_open (eid : EndpointId) (remote : bool) : P () := emit (NetOpen eid remote).
Definition ctx_close (eid : EndpointId) (remote : bool) : P () := emit (NetClose eid remote).
Definition ctx_send (eid : EndpointId) (msg : Message) : P () := emit (NetSend eid msg).
Definition ctx_recv (eid : EndpointId) : P () := emit (NetRecv eid).

(** ** Scheduler and Context (core/context.rs) *)

Definition ctx_schedule (task : Schedulable) (delay : Duration) : P (result Scheduled) :=
  h ← history; emit (SchSchedule task delay);; mret (schedule_answer h task delay).
Definition ctx_cancel (s : Scheduled) : P () := emit (SchCancel s).
Definition ctx_raise (evt : Event) : P () := emit (Raise evt).

Definition check_send_ready_change (was_ready is_ready : bool) : P () :=
  if bool_decide (was_ready = is_ready) then mret () else ctx_raise (CanSend is_ready).
Definition check_recv_ready_change (was_ready is_ready : bool) : P () :=
  if bool_decide (was_ready = is_ready) then mret () else ctx_raise (CanRecv is_ready).

(** [let _ = reply_tx.send(reply)], and [if let Some(s) = timeout { ctx.cancel(s) }]. *)
Definition send_reply (r : Reply) : P () := emit (SendReply r).
Definition cancel_opt (timeout : Timeout) : P () := if_some timeout ctx_cancel.

End context.

(** ** Endpoints (core/endpoint.rs)

    [Pipe] and [Acceptor] wrap an [Endpoint]; closing one consumes it and gives
    back the spec it was created from, when there is one. *)

Record Endpoint : Type := mkEndpoint {
  ep_id : EndpointId;
  ep_url : option string;
  ep_desc : EndpointDesc
}.
Record Pipe : Type := mkPipe { pipe_ep : Endpoint }.
Record Acceptor : Type := mkAcceptor { acceptor_ep : Endpoint }.

Definition Endpoint_new_created (id : EndpointId) (u : string) (d : EndpointDesc) : Endpoint :=
  mkEndpoint id (Some u) d.
Definition Endpoint_new_accepted (id : EndpointId) (d : EndpointDesc) : Endpoint :=
  mkEndpoint id None d.
Definition Endpoint_from_spec (id : EndpointId) (s : EndpointSpec) : Endpoint :=
  mkEndpoint id (Some (url s)) (desc s).
Definition Endpoint_open (remote : bool) (self : Endpoint) : P () := ctx_open (ep_id self) remote.
Definition Endpoint_send (msg : Message) (self : Endpoint) : P () := ctx_send (ep_id self) msg.
Definition Endpoint_recv (self : Endpoint) : P () := ctx_recv (ep_id self).
Definition Endpoint_close (remote : bool) (self : Endpoint) : P (option EndpointSpec) :=
  ctx_close (ep_id self) remote;;
  mret (match ep_url self with
        | Some u => Some (mkEndpointSpec u (ep_desc self))
        | None => None
        end).
Definition Endpoint_get_send_priority (self : Endpoint) : Z := send_priority (ep_desc self).
Definition Endpoint_get_recv_priority (self : Endpoint) : Z := recv_priority (ep_desc self).

Definition Pipe_new_connected (id : EndpointId) (u : string) (d : EndpointDesc) : Pipe :=
  mkPipe (Endpoint_new_created id u d).
Definition Pipe_new_accepted (id : EndpointId) (d : EndpointDesc) : Pipe :=
  mkPipe (Endpoint_new_accepted id d).
Definition Pipe_from_spec (id : EndpointId) (s : EndpointSpec) : Pipe :=
  mkPipe (Endpoint_from_spec id s).
Definition Pipe_open (self : Pipe) : P () := Endpoint_open true (pipe_ep self).
Definition Pipe_send (msg : Message) (self : Pipe) : P () := Endpoint_send msg (pipe_ep self).
Definition Pipe_recv (self : Pipe) : P () := Endpoint_recv (pipe_ep self).
Definition Pipe_close (self : Pipe) : P (option EndpointSpec) := Endpoint_close true (pipe_ep self).
Definition Pipe_get_send_priority (self : Pipe) : Z := Endpoint_get_send_priority (pipe_ep self).
Definition Pipe_get_recv_priority (self : Pipe) : Z := Endpoint_get_recv_priority (pipe_ep self).

Definition Acceptor_new (id : EndpointId) (u : string) (d : EndpointDesc) : Acceptor :=
  mkAcceptor (Endpoint_new_created id u d).
Definition Acceptor_from_spec (id : EndpointId) (s : EndpointSpec) : Acceptor :=
  mkAcceptor (Endpoint_from_spec id s).
Definition Acceptor_open (self : Acceptor) : P () := Endpoint_open false (acceptor_ep self).
Definition Acceptor_close (self : Acceptor) : P (option EndpointSpec) :=
  Endpoint_close false (acceptor_ep self).
Definition Acceptor_get_send_priority (self : Acceptor) : Z :=
  Endpoint_get_send_priority (acceptor_ep self).
Definition Acceptor_get_recv_priority (self : Acceptor) : Z :=
  Endpoint_get_recv_priority (acceptor_ep self).

(** The id a pipe talks to. *)
Abbreviation pipe_id p := (ep_id (pipe_ep p)).

(** ** Reading a trace *)

(** The replies sent to the facade, in order. *)
Fixpoint replies (t : trace) : list Reply :=
  match t with
  | [] => []
  | SendReply r :: t' => r :: replies t'
  | _ :: t' => replies t'
  end.

(** The messages handed to the network, with their destination. *)
Fixpoint sends (t : trace) : list (EndpointId * Message) :=
  match t with
  | [] => []
  | NetSend eid m :: t' => (eid, m) :: sends t'
  | _ :: t' => sends t'
  end.

(** The receptions asked of the network. *)
Fixpoint recvs (t : trace) : list EndpointId :=
  match t with
  | [] => []
  | NetRecv eid :: t' => eid :: recvs t'
  | _ :: t' => recvs t'
  end.

(** The timers cancelled. *)
Fixpoint cancels (t : trace) : list Scheduled :=
  match t with
  | [] => []
  | SchCancel s :: t' => s :: cancels t'
  | _ :: t' => cancels t'
  end.

(** Readiness as the poller sees it: the last event raised for each direction. *)
Fixpoint send_view (b : bool) (t : trace) : bool :=
  match t with
  | [] => b
  | Raise (CanSend b') :: t' => send_view b' t'
  | _ :: t' => send_view b t'
  end.
Fixpoint recv_view (b : bool) (t : trace) : bool :=
  match t with
  | [] => b
  | Raise (CanRecv b') :: t' => recv_view b' t'
  | _ :: t' => recv_view b t'
  end.

(** The trace raises nothing. *)
Fixpoint mute (t : trace) : Prop :=
  match t with
  | [] => True
  | Raise _ :: _ => False
  | _ :: t' => mute t'
  end.

(** ** Facts *)

Lemma send_view_app b t1 t2 : send_view b (t1 ++ t2) = send_view (send_view b t1) t2.
Proof. revert b. induction t1 as [|[| | | | | | | | | |[]|] t1 IH]; intros b0; simpl; auto. Qed.
Lemma recv_view_app b t1 t2 : recv_view b (t1 ++ t2) = recv_view (recv_view b t1) t2.
Proof. revert b. induction t1 as [|[| | | | | | | | | |[]|] t1 IH]; intros b0; simpl; auto. Qed.
Lemma mute_app t1 t2 : mute t1 → mute t2 → mute (t1 ++ t2).
Proof. induction t1 as [|[] t1 IH]; simpl; auto. Qed.
Lemma mute_send_view b t : mute t → send_view b t = b.
Proof. induction t as [|[] t IH]; simpl; tauto. Qed.
Lemma recv_view_true b t : recv_view b t = true → recv_view true t = true.
Proof. revert b. induction t as [|[] t IH]; intros b; simpl; eauto. destruct evt; eauto. Qed.
Lemma mute_recv_view b t : mute t → recv_view b t = b.
Proof. induction t as [|[] t IH]; simpl; tauto. Qed.

Lemma replies_app t1 t2 : replies (t1 ++ t2) = replies t1 ++ replies t2.
Proof. induction t1 as [|[] t1 IH]; simpl; congruence. Qed.
Lemma sends_app t1 t2 : sends (t1 ++ t2) = sends t1 ++ sends t2.
Proof. induction t1 as [|[] t1 IH]; simpl; congruence. Qed.
Lemma recvs_app t1 t2 : recvs (t1 ++ t2) = recvs t1 ++ recvs t2.
Proof. induction t1 as [|[] t1 IH]; simpl; congruence. Qed.
Lemma cancels_app t1 t2 : cancels (t1 ++ t2) = cancels t1 ++ cancels t2.
Proof. induction t1 as [|[] t1 IH]; simpl; congruence. Qed.

Create Rewrite HintDb scap.
#[export] Hint Rewrite replies_app sends_app recvs_app cancels_app : scap.

(** What the readiness checks emit. *)
Definition send_change (was now : bool) : trace :=
  if bool_decide (was = now) then [] else [Raise (CanSend now)].
Definition recv_change (was now : bool) : trace :=
  if bool_decide (was = now) then [] else [Raise (CanRecv now)].

Lemma check_send_run was now h :
  check_send_ready_change was now h = Done () (send_change was now).
Proof. unfold check_send_ready_change, send_change. by case_bool_decide. Qed.
Lemma check_recv_run was now h :
  check_recv_ready_change was now h = Done () (recv_change was now).
Proof. unfold check_recv_ready_change, recv_change. by case_bool_decide. Qed.

Lemma send_change_replies was now : replies (send_change was now) = [].
Proof. unfold send_change. by case_bool_decide. Qed.
Lemma recv_change_replies was now : replies (recv_change was now) = [].
Proof. unfold recv_change. by case_bool_decide. Qed.
Lemma send_change_sends was now : sends (send_change was now) = [].
Proof. unfold send_change. by case_bool_decide. Qed.
Lemma recv_change_sends was now : sends (recv_change was now) = [].
Proof. unfold recv_change. by case_bool_decide. Qed.
Lemma send_change_cancels was now : cancels (send_change was now) = [].
Proof. unfold send_change. by case_bool_decide. Qed.
Lemma recv_change_cancels was now : cancels (recv_change was now) = [].
Proof. unfold recv_change. by case_bool_decide. Qed.

Definition cancel_trace (timeout : Timeout) : trace :=
  match timeout with Some s => [SchCancel s] | None => [] end.

Lemma cancel_opt_run timeout h : cancel_opt timeout h = Done () (cancel_trace timeout).
Proof. by destruct timeout. Qed.
Lemma cancel_trace_replies t : replies (cancel_trace t) = [].
Proof. by destruct t. Qed.
Lemma cancel_trace_sends t : sends (cancel_trace t) = [].
Proof. by destruct t. Qed.

#[export] Hint Rewrite send_change_replies recv_change_replies send_change_sends
  recv_change_sends send_change_cancels recv_change_cancels cancel_trace_replies
  cancel_trace_sends app_nil_r : scap.

Lemma cancel_trace_mute t : mute (cancel_trace t).
Proof. by destruct t. Qed.
Lemma send_change_view was now : send_view was (send_change was now) = now.
Proof. unfold send_change. by case_bool_decide. Qed.
Lemma recv_change_view was now : recv_view was (recv_change was now) = now.
Proof. unfold recv_change. by case_bool_decide. Qed.
Lemma send_change_recv_view b was now : recv_view b (send_change was now) = b.
Proof. unfold send_change. by case_bool_decide. Qed.
Lemma recv_change_send_view b was now : send_view b (recv_change was now) = b.
Proof. unfold recv_change. by case_bool_decide. Qed.
#[export] Hint Resolve mute_app cancel_trace_mute : core.

(** A reference environment, for running the model on concrete inputs: every
    call succeeds, ids are numbered by the length of the history, and
    collections are drained in the order of their elements. *)
Definition ref_env : Env := {|
  env_build := {| overflow_checks := true |};
  connect_answer h _ _ := Ok (EndpointId_from (Z.of_nat (length h)));
  reconnect_answer _ _ _ _ := Ok ();
  bind_answer h _ _ := Ok (EndpointId_from (Z.of_nat (length h)));
  rebind_answer _ _ _ _ := Ok ();
  schedule_answer h _ _ := Ok (Scheduled_from (Z.of_nat (length h)));
  drain_set _ s := elements s;
  drain_map _ _ m := map_to_list m;
  drain_set_perm _ _ := reflexivity _;
  drain_map_perm _ _ _ := reflexivity _
|}.
