(* ===== verification/Priolist.v ===== *)
(** * Priolist (src/proto/priolist.rs)

    The structure behind load balancing (senders) and fair queueing
    (receivers): a vector of items with a priority and an active flag, and the
    index and priority of the item to serve next.  [None] is a panic (an index
    out of bounds, or [priority + 1] overflowing with overflow checks).

    The file holds the operations, the invariant, the abstract specification
    [Spec] the operations refine, and the fairness of [pop]. *)

From S2P Require Import Prelude Core.

Record Item : Type := mkItem { value : EndpointId; priority : Z; active : bool }.

Record Priolist : Type := mkPriolist {
  items : list Item;
  current : option (nat * Z)
}.

Section ops.
Context `{Build}.

Definition Item_new (id : EndpointId) (prio : Z) : Item := mkItem id prio false.

Definition new : Priolist := mkPriolist [] None.

Definition insert (id : EndpointId) (prio : Z) (self : Priolist) : Priolist :=
  mkPriolist (items self ++ [Item_new id prio]) (current self).

Definition len (self : Priolist) : nat := length (items self).
Definition all (self : Priolist) : list nat := range 0 (len self).

Definition set_current (index : nat) (prio : Z) (self : Priolist) : Priolist :=
  mkPriolist (items self) (Some (index, prio)).
Definition unset_current (self : Priolist) : Priolist := mkPriolist (items self) None.

(** [for i in range { let item = &self.items[i]; ... }]. *)
Fixpoint find (predicate : Item → bool) (r : list nat) (self : Priolist) : option (option nat) :=
  match r with
  | [] => Some None
  | i :: r' =>
      item ← items self !! i;
      if predicate item then Some (Some i) else find predicate r' self
  end.

Definition find_by_id (id : EndpointId) (r : list nat) (self : Priolist) : option (option nat) :=
  find (λ x, bool_decide (value x = id)) r self.
Definition find_by_id_in_all (id : EndpointId) (self : Priolist) : option (option nat) :=
  find_by_id id (all self) self.

Definition is_index_active (index : nat) (self : Priolist) : option bool :=
  active <$> items self !! index.

(** [self.items[index].active = active]. *)
Definition set_index_active (index : nat) (b : bool) (self : Priolist) : option Priolist :=
  item ← items self !! index;
  Some (mkPriolist (<[index := mkItem (value item) (priority item) b]> (items self)) (current self)).

Definition ready_at (prio : Z) (x : Item) : bool := active x && (priority x =? prio).

(** The loop [for prio in lower_priorities]. *)
Fixpoint scan_priorities (prios : list Z) (self : Priolist) : option Priolist :=
  match prios with
  | [] => Some (unset_current self)
  | prio :: prios' =>
      r ← find (ready_at prio) (all self) self;
      match r with
      | Some index => Some (set_current index prio self)
      | None => scan_priorities prios' self
      end
  end.

Definition compute_next (pivot : nat) (prio : Z) (self : Priolist) : option Priolist :=
  after ← find (ready_at prio) (range pivot (len self)) self;
  match after with
  | Some index => Some (set_current index prio self)
  | None =>
      before ← find (ready_at prio) (range 0 pivot) self;
      match before with
      | Some index => Some (set_current index prio self)
      | None =>
          lower_priority ← checked_add 8 prio 1;
          scan_priorities (zrange lower_priority 17) self
      end
  end.

(** [Vec::swap_remove]: the last element takes the place of the removed one. *)
Definition swap_remove {A} (index : nat) (v : list A) : option (A * list A) :=
  x ← v !! index;
  l ← last v;
  Some (x, take (length v - 1) (<[index := l]> v)).

Definition remove_at_index (index : nat) (self : Priolist) : option Priolist :=
  '(item, its) ← swap_remove index (items self);
  let self := mkPriolist its (current self) in
  if bool_decide (current self = Some (index, priority item))
  then compute_next index (priority item) self
  else Some self.

Definition remove (id : EndpointId) (self : Priolist) : option Priolist :=
  found ← find_by_id_in_all id self;
  match found with
  | Some index => remove_at_index index self
  | None => Some self
  end.

Definition activate_at_index (index : nat) (self : Priolist) : option Priolist :=
  is_active ← is_index_active index self;
  if is_active : bool then Some self
  else
    item ← items self !! index;
    self ← set_index_active index true self;
    match current self with
    | Some (cur_idx, cur_prio) =>
        if priority item <? cur_prio
        then Some (set_current index (priority item) self)
        else Some (set_current cur_idx cur_prio self)
    | None => Some (set_current index (priority item) self)
    end.

Definition activate (id : EndpointId) (self : Priolist) : option Priolist :=
  found ← find_by_id_in_all id self;
  match found with
  | Some index => activate_at_index index self
  | None => Some self
  end.

Definition deactivate_at_index (index : nat) (self : Priolist) : option Priolist :=
  is_active ← is_index_active index self;
  if negb is_active then Some self
  else
    item ← items self !! index;
    self ← set_index_active index false self;
    if bool_decide (current self = Some (index, priority item))
    then compute_next index (priority item) self
    else Some self.

Definition deactivate (id : EndpointId) (self : Priolist) : option Priolist :=
  found ← find_by_id_in_all id self;
  match found with
  | Some index => deactivate_at_index index self
  | None => Some self
  end.

Definition pop (self : Priolist) : option (option EndpointId * Priolist) :=
  match current self with
  | Some (index, prio) =>
      self ← set_index_active index false (unset_current self);
      self ← compute_next index prio self;
      item ← items self !! index;
      Some (Some (value item), self)
  | None => Some (None, self)
  end.

Definition peek (self : Priolist) : bool :=
  match current self with Some _ => true | None => false end.

End ops.

(** ** The invariant

    Ids are unique and priorities at most 16; [current] designates an active
    item of the best (numerically lowest) priority among the active ones, and is
    unset exactly when nothing is active. *)

Definition lowest (p : Z) (its : list Item) : Prop :=
  ∀ j y, its !! j = Some y → active y = true → p <= priority y.

Definition cur_ok (its : list Item) (cur : option (nat * Z)) : Prop :=
  match cur with
  | Some (i, p) =>
      ∃ x, its !! i = Some x ∧ active x = true ∧ priority x = p ∧ lowest p its
  | None => ∀ j y, its !! j = Some y → active y = false
  end.

Definition prio_ok (x : Item) : Prop := 0 <= priority x <= 16.

Record wf (pl : Priolist) : Prop := {
  wf_nodup : NoDup (value <$> items pl);
  wf_prios : ∀ j y, items pl !! j = Some y → prio_ok y;
  wf_cur : cur_ok (items pl) (current pl)
}.

(** The one hazard: [remove] moves the last item into the hole, and [current]
    is left pointing at the old last index when it designated that item. *)
Definition remove_safe (id : EndpointId) (pl : Priolist) : bool :=
  match find_by_id_in_all id pl with
  | Some (Some index) =>
      bool_decide (S index = len pl) ||
      match current pl with Some (c, _) => bool_decide (S c ≠ len pl) | None => true end
  | _ => true
  end.

(** Steps from [p] to [i], going forward and wrapping at [n]. *)
Definition dist (n p i : nat) : nat :=
  if decide (p <= i)%nat then (i - p)%nat else (i + n - p)%nat.

(** ** The abstract specification: a map from ids to a priority and a flag *)

Module Spec.
Abbreviation t := (gmap EndpointId (Z * bool)).

Definition set_flag (b : bool) (id : EndpointId) (m : t) : t :=
  alter (λ pa, (pa.1, b)) id m.

(** [id] may be served: it is active, and nothing active has a better priority. *)
Definition servable (m : t) (id : EndpointId) : Prop :=
  ∃ p, m !! id = Some (p, true) ∧ ∀ id' p', m !! id' = Some (p', true) → p <= p'.

Inductive op : Type :=
| Insert (id : EndpointId) (prio : Z)
| Remove (id : EndpointId)
| Activate (id : EndpointId)
| Deactivate (id : EndpointId)
| Pop.

Inductive step : t → op → option EndpointId → t → Prop :=
| step_insert m id p : m !! id = None → step m (Insert id p) None (<[id := (p, false)]> m)
| step_remove m id : step m (Remove id) None (delete id m)
| step_activate m id : step m (Activate id) None (set_flag true id m)
| step_deactivate m id : step m (Deactivate id) None (set_flag false id m)
| step_pop_some m id : servable m id → step m Pop (Some id) (set_flag false id m)
| step_pop_none m : (∀ id, ¬ servable m id) → step m Pop None m.
End Spec.

(** The abstraction, and the concrete operations under the same labels. *)
Definition abs (pl : Priolist) : Spec.t :=
  list_to_map ((λ x, (value x, (priority x, active x))) <$> items pl).

Definition run_op `{Build} (o : Spec.op) (pl : Priolist) : option (option EndpointId * Priolist) :=
  match o with
  | Spec.Insert id p => Some (None, insert id p pl)
  | Spec.Remove id => pl' ← remove id pl; Some (None, pl')
  | Spec.Activate id => pl' ← activate id pl; Some (None, pl')
  | Spec.Deactivate id => pl' ← deactivate id pl; Some (None, pl')
  | Spec.Pop => pop pl
  end.

(** What the callers guarantee: an id is inserted once and with a priority in
    range, and no removal hits the hazard. *)
Definition op_ok `{Build} (o : Spec.op) (pl : Priolist) : Prop :=
  match o with
  | Spec.Insert id p => (id ∉ value <$> items pl) ∧ 0 <= p <= 16
  | Spec.Remove id => remove_safe id pl = true
  | _ => True
  end.

(** [n] rounds in which the item served becomes ready again right away. *)
Fixpoint serve `{Build} (n : nat) (pl : Priolist) : option (list EndpointId * Priolist) :=
  match n with
  | O => Some ([], pl)
  | S n =>
      '(o, pl) ← pop pl;
      match o with
      | Some id =>
          pl ← activate id pl;
          '(ids, pl) ← serve n pl;
          Some (id :: ids, pl)
      | None => Some ([], pl)
      end
  end.

#[global] Instance op_ok_dec `{Build} o pl : Decision (op_ok o pl).
Proof. destruct o; simpl; apply _. Defined.

(** The lists the operations can build from an empty one. *)
Inductive reachable `{Build} : Priolist → Prop :=
| reachable_new : reachable new
| reachable_op pl o r pl' :
    reachable pl → op_ok o pl → run_op o pl = Some (r, pl') → reachable pl'.

(** ** Searching *)

Section facts.
Context `{Build}.

Lemma find_cases pred r pl :
  (∀ i, i ∈ r → (i < len pl)%nat) →
  (∃ i x r1 r2, find pred r pl = Some (Some i) ∧ r = r1 ++ i :: r2 ∧
     items pl !! i = Some x ∧ pred x = true ∧
     ∀ j y, j ∈ r1 → items pl !! j = Some y → pred y = false) ∨
  (find pred r pl = Some None ∧ ∀ j y, j ∈ r → items pl !! j = Some y → pred y = false).
Proof.
  induction r as [|i r IH]; intros Hr; simpl; [right; set_solver|].
  destruct (lookup_lt_is_Some_2 (items pl) i) as [x Hx]; [apply Hr; set_solver|].
  rewrite Hx; simpl. destruct (pred x) eqn:Hp.
  - left. exists i, x, [], r. set_solver.
  - destruct IH as [(i' & x' & r1 & r2 & -> & -> & ? & ? & Hf) | [-> Hf]]; [set_solver| |].
    + left. exists i', x', (i :: r1), r2. repeat split; [done..|].
      intros j y [-> | Hj]%elem_of_cons ?; [congruence | eauto].
    + right. split; [done|].
      intros j y [-> | Hj]%elem_of_cons ?; [congruence | eauto].
Qed.

Lemma all_lt pl i : i ∈ all pl ↔ (i < len pl)%nat.
Proof. unfold all. rewrite elem_of_range. lia. Qed.

Lemma find_all_none pred pl :
  find pred (all pl) pl = Some None → ∀ j y, items pl !! j = Some y → pred y = false.
Proof.
  intros Hf. destruct (find_cases pred (all pl) pl) as [(? & ? & ? & ? & ? & _) | [_ Hn]].
  - intros i. apply all_lt.
  - congruence.
  - intros j y Hj. apply (Hn j); [|done]. apply all_lt. by eapply lookup_lt_Some.
Qed.

Lemma find_by_id_cases id pl :
  (∃ i x, find_by_id_in_all id pl = Some (Some i) ∧ items pl !! i = Some x ∧ value x = id) ∨
  (find_by_id_in_all id pl = Some None ∧ id ∉ (value <$> items pl)).
Proof.
  unfold find_by_id_in_all, find_by_id.
  destruct (find_cases (λ x, bool_decide (value x = id)) (all pl) pl)
    as [(i & x & ? & ? & Hf & _ & Hx & Hp & _) | [Hf Hn]].
  - intros i. apply all_lt.
  - left. exists i, x. apply bool_decide_eq_true in Hp. done.
  - right. split; [done|]. intros (x & -> & (j & Hj)%list_elem_of_lookup)%list_elem_of_fmap.
    specialize (Hn j x). rewrite bool_decide_eq_false in Hn.
    apply Hn; [|done|done]. apply all_lt. by eapply lookup_lt_Some.
Qed.

Lemma values_inj pl i j x y :
  NoDup (value <$> items pl) → items pl !! i = Some x → items pl !! j = Some y →
  value x = value y → i = j.
Proof.
  intros Hnd Hi Hj Hv.
  eapply NoDup_lookup; [exact Hnd| |]; rewrite list_lookup_fmap.
  - by rewrite Hi.
  - rewrite Hj. simpl. by rewrite Hv.
Qed.

Lemma find_by_id_at id pl i x :
  NoDup (value <$> items pl) → items pl !! i = Some x → value x = id →
  find_by_id_in_all id pl = Some (Some i).
Proof.
  intros Hnd Hi Hv. destruct (find_by_id_cases id pl) as [(j & y & -> & Hj & Hy) | [_ Hn]].
  - by rewrite (values_inj pl j i y x) by congruence.
  - destruct Hn. apply list_elem_of_fmap. exists x. split; [done|].
    apply list_elem_of_lookup. eauto.
Qed.

(** ** Selecting the next item *)

Lemma dist_split n p c i r1 r2 :
  (c < n)%nat → (i < n)%nat → (p <= n)%nat →
  range p n ++ range 0 p = r1 ++ c :: r2 → i ∉ r1 → (dist n p c <= dist n p i)%nat.
Proof.
  intros Hc Hi Hp Hr Hni.
  assert (Hlook : ∀ k, (range p n ++ range 0 p) !! dist n p k = Some k ∨ ¬ (k < n)%nat).
  { intros k. destruct (decide (k < n)%nat) as [Hk|]; [left | by right].
    unfold range, dist. case_decide.
    - rewrite lookup_app_l by (rewrite length_seq; lia).
      rewrite lookup_seq_lt by lia. f_equal; lia.
    - rewrite lookup_app_r by (rewrite length_seq; lia). rewrite length_seq.
      rewrite lookup_seq_lt by lia. f_equal; lia. }
  destruct (Hlook i) as [Hi'|]; [|done]. destruct (Hlook c) as [Hc'|]; [|done].
  assert (Hnd : NoDup (range p n ++ range 0 p)).
  { apply NoDup_app. unfold range. repeat split; [apply NoDup_seq| |apply NoDup_seq].
    intros x. rewrite !elem_of_seq. lia. }
  assert (dist n p c = length r1) as ->.
  { eapply NoDup_lookup; [exact Hnd|exact Hc'|]. rewrite Hr. apply list_lookup_middle. done. }
  destruct (decide (length r1 <= dist n p i)%nat) as [|Hlt]; [done|].
  destruct Hni. rewrite Hr, lookup_app_l in Hi' by lia.
  apply list_elem_of_lookup. eauto.
Qed.

Lemma scan_priorities_spec prios lo pl :
  prios = zrange lo 17 → (∀ j y, items pl !! j = Some y → prio_ok y) → lowest lo (items pl) →
  ∃ cur, scan_priorities prios pl = Some (mkPriolist (items pl) cur) ∧ cur_ok (items pl) cur.
Proof.
  intros Hprios Hok. revert lo Hprios.
  induction prios as [|p prios IH]; intros lo Hprios Hlow; simpl.
  - exists None. split; [done|]. intros j y Hj.
    destruct (active y) eqn:Ha; [|done].
    specialize (Hok j y Hj). specialize (Hlow j y Hj Ha). unfold prio_ok in Hok.
    assert (lo ∈ zrange lo 17) as Hin by (apply elem_of_zrange; lia).
    rewrite <- Hprios in Hin. set_solver.
  - assert (p = lo ∧ prios = zrange (lo + 1) 17) as [-> Hprios'].
    { unfold zrange in *. destruct (decide (17 <= lo)).
      - rewrite seqZ_nil in Hprios by lia. done.
      - rewrite seqZ_cons in Hprios by lia. injection Hprios as -> ->.
        split; [done|]. f_equal; lia. }
    destruct (find_cases (ready_at lo) (all pl) pl)
      as [(i & x & r1 & r2 & -> & _ & Hi & Hr & _) | [Hf Hn]]; [intros i; apply all_lt| |].
    + simpl. eexists. split; [reflexivity|]. simpl.
      unfold ready_at in Hr. apply andb_true_iff in Hr as [? ?%Z.eqb_eq]. eauto.
    + rewrite Hf. simpl. apply (IH (lo + 1) Hprios').
      intros j y Hj Ha. specialize (Hlow j y Hj Ha).
      pose proof (find_all_none _ _ Hf j y Hj) as Hnr.
      unfold ready_at in Hnr. rewrite Ha in Hnr. simpl in Hnr. apply Z.eqb_neq in Hnr. lia.
Qed.

Lemma compute_next_spec pivot p pl :
  (pivot <= len pl)%nat → 0 <= p <= 16 →
  (∀ j y, items pl !! j = Some y → prio_ok y) → lowest p (items pl) →
  ∃ cur, compute_next pivot p pl = Some (mkPriolist (items pl) cur) ∧
    cur_ok (items pl) cur ∧
    ∀ i x, items pl !! i = Some x → active x = true → priority x = p →
      ∃ c, cur = Some (c, p) ∧ (dist (len pl) pivot c <= dist (len pl) pivot i)%nat.
Proof.
  intros Hpiv Hp Hok Hlow. unfold compute_next.
  assert (Hret : ∀ c x r1 r2, range pivot (len pl) ++ range 0 pivot = r1 ++ c :: r2 →
    items pl !! c = Some x → ready_at p x = true →
    (∀ j y, j ∈ r1 → items pl !! j = Some y → ready_at p y = false) →
    ∃ cur, Some (set_current c p pl) = Some (mkPriolist (items pl) cur) ∧
    cur_ok (items pl) cur ∧
    ∀ i x, items pl !! i = Some x → active x = true → priority x = p →
      ∃ c, cur = Some (c, p) ∧ (dist (len pl) pivot c <= dist (len pl) pivot i)%nat).
  { intros c x r1 r2 Hr Hc Hx Hfirst.
    apply andb_true_iff in Hx as [Ha Hpx%Z.eqb_eq].
    eexists. split; [reflexivity|]. split; [simpl; eauto|].
    intros i y Hi Hay Hpy. exists c. split; [done|].
    eapply dist_split; eauto using lookup_lt_Some.
    intros Hin. specialize (Hfirst i y Hin Hi). unfold ready_at in Hfirst.
    rewrite Hay, Hpy, Z.eqb_refl in Hfirst. done. }
  destruct (find_cases (ready_at p) (range pivot (len pl)) pl)
    as [(c & x & r1 & r2 & -> & Hr & Hc & Hx & Hfirst) | [-> Hn1]].
  { intros i. rewrite elem_of_range. lia. }
  { simpl. apply (Hret c x r1 (r2 ++ range 0 pivot)); auto.
    rewrite Hr, <- app_assoc. done. }
  destruct (find_cases (ready_at p) (range 0 pivot) pl)
    as [(c & x & r1 & r2 & Hf & Hr & Hc & Hx & Hfirst) | [Hf Hn2]].
  { intros i. rewrite elem_of_range. lia. }
  { simpl. rewrite Hf. simpl. apply (Hret c x (range pivot (len pl) ++ r1) r2); auto.
    - rewrite Hr, <- app_assoc. done.
    - intros j y [?|?]%elem_of_app; eauto. }
  simpl. rewrite Hf. simpl. rewrite checked_add_fits by lia. simpl.
  assert (Hnone : ∀ i x, items pl !! i = Some x → ready_at p x = false).
  { intros i x Hi. pose proof (lookup_lt_Some _ _ _ Hi).
    destruct (decide (pivot <= i)%nat); [apply (Hn1 i) | apply (Hn2 i)];
      try done; apply elem_of_range; unfold len; lia. }
  assert (Hnotp : ∀ i x, items pl !! i = Some x → active x = true → priority x ≠ p).
  { intros i x Hi Ha Hpx. specialize (Hnone i x Hi). unfold ready_at in Hnone.
    rewrite Ha, Hpx, Z.eqb_refl in Hnone. done. }
  destruct (scan_priorities_spec (zrange (p + 1) 17) (p + 1) pl) as (cur & -> & Hcur); [done..| |].
  { intros j y Hj Ha. specialize (Hlow j y Hj Ha). specialize (Hnotp j y Hj Ha). lia. }
  exists cur. split; [done|]. split; [done|].
  intros i x Hi Ha Hpx. by destruct (Hnotp i x Hi Ha).
Qed.

(** ** The abstraction *)

Lemma abs_lookup pl id p a :
  NoDup (value <$> items pl) →
  abs pl !! id = Some (p, a) ↔ ∃ i, items pl !! i = Some (mkItem id p a).
Proof.
  intros Hnd. unfold abs.
  rewrite <- elem_of_list_to_map.
  - rewrite list_elem_of_fmap. split.
    + intros ([v q b] & [= -> -> ->] & (i & Hi)%list_elem_of_lookup). eauto.
    + intros (i & Hi). exists (mkItem id p a). split; [done|]. apply list_elem_of_lookup. eauto.
  - rewrite <- list_fmap_compose. done.
Qed.

Lemma abs_ext pl m :
  NoDup (value <$> items pl) →
  (∀ id p a, m !! id = Some (p, a) ↔ ∃ i, items pl !! i = Some (mkItem id p a)) → abs pl = m.
Proof.
  intros Hnd Hm. apply map_eq. intros id. apply option_eq. intros [p a].
  rewrite abs_lookup, Hm; done.
Qed.

Lemma flag_values (its : list Item) (i : nat) x b :
  its !! i = Some x → value <$> <[i := mkItem (value x) (priority x) b]> its = value <$> its.
Proof. intros Hx. rewrite list_fmap_insert. simpl. apply list_insert_id. by rewrite list_lookup_fmap, Hx. Qed.

Lemma flag_lookup (its : list Item) (i : nat) x b (j : nat) y :
  its !! i = Some x →
  <[i := mkItem (value x) (priority x) b]> its !! j = Some y ↔
  (j = i ∧ y = mkItem (value x) (priority x) b) ∨ (j ≠ i ∧ its !! j = Some y).
Proof.
  intros Hx. pose proof (lookup_lt_Some _ _ _ Hx) as Hlt. rewrite list_lookup_insert_Some.
  split; [intros [(-> & <- & _) | [? ?]] | intros [[-> ->] | [? ?]]]; auto.
Qed.

Lemma flag_prios (its : list Item) (i : nat) x b :
  its !! i = Some x → (∀ j y, its !! j = Some y → prio_ok y) →
  ∀ j y, <[i := mkItem (value x) (priority x) b]> its !! j = Some y → prio_ok y.
Proof.
  intros Hx Hok j y. rewrite flag_lookup by done. intros [[-> ->] | [_ ?]]; [|eauto].
  unfold prio_ok. simpl. by apply (Hok i).
Qed.

Lemma flag_lowest (its : list Item) (i : nat) x p :
  its !! i = Some x → lowest p its →
  lowest p (<[i := mkItem (value x) (priority x) false]> its).
Proof. intros Hx Hlow j y. rewrite flag_lookup by done. intros [[-> ->] | [_ ?]]; [done|eauto]. Qed.

Lemma abs_flag (its : list Item) cur cur' (i : nat) x b :
  NoDup (value <$> its) → its !! i = Some x →
  abs (mkPriolist (<[i := mkItem (value x) (priority x) b]> its) cur) =
  Spec.set_flag b (value x) (abs (mkPriolist its cur')).
Proof.
  intros Hnd Hx. apply abs_ext; simpl; [by rewrite flag_values|].
  intros id p a. unfold Spec.set_flag. rewrite lookup_alter.
  assert (Hxl : abs (mkPriolist its cur') !! value x = Some (priority x, active x)).
  { apply abs_lookup; [done|]. exists i. simpl. rewrite Hx. by destruct x. }
  setoid_rewrite flag_lookup; [|done]. case_decide as Hd.
  - subst id. rewrite Hxl. simpl. split.
    + intros [= <- <-]. exists i. by left.
    + intros (j & [[-> [= -> ->]] | [Hne Hj]]); [done|]. destruct Hne.
      by eapply (values_inj (mkPriolist its cur')).
  - rewrite abs_lookup by done. simpl. split.
    + intros (j & Hj). exists j. right. split; [|done]. intros ->. by simplify_eq.
    + intros (j & [[-> [= ? ? ?]] | [_ Hj]]); [congruence|eauto].
Qed.

Lemma abs_absent pl id : NoDup (value <$> items pl) → (id ∉ value <$> items pl) → abs pl !! id = None.
Proof.
  intros Hnd Hni. destruct (abs pl !! id) as [[p a]|] eqn:E; [|done].
  apply abs_lookup in E as (i & Hi); [|done]. destruct Hni.
  apply list_elem_of_fmap. exists (mkItem id p a). split; [done|]. apply list_elem_of_lookup. eauto.
Qed.

Lemma set_flag_absent b pl id :
  NoDup (value <$> items pl) → (id ∉ value <$> items pl) →
  Spec.set_flag b id (abs pl) = abs pl.
Proof. intros Hnd Hni. apply alter_id'. by apply abs_absent. Qed.

Lemma set_flag_same b pl i x :
  NoDup (value <$> items pl) → items pl !! i = Some x → active x = b →
  Spec.set_flag b (value x) (abs pl) = abs pl.
Proof.
  intros Hnd Hi Ha. apply alter_id. intros [p a] (j & Hj)%abs_lookup; [|done].
  assert (j = i) as -> by by eapply values_inj.
  destruct x; simpl in *; congruence.
Qed.

Lemma not_in_values pl i x : items pl !! i = Some x → value x ∈ value <$> items pl.
Proof. intros Hi. apply list_elem_of_fmap. exists x. split; [done|]. apply list_elem_of_lookup. eauto. Qed.

Lemma servable_current pl i p x :
  wf pl → current pl = Some (i, p) → items pl !! i = Some x →
  Spec.servable (abs pl) (value x).
Proof.
  intros [Hnd _ Hc] Hcur Hi. rewrite Hcur in Hc. destruct Hc as (x' & Hi' & Ha & Hp & Hlow).
  assert (x' = x) as -> by congruence. subst p. exists (priority x). split.
  - apply abs_lookup; [done|]. exists i. rewrite Hi. destruct x; simpl in *; congruence.
  - intros id' p' (j & Hj)%abs_lookup; [|done]. by apply (Hlow j _ Hj).
Qed.

(** ** Each operation on a well-formed list *)

Lemma set_index_active_run i x b pl :
  items pl !! i = Some x →
  set_index_active i b pl =
  Some (mkPriolist (<[i := mkItem (value x) (priority x) b]> (items pl)) (current pl)).
Proof. intros Hx. unfold set_index_active. by rewrite Hx. Qed.

Lemma insert_spec id p pl :
  wf pl → (id ∉ value <$> items pl) → 0 <= p <= 16 →
  wf (insert id p pl) ∧ abs (insert id p pl) = <[id := (p, false)]> (abs pl).
Proof.
  intros [Hnd Hok Hc] Hni Hp.
  assert (Hlk : ∀ j y, items (insert id p pl) !! j = Some y →
            items pl !! j = Some y ∨ y = mkItem id p false).
  { simpl. intros j y [?|[_ Hy]]%lookup_app_Some; [by left|].
    apply list_lookup_singleton_Some in Hy as [_ <-]. by right. }
  assert (Hnd' : NoDup (value <$> items (insert id p pl))).
  { simpl. rewrite fmap_app. apply NoDup_app. repeat split; [done| |apply NoDup_singleton].
    intros v Hv ->%list_elem_of_singleton. done. }
  assert (Hold : ∀ j y, items pl !! j = Some y → items (insert id p pl) !! j = Some y).
  { intros j y Hj. simpl. by apply lookup_app_l_Some. }
  split; [split; [done| |]|].
  - intros j y [Hj| ->]%Hlk; [eauto|done].
  - simpl current. destruct (current pl) as [[i q]|]; simpl.
    + destruct Hc as (x & Hi & ? & ? & Hlow). exists x. repeat split; [by apply Hold|done..|].
      intros j y [Hj| ->]%Hlk; [eauto|done].
    + intros j y [Hj| ->]%Hlk; [eauto|done].
  - apply abs_ext; [done|]. intros id' p' a'. rewrite lookup_insert_Some, abs_lookup by done. split.
    + intros [(-> & [= <- <-]) | (Hne & j & Hj)]; [|eauto].
      exists (len pl). simpl. rewrite list_lookup_middle; done.
    + intros (j & Hj). destruct (Hlk j _ Hj) as [Hj'|[= -> -> ->]]; [right|by left].
      split; [|eauto]. intros ->. destruct Hni. apply list_elem_of_fmap.
      eexists. split; [|apply list_elem_of_lookup; eauto]. done.
Qed.

Lemma activate_spec id pl :
  wf pl →
  ∃ pl', activate id pl = Some pl' ∧ wf pl' ∧ abs pl' = Spec.set_flag true id (abs pl) ∧
    (len pl' = len pl ∧ ∀ j y, items pl !! j = Some y → value y ≠ id → items pl' !! j = Some y) ∧
    ∀ c p x i, current pl = Some (c, p) → items pl !! i = Some x → value x = id →
      p <= priority x → current pl' = Some (c, p).
Proof.
  intros Hwf. pose proof Hwf as [Hnd Hok Hc]. unfold activate.
  destruct (find_by_id_cases id pl) as [(i & x & -> & Hi & Hv) | [-> Hni]]; simpl.
  2: { exists pl. split; [done|]. split; [done|]. split; [by rewrite set_flag_absent|]. split; [done|].
       intros c p x i _ Hi <-. destruct Hni. by eapply not_in_values. }
  unfold activate_at_index, is_index_active. rewrite Hi. simpl.
  assert (Hsame : ∀ y j, items pl !! j = Some y → value y = id → y = x).
  { intros y j Hj Hy. assert (j = i) as -> by (eapply values_inj; eauto; congruence). congruence. }
  destruct (active x) eqn:Ha.
  { exists pl. split; [done|]. split; [done|]. split; [|by split; [|intros]].
    subst id. symmetry. by eapply set_flag_same. }
  rewrite (set_index_active_run i x true) by done. simpl.
  set (its := <[i := _]> (items pl)).
  assert (Hits : its !! i = Some (mkItem (value x) (priority x) true)) by (apply flag_lookup; auto).
  assert (Hwf' : ∀ cur, cur_ok its cur → wf (mkPriolist its cur)).
  { intros cur Hcur. split; [|by apply flag_prios|done]. simpl. unfold its. by rewrite flag_values. }
  assert (Habs : ∀ cur, abs (mkPriolist its cur) = Spec.set_flag true id (abs pl)).
  { intros cur. destruct pl as [ps pc]. rewrite <- Hv. by apply (abs_flag ps cur pc). }
  assert (Hkeep : ∀ cur, len (mkPriolist its cur) = len pl ∧
            ∀ j y, items pl !! j = Some y → value y ≠ id → its !! j = Some y).
  { intros cur. split; [unfold len; simpl; unfold its; apply length_insert|].
    intros j y Hj Hy. apply flag_lookup; [done|]. right. split; [intros ->; congruence|done]. }
  assert (Hown : (∀ j y, items pl !! j = Some y → active y = true → priority x <= priority y) →
            cur_ok its (Some (i, priority x))).
  { intros Hlow. simpl. eexists. split; [exact Hits|]. repeat split; [done..|].
    intros j y [[-> ->] | [_ Hj]]%flag_lookup Hay; [simpl; lia|eauto|done]. }
  destruct (current pl) as [[c p]|] eqn:Hcur.
  - destruct Hc as (xc & Hxc & Hac & Hpc & Hlow). destruct (Z.ltb_spec (priority x) p) as [Hlt|Hge].
    + eexists. split; [reflexivity|]. split; [apply Hwf', Hown|split; [apply Habs|split; [eapply Hkeep|]]].
      * intros j y Hj Hay. specialize (Hlow j y Hj Hay). lia.
      * intros c' p' y j [= <- <-] Hj Hy Hle. apply Hsame in Hj as ->; [|done]. lia.
    + eexists. split; [reflexivity|]. split; [apply Hwf'|split; [apply Habs|split; [eapply Hkeep|]]].
      * assert (i ≠ c) by (intros ->; congruence).
        exists xc. repeat split; [apply flag_lookup; auto|done..|].
        intros j y [[-> ->] | [_ Hj]]%flag_lookup Hay; [done|eauto|done].
      * intros c' p' y j [= <- <-] ???. done.
  - eexists. split; [reflexivity|]. split; [apply Hwf', Hown|split; [apply Habs|split; [eapply Hkeep|by intros]]].
    intros j y Hj Hay. specialize (Hc j y Hj). congruence.
Qed.

(** Clearing the flag of [current] and selecting the next one, which both
    [pop] and [deactivate] do. *)
Lemma reselect_spec pl c p x cur0 :
  wf pl → current pl = Some (c, p) → items pl !! c = Some x →
  let its := <[c := mkItem (value x) (priority x) false]> (items pl) in
  ∃ cur, compute_next c p (mkPriolist its cur0) = Some (mkPriolist its cur) ∧
    wf (mkPriolist its cur) ∧
    ∀ i y, i ≠ c → items pl !! i = Some y → active y = true → priority y = p →
      ∃ c', cur = Some (c', p) ∧ c' ≠ c ∧ (dist (len pl) c c' <= dist (len pl) c i)%nat.
Proof.
  intros [Hnd Hok Hc] Hcur Hx its. rewrite Hcur in Hc.
  destruct Hc as (x' & Hx' & Ha & Hp & Hlow). assert (x' = x) as -> by congruence.
  pose proof (lookup_lt_Some _ _ _ Hx) as Hlt.
  destruct (compute_next_spec c p (mkPriolist its cur0)) as (cur & Hrun & Hcok & Hfair); simpl.
  - unfold len. simpl. unfold its. rewrite length_insert. lia.
  - specialize (Hok c x Hx). unfold prio_ok in Hok. lia.
  - by apply flag_prios.
  - by apply flag_lowest.
  - exists cur. split; [exact Hrun|]. split; [split; [|by apply flag_prios|done]|].
    + simpl. unfold its. by rewrite flag_values.
    + intros i y Hne Hi Hay Hpy. destruct (Hfair i y) as (c' & -> & Hd); [|done..|].
      { apply flag_lookup; auto. }
      exists c'. split; [done|]. split.
      * intros ->. destruct Hcok as (z & Hz & Haz & _).
        apply flag_lookup in Hz as [[_ ->] | [? _]]; done.
      * unfold len in *. simpl in Hd. unfold its in Hd. rewrite length_insert in Hd. done.
Qed.

Lemma pop_spec pl :
  wf pl →
  (current pl = None ∧ pop pl = Some (None, pl)) ∨
  ∃ c p x cur,
    let pl' := mkPriolist (<[c := mkItem (value x) (priority x) false]> (items pl)) cur in
    current pl = Some (c, p) ∧ items pl !! c = Some x ∧
    pop pl = Some (Some (value x), pl') ∧ wf pl' ∧
    ∀ i y, i ≠ c → items pl !! i = Some y → active y = true → priority y = p →
      ∃ c', cur = Some (c', p) ∧ c' ≠ c ∧ (dist (len pl) c c' <= dist (len pl) c i)%nat.
Proof.
  intros Hwf. pose proof (wf_cur pl Hwf) as Hc. unfold pop.
  destruct (current pl) as [[c p]|] eqn:Hcur; [right | by left].
  destruct Hc as (x & Hx & _).
  destruct (reselect_spec pl c p x None Hwf Hcur Hx) as (cur & Hrun & Hwf' & Hfair).
  exists c, p, x, cur. split; [done|]. split; [done|]. split; [|done].
  rewrite (set_index_active_run c x) by done. simpl. rewrite Hrun. simpl.
  rewrite list_lookup_insert_eq by (by eapply lookup_lt_Some). done.
Qed.

Lemma deactivate_spec id pl :
  wf pl → ∃ pl', deactivate id pl = Some pl' ∧ wf pl' ∧ abs pl' = Spec.set_flag false id (abs pl).
Proof.
  intros Hwf. pose proof Hwf as [Hnd Hok Hc]. unfold deactivate.
  destruct (find_by_id_cases id pl) as [(i & x & -> & Hi & Hv) | [-> Hni]]; simpl.
  2: { exists pl. split; [done|]. split; [done|]. by rewrite set_flag_absent. }
  subst id. unfold deactivate_at_index, is_index_active. rewrite Hi. simpl.
  destruct (active x) eqn:Ha; simpl.
  2: { exists pl. split; [done|]. split; [done|]. symmetry. by eapply set_flag_same. }
  rewrite (set_index_active_run i x) by done. simpl.
  assert (Habs : ∀ cur, abs (mkPriolist (<[i := mkItem (value x) (priority x) false]> (items pl)) cur)
            = Spec.set_flag false (value x) (abs pl)).
  { intros cur. destruct pl as [ps pc]. by apply (abs_flag ps cur pc). }
  case_bool_decide as Hcur.
  - destruct (reselect_spec pl i (priority x) x (current pl) Hwf Hcur Hi) as (cur & Hrun & Hwf' & _).
    eexists. split; [exact Hrun|]. by split.
  - eexists. split; [reflexivity|]. split; [|done]. split; [simpl; by rewrite flag_values|by apply flag_prios|].
    simpl. destruct (current pl) as [[c p]|] eqn:Hcur'; simpl in *.
    + destruct Hc as (xc & Hxc & Hac & Hpc & Hlow). exists xc.
      assert (c ≠ i) by (intros ->; apply Hcur; congruence).
      split; [by apply flag_lookup; auto|]. split; [done|]. split; [done|]. by apply flag_lowest.
    + intros j y [[-> ->] | [_ Hj]]%flag_lookup; [done|eauto|done].
Qed.

Lemma swap_remove_spec {A} (v : list A) (i : nat) (x : A) :
  v !! i = Some x →
  ∃ v', swap_remove i v = Some (x, v') ∧ S (length v') = length v ∧
    ∀ j y, v' !! j = Some y ↔
      (j < length v')%nat ∧ v !! (if decide (j = i) then length v' else j) = Some y.
Proof.
  intros Hx. pose proof (lookup_lt_Some _ _ _ Hx) as Hlt. unfold swap_remove. rewrite Hx. simpl.
  destruct (last v) as [l|] eqn:Hl.
  2: { apply last_None in Hl. subst. simpl in Hlt. lia. }
  rewrite last_lookup in Hl. simpl. eexists. split; [reflexivity|].
  assert (Hlen : length (take (length v - 1) (<[i:=l]> v)) = (length v - 1)%nat).
  { rewrite length_take, length_insert. lia. }
  rewrite Hlen. split; [lia|]. intros j y.
  rewrite lookup_take_Some, list_lookup_insert.
  replace (Nat.pred (length v)) with (length v - 1)%nat in Hl by lia.
  repeat case_decide; naive_solver lia.
Qed.

(** The items left by a removal. *)
Lemma removed_items pl i x its :
  wf pl → items pl !! i = Some x → swap_remove i (items pl) = Some (x, its) →
  NoDup (value <$> its) ∧
  (∀ j y, its !! j = Some y → ∃ k, k ≠ i ∧ items pl !! k = Some y) ∧
  (∀ k y, k ≠ i → items pl !! k = Some y → ∃ j, its !! j = Some y) ∧
  ∀ cur, abs (mkPriolist its cur) = delete (value x) (abs pl).
Proof.
  intros [Hnd _ _] Hi Hsw. destruct (swap_remove_spec _ _ _ Hi) as (v & Hsw' & Hlen & Hlk).
  rewrite Hsw in Hsw'. injection Hsw' as <-.
  assert (Hfrom : ∀ j y, its !! j = Some y → ∃ k, k ≠ i ∧ items pl !! k = Some y).
  { intros j y [Hj Hk]%Hlk. pose proof (lookup_lt_Some _ _ _ Hi).
    case_decide as Hd; [|eauto]. exists (length its). split; [lia|done]. }
  assert (Hto : ∀ k y, k ≠ i → items pl !! k = Some y → ∃ j, its !! j = Some y).
  { intros k y Hne Hk. pose proof (lookup_lt_Some _ _ _ Hk). pose proof (lookup_lt_Some _ _ _ Hi).
    destruct (decide (k = length its)) as [->|]; [exists i | exists k]; apply Hlk;
      case_decide; (split; [lia|]); by subst. }
  assert (Hnd' : NoDup (value <$> its)).
  { apply NoDup_alt. intros j1 j2 v.
    rewrite !list_lookup_fmap, !fmap_Some. intros (y1 & Hy1 & ->) (y2 & Hy2 & Heq).
    apply Hlk in Hy1 as [? Hy1]. apply Hlk in Hy2 as [? Hy2].
    assert (Hk := values_inj pl _ _ _ _ Hnd Hy1 Hy2 Heq).
    repeat case_decide; lia. }
  split; [done|]. split; [done|]. split; [done|].
  intros cur. apply abs_ext; [done|]. intros id p a. simpl.
  rewrite lookup_delete_Some, abs_lookup by done. split.
  - intros [Hne (k & Hk)]. apply (Hto k); [|done]. intros ->.
    assert (x = mkItem id p a) as -> by congruence. done.
  - intros (j & Hj). destruct (Hfrom j _ Hj) as (k & Hk & Hk'). split; [|eauto].
    intros Hv. apply Hk. by eapply values_inj.
Qed.

Lemma remove_spec id pl :
  wf pl → remove_safe id pl = true →
  ∃ pl', remove id pl = Some pl' ∧ wf pl' ∧ abs pl' = delete id (abs pl).
Proof.
  intros Hwf Hsafe. pose proof Hwf as [Hnd Hok Hc]. unfold remove, remove_safe in *.
  destruct (find_by_id_cases id pl) as [(i & x & Hf & Hi & <-) | [Hf Hni]]; rewrite Hf in *; simpl.
  2: { exists pl. split; [done|]. split; [done|]. rewrite delete_id; [done|]. by apply abs_absent. }
  unfold remove_at_index. destruct (swap_remove_spec _ _ _ Hi) as (its & Hsw & Hlen & Hlk).
  destruct (removed_items _ _ _ _ Hwf Hi Hsw) as (Hnd' & Hfrom & Hto & Habs).
  rewrite Hsw. simpl. pose proof (lookup_lt_Some _ _ _ Hi) as Hlt.
  assert (Hok' : ∀ j y, its !! j = Some y → prio_ok y).
  { intros j y (k & _ & Hk)%Hfrom. eauto. }
  destruct (decide (current pl = Some (i, priority x))) as [Hcur|Hcur];
    [rewrite bool_decide_eq_true_2 by done | rewrite bool_decide_eq_false_2 by done].
  - rewrite Hcur in Hc. destruct Hc as (x' & Hx' & Ha & Hp & Hlow).
    destruct (compute_next_spec i (priority x) (mkPriolist its (current pl)))
      as (cur & Hrun & Hcok & _); simpl.
    + unfold len. simpl. lia.
    + by apply (Hok i).
    + done.
    + intros j y (k & _ & Hk)%Hfrom. by apply (Hlow k).
    + eexists. split; [exact Hrun|]. split; [by split|]. apply Habs.
  - eexists. split; [reflexivity|]. split; [|apply Habs]. split; [done|done|]. simpl.
    destruct (current pl) as [[c p]|] eqn:Hcur'; simpl in *.
    + destruct Hc as (xc & Hxc & Hac & Hpc & Hlow).
      assert (c ≠ i) by (intros ->; apply Hcur; congruence).
      pose proof (lookup_lt_Some _ _ _ Hxc).
      exists xc. split; [|split; [done|split; [done|]]].
      * apply Hlk. rewrite decide_False by done. split; [|done].
        unfold len in Hsafe. apply orb_true_iff in Hsafe as [?%bool_decide_eq_true|?%bool_decide_eq_true]; lia.
      * intros j y (k & _ & Hk)%Hfrom. by apply (Hlow k).
    + intros j y (k & _ & Hk)%Hfrom. by apply (Hc k).
Qed.

(** The hazard, when it does happen: the next [pop] panics. *)
Lemma remove_hazard id pl :
  wf pl → remove_safe id pl = false →
  ∃ pl', remove id pl = Some pl' ∧ peek pl' = true ∧ pop pl' = None.
Proof.
  intros Hwf Hsafe. unfold remove, remove_safe in *.
  destruct (find_by_id_cases id pl) as [(i & x & Hf & Hi & <-) | [Hf Hni]]; rewrite Hf in *; simpl; [|done].
  apply orb_false_iff in Hsafe as [Hne%bool_decide_eq_false Hc].
  destruct (current pl) as [[c p]|] eqn:Hcur; [|done].
  apply bool_decide_eq_false in Hc. apply dec_stable in Hc. unfold len in *.
  destruct (swap_remove_spec _ _ _ Hi) as (its & Hsw & Hlen & _).
  unfold remove_at_index. rewrite Hsw. simpl. rewrite bool_decide_eq_false_2 by (rewrite Hcur; intros [= -> _]; lia).
  eexists. split; [reflexivity|]. unfold peek, pop. simpl. rewrite Hcur. split; [done|].
  unfold set_index_active. simpl. rewrite (lookup_ge_None_2 its c) by lia. done.
Qed.

(** A single round of service brings the turn strictly closer to every waiting
    item of the same priority. *)
Lemma dist_advance n c c' i :
  (c < n)%nat → (c' < n)%nat → (i < n)%nat → c' ≠ c →
  (dist n c c' <= dist n c i)%nat → (dist n c' i < dist n c i)%nat.
Proof. unfold dist. repeat case_decide; lia. Qed.

Lemma dist_lt n c i : (c < n)%nat → (i < n)%nat → (dist n c i < n)%nat.
Proof. unfold dist. repeat case_decide; lia. Qed.

Lemma serve_reaches d pl c p i x :
  (dist (len pl) c i <= d)%nat → wf pl → current pl = Some (c, p) →
  items pl !! i = Some x → active x = true → priority x = p →
  ∃ n ids pl', (n <= d)%nat ∧ serve (S n) pl = Some (ids ++ [value x], pl').
Proof.
  revert pl c. induction d as [d IH] using lt_wf_ind. intros pl c Hd Hwf Hcur Hi Ha Hp.
  pose proof (lookup_lt_Some _ _ _ Hi) as Hilt.
  destruct (pop_spec pl Hwf) as [[? _] | (c0 & p0 & xc & cur & Hcur' & Hc & Hpop & Hwf1 & Hfair)];
    [congruence|].
  rewrite Hcur in Hcur'. injection Hcur' as <- <-.
  set (pl1 := mkPriolist _ cur) in *.
  destruct (activate_spec (value xc) pl1 Hwf1) as (pl2 & Hact & Hwf2 & _ & [Hlen Hkeep] & Hstay).
  assert (Hlen1 : len pl1 = len pl) by apply length_insert.
  destruct (decide (i = c)) as [->|Hne].
  - exists 0%nat, [], pl2. split; [lia|].
    assert (xc = x) as -> by congruence. simpl. rewrite Hpop. simpl. rewrite Hact. done.
  - destruct (Hfair i x) as (c' & -> & Hcc & Hdist); [done..|].
    assert (Hxc1 : items pl1 !! c = Some (mkItem (value xc) (priority xc) false)).
    { apply flag_lookup; auto. }
    assert (Hi1 : items pl1 !! i = Some x) by (apply flag_lookup; auto).
    assert (Hval : value x ≠ value xc).
    { intros Heq. apply Hne. exact (values_inj pl i c x xc (wf_nodup _ Hwf) Hi Hc Heq). }
    pose proof (wf_cur _ Hwf) as Hcok. rewrite Hcur in Hcok.
    destruct Hcok as (y & Hy & _ & Hpy & _). assert (y = xc) as -> by congruence.
    pose proof (wf_cur _ Hwf1) as (z & Hz & _).
    pose proof (lookup_lt_Some _ _ _ Hz) as Hc'lt. pose proof (lookup_lt_Some _ _ _ Hc) as Hclt.
    fold (len pl1) in Hc'lt. rewrite Hlen1 in Hc'lt.
    pose proof (dist_advance _ _ _ _ Hclt Hc'lt Hilt Hcc Hdist) as Hadv.
    destruct (IH (dist (len pl2) c' i)) with (pl := pl2) (c := c') as (n & ids & pl' & Hn & Hserve);
      [rewrite Hlen, Hlen1; unfold len in *; lia | done | done | | by apply Hkeep | done | done |].
    + eapply Hstay; [reflexivity|exact Hxc1|done|]. simpl. lia.
    + exists (S n), (value xc :: ids), pl'. split; [rewrite Hlen, Hlen1 in Hn; unfold len in *; lia|].
      cbn [serve]. rewrite Hpop. simpl. rewrite Hact. simpl in *.
      rewrite Hserve. done.
Qed.

Lemma servable_active pl :
  wf pl → peek pl = true ↔ ∃ id p, abs pl !! id = Some (p, true).
Proof.
  intros [Hnd Hok Hc]. unfold peek. destruct (current pl) as [[c p]|]; simpl in Hc; (split; [intros|]); try done.
  - destruct Hc as (x & Hx & Ha & Hp & _). exists (value x), p. apply abs_lookup; [done|].
    exists c. rewrite Hx. destruct x; simpl in *; congruence.
  - intros (id & p & (j & Hj)%abs_lookup); [|done]. by apply Hc in Hj.
Qed.

Lemma run_op_refines o pl :
  wf pl → op_ok o pl →
  ∃ r pl', run_op o pl = Some (r, pl') ∧ wf pl' ∧ Spec.step (abs pl) o r (abs pl').
Proof.
  intros Hwf Hop. destruct o as [id p|id|id|id|]; simpl in *.
  - destruct Hop as [Hni Hp]. destruct (insert_spec id p pl Hwf Hni Hp) as [Hwf' Habs].
    eexists _, _. split; [done|]. split; [done|]. rewrite Habs. constructor.
    apply abs_absent; [apply Hwf|done].
  - destruct (remove_spec id pl Hwf Hop) as (pl' & -> & ? & Habs).
    eexists _, _. split; [done|]. split; [done|]. rewrite Habs. constructor.
  - destruct (activate_spec id pl Hwf) as (pl' & -> & ? & Habs & _).
    eexists _, _. split; [done|]. split; [done|]. rewrite Habs. constructor.
  - destruct (deactivate_spec id pl Hwf) as (pl' & -> & ? & Habs).
    eexists _, _. split; [done|]. split; [done|]. rewrite Habs. constructor.
  - destruct (pop_spec pl Hwf) as [[Hcur Hpop] | (c & p & x & cur & Hcur & Hx & Hpop & Hwf' & _)];
      rewrite Hpop; eexists _, _; (split; [done|]); (split; [done|]).
    + constructor. intros id (p & Hid & _).
      assert (peek pl = true) as Hpk by (apply servable_active; eauto).
      unfold peek in Hpk. by rewrite Hcur in Hpk.
    + assert (Habs : abs (mkPriolist (<[c := mkItem (value x) (priority x) false]> (items pl)) cur)
        = Spec.set_flag false (value x) (abs pl)).
      { destruct pl as [ps pc]. apply (abs_flag ps cur pc); [apply Hwf|done]. }
      rewrite Habs. constructor. by eapply servable_current.
Qed.

Lemma reachable_wf pl : reachable pl → wf pl.
Proof.
  induction 1 as [|pl o r pl' _ IH Hop Hrun].
  - split; [constructor|done|done].
  - destruct (run_op_refines o pl IH Hop) as (r' & pl'' & Hrun' & ? & _). congruence.
Qed.

(** ** Properties *)


(** C31: Fairness of [pop]: an active item of the best priority is served within
    as many rounds as there are items, even when every item served before it
    becomes ready again immediately. *)
Theorem priolist_pop_fair pl i x :
  wf pl → items pl !! i = Some x → Spec.servable (abs pl) (value x) →
  ∃ n ids pl', (n < len pl)%nat ∧ serve (S n) pl = Some (ids ++ [value x], pl').
Proof.
  intros Hwf Hi (p & Hp & Hbest). pose proof Hwf as [Hnd _ Hc].
  apply abs_lookup in Hp as (j & Hj); [|done].
  assert (j = i) as -> by by eapply values_inj.
  assert (peek pl = true) as Hpk by (apply servable_active; [done|]; exists (value x), p; apply abs_lookup; eauto).
  unfold peek in Hpk. destruct (current pl) as [[c q]|] eqn:Hcur; [|done].
  pose proof Hc as (y & Hy & Hay & Hqy & Hlow).
  assert (x = mkItem (value x) p true) as Hx by congruence.
  assert (q <= p) by (apply (Hlow i _ Hj); done).
  assert (p <= q).
  { apply (Hbest (value y)). apply abs_lookup; [done|]. exists c. destruct y; simpl in *; congruence. }
  destruct (serve_reaches (dist (len pl) c i) pl c q i x) as (n & ids & pl' & Hn & Hs); auto.
  1,2: rewrite Hx; simpl; lia || done.
  exists n, ids, pl'. split; [|done].
  pose proof (dist_lt (len pl) c i). unfold len in *.
  apply lookup_lt_Some in Hi. apply lookup_lt_Some in Hy. lia.
Qed.

(** [peek] tells exactly whether some item is active, on every list built by
    the operations. *)
Theorem priolist_peek_active pl :
  reachable pl → peek pl = true ↔ ∃ id p, abs pl !! id = Some (p, true).
Proof. intros Hr. apply servable_active, reachable_wf, Hr. Qed.

(** [remove] leaves a dangling [current] when the item to serve next is the
    last one of the vector and another item is removed: the list still claims to
    have something to serve ([peek]) and the next [pop] panics. *)
Theorem priolist_remove_dangles id pl :
  reachable pl → remove_safe id pl = false →
  ∃ pl', remove id pl = Some pl' ∧ peek pl' = true ∧ pop pl' = None.
Proof. intros Hr. apply remove_hazard, reachable_wf, Hr. Qed.

End facts.

(** ** Witnesses *)

Section witnesses.
#[local] Instance dev_build : Build := {| overflow_checks := true |}.

(** Runs the operations from an empty list, checking their preconditions. *)
Definition build (l : list Spec.op) : option Priolist :=
  foldl (λ acc o, pl ← acc; if decide (op_ok o pl) then snd <$> run_op o pl else None) (Some new) l.
Definition ep (n : Z) : EndpointId := EndpointId_from n.

Lemma build_reachable l pl : build l = Some pl → reachable pl.
Proof.
  revert pl. induction l as [|o l IH] using rev_ind; intros pl; unfold build in *.
  - intros [= <-]. constructor.
  - rewrite foldl_app. simpl. intros (pl0 & Hb & Hrun)%bind_Some.
    case_decide; [|done]. apply fmap_Some in Hrun as ([r pl'] & Hrun & ->). simpl.
    eapply reachable_op; eauto.
Qed.

(** Two pipes of the same priority, both ready, the first one to be served. *)
Definition ex_two : Priolist :=
  {| items := [mkItem (ep 0) 8 true; mkItem (ep 1) 8 true]; current := Some (0%nat, 8) |}.

Lemma ex_two_reachable : reachable ex_two.
Proof.
  apply (build_reachable
    [Spec.Insert (ep 0) 8; Spec.Insert (ep 1) 8; Spec.Activate (ep 0); Spec.Activate (ep 1)]).
  vm_compute. reflexivity.
Qed.


Lemma priolist_pop_fair_witness :
  ∃ n ids pl', (n < len ex_two)%nat ∧ serve (S n) ex_two = Some (ids ++ [ep 1], pl').
Proof.
  apply (priolist_pop_fair ex_two 1 (mkItem (ep 1) 8 true)); [|reflexivity|].
  - apply reachable_wf, ex_two_reachable.
  - exists 8. split; [reflexivity|]. intros id' p' Hl.
    apply abs_lookup in Hl as ([|[|j]] & Hj); [|..|apply reachable_wf, ex_two_reachable];
      simplify_eq/=; lia.
Defined.

Lemma priolist_peek_active_witness :
  peek ex_two = true ↔ ∃ id p, abs ex_two !! id = Some (p, true).
Proof. apply (priolist_peek_active ex_two). apply ex_two_reachable. Defined.

(** Three pipes, the last one ready: removing the first one breaks the list. *)
Definition ex_three : Priolist :=
  {| items := [mkItem (ep 0) 8 false; mkItem (ep 1) 8 false; mkItem (ep 2) 8 true];
     current := Some (2%nat, 8) |}.

Lemma priolist_remove_dangles_witness :
  ∃ pl', remove (ep 0) ex_three = Some pl' ∧ peek pl' = true ∧ pop pl' = None.
Proof.
  apply (priolist_remove_dangles (ep 0) ex_three); [|reflexivity].
  apply (build_reachable [Spec.Insert (ep 0) 8; Spec.Insert (ep 1) 8; Spec.Insert (ep 2) 8;
    Spec.Activate (ep 2)]).
  vm_compute. reflexivity.
Defined.

End witnesses.
