(* ===== verification/Pipes.v ===== *)
(** * Pipe collections and routing policies (src/proto/pipes.rs, src/proto/policy.rs)

    The pipes a protocol talks to, keyed by endpoint id, and the three policies
    built on them: broadcast over a ready set, fair queueing and load balancing
    over a [Priolist]. *)

From S2P Require Import Prelude Core Context Priolist.

(** ** PipeCollection *)

Record PipeCollection : Type := mkPipeCollection { pc_pipes : gmap EndpointId Pipe }.

Definition PipeCollection_new : PipeCollection := mkPipeCollection ∅.

Definition PipeCollection_insert (id : EndpointId) (pipe : Pipe) (self : PipeCollection)
    : option Pipe * PipeCollection :=
  (pc_pipes self !! id, mkPipeCollection (<[id := pipe]> (pc_pipes self))).

Definition PipeCollection_remove (id : EndpointId) (self : PipeCollection)
    : option Pipe * PipeCollection :=
  (pc_pipes self !! id, mkPipeCollection (delete id (pc_pipes self))).

Definition get_mut (id : EndpointId) (self : PipeCollection) : option Pipe :=
  pc_pipes self !! id.

Definition send_to (msg : Message) (eid : EndpointId) (self : PipeCollection)
    : P (option EndpointId) :=
  match get_mut eid self with
  | Some pipe => Pipe_send msg pipe;; mret (Some eid)
  | None => mret None
  end.

Definition recv_from (eid : EndpointId) (self : PipeCollection) : P (option EndpointId) :=
  match get_mut eid self with
  | Some pipe => Pipe_recv pipe;; mret (Some eid)
  | None => mret None
  end.

(** [for (_, pipe) in self.pipes.drain() { pipe.close(ctx); }] *)
Definition close_all `{Env} (self : PipeCollection) : P PipeCollection :=
  h ← history;
  for_each (λ kv, Pipe_close kv.2;; mret ()) (drain_map h (pc_pipes self));;
  mret PipeCollection_new.

(** ** Broadcast *)

Section broadcast.
Context `{Env}.

Definition send_to_one (pipes : PipeCollection) (msg : Message) (id : EndpointId) : P () :=
  if_some (get_mut id pipes) (Pipe_send msg).

Definition send_to_all (bc : gset EndpointId) (pipes : PipeCollection) (msg : Message)
    : P (gset EndpointId) :=
  h ← history;
  for_each (send_to_one pipes msg) (drain_set h bc);;
  mret ∅.

Definition send_to_all_except (bc : gset EndpointId) (pipes : PipeCollection) (msg : Message)
    (except : EndpointId) : P (gset EndpointId) :=
  h ← history;
  for_each (send_to_one pipes msg) (filter (λ x, x ≠ except) (drain_set h bc));;
  mret {[except]}.

End broadcast.

(** ** Fair queueing and load balancing *)

Section policies.
Context `{Build}.

Definition fair_queue_recv (fq : Priolist) (pipes : PipeCollection)
    : P (option EndpointId * Priolist) :=
  '(popped, fq) ← lift (pop fq);
  match popped with
  | Some eid => r ← recv_from eid pipes; mret (r, fq)
  | None => mret (None, fq)
  end.

Definition load_balancing_send (lb : Priolist) (pipes : PipeCollection) (msg : Message)
    : P (option EndpointId * Priolist) :=
  '(popped, lb) ← lift (pop lb);
  match popped with
  | Some eid => r ← send_to msg eid pipes; mret (r, lb)
  | None => mret (None, lb)
  end.

End policies.

(** ** Invariant: a collection files each pipe under its own id *)

Definition keyed (self : PipeCollection) : Prop :=
  ∀ id p, pc_pipes self !! id = Some p → pipe_id p = id.

Lemma keyed_new : keyed PipeCollection_new.
Proof. intros id p. unfold PipeCollection_new. simpl. by rewrite lookup_empty. Qed.

Lemma keyed_insert id p self :
  keyed self → pipe_id p = id → keyed (PipeCollection_insert id p self).2.
Proof.
  intros Hk Hp id' p'. simpl. intros Hl.
  apply lookup_insert_Some in Hl as [[<- <-]|[_ Hl]]; [done|by apply Hk].
Qed.

Lemma keyed_remove id self : keyed self → keyed (PipeCollection_remove id self).2.
Proof.
  intros Hk id' p'. simpl. intros Hl. apply lookup_delete_Some in Hl as [_ Hl]. by apply Hk.
Qed.

#[export] Hint Resolve keyed_new keyed_insert keyed_remove : core.

Lemma send_to_run msg eid pc h :
  send_to msg eid pc h =
  match pc_pipes pc !! eid with
  | Some p => Done (Some eid) [NetSend (pipe_id p) msg]
  | None => Done None []
  end.
Proof. unfold send_to, get_mut. by destruct (pc_pipes pc !! eid). Qed.

Lemma recv_from_run eid pc h :
  recv_from eid pc h =
  match pc_pipes pc !! eid with
  | Some p => Done (Some eid) [NetRecv (pipe_id p)]
  | None => Done None []
  end.
Proof. unfold recv_from, get_mut. by destruct (pc_pipes pc !! eid). Qed.

(** The endpoints a broadcast over [ids] reaches, in the order it does. *)
Definition reached (pipes : PipeCollection) (ids : list EndpointId) : list EndpointId :=
  omap (λ id, ep_id ∘ pipe_ep <$> pc_pipes pipes !! id) ids.

Lemma send_each_run pipes msg ids h :
  for_each (send_to_one pipes msg) ids h =
  Done () ((λ id, NetSend id msg) <$> reached pipes ids).
Proof.
  revert h. induction ids as [|id ids IH]; intros h; [done|]. cbn [for_each].
  rewrite bind_run. unfold send_to_one at 1, get_mut, if_some, reached. simpl.
  destruct (pc_pipes pipes !! id) as [p|]; simpl; by rewrite IH.
Qed.

Lemma reached_keyed pipes ids :
  keyed pipes → reached pipes ids = filter (λ id, id ∈ dom (pc_pipes pipes)) ids.
Proof.
  intros Hk. unfold reached. induction ids as [|id ids IH]; [done|]. simpl.
  destruct (pc_pipes pipes !! id) as [p|] eqn:Hl; simpl.
  - rewrite filter_cons_True by (by apply elem_of_dom_2 in Hl).
    by rewrite (Hk _ _ Hl), <- IH.
  - rewrite filter_cons_False by (by apply not_elem_of_dom). done.
Qed.

(** ** A priority list over a pipe collection *)

(** The list and the collection hold the same ids. *)
Record routed (pl : Priolist) (pc : PipeCollection) : Prop := {
  routed_wf : wf pl;
  routed_keyed : keyed pc;
  routed_dom : dom (abs pl) = dom (pc_pipes pc)
}.

(** What the socket guarantees when it hands a new pipe over. *)
Definition addable (eid : EndpointId) (pipe : Pipe) (prio : Z) (pc : PipeCollection) : Prop :=
  pc_pipes pc !! eid = None ∧ pipe_id pipe = eid ∧ 0 <= prio <= 16.

Lemma routed_new : routed new PipeCollection_new.
Proof.
  split; [split|auto|].
  - constructor.
  - intros j y Hl. simpl in Hl. by rewrite lookup_nil in Hl.
  - intros j y Hl. simpl in Hl. by rewrite lookup_nil in Hl.
  - simpl. unfold abs. simpl. by rewrite !dom_empty_L.
Qed.

Lemma dom_set_flag b id m : dom (Spec.set_flag b id m) = dom m.
Proof. unfold Spec.set_flag. apply set_eq. intros x. by rewrite dom_alter. Qed.

Section routed.
Context `{Build}.
Implicit Types (pl : Priolist) (pc : PipeCollection).

Lemma routed_absent pl pc id : routed pl pc → pc_pipes pc !! id = None → id ∉ value <$> items pl.
Proof.
  intros [Hwf _ Hdom] Hnone Hin. apply not_elem_of_dom in Hnone. rewrite <- Hdom in Hnone.
  apply Hnone. apply list_elem_of_fmap in Hin as (x & -> & Hx).
  apply list_elem_of_lookup in Hx as [i Hi]. apply elem_of_dom.
  exists (priority x, active x). apply abs_lookup; [apply Hwf|]. exists i. by destruct x.
Qed.

Lemma routed_insert pl pc id pipe prio :
  routed pl pc → addable id pipe prio pc →
  routed (insert id prio pl) (PipeCollection_insert id pipe pc).2.
Proof.
  intros Hr (Hnone & Hid & Hprio). pose proof (routed_absent _ _ _ Hr Hnone) as Habs.
  destruct Hr as [Hwf Hk Hdom]. destruct (insert_spec id prio pl Hwf Habs Hprio) as [Hwf' Ha].
  split; [done|auto|]. rewrite Ha. simpl. rewrite !dom_insert_L. by rewrite Hdom.
Qed.

Lemma peek_same_abs pl pl' m' :
  wf pl → wf pl' → abs pl' = m' →
  (∀ id p, m' !! id = Some (p, true) → ∃ p', abs pl !! id = Some (p', true)) →
  peek pl = false → peek pl' = false.
Proof.
  intros Hwf Hwf' Ha Hsub Hp. destruct (peek pl') eqn:Hp'; [|done].
  apply servable_active in Hp' as (id & p & Hl); [|done]. rewrite Ha in Hl.
  destruct (Hsub _ _ Hl) as [p' Hl']. rewrite <- Hp. symmetry.
  apply servable_active; [done|]. eauto.
Qed.

Lemma peek_insert id prio pl : peek (insert id prio pl) = peek pl.
Proof. done. Qed.

Lemma routed_remove pl pc id :
  routed pl pc → remove_safe id pl = true →
  ∃ pl', remove id pl = Some pl' ∧ routed pl' (PipeCollection_remove id pc).2 ∧
    (peek pl = false → peek pl' = false).
Proof.
  intros [Hwf Hk Hdom] Hsafe. destruct (remove_spec id pl Hwf Hsafe) as (pl' & Hr & Hwf' & Ha).
  exists pl'. split; [done|]. split.
  - split; [done|auto|]. rewrite Ha. simpl. rewrite !dom_delete_L. by rewrite Hdom.
  - eapply peek_same_abs; [done..|]. intros id' p. rewrite lookup_delete_Some. naive_solver.
Qed.

Lemma routed_activate pl pc id :
  routed pl pc → ∃ pl', activate id pl = Some pl' ∧ routed pl' pc.
Proof.
  intros [Hwf Hk Hdom]. destruct (activate_spec id pl Hwf) as (pl' & Hr & Hwf' & Ha & _).
  exists pl'. split; [done|]. split; [done..|]. rewrite Ha, dom_set_flag. done.
Qed.

(** A pipe the collection has, once ready, makes the socket ready. *)
Lemma routed_activate_peek pl pc id pl' :
  routed pl pc → is_Some (pc_pipes pc !! id) → activate id pl = Some pl' → peek pl' = true.
Proof.
  intros [Hwf Hk Hdom] Hin Hact. destruct (activate_spec id pl Hwf) as (pl2 & Hr & Hwf' & Ha & _).
  rewrite Hact in Hr. injection Hr as <-. apply servable_active; [done|]. rewrite Ha.
  apply elem_of_dom in Hin. rewrite <- Hdom in Hin. apply elem_of_dom in Hin as [[p a] Hl].
  exists id, p. unfold Spec.set_flag. by rewrite lookup_alter_eq, Hl.
Qed.

Lemma unflag_sub id (m : Spec.t) id' p :
  Spec.set_flag false id m !! id' = Some (p, true) → ∃ p', m !! id' = Some (p', true).
Proof.
  unfold Spec.set_flag. rewrite lookup_alter_Some. intros [(<- & [] & _ & ?)|[_ ?]]; [done|eauto].
Qed.

Lemma routed_deactivate pl pc id :
  routed pl pc →
  ∃ pl', deactivate id pl = Some pl' ∧ routed pl' pc ∧ (peek pl = false → peek pl' = false).
Proof.
  intros [Hwf Hk Hdom]. destruct (deactivate_spec id pl Hwf) as (pl' & Hr & Hwf' & Ha).
  exists pl'. split; [done|]. split.
  - split; [done..|]. rewrite Ha, dom_set_flag. done.
  - eapply peek_same_abs; [done..|]. apply unflag_sub.
Qed.

(** Popping a list that mirrors a collection. *)
Lemma routed_pop pl pc :
  routed pl pc →
  (peek pl = false ∧ pop pl = Some (None, pl)) ∨
  ∃ eid pipe pl', peek pl = true ∧ pop pl = Some (Some eid, pl') ∧
    pc_pipes pc !! eid = Some pipe ∧ pipe_id pipe = eid ∧ routed pl' pc ∧
    Spec.servable (abs pl) eid ∧ abs pl' = Spec.set_flag false eid (abs pl).
Proof.
  intros [Hwf Hk Hdom]. destruct (run_op_refines Spec.Pop pl Hwf I) as (r & pl' & Hrun & Hwf' & Hst).
  simpl in Hrun. inversion Hst as [| | | |m id Hs Hm|m Hs Hm]; subst.
  - right. assert (is_Some (abs pl !! id)) as Hd by (destruct Hs as (p & -> & _); eauto).
    apply elem_of_dom in Hd. rewrite Hdom in Hd. apply elem_of_dom in Hd as [pipe Hp].
    exists id, pipe, pl'. split.
    { apply servable_active; [done|]. destruct Hs as (p & ? & _). eauto. }
    split_and!; [done|done|by apply Hk| |done|done].
    split; [done..|]. match goal with E : _ = abs pl' |- _ => rewrite <- E end.
    by rewrite dom_set_flag.
  - left. destruct (pop_spec pl Hwf) as [[Hc Hpop]|(c & p & x & cur & _ & _ & Hpop & _)].
    + split; [|done]. unfold peek. by rewrite Hc.
    + congruence.
Qed.

Lemma fair_queue_run fq pc :
  routed fq pc →
  (peek fq = false ∧ ∀ h, fair_queue_recv fq pc h = Done (None, fq) []) ∨
  ∃ eid fq', peek fq = true ∧
    (∀ h, fair_queue_recv fq pc h = Done (Some eid, fq') [NetRecv eid]) ∧
    routed fq' pc ∧ Spec.servable (abs fq) eid ∧ is_Some (pc_pipes pc !! eid).
Proof.
  intros Hr. unfold fair_queue_recv.
  destruct (routed_pop fq pc Hr) as [[Hp ->]|(eid & pipe & fq' & Hp & -> & Hl & Hid & Hr' & Hs & _)].
  - left. split; done.
  - right. exists eid, fq'. split_and!; [done| |done|done|eauto].
    intros h. rewrite bind_run. simpl. rewrite bind_run, recv_from_run, Hl. simpl. by rewrite Hid.
Qed.

Lemma load_balancing_run lb pc msg :
  routed lb pc →
  (peek lb = false ∧ ∀ h, load_balancing_send lb pc msg h = Done (None, lb) []) ∨
  ∃ eid lb', peek lb = true ∧
    (∀ h, load_balancing_send lb pc msg h = Done (Some eid, lb') [NetSend eid msg]) ∧
    routed lb' pc ∧ Spec.servable (abs lb) eid ∧ is_Some (pc_pipes pc !! eid).
Proof.
  intros Hr. unfold load_balancing_send.
  destruct (routed_pop lb pc Hr) as [[Hp ->]|(eid & pipe & lb' & Hp & -> & Hl & Hid & Hr' & Hs & _)].
  - left. split; done.
  - right. exists eid, lb'. split_and!; [done| |done|done|eauto].
    intros h. rewrite bind_run. simpl. rewrite bind_run, send_to_run, Hl. simpl. by rewrite Hid.
Qed.

(** The pipe a send goes to is the next of the list. *)
Lemma load_balancing_next lb pc msg eid lb' :
  routed lb pc → pop lb = Some (Some eid, lb') →
  routed lb' pc ∧ ∀ h, load_balancing_send lb pc msg h = Done (Some eid, lb') [NetSend eid msg].
Proof.
  intros Hr Hpop. destruct (routed_pop lb pc Hr) as [[_ Hp]|(id & pipe & lb1 & _ & Hp & Hl & Hid & Hr' & _)];
    rewrite Hpop in Hp; [done|]. injection Hp as <- <-. split; [done|]. intros h.
  unfold load_balancing_send. rewrite Hpop, bind_run. simpl. rewrite bind_run, send_to_run, Hl. simpl. by rewrite Hid.
Qed.

End routed.
