(* ===== verification/Protocol.v ===== *)
(** * The protocol interface (trait [Protocol], src/core/socket.rs)

    [Protocol] is the trait a socket drives.  [input] names its calls, [step]
    dispatches one, [drive] a sequence of them.

    [Contract] is what every protocol promises to the socket, and through it to
    the facade, which sends one request at a time and waits for its reply: each
    send or recv gets exactly one reply, of the right kind, its timer is
    cancelled when the reply is not the timeout itself, and no call panics.  The
    protocols are instances; [drive_ok] lifts the promise to whole
    conversations. *)

From S2P Require Import Prelude Core Context Priolist Pipes.

(** ** The trait *)

Class Protocol (T : Type) : Type := {
  proto_id : T → Z;
  peer_id : T → Z;
  add_pipe : EndpointId → Pipe → T → P T;
  remove_pipe : EndpointId → T → P (option Pipe * T);
  send : Message → Timeout → T → P T;
  on_send_ack : EndpointId → T → P T;
  on_send_timeout : T → P T;
  on_send_ready : EndpointId → T → P T;
  on_send_not_ready : EndpointId → T → P T;
  recv : Timeout → T → P T;
  on_recv_ack : EndpointId → Message → T → P T;
  on_recv_timeout : T → P T;
  on_recv_ready : EndpointId → T → P T;
  on_recv_not_ready : EndpointId → T → P T;
  is_send_ready : T → bool;
  is_recv_ready : T → bool;
  set_option : ConfigOption → T → result () * T;
  on_timer_tick : Schedulable → T → P T;
  on_device_plugged : T → P T;
  close : T → P T
}.

(** The trait's default methods. *)
Definition default_set_option {T} (_ : ConfigOption) (self : T) : result () * T :=
  (Err (invalid_input_io_error "option not supported"), self).
Definition default_on_timer_tick {T} (_ : Schedulable) (self : T) : P T := mret self.
Definition default_on_device_plugged {T} (self : T) : P T := mret self.

(** ** Calls as data *)

Inductive input : Type :=
| IAddPipe (eid : EndpointId) (pipe : Pipe)
| IRemovePipe (eid : EndpointId)
| ISend (msg : Message) (timeout : Timeout)
| ISendAck (eid : EndpointId)
| ISendTimeout
| ISendReady (eid : EndpointId)
| ISendNotReady (eid : EndpointId)
| IRecv (timeout : Timeout)
| IRecvAck (eid : EndpointId) (msg : Message)
| IRecvTimeout
| IRecvReady (eid : EndpointId)
| IRecvNotReady (eid : EndpointId)
| ISetOption (opt : ConfigOption)
| ITimerTick (task : Schedulable)
| IDevicePlugged.

Definition step {T} `{Protocol T} (i : input) (s : T) : P T :=
  match i with
  | IAddPipe eid pipe => add_pipe eid pipe s
  | IRemovePipe eid => r ← remove_pipe eid s; mret r.2
  | ISend msg timeout => send msg timeout s
  | ISendAck eid => on_send_ack eid s
  | ISendTimeout => on_send_timeout s
  | ISendReady eid => on_send_ready eid s
  | ISendNotReady eid => on_send_not_ready eid s
  | IRecv timeout => recv timeout s
  | IRecvAck eid msg => on_recv_ack eid msg s
  | IRecvTimeout => on_recv_timeout s
  | IRecvReady eid => on_recv_ready eid s
  | IRecvNotReady eid => on_recv_not_ready eid s
  | ISetOption opt => mret (set_option opt s).2
  | ITimerTick task => on_timer_tick task s
  | IDevicePlugged => on_device_plugged s
  end.

Fixpoint drive {T} `{Protocol T} (ins : list input) (s : T) : P T :=
  match ins with
  | [] => mret s
  | i :: ins => s ← step i s; drive ins s
  end.

(** ** Requests and answers *)

Inductive kind : Type := KSend | KRecv.

#[global] Instance kind_eq_dec : EqDecision kind.
Proof. solve_decision. Defined.

Definition request (i : input) : option (kind * Timeout) :=
  match i with
  | ISend _ t => Some (KSend, t)
  | IRecv t => Some (KRecv, t)
  | _ => None
  end.

(** The request whose timer an input is the expiry of. *)
Definition fires (i : input) : option kind :=
  match i with ISendTimeout => Some KSend | IRecvTimeout => Some KRecv | _ => None end.

Definition answers (k : kind) (r : Reply) : Prop :=
  match k, r with
  | _, ReplyErr _ | KSend, ReplySend | KRecv, ReplyRecv _ => True
  | _, _ => False
  end.

Definition is_timed_out (r : Reply) : Prop :=
  match r with ReplyErr e => err_kind e = KTimedOut | _ => False end.

(** What the socket guarantees: one request at a time, and a request's timer
    fires only while that request is unanswered. *)
Definition allowed (i : input) (pending : option (kind * Timeout)) : bool :=
  match request i, fires i with
  | Some _, _ => match pending with None => true | Some _ => false end
  | None, Some k =>
      match pending with Some (k', Some _) => bool_decide (k = k') | _ => false end
  | None, None => true
  end.

(** One call, seen from the facade: [own] are the timers the protocol
    scheduled for itself, the only other ones it may cancel. *)
Inductive contract (own : list Scheduled)
    : option (kind * Timeout) → input → trace → option (kind * Timeout) → Prop :=
| contract_idle i out :
    request i = None → replies out = [] → cancels out ⊆ own →
    contract own None i out None
| contract_refused i k t r out :
    request i = Some (k, t) → replies out = [r] → answers k r →
    cancels out ⊆ option_list t ++ own → option_list t ⊆ cancels out →
    contract own None i out None
| contract_taken i k t out :
    request i = Some (k, t) → replies out = [] → cancels out ⊆ own →
    contract own None i out (Some (k, t))
| contract_waits i k t out :
    request i = None → replies out = [] → cancels out ⊆ own →
    contract own (Some (k, t)) i out (Some (k, t))
| contract_answered i k t r out :
    request i = None → fires i = None → replies out = [r] → answers k r →
    cancels out ⊆ option_list t ++ own → option_list t ⊆ cancels out →
    contract own (Some (k, t)) i out None
| contract_expired i k t r out :
    fires i = Some k → replies out = [r] → is_timed_out r → cancels out ⊆ own →
    contract own (Some (k, t)) i out None.

(** The events of a call leave the poller with the protocol's readiness. *)
Definition announced {T} `{Protocol T} (s : T) (out : trace) (s' : T) : Prop :=
  send_view (is_send_ready s) out = is_send_ready s' ∧
  recv_view (is_recv_ready s) out = is_recv_ready s'.

(** The promise, for one protocol. [guard] is what it relies on for the calls
    the discipline above does not cover. *)
Class Contract (T : Type) `{Protocol T} : Type := {
  inv : T → Prop;
  guard : input → T → bool;
  pending : T → option (kind * Timeout);
  own_timers : T → list Scheduled;
  step_ok : ∀ i s h, inv s → guard i s = true → allowed i (pending s) = true →
    ∃ s' out, step i s h = Done s' out ∧ inv s' ∧ announced s out s' ∧
      contract (own_timers s) (pending s) i out (pending s')
}.

(** Every call of the sequence is allowed where it is made. *)
Fixpoint disciplined {T} `{Contract T} (ins : list input) (s : T) (h : trace) : bool :=
  match ins with
  | [] => true
  | i :: ins =>
      guard i s && allowed i (pending s) &&
      match step i s h with
      | Done s' out => disciplined ins s' (h ++ out)
      | Panicked => true
      end
  end.

(** The requests of a sequence, and how replies pair up with them: in order, each
    of the right kind, all answered except for the pending one. *)
Definition kinds (ins : list input) : list kind := omap (λ i, fst <$> request i) ins.

Definition answered (ks : list kind) (rs : list Reply) (p : option (kind * Timeout)) : Prop :=
  ∃ ks', ks = ks' ++ option_list (fst <$> p) ∧ Forall2 answers ks' rs.

Lemma allowed_fires i k p :
  fires i = Some k → allowed i p = true → ∃ t, p = Some (k, Some t).
Proof.
  intros Hf. unfold allowed. assert (request i = None) as -> by (by destruct i).
  rewrite Hf. destruct p as [[k' [t|]]|]; try done.
  intros Hb. apply bool_decide_eq_true in Hb as ->. eauto.
Qed.

Lemma allowed_request i k t p : request i = Some (k, t) → allowed i p = true → p = None.
Proof. intros Hr. unfold allowed. rewrite Hr. by destruct p. Qed.

(** ** Conversations *)

Section drive.
Context {T} `{Contract T}.

Lemma timed_out_answers k r : is_timed_out r → answers k r.
Proof. by destruct k, r. Qed.

Lemma contract_conserves own p i out p' :
  contract own p i out p' →
  ∃ ks', option_list (fst <$> p) ++ option_list (fst <$> request i) =
           ks' ++ option_list (fst <$> p') ∧ Forall2 answers ks' (replies out).
Proof.
  intros [? ? Hr Ho _|? k ? r ? Hr Ho Ha _ _|? k ? ? Hr Ho _|? k ? ? Hr Ho _
         |? k ? r ? Hr _ Ho Ha _ _|j k t r ? Hf Ho Ha _]; rewrite Ho.
  - exists []. rewrite Hr. simpl. auto.
  - exists [k]. rewrite Hr. simpl. auto.
  - exists []. rewrite Hr. simpl. auto.
  - exists []. rewrite Hr. simpl. auto.
  - exists [k]. rewrite Hr. simpl. auto.
  - exists [k]. assert (request j = None) as -> by (by destruct j).
    simpl. split; [done|]. constructor; [by apply timed_out_answers|constructor].
Qed.

Lemma drive_ok ins s h :
  inv s → disciplined ins s h = true →
  ∃ s' out, drive ins s h = Done s' out ∧ inv s' ∧ announced s out s' ∧
    answered (option_list (fst <$> pending s) ++ kinds ins) (replies out) (pending s').
Proof.
  revert s h. induction ins as [|i ins IH]; intros s h Hinv Hd.
  - exists s, []. split; [done|]. split; [done|]. split; [done|]. exists []. by rewrite app_nil_r.
  - simpl in Hd. rewrite !andb_true_iff in Hd. destruct Hd as [[Hg Ha] Hd].
    destruct (step_ok i s h Hinv Hg Ha) as (s1 & o1 & Hs & Hinv1 & [Hv1 Hw1] & Hc).
    rewrite Hs in Hd.
    destruct (IH _ _ Hinv1 Hd) as (s2 & o2 & Hdr & Hinv2 & [Hv2 Hw2] & ks2 & Hks2 & Hf2).
    exists s2, (o1 ++ o2). split; [|split; [done|split]].
    { simpl. by apply bind_done with s1. }
    { split; [by rewrite send_view_app, Hv1|by rewrite recv_view_app, Hw1]. }
    destruct (contract_conserves _ _ _ _ _ Hc) as (ks1 & Hks1 & Hf1).
    exists (ks1 ++ ks2). rewrite replies_app. split; [|by apply Forall2_app].
    assert (kinds (i :: ins) = option_list (fst <$> request i) ++ kinds ins) as ->.
    { unfold kinds. simpl. by destruct (request i). }
    by rewrite app_assoc, Hks1, <- !app_assoc, Hks2.
Qed.

(** A conversation with a fresh socket, from the facade's side. *)
Definition conversation (s0 : T) (ins : list input) : Prop :=
  ∃ s out, drive ins s0 [] = Done s out ∧ inv s ∧ announced s0 out s ∧
    answered (kinds ins) (replies out) (pending s).

Lemma conversation_ok s0 ins :
  inv s0 → pending s0 = None → disciplined ins s0 [] = true → conversation s0 ins.
Proof.
  intros Hinv Hp Hd. destruct (drive_ok ins s0 [] Hinv Hd) as (s' & out & Hr & Hi & Ha & Hn).
  rewrite Hp in Hn. exists s', out. auto.
Qed.

End drive.

(** What raises events only changes nothing of the contract. *)
Definition silent (t : trace) : Prop := replies t = [] ∧ cancels t = [].

Lemma silent_nil : silent [].
Proof. done. Qed.
Lemma silent_app t1 t2 : silent t1 → silent t2 → silent (t1 ++ t2).
Proof.
  intros [Hr1 Hc1] [Hr2 Hc2]. split; [rewrite replies_app|rewrite cancels_app].
  - by rewrite Hr1, Hr2.
  - by rewrite Hc1, Hc2.
Qed.
Lemma silent_send_change a b : silent (send_change a b).
Proof. split; [apply send_change_replies|apply send_change_cancels]. Qed.
Lemma silent_recv_change a b : silent (recv_change a b).
Proof. split; [apply recv_change_replies|apply recv_change_cancels]. Qed.
Lemma silent_send eid m : silent [NetSend eid m].
Proof. done. Qed.
Lemma silent_recv eid : silent [NetRecv eid].
Proof. done. Qed.
Lemma silent_raise e : silent [Raise e].
Proof. done. Qed.
#[export] Hint Resolve silent_nil silent_app silent_send_change silent_recv_change
  silent_send silent_recv silent_raise : core.

#[export] Hint Extern 1 (answers _ _) => exact I : core.

Lemma contract_around own p i out p' t1 t2 :
  contract own p i out p' → silent t1 → silent t2 → contract own p i (t1 ++ out ++ t2) p'.
Proof.
  intros Hc [Hr1 Hc1] [Hr2 Hc2].
  assert (replies (t1 ++ out ++ t2) = replies out) as HR
    by (by rewrite !replies_app, Hr1, Hr2, app_nil_r).
  assert (cancels (t1 ++ out ++ t2) = cancels out) as HC
    by (by rewrite !cancels_app, Hc1, Hc2, app_nil_r).
  destruct Hc; econstructor; rewrite ?HR, ?HC; done.
Qed.

Lemma contract_after own p i out p' t2 :
  contract own p i out p' → silent t2 → contract own p i (out ++ t2) p'.
Proof. intros. by apply (contract_around _ _ _ _ _ [] t2). Qed.

Lemma contract_before own p i out p' t1 :
  contract own p i out p' → silent t1 → contract own p i (t1 ++ out) p'.
Proof. intros. rewrite <- (app_nil_r out). by apply contract_around. Qed.

(** A call that says nothing to the facade. *)
Lemma contract_quiet own p i out :
  request i = None → silent out → contract own p i out p.
Proof.
  intros Hr [Ho Hc]. destruct p as [[k t]|]; constructor; try done; rewrite Hc; set_solver.
Qed.

Lemma contract_accept own i out k t :
  request i = Some (k, t) → silent out → contract own None i out (Some (k, t)).
Proof. intros Hr [Ho Hc]. constructor; try done. rewrite Hc. set_solver. Qed.

(** The usual answers: the reply, then the timer. *)
Lemma contract_reply own p i k t r :
  (p = None ∧ request i = Some (k, t) ∨ p = Some (k, t) ∧ request i = None ∧ fires i = None) →
  answers k r → contract own p i (SendReply r :: cancel_trace t) None.
Proof.
  intros Hp Ha.
  assert (cancels (SendReply r :: cancel_trace t) = option_list t) as HC
    by (by destruct t).
  assert (replies (SendReply r :: cancel_trace t) = [r]) as HR by (by destruct t).
  destruct Hp as [[-> Hr]|[-> [Hr Hf]]].
  - eapply contract_refused; [done..| |]; rewrite HC; set_solver.
  - eapply contract_answered; [done..| |]; rewrite HC; set_solver.
Qed.

Lemma contract_timeout own i k t msg out :
  fires i = Some k → silent out →
  contract own (Some (k, t)) i (SendReply (ReplyErr (timedout_io_error msg)) :: out) None.
Proof.
  intros Hf Hs. apply (contract_after _ _ _ [_]); [|done].
  eapply contract_expired; [done|reflexivity|done|]. simpl. set_solver.
Qed.

(** ** Broadcasts *)

Lemma filter_all {A} (Q : A → Prop) `{∀ x, Decision (Q x)} (l : list A) :
  (∀ x, x ∈ l → Q x) → filter Q l = l.
Proof.
  induction l as [|x l IH]; intros Hl; [done|].
  rewrite filter_cons_True by (apply Hl; set_solver). f_equal. apply IH. set_solver.
Qed.

Lemma elem_of_drain `{Env} h (s : gset EndpointId) x : x ∈ drain_set h s ↔ x ∈ s.
Proof. by rewrite drain_set_perm, elem_of_elements. Qed.

Lemma silent_broadcast raw ids : silent ((λ id, NetSend id raw) <$> ids).
Proof. by induction ids as [|id ids [IH1 IH2]]; split; simpl. Qed.
Lemma mute_broadcast raw ids : mute ((λ id, NetSend id raw) <$> ids).
Proof. by induction ids. Qed.

Lemma sends_broadcast raw ids : sends ((λ id, NetSend id raw) <$> ids) = (λ id, (id, raw)) <$> ids.
Proof. induction ids as [|id ids IH]; simpl; [done|f_equal; apply IH]. Qed.

Lemma send_all_run `{Env} pc bs msg h :
  send_to_all bs pc msg h =
  Done ∅ ((λ id, NetSend id msg) <$> reached pc (filter (λ _, True) (drain_set h bs))).
Proof.
  unfold send_to_all, history. rewrite bind_run. cbv beta iota.
  rewrite bind_run, app_nil_r, send_each_run, ret_run. cbn.
  by rewrite app_nil_r, (filter_all (λ _, True)).
Qed.

(** A broadcast reaches every ready pipe the collection has, once. *)
Lemma broadcast_sends `{Env} pc (s : gset EndpointId) (Q : EndpointId → Prop)
    `{∀ id, Decision (Q id)} raw h :
  keyed pc →
  let out := (λ id, NetSend id raw) <$> reached pc (filter Q (drain_set h s)) in
  NoDup (sends out).*1 ∧
  ∀ id m, (id, m) ∈ sends out ↔ m = raw ∧ Q id ∧ id ∈ s ∧ is_Some (pc_pipes pc !! id).
Proof.
  intros Hk out. unfold out. rewrite sends_broadcast, reached_keyed by done. split.
  - rewrite <- list_fmap_compose, list_fmap_id.
    do 2 apply NoDup_filter. rewrite drain_set_perm. apply NoDup_elements.
  - intros id m. rewrite list_elem_of_fmap. setoid_rewrite list_elem_of_filter.
    setoid_rewrite list_elem_of_filter. setoid_rewrite elem_of_drain. setoid_rewrite elem_of_dom.
    naive_solver.
Qed.

(** ** Transitions

    Most protocols are a [State] and an [Inner], and their calls transitions of
    the pair that [apply] wraps with the readiness checks. *)

Section transitions.
Context {St In : Type} (ok : St → In → Prop) (pend : St → option (kind * Timeout)).
Implicit Types (m : P (St * In)) (s : St) (n : In).

Definition good (own : list Scheduled) (i : input) (p : option (kind * Timeout)) m : Prop :=
  ∀ h, ∃ s' n' o, m h = Done (s', n') o ∧ ok s' n' ∧ mute o ∧ contract own p i o (pend s').

Lemma good_bind {A} own i p (f : P A) (k : A → P (St * In)) a :
  (∀ h, f h = Done a []) → good own i p (k a) → good own i p (f ≫= k).
Proof.
  intros Hf Hk h. destruct (Hk (h ++ [])) as (s' & n' & o & Hrun & ?).
  exists s', n', o. rewrite bind_run, Hf, Hrun. done.
Qed.

Lemma good_keep own i s n o m :
  ok s n → request i = None → mute o → silent o →
  (∀ h, m h = Done (s, n) o) → good own i (pend s) m.
Proof. intros ? ? ? ? Hm h. exists s, n, o. rewrite Hm. auto using contract_quiet. Qed.

Lemma good_stay own i s n : ok s n → request i = None → good own i (pend s) (mret (s, n)).
Proof. intros. by apply (good_keep _ _ s n []). Qed.

Lemma good_reply own i p k t r s n m :
  (p = None ∧ request i = Some (k, t) ∨ p = Some (k, t) ∧ request i = None ∧ fires i = None) →
  answers k r → ok s n → pend s = None →
  (∀ h, m h = Done (s, n) (SendReply r :: cancel_trace t)) → good own i p m.
Proof.
  intros Hp Ha Hok Hs Hm h. exists s, n, (SendReply r :: cancel_trace t). rewrite Hm, Hs.
  split_and!; try done. { apply cancel_trace_mute. } by eapply contract_reply.
Qed.

Lemma good_expire own i k t msg s n m :
  fires i = Some k → ok s n → pend s = None →
  (∀ h, m h = Done (s, n) [SendReply (ReplyErr (timedout_io_error msg))]) →
  good own i (Some (k, t)) m.
Proof.
  intros Hf Hok Hs Hm h. eexists s, n, _. rewrite Hm, Hs. split_and!; try done.
  by apply contract_timeout.
Qed.

(** The call takes the request, or goes on with it. *)
Lemma good_take own i p k t s n o m :
  (p = None ∧ request i = Some (k, t) ∨ p = Some (k, t) ∧ request i = None) →
  ok s n → pend s = Some (k, t) → mute o → silent o →
  (∀ h, m h = Done (s, n) o) → good own i p m.
Proof.
  intros Hp Hok Hs ? ? Hm h. eexists s, n, o. rewrite Hm, Hs. split_and!; try done.
  destruct Hp as [[-> ?]|[-> ?]]; auto using contract_accept, contract_quiet.
Qed.

(** The same, for protocols with timers of their own. *)
Definition within (own : list Scheduled) (o : trace) : Prop :=
  mute o ∧ replies o = [] ∧ cancels o ⊆ own.

Lemma good_keep_own own i s s' n o m :
  ok s' n → pend s' = pend s → request i = None → within own o →
  (∀ h, m h = Done (s', n) o) → good own i (pend s) m.
Proof.
  intros Hok Hp Hr (Hm & Hrep & Hc) Hrun h. exists s', n, o. rewrite Hrun, Hp.
  split_and!; try done. destruct (pend s) as [[k t]|]; by constructor.
Qed.

Lemma good_take_own own i p k t s n o m :
  (p = None ∧ request i = Some (k, t) ∨ p = Some (k, t) ∧ request i = None) →
  ok s n → pend s = Some (k, t) → within own o →
  (∀ h, m h = Done (s, n) o) → good own i p m.
Proof.
  intros Hp Hok Hs (Hm & Hrep & Hc) Hrun h. eexists s, n, o. rewrite Hrun, Hs.
  split_and!; try done. destruct Hp as [[-> ?]|[-> ?]]; by constructor.
Qed.

(** The answer, its timer, and timers of the protocol's own. *)
Lemma good_reply_own own i p k t r own' s n m :
  (p = None ∧ request i = Some (k, t) ∨ p = Some (k, t) ∧ request i = None ∧ fires i = None) →
  answers k r → ok s n → pend s = None → option_list own' ⊆ own →
  (∀ h, m h = Done (s, n) (SendReply r :: cancel_trace t ++ cancel_trace own')) → good own i p m.
Proof.
  intros Hp Ha Hok Hs Hown Hm h. eexists s, n, _. rewrite Hm, Hs. split_and!; try done.
  { apply mute_app; apply cancel_trace_mute. }
  assert (HC : ∀ t, cancels (cancel_trace t) = option_list t) by (by intros []).
  assert (HR : replies (SendReply r :: cancel_trace t ++ cancel_trace own') = [r]).
  { simpl. by rewrite replies_app, !cancel_trace_replies. }
  assert (HCs : cancels (SendReply r :: cancel_trace t ++ cancel_trace own') =
    option_list t ++ option_list own') by (simpl; by rewrite cancels_app, !HC).
  destruct Hp as [[-> Hr]|(-> & Hr & Hf)].
  - eapply contract_refused; [done..| |]; rewrite HCs; set_solver.
  - eapply contract_answered; [done..| |]; rewrite HCs; set_solver.
Qed.

Lemma good_expire_own own i k t msg own' s n m :
  fires i = Some k → ok s n → pend s = None → option_list own' ⊆ own →
  (∀ h, m h = Done (s, n) (SendReply (ReplyErr (timedout_io_error msg)) :: cancel_trace own')) →
  good own i (Some (k, t)) m.
Proof.
  intros Hf Hok Hs Hown Hm h. eexists s, n, _. rewrite Hm, Hs. split_and!; try done.
  { apply cancel_trace_mute. }
  eapply contract_expired; [done|simpl; by rewrite cancel_trace_replies|done|].
  simpl. by destruct own'.
Qed.

(** More own timers may be cancelled when more are owned. *)
Lemma good_own own own' i p m : own ⊆ own' → good own i p m → good own' i p m.
Proof.
  intros Hsub Hg h. destruct (Hg h) as (s & n & o & Hrun & Hok & Hm & Hc).
  exists s, n, o. split_and!; try done. destruct Hc; econstructor; try done; set_solver.
Qed.

End transitions.

(** Some protocols check for readiness changes around a removal only after the
    transition it triggers has announced its own: nothing is lost, since neither
    the removal nor the transition makes a socket ready. *)
Lemma late_send_view b0 b1 b2 o r :
  send_view b1 o = b2 → (b0 = false → b1 = false) → (b1 = false → b2 = false) →
  (∀ b, send_view b r = b) → send_view b0 (o ++ send_change b0 b1 ++ r) = b2.
Proof.
  intros Hv H01 H12 Hr. rewrite !send_view_app, Hr.
  destruct b0, b1; unfold send_change; simpl; [done|by rewrite H12|by specialize (H01 eq_refl)|done].
Qed.

Lemma late_recv_view b0 b1 b2 o c :
  recv_view b1 o = b2 → (b0 = false → b1 = false) → (b1 = false → b2 = false) →
  (∀ b, recv_view b c = b) → recv_view b0 (o ++ c ++ recv_change b0 b1) = b2.
Proof.
  intros Hv H01 H12 Hc. rewrite !recv_view_app, Hc.
  destruct b0, b1; unfold recv_change; simpl; [done|by rewrite H12|by specialize (H01 eq_refl)|done].
Qed.

(** ** Automation for the instances *)

(** Run a handler forward: every bind is unfolded, and what is known of the
    parts is rewritten. *)
Ltac mrun1 :=
  first
    [ rewrite bind_run | rewrite ret_run | rewrite lift_some | rewrite emit_run
    | rewrite check_send_run | rewrite check_recv_run | rewrite cancel_opt_run ].
(** Read a trace made of parts. *)
Ltac views :=
  repeat match goal with
    | |- context [send_view _ (_ ++ _)] => rewrite send_view_app
    | |- context [recv_view _ (_ ++ _)] => rewrite recv_view_app
    | Hm : mute ?o |- context [send_view ?b ?o] => rewrite (mute_send_view b o Hm)
    | Hm : mute ?o |- context [recv_view ?b ?o] => rewrite (mute_recv_view b o Hm)
    | |- context [send_view _ (send_change _ _)] => rewrite send_change_view
    | |- context [recv_view _ (recv_change _ _)] => rewrite recv_change_view
    | |- context [recv_view _ (send_change _ _)] => rewrite send_change_recv_view
    | |- context [send_view _ (recv_change _ _)] => rewrite recv_change_send_view
    end; try reflexivity.
Ltac mrun := repeat (mrun1; cbn [app fst snd]).
