(* ===== verification/Codec.v ===== *)
(** * Big-endian integers (the byteorder crate)

    The sources encode ids and lengths with [byteorder::BigEndian], a third-party
    crate: [ByteOrder] is a parameter of the model.  Its laws are the documented
    meaning of the functions: a [w]-byte big-endian number is the sum of its
    bytes, most significant first; reading looks at the first bytes of the slice.
    [be_ref] is a concrete instance. *)

From S2P Require Import Prelude Core.

(** A byte, and the bytes of a vector. *)
Definition byte_ok (b : Z) : Prop := 0 <= b < 256.

Class ByteOrder : Type := {
  be_write_u16 : Z → bytes;
  be_write_u32 : Z → bytes;
  be_write_u64 : Z → bytes;
  be_read_u16 : bytes → Z;
  be_read_u32 : bytes → Z;
  be_read_u64 : bytes → Z;
  be_write_u16_law : ∀ n, in_range 16 n → be_write_u16 n = [n / 256; n mod 256];
  be_write_u32_law : ∀ n, in_range 32 n →
    be_write_u32 n = [n / 16777216; n / 65536 mod 256; n / 256 mod 256; n mod 256];
  be_write_u64_law : ∀ n, in_range 64 n →
    be_write_u64 n = be_write_u32 (n / 4294967296) ++ be_write_u32 (n mod 4294967296);
  be_read_u16_law : ∀ a b r, Forall byte_ok [a; b] → be_read_u16 (a :: b :: r) = a * 256 + b;
  be_read_u32_law : ∀ a b c d r, Forall byte_ok [a; b; c; d] →
    be_read_u32 (a :: b :: c :: d :: r) = a * 16777216 + b * 65536 + c * 256 + d;
  be_read_u64_law : ∀ hi lo r, Forall byte_ok (hi ++ lo) → length hi = 4%nat → length lo = 4%nat →
    be_read_u64 (hi ++ lo ++ r) = be_read_u32 hi * 4294967296 + be_read_u32 lo
}.

Section facts.
Context `{ByteOrder}.

Lemma write_u32_length n : in_range 32 n → length (be_write_u32 n) = 4%nat.
Proof. intros Hn. by rewrite be_write_u32_law. Qed.

Lemma write_u32_bytes n : in_range 32 n → Forall byte_ok (be_write_u32 n).
Proof.
  intros Hn. rewrite be_write_u32_law by done. unfold in_range, byte_ok in *.
  repeat constructor; try (apply Z.mod_pos_bound; lia).
  - apply Z.div_pos; lia.
  - apply Z.div_lt_upper_bound; lia.
Qed.

Lemma read_write_u32 n r : in_range 32 n → be_read_u32 (be_write_u32 n ++ r) = n.
Proof.
  intros Hn. pose proof (write_u32_bytes n Hn) as Hb. rewrite be_write_u32_law in * by done.
  cbn [app]. rewrite be_read_u32_law by done.
  rewrite (Z.div_mod n 256) at 5 by lia.
  rewrite (Z.div_mod (n / 256) 256) at 2 by lia. rewrite Z.div_div by lia.
  rewrite (Z.div_mod (n / (256 * 256)) 256) at 1 by lia. rewrite Z.div_div by lia.
  change (256 * 256 * 256) with 16777216. change (256 * 256) with 65536. lia.
Qed.

Lemma read_u32_range a b c d r :
  Forall byte_ok [a; b; c; d] → in_range 32 (be_read_u32 (a :: b :: c :: d :: r)).
Proof.
  intros Hb. rewrite be_read_u32_law by done.
  rewrite !Forall_cons in Hb. unfold byte_ok, in_range in *. lia.
Qed.

Lemma write_read_u32 a b c d r :
  Forall byte_ok [a; b; c; d] → be_write_u32 (be_read_u32 (a :: b :: c :: d :: r)) = [a; b; c; d].
Proof.
  intros Hb. rewrite be_write_u32_law by (by apply read_u32_range).
  rewrite be_read_u32_law by done. rewrite !Forall_cons in Hb. unfold byte_ok in Hb.
  set (n := a * 16777216 + b * 65536 + c * 256 + d).
  assert (H1 : n / 16777216 = a) by (symmetry; apply (Z.div_unique_pos _ _ _ (b * 65536 + c * 256 + d)); lia).
  assert (H2 : n / 65536 = a * 256 + b) by (symmetry; apply (Z.div_unique_pos _ _ _ (c * 256 + d)); lia).
  assert (H3 : n / 256 = a * 65536 + b * 256 + c) by (symmetry; apply (Z.div_unique_pos _ _ _ d); lia).
  rewrite H1, H2, H3. f_equal. f_equal; [|f_equal; [|f_equal]].
  - symmetry. apply (Z.mod_unique_pos _ _ a); lia.
  - symmetry. apply (Z.mod_unique_pos _ _ (a * 256 + b)); lia.
  - symmetry. apply (Z.mod_unique_pos _ _ (a * 65536 + b * 256 + c)); unfold n; lia.
Qed.

Lemma write_u16_length n : in_range 16 n → length (be_write_u16 n) = 2%nat.
Proof. intros Hn. by rewrite be_write_u16_law. Qed.

Lemma read_write_u16 n r : in_range 16 n → be_read_u16 (be_write_u16 n ++ r) = n.
Proof.
  intros Hn. rewrite be_write_u16_law by done. cbn [app]. unfold in_range in *.
  rewrite be_read_u16_law.
  - pose proof (Z.div_mod n 256). lia.
  - unfold byte_ok. repeat constructor; try (apply Z.mod_pos_bound; lia).
    + apply Z.div_pos; lia.
    + apply Z.div_lt_upper_bound; lia.
Qed.

Lemma u64_halves n : in_range 64 n → in_range 32 (n / 4294967296) ∧ in_range 32 (n mod 4294967296).
Proof.
  unfold in_range. intros Hn. split.
  - split; [apply Z.div_pos; lia|apply Z.div_lt_upper_bound; lia].
  - apply Z.mod_pos_bound. lia.
Qed.

Lemma write_u64_length n : in_range 64 n → length (be_write_u64 n) = 8%nat.
Proof.
  intros Hn. destruct (u64_halves n Hn). rewrite be_write_u64_law by done.
  by rewrite length_app, !write_u32_length.
Qed.

Lemma read_write_u64 n r : in_range 64 n → be_read_u64 (be_write_u64 n ++ r) = n.
Proof.
  intros Hn. destruct (u64_halves n Hn). rewrite be_write_u64_law by done. rewrite <- app_assoc.
  rewrite be_read_u64_law; auto using write_u32_length.
  - rewrite <- (app_nil_r (be_write_u32 (n / _))), <- (app_nil_r (be_write_u32 (n mod _))).
    rewrite !read_write_u32 by done. pose proof (Z.div_mod n 4294967296). lia.
  - apply Forall_app. auto using write_u32_bytes.
Qed.

End facts.

(** ** A concrete instance *)

Definition ref_write_u32 (n : Z) : bytes :=
  [n / 16777216; n / 65536 mod 256; n / 256 mod 256; n mod 256].
Definition ref_read_u32 (bs : bytes) : Z :=
  match bs with a :: b :: c :: d :: _ => a * 16777216 + b * 65536 + c * 256 + d | _ => 0 end.

#[program] Definition be_ref : ByteOrder := {|
  be_write_u16 n := [n / 256; n mod 256];
  be_write_u32 := ref_write_u32;
  be_write_u64 n := ref_write_u32 (n / 4294967296) ++ ref_write_u32 (n mod 4294967296);
  be_read_u16 bs := match bs with a :: b :: _ => a * 256 + b | _ => 0 end;
  be_read_u32 := ref_read_u32;
  be_read_u64 bs := ref_read_u32 (take 4 bs) * 4294967296 + ref_read_u32 (take 4 (drop 4 bs))
|}.
Solve Obligations with try done.
Next Obligation.
  intros hi lo r _ Hhi Hlo. cbv beta. rewrite take_app_length', drop_app_length', take_app_length' by done.
  done.
Qed.
