(* ===== verification/Push.v ===== *)
(** * PUSH (src/proto/push.rs)

    Load-balanced sending.  A message taken while no pipe is ready is held until
    one is; a message whose pipe goes away before the acknowledgement is sent
    again to another pipe. *)

From S2P Require Import Prelude Core Context Priolist Pipes Protocol.

(** ** State *)

Inductive State : Type :=
| Idle
| Sending (eid : EndpointId) (msg : Message) (timeout : Timeout)
| SendOnHold (msg : Message) (timeout : Timeout).

Record Inner : Type := mkInner { pipes : PipeCollection; lb : Priolist }.

Record Push : Type := mkPush { inner : Inner; state : option State }.

Section push.
Context `{Build}.

(** ** Inner *)

Definition Inner_add_pipe (eid : EndpointId) (pipe : Pipe) (self : Inner) : Inner :=
  mkInner (PipeCollection_insert eid pipe (pipes self)).2
          (insert eid (Pipe_get_send_priority pipe) (lb self)).

Definition Inner_remove_pipe (eid : EndpointId) (self : Inner) : P (option Pipe * Inner) :=
  lb ← lift (remove eid (lb self));
  let '(pipe, pipes) := PipeCollection_remove eid (pipes self) in
  mret (pipe, mkInner pipes lb).

Definition Inner_send (msg : Message) (self : Inner) : P (option EndpointId * Inner) :=
  '(sent, lb) ← load_balancing_send (lb self) (pipes self) msg;
  mret (sent, mkInner (pipes self) lb).

Definition Inner_on_send_ready (eid : EndpointId) (self : Inner) : P Inner :=
  lb ← lift (activate eid (lb self)); mret (mkInner (pipes self) lb).

Definition Inner_on_send_not_ready (eid : EndpointId) (self : Inner) : P Inner :=
  lb ← lift (deactivate eid (lb self)); mret (mkInner (pipes self) lb).

Definition Inner_on_send_ack (timeout : Timeout) (self : Inner) : P () :=
  send_reply ReplySend;; cancel_opt timeout.

Definition Inner_on_send_timeout (self : Inner) : P () :=
  send_reply (ReplyErr (timedout_io_error "Send timed out")).

Definition Inner_is_send_ready (self : Inner) : bool := peek (lb self).

Definition Inner_recv (timeout : Timeout) (self : Inner) : P () :=
  send_reply (ReplyErr (other_io_error "Recv is not supported by push protocol"));;
  cancel_opt timeout.

(** ** State transitions *)

Definition State_send (self : State) (inner : Inner) (msg : Message) (timeout : Timeout)
    : P (State * Inner) :=
  '(sent, inner) ← Inner_send msg inner;
  match sent with
  | Some eid => mret (Sending eid msg timeout, inner)
  | None => mret (SendOnHold msg timeout, inner)
  end.

Definition State_on_pipe_removed (self : State) (inner : Inner) (eid : EndpointId)
    : P (State * Inner) :=
  match self with
  | Sending id msg timeout =>
      if bool_decide (id = eid) then State_send Idle inner msg timeout
      else mret (Sending id msg timeout, inner)
  | any => mret (any, inner)
  end.

Definition State_on_send_ack (self : State) (inner : Inner) (eid : EndpointId)
    : P (State * Inner) :=
  match self with
  | Sending id msg timeout =>
      if bool_decide (id = eid) then Inner_on_send_ack timeout inner;; mret (Idle, inner)
      else mret (Sending id msg timeout, inner)
  | any => mret (any, inner)
  end.

Definition State_on_send_timeout (self : State) (inner : Inner) : P (State * Inner) :=
  Inner_on_send_timeout inner;; mret (Idle, inner).

Definition State_on_send_ready (self : State) (inner : Inner) (eid : EndpointId)
    : P (State * Inner) :=
  inner ← Inner_on_send_ready eid inner;
  match self with
  | SendOnHold msg timeout => State_send Idle inner msg timeout
  | any => mret (any, inner)
  end.

Definition State_on_send_not_ready (self : State) (inner : Inner) (eid : EndpointId)
    : P (State * Inner) :=
  inner ← Inner_on_send_not_ready eid inner; mret (self, inner).

Definition State_recv (self : State) (inner : Inner) (timeout : Timeout) : P (State * Inner) :=
  Inner_recv timeout inner;; mret (self, inner).

(** [on_recv_ack], [on_recv_timeout], [on_recv_ready], [on_recv_not_ready]. *)
Definition State_on_recv_ack (self : State) (inner : Inner) : P (State * Inner) :=
  mret (self, inner).

(** ** The protocol *)

Definition Push_is_send_ready (self : Push) : bool := Inner_is_send_ready (inner self).

Definition apply (transition : State → Inner → P (State * Inner)) (self : Push) : P Push :=
  match state self with
  | Some old_state =>
      let was_send_ready := Push_is_send_ready self in
      '(new_state, inner) ← transition old_state (inner self);
      let self := mkPush inner (Some new_state) in
      check_send_ready_change was_send_ready (Push_is_send_ready self);;
      mret self
  | None => mret self
  end.

Definition Push_from : Push := mkPush (mkInner PipeCollection_new new) (Some Idle).

Definition Push_add_pipe (eid : EndpointId) (pipe : Pipe) (self : Push) : P Push :=
  mret (mkPush (Inner_add_pipe eid pipe (inner self)) (state self)).

Definition Push_remove_pipe (eid : EndpointId) (self : Push) : P (option Pipe * Push) :=
  let was_send_ready := Push_is_send_ready self in
  '(pipe, inner) ← Inner_remove_pipe eid (inner self);
  let self := mkPush inner (state self) in
  check_send_ready_change was_send_ready (Push_is_send_ready self);;
  match pipe with
  | Some p =>
      self ← apply (λ s inner, State_on_pipe_removed s inner eid) self;
      mret (Some p, self)
  | None => mret (None, self)
  end.

Definition Push_close `{Env} (self : Push) : P Push :=
  pipes ← close_all (pipes (inner self));
  mret (mkPush (mkInner pipes (lb (inner self))) (state self)).

#[export] Instance Push_protocol `{Env} : Protocol Push := {|
  proto_id _ := PUSH;
  peer_id _ := PULL;
  add_pipe := Push_add_pipe;
  remove_pipe := Push_remove_pipe;
  send msg timeout := apply (λ s inner, State_send s inner msg timeout);
  on_send_ack eid := apply (λ s inner, State_on_send_ack s inner eid);
  on_send_timeout := apply State_on_send_timeout;
  on_send_ready eid := apply (λ s inner, State_on_send_ready s inner eid);
  on_send_not_ready eid := apply (λ s inner, State_on_send_not_ready s inner eid);
  recv timeout := apply (λ s inner, State_recv s inner timeout);
  on_recv_ack _ _ := apply State_on_recv_ack;
  on_recv_timeout := apply State_on_recv_ack;
  on_recv_ready _ := apply State_on_recv_ack;
  on_recv_not_ready _ := apply State_on_recv_ack;
  is_send_ready := Push_is_send_ready;
  is_recv_ready _ := false;
  set_option := default_set_option;
  on_timer_tick := default_on_timer_tick;
  on_device_plugged := default_on_device_plugged;
  close := Push_close
|}.

End push.

(** ** The contract

    The send priority list mirrors the pipes; a message being sent is on a pipe
    the collection has; a message is on hold only while no pipe is ready. *)

Section contract.
Context `{Env}.

Definition state_ok (s : State) (self : Inner) : Prop :=
  routed (lb self) (pipes self) ∧
  match s with
  | Idle => True
  | Sending eid _ _ => is_Some (pc_pipes (pipes self) !! eid)
  | SendOnHold _ _ => peek (lb self) = false
  end.

Definition Push_inv (self : Push) : Prop :=
  ∃ s, state self = Some s ∧ state_ok s (inner self).

Definition Push_guard (i : input) (self : Push) : bool :=
  match i with
  | IAddPipe eid pipe =>
      bool_decide (addable eid pipe (Pipe_get_send_priority pipe) (pipes (inner self)))
  | IRemovePipe eid => remove_safe eid (lb (inner self))
  | _ => true
  end.

Definition State_pending (s : State) : option (kind * Timeout) :=
  match s with
  | Idle => None
  | Sending _ _ t | SendOnHold _ t => Some (KSend, t)
  end.

Definition Push_pending (self : Push) : option (kind * Timeout) := state self ≫= State_pending.

Abbreviation transition := (good state_ok State_pending []).

Lemma push_apply_ok i t s n h :
  transition i (State_pending s) (t s n) →
  ∃ self' o, apply t (mkPush n (Some s)) h = Done self' o ∧ Push_inv self' ∧
    announced (mkPush n (Some s)) o self' ∧
    contract [] (State_pending s) i o (Push_pending self').
Proof.
  intros Hg. destruct (Hg h) as (s' & n' & o & Hrun & Hs & Hm & Hc).
  eexists (mkPush n' (Some s')), (o ++ _). unfold apply. cbn [state inner].
  rewrite bind_run, Hrun. mrun. rewrite app_nil_r. split; [done|]. split; [by exists s'|].
  split; [|by apply contract_after].
  split; cbn [is_send_ready is_recv_ready Push_protocol]; views.
Qed.

Lemma push_send_good i p s n msg t :
  routed (lb n) (pipes n) →
  (p = None ∧ request i = Some (KSend, t) ∨ p = Some (KSend, t) ∧ request i = None) →
  transition i p (State_send s n msg t).
Proof.
  intros Hr Hp. unfold State_send, Inner_send.
  destruct (load_balancing_run (lb n) (pipes n) msg Hr)
    as [[Hpk Hrun]|(eid & lb' & _ & Hrun & Hr' & _ & Hin)].
  - eapply (good_take _ _ _ _ _ KSend t (SendOnHold msg t) n []);
      [done|by split|done..|].
    intros h. mrun. rewrite Hrun. by destruct n.
  - eapply (good_take _ _ _ _ _ KSend t (Sending eid msg t) (mkInner (pipes n) lb')
      [NetSend eid msg]); [done|by split|done..|].
    intros h; mrun; by rewrite Hrun.
Qed.

Lemma push_removed_good i s n eid :
  routed (lb n) (pipes n) → request i = None →
  (∀ id msg t, s = Sending id msg t → id ≠ eid → is_Some (pc_pipes (pipes n) !! id)) →
  (∀ msg t, s = SendOnHold msg t → peek (lb n) = false) →
  transition i (State_pending s) (State_on_pipe_removed s n eid).
Proof.
  intros Hr Hi Hsd Hh. destruct s as [|id msg t|msg t]; cbn [State_on_pipe_removed].
  - by apply good_stay.
  - case_bool_decide; [apply push_send_good; auto|]. apply good_stay; [|done]. split; eauto.
  - apply good_stay; [|done]. split; [done|]. by eapply Hh.
Qed.

Lemma push_remove_ok eid n s h :
  state_ok s n → remove_safe eid (lb n) = true →
  ∃ self' o, Push_remove_pipe eid (mkPush n (Some s)) h = Done (pc_pipes (pipes n) !! eid, self') o ∧
    Push_inv self' ∧ announced (mkPush n (Some s)) o self' ∧
    contract [] (State_pending s) (IRemovePipe eid) o (Push_pending self').
Proof.
  intros [Hr Hs] Hg. destruct (routed_remove _ _ eid Hr Hg) as (lb' & Hrm & Hr' & Hpk).
  set (n' := mkInner (PipeCollection_remove eid (pipes n)).2 lb').
  assert (Hn : ∀ h, Inner_remove_pipe eid n h = Done (pc_pipes (pipes n) !! eid, n') []).
  { intros. unfold Inner_remove_pipe. rewrite Hrm. mrun. done. }
  unfold Push_remove_pipe. cbn [inner state]. rewrite bind_run, Hn. mrun.
  destruct (pc_pipes (pipes n) !! eid) as [p|] eqn:Hl.
  - edestruct (push_apply_ok (IRemovePipe eid) (λ s inner, State_on_pipe_removed s inner eid) s n')
      as (self' & o & Hrun & Hi & [Ha1 Ha2] & Hc).
    { apply push_removed_good; [done..| |].
      - intros id msg t -> Hne. simpl. rewrite lookup_delete_ne by done. apply Hs.
      - intros msg t ->. by apply Hpk. }
    eexists _, _. rewrite bind_run, Hrun. mrun. rewrite app_nil_r. split; [done|]. split; [done|].
    split; [|by apply contract_before].
    split; cbn [is_send_ready is_recv_ready Push_protocol] in *; views; done.
  - eexists (mkPush n' (Some s)), _. split; [done|]. split; [|split; [|apply contract_quiet; auto]].
    + exists s. split; [done|]. split; [done|]. destruct s as [|id msg t|]; [done| |by apply Hpk].
      simpl in *. rewrite lookup_delete_ne; [done|]. intros ->. rewrite Hl in Hs. by destruct Hs.
    + split; cbn [is_send_ready is_recv_ready Push_protocol]; views.
Qed.

Lemma push_add_ok eid pipe n s :
  state_ok s n → addable eid pipe (Pipe_get_send_priority pipe) (pipes n) →
  Push_inv (mkPush (Inner_add_pipe eid pipe n) (Some s)).
Proof.
  intros [Hr Hs] Ha. exists s. split; [done|]. split; [by apply routed_insert|].
  destruct s as [|id msg t|]; [done| |done]. simpl in *.
  destruct (decide (eid = id)) as [->|Hne]; [by rewrite lookup_insert_eq|by rewrite lookup_insert_ne].
Qed.

Lemma push_ack_good eid n s :
  state_ok s n → transition (ISendAck eid) (State_pending s) (State_on_send_ack s n eid).
Proof.
  intros Hs. destruct s as [|id msg t|msg t]; cbn [State_on_send_ack]; [by apply good_stay| |by apply good_stay].
  case_bool_decide; [|by apply good_stay].
  eapply (good_reply _ _ _ _ _ KSend t ReplySend Idle n); [auto|done|by destruct Hs|done|].
  intros h. unfold Inner_on_send_ack, send_reply. mrun. by rewrite app_nil_r.
Qed.

Lemma push_timeout_good n s t :
  state_ok s n → State_pending s = Some (KSend, t) →
  transition ISendTimeout (State_pending s) (State_on_send_timeout s n).
Proof.
  intros [Hr _] ->. eapply (good_expire _ _ _ _ _ _ _ Idle n); done.
Qed.

Lemma push_ready_good eid n s :
  state_ok s n → transition (ISendReady eid) (State_pending s) (State_on_send_ready s n eid).
Proof.
  intros [Hr Hs]. unfold State_on_send_ready, Inner_on_send_ready.
  destruct (routed_activate _ _ eid Hr) as (lb' & -> & Hr').
  eapply good_bind; [done|]. destruct s as [|id msg t|msg t].
  - by apply good_stay.
  - by apply good_stay.
  - apply push_send_good; auto.
Qed.

Lemma push_not_ready_good eid n s :
  state_ok s n →
  transition (ISendNotReady eid) (State_pending s) (State_on_send_not_ready s n eid).
Proof.
  intros [Hr Hs]. unfold State_on_send_not_ready, Inner_on_send_not_ready.
  destruct (routed_deactivate _ _ eid Hr) as (lb' & -> & Hr' & Hpk).
  eapply good_bind; [done|]. apply good_stay; [|done]. split; [done|]. destruct s; [done..|]. by apply Hpk.
Qed.

Lemma push_recv_good n t :
  state_ok Idle n → transition (IRecv t) (State_pending Idle) (State_recv Idle n t).
Proof.
  intros Hs. eapply (good_reply _ _ _ _ _ KRecv t (ReplyErr _) Idle n); [auto|done..|].
  intros h. unfold State_recv, Inner_recv, send_reply. mrun. by rewrite app_nil_r.
Qed.

Lemma Push_step_ok i self h :
  Push_inv self → Push_guard i self = true → allowed i (Push_pending self) = true →
  ∃ self' out, step i self h = Done self' out ∧ Push_inv self' ∧ announced self out self' ∧
    contract [] (Push_pending self) i out (Push_pending self').
Proof.
  destruct self as [n os]. intros (s & Hos & Hs) Hg Ha. cbn [inner state] in *. subst os.
  change (Push_pending (mkPush n (Some s))) with (State_pending s) in *.
  assert (Hkeep : ∀ i, request i = None → transition i (State_pending s) (mret (s, n)))
    by (intros; by apply good_stay).
  destruct i as [eid pipe|eid|msg t|eid| |eid|eid|t|eid msg| |eid|eid|opt|task|]; simpl step;
    try (apply push_apply_ok; by apply Hkeep).
  - eexists _, []. split; [done|]. split; [|split; [done|by apply contract_quiet]].
    apply push_add_ok; [done..|]. by apply bool_decide_eq_true in Hg.
  - destruct (push_remove_ok eid n s h) as (self' & o & Hrun & Hi & Hc); [done..|].
    eexists _, _. rewrite bind_run, Hrun. mrun. split; [done|]. by rewrite app_nil_r.
  - destruct s; try done. apply push_apply_ok, push_send_good; [apply Hs|auto].
  - by apply push_apply_ok, push_ack_good.
  - destruct s; try done; by eapply push_apply_ok, push_timeout_good.
  - by apply push_apply_ok, push_ready_good.
  - by apply push_apply_ok, push_not_ready_good.
  - destruct s; try done. by apply push_apply_ok, push_recv_good.
  - eexists _, []. split; [done|]. split; [by exists s|split; [done|by apply contract_quiet]].
  - eexists _, []. split; [done|]. split; [by exists s|split; [done|by apply contract_quiet]].
  - eexists _, []. split; [done|]. split; [by exists s|split; [done|by apply contract_quiet]].
Qed.

#[export] Instance Push_contract : Contract Push := {|
  inv := Push_inv;
  guard := Push_guard;
  pending := Push_pending;
  own_timers _ := [];
  step_ok := Push_step_ok
|}.

Lemma Push_from_inv : Push_inv Push_from.
Proof. exists Idle. split; [done|]. split; [apply routed_new|done]. Qed.

(** Whatever a disciplined facade and any network do with a fresh PUSH
    socket, no call panics, each request gets one reply of its kind in order
    (only the last one may still be pending), the readiness last announced is the
    actual one, and at every point a pending message is on a pipe the socket has,
    or on hold with no pipe ready to take it. *)
Theorem push_conversation ins :
  disciplined ins Push_from [] = true → conversation Push_from ins.
Proof. apply conversation_ok; [apply Push_from_inv|done]. Qed.

End contract.

(** ** A concrete run: held, sent, resent after a removal, acknowledged *)

Section witness.
#[local] Existing Instance ref_env.

Definition ex_pipe (n : Z) : Pipe :=
  Pipe_new_accepted (EndpointId_from n) (mkEndpointDesc 8 8 false 1024).
Definition ex_run : list input :=
  [IAddPipe (EndpointId_from 1) (ex_pipe 1); IAddPipe (EndpointId_from 2) (ex_pipe 2);
   ISend (from_body [42]) (Some (Scheduled_from 7)); ISendReady (EndpointId_from 2);
   ISendReady (EndpointId_from 1); IRemovePipe (EndpointId_from 2);
   ISendAck (EndpointId_from 2); ISendAck (EndpointId_from 1); IRecv None].

Example push_ex_run_trace :
  emitted (drive ex_run Push_from []) =
  [NetSend (EndpointId_from 2) (from_body [42]); Raise (CanSend true);
   NetSend (EndpointId_from 1) (from_body [42]); Raise (CanSend false);
   SendReply ReplySend; SchCancel (Scheduled_from 7);
   SendReply (ReplyErr (other_io_error "Recv is not supported by push protocol"))].
Proof. vm_compute. reflexivity. Qed.

Lemma push_conversation_witness : conversation Push_from ex_run.
Proof. apply (push_conversation ex_run). vm_compute. reflexivity. Defined.
End witness.
