(* ===== verification/Pull.v ===== *)
(** * PULL (src/proto/pull.rs)

    Fair-queued receiving.  A recv made while no pipe is ready waits for one; a
    recv whose pipe goes away is asked of another pipe. *)

From S2P Require Import Prelude Core Context Priolist Pipes Protocol.

(** ** State *)

Inductive State : Type :=
| Idle
| Receiving (eid : EndpointId) (timeout : Timeout)
| RecvOnHold (timeout : Timeout).

Record Inner : Type := mkInner { pipes : PipeCollection; fq : Priolist }.

Record Pull : Type := mkPull { inner : Inner; state : option State }.

Section pull.
Context `{Build}.

(** ** Inner *)

Definition Inner_add_pipe (eid : EndpointId) (pipe : Pipe) (self : Inner) : Inner :=
  mkInner (PipeCollection_insert eid pipe (pipes self)).2
          (insert eid (Pipe_get_recv_priority pipe) (fq self)).

Definition Inner_remove_pipe (eid : EndpointId) (self : Inner) : P (option Pipe * Inner) :=
  fq ← lift (remove eid (fq self));
  let '(pipe, pipes) := PipeCollection_remove eid (pipes self) in
  mret (pipe, mkInner pipes fq).

Definition Inner_send (timeout : Timeout) (self : Inner) : P () :=
  send_reply (ReplyErr (other_io_error "Send is not supported by pull protocol"));;
  cancel_opt timeout.

Definition Inner_recv (self : Inner) : P (option EndpointId * Inner) :=
  '(asked, fq) ← fair_queue_recv (fq self) (pipes self);
  mret (asked, mkInner (pipes self) fq).

Definition Inner_on_recv_ready (eid : EndpointId) (self : Inner) : P Inner :=
  fq ← lift (activate eid (fq self)); mret (mkInner (pipes self) fq).

Definition Inner_on_recv_not_ready (eid : EndpointId) (self : Inner) : P Inner :=
  fq ← lift (deactivate eid (fq self)); mret (mkInner (pipes self) fq).

Definition Inner_on_recv_ack (timeout : Timeout) (msg : Message) (self : Inner) : P () :=
  send_reply (ReplyRecv msg);; cancel_opt timeout.

Definition Inner_on_recv_timeout (self : Inner) : P () :=
  send_reply (ReplyErr (timedout_io_error "Recv timed out")).

Definition Inner_is_recv_ready (self : Inner) : bool := peek (fq self).

(** ** State transitions *)

Definition State_recv (self : State) (inner : Inner) (timeout : Timeout) : P (State * Inner) :=
  '(asked, inner) ← Inner_recv inner;
  match asked with
  | None => mret (RecvOnHold timeout, inner)
  | Some eid => mret (Receiving eid timeout, inner)
  end.

Definition State_on_pipe_removed (self : State) (inner : Inner) (eid : EndpointId)
    : P (State * Inner) :=
  match self with
  | Receiving id timeout =>
      if bool_decide (id = eid) then State_recv Idle inner timeout
      else mret (Receiving id timeout, inner)
  | any => mret (any, inner)
  end.

Definition State_send (self : State) (inner : Inner) (timeout : Timeout) : P (State * Inner) :=
  Inner_send timeout inner;; mret (self, inner).

(** [on_send_ack], [on_send_timeout], [on_send_ready], [on_send_not_ready]. *)
Definition State_on_send_ack (self : State) (inner : Inner) : P (State * Inner) :=
  mret (self, inner).

Definition State_on_recv_ack (self : State) (inner : Inner) (eid : EndpointId) (msg : Message)
    : P (State * Inner) :=
  match self with
  | Receiving id timeout =>
      if bool_decide (id = eid)
      then Inner_on_recv_ack timeout msg inner;; mret (Idle, inner)
      else mret (Receiving id timeout, inner)
  | any => mret (any, inner)
  end.

Definition State_on_recv_timeout (self : State) (inner : Inner) : P (State * Inner) :=
  Inner_on_recv_timeout inner;; mret (Idle, inner).

Definition State_on_recv_ready (self : State) (inner : Inner) (eid : EndpointId)
    : P (State * Inner) :=
  inner ← Inner_on_recv_ready eid inner;
  match self with
  | RecvOnHold timeout => State_recv Idle inner timeout
  | any => mret (any, inner)
  end.

Definition State_on_recv_not_ready (self : State) (inner : Inner) (eid : EndpointId)
    : P (State * Inner) :=
  inner ← Inner_on_recv_not_ready eid inner; mret (self, inner).

(** ** The protocol *)

Definition Pull_is_recv_ready (self : Pull) : bool := Inner_is_recv_ready (inner self).

Definition apply (transition : State → Inner → P (State * Inner)) (self : Pull) : P Pull :=
  match state self with
  | Some old_state =>
      let was_recv_ready := Pull_is_recv_ready self in
      '(new_state, inner) ← transition old_state (inner self);
      let self := mkPull inner (Some new_state) in
      check_recv_ready_change was_recv_ready (Pull_is_recv_ready self);;
      mret self
  | None => mret self
  end.

Definition Pull_from : Pull := mkPull (mkInner PipeCollection_new new) (Some Idle).

Definition Pull_add_pipe (eid : EndpointId) (pipe : Pipe) (self : Pull) : P Pull :=
  mret (mkPull (Inner_add_pipe eid pipe (inner self)) (state self)).

Definition Pull_remove_pipe (eid : EndpointId) (self : Pull) : P (option Pipe * Pull) :=
  let was_recv_ready := Pull_is_recv_ready self in
  '(pipe, inner) ← Inner_remove_pipe eid (inner self);
  let self := mkPull inner (state self) in
  check_recv_ready_change was_recv_ready (Pull_is_recv_ready self);;
  match pipe with
  | Some p =>
      self ← apply (λ s inner, State_on_pipe_removed s inner eid) self;
      mret (Some p, self)
  | None => mret (None, self)
  end.

Definition Pull_close `{Env} (self : Pull) : P Pull :=
  pipes ← close_all (pipes (inner self));
  mret (mkPull (mkInner pipes (fq (inner self))) (state self)).

#[export] Instance Pull_protocol `{Env} : Protocol Pull := {|
  proto_id _ := PULL;
  peer_id _ := PUSH;
  add_pipe := Pull_add_pipe;
  remove_pipe := Pull_remove_pipe;
  send _ timeout := apply (λ s inner, State_send s inner timeout);
  on_send_ack _ := apply State_on_send_ack;
  on_send_timeout := apply State_on_send_ack;
  on_send_ready _ := apply State_on_send_ack;
  on_send_not_ready _ := apply State_on_send_ack;
  recv timeout := apply (λ s inner, State_recv s inner timeout);
  on_recv_ack eid msg := apply (λ s inner, State_on_recv_ack s inner eid msg);
  on_recv_timeout := apply State_on_recv_timeout;
  on_recv_ready eid := apply (λ s inner, State_on_recv_ready s inner eid);
  on_recv_not_ready eid := apply (λ s inner, State_on_recv_not_ready s inner eid);
  is_send_ready _ := false;
  is_recv_ready := Pull_is_recv_ready;
  set_option := default_set_option;
  on_timer_tick := default_on_timer_tick;
  on_device_plugged := default_on_device_plugged;
  close := Pull_close
|}.

End pull.

(** ** The contract

    The priority list mirrors the pipes; a recv under way is asked of a pipe the
    collection has; a recv waits only while no pipe is ready. *)

Section contract.
Context `{Env}.

Definition state_ok (s : State) (self : Inner) : Prop :=
  routed (fq self) (pipes self) ∧
  match s with
  | Idle => True
  | Receiving eid _ => is_Some (pc_pipes (pipes self) !! eid)
  | RecvOnHold _ => peek (fq self) = false
  end.

Definition Pull_inv (self : Pull) : Prop :=
  ∃ s, state self = Some s ∧ state_ok s (inner self).

Definition Pull_guard (i : input) (self : Pull) : bool :=
  match i with
  | IAddPipe eid pipe =>
      bool_decide (addable eid pipe (Pipe_get_recv_priority pipe) (pipes (inner self)))
  | IRemovePipe eid => remove_safe eid (fq (inner self))
  | _ => true
  end.

Definition State_pending (s : State) : option (kind * Timeout) :=
  match s with
  | Idle => None
  | Receiving _ t | RecvOnHold t => Some (KRecv, t)
  end.

Definition Pull_pending (self : Pull) : option (kind * Timeout) := state self ≫= State_pending.

Abbreviation transition := (good state_ok State_pending []).

Lemma pull_apply_ok i t s n h :
  transition i (State_pending s) (t s n) →
  ∃ self' o, apply t (mkPull n (Some s)) h = Done self' o ∧ Pull_inv self' ∧
    announced (mkPull n (Some s)) o self' ∧
    contract [] (State_pending s) i o (Pull_pending self').
Proof.
  intros Hg. destruct (Hg h) as (s' & n' & o & Hrun & Hs & Hm & Hc).
  eexists (mkPull n' (Some s')), (o ++ _). unfold apply. cbn [state inner].
  rewrite bind_run, Hrun. mrun. rewrite app_nil_r. split; [done|]. split; [by exists s'|].
  split; [|by apply contract_after].
  split; cbn [is_send_ready is_recv_ready Pull_protocol]; views.
Qed.

Lemma pull_recv_good i p s n t :
  routed (fq n) (pipes n) →
  (p = None ∧ request i = Some (KRecv, t) ∨ p = Some (KRecv, t) ∧ request i = None) →
  transition i p (State_recv s n t).
Proof.
  intros Hr Hp. unfold State_recv, Inner_recv.
  destruct (fair_queue_run (fq n) (pipes n) Hr)
    as [[Hpk Hrun]|(eid & fq' & _ & Hrun & Hr' & _ & Hin)].
  - eapply (good_take _ _ _ _ _ KRecv t (RecvOnHold t) n []); [done|by split|done..|].
    intros h. mrun. rewrite Hrun. by destruct n.
  - eapply (good_take _ _ _ _ _ KRecv t (Receiving eid t) (mkInner (pipes n) fq') [NetRecv eid]);
      [done|by split|done..|].
    intros h. mrun. by rewrite Hrun.
Qed.

Lemma pull_removed_good i s n eid :
  routed (fq n) (pipes n) → request i = None →
  (∀ id t, s = Receiving id t → id ≠ eid → is_Some (pc_pipes (pipes n) !! id)) →
  (∀ t, s = RecvOnHold t → peek (fq n) = false) →
  transition i (State_pending s) (State_on_pipe_removed s n eid).
Proof.
  intros Hr Hi Hsd Hh. destruct s as [|id t|t]; cbn [State_on_pipe_removed].
  - by apply good_stay.
  - case_bool_decide; [apply pull_recv_good; auto|]. apply good_stay; [|done]. split; eauto.
  - apply good_stay; [|done]. split; [done|]. by eapply Hh.
Qed.

Lemma pull_remove_ok eid n s h :
  state_ok s n → remove_safe eid (fq n) = true →
  ∃ self' o, Pull_remove_pipe eid (mkPull n (Some s)) h = Done (pc_pipes (pipes n) !! eid, self') o ∧
    Pull_inv self' ∧ announced (mkPull n (Some s)) o self' ∧
    contract [] (State_pending s) (IRemovePipe eid) o (Pull_pending self').
Proof.
  intros [Hr Hs] Hg. destruct (routed_remove _ _ eid Hr Hg) as (fq' & Hrm & Hr' & Hpk).
  set (n' := mkInner (PipeCollection_remove eid (pipes n)).2 fq').
  assert (Hn : ∀ h, Inner_remove_pipe eid n h = Done (pc_pipes (pipes n) !! eid, n') []).
  { intros. unfold Inner_remove_pipe. rewrite Hrm. mrun. done. }
  unfold Pull_remove_pipe. cbn [inner state]. rewrite bind_run, Hn. mrun.
  destruct (pc_pipes (pipes n) !! eid) as [p|] eqn:Hl.
  - edestruct (pull_apply_ok (IRemovePipe eid) (λ s inner, State_on_pipe_removed s inner eid) s n')
      as (self' & o & Hrun & Hi & [Ha1 Ha2] & Hc).
    { apply pull_removed_good; [done..| |].
      - intros id t -> Hne. simpl. rewrite lookup_delete_ne by done. apply Hs.
      - intros t ->. by apply Hpk. }
    eexists _, _. rewrite bind_run, Hrun. mrun. rewrite app_nil_r. split; [done|]. split; [done|].
    split; [|by apply contract_before].
    split; cbn [is_send_ready is_recv_ready Pull_protocol] in *; views; done.
  - eexists (mkPull n' (Some s)), _. split; [done|]. split; [|split; [|apply contract_quiet; auto]].
    + exists s. split; [done|]. split; [done|]. destruct s as [|id t|]; [done| |by apply Hpk].
      simpl in *. rewrite lookup_delete_ne; [done|]. intros ->. rewrite Hl in Hs. by destruct Hs.
    + split; cbn [is_send_ready is_recv_ready Pull_protocol]; views.
Qed.

Lemma pull_add_ok eid pipe n s :
  state_ok s n → addable eid pipe (Pipe_get_recv_priority pipe) (pipes n) →
  Pull_inv (mkPull (Inner_add_pipe eid pipe n) (Some s)).
Proof.
  intros [Hr Hs] Ha. exists s. split; [done|]. split; [by apply routed_insert|].
  destruct s as [|id t|]; [done| |done]. simpl in *.
  destruct (decide (eid = id)) as [->|Hne]; [by rewrite lookup_insert_eq|by rewrite lookup_insert_ne].
Qed.

Lemma pull_ack_good eid msg n s :
  state_ok s n → transition (IRecvAck eid msg) (State_pending s) (State_on_recv_ack s n eid msg).
Proof.
  intros Hs. destruct s as [|id t|t]; cbn [State_on_recv_ack]; [by apply good_stay| |by apply good_stay].
  case_bool_decide; [|by apply good_stay].
  eapply (good_reply _ _ _ _ _ KRecv t (ReplyRecv msg) Idle n); [auto|done|by destruct Hs|done|].
  intros h. unfold Inner_on_recv_ack, send_reply. mrun. by rewrite app_nil_r.
Qed.

Lemma pull_timeout_good n s t :
  state_ok s n → State_pending s = Some (KRecv, t) →
  transition IRecvTimeout (State_pending s) (State_on_recv_timeout s n).
Proof. intros [Hr _] ->. eapply (good_expire _ _ _ _ _ _ _ Idle n); done. Qed.

Lemma pull_ready_good eid n s :
  state_ok s n → transition (IRecvReady eid) (State_pending s) (State_on_recv_ready s n eid).
Proof.
  intros [Hr Hs]. unfold State_on_recv_ready, Inner_on_recv_ready.
  destruct (routed_activate _ _ eid Hr) as (fq' & -> & Hr').
  eapply good_bind; [done|].
  destruct s as [|id t|t]; [by apply good_stay|by apply good_stay|apply pull_recv_good; auto].
Qed.

Lemma pull_not_ready_good eid n s :
  state_ok s n →
  transition (IRecvNotReady eid) (State_pending s) (State_on_recv_not_ready s n eid).
Proof.
  intros [Hr Hs]. unfold State_on_recv_not_ready, Inner_on_recv_not_ready.
  destruct (routed_deactivate _ _ eid Hr) as (fq' & -> & Hr' & Hpk).
  eapply good_bind; [done|]. apply good_stay; [|done]. split; [done|]. destruct s; [done..|]. by apply Hpk.
Qed.

Lemma pull_send_good n m t :
  state_ok Idle n → transition (ISend m t) (State_pending Idle) (State_send Idle n t).
Proof.
  intros Hs. eapply (good_reply _ _ _ _ _ KSend t (ReplyErr _) Idle n); [auto|done..|].
  intros h. unfold State_send, Inner_send, send_reply. mrun. by rewrite app_nil_r.
Qed.

Lemma Pull_step_ok i self h :
  Pull_inv self → Pull_guard i self = true → allowed i (Pull_pending self) = true →
  ∃ self' out, step i self h = Done self' out ∧ Pull_inv self' ∧ announced self out self' ∧
    contract [] (Pull_pending self) i out (Pull_pending self').
Proof.
  destruct self as [n os]. intros (s & Hos & Hs) Hg Ha. cbn [inner state] in *. subst os.
  change (Pull_pending (mkPull n (Some s))) with (State_pending s) in *.
  assert (Hkeep : ∀ i, request i = None → transition i (State_pending s) (mret (s, n)))
    by (intros; by apply good_stay).
  destruct i as [eid pipe|eid|msg t|eid| |eid|eid|t|eid msg| |eid|eid|opt|task|]; simpl step;
    try (apply pull_apply_ok; by apply Hkeep).
  - eexists _, []. split; [done|]. split; [|split; [done|by apply contract_quiet]].
    apply pull_add_ok; [done..|]. by apply bool_decide_eq_true in Hg.
  - destruct (pull_remove_ok eid n s h) as (self' & o & Hrun & Hi & Hc); [done..|].
    eexists _, _. rewrite bind_run, Hrun. mrun. split; [done|]. by rewrite app_nil_r.
  - destruct s; try done. by apply pull_apply_ok, pull_send_good.
  - destruct s; try done. apply pull_apply_ok, pull_recv_good; [apply Hs|auto].
  - by apply pull_apply_ok, pull_ack_good.
  - destruct s; try done; by eapply pull_apply_ok, pull_timeout_good.
  - by apply pull_apply_ok, pull_ready_good.
  - by apply pull_apply_ok, pull_not_ready_good.
  - eexists _, []. split; [done|]. split; [by exists s|split; [done|by apply contract_quiet]].
  - eexists _, []. split; [done|]. split; [by exists s|split; [done|by apply contract_quiet]].
  - eexists _, []. split; [done|]. split; [by exists s|split; [done|by apply contract_quiet]].
Qed.

#[export] Instance Pull_contract : Contract Pull := {|
  inv := Pull_inv;
  guard := Pull_guard;
  pending := Pull_pending;
  own_timers _ := [];
  step_ok := Pull_step_ok
|}.

Lemma Pull_from_inv : Pull_inv Pull_from.
Proof. exists Idle. split; [done|]. split; [apply routed_new|done]. Qed.

(** A fresh PULL socket keeps the facade's contract in every disciplined
    conversation: no panic, one reply of its kind per request, readiness announced
    as it is, and a pending recv is asked of a pipe the socket has, or waits with
    no pipe ready. *)
Theorem pull_conversation ins :
  disciplined ins Pull_from [] = true → conversation Pull_from ins.
Proof. apply conversation_ok; [apply Pull_from_inv|done]. Qed.

End contract.

Section witness.
#[local] Existing Instance ref_env.

Definition ex_pipe (n : Z) : Pipe :=
  Pipe_new_accepted (EndpointId_from n) (mkEndpointDesc 8 8 false 1024).
Definition ex_run : list input :=
  [IAddPipe (EndpointId_from 1) (ex_pipe 1); IRecv (Some (Scheduled_from 7));
   IRecvReady (EndpointId_from 1); IRecvAck (EndpointId_from 2) (from_body [1]);
   IRecvAck (EndpointId_from 1) (from_body [42]); IRecv (Some (Scheduled_from 8)); IRecvTimeout].

Example pull_ex_run_trace :
  emitted (drive ex_run Pull_from []) =
  [NetRecv (EndpointId_from 1); SendReply (ReplyRecv (from_body [42]));
   SchCancel (Scheduled_from 7); SendReply (ReplyErr (timedout_io_error "Recv timed out"))].
Proof. vm_compute. reflexivity. Qed.

Lemma pull_conversation_witness : conversation Pull_from ex_run.
Proof. apply (pull_conversation ex_run). vm_compute. reflexivity. Defined.
End witness.
