(* ===== verification/Sub.v ===== *)
(** * SUB (src/proto/sub.rs)

    Fair-queued receiving, filtered: only messages whose body starts with a
    subscribed topic reach the facade; the others are dropped and the recv goes on. *)

From S2P Require Import Prelude Core Context Priolist Pipes Protocol.

(** ** State *)

Inductive State : Type :=
| Idle
| Receiving (eid : EndpointId) (timeout : Timeout)
| RecvOnHold (timeout : Timeout).

Record Inner : Type := mkInner {
  pipes : PipeCollection;
  fq : Priolist;
  subscriptions : gset bytes
}.

Record Sub : Type := mkSub { inner : Inner; state : option State }.

Section sub.
Context `{Build}.

(** ** Inner *)

Definition Inner_add_pipe (eid : EndpointId) (pipe : Pipe) (self : Inner) : Inner :=
  mkInner (PipeCollection_insert eid pipe (pipes self)).2
          (insert eid (Pipe_get_recv_priority pipe) (fq self)) (subscriptions self).

Definition Inner_remove_pipe (eid : EndpointId) (self : Inner) : P (option Pipe * Inner) :=
  fq ← lift (remove eid (fq self));
  let '(pipe, pipes) := PipeCollection_remove eid (pipes self) in
  mret (pipe, mkInner pipes fq (subscriptions self)).

Definition Inner_send (timeout : Timeout) (self : Inner) : P () :=
  send_reply (ReplyErr (other_io_error "Send is not supported by pull protocol"));;
  cancel_opt timeout.

Definition Inner_recv (self : Inner) : P (option EndpointId * Inner) :=
  '(asked, fq) ← fair_queue_recv (fq self) (pipes self);
  mret (asked, mkInner (pipes self) fq (subscriptions self)).

Definition Inner_on_recv_ready (eid : EndpointId) (self : Inner) : P Inner :=
  fq ← lift (activate eid (fq self)); mret (mkInner (pipes self) fq (subscriptions self)).

Definition Inner_on_recv_not_ready (eid : EndpointId) (self : Inner) : P Inner :=
  fq ← lift (deactivate eid (fq self)); mret (mkInner (pipes self) fq (subscriptions self)).

Definition Inner_on_recv_ack (timeout : Timeout) (msg : Message) (self : Inner) : P () :=
  send_reply (ReplyRecv msg);; cancel_opt timeout.

Definition Inner_on_recv_timeout (self : Inner) : P () :=
  send_reply (ReplyErr (timedout_io_error "Recv timed out")).

Definition Inner_is_recv_ready (self : Inner) : bool := peek (fq self).

Definition Inner_subscribe (subscription : string) (self : Inner) : Inner :=
  mkInner (pipes self) (fq self) ({[into_bytes subscription]} ∪ subscriptions self).

Definition Inner_unsubscribe (subscription : string) (self : Inner) : Inner :=
  mkInner (pipes self) (fq self) (subscriptions self ∖ {[into_bytes subscription]}).

(** [self.subscriptions.iter().any(|s| payload.starts_with(s))] *)
Definition Inner_accept (msg : Message) (self : Inner) : bool :=
  let payload := get_body msg in
  existsb (λ s, bool_decide (s `prefix_of` payload)) (elements (subscriptions self)).

(** ** State transitions *)

Definition State_recv (self : State) (inner : Inner) (timeout : Timeout) : P (State * Inner) :=
  '(asked, inner) ← Inner_recv inner;
  match asked with
  | None => mret (RecvOnHold timeout, inner)
  | Some eid => mret (Receiving eid timeout, inner)
  end.

Definition State_on_pipe_removed (self : State) (inner : Inner) (eid : EndpointId)
    : P (State * Inner) :=
  match self with
  | Receiving id timeout =>
      if bool_decide (id = eid) then State_recv Idle inner timeout
      else mret (Receiving id timeout, inner)
  | any => mret (any, inner)
  end.

Definition State_send (self : State) (inner : Inner) (timeout : Timeout) : P (State * Inner) :=
  Inner_send timeout inner;; mret (self, inner).

(** [on_send_ack], [on_send_timeout], [on_send_ready], [on_send_not_ready]. *)
Definition State_on_send_ack (self : State) (inner : Inner) : P (State * Inner) :=
  mret (self, inner).

Definition State_on_recv_ack (self : State) (inner : Inner) (eid : EndpointId) (msg : Message)
    : P (State * Inner) :=
  match self with
  | Receiving id timeout =>
      if bool_decide (id = eid)
      then
        if Inner_accept msg inner
        then Inner_on_recv_ack timeout msg inner;; mret (Idle, inner)
        else State_recv Idle inner timeout
      else mret (Receiving id timeout, inner)
  | any => mret (any, inner)
  end.

Definition State_on_recv_timeout (self : State) (inner : Inner) : P (State * Inner) :=
  Inner_on_recv_timeout inner;; mret (Idle, inner).

Definition State_on_recv_ready (self : State) (inner : Inner) (eid : EndpointId)
    : P (State * Inner) :=
  inner ← Inner_on_recv_ready eid inner;
  match self with
  | RecvOnHold timeout => State_recv Idle inner timeout
  | any => mret (any, inner)
  end.

Definition State_on_recv_not_ready (self : State) (inner : Inner) (eid : EndpointId)
    : P (State * Inner) :=
  inner ← Inner_on_recv_not_ready eid inner; mret (self, inner).

(** ** The protocol *)

Definition Sub_is_recv_ready (self : Sub) : bool := Inner_is_recv_ready (inner self).

Definition apply (transition : State → Inner → P (State * Inner)) (self : Sub) : P Sub :=
  match state self with
  | Some old_state =>
      let was_recv_ready := Sub_is_recv_ready self in
      '(new_state, inner) ← transition old_state (inner self);
      let self := mkSub inner (Some new_state) in
      check_recv_ready_change was_recv_ready (Sub_is_recv_ready self);;
      mret self
  | None => mret self
  end.

Definition Sub_from : Sub := mkSub (mkInner PipeCollection_new new ∅) (Some Idle).

Definition Sub_add_pipe (eid : EndpointId) (pipe : Pipe) (self : Sub) : P Sub :=
  mret (mkSub (Inner_add_pipe eid pipe (inner self)) (state self)).

Definition Sub_remove_pipe (eid : EndpointId) (self : Sub) : P (option Pipe * Sub) :=
  let was_recv_ready := Sub_is_recv_ready self in
  '(pipe, inner) ← Inner_remove_pipe eid (inner self);
  let self := mkSub inner (state self) in
  check_recv_ready_change was_recv_ready (Sub_is_recv_ready self);;
  match pipe with
  | Some p =>
      self ← apply (λ s inner, State_on_pipe_removed s inner eid) self;
      mret (Some p, self)
  | None => mret (None, self)
  end.

Definition Sub_set_option (opt : ConfigOption) (self : Sub) : result () * Sub :=
  match opt with
  | Subscribe x => (Ok (), mkSub (Inner_subscribe x (inner self)) (state self))
  | Unsubscribe x => (Ok (), mkSub (Inner_unsubscribe x (inner self)) (state self))
  | _ => (Err (invalid_input_io_error "option not supported"), self)
  end.

Definition Sub_close `{Env} (self : Sub) : P Sub :=
  pipes ← close_all (pipes (inner self));
  mret (mkSub (mkInner pipes (fq (inner self)) (subscriptions (inner self))) (state self)).

#[export] Instance Sub_protocol `{Env} : Protocol Sub := {|
  proto_id _ := SUB;
  peer_id _ := PUB;
  add_pipe := Sub_add_pipe;
  remove_pipe := Sub_remove_pipe;
  send _ timeout := apply (λ s inner, State_send s inner timeout);
  on_send_ack _ := apply State_on_send_ack;
  on_send_timeout := apply State_on_send_ack;
  on_send_ready _ := apply State_on_send_ack;
  on_send_not_ready _ := apply State_on_send_ack;
  recv timeout := apply (λ s inner, State_recv s inner timeout);
  on_recv_ack eid msg := apply (λ s inner, State_on_recv_ack s inner eid msg);
  on_recv_timeout := apply State_on_recv_timeout;
  on_recv_ready eid := apply (λ s inner, State_on_recv_ready s inner eid);
  on_recv_not_ready eid := apply (λ s inner, State_on_recv_not_ready s inner eid);
  is_send_ready _ := false;
  is_recv_ready := Sub_is_recv_ready;
  set_option := Sub_set_option;
  on_timer_tick := default_on_timer_tick;
  on_device_plugged := default_on_device_plugged;
  close := Sub_close
|}.

End sub.

(** ** The contract

    The priority list mirrors the pipes; a recv under way is asked of a pipe the
    collection has; a recv waits only while no pipe is ready. *)

Section contract.
Context `{Env}.

Definition state_ok (s : State) (self : Inner) : Prop :=
  routed (fq self) (pipes self) ∧
  match s with
  | Idle => True
  | Receiving eid _ => is_Some (pc_pipes (pipes self) !! eid)
  | RecvOnHold _ => peek (fq self) = false
  end.

Definition Sub_inv (self : Sub) : Prop :=
  ∃ s, state self = Some s ∧ state_ok s (inner self).

Definition Sub_guard (i : input) (self : Sub) : bool :=
  match i with
  | IAddPipe eid pipe =>
      bool_decide (addable eid pipe (Pipe_get_recv_priority pipe) (pipes (inner self)))
  | IRemovePipe eid => remove_safe eid (fq (inner self))
  | _ => true
  end.

Definition State_pending (s : State) : option (kind * Timeout) :=
  match s with
  | Idle => None
  | Receiving _ t | RecvOnHold t => Some (KRecv, t)
  end.

Definition Sub_pending (self : Sub) : option (kind * Timeout) := state self ≫= State_pending.

Abbreviation transition := (good state_ok State_pending []).

Lemma sub_apply_ok i t s n h :
  transition i (State_pending s) (t s n) →
  ∃ self' o, apply t (mkSub n (Some s)) h = Done self' o ∧ Sub_inv self' ∧
    announced (mkSub n (Some s)) o self' ∧
    contract [] (State_pending s) i o (Sub_pending self').
Proof.
  intros Hg. destruct (Hg h) as (s' & n' & o & Hrun & Hs & Hm & Hc).
  eexists (mkSub n' (Some s')), (o ++ _). unfold apply. cbn [state inner].
  rewrite bind_run, Hrun. mrun. rewrite app_nil_r. split; [done|]. split; [by exists s'|].
  split; [|by apply contract_after].
  split; cbn [is_send_ready is_recv_ready Sub_protocol]; views.
Qed.

Lemma sub_recv_good i p s n t :
  routed (fq n) (pipes n) →
  (p = None ∧ request i = Some (KRecv, t) ∨ p = Some (KRecv, t) ∧ request i = None) →
  transition i p (State_recv s n t).
Proof.
  intros Hr Hp. unfold State_recv, Inner_recv.
  destruct (fair_queue_run (fq n) (pipes n) Hr)
    as [[Hpk Hrun]|(eid & fq' & _ & Hrun & Hr' & _ & Hin)].
  - eapply (good_take _ _ _ _ _ KRecv t (RecvOnHold t) n []); [done|by split|done..|].
    intros h. mrun. rewrite Hrun. by destruct n.
  - eapply (good_take _ _ _ _ _ KRecv t (Receiving eid t) (mkInner (pipes n) fq' (subscriptions n)) [NetRecv eid]);
      [done|by split|done..|].
    intros h. mrun. by rewrite Hrun.
Qed.

Lemma sub_removed_good i s n eid :
  routed (fq n) (pipes n) → request i = None →
  (∀ id t, s = Receiving id t → id ≠ eid → is_Some (pc_pipes (pipes n) !! id)) →
  (∀ t, s = RecvOnHold t → peek (fq n) = false) →
  transition i (State_pending s) (State_on_pipe_removed s n eid).
Proof.
  intros Hr Hi Hsd Hh. destruct s as [|id t|t]; cbn [State_on_pipe_removed].
  - by apply good_stay.
  - case_bool_decide; [apply sub_recv_good; auto|]. apply good_stay; [|done]. split; eauto.
  - apply good_stay; [|done]. split; [done|]. by eapply Hh.
Qed.

Lemma sub_remove_ok eid n s h :
  state_ok s n → remove_safe eid (fq n) = true →
  ∃ self' o, Sub_remove_pipe eid (mkSub n (Some s)) h = Done (pc_pipes (pipes n) !! eid, self') o ∧
    Sub_inv self' ∧ announced (mkSub n (Some s)) o self' ∧
    contract [] (State_pending s) (IRemovePipe eid) o (Sub_pending self').
Proof.
  intros [Hr Hs] Hg. destruct (routed_remove _ _ eid Hr Hg) as (fq' & Hrm & Hr' & Hpk).
  set (n' := mkInner (PipeCollection_remove eid (pipes n)).2 fq' (subscriptions n)).
  assert (Hn : ∀ h, Inner_remove_pipe eid n h = Done (pc_pipes (pipes n) !! eid, n') []).
  { intros. unfold Inner_remove_pipe. rewrite Hrm. mrun. done. }
  unfold Sub_remove_pipe. cbn [inner state]. rewrite bind_run, Hn. mrun.
  destruct (pc_pipes (pipes n) !! eid) as [p|] eqn:Hl.
  - edestruct (sub_apply_ok (IRemovePipe eid) (λ s inner, State_on_pipe_removed s inner eid) s n')
      as (self' & o & Hrun & Hi & [Ha1 Ha2] & Hc).
    { apply sub_removed_good; [done..| |].
      - intros id t -> Hne. simpl. rewrite lookup_delete_ne by done. apply Hs.
      - intros t ->. by apply Hpk. }
    eexists _, _. rewrite bind_run, Hrun. mrun. rewrite app_nil_r. split; [done|]. split; [done|].
    split; [|by apply contract_before].
    split; cbn [is_send_ready is_recv_ready Sub_protocol] in *; views; done.
  - eexists (mkSub n' (Some s)), _. split; [done|]. split; [|split; [|apply contract_quiet; auto]].
    + exists s. split; [done|]. split; [done|]. destruct s as [|id t|]; [done| |by apply Hpk].
      simpl in *. rewrite lookup_delete_ne; [done|]. intros ->. rewrite Hl in Hs. by destruct Hs.
    + split; cbn [is_send_ready is_recv_ready Sub_protocol]; views.
Qed.

Lemma sub_add_ok eid pipe n s :
  state_ok s n → addable eid pipe (Pipe_get_recv_priority pipe) (pipes n) →
  Sub_inv (mkSub (Inner_add_pipe eid pipe n) (Some s)).
Proof.
  intros [Hr Hs] Ha. exists s. split; [done|]. split; [by apply routed_insert|].
  destruct s as [|id t|]; [done| |done]. simpl in *.
  destruct (decide (eid = id)) as [->|Hne]; [by rewrite lookup_insert_eq|by rewrite lookup_insert_ne].
Qed.

Lemma sub_ack_good eid msg n s :
  state_ok s n → transition (IRecvAck eid msg) (State_pending s) (State_on_recv_ack s n eid msg).
Proof.
  intros Hs. destruct s as [|id t|t]; cbn [State_on_recv_ack]; [by apply good_stay| |by apply good_stay].
  case_bool_decide; [|by apply good_stay].
  destruct (Inner_accept msg n); [|apply sub_recv_good; [apply Hs|auto]].
  eapply (good_reply _ _ _ _ _ KRecv t (ReplyRecv msg) Idle n); [auto|done|by destruct Hs|done|].
  intros h. unfold Inner_on_recv_ack, send_reply. mrun. by rewrite app_nil_r.
Qed.

Lemma sub_timeout_good n s t :
  state_ok s n → State_pending s = Some (KRecv, t) →
  transition IRecvTimeout (State_pending s) (State_on_recv_timeout s n).
Proof. intros [Hr _] ->. eapply (good_expire _ _ _ _ _ _ _ Idle n); done. Qed.

Lemma sub_ready_good eid n s :
  state_ok s n → transition (IRecvReady eid) (State_pending s) (State_on_recv_ready s n eid).
Proof.
  intros [Hr Hs]. unfold State_on_recv_ready, Inner_on_recv_ready.
  destruct (routed_activate _ _ eid Hr) as (fq' & -> & Hr').
  eapply good_bind; [done|].
  destruct s as [|id t|t]; [by apply good_stay|by apply good_stay|apply sub_recv_good; auto].
Qed.

Lemma sub_not_ready_good eid n s :
  state_ok s n →
  transition (IRecvNotReady eid) (State_pending s) (State_on_recv_not_ready s n eid).
Proof.
  intros [Hr Hs]. unfold State_on_recv_not_ready, Inner_on_recv_not_ready.
  destruct (routed_deactivate _ _ eid Hr) as (fq' & -> & Hr' & Hpk).
  eapply good_bind; [done|]. apply good_stay; [|done]. split; [done|]. destruct s; [done..|]. by apply Hpk.
Qed.

Lemma sub_send_good n m t :
  state_ok Idle n → transition (ISend m t) (State_pending Idle) (State_send Idle n t).
Proof.
  intros Hs. eapply (good_reply _ _ _ _ _ KSend t (ReplyErr _) Idle n); [auto|done..|].
  intros h. unfold State_send, Inner_send, send_reply. mrun. by rewrite app_nil_r.
Qed.

Lemma Sub_step_ok i self h :
  Sub_inv self → Sub_guard i self = true → allowed i (Sub_pending self) = true →
  ∃ self' out, step i self h = Done self' out ∧ Sub_inv self' ∧ announced self out self' ∧
    contract [] (Sub_pending self) i out (Sub_pending self').
Proof.
  destruct self as [n os]. intros (s & Hos & Hs) Hg Ha. cbn [inner state] in *. subst os.
  change (Sub_pending (mkSub n (Some s))) with (State_pending s) in *.
  assert (Hkeep : ∀ i, request i = None → transition i (State_pending s) (mret (s, n)))
    by (intros; by apply good_stay).
  destruct i as [eid pipe|eid|msg t|eid| |eid|eid|t|eid msg| |eid|eid|opt|task|]; simpl step;
    try (apply sub_apply_ok; by apply Hkeep).
  - eexists _, []. split; [done|]. split; [|split; [done|by apply contract_quiet]].
    apply sub_add_ok; [done..|]. by apply bool_decide_eq_true in Hg.
  - destruct (sub_remove_ok eid n s h) as (self' & o & Hrun & Hi & Hc); [done..|].
    eexists _, _. rewrite bind_run, Hrun. mrun. split; [done|]. by rewrite app_nil_r.
  - destruct s; try done. by apply sub_apply_ok, sub_send_good.
  - destruct s; try done. apply sub_apply_ok, sub_recv_good; [apply Hs|auto].
  - by apply sub_apply_ok, sub_ack_good.
  - destruct s; try done; by eapply sub_apply_ok, sub_timeout_good.
  - by apply sub_apply_ok, sub_ready_good.
  - by apply sub_apply_ok, sub_not_ready_good.
  - eexists (Sub_set_option opt (mkSub n (Some s))).2, []. split; [done|].
    split; [exists s; destruct opt; by destruct Hs|].
    split; [by destruct opt|]. destruct opt; by apply contract_quiet.
  - eexists _, []. split; [done|]. split; [by exists s|split; [done|by apply contract_quiet]].
  - eexists _, []. split; [done|]. split; [by exists s|split; [done|by apply contract_quiet]].
Qed.

#[export] Instance Sub_contract : Contract Sub := {|
  inv := Sub_inv;
  guard := Sub_guard;
  pending := Sub_pending;
  own_timers _ := [];
  step_ok := Sub_step_ok
|}.

Lemma Sub_from_inv : Sub_inv Sub_from.
Proof. exists Idle. split; [done|]. split; [apply routed_new|done]. Qed.

(** A fresh SUB socket keeps the facade's contract in every disciplined
    conversation: no panic, one reply of its kind per request, readiness announced
    as it is, and a pending recv is asked of a pipe the socket has, or waits with
    no pipe ready. *)
Theorem sub_conversation ins :
  disciplined ins Sub_from [] = true → conversation Sub_from ins.
Proof. apply conversation_ok; [apply Sub_from_inv|done]. Qed.

(** ** Filtering *)

Definition topics_step (subs : gset bytes) (i : input) : gset bytes :=
  match i with
  | ISetOption (Subscribe x) => {[into_bytes x]} ∪ subs
  | ISetOption (Unsubscribe x) => subs ∖ {[into_bytes x]}
  | _ => subs
  end.
(** The topics in force after a sequence of calls. *)
Definition topics (ins : list input) : gset bytes := foldl topics_step ∅ ins.

Definition matches (subs : gset bytes) (msg : Message) : Prop :=
  ∃ topic, topic ∈ subs ∧ topic `prefix_of` body msg.

(** What one call may deliver. *)
Definition delivery (i : input) (subs : gset bytes) (e : effect) : Prop :=
  match e with
  | SendReply (ReplyRecv m) => (∃ eid, i = IRecvAck eid m) ∧ matches subs m
  | _ => True
  end.

Lemma accept_matches msg n : Inner_accept msg n = true → matches (subscriptions n) msg.
Proof.
  unfold Inner_accept. rewrite existsb_exists. intros (t & Hin & Hp).
  exists t. split; [|by apply bool_decide_eq_true in Hp].
  by apply elem_of_elements, list_elem_of_In.
Qed.

Abbreviation keeps i subs := (runs (delivery i subs) (λ r, subscriptions r.2 = subs)).

Lemma recv_keeps i subs s n t : subscriptions n = subs → keeps i subs (State_recv s n t).
Proof.
  intros Hn. unfold State_recv, Inner_recv.
  eapply (runs_bind _ (λ r, subscriptions r.2 = subs)).
  - apply every_bind; [|by intros [o fq']; apply runs_ret].
    unfold fair_queue_recv, recv_from. walk; done.
  - intros [[e|] n'] Hn'; by apply runs_ret.
Qed.

Lemma sub_apply_keeps i subs t n s :
  subscriptions n = subs → (∀ s, keeps i subs (t s n)) →
  runs (delivery i subs) (λ r, subscriptions (inner r) = subs) (apply t (mkSub n s)).
Proof.
  intros Hn Ht. unfold apply. cbn [state inner]. destruct s as [s|]; [|by apply runs_ret].
  eapply runs_bind; [apply Ht|]. intros [s' n'] Hn'. unfold check_recv_ready_change, ctx_raise.
  walk; try done.
Qed.

Lemma pure_keeps i subs (s : State) n : subscriptions n = subs → keeps i subs (mret (s, n)).
Proof. intros Hn. by apply runs_ret. Qed.

Lemma silent_keeps i subs (m : P ()) (s : State) n :
  subscriptions n = subs → every (delivery i subs) m → keeps i subs (m;; mret (s, n)).
Proof. intros Hn Hm. apply every_bind; [done|]. intros []. by apply runs_ret. Qed.

Lemma reply_delivery i subs r t :
  (∀ m, r = ReplyRecv m → (∃ eid, i = IRecvAck eid m) ∧ matches subs m) →
  every (delivery i subs) (send_reply r;; cancel_opt t).
Proof.
  intros Hr. unfold send_reply, cancel_opt, ctx_cancel. walk; try done.
  destruct r; simpl; auto.
Qed.

Lemma flag_keeps i subs n (f : option Priolist) (k : Inner → P (State * Inner)) :
  subscriptions n = subs →
  (∀ fq, keeps i subs (k (mkInner (pipes n) fq (subscriptions n)))) →
  keeps i subs ((fq ← lift f; mret (mkInner (pipes n) fq (subscriptions n))) ≫= k).
Proof.
  intros Hn Hk. eapply (runs_bind _ (λ n', ∃ fq, n' = mkInner (pipes n) fq (subscriptions n))).
  - walk. eauto.
  - intros ? [fq' ->]. apply Hk.
Qed.

Lemma removed_keeps i subs eid s n :
  subscriptions n = subs → keeps i subs (State_on_pipe_removed s n eid).
Proof.
  intros Hn. destruct s as [|id t|t]; simpl; try case_bool_decide;
    auto using pure_keeps, recv_keeps.
Qed.

Lemma remove_keeps i subs eid s :
  subscriptions (inner s) = subs →
  runs (delivery i subs) (λ r, subscriptions (inner r.2) = subs) (Sub_remove_pipe eid s).
Proof.
  intros Hn. unfold Sub_remove_pipe.
  eapply (runs_bind _ (λ r, subscriptions r.2 = subs)).
  { unfold Inner_remove_pipe. walk. done. }
  intros [pipe n'] Hn'. unfold check_recv_ready_change, ctx_raise.
  apply every_bind; [by walk|]. intros []. destruct pipe as [p|]; [|by apply runs_ret].
  eapply runs_bind; [apply sub_apply_keeps; [done|]|].
  - intros s'. by apply removed_keeps.
  - intros s' Hs'. by apply runs_ret.
Qed.

Lemma ack_keeps subs eid msg s n :
  subscriptions n = subs → keeps (IRecvAck eid msg) subs (State_on_recv_ack s n eid msg).
Proof.
  intros Hn. destruct s as [|id t|t]; simpl; [by apply pure_keeps| |by apply pure_keeps].
  case_bool_decide; [|by apply pure_keeps].
  destruct (Inner_accept msg n) eqn:Hacc; [|by apply recv_keeps].
  apply silent_keeps; [done|]. apply reply_delivery. intros m [= <-].
  rewrite <- Hn. eauto using accept_matches.
Qed.

Lemma step_keeps i subs s :
  subscriptions (inner s) = subs →
  runs (delivery i subs) (λ s', subscriptions (inner s') = topics_step subs i) (step i s).
Proof.
  destruct s as [n os]. cbn [inner]. intros Hn.
  destruct i as [eid pipe|eid|msg t|eid| |eid|eid|t|eid msg| |eid|eid|opt|task|]; simpl step;
    try (apply sub_apply_keeps; [done|]; intros; by apply pure_keeps).
  - by apply runs_ret.
  - eapply runs_bind; [by apply remove_keeps|]. intros r Hr. by apply runs_ret.
  - apply sub_apply_keeps; [done|]. intros s. apply silent_keeps; [done|].
    by apply reply_delivery.
  - apply sub_apply_keeps; [done|]. intros. by apply recv_keeps.
  - apply sub_apply_keeps; [done|]. intros. by apply ack_keeps.
  - apply sub_apply_keeps; [done|]. intros. by apply silent_keeps, runs_emit.
  - apply sub_apply_keeps; [done|]. intros s. apply flag_keeps; [done|]. intros fq'.
    destruct s; auto using pure_keeps, recv_keeps.
  - apply sub_apply_keeps; [done|]. intros s. apply flag_keeps; [done|]. intros fq'. by apply pure_keeps.
  - apply runs_ret. destruct opt; simpl; by rewrite ?Hn.
  - by apply runs_ret.
  - by apply runs_ret.
Qed.

Lemma deliveries i subs out m :
  Forall (delivery i subs) out → ReplyRecv m ∈ replies out →
  (∃ eid, i = IRecvAck eid m) ∧ matches subs m.
Proof.
  induction 1 as [|e out He Hout IH]; simpl; [by intros ?%elem_of_nil|].
  destruct e; auto. rewrite elem_of_cons. intros [<-|?]; auto.
Qed.

Lemma drive_keeps ins subs s h s' out m :
  subscriptions (inner s) = subs → drive ins s h = Done s' out → ReplyRecv m ∈ replies out →
  ∃ ins1 eid ins2, ins = ins1 ++ IRecvAck eid m :: ins2 ∧
    matches (foldl topics_step subs ins1) m.
Proof.
  revert subs s h out. induction ins as [|i ins IH]; intros subs s h out Hs Hd Hm.
  - injection Hd as _ <-. by apply elem_of_nil in Hm.
  - simpl in Hd. rewrite bind_run in Hd. destruct (step i s h) as [s1 o1|] eqn:H1; [|done].
    destruct (drive ins s1 (h ++ o1)) as [s2 o2|] eqn:H2; [|done]. injection Hd as <- <-.
    destruct (step_keeps i subs s Hs _ _ _ H1) as [Ho1 Hs1].
    rewrite replies_app in Hm. apply elem_of_app in Hm as [Hm|Hm].
    + destruct (deliveries _ _ _ _ Ho1 Hm) as [[eid ->] Hmt]. by exists [], eid, ins.
    + destruct (IH _ _ _ _ Hs1 H2 Hm) as (ins1 & eid & ins2 & -> & Hmt).
      by exists (i :: ins1), eid, ins2.
Qed.

(** C22: Every message a SUB socket delivers to the facade came in whole from the
    network, at a moment when one of the topics in force (subscribed and not
    unsubscribed since) is a prefix of its body. *)
Theorem sub_filters ins s out m :
  drive ins Sub_from [] = Done s out → ReplyRecv m ∈ replies out →
  ∃ ins1 eid ins2, ins = ins1 ++ IRecvAck eid m :: ins2 ∧ matches (topics ins1) m.
Proof. by apply drive_keeps. Qed.

End contract.

Section witness.
#[local] Existing Instance ref_env.

Definition ex_pipe (n : Z) : Pipe :=
  Pipe_new_accepted (EndpointId_from n) (mkEndpointDesc 8 8 false 1024).
Definition ex_run : list input :=
  [IAddPipe (EndpointId_from 1) (ex_pipe 1); ISetOption (Subscribe "A");
   IRecv (Some (Scheduled_from 7));
   IRecvReady (EndpointId_from 1); IRecvAck (EndpointId_from 2) (from_body [1]);
   IRecvAck (EndpointId_from 1) (from_body [66; 1]);
   IRecvReady (EndpointId_from 1); IRecvAck (EndpointId_from 1) (from_body [65; 42]); IRecv (Some (Scheduled_from 8)); IRecvTimeout].

Example sub_ex_run_trace :
  emitted (drive ex_run Sub_from []) =
  [NetRecv (EndpointId_from 1); NetRecv (EndpointId_from 1);
   SendReply (ReplyRecv (from_body [65; 42]));
   SchCancel (Scheduled_from 7); SendReply (ReplyErr (timedout_io_error "Recv timed out"))].
Proof. vm_compute. reflexivity. Qed.

Lemma sub_conversation_witness : conversation Sub_from ex_run.
Proof. apply (sub_conversation ex_run). vm_compute. reflexivity. Defined.

Lemma sub_filters_witness :
  ∃ ins1 eid ins2, ex_run = ins1 ++ IRecvAck eid (from_body [65; 42]) :: ins2 ∧
    matches (topics ins1) (from_body [65; 42]).
Proof.
  eapply (sub_filters ex_run); [vm_compute; reflexivity|].
  apply list_elem_of_here || (vm_compute; apply list_elem_of_here).
Defined.
End witness.
