(* ===== verification/Bus.v ===== *)
(** * BUS (src/proto/bus.rs)

    Broadcast to every ready peer, and fair-queued receiving.  A received
    message carries the id of the pipe it came from in its header, so that a
    device sending it on does not send it back there. *)

From S2P Require Import Prelude Core Context Priolist Pipes Protocol Codec.

(** ** State *)

Inductive State : Type :=
| Idle
| Receiving (eid : EndpointId) (timeout : Timeout)
| RecvOnHold (timeout : Timeout).

Record Inner : Type := mkInner {
  pipes : PipeCollection;
  bc : gset EndpointId;
  fq : Priolist
}.

Record Bus : Type := mkBus { inner : Inner; state : option State }.

Section bus.
Context `{Env} `{ByteOrder}.

(** ** Inner *)

Definition Inner_add_pipe (eid : EndpointId) (pipe : Pipe) (self : Inner) : Inner :=
  mkInner (PipeCollection_insert eid pipe (pipes self)).2 (bc self)
          (insert eid (Pipe_get_recv_priority pipe) (fq self)).

Definition Inner_remove_pipe (eid : EndpointId) (self : Inner) : P (option Pipe * Inner) :=
  fq ← lift (remove eid (fq self));
  let '(pipe, pipes) := PipeCollection_remove eid (pipes self) in
  mret (pipe, mkInner pipes (bc self ∖ {[eid]}) fq).

Definition Inner_send_to_all (msg : Message) (self : Inner) : P Inner :=
  bc ← send_to_all (bc self) (pipes self) msg; mret (mkInner (pipes self) bc (fq self)).

Definition Inner_send_to_all_except (msg : Message) (except : EndpointId) (self : Inner) : P Inner :=
  bc ← send_to_all_except (bc self) (pipes self) msg except;
  mret (mkInner (pipes self) bc (fq self)).

Definition Inner_send (msg : Message) (oid : option EndpointId) (timeout : Timeout) (self : Inner)
    : P Inner :=
  self ← match oid with
         | Some except =>
             if bool_decide (except ∈ bc self) then Inner_send_to_all_except msg except self
             else Inner_send_to_all msg self
         | None => Inner_send_to_all msg self
         end;
  send_reply ReplySend;; cancel_opt timeout;; mret self.

Definition Inner_on_send_ready (eid : EndpointId) (self : Inner) : Inner :=
  mkInner (pipes self) ({[eid]} ∪ bc self) (fq self).

Definition Inner_on_send_not_ready (eid : EndpointId) (self : Inner) : Inner :=
  mkInner (pipes self) (bc self ∖ {[eid]}) (fq self).

Definition Inner_is_send_ready (self : Inner) : bool := negb (bool_decide (bc self = ∅)).

Definition Inner_recv (self : Inner) : P (option EndpointId * Inner) :=
  '(asked, fq) ← fair_queue_recv (fq self) (pipes self);
  mret (asked, mkInner (pipes self) (bc self) fq).

Definition Inner_on_recv_ready (eid : EndpointId) (self : Inner) : P Inner :=
  fq ← lift (activate eid (fq self)); mret (mkInner (pipes self) (bc self) fq).

Definition Inner_on_recv_not_ready (eid : EndpointId) (self : Inner) : P Inner :=
  fq ← lift (deactivate eid (fq self)); mret (mkInner (pipes self) (bc self) fq).

Definition Inner_on_recv_ack (timeout : Timeout) (msg : Message) (self : Inner) : P () :=
  send_reply (ReplyRecv msg);; cancel_opt timeout.

Definition Inner_on_recv_timeout (self : Inner) : P () :=
  send_reply (ReplyErr (timedout_io_error "Recv timed out")).

Definition Inner_is_recv_ready (self : Inner) : bool := peek (fq self).

(** ** State transitions *)

Definition State_recv (self : State) (inner : Inner) (timeout : Timeout) : P (State * Inner) :=
  '(asked, inner) ← Inner_recv inner;
  match asked with
  | None => mret (RecvOnHold timeout, inner)
  | Some eid => mret (Receiving eid timeout, inner)
  end.

Definition State_on_pipe_removed (self : State) (inner : Inner) (eid : EndpointId)
    : P (State * Inner) :=
  match self with
  | Receiving id timeout =>
      if bool_decide (id = eid) then State_recv Idle inner timeout
      else mret (Receiving id timeout, inner)
  | any => mret (any, inner)
  end.

Definition State_send (self : State) (inner : Inner) (msg : Message) (oid : option EndpointId)
    (timeout : Timeout) : P (State * Inner) :=
  inner ← Inner_send msg oid timeout inner; mret (self, inner).

(** [on_send_ack] and [on_send_timeout]. *)
Definition State_on_send_ack (self : State) (inner : Inner) : P (State * Inner) :=
  mret (self, inner).

Definition State_on_send_ready (self : State) (inner : Inner) (eid : EndpointId)
    : P (State * Inner) :=
  mret (self, Inner_on_send_ready eid inner).

Definition State_on_send_not_ready (self : State) (inner : Inner) (eid : EndpointId)
    : P (State * Inner) :=
  mret (self, Inner_on_send_not_ready eid inner).

Definition State_on_recv_ack (self : State) (inner : Inner) (eid : EndpointId) (msg : Message)
    : P (State * Inner) :=
  match self with
  | Receiving id timeout =>
      if bool_decide (id = eid)
      then Inner_on_recv_ack timeout msg inner;; mret (Idle, inner)
      else mret (Receiving id timeout, inner)
  | any => mret (any, inner)
  end.

Definition State_on_recv_timeout (self : State) (inner : Inner) : P (State * Inner) :=
  Inner_on_recv_timeout inner;; mret (Idle, inner).

Definition State_on_recv_ready (self : State) (inner : Inner) (eid : EndpointId)
    : P (State * Inner) :=
  inner ← Inner_on_recv_ready eid inner;
  match self with
  | RecvOnHold timeout => State_recv Idle inner timeout
  | any => mret (any, inner)
  end.

Definition State_on_recv_not_ready (self : State) (inner : Inner) (eid : EndpointId)
    : P (State * Inner) :=
  inner ← Inner_on_recv_not_ready eid inner; mret (self, inner).

(** ** Codec *)

Definition decode (raw_msg : Message) (eid : EndpointId) : Message :=
  let originator_bytes := be_write_u32 (wrap 32 (EndpointId_into eid)) in
  from_header_and_body (header raw_msg ++ originator_bytes) (body raw_msg).

Definition encode (msg : Message) : Message * option EndpointId :=
  if bool_decide (length (get_header msg) < 4)%nat then (msg, None)
  else
    let '(header, body) := Message_split msg in
    let remaining_header := drop 4 header in
    let originator := be_read_u32 (take 4 header) in
    (from_header_and_body remaining_header body, Some (EndpointId_from originator)).

(** ** The protocol *)

Definition Bus_is_send_ready (self : Bus) : bool := Inner_is_send_ready (inner self).
Definition Bus_is_recv_ready (self : Bus) : bool := Inner_is_recv_ready (inner self).

Definition apply (transition : State → Inner → P (State * Inner)) (self : Bus) : P Bus :=
  match state self with
  | Some old_state =>
      let was_send_ready := Bus_is_send_ready self in
      let was_recv_ready := Bus_is_recv_ready self in
      '(new_state, inner) ← transition old_state (inner self);
      let self := mkBus inner (Some new_state) in
      check_send_ready_change was_send_ready (Bus_is_send_ready self);;
      check_recv_ready_change was_recv_ready (Bus_is_recv_ready self);;
      mret self
  | None => mret self
  end.

Definition Bus_from : Bus := mkBus (mkInner PipeCollection_new ∅ new) (Some Idle).

Definition Bus_add_pipe (eid : EndpointId) (pipe : Pipe) (self : Bus) : P Bus :=
  mret (mkBus (Inner_add_pipe eid pipe (inner self)) (state self)).

Definition Bus_remove_pipe (eid : EndpointId) (self : Bus) : P (option Pipe * Bus) :=
  let was_send_ready := Bus_is_send_ready self in
  let was_recv_ready := Bus_is_recv_ready self in
  '(pipe, inner) ← Inner_remove_pipe eid (inner self);
  let self := mkBus inner (state self) in
  let is_send_ready := Bus_is_send_ready self in
  let is_recv_ready := Bus_is_recv_ready self in
  self ← match pipe with
         | Some _ => apply (λ s inner, State_on_pipe_removed s inner eid) self
         | None => mret self
         end;
  check_send_ready_change was_send_ready is_send_ready;;
  check_recv_ready_change was_recv_ready is_recv_ready;;
  mret (pipe, self).

Definition Bus_send (msg : Message) (timeout : Timeout) (self : Bus) : P Bus :=
  let '(raw_msg, oid) := encode msg in
  apply (λ s inner, State_send s inner raw_msg oid timeout) self.

Definition Bus_on_recv_ack (eid : EndpointId) (raw_msg : Message) (self : Bus) : P Bus :=
  let msg := decode raw_msg eid in
  apply (λ s inner, State_on_recv_ack s inner eid msg) self.

Definition Bus_close (self : Bus) : P Bus :=
  pipes ← close_all (pipes (inner self));
  mret (mkBus (mkInner pipes (bc (inner self)) (fq (inner self))) (state self)).

#[export] Instance Bus_protocol : Protocol Bus := {|
  proto_id _ := BUS;
  peer_id _ := BUS;
  add_pipe := Bus_add_pipe;
  remove_pipe := Bus_remove_pipe;
  send := Bus_send;
  on_send_ack _ := apply State_on_send_ack;
  on_send_timeout := apply State_on_send_ack;
  on_send_ready eid := apply (λ s inner, State_on_send_ready s inner eid);
  on_send_not_ready eid := apply (λ s inner, State_on_send_not_ready s inner eid);
  recv timeout := apply (λ s inner, State_recv s inner timeout);
  on_recv_ack := Bus_on_recv_ack;
  on_recv_timeout := apply State_on_recv_timeout;
  on_recv_ready eid := apply (λ s inner, State_on_recv_ready s inner eid);
  on_recv_not_ready eid := apply (λ s inner, State_on_recv_not_ready s inner eid);
  is_send_ready := Bus_is_send_ready;
  is_recv_ready := Bus_is_recv_ready;
  set_option := default_set_option;
  on_timer_tick := default_on_timer_tick;
  on_device_plugged := default_on_device_plugged;
  close := Bus_close
|}.

End bus.

(** ** The contract

    The priority list mirrors the pipes; a recv under way is asked of a pipe the
    collection has; a recv waits only while no pipe is ready. *)

Section contract.
Context `{Env} `{ByteOrder}.

Definition state_ok (s : State) (self : Inner) : Prop :=
  routed (fq self) (pipes self) ∧
  match s with
  | Idle => True
  | Receiving eid _ => is_Some (pc_pipes (pipes self) !! eid)
  | RecvOnHold _ => peek (fq self) = false
  end.

Definition Bus_inv (self : Bus) : Prop :=
  ∃ s, state self = Some s ∧ state_ok s (inner self).

Definition Bus_guard (i : input) (self : Bus) : bool :=
  match i with
  | IAddPipe eid pipe =>
      bool_decide (addable eid pipe (Pipe_get_recv_priority pipe) (pipes (inner self)))
  | IRemovePipe eid => remove_safe eid (fq (inner self))
  | _ => true
  end.

Definition State_pending (s : State) : option (kind * Timeout) :=
  match s with
  | Idle => None
  | Receiving _ t | RecvOnHold t => Some (KRecv, t)
  end.

Definition Bus_pending (self : Bus) : option (kind * Timeout) := state self ≫= State_pending.

Abbreviation transition := (good state_ok State_pending []).

Lemma bus_apply_ok i t s n h :
  transition i (State_pending s) (t s n) →
  ∃ self' o, apply t (mkBus n (Some s)) h = Done self' o ∧ Bus_inv self' ∧
    announced (mkBus n (Some s)) o self' ∧
    contract [] (State_pending s) i o (Bus_pending self').
Proof.
  intros Hg. destruct (Hg h) as (s' & n' & o & Hrun & Hs & Hm & Hc).
  eexists (mkBus n' (Some s')), (o ++ _). unfold apply. cbn [state inner].
  rewrite bind_run, Hrun. mrun. rewrite app_nil_r. split; [done|]. split; [by exists s'|].
  split; [|apply contract_after; auto].
  split; cbn [is_send_ready is_recv_ready Bus_protocol]; views.
Qed.

Lemma bus_recv_good i p s n t :
  routed (fq n) (pipes n) →
  (p = None ∧ request i = Some (KRecv, t) ∨ p = Some (KRecv, t) ∧ request i = None) →
  transition i p (State_recv s n t).
Proof.
  intros Hr Hp. unfold State_recv, Inner_recv.
  destruct (fair_queue_run (fq n) (pipes n) Hr)
    as [[Hpk Hrun]|(eid & fq' & _ & Hrun & Hr' & _ & Hin)].
  - eapply (good_take _ _ _ _ _ KRecv t (RecvOnHold t) n []); [done|by split|done..|].
    intros h. mrun. rewrite Hrun. by destruct n.
  - eapply (good_take _ _ _ _ _ KRecv t (Receiving eid t) (mkInner (pipes n) (bc n) fq') [NetRecv eid]);
      [done|by split|done..|].
    intros h. mrun. by rewrite Hrun.
Qed.

Lemma bus_removed_good i s n eid :
  routed (fq n) (pipes n) → request i = None →
  (∀ id t, s = Receiving id t → id ≠ eid → is_Some (pc_pipes (pipes n) !! id)) →
  (∀ t, s = RecvOnHold t → peek (fq n) = false) →
  transition i (State_pending s) (State_on_pipe_removed s n eid).
Proof.
  intros Hr Hi Hsd Hh. destruct s as [|id t|t]; cbn [State_on_pipe_removed].
  - by apply good_stay.
  - case_bool_decide; [apply bus_recv_good; auto|]. apply good_stay; [|done]. split; eauto.
  - apply good_stay; [|done]. split; [done|]. by eapply Hh.
Qed.

(** A removal's transition never makes the socket ready. *)
Lemma bus_removed_lowers eid s n h s' n' o :
  routed (fq n) (pipes n) → State_on_pipe_removed s n eid h = Done (s', n') o →
  bc n' = bc n ∧ (peek (fq n) = false → peek (fq n') = false).
Proof.
  intros Hr. destruct s as [|id t|t]; simpl; try (intros [= <- <- <-]; by split).
  case_bool_decide; [|intros [= <- <- <-]; by split]. unfold State_recv, Inner_recv. mrun.
  destruct (fair_queue_run (fq n) (pipes n) Hr) as [[Hpk Hrun]|(e & fq' & Hpk & Hrun & _)];
    rewrite Hrun; mrun; intros [= <- <- <-]; (split; [done|]); simpl; [done|by rewrite Hpk].
Qed.

Lemma bus_apply_inv t n s h self' o :
  apply t (mkBus n (Some s)) h = Done self' o →
  ∃ s' n' o', t s n h = Done (s', n') o' ∧ self' = mkBus n' (Some s').
Proof.
  unfold apply. cbn [state inner]. rewrite bind_run. destruct (t s n h) as [[s' n'] o'|]; [|done].
  mrun. intros [= <- _]. eauto.
Qed.

Lemma still_unready (s : gset EndpointId) eid :
  negb (bool_decide (s = ∅)) = false → negb (bool_decide (s ∖ {[eid]} = ∅)) = false.
Proof. rewrite !negb_false_iff, !bool_decide_eq_true. intros ->. set_solver. Qed.

Lemma bus_remove_ok eid n s h :
  state_ok s n → remove_safe eid (fq n) = true →
  ∃ self' o, Bus_remove_pipe eid (mkBus n (Some s)) h = Done (pc_pipes (pipes n) !! eid, self') o ∧
    Bus_inv self' ∧ announced (mkBus n (Some s)) o self' ∧
    contract [] (State_pending s) (IRemovePipe eid) o (Bus_pending self').
Proof.
  intros [Hr Hs] Hg. destruct (routed_remove _ _ eid Hr Hg) as (fq' & Hrm & Hr' & Hpk).
  set (n' := mkInner (PipeCollection_remove eid (pipes n)).2 (bc n ∖ {[eid]}) fq').
  assert (Hn : ∀ h, Inner_remove_pipe eid n h = Done (pc_pipes (pipes n) !! eid, n') []).
  { intros. unfold Inner_remove_pipe. rewrite Hrm. mrun. done. }
  unfold Bus_remove_pipe. cbn [inner state]. rewrite bind_run, Hn. mrun.
  destruct (pc_pipes (pipes n) !! eid) as [p|] eqn:Hl.
  - edestruct (bus_apply_ok (IRemovePipe eid) (λ s inner, State_on_pipe_removed s inner eid) s n')
      as (self' & o & Hrun & Hi & [Ha1 Ha2] & Hc).
    { apply bus_removed_good; [done..| |].
      - intros id t -> Hne. simpl. rewrite lookup_delete_ne by done. apply Hs.
      - intros t ->. by apply Hpk. }
    destruct (bus_apply_inv _ _ _ _ _ _ Hrun) as (s2 & n2 & o2 & Hrun2 & ->).
    destruct (bus_removed_lowers eid s n' _ s2 n2 o2 Hr' Hrun2) as [Hbc Hlow].
    eexists _, _. rewrite Hrun. mrun. rewrite app_nil_r. split; [done|]. split; [done|].
    split; [split|apply contract_after; auto].
    + eapply late_send_view; [exact Ha1|apply still_unready| |intros; apply recv_change_send_view].
      cbn. unfold Bus_is_send_ready, Inner_is_send_ready. simpl. by rewrite Hbc.
    + eapply late_recv_view; [exact Ha2|exact Hpk|exact Hlow|intros; apply send_change_recv_view].
  - eexists (mkBus n' (Some s)), _. split; [mrun; done|]. split; [|split; [|apply contract_quiet; auto]].
    + exists s. split; [done|]. split; [done|]. destruct s as [|id t|]; [done| |by apply Hpk].
      simpl in *. rewrite lookup_delete_ne; [done|]. intros ->. rewrite Hl in Hs. by destruct Hs.
    + split; cbn [is_send_ready is_recv_ready Bus_protocol]; views.
Qed.

Lemma bus_add_ok eid pipe n s :
  state_ok s n → addable eid pipe (Pipe_get_recv_priority pipe) (pipes n) →
  Bus_inv (mkBus (Inner_add_pipe eid pipe n) (Some s)).
Proof.
  intros [Hr Hs] Ha. exists s. split; [done|]. split; [by apply routed_insert|].
  destruct s as [|id t|]; [done| |done]. simpl in *.
  destruct (decide (eid = id)) as [->|Hne]; [by rewrite lookup_insert_eq|by rewrite lookup_insert_ne].
Qed.

Lemma bus_ack_good eid raw msg n s :
  state_ok s n → transition (IRecvAck eid raw) (State_pending s) (State_on_recv_ack s n eid msg).
Proof.
  intros Hs. destruct s as [|id t|t]; cbn [State_on_recv_ack]; [by apply good_stay| |by apply good_stay].
  case_bool_decide; [|by apply good_stay].
  eapply (good_reply _ _ _ _ _ KRecv t (ReplyRecv msg) Idle n); [auto|done|by destruct Hs|done|].
  intros h. unfold Inner_on_recv_ack, send_reply. mrun. by rewrite app_nil_r.
Qed.

Lemma bus_timeout_good n s t :
  state_ok s n → State_pending s = Some (KRecv, t) →
  transition IRecvTimeout (State_pending s) (State_on_recv_timeout s n).
Proof. intros [Hr _] ->. eapply (good_expire _ _ _ _ _ _ _ Idle n); done. Qed.

Lemma bus_ready_good eid n s :
  state_ok s n → transition (IRecvReady eid) (State_pending s) (State_on_recv_ready s n eid).
Proof.
  intros [Hr Hs]. unfold State_on_recv_ready, Inner_on_recv_ready.
  destruct (routed_activate _ _ eid Hr) as (fq' & -> & Hr').
  eapply good_bind; [done|].
  destruct s as [|id t|t]; [by apply good_stay|by apply good_stay|apply bus_recv_good; auto].
Qed.

Lemma bus_not_ready_good eid n s :
  state_ok s n →
  transition (IRecvNotReady eid) (State_pending s) (State_on_recv_not_ready s n eid).
Proof.
  intros [Hr Hs]. unfold State_on_recv_not_ready, Inner_on_recv_not_ready.
  destruct (routed_deactivate _ _ eid Hr) as (fq' & -> & Hr' & Hpk).
  eapply good_bind; [done|]. apply good_stay; [|done]. split; [done|]. destruct s; [done..|]. by apply Hpk.
Qed.

(** What a send emits: the raw message to every ready pipe but the originator's,
    then the reply. *)
Definition destinations (self : Inner) (oid : option EndpointId) (h : trace) : list EndpointId :=
  filter (λ id, Some id ≠ oid) (drain_set h (bc self)).

Definition after_send (self : Inner) (oid : option EndpointId) : gset EndpointId :=
  match oid with
  | Some except => if bool_decide (except ∈ bc self) then {[except]} else ∅
  | None => ∅
  end.

Lemma Inner_send_run raw oid t n h :
  Inner_send raw oid t n h =
  Done (mkInner (pipes n) (after_send n oid) (fq n))
       (((λ id, NetSend id raw) <$> reached (pipes n) (destinations n oid h)) ++
        SendReply ReplySend :: cancel_trace t).
Proof.
  unfold Inner_send, Inner_send_to_all, Inner_send_to_all_except, send_to_all, send_to_all_except,
    history, send_reply, destinations, after_send.
  assert (Hall : (∀ x, x ∈ bc n → Some x ≠ oid) →
    filter (λ id, Some id ≠ oid) (drain_set h (bc n)) = drain_set h (bc n)).
  { intros Hx. apply filter_all. intros x Hin. apply Hx. by apply elem_of_drain in Hin. }
  destruct oid as [except|]; [case_bool_decide|]; mrun; rewrite !app_nil_r, send_each_run; mrun;
    rewrite ?app_nil_r.
  - do 5 f_equal. apply list_filter_iff. intros x. naive_solver.
  - rewrite Hall; [done|]. naive_solver.
  - by rewrite Hall.
Qed.

Lemma bus_send_good n m raw oid t :
  state_ok Idle n → transition (ISend m t) (State_pending Idle) (State_send Idle n raw oid t).
Proof.
  intros Hs h. unfold State_send. rewrite bind_run, Inner_send_run. mrun.
  eexists Idle, _, _. split; [done|]. split; [by destruct Hs|]. rewrite app_nil_r. split.
  - apply mute_app; [apply mute_broadcast|apply cancel_trace_mute].
  - apply contract_before; [|apply silent_broadcast]. eapply (contract_reply _ _ _ KSend); auto.
Qed.

Lemma Bus_step_ok i self h :
  Bus_inv self → Bus_guard i self = true → allowed i (Bus_pending self) = true →
  ∃ self' out, step i self h = Done self' out ∧ Bus_inv self' ∧ announced self out self' ∧
    contract [] (Bus_pending self) i out (Bus_pending self').
Proof.
  destruct self as [n os]. intros (s & Hos & Hs) Hg Ha. cbn [inner state] in *. subst os.
  change (Bus_pending (mkBus n (Some s))) with (State_pending s) in *.
  assert (Hkeep : ∀ i, request i = None → transition i (State_pending s) (mret (s, n)))
    by (intros; by apply good_stay).
  destruct i as [eid pipe|eid|msg t|eid| |eid|eid|t|eid msg| |eid|eid|opt|task|]; simpl step;
    try (apply bus_apply_ok; by apply Hkeep).
  - eexists _, []. split; [done|]. split; [|split; [done|by apply contract_quiet]].
    apply bus_add_ok; [done..|]. by apply bool_decide_eq_true in Hg.
  - destruct (bus_remove_ok eid n s h) as (self' & o & Hrun & Hi & Hc); [done..|].
    eexists _, _. rewrite bind_run, Hrun. mrun. split; [done|]. by rewrite app_nil_r.
  - destruct s; try done. unfold Bus_send. destruct (encode msg) as [raw oid].
    by apply bus_apply_ok, bus_send_good.
  - by apply bus_apply_ok, good_stay.
  - by apply bus_apply_ok, good_stay.
  - destruct s; try done. apply bus_apply_ok, bus_recv_good; [apply Hs|auto].
  - by apply bus_apply_ok, bus_ack_good.
  - destruct s; try done; by eapply bus_apply_ok, bus_timeout_good.
  - by apply bus_apply_ok, bus_ready_good.
  - by apply bus_apply_ok, bus_not_ready_good.
  - eexists _, []. split; [done|]. split; [by exists s|split; [done|by apply contract_quiet]].
  - eexists _, []. split; [done|]. split; [by exists s|split; [done|by apply contract_quiet]].
  - eexists _, []. split; [done|]. split; [by exists s|split; [done|by apply contract_quiet]].
Qed.

#[export] Instance Bus_contract : Contract Bus := {|
  inv := Bus_inv;
  guard := Bus_guard;
  pending := Bus_pending;
  own_timers _ := [];
  step_ok := Bus_step_ok
|}.

Lemma Bus_from_inv : Bus_inv Bus_from.
Proof. exists Idle. split; [done|]. split; [apply routed_new|done]. Qed.

(** A fresh BUS socket keeps the facade's contract in every disciplined
    conversation: no panic, one reply of its kind per request, readiness announced
    as it is, and a pending recv is asked of a pipe the socket has, or waits with
    no pipe ready. *)
Theorem bus_conversation ins :
  disciplined ins Bus_from [] = true → conversation Bus_from ins.
Proof. apply conversation_ok; [apply Bus_from_inv|done]. Qed.

(** ** Forwarding *)

Lemma encode_decode raw eid :
  header raw = [] → in_range 32 (EndpointId_into eid) → encode (decode raw eid) = (raw, Some eid).
Proof.
  intros Hh Hr. destruct raw as [hd bd], eid as [e]. simpl in *. subst hd.
  unfold encode, decode. cbn [header body get_header EndpointId_into from_header_and_body app].
  unfold wrap. rewrite Z.mod_small by (by unfold in_range in Hr).
  pose proof (write_u32_length e Hr) as Hl.
  rewrite bool_decide_false by lia. unfold from_header_and_body, Message_split. cbn [header body].
  rewrite (drop_ge (be_write_u32 e)), (take_ge (be_write_u32 e)) by lia.
  rewrite <- (app_nil_r (be_write_u32 e)), read_write_u32 by done. done.
Qed.

Lemma Bus_send_sends self msg raw oid timeout h :
  Bus_inv self → encode msg = (raw, oid) →
  ∃ self' out, Bus_send msg timeout self h = Done self' out ∧ NoDup (sends out).*1 ∧
    ∀ id m, (id, m) ∈ sends out ↔
      m = raw ∧ Some id ≠ oid ∧ id ∈ bc (inner self) ∧ is_Some (pc_pipes (pipes (inner self)) !! id).
Proof.
  destruct self as [n os]. intros (s & Hos & Hr & Hs) He. cbn [inner state] in *. subst os.
  unfold Bus_send. rewrite He. unfold apply, State_send. cbn [inner state].
  mrun. rewrite Inner_send_run. mrun. eexists _, _. split; [done|].
  rewrite !app_nil_r, !sends_app. cbn [sends].
  rewrite cancel_trace_sends, send_change_sends, recv_change_sends, !app_nil_r.
  apply (broadcast_sends _ _ (λ id, Some id ≠ oid)). apply Hr.
Qed.

(** C28: A message a BUS socket received from a pipe and sends on (as a device
    does) goes, unchanged, exactly once to every ready pipe but the one it came
    from, and to no other. *)
Theorem bus_forwards ins self out raw eid timeout :
  header raw = [] → in_range 32 (EndpointId_into eid) →
  disciplined ins Bus_from [] = true → drive ins Bus_from [] = Done self out →
  ∃ self' out', Bus_send (decode raw eid) timeout self out = Done self' out' ∧
    NoDup (sends out').*1 ∧
    ∀ id m, (id, m) ∈ sends out' ↔
      m = raw ∧ id ≠ eid ∧ id ∈ bc (inner self) ∧ is_Some (pc_pipes (pipes (inner self)) !! id).
Proof.
  intros Hh Hr Hd Hrun.
  destruct (drive_ok (H0 := Bus_contract) ins Bus_from [] Bus_from_inv Hd) as (s' & o' & Hrun' & Hinv & _).
  rewrite Hrun in Hrun'. injection Hrun' as <- <-.
  destruct (Bus_send_sends self (decode raw eid) raw (Some eid) timeout out Hinv)
    as (self' & out' & Hs & Hn & Hi); [by apply encode_decode|].
  exists self', out'. split; [done|]. split; [done|]. intros id m. rewrite Hi. naive_solver.
Qed.

End contract.

Section witness.
#[local] Existing Instance be_ref.
#[local] Existing Instance ref_env.

Definition ex_pipe (n : Z) : Pipe :=
  Pipe_new_accepted (EndpointId_from n) (mkEndpointDesc 8 8 false 1024).
Definition ex_id (n : Z) : EndpointId := EndpointId_from n.
Definition ex_run : list input :=
  [IAddPipe (ex_id 1) (ex_pipe 1); IAddPipe (ex_id 2) (ex_pipe 2); IAddPipe (ex_id 3) (ex_pipe 3);
   ISendReady (ex_id 1); ISendReady (ex_id 2); ISendReady (ex_id 3); ISendNotReady (ex_id 3);
   IRecv (Some (Scheduled_from 7)); IRecvReady (ex_id 1); IRecvAck (ex_id 1) (from_body [42])].

Example bus_ex_run_trace :
  emitted (drive (ex_run ++ [ISend (mkMessage [0; 0; 0; 1] [42]) None]) Bus_from []) =
  [Raise (CanSend true); NetRecv (ex_id 1);
   SendReply (ReplyRecv (mkMessage [0; 0; 0; 1] [42])); SchCancel (Scheduled_from 7);
   NetSend (ex_id 2) (from_body [42]); SendReply ReplySend].
Proof. vm_compute. reflexivity. Qed.

Lemma bus_conversation_witness : conversation Bus_from ex_run.
Proof. apply (bus_conversation ex_run). vm_compute. reflexivity. Defined.

Definition ex_bus : Bus :=
  default Bus_from (returned (drive ex_run Bus_from [])).

Lemma bus_forwards_witness :
  ∃ self' out', Bus_send (decode (from_body [42]) (ex_id 1)) None ex_bus
      (emitted (drive ex_run Bus_from [])) = Done self' out' ∧
    NoDup (sends out').*1 ∧
    ∀ id m, (id, m) ∈ sends out' ↔
      m = from_body [42] ∧ id ≠ ex_id 1 ∧ id ∈ bc (inner ex_bus) ∧
      is_Some (pc_pipes (pipes (inner ex_bus)) !! id).
Proof.
  apply (bus_forwards ex_run); [reflexivity|done|vm_compute; reflexivity|].
  vm_compute. reflexivity.
Defined.
End witness.
