(* ===== verification/Publ.v ===== *)
(** * PUB (src/proto/publ.rs)

    Broadcast: a message goes to the pipes that are ready, the others miss it; a
    send is acknowledged at once. *)

From S2P Require Import Prelude Core Context Priolist Pipes Protocol.

Record Pub : Type := mkPub { pipes : PipeCollection; bc : gset EndpointId }.

Section pub.
Context `{Env}.

Definition Pub_from : Pub := mkPub PipeCollection_new ∅.

(** [self.bc.is_empty()] *)
Definition is_empty (s : gset EndpointId) : bool := bool_decide (s = ∅).

Definition Pub_add_pipe (eid : EndpointId) (pipe : Pipe) (self : Pub) : P Pub :=
  mret (mkPub (PipeCollection_insert eid pipe (pipes self)).2 (bc self)).

Definition Pub_remove_pipe (eid : EndpointId) (self : Pub) : P (option Pipe * Pub) :=
  let bc := bc self ∖ {[eid]} in
  (if is_empty bc then ctx_raise (CanSend false) else mret ());;
  let '(pipe, pipes) := PipeCollection_remove eid (pipes self) in
  mret (pipe, mkPub pipes bc).

Definition Pub_send (msg : Message) (timeout : Timeout) (self : Pub) : P Pub :=
  bc ← send_to_all (bc self) (pipes self) msg;
  ctx_raise (CanSend false);;
  send_reply ReplySend;;
  cancel_opt timeout;;
  mret (mkPub (pipes self) bc).

Definition Pub_on_send_ready (eid : EndpointId) (self : Pub) : P Pub :=
  (if is_empty (bc self) then ctx_raise (CanSend true) else mret ());;
  mret (mkPub (pipes self) ({[eid]} ∪ bc self)).

Definition Pub_on_send_not_ready (eid : EndpointId) (self : Pub) : P Pub :=
  let was_empty := is_empty (bc self) in
  let bc := bc self ∖ {[eid]} in
  let is_empty := is_empty bc in
  (if xorb was_empty is_empty then ctx_raise (CanSend false) else mret ());;
  mret (mkPub (pipes self) bc).

Definition Pub_recv (timeout : Timeout) (self : Pub) : P Pub :=
  send_reply (ReplyErr (other_io_error "Recv is not supported by pub protocol"));;
  cancel_opt timeout;;
  mret self.

Definition Pub_is_send_ready (self : Pub) : bool := negb (is_empty (bc self)).

Definition Pub_close (self : Pub) : P Pub :=
  pipes ← close_all (pipes self); mret (mkPub pipes (bc self)).

#[export] Instance Pub_protocol : Protocol Pub := {|
  proto_id _ := PUB;
  peer_id _ := SUB;
  add_pipe := Pub_add_pipe;
  remove_pipe := Pub_remove_pipe;
  send := Pub_send;
  on_send_ack _ self := mret self;
  on_send_timeout self := mret self;
  on_send_ready := Pub_on_send_ready;
  on_send_not_ready := Pub_on_send_not_ready;
  recv := Pub_recv;
  on_recv_ack _ _ self := mret self;
  on_recv_timeout self := mret self;
  on_recv_ready _ self := mret self;
  on_recv_not_ready _ self := mret self;
  is_send_ready := Pub_is_send_ready;
  is_recv_ready _ := false;
  set_option := default_set_option;
  on_timer_tick := default_on_timer_tick;
  on_device_plugged := default_on_device_plugged;
  close := Pub_close
|}.

End pub.

(** ** The contract: requests never wait *)

Section contract.
Context `{Env}.

Definition Pub_inv (self : Pub) : Prop := keyed (pipes self).

Definition Pub_guard (i : input) (self : Pub) : bool :=
  match i with IAddPipe eid pipe => bool_decide (pipe_id pipe = eid) | _ => true end.

Lemma empty_minus (s : gset EndpointId) eid : is_empty s = true → is_empty (s ∖ {[eid]}) = true.
Proof. unfold is_empty. rewrite !bool_decide_eq_true. intros ->. set_solver. Qed.

Lemma nonempty_add (s : gset EndpointId) eid : is_empty ({[eid]} ∪ s) = false.
Proof. unfold is_empty. apply bool_decide_eq_false. set_solver. Qed.

Lemma Pub_step_ok i self h :
  Pub_inv self → Pub_guard i self = true → allowed i None = true →
  ∃ self' out, step i self h = Done self' out ∧ Pub_inv self' ∧ announced self out self' ∧
    contract [] None i out None.
Proof.
  intros Hk Hg Ha.
  destruct i as [eid pipe|eid|msg t|eid| |eid|eid|t|eid msg| |eid|eid|opt|task|]; try done;
    try (by eexists self, []; split_and!; auto using contract_quiet).
  - eexists _, []. split; [done|]. apply bool_decide_eq_true in Hg.
    split; [by apply keyed_insert|]. split; [done|by apply contract_quiet].
  - exists (mkPub (PipeCollection_remove eid (pipes self)).2 (bc self ∖ {[eid]})), (if is_empty (bc self ∖ {[eid]}) then [Raise (CanSend false)] else []).
    split; [|split; [by apply (keyed_remove eid)|split; [split|]]].
    + simpl. unfold Pub_remove_pipe, ctx_raise. destruct (is_empty _); mrun; done.
    + simpl. unfold Pub_is_send_ready. simpl. destruct (is_empty (bc self ∖ {[eid]})) eqn:He; [done|].
      simpl. destruct (is_empty (bc self)) eqn:He2; [|done].
      by rewrite empty_minus in He.
    + simpl. by destruct (is_empty _).
    + apply contract_quiet; [done|]. by destruct (is_empty _).
  - eexists (mkPub (pipes self) ∅), _. split; [|split; [done|split; [split|]]].
    + simpl. unfold Pub_send, ctx_raise, send_reply. mrun. rewrite send_all_run. mrun. done.
    + simpl. rewrite send_view_app, app_nil_r. simpl. by rewrite mute_send_view by apply cancel_trace_mute.
    + simpl. rewrite recv_view_app, app_nil_r. simpl.
      by rewrite !mute_recv_view by (apply cancel_trace_mute || apply mute_broadcast).
    + apply contract_before; [|apply silent_broadcast]. apply (contract_before _ _ _ _ _ [_]); [|done].
      rewrite app_nil_r. eapply (contract_reply _ _ _ KSend); auto.
  - exists (mkPub (pipes self) ({[eid]} ∪ bc self)), (if is_empty (bc self) then [Raise (CanSend true)] else []).
    split; [|split; [by apply Hk|split; [split|]]].
    + simpl. unfold Pub_on_send_ready, ctx_raise. destruct (is_empty _); mrun; done.
    + simpl. unfold Pub_is_send_ready. simpl. rewrite nonempty_add. by destruct (is_empty _).
    + simpl. by destruct (is_empty _).
    + apply contract_quiet; [done|]. by destruct (is_empty _).
  - exists (mkPub (pipes self) (bc self ∖ {[eid]})),
      (if xorb (is_empty (bc self)) (is_empty (bc self ∖ {[eid]})) then [Raise (CanSend false)] else []).
    split; [|split; [by apply Hk|split; [split|]]].
    + simpl. unfold Pub_on_send_not_ready, ctx_raise. destruct (xorb _ _); mrun; done.
    + simpl. unfold Pub_is_send_ready. simpl. destruct (is_empty (bc self)) eqn:He.
      * rewrite (empty_minus _ eid He). reflexivity.
      * by destruct (is_empty (bc self ∖ {[eid]})).
    + simpl. by destruct (xorb _ _).
    + apply contract_quiet; [done|]. by destruct (xorb _ _).
  - eexists self, (SendReply _ :: cancel_trace t). split; [|split; [done|split; [split|]]].
    + simpl. unfold Pub_recv, send_reply. mrun. by rewrite app_nil_r.
    + simpl. by rewrite mute_send_view by apply cancel_trace_mute.
    + simpl. by rewrite mute_recv_view by apply cancel_trace_mute.
    + eapply (contract_reply _ _ _ KRecv); auto.
Qed.

#[export] Instance Pub_contract : Contract Pub := {|
  inv := Pub_inv;
  guard := Pub_guard;
  pending _ := None;
  own_timers _ := [];
  step_ok := Pub_step_ok
|}.

(** A fresh PUB socket keeps the facade's contract in every disciplined
    conversation, and never leaves a request pending. *)
Theorem pub_conversation ins :
  disciplined ins Pub_from [] = true →
  conversation Pub_from ins ∧
  ∃ self out, drive ins Pub_from [] = Done self out ∧ length (replies out) = length (kinds ins).
Proof.
  intros Hd. assert (Hc : conversation Pub_from ins)
    by (by apply (conversation_ok (H0 := Pub_contract)); [apply keyed_new| |]).
  split; [done|]. destruct Hc as (s & out & Hr & _ & _ & ks & Hks & Hf).
  exists s, out. split; [done|]. simpl in Hks. rewrite app_nil_r in Hks. subst ks.
  symmetry. by apply Forall2_length in Hf.
Qed.

(** A PUB send hands the message, unchanged, exactly once to every ready pipe
    of the socket and to no other, then acknowledges it; afterwards no pipe is
    ready until it says so again. *)
Theorem pub_broadcasts ins self out msg timeout :
  disciplined ins Pub_from [] = true → drive ins Pub_from [] = Done self out →
  ∃ self' out', Pub_send msg timeout self out = Done self' out' ∧
    replies out' = [ReplySend] ∧ bc self' = ∅ ∧ NoDup (sends out').*1 ∧
    ∀ id m, (id, m) ∈ sends out' ↔
      m = msg ∧ id ∈ bc self ∧ is_Some (pc_pipes (pipes self) !! id).
Proof.
  intros Hd Hrun.
  destruct (drive_ok (H0 := Pub_contract) ins Pub_from [] keyed_new Hd) as (s' & o' & Hrun' & Hk & _).
  rewrite Hrun in Hrun'. injection Hrun' as <- <-.
  destruct (broadcast_sends (pipes self) (bc self) (λ _, True) msg out Hk) as [Hn Hi].
  eexists (mkPub (pipes self) ∅), _. split; [|split; [|split; [done|]]].
  - unfold Pub_send, ctx_raise, send_reply. mrun. rewrite send_all_run. mrun. done.
  - rewrite app_nil_r, replies_app, (proj1 (silent_broadcast _ _)). simpl. by rewrite cancel_trace_replies.
  - rewrite app_nil_r, sends_app. cbn [sends]. rewrite cancel_trace_sends, app_nil_r.
    split; [done|]. intros id m. rewrite Hi. tauto.
Qed.

End contract.

Section witness.
#[local] Existing Instance ref_env.

Definition ex_id (n : Z) : EndpointId := EndpointId_from n.
Definition ex_pipe (n : Z) : Pipe := Pipe_new_accepted (ex_id n) (mkEndpointDesc 8 8 false 1024).
Definition ex_run : list input :=
  [IAddPipe (ex_id 1) (ex_pipe 1); IAddPipe (ex_id 2) (ex_pipe 2); ISendReady (ex_id 1);
   ISend (from_body [7]) None; ISendReady (ex_id 1); ISendReady (ex_id 2)].

Lemma pub_conversation_witness :
  conversation Pub_from ex_run ∧
  ∃ self out, drive ex_run Pub_from [] = Done self out ∧ length (replies out) = length (kinds ex_run).
Proof. apply (pub_conversation ex_run). vm_compute. reflexivity. Defined.

Definition ex_pub : Pub := default Pub_from (returned (drive ex_run Pub_from [])).

Lemma pub_broadcasts_witness :
  ∃ self' out', Pub_send (from_body [9]) None ex_pub (emitted (drive ex_run Pub_from [])) =
      Done self' out' ∧
    replies out' = [ReplySend] ∧ bc self' = ∅ ∧ NoDup (sends out').*1 ∧
    ∀ id m, (id, m) ∈ sends out' ↔
      m = from_body [9] ∧ id ∈ bc ex_pub ∧ is_Some (pc_pipes (pipes ex_pub) !! id).
Proof. apply (pub_broadcasts ex_run); vm_compute; reflexivity. Defined.

Example ex_pub_sends :
  sends (emitted (Pub_send (from_body [9]) None ex_pub [])) =
  [(ex_id 2, from_body [9]); (ex_id 1, from_body [9])].
Proof. vm_compute. reflexivity. Qed.
End witness.
