(* ===== verification/Pair.v ===== *)
(** * PAIR (src/proto/pair.rs)

    One peer at a time: the first pipe is kept, later ones are closed as they
    come.  A send or recv whose pipe goes away waits for the next one. *)

From S2P Require Import Prelude Core Context Priolist Pipes Protocol.

(** ** State *)

Inductive State : Type :=
| Idle
| Sending (eid : EndpointId) (msg : Message) (timeout : Timeout)
| SendOnHold (msg : Message) (timeout : Timeout)
| Receiving (eid : EndpointId) (timeout : Timeout)
| RecvOnHold (timeout : Timeout).

Record Inner : Type := mkInner {
  pipe : option (EndpointId * Pipe);
  send_ready : bool;
  recv_ready : bool
}.

Record Pair : Type := mkPair { inner : Inner; state : option State }.

Section pair.
Context `{Env}.

(** ** Inner *)

Definition Inner_add_pipe (eid : EndpointId) (p : Pipe) (self : Inner) : P Inner :=
  match pipe self with
  | None => mret (mkInner (Some (eid, p)) (send_ready self) (recv_ready self))
  | Some _ => Pipe_close p;; mret self
  end.

Definition Inner_remove_pipe (eid : EndpointId) (self : Inner) : option Pipe * Inner :=
  match pipe self with
  | Some (id, p) =>
      if bool_decide (id = eid)
      then (Some p, mkInner None (send_ready self) (recv_ready self))
      else (None, mkInner (Some (id, p)) (send_ready self) (recv_ready self))
  | None => (None, self)
  end.

Definition Inner_on_pipe_removed (self : Inner) : Inner := mkInner (pipe self) false false.

Definition Inner_send (msg : Message) (self : Inner) : P (option EndpointId * Inner) :=
  if negb (send_ready self) then mret (None, self)
  else
    let self := mkInner (pipe self) false (recv_ready self) in
    match pipe self with
    | Some (eid, p) => Pipe_send msg p;; mret (Some eid, self)
    | None => mret (None, self)
    end.

(** [self.pipe.as_ref().map(|&(ref id, _)| *id) == Some(eid)] *)
Definition is_bound (eid : EndpointId) (self : Inner) : bool :=
  bool_decide (fst <$> pipe self = Some eid).

Definition Inner_on_send_ready (eid : EndpointId) (self : Inner) : Inner :=
  if is_bound eid self then mkInner (pipe self) true (recv_ready self) else self.
Definition Inner_on_send_not_ready (eid : EndpointId) (self : Inner) : Inner :=
  if is_bound eid self then mkInner (pipe self) false (recv_ready self) else self.

Definition Inner_on_send_ack (timeout : Timeout) (self : Inner) : P () :=
  send_reply ReplySend;; cancel_opt timeout.
Definition Inner_on_send_timeout (self : Inner) : P () :=
  send_reply (ReplyErr (timedout_io_error "Send timed out")).

Definition Inner_recv (self : Inner) : P (option EndpointId * Inner) :=
  if negb (recv_ready self) then mret (None, self)
  else
    let self := mkInner (pipe self) (send_ready self) false in
    match pipe self with
    | Some (eid, p) => Pipe_recv p;; mret (Some eid, self)
    | None => mret (None, self)
    end.

Definition Inner_on_recv_ready (eid : EndpointId) (self : Inner) : Inner :=
  if is_bound eid self then mkInner (pipe self) (send_ready self) true else self.
Definition Inner_on_recv_not_ready (eid : EndpointId) (self : Inner) : Inner :=
  if is_bound eid self then mkInner (pipe self) (send_ready self) false else self.

Definition Inner_on_recv_ack (timeout : Timeout) (msg : Message) (self : Inner) : P () :=
  send_reply (ReplyRecv msg);; cancel_opt timeout.
Definition Inner_on_recv_timeout (self : Inner) : P () :=
  send_reply (ReplyErr (timedout_io_error "Recv timed out")).

Definition Inner_close (self : Inner) : P Inner :=
  if_some (pipe self) (λ ep, Pipe_close ep.2;; mret ());;
  mret (mkInner None (send_ready self) (recv_ready self)).

(** ** State transitions *)

Definition State_on_pipe_removed (self : State) (inner : Inner) (eid : EndpointId)
    : P (State * Inner) :=
  let inner := Inner_on_pipe_removed inner in
  match self with
  | Sending id msg timeout =>
      if bool_decide (id = eid) then mret (SendOnHold msg timeout, inner)
      else mret (Sending id msg timeout, inner)
  | Receiving id timeout =>
      if bool_decide (id = eid) then mret (RecvOnHold timeout, inner)
      else mret (Receiving id timeout, inner)
  | any => mret (any, inner)
  end.

Definition State_send (self : State) (inner : Inner) (msg : Message) (timeout : Timeout)
    : P (State * Inner) :=
  '(sent, inner) ← Inner_send msg inner;
  match sent with
  | Some eid => mret (Sending eid msg timeout, inner)
  | None => mret (SendOnHold msg timeout, inner)
  end.

Definition State_on_send_ack (self : State) (inner : Inner) (eid : EndpointId)
    : P (State * Inner) :=
  match self with
  | Sending id msg timeout =>
      if bool_decide (id = eid) then Inner_on_send_ack timeout inner;; mret (Idle, inner)
      else mret (Sending id msg timeout, inner)
  | any => mret (any, inner)
  end.

Definition State_on_send_timeout (self : State) (inner : Inner) : P (State * Inner) :=
  Inner_on_send_timeout inner;; mret (Idle, inner).

Definition State_on_send_ready (self : State) (inner : Inner) (eid : EndpointId)
    : P (State * Inner) :=
  let inner := Inner_on_send_ready eid inner in
  match self with
  | SendOnHold msg timeout => State_send Idle inner msg timeout
  | any => mret (any, inner)
  end.

Definition State_on_send_not_ready (self : State) (inner : Inner) (eid : EndpointId)
    : P (State * Inner) :=
  mret (self, Inner_on_send_not_ready eid inner).

Definition State_recv (self : State) (inner : Inner) (timeout : Timeout) : P (State * Inner) :=
  '(asked, inner) ← Inner_recv inner;
  match asked with
  | None => mret (RecvOnHold timeout, inner)
  | Some eid => mret (Receiving eid timeout, inner)
  end.

Definition State_on_recv_ack (self : State) (inner : Inner) (eid : EndpointId) (msg : Message)
    : P (State * Inner) :=
  match self with
  | Receiving id timeout =>
      if bool_decide (id = eid)
      then Inner_on_recv_ack timeout msg inner;; mret (Idle, inner)
      else mret (Receiving id timeout, inner)
  | any => mret (any, inner)
  end.

Definition State_on_recv_timeout (self : State) (inner : Inner) : P (State * Inner) :=
  Inner_on_recv_timeout inner;; mret (Idle, inner).

Definition State_on_recv_ready (self : State) (inner : Inner) (eid : EndpointId)
    : P (State * Inner) :=
  let inner := Inner_on_recv_ready eid inner in
  match self with
  | RecvOnHold timeout => State_recv Idle inner timeout
  | any => mret (any, inner)
  end.

Definition State_on_recv_not_ready (self : State) (inner : Inner) (eid : EndpointId)
    : P (State * Inner) :=
  mret (self, Inner_on_recv_not_ready eid inner).

(** ** The protocol *)

Definition apply (transition : State → Inner → P (State * Inner)) (self : Pair) : P Pair :=
  match state self with
  | Some old_state =>
      let was_send_ready := send_ready (inner self) in
      let was_recv_ready := recv_ready (inner self) in
      '(new_state, inner) ← transition old_state (inner self);
      check_send_ready_change was_send_ready (send_ready inner);;
      check_recv_ready_change was_recv_ready (recv_ready inner);;
      mret (mkPair inner (Some new_state))
  | None => mret self
  end.

Definition Pair_from : Pair := mkPair (mkInner None false false) (Some Idle).

Definition Pair_add_pipe (eid : EndpointId) (p : Pipe) (self : Pair) : P Pair :=
  inner ← Inner_add_pipe eid p (inner self); mret (mkPair inner (state self)).

Definition Pair_remove_pipe (eid : EndpointId) (self : Pair) : P (option Pipe * Pair) :=
  let '(pipe, inner) := Inner_remove_pipe eid (inner self) in
  let self := mkPair inner (state self) in
  match pipe with
  | Some p =>
      self ← apply (λ s inner, State_on_pipe_removed s inner eid) self;
      mret (Some p, self)
  | None => mret (None, self)
  end.

Definition Pair_close (self : Pair) : P Pair :=
  inner ← Inner_close (inner self); mret (mkPair inner (state self)).

#[export] Instance Pair_protocol : Protocol Pair := {|
  proto_id _ := PAIR;
  peer_id _ := PAIR;
  add_pipe := Pair_add_pipe;
  remove_pipe := Pair_remove_pipe;
  send msg timeout := apply (λ s inner, State_send s inner msg timeout);
  on_send_ack eid := apply (λ s inner, State_on_send_ack s inner eid);
  on_send_timeout := apply State_on_send_timeout;
  on_send_ready eid := apply (λ s inner, State_on_send_ready s inner eid);
  on_send_not_ready eid := apply (λ s inner, State_on_send_not_ready s inner eid);
  recv timeout := apply (λ s inner, State_recv s inner timeout);
  on_recv_ack eid msg := apply (λ s inner, State_on_recv_ack s inner eid msg);
  on_recv_timeout := apply State_on_recv_timeout;
  on_recv_ready eid := apply (λ s inner, State_on_recv_ready s inner eid);
  on_recv_not_ready eid := apply (λ s inner, State_on_recv_not_ready s inner eid);
  is_send_ready self := send_ready (inner self);
  is_recv_ready self := recv_ready (inner self);
  set_option := default_set_option;
  on_timer_tick := default_on_timer_tick;
  on_device_plugged := default_on_device_plugged;
  close := Pair_close
|}.

End pair.

(** ** The contract

    Readiness is that of the pipe held; a request under way is on that pipe; a
    request waits only while the pipe is not ready for it. *)

Section contract.
Context `{Env}.

Definition bound (id : EndpointId) (self : Inner) : Prop := ∃ p, pipe self = Some (id, p).

Definition state_ok (s : State) (self : Inner) : Prop :=
  (∀ id p, pipe self = Some (id, p) → pipe_id p = id) ∧
  (send_ready self = true ∨ recv_ready self = true → is_Some (pipe self)) ∧
  match s with
  | Idle => True
  | Sending eid _ _ | Receiving eid _ => bound eid self
  | SendOnHold _ _ => send_ready self = false
  | RecvOnHold _ => recv_ready self = false
  end.

Definition Pair_inv (self : Pair) : Prop :=
  ∃ s, state self = Some s ∧ state_ok s (inner self).

Definition Pair_guard (i : input) (self : Pair) : bool :=
  match i with IAddPipe eid p => bool_decide (pipe_id p = eid) | _ => true end.

Definition State_pending (s : State) : option (kind * Timeout) :=
  match s with
  | Idle => None
  | Sending _ _ t | SendOnHold _ t => Some (KSend, t)
  | Receiving _ t | RecvOnHold t => Some (KRecv, t)
  end.

Definition Pair_pending (self : Pair) : option (kind * Timeout) := state self ≫= State_pending.

Abbreviation transition := (good state_ok State_pending []).

Lemma pair_apply_ok i t s n h :
  transition i (State_pending s) (t s n) →
  ∃ self' o, apply t (mkPair n (Some s)) h = Done self' o ∧ Pair_inv self' ∧
    announced (mkPair n (Some s)) o self' ∧
    contract [] (State_pending s) i o (Pair_pending self').
Proof.
  intros Hg. destruct (Hg h) as (s' & n' & o & Hrun & Hs & Hm & Hc).
  eexists (mkPair n' (Some s')), (o ++ _). unfold apply. cbn [state inner].
  rewrite bind_run, Hrun. mrun. rewrite app_nil_r. split; [done|]. split; [by exists s'|].
  split; [|apply contract_after; auto].
  split; cbn [is_send_ready is_recv_ready Pair_protocol inner]; views.
Qed.

Definition inner_ok (n : Inner) : Prop := state_ok Idle n.

Lemma state_inner s n : state_ok s n → inner_ok n.
Proof. intros (Hk & Hr & _). by split_and!. Qed.

Lemma pair_send_good i p s n msg t :
  inner_ok n →
  (p = None ∧ request i = Some (KSend, t) ∨ p = Some (KSend, t) ∧ request i = None) →
  transition i p (State_send s n msg t).
Proof.
  intros (Hk & Hr & _) Hp. unfold State_send, Inner_send.
  destruct (send_ready n) eqn:Hsr; cbn [negb].
  - destruct (Hr (or_introl eq_refl)) as [[eid q] Hq]. cbn [pipe]. rewrite Hq.
    eapply (good_take _ _ _ _ _ KSend t (Sending eid msg t) _ [NetSend eid msg]);
      [done| |done..|intros h; mrun].
    2: { unfold Pipe_send, Endpoint_send, ctx_send. mrun. by rewrite (Hk _ _ Hq). }
    split_and!; simpl; [by intros ? ? [= <- <-]; apply Hk|done|by exists q].
  - eapply (good_take _ _ _ _ _ KSend t (SendOnHold msg t) n []); [done| |done..].
    split; [exact Hk|split; [by rewrite Hsr|done]].
Qed.

Lemma pair_recv_good i p s n t :
  inner_ok n →
  (p = None ∧ request i = Some (KRecv, t) ∨ p = Some (KRecv, t) ∧ request i = None) →
  transition i p (State_recv s n t).
Proof.
  intros (Hk & Hr & _) Hp. unfold State_recv, Inner_recv.
  destruct (recv_ready n) eqn:Hrr; cbn [negb].
  - destruct (Hr (or_intror eq_refl)) as [[eid q] Hq]. cbn [pipe]. rewrite Hq.
    eapply (good_take _ _ _ _ _ KRecv t (Receiving eid t) _ [NetRecv eid]);
      [done| |done..|intros h; mrun].
    2: { unfold Pipe_recv, Endpoint_recv, ctx_recv. mrun. by rewrite (Hk _ _ Hq). }
    split_and!; simpl; [by intros ? ? [= <- <-]; apply Hk|done|by exists q].
  - eapply (good_take _ _ _ _ _ KRecv t (RecvOnHold t) n []); [done| |done..].
    split; [exact Hk|split; [by rewrite Hrr|done]].
Qed.

Lemma pair_removed_good eid n s p :
  pipe n = Some (eid, p) → state_ok s n →
  transition (IRemovePipe eid) (State_pending s)
    (State_on_pipe_removed s (mkInner None (send_ready n) (recv_ready n)) eid).
Proof.
  intros Hp (Hk & Hr & Hs). unfold State_on_pipe_removed, Inner_on_pipe_removed. cbn [pipe].
  assert (Hempty : inner_ok (mkInner None false false)) by (split_and!; [done|by intros []|done]).
  destruct Hempty as (H1 & H2 & _).
  destruct s as [|id msg t|msg t|id t|t]; try (apply good_stay; [by split_and!|done]).
  - destruct Hs as [q Hq]. rewrite Hp in Hq. injection Hq as <- <-. rewrite bool_decide_true by done.
    apply (good_take _ _ _ _ _ KSend t (SendOnHold msg t) (mkInner None false false) []);
      [auto|by split_and!|done..].
  - destruct Hs as [q Hq]. rewrite Hp in Hq. injection Hq as <- <-. rewrite bool_decide_true by done.
    apply (good_take _ _ _ _ _ KRecv t (RecvOnHold t) (mkInner None false false) []);
      [auto|by split_and!|done..].
Qed.

Lemma send_ack_good eid n s :
  state_ok s n → transition (ISendAck eid) (State_pending s) (State_on_send_ack s n eid).
Proof.
  intros Hs. destruct s as [|id msg t|msg t|id t|t]; simpl State_on_send_ack; try by apply good_stay.
  case_bool_decide; [|by apply good_stay].
  eapply (good_reply _ _ _ _ _ KSend t ReplySend Idle n); [auto|done|by eapply state_inner|done|].
  intros h. unfold Inner_on_send_ack, send_reply. mrun. by rewrite app_nil_r.
Qed.

Lemma pair_recv_ack_good eid msg n s :
  state_ok s n → transition (IRecvAck eid msg) (State_pending s) (State_on_recv_ack s n eid msg).
Proof.
  intros Hs. destruct s as [|id m t|m t|id t|t]; simpl State_on_recv_ack; try by apply good_stay.
  case_bool_decide; [|by apply good_stay].
  eapply (good_reply _ _ _ _ _ KRecv t (ReplyRecv msg) Idle n); [auto|done|by eapply state_inner|done|].
  intros h. unfold Inner_on_recv_ack, send_reply. mrun. by rewrite app_nil_r.
Qed.

Lemma pair_send_timeout_good n s t :
  state_ok s n → State_pending s = Some (KSend, t) →
  transition ISendTimeout (State_pending s) (State_on_send_timeout s n).
Proof. intros Hs ->. eapply (good_expire _ _ _ _ _ _ _ Idle n); [done|by eapply state_inner|done..]. Qed.

Lemma pair_recv_timeout_good n s t :
  state_ok s n → State_pending s = Some (KRecv, t) →
  transition IRecvTimeout (State_pending s) (State_on_recv_timeout s n).
Proof. intros Hs ->. eapply (good_expire _ _ _ _ _ _ _ Idle n); [done|by eapply state_inner|done..]. Qed.

(** Setting the readiness of the pipe held keeps the invariant, the waiting
    request of that direction aside. *)
Lemma bound_some eid n : is_bound eid n = true → is_Some (pipe n).
Proof.
  unfold is_bound. rewrite bool_decide_eq_true. destruct (pipe n); [by eexists|done].
Qed.

Lemma pair_send_ready_good eid n s :
  state_ok s n → transition (ISendReady eid) (State_pending s) (State_on_send_ready s n eid).
Proof.
  intros (Hk & Hr & Hs). unfold State_on_send_ready, Inner_on_send_ready.
  destruct (is_bound eid n) eqn:Hb; [pose proof (bound_some _ _ Hb) as Hsome|].
  - destruct s as [|id msg t|msg t|id t|t]; try (apply good_stay; [by split_and!|done]).
    apply pair_send_good; [by split_and!|auto].
  - destruct s as [|id msg t|msg t|id t|t]; try (apply good_stay; [by split_and!|done]).
    apply pair_send_good; [by split_and!|auto].
Qed.

Lemma pair_recv_ready_good eid n s :
  state_ok s n → transition (IRecvReady eid) (State_pending s) (State_on_recv_ready s n eid).
Proof.
  intros (Hk & Hr & Hs). unfold State_on_recv_ready, Inner_on_recv_ready.
  destruct (is_bound eid n) eqn:Hb; [pose proof (bound_some _ _ Hb) as Hsome|].
  - destruct s as [|id msg t|msg t|id t|t]; try (apply good_stay; [by split_and!|done]).
    apply pair_recv_good; [by split_and!|auto].
  - destruct s as [|id msg t|msg t|id t|t]; try (apply good_stay; [by split_and!|done]).
    apply pair_recv_good; [by split_and!|auto].
Qed.

Lemma pair_send_not_ready_good eid n s :
  state_ok s n → transition (ISendNotReady eid) (State_pending s) (State_on_send_not_ready s n eid).
Proof.
  intros (Hk & Hr & Hs). unfold State_on_send_not_ready, Inner_on_send_not_ready.
  apply good_stay; [|done]. destruct (is_bound eid n); [|by split_and!].
  split_and!; [done|intros []; [done|auto]|by destruct s].
Qed.

Lemma pair_recv_not_ready_good eid n s :
  state_ok s n → transition (IRecvNotReady eid) (State_pending s) (State_on_recv_not_ready s n eid).
Proof.
  intros (Hk & Hr & Hs). unfold State_on_recv_not_ready, Inner_on_recv_not_ready.
  apply good_stay; [|done]. destruct (is_bound eid n); [|by split_and!].
  split_and!; [done|intros []; [auto|done]|by destruct s].
Qed.

Lemma pair_remove_ok eid n s h :
  state_ok s n →
  ∃ p self' o, Pair_remove_pipe eid (mkPair n (Some s)) h = Done (p, self') o ∧
    Pair_inv self' ∧ announced (mkPair n (Some s)) o self' ∧
    contract [] (State_pending s) (IRemovePipe eid) o (Pair_pending self').
Proof.
  intros Hs. unfold Pair_remove_pipe, Inner_remove_pipe. cbn [inner state].
  destruct n as [[[id q]|] sr rr]; cbn [pipe send_ready recv_ready]; [case_bool_decide as Hid|].
  - subst id. destruct (pair_apply_ok (IRemovePipe eid) (λ s inner, State_on_pipe_removed s inner eid) s
      (mkInner None sr rr) h) as (self' & o & Hrun & Hi & Ha & Hc).
    { by apply (pair_removed_good eid (mkInner (Some (eid, q)) sr rr) s q). }
    eexists _, _, _. rewrite bind_run, Hrun. mrun. split; [done|].
    rewrite app_nil_r. by split_and!.
  - eexists None, _, []. split; [done|]. split; [by exists s|]. split; [done|by apply contract_quiet].
  - eexists None, _, []. split; [done|]. split; [by exists s|]. split; [done|by apply contract_quiet].
Qed.

Lemma pair_add_ok eid q n s h :
  state_ok s n → pipe_id q = eid →
  ∃ self' o, Pair_add_pipe eid q (mkPair n (Some s)) h = Done self' o ∧
    Pair_inv self' ∧ announced (mkPair n (Some s)) o self' ∧
    contract [] (State_pending s) (IAddPipe eid q) o (Pair_pending self').
Proof.
  intros Hs Hq. unfold Pair_add_pipe, Inner_add_pipe. cbn [inner state].
  destruct n as [[[id p]|] sr rr]; cbn [pipe send_ready recv_ready]; eexists _, _.
  - unfold Pipe_close, Endpoint_close, ctx_close. mrun. split; [done|].
    split; [by exists s|]. split; [done|by apply contract_quiet].
  - mrun. split; [done|]. split; [exists s; split; [done|]|split; [done|by apply contract_quiet]].
    destruct Hs as (Hk & Hr & Hs). split_and!; [by intros ? ? [= <- <-]|done|].
    destruct s; try done; by destruct Hs.
Qed.

Lemma Pair_step_ok i self h :
  Pair_inv self → Pair_guard i self = true → allowed i (Pair_pending self) = true →
  ∃ self' out, step i self h = Done self' out ∧ Pair_inv self' ∧ announced self out self' ∧
    contract [] (Pair_pending self) i out (Pair_pending self').
Proof.
  destruct self as [n os]. intros (s & Hos & Hs) Hg Ha. cbn [inner state] in *. subst os.
  change (Pair_pending (mkPair n (Some s))) with (State_pending s) in *.
  destruct i as [eid q|eid|msg t|eid| |eid|eid|t|eid msg| |eid|eid|opt|task|]; simpl step.
  - apply pair_add_ok; [done|by apply bool_decide_eq_true in Hg].
  - destruct (pair_remove_ok eid n s h) as (p & self' & o & Hrun & Hi & Hc); [done|].
    eexists _, _. rewrite bind_run, Hrun. mrun. split; [done|]. by rewrite app_nil_r.
  - destruct s; try done. apply pair_apply_ok, pair_send_good; auto.
  - by apply pair_apply_ok, send_ack_good.
  - destruct (allowed_fires ISendTimeout KSend _ eq_refl Ha) as [t Ht]. by eapply pair_apply_ok, pair_send_timeout_good.
  - by apply pair_apply_ok, pair_send_ready_good.
  - by apply pair_apply_ok, pair_send_not_ready_good.
  - destruct s; try done. apply pair_apply_ok, pair_recv_good; auto.
  - by apply pair_apply_ok, pair_recv_ack_good.
  - destruct (allowed_fires IRecvTimeout KRecv _ eq_refl Ha) as [t Ht]. by eapply pair_apply_ok, pair_recv_timeout_good.
  - by apply pair_apply_ok, pair_recv_ready_good.
  - by apply pair_apply_ok, pair_recv_not_ready_good.
  - eexists _, []. split; [done|]. split; [by exists s|split; [done|by apply contract_quiet]].
  - eexists _, []. split; [done|]. split; [by exists s|split; [done|by apply contract_quiet]].
  - eexists _, []. split; [done|]. split; [by exists s|split; [done|by apply contract_quiet]].
Qed.

#[export] Instance Pair_contract : Contract Pair := {|
  inv := Pair_inv;
  guard := Pair_guard;
  pending := Pair_pending;
  own_timers _ := [];
  step_ok := Pair_step_ok
|}.

Lemma Pair_from_inv : Pair_inv Pair_from.
Proof. exists Idle. split; [done|]. split_and!; [done|by intros []|done]. Qed.

(** A fresh PAIR socket keeps the facade's contract in every disciplined
    conversation; a request under way is on the pipe held, and waits only while
    that pipe is not ready for it. *)
Theorem pair_conversation ins :
  disciplined ins Pair_from [] = true → conversation Pair_from ins.
Proof. apply conversation_ok; [apply Pair_from_inv|done]. Qed.

(** ** One peer *)

(** All traffic is with the pipe held. *)
Definition exclusive (n : Inner) (e : effect) : Prop :=
  match e with NetSend id _ | NetRecv id => bound id n | _ => True end.

Abbreviation on_pipe n := (every (exclusive n)).

Lemma send_on_pipe n n' msg :
  inner_ok n → pipe n' = pipe n → on_pipe n (Inner_send msg n').
Proof.
  intros (Hk & _) Hp. unfold Inner_send. destruct (negb (send_ready n')); [by apply runs_ret|].
  cbn [pipe]. destruct (pipe n') as [[eid q]|] eqn:Hq; [|by apply runs_ret].
  unfold Pipe_send, Endpoint_send, ctx_send. walk. simpl. exists q. rewrite (Hk eid q); congruence.
Qed.

Lemma recv_on_pipe n n' :
  inner_ok n → pipe n' = pipe n → on_pipe n (Inner_recv n').
Proof.
  intros (Hk & _) Hp. unfold Inner_recv. destruct (negb (recv_ready n')); [by apply runs_ret|].
  cbn [pipe]. destruct (pipe n') as [[eid q]|] eqn:Hq; [|by apply runs_ret].
  unfold Pipe_recv, Endpoint_recv, ctx_recv. walk. simpl. exists q. rewrite (Hk eid q); congruence.
Qed.

Lemma apply_on_pipe n n' s t :
  (∀ s, on_pipe n (t s n')) → on_pipe n (apply t (mkPair n' s)).
Proof.
  intros Ht. unfold apply. cbn [state inner]. destruct s as [s|]; [|by apply runs_ret].
  apply every_bind; [apply Ht|]. intros [s' n'']. unfold check_send_ready_change,
    check_recv_ready_change, ctx_raise. walk; done.
Qed.

Lemma flags_pipe n eid :
  pipe (Inner_on_send_ready eid n) = pipe n ∧ pipe (Inner_on_recv_ready eid n) = pipe n.
Proof.
  unfold Inner_on_send_ready, Inner_on_recv_ready. by destruct (is_bound eid n).
Qed.

Lemma step_on_pipe i n s : inner_ok n → on_pipe n (step i (mkPair n s)).
Proof.
  intros Hn. pose proof (flags_pipe n) as Hf.
  destruct i as [eid q|eid|msg t|eid| |eid|eid|t|eid msg| |eid|eid|opt|task|]; simpl step;
    try (by apply runs_ret); try (apply apply_on_pipe; intros s').
  - unfold Pair_add_pipe, Inner_add_pipe, Pipe_close, Endpoint_close, ctx_close. walk; done.
  - apply every_bind; [|intros; by apply runs_ret]. unfold Pair_remove_pipe. simpl.
    destruct (Inner_remove_pipe eid n) as [[p|] n'] eqn:Hrm; [|by apply runs_ret].
    apply every_bind; [|intros; by apply runs_ret]. apply apply_on_pipe. intros s'.
    unfold State_on_pipe_removed. walk; done.
  - apply every_bind; [by apply send_on_pipe|]. intros [? ?]. walk; done.
  - unfold State_on_send_ack, Inner_on_send_ack, send_reply, cancel_opt, ctx_cancel. walk; done.
  - unfold State_on_send_timeout, Inner_on_send_timeout, send_reply. walk; done.
  - unfold State_on_send_ready. destruct s'; try by apply runs_ret.
    apply every_bind; [apply send_on_pipe; [done|apply Hf]|]. intros [? ?]. walk; done.
  - by apply runs_ret.
  - apply every_bind; [by apply recv_on_pipe|]. intros [? ?]. walk; done.
  - unfold State_on_recv_ack, Inner_on_recv_ack, send_reply, cancel_opt, ctx_cancel. walk; done.
  - unfold State_on_recv_timeout, Inner_on_recv_timeout, send_reply. walk; done.
  - unfold State_on_recv_ready. destruct s'; try by apply runs_ret.
    apply every_bind; [apply recv_on_pipe; [done|apply Hf]|]. intros [? ?]. walk; done.
  - by apply runs_ret.
Qed.

Lemma sends_exclusive n out id m :
  Forall (exclusive n) out → (id, m) ∈ sends out → bound id n.
Proof.
  induction 1 as [|e out He Hout IH]; simpl; [by intros ?%elem_of_nil|].
  destruct e; auto. rewrite elem_of_cons. intros [[= -> ->]|?]; auto.
Qed.

Lemma recvs_exclusive n out id : Forall (exclusive n) out → id ∈ recvs out → bound id n.
Proof.
  induction 1 as [|e out He Hout IH]; simpl; [by intros ?%elem_of_nil|].
  destruct e; auto. rewrite elem_of_cons. intros [->|?]; auto.
Qed.

(** C21: At any point of a disciplined conversation, a PAIR socket talks to the
    one pipe it holds only: all that a call sends or asks to receive is on that
    pipe, and a pipe added while one is held is closed and changes nothing. *)
Theorem pair_exclusive ins self out i self' out' :
  disciplined ins Pair_from [] = true → drive ins Pair_from [] = Done self out →
  step i self out = Done self' out' →
  (∀ id m, (id, m) ∈ sends out' → bound id (inner self)) ∧
  (∀ id, id ∈ recvs out' → bound id (inner self)) ∧
  (∀ eid q id, i = IAddPipe eid q → bound id (inner self) →
    self' = self ∧ out' = [NetClose (pipe_id q) true]).
Proof.
  intros Hd Hrun Hstep.
  destruct (drive_ok (H0 := Pair_contract) ins Pair_from [] Pair_from_inv Hd) as (s & o & Hrun' & Hinv & _).
  rewrite Hrun in Hrun'. injection Hrun' as <- <-. destruct self as [n os].
  destruct Hinv as (s & Hos & Hs). cbn [inner state] in *. subst os.
  destruct (step_on_pipe i n (Some s) (state_inner _ _ Hs) _ _ _ Hstep) as [Hall _].
  split_and!.
  - intros id m. by apply sends_exclusive.
  - intros id. by apply recvs_exclusive.
  - intros eid q id -> [p Hp]. revert Hstep. simpl. unfold Pair_add_pipe, Inner_add_pipe.
    cbn [inner state]. rewrite Hp. unfold Pipe_close, Endpoint_close, ctx_close. mrun.
    by intros [= <- <-].
Qed.

End contract.

Section witness.
#[local] Existing Instance ref_env.

Definition ex_id (n : Z) : EndpointId := EndpointId_from n.
Definition ex_pipe (n : Z) : Pipe := Pipe_new_accepted (ex_id n) (mkEndpointDesc 8 8 false 1024).
Definition ex_run : list input :=
  [IAddPipe (ex_id 1) (ex_pipe 1); IAddPipe (ex_id 2) (ex_pipe 2); ISendReady (ex_id 1);
   ISend (from_body [42]) None; IRemovePipe (ex_id 1); IAddPipe (ex_id 3) (ex_pipe 3);
   ISendReady (ex_id 3); ISendAck (ex_id 3); IRecv (Some (Scheduled_from 4))].

Example pair_ex_run_trace :
  emitted (drive ex_run Pair_from []) =
  [NetClose (ex_id 2) true; Raise (CanSend true); NetSend (ex_id 1) (from_body [42]);
   Raise (CanSend false); NetSend (ex_id 3) (from_body [42]); SendReply ReplySend].
Proof. vm_compute. reflexivity. Qed.

Lemma pair_conversation_witness : conversation Pair_from ex_run.
Proof. apply (pair_conversation ex_run). vm_compute. reflexivity. Defined.

Definition ex_pair : Pair := default Pair_from (returned (drive ex_run Pair_from [])).
Definition ex_trace : trace := emitted (drive ex_run Pair_from []).
Definition ex_next : outcome effect Pair := step (IRecvReady (ex_id 3)) ex_pair ex_trace.

Lemma pair_exclusive_witness :
  (∀ id m, (id, m) ∈ sends (emitted ex_next) → bound id (inner ex_pair)) ∧
  (∀ id, id ∈ recvs (emitted ex_next) → bound id (inner ex_pair)) ∧
  (∀ eid q id, IRecvReady (ex_id 3) = IAddPipe eid q → bound id (inner ex_pair) →
    default ex_pair (returned ex_next) = ex_pair ∧ emitted ex_next = [NetClose (pipe_id q) true]).
Proof. apply (pair_exclusive ex_run ex_pair ex_trace); vm_compute; reflexivity. Defined.

Example ex_next_recvs : recvs (emitted ex_next) = [ex_id 3].
Proof. vm_compute. reflexivity. Qed.
End witness.
