(* ===== verification/PairPrefetch.v ===== *)
(** * PAIR with prefetch (src/proto/pair-prefetch.rs)

    A variant of PAIR that asks its pipe for a message before the application does,
    and keeps it until then.  No module declares the file and its trait is an older
    one (pipes do not tell that they are not ready any more), so nothing runs it: it
    is modelled on its own.  What it delivers is still what came, in order and once
    each ([prefetch_in_order]); but it is not finished: a timed recv that finds a
    prefetch under way forgets its timer ([prefetch_forgets_timer]), a send then
    drops the message on its way ([prefetch_loses_message]), and a message that is
    there does not make the socket readable ([prefetch_unannounced]). *)

From S2P Require Import Prelude Core Context Protocol.

(** ** State *)

Inductive State : Type :=
| Idle
| Sending (eid : EndpointId) (msg : Message) (timeout : Timeout)
| SendOnHold (msg : Message) (timeout : Timeout)
| Receiving (eid : EndpointId) (timeout : Timeout) (prefetching : bool)
| RecvOnHold (timeout : Timeout).

Record Inner : Type := mkInner {
  pipe : option (EndpointId * Pipe);
  prefetched_msg : option Message;
  send_ready : bool;
  recv_ready : bool
}.

Record Pair : Type := mkPair { inner : Inner; state : option State }.

Definition set_prefetched (x : option Message) (self : Inner) : Inner :=
  mkInner (pipe self) x (send_ready self) (recv_ready self).

Section pair.
Context `{Env}.

(** ** Inner *)

Definition Inner_add_pipe (eid : EndpointId) (p : Pipe) (self : Inner) : P Inner :=
  match pipe self with
  | None => mret (mkInner (Some (eid, p)) (prefetched_msg self) (send_ready self) (recv_ready self))
  | Some _ => Pipe_close p;; mret self
  end.

Definition Inner_remove_pipe (eid : EndpointId) (self : Inner) : option Pipe * Inner :=
  match pipe self with
  | Some (id, p) =>
      if bool_decide (id = eid)
      then (Some p, mkInner None (prefetched_msg self) (send_ready self) (recv_ready self))
      else (None, mkInner (Some (id, p)) (prefetched_msg self) (send_ready self) (recv_ready self))
  | None => (None, self)
  end.

Definition Inner_on_pipe_removed (self : Inner) : Inner := mkInner (pipe self) (prefetched_msg self) false false.

Definition Inner_send (msg : Message) (self : Inner) : P (option EndpointId * Inner) :=
  if negb (send_ready self) then mret (None, self)
  else
    let self := mkInner (pipe self) (prefetched_msg self) false (recv_ready self) in
    match pipe self with
    | Some (eid, p) => Pipe_send msg p;; mret (Some eid, self)
    | None => mret (None, self)
    end.

(** [self.pipe.as_ref().map(|&(ref id, _)| *id) == Some(eid)] *)
Definition is_bound (eid : EndpointId) (self : Inner) : bool :=
  bool_decide (fst <$> pipe self = Some eid).

Definition Inner_on_send_ready (eid : EndpointId) (self : Inner) : Inner :=
  if is_bound eid self then mkInner (pipe self) (prefetched_msg self) true (recv_ready self) else self.

Definition Inner_on_send_ack (timeout : Timeout) (self : Inner) : P () :=
  send_reply ReplySend;; cancel_opt timeout.
Definition Inner_on_send_timeout (self : Inner) : P () :=
  send_reply (ReplyErr (timedout_io_error "Send timed out")).

Definition Inner_recv (self : Inner) : P (option EndpointId * Inner) :=
  if negb (recv_ready self) then mret (None, self)
  else
    let self := mkInner (pipe self) (prefetched_msg self) (send_ready self) false in
    match pipe self with
    | Some (eid, p) => Pipe_recv p;; mret (Some eid, self)
    | None => mret (None, self)
    end.

Definition Inner_on_recv_ready (eid : EndpointId) (self : Inner) : Inner :=
  if is_bound eid self then mkInner (pipe self) (prefetched_msg self) (send_ready self) true else self.

Definition Inner_on_recv_ack (timeout : Timeout) (msg : Message) (self : Inner) : P () :=
  send_reply (ReplyRecv msg);; cancel_opt timeout.
Definition Inner_on_recv_timeout (self : Inner) : P () :=
  send_reply (ReplyErr (timedout_io_error "Recv timed out")).

Definition Inner_close (self : Inner) : P Inner :=
  if_some (pipe self) (λ ep, Pipe_close ep.2;; mret ());;
  mret (mkInner None (prefetched_msg self) (send_ready self) (recv_ready self)).

(** ** State transitions *)

Definition State_on_pipe_removed (self : State) (inner : Inner) (eid : EndpointId)
    : P (State * Inner) :=
  let inner := Inner_on_pipe_removed inner in
  match self with
  | Sending id msg timeout =>
      if bool_decide (id = eid) then mret (SendOnHold msg timeout, inner)
      else mret (Sending id msg timeout, inner)
  | Receiving id timeout prefetching =>
      if bool_decide (id = eid) then
        if prefetching then mret (Idle, inner) else mret (RecvOnHold timeout, inner)
      else mret (Receiving id timeout prefetching, inner)
  | any => mret (any, inner)
  end.

Definition State_send (self : State) (inner : Inner) (msg : Message) (timeout : Timeout)
    : P (State * Inner) :=
  '(sent, inner) ← Inner_send msg inner;
  match sent with
  | Some eid => mret (Sending eid msg timeout, inner)
  | None => mret (SendOnHold msg timeout, inner)
  end.

Definition State_on_send_ack (self : State) (inner : Inner) (eid : EndpointId)
    : P (State * Inner) :=
  match self with
  | Sending id msg timeout =>
      if bool_decide (id = eid) then Inner_on_send_ack timeout inner;; mret (Idle, inner)
      else mret (Sending id msg timeout, inner)
  | any => mret (any, inner)
  end.

Definition State_on_send_timeout (self : State) (inner : Inner) : P (State * Inner) :=
  Inner_on_send_timeout inner;; mret (Idle, inner).

Definition State_on_send_ready (self : State) (inner : Inner) (eid : EndpointId)
    : P (State * Inner) :=
  let inner := Inner_on_send_ready eid inner in
  match self with
  | SendOnHold msg timeout => State_send Idle inner msg timeout
  | any => mret (any, inner)
  end.

Definition State_recv (self : State) (inner : Inner) (timeout : Timeout) : P (State * Inner) :=
  match self with
  | Idle =>
      match prefetched_msg inner with
      | Some msg =>
          let inner := set_prefetched None inner in
          Inner_on_recv_ack timeout msg inner;;
          mret (Idle, inner)
      | None =>
          '(asked, inner) ← Inner_recv inner;
          match asked with
          | None => mret (RecvOnHold timeout, inner)
          | Some eid => mret (Receiving eid timeout false, inner)
          end
      end
  | Receiving id timeout true => mret (Receiving id timeout false, inner)
  | any => mret (any, inner)
  end.

Definition State_on_recv_ack (self : State) (inner : Inner) (eid : EndpointId) (msg : Message)
    : P (State * Inner) :=
  match self with
  | Receiving id timeout prefetching =>
      if bool_decide (id = eid) then
        if prefetching then mret (Idle, set_prefetched (Some msg) inner)
        else Inner_on_recv_ack timeout msg inner;; mret (Idle, inner)
      else mret (Receiving id timeout prefetching, inner)
  | any => mret (any, inner)
  end.

Definition State_on_recv_timeout (self : State) (inner : Inner) : P (State * Inner) :=
  Inner_on_recv_timeout inner;; mret (Idle, inner).

Definition State_on_recv_ready (self : State) (inner : Inner) (eid : EndpointId)
    : P (State * Inner) :=
  let inner := Inner_on_recv_ready eid inner in
  match self with
  | RecvOnHold timeout => State_recv Idle inner timeout
  | Idle =>
      match prefetched_msg inner with
      | Some _ => mret (Idle, inner)
      | None =>
          '(asked, inner) ← Inner_recv inner;
          match asked with
          | None => mret (Idle, inner)
          | Some eid => mret (Receiving eid None true, inner)
          end
      end
  | any => mret (any, inner)
  end.

(** ** The protocol *)

Definition apply (transition : State → Inner → P (State * Inner)) (self : Pair) : P Pair :=
  match state self with
  | Some old_state =>
      let was_send_ready := send_ready (inner self) in
      let was_recv_ready := recv_ready (inner self) in
      '(new_state, inner) ← transition old_state (inner self);
      check_send_ready_change was_send_ready (send_ready inner);;
      check_recv_ready_change was_recv_ready (recv_ready inner);;
      mret (mkPair inner (Some new_state))
  | None => mret self
  end.

Definition Pair_from : Pair := mkPair (mkInner None None false false) (Some Idle).

Definition Pair_add_pipe (eid : EndpointId) (p : Pipe) (self : Pair) : P Pair :=
  inner ← Inner_add_pipe eid p (inner self); mret (mkPair inner (state self)).

Definition Pair_remove_pipe (eid : EndpointId) (self : Pair) : P (option Pipe * Pair) :=
  let '(pipe, inner) := Inner_remove_pipe eid (inner self) in
  let self := mkPair inner (state self) in
  match pipe with
  | Some p =>
      self ← apply (λ s inner, State_on_pipe_removed s inner eid) self;
      mret (Some p, self)
  | None => mret (None, self)
  end.

Definition Pair_close (self : Pair) : P Pair :=
  inner ← Inner_close (inner self); mret (mkPair inner (state self)).

(** What [impl Protocol for Pair] has. *)
Definition Pair_send (msg : Message) (timeout : Timeout) : Pair → P Pair :=
  apply (λ s inner, State_send s inner msg timeout).
Definition Pair_on_send_ack (eid : EndpointId) : Pair → P Pair :=
  apply (λ s inner, State_on_send_ack s inner eid).
Definition Pair_on_send_timeout : Pair → P Pair := apply State_on_send_timeout.
Definition Pair_on_send_ready (eid : EndpointId) : Pair → P Pair :=
  apply (λ s inner, State_on_send_ready s inner eid).
Definition Pair_recv (timeout : Timeout) : Pair → P Pair := apply (λ s inner, State_recv s inner timeout).
Definition Pair_on_recv_ack (eid : EndpointId) (msg : Message) : Pair → P Pair :=
  apply (λ s inner, State_on_recv_ack s inner eid msg).
Definition Pair_on_recv_timeout : Pair → P Pair := apply State_on_recv_timeout.
Definition Pair_on_recv_ready (eid : EndpointId) : Pair → P Pair :=
  apply (λ s inner, State_on_recv_ready s inner eid).
Definition Pair_is_send_ready (self : Pair) : bool := send_ready (inner self).
Definition Pair_is_recv_ready (self : Pair) : bool := recv_ready (inner self).

End pair.


(** ** Runs *)

Inductive pair_call : Type :=
| CallAddPipe (eid : EndpointId) (p : Pipe)
| CallRemovePipe (eid : EndpointId)
| CallSend (msg : Message) (timeout : Timeout)
| CallSendAck (eid : EndpointId)
| CallSendTimeout
| CallSendReady (eid : EndpointId)
| CallRecv (timeout : Timeout)
| CallRecvAck (eid : EndpointId) (msg : Message)
| CallRecvTimeout
| CallRecvReady (eid : EndpointId)
| CallClose.

Section runs.
Context `{Env}.

Definition pair_step (c : pair_call) (self : Pair) : P Pair :=
  match c with
  | CallAddPipe eid p => Pair_add_pipe eid p self
  | CallRemovePipe eid => '(_, self) ← Pair_remove_pipe eid self; mret self
  | CallSend msg timeout => Pair_send msg timeout self
  | CallSendAck eid => Pair_on_send_ack eid self
  | CallSendTimeout => Pair_on_send_timeout self
  | CallSendReady eid => Pair_on_send_ready eid self
  | CallRecv timeout => Pair_recv timeout self
  | CallRecvAck eid msg => Pair_on_recv_ack eid msg self
  | CallRecvTimeout => Pair_on_recv_timeout self
  | CallRecvReady eid => Pair_on_recv_ready eid self
  | CallClose => Pair_close self
  end.

Fixpoint pair_drive (calls : list pair_call) (self : Pair) : P Pair :=
  match calls with
  | [] => mret self
  | c :: calls => self ← pair_step c self; pair_drive calls self
  end.

Definition delivered (out : trace) : list Message :=
  omap (λ e, match e with SendReply (ReplyRecv m) => Some m | _ => None end) out.
Definition came (c : pair_call) : list Message := match c with CallRecvAck _ msg => [msg] | _ => [] end.
Definition held (self : Inner) : list Message := option_list (prefetched_msg self).

(** A step finishes, and what it delivered and then holds was held or came. *)
Lemma pairprefetch_delivered_app o1 o2 : delivered (o1 ++ o2) = delivered o1 ++ delivered o2.
Proof. apply omap_app. Qed.

(** While a message is asked of the pipe, none is held. *)
Definition one_held (s : State) (n : Inner) : Prop :=
  match s with Receiving _ _ _ => prefetched_msg n = None | _ => True end.

Definition keeps (news : list Message) (transition : State → Inner → P (State * Inner)) : Prop :=
  ∀ s n h, one_held s n → ∃ s' n' out, transition s n h = Done (s', n') out ∧ one_held s' n' ∧
    delivered out ++ held n' `sublist_of` held n ++ news.

(** Run a transition to its end, whatever it finds. *)
Ltac walk :=
  intros s n h Hone; destruct n as [p pre sr rr]; destruct s; cbn in Hone; try subst pre;
  repeat first
    [ match goal with |- context [match ?x with _ => _ end] => is_var x; destruct x end
    | progress (unfold State_on_pipe_removed, State_send, State_on_send_ack, State_on_send_timeout, State_on_send_ready,
        State_recv, State_on_recv_ack, State_on_recv_timeout, State_on_recv_ready, Inner_on_pipe_removed, Inner_send,
        Inner_on_send_ready, Inner_on_send_ack, Inner_on_send_timeout, Inner_recv, Inner_on_recv_ready, Inner_on_recv_ack,
        Inner_on_recv_timeout, send_reply, cancel_opt, if_some, Pipe_send, Pipe_recv, Endpoint_send, Endpoint_recv, ctx_send, ctx_recv,
        ctx_cancel, held, set_prefetched, mbind, M_bind, mret, M_ret, emit; cbn)
    | match goal with |- context [match ?x with _ => _ end] =>
        lazymatch x with context [match _ with _ => _ end] => fail | _ => destruct x eqn:? end
      end ];
  eexists _, _, _; (split; [reflexivity|]); (split; [done|]); cbn; rewrite ?app_nil_r;
  first [reflexivity|by apply sublist_nil_l|by apply sublist_inserts_l|by apply sublist_inserts_r].

Lemma keeps_pipe_removed eid : keeps [] (λ s n, State_on_pipe_removed s n eid).
Proof. walk. Qed.
Lemma keeps_send_ack eid : keeps [] (λ s n, State_on_send_ack s n eid).
Proof. walk. Qed.
Lemma pairprefetch_keeps_send_ready eid : keeps [] (λ s n, State_on_send_ready s n eid).
Proof. walk. Qed.
Lemma pairprefetch_keeps_recv_ready eid : keeps [] (λ s n, State_on_recv_ready s n eid).
Proof. walk. Qed.
Lemma pairprefetch_keeps_send msg timeout : keeps [] (λ s n, State_send s n msg timeout).
Proof. walk. Qed.
Lemma keeps_send_timeout : keeps [] State_on_send_timeout.
Proof. walk. Qed.
Lemma pairprefetch_keeps_recv timeout : keeps [] (λ s n, State_recv s n timeout).
Proof. walk. Qed.
Lemma keeps_recv_ack eid msg : keeps [msg] (λ s n, State_on_recv_ack s n eid msg).
Proof. walk. Qed.
Lemma keeps_recv_timeout : keeps [] State_on_recv_timeout.
Proof. walk. Qed.

Definition pair_ok (self : Pair) : Prop := ∀ s, state self = Some s → one_held s (inner self).

Lemma pairprefetch_apply_keeps news f (self : Pair) h :
  keeps news f → pair_ok self → ∃ self' out, apply f self h = Done self' out ∧ pair_ok self' ∧
    delivered out ++ held (inner self') `sublist_of` held (inner self) ++ news.
Proof.
  intros Hf Hok. unfold apply. destruct (state self) as [s|] eqn:Hst.
  2: { exists self, []. split; [done|]. split; [done|]. cbn. by apply sublist_inserts_r. }
  destruct (Hf s (inner self) h (Hok s Hst)) as (s' & n' & out & Hrun & Hone & Hk). rewrite bind_run, Hrun. cbv beta iota zeta.
  assert (Hsay : ∀ a b (say : bool → bool → P ()) h, say = check_send_ready_change ∨ say = check_recv_ready_change →
    ∃ o, say a b h = Done () o ∧ delivered o = []).
  { intros a b say h' [-> | ->]; [unfold check_send_ready_change|unfold check_recv_ready_change]; case_bool_decide; by eexists. }
  destruct (Hsay (send_ready (inner self)) (send_ready n') _ (h ++ out) (or_introl eq_refl)) as (o1 & Ho1 & Hd1).
  destruct (Hsay (recv_ready (inner self)) (recv_ready n') _ ((h ++ out) ++ o1) (or_intror eq_refl)) as (o2 & Ho2 & Hd2).
  rewrite bind_run, Ho1. cbv beta iota. rewrite bind_run, Ho2, ret_run, !app_nil_r. eexists _, _. split; [done|].
  split; [by intros ? [= <-]|]. by rewrite !pairprefetch_delivered_app, Hd1, Hd2, !app_nil_r.
Qed.

#[local] Hint Resolve pairprefetch_apply_keeps keeps_pipe_removed keeps_send_ack pairprefetch_keeps_send_ready pairprefetch_keeps_recv_ready pairprefetch_keeps_send
  keeps_send_timeout pairprefetch_keeps_recv keeps_recv_ack keeps_recv_timeout : core.

Lemma pair_step_keeps c self h :
  pair_ok self → ∃ self' out, pair_step c self h = Done self' out ∧ pair_ok self' ∧
    delivered out ++ held (inner self') `sublist_of` held (inner self) ++ came c.
Proof.
  intros Hok. destruct c; cbn [came]; try (by apply pairprefetch_apply_keeps); destruct self as [[b pre sr rr] st].
  - destruct b as [[id q]|]; eexists _, _; (split; [reflexivity|]); (split; [exact Hok|]); cbn; by rewrite app_nil_r.
  - cbn. unfold Pair_remove_pipe. destruct b as [[id q]|]; cbn; [case_bool_decide; cbn|].
    + destruct (pairprefetch_apply_keeps [] _ (mkPair (mkInner None pre sr rr) st) h (keeps_pipe_removed eid) Hok)
        as (self' & out & Hrun & Hok' & Hk).
      rewrite !bind_run, Hrun. cbn. rewrite !app_nil_r in *. by eexists _, _.
    + eexists _, _. split; [reflexivity|]. split; [exact Hok|]. cbn. by rewrite app_nil_r.
    + eexists _, _. split; [reflexivity|]. split; [exact Hok|]. cbn. by rewrite app_nil_r.
  - destruct b as [[id q]|]; eexists _, _; (split; [reflexivity|]); (split; [exact Hok|]); cbn; by rewrite app_nil_r.
Qed.

(** Whatever is called, nothing panics, and what a PAIR that prefetches delivered
    or still holds is what came from its pipes, in order and each at most once. *)
Theorem prefetch_in_order calls h :
  ∃ self out, pair_drive calls Pair_from h = Done self out ∧
    delivered out ++ held (inner self) `sublist_of` concat (came <$> calls).
Proof.
  assert (Hgo : ∀ self h, pair_ok self → ∃ self' out, pair_drive calls self h = Done self' out ∧
    delivered out ++ held (inner self') `sublist_of` held (inner self) ++ concat (came <$> calls)).
  2: { apply Hgo. by intros s [= <-]. }
  induction calls as [|c calls IH]; intros self h' Hok; cbn.
  - exists self, []. split; [done|]. by rewrite app_nil_r.
  - destruct (pair_step_keeps c self h' Hok) as (s1 & o1 & H1 & Hok1 & Hk1).
    destruct (IH s1 (h' ++ o1) Hok1) as (s2 & o2 & H2 & Hk2).
    exists s2, (o1 ++ o2). split; [by eapply bind_done|]. rewrite pairprefetch_delivered_app, <- app_assoc.
    etrans; [by apply sublist_app, Hk2|]. rewrite !app_assoc. by apply sublist_app.
Qed.

(** ** What is not finished *)

(** A timed recv that finds a prefetch under way forgets its timer: the message
    answers it, and the timer is not cancelled. *)
Theorem prefetch_forgets_timer id t msg n h :
  State_recv (Receiving id None true) n (Some t) h = Done (Receiving id None false, n) [] ∧
  State_on_recv_ack (Receiving id None false) n id msg h = Done (Idle, n) [SendReply (ReplyRecv msg)].
Proof. split; [done|]. cbn. by rewrite bool_decide_true. Qed.

(** A send drops the message a prefetch was waiting for. *)
Theorem prefetch_loses_message id t msg answer p n h :
  pipe n = Some (id, p) → send_ready n = true →
  ∃ n' out, State_send (Receiving id None true) n msg t h = Done (Sending id msg t, n') out ∧
    State_on_recv_ack (Sending id msg t) n' id answer (h ++ out) = Done (Sending id msg t, n') [].
Proof.
  intros Hp Hs. destruct n as [pp pre sr rr]. cbn in *. subst. by eexists _, _.
Qed.

(** A message is there for whoever asks, and the socket says it is not readable. *)
Theorem prefetch_unannounced id p msg h :
  let n := mkInner (Some (id, p)) None false true in
  ∃ n1 n2 out, State_on_recv_ready Idle n id h = Done (Receiving id None true, n1) out ∧
    State_on_recv_ack (Receiving id None true) n1 id msg (h ++ out) = Done (Idle, n2) [] ∧
    Pair_is_recv_ready (mkPair n2 (Some Idle)) = false ∧
    State_recv Idle n2 None (h ++ out) = Done (Idle, set_prefetched None n2) [SendReply (ReplyRecv msg)].
Proof.
  intros n. eexists (mkInner (Some (id, p)) None false false), (mkInner (Some (id, p)) (Some msg) false false), _.
  split; [unfold State_on_recv_ready, Inner_on_recv_ready, is_bound; cbn; rewrite bool_decide_true by done; reflexivity|].
  split; [cbn; by rewrite bool_decide_true|]. done.
Qed.

End runs.
