(* ===== verification/Req.v ===== *)
(** * REQ (src/proto/req.rs)

    Load-balanced requests, each tagged with an id, and their replies: a reply
    with another id is dropped.  An unanswered request is sent again when its
    resend timer fires.  Inside a device the socket forwards messages as they
    are, fair-queueing replies. *)

From S2P Require Import Prelude Core Context Priolist Pipes Protocol Codec.

(** ** State *)

Record PendingRequest : Type := mkPendingRequest { req : Message; retry_timeout : Timeout }.

Inductive State : Type :=
| Idle
| Sending (eid : EndpointId) (msg : Message) (timeout : Timeout) (retry : bool)
| SendOnHold (msg : Message) (timeout : Timeout) (retry : bool)
| Active (eid : EndpointId) (p : PendingRequest)
| Receiving (eid : EndpointId) (p : option PendingRequest) (timeout : Timeout)
| RecvOnHold (eid : option EndpointId) (p : option PendingRequest) (timeout : Timeout).

Record Inner : Type := mkInner {
  pipes : PipeCollection;
  lb : Priolist;
  fq : Priolist;
  rv : gset EndpointId;
  req_id_seq : Z;
  is_device_item : bool;
  resend_ivl : Duration
}.

Record Req : Type := mkReq { inner : Inner; state : option State }.

Section req.
Context `{Env} `{ByteOrder}.

(** ** Codec *)

Definition encode (msg : Message) (req_id : Z) : Message :=
  let req_id_bytes := be_write_u32 req_id in
  from_header_and_body (header msg ++ req_id_bytes) (body msg).

Definition decode (raw_msg : Message) : option (Message * Z) :=
  if bool_decide (length (get_body raw_msg) < 4)%nat then None
  else
    let '(header, payload) := Message_split raw_msg in
    let body := drop 4 payload in
    let payload := take 4 payload in
    let req_id := be_read_u32 payload in
    let header := if bool_decide (header = []) then payload else header ++ payload in
    Some (from_header_and_body header body, req_id).

(** ** Inner *)

(** [seed] is [time::get_time().nsec as u32]. *)
Definition Inner_new (seed : Z) : Inner := {|
  pipes := PipeCollection_new;
  lb := new;
  fq := new;
  rv := ∅;
  req_id_seq := seed;
  is_device_item := false;
  resend_ivl := from_secs 60
|}.

Definition set_pipes x (n : Inner) : Inner :=
  mkInner x (lb n) (fq n) (rv n) (req_id_seq n) (is_device_item n) (resend_ivl n).
Definition set_lb x (n : Inner) : Inner :=
  mkInner (pipes n) x (fq n) (rv n) (req_id_seq n) (is_device_item n) (resend_ivl n).
Definition set_fq x (n : Inner) : Inner :=
  mkInner (pipes n) (lb n) x (rv n) (req_id_seq n) (is_device_item n) (resend_ivl n).
Definition set_rv x (n : Inner) : Inner :=
  mkInner (pipes n) (lb n) (fq n) x (req_id_seq n) (is_device_item n) (resend_ivl n).
Definition set_req_id_seq x (n : Inner) : Inner :=
  mkInner (pipes n) (lb n) (fq n) (rv n) x (is_device_item n) (resend_ivl n).
Definition set_is_device_item x (n : Inner) : Inner :=
  mkInner (pipes n) (lb n) (fq n) (rv n) (req_id_seq n) x (resend_ivl n).

Definition Inner_add_pipe (eid : EndpointId) (pipe : Pipe) (self : Inner) : Inner :=
  let self := set_lb (insert eid (Pipe_get_send_priority pipe) (lb self)) self in
  let self := set_fq (insert eid (Pipe_get_recv_priority pipe) (fq self)) self in
  set_pipes (PipeCollection_insert eid pipe (pipes self)).2 self.

Definition Inner_remove_pipe (eid : EndpointId) (self : Inner) : P (option Pipe * Inner) :=
  lb ← lift (remove eid (lb self));
  fq ← lift (remove eid (fq self));
  let self := set_rv (rv self ∖ {[eid]}) (set_fq fq (set_lb lb self)) in
  let '(pipe, pipes) := PipeCollection_remove eid (pipes self) in
  mret (pipe, set_pipes pipes self).

Definition Inner_send (msg : Message) (self : Inner) : P (option EndpointId * Inner) :=
  '(sent, lb) ← load_balancing_send (lb self) (pipes self) msg;
  mret (sent, set_lb lb self).

Definition Inner_on_send_ready (eid : EndpointId) (self : Inner) : P Inner :=
  lb ← lift (activate eid (lb self)); mret (set_lb lb self).

Definition Inner_on_send_not_ready (eid : EndpointId) (self : Inner) : P Inner :=
  lb ← lift (deactivate eid (lb self)); mret (set_lb lb self).

Definition Inner_on_send_ack (timeout : Timeout) (retry : bool) (self : Inner) : P Timeout :=
  (if negb retry then send_reply ReplySend else mret ());;
  cancel_opt timeout;;
  if is_device_item self then mret None
  else scheduled ← ctx_schedule ReqResend (resend_ivl self); mret (result_ok scheduled).

Definition Inner_on_send_timeout (self : Inner) : P () :=
  send_reply (ReplyErr (timedout_io_error "Send timed out")).

Definition Inner_is_send_ready (self : Inner) : bool := peek (lb self).

Definition Inner_cancel (p : PendingRequest) (self : Inner) : P () := cancel_opt (retry_timeout p).

Definition Inner_recv (self : Inner) : P (option EndpointId * Inner) :=
  '(asked, fq) ← fair_queue_recv (fq self) (pipes self);
  mret (asked, set_fq fq self).

Definition Inner_recv_reply_from (eid : EndpointId) (self : Inner) : P (bool * Inner) :=
  let self := set_rv (rv self ∖ {[eid]}) self in
  match get_mut eid (pipes self) with
  | Some pipe => Pipe_recv pipe;; mret (true, self)
  | None => mret (false, self)
  end.

Definition Inner_recv_when_inactive (timeout : Timeout) (self : Inner) : P () :=
  send_reply (ReplyErr (other_io_error "Can't recv: no active request"));;
  cancel_opt timeout.

Definition Inner_on_recv_ack (timeout : Timeout) (msg : Message) (retry_timeout : Timeout)
    (self : Inner) : P () :=
  send_reply (ReplyRecv msg);; cancel_opt timeout;; cancel_opt retry_timeout.

Definition Inner_on_recv_timeout (retry_timeout : Timeout) (self : Inner) : P () :=
  send_reply (ReplyErr (timedout_io_error "Recv timed out"));; cancel_opt retry_timeout.

Definition Inner_on_recv_ack_malformed (self : Inner) : P () :=
  send_reply (ReplyErr (invalid_data_io_error "Received reply without req id")).

Definition Inner_on_recv_ready (eid : EndpointId) (self : Inner) : P Inner :=
  fq ← lift (activate eid (fq self)); mret (set_rv ({[eid]} ∪ rv self) (set_fq fq self)).

Definition Inner_on_recv_not_ready (eid : EndpointId) (self : Inner) : P Inner :=
  fq ← lift (deactivate eid (fq self)); mret (set_rv (rv self ∖ {[eid]}) (set_fq fq self)).

Definition Inner_is_recv_ready_from (eid : EndpointId) (self : Inner) : bool :=
  bool_decide (eid ∈ rv self).
Definition Inner_is_recv_ready (self : Inner) : bool := peek (fq self).

Definition Inner_cur_req_id (self : Inner) : Z := Z.lor (req_id_seq self) 2147483648.

Definition Inner_next_req_id (self : Inner) : P (Z * Inner) :=
  seq ← lift (checked_add 32 (req_id_seq self) 1);
  let self := set_req_id_seq seq self in
  mret (Z.lor (req_id_seq self) 2147483648, self).

Definition Inner_msg_to_raw_msg (msg : Message) (self : Inner) : P (Message * Inner) :=
  if is_device_item self then mret (msg, self)
  else '(req_id, self) ← Inner_next_req_id self; mret (encode msg req_id, self).

Definition Inner_raw_msg_to_msg (raw_msg : Message) (self : Inner) : option (Message * Z) :=
  if is_device_item self then
    let cur_req_id := Inner_cur_req_id self in
    (λ mi, (mi.1, cur_req_id)) <$> decode raw_msg
  else decode raw_msg.

Definition Inner_set_resend_ivl (ivl : Duration) (n : Inner) : Inner :=
  mkInner (pipes n) (lb n) (fq n) (rv n) (req_id_seq n) (is_device_item n) ivl.

(** ** State transitions *)

Definition State_send (self : State) (inner : Inner) (msg : Message) (timeout : Timeout)
    (retry : bool) : P (State * Inner) :=
  match self with Active _ p => Inner_cancel p inner | _ => mret () end;;
  '(sent, inner) ← Inner_send msg inner;
  match sent with
  | Some eid => mret (Sending eid msg timeout retry, inner)
  | None => mret (SendOnHold msg timeout retry, inner)
  end.

Definition State_on_send_ack (self : State) (inner : Inner) (eid : EndpointId)
    : P (State * Inner) :=
  match self with
  | Sending id msg timeout retry =>
      if negb (bool_decide (id = eid)) then mret (Sending id msg timeout retry, inner)
      else
        retry_timeout ← Inner_on_send_ack timeout retry inner;
        if is_device_item inner then mret (Idle, inner)
        else mret (Active eid (mkPendingRequest msg retry_timeout), inner)
  | any => mret (any, inner)
  end.

Definition State_on_send_timeout (self : State) (inner : Inner) : P (State * Inner) :=
  Inner_on_send_timeout inner;; mret (Idle, inner).

Definition State_on_send_ready (self : State) (inner : Inner) (eid : EndpointId)
    : P (State * Inner) :=
  inner ← Inner_on_send_ready eid inner;
  match self with
  | SendOnHold msg timeout retry => State_send Idle inner msg timeout retry
  | any => mret (any, inner)
  end.

Definition State_on_send_not_ready (self : State) (inner : Inner) (eid : EndpointId)
    : P (State * Inner) :=
  inner ← Inner_on_send_not_ready eid inner; mret (self, inner).

Definition State_is_send_ready (self : State) (inner : Inner) : bool := Inner_is_send_ready inner.

Definition State_recv_reply_for (self : State) (inner : Inner) (timeout : Timeout)
    (eid : EndpointId) (p : PendingRequest) : P (State * Inner) :=
  '(asked, inner) ← Inner_recv_reply_from eid inner;
  if asked : bool then mret (Receiving eid (Some p) timeout, inner)
  else mret (RecvOnHold (Some eid) (Some p) timeout, inner).

Definition State_recv (self : State) (inner : Inner) (timeout : Timeout) : P (State * Inner) :=
  if is_device_item inner then
    '(asked, inner) ← Inner_recv inner;
    match asked with
    | None => mret (RecvOnHold None None timeout, inner)
    | Some eid => mret (Receiving eid None timeout, inner)
    end
  else
    match self with
    | Active eid p => State_recv_reply_for Idle inner timeout eid p
    | _ => Inner_recv_when_inactive timeout inner;; mret (Idle, inner)
    end.

Definition State_on_pipe_removed (self : State) (inner : Inner) (eid : EndpointId)
    : P (State * Inner) :=
  match self with
  | Sending id msg timeout retry =>
      if bool_decide (id = eid) then State_send Idle inner msg timeout retry
      else mret (Sending id msg timeout retry, inner)
  | Receiving id p timeout =>
      if bool_decide (eid = id) then State_recv Idle inner timeout
      else mret (Receiving id p timeout, inner)
  | any => mret (any, inner)
  end.

Definition State_on_recv_ack (self : State) (inner : Inner) (eid : EndpointId) (msg : Message)
    (req_id : Z) : P (State * Inner) :=
  match self with
  | Receiving id None timeout =>
      if bool_decide (eid = id)
      then Inner_on_recv_ack timeout msg None inner;; mret (Idle, inner)
      else mret (Receiving id None timeout, inner)
  | Receiving id (Some p) timeout =>
      if bool_decide (eid = id) then
        if bool_decide (Inner_cur_req_id inner = req_id)
        then Inner_on_recv_ack timeout msg (retry_timeout p) inner;; mret (Idle, inner)
        else State_recv_reply_for Idle inner timeout id p
      else mret (Receiving id (Some p) timeout, inner)
  | any => mret (any, inner)
  end.

Definition State_on_recv_timeout (self : State) (inner : Inner) : P (State * Inner) :=
  match self with
  | Receiving _ None _ | RecvOnHold _ None _ => Inner_on_recv_timeout None inner
  | Receiving _ (Some p) _ | RecvOnHold _ (Some p) _ =>
      Inner_on_recv_timeout (retry_timeout p) inner
  | _ => mret ()
  end;;
  mret (Idle, inner).

Definition State_on_recv_ready (self : State) (inner : Inner) (eid : EndpointId)
    : P (State * Inner) :=
  inner ← Inner_on_recv_ready eid inner;
  match self with
  | RecvOnHold None None timeout => State_recv Idle inner timeout
  | RecvOnHold (Some id) (Some p) timeout =>
      if bool_decide (eid = id) then State_recv (Active id p) inner timeout
      else mret (RecvOnHold (Some id) (Some p) timeout, inner)
  | any => mret (any, inner)
  end.

Definition State_on_recv_not_ready (self : State) (inner : Inner) (eid : EndpointId)
    : P (State * Inner) :=
  inner ← Inner_on_recv_not_ready eid inner; mret (self, inner).

Definition State_on_retry_timeout (self : State) (inner : Inner) : P (State * Inner) :=
  match self with
  | Active _ p => State_send Idle inner (req p) None true
  | any => mret (any, inner)
  end.

Definition State_is_recv_ready (self : State) (inner : Inner) : bool :=
  if is_device_item inner then Inner_is_recv_ready inner
  else match self with Active eid _ => Inner_is_recv_ready_from eid inner | _ => false end.

(** ** The protocol *)

Definition apply (transition : State → Inner → P (State * Inner)) (self : Req) : P Req :=
  match state self with
  | Some old_state =>
      let was_send_ready := State_is_send_ready old_state (inner self) in
      let was_recv_ready := State_is_recv_ready old_state (inner self) in
      '(new_state, inner) ← transition old_state (inner self);
      let is_send_ready := State_is_send_ready new_state inner in
      let is_recv_ready := State_is_recv_ready new_state inner in
      check_send_ready_change was_send_ready is_send_ready;;
      check_recv_ready_change was_recv_ready is_recv_ready;;
      mret (mkReq inner (Some new_state))
  | None => mret self
  end.

Definition Req_from (seed : Z) : Req := mkReq (Inner_new seed) (Some Idle).

Definition Req_is_send_ready (self : Req) : bool :=
  match state self with Some s => State_is_send_ready s (inner self) | None => false end.
Definition Req_is_recv_ready (self : Req) : bool :=
  match state self with Some s => State_is_recv_ready s (inner self) | None => false end.

Definition Req_add_pipe (eid : EndpointId) (pipe : Pipe) (self : Req) : P Req :=
  mret (mkReq (Inner_add_pipe eid pipe (inner self)) (state self)).

Definition Req_remove_pipe (eid : EndpointId) (self : Req) : P (option Pipe * Req) :=
  let was_send_ready := Req_is_send_ready self in
  let was_recv_ready := Req_is_recv_ready self in
  '(pipe, inner) ← Inner_remove_pipe eid (inner self);
  let self := mkReq inner (state self) in
  let is_send_ready := Req_is_send_ready self in
  let is_recv_ready := Req_is_recv_ready self in
  self ← match pipe with
         | Some _ => apply (λ s inner, State_on_pipe_removed s inner eid) self
         | None => mret self
         end;
  check_send_ready_change was_send_ready is_send_ready;;
  check_recv_ready_change was_recv_ready is_recv_ready;;
  mret (pipe, self).

Definition Req_send (msg : Message) (timeout : Timeout) (self : Req) : P Req :=
  '(raw_msg, inner) ← Inner_msg_to_raw_msg msg (inner self);
  apply (λ s inner, State_send s inner raw_msg timeout false) (mkReq inner (state self)).

Definition Req_on_recv_ack (eid : EndpointId) (raw_msg : Message) (self : Req) : P Req :=
  match Inner_raw_msg_to_msg raw_msg (inner self) with
  | Some (msg, req_id) => apply (λ s inner, State_on_recv_ack s inner eid msg req_id) self
  | None => Inner_on_recv_ack_malformed (inner self);; mret self
  end.

Definition Req_set_option (opt : ConfigOption) (self : Req) : result () * Req :=
  match opt with
  | ReqResendIvl ivl => (Ok (), mkReq (Inner_set_resend_ivl ivl (inner self)) (state self))
  | _ => (Err (invalid_input_io_error "option not supported"), self)
  end.

Definition Req_on_timer_tick (task : Schedulable) (self : Req) : P Req :=
  match task with ReqResend => apply State_on_retry_timeout self | _ => mret self end.

Definition Req_on_device_plugged (self : Req) : P Req :=
  mret (mkReq (set_is_device_item true (inner self)) (state self)).

Definition Req_close (self : Req) : P Req :=
  pipes ← close_all (pipes (inner self)); mret (mkReq (set_pipes pipes (inner self)) (state self)).

#[export] Instance Req_protocol : Protocol Req := {|
  proto_id _ := REQ;
  peer_id _ := REP;
  add_pipe := Req_add_pipe;
  remove_pipe := Req_remove_pipe;
  send := Req_send;
  on_send_ack eid := apply (λ s inner, State_on_send_ack s inner eid);
  on_send_timeout := apply State_on_send_timeout;
  on_send_ready eid := apply (λ s inner, State_on_send_ready s inner eid);
  on_send_not_ready eid := apply (λ s inner, State_on_send_not_ready s inner eid);
  recv timeout := apply (λ s inner, State_recv s inner timeout);
  on_recv_ack := Req_on_recv_ack;
  on_recv_timeout := apply State_on_recv_timeout;
  on_recv_ready eid := apply (λ s inner, State_on_recv_ready s inner eid);
  on_recv_not_ready eid := apply (λ s inner, State_on_recv_not_ready s inner eid);
  is_send_ready := Req_is_send_ready;
  is_recv_ready := Req_is_recv_ready;
  set_option := Req_set_option;
  on_timer_tick := Req_on_timer_tick;
  on_device_plugged := Req_on_device_plugged;
  close := Req_close
|}.

End req.

(** ** The contract

    Both priority lists mirror the pipes.  A request being sent or received is on
    a pipe the socket has; it is on hold only while no pipe can take it, or the
    pipe of its reply is not ready.  Outside a device, the message kept for a
    resend carries the current request id. *)

Section contract.
Context `{Env} `{ByteOrder}.

Definition inner_ok (n : Inner) : Prop :=
  routed (lb n) (pipes n) ∧ routed (fq n) (pipes n) ∧ in_range 32 (req_id_seq n).

Definition tagged (msg : Message) (n : Inner) : Prop :=
  is_device_item n = false → ∃ m, msg = encode m (Inner_cur_req_id n).

Definition local_ok (s : State) (n : Inner) : Prop :=
  match s with
  | Idle => True
  | Sending eid msg t retry =>
      is_Some (pc_pipes (pipes n) !! eid) ∧ (retry = true → t = None) ∧ tagged msg n
  | SendOnHold msg t retry =>
      peek (lb n) = false ∧ (retry = true → t = None) ∧ tagged msg n
  | Active _ p => tagged (req p) n
  | Receiving eid None _ => is_Some (pc_pipes (pipes n) !! eid) ∧ is_device_item n = true
  | Receiving eid (Some p) _ => is_Some (pc_pipes (pipes n) !! eid) ∧ tagged (req p) n
  | RecvOnHold None None _ => is_device_item n = true ∧ peek (fq n) = false
  | RecvOnHold (Some eid) (Some p) _ => (eid ∉ rv n) ∧ tagged (req p) n
  | RecvOnHold _ _ _ => False
  end.

Definition state_ok (s : State) (n : Inner) : Prop := inner_ok n ∧ local_ok s n.

Definition Req_inv (self : Req) : Prop :=
  ∃ s, state self = Some s ∧ state_ok s (inner self).

Definition well_formed (raw_msg : Message) : bool := bool_decide (4 <= length (body raw_msg))%nat.

Definition Req_guard (i : input) (self : Req) : bool :=
  let n := inner self in
  match i with
  | IAddPipe eid pipe =>
      bool_decide (addable eid pipe (Pipe_get_send_priority pipe) (pipes n)) &&
      bool_decide (addable eid pipe (Pipe_get_recv_priority pipe) (pipes n))
  | IRemovePipe eid => remove_safe eid (lb n) && remove_safe eid (fq n)
  | ISend _ _ => is_device_item n || bool_decide (req_id_seq n + 1 < 2 ^ 32)
  | IRecvAck _ raw => well_formed raw
  | IDevicePlugged =>
      Bool.eqb (Req_is_recv_ready self) (Req_is_recv_ready (mkReq (set_is_device_item true n) (state self)))
  | _ => true
  end.

Definition State_pending (s : State) : option (kind * Timeout) :=
  match s with
  | Sending _ _ t false | SendOnHold _ t false => Some (KSend, t)
  | Receiving _ _ t | RecvOnHold _ _ t => Some (KRecv, t)
  | _ => None
  end.

Definition State_timers (s : State) : list Scheduled :=
  match s with
  | Active _ p | Receiving _ (Some p) _ | RecvOnHold _ (Some p) _ => option_list (retry_timeout p)
  | _ => []
  end.

Definition Req_pending (self : Req) : option (kind * Timeout) := state self ≫= State_pending.
Definition Req_timers (self : Req) : list Scheduled :=
  match state self with Some s => State_timers s | None => [] end.

Abbreviation transition := (good state_ok State_pending).

Lemma apply_ok own i p t s n h :
  transition own i p (t s n) →
  ∃ self' o, apply t (mkReq n (Some s)) h = Done self' o ∧ Req_inv self' ∧
    announced (mkReq n (Some s)) o self' ∧ contract own p i o (Req_pending self').
Proof.
  intros Hg. destruct (Hg h) as (s' & n' & o & Hrun & Hs & Hm & Hc).
  eexists (mkReq n' (Some s')), (o ++ _). unfold apply. cbn [state inner].
  rewrite bind_run, Hrun. mrun. rewrite app_nil_r. split; [done|]. split; [by exists s'|].
  split; [|apply contract_after; auto].
  split; cbn [is_send_ready is_recv_ready Req_protocol]; views.
Qed.

(** What a send does first with the request it replaces. *)
Definition drop_trace (s : State) : trace :=
  match s with Active _ p => cancel_trace (retry_timeout p) | _ => [] end.

Lemma drop_run s n h :
  ((match s with Active _ p => Inner_cancel p n | _ => mret () end) : P ()) h = Done () (drop_trace s).
Proof. destruct s; try done. apply cancel_opt_run. Qed.

Lemma drop_within s own : State_timers s ⊆ own → within own (drop_trace s).
Proof.
  intros Hs. destruct s as [| | |e p| |]; try (split_and!; simpl; [done|done|set_solver]).
  split_and!; [apply cancel_trace_mute|apply cancel_trace_replies|]. simpl in *.
  by destruct (retry_timeout p).
Qed.

Lemma within_app own o1 o2 : within own o1 → mute o2 → silent o2 → within own (o1 ++ o2).
Proof.
  intros (Hm & Hr & Hc) Hm2 [Hr2 Hc2]. split_and!.
  - by apply mute_app.
  - by rewrite replies_app, Hr, Hr2.
  - by rewrite cancels_app, Hc2, app_nil_r.
Qed.

Lemma req_State_send_run s n msg t retry :
  routed (lb n) (pipes n) →
  (peek (lb n) = false ∧
    ∀ h, State_send s n msg t retry h = Done (SendOnHold msg t retry, n) (drop_trace s)) ∨
  ∃ eid lb', peek (lb n) = true ∧ routed lb' (pipes n) ∧ is_Some (pc_pipes (pipes n) !! eid) ∧
    ∀ h, State_send s n msg t retry h =
      Done (Sending eid msg t retry, set_lb lb' n) (drop_trace s ++ [NetSend eid msg]).
Proof.
  intros Hlb.
  unfold State_send, Inner_send.
  destruct (load_balancing_run (lb n) (pipes n) msg Hlb)
    as [[Hpk Hrun]|(eid & lb' & Hpk & Hrun & Hlb' & _ & Hin)]; [left|right].
  - split; [done|]. intros h. rewrite bind_run, drop_run. mrun. rewrite Hrun. mrun.
    rewrite app_nil_r. by destruct n.
  - exists eid, lb'. split_and!; try done. intros h. rewrite bind_run, drop_run. mrun. rewrite Hrun. by mrun.
Qed.

Lemma send_good own i p s n msg t (retry : bool) :
  inner_ok n → tagged msg n → State_timers s ⊆ own →
  (if retry then t = None ∧ p = None ∧ request i = None
   else p = None ∧ request i = Some (KSend, t) ∨ p = Some (KSend, t) ∧ request i = None) →
  transition own i p (State_send s n msg t retry).
Proof.
  intros (Hlb & Hfq & Hseq) Htag Hown Hp. pose proof (drop_within s own Hown) as Hw.
  destruct (req_State_send_run s n msg t retry Hlb)
    as [[Hpk Hrun]|(eid & lb' & _ & Hlb' & Hin & Hrun)].
  - assert (Hok : state_ok (SendOnHold msg t retry) n).
    { split; [done|]. split_and!; [done| |done]. destruct retry; [by destruct Hp|done]. }
    destruct retry; [destruct Hp as (-> & -> & Hq)|].
    + by eapply (good_keep_own state_ok State_pending own i Idle).
    + by eapply (good_take_own state_ok State_pending own i p KSend t).
  - assert (Hok : state_ok (Sending eid msg t retry) (set_lb lb' n)).
    { split; [done|]. split_and!; [done| |done]. destruct retry; [by destruct Hp|done]. }
    assert (Hw' : within own (drop_trace s ++ [NetSend eid msg])) by (by apply within_app).
    destruct retry; [destruct Hp as (-> & -> & Hq)|].
    + by eapply (good_keep_own state_ok State_pending own i Idle).
    + by eapply (good_take_own state_ok State_pending own i p KSend t).
Qed.

Lemma device_recv_good own i p s n t :
  inner_ok n → is_device_item n = true →
  (p = None ∧ request i = Some (KRecv, t) ∨ p = Some (KRecv, t) ∧ request i = None) →
  transition own i p (State_recv s n t).
Proof.
  intros (Hlb & Hfq & Hseq) Hdev Hp. unfold State_recv, Inner_recv. rewrite Hdev.
  destruct (fair_queue_run (fq n) (pipes n) Hfq)
    as [[Hpk Hrun]|(eid & fq' & _ & Hrun & Hfq' & _ & Hin)].
  - eapply (good_take_own state_ok State_pending own i p KRecv t (RecvOnHold None None t) n []);
      [done|by split|done|by split_and!; [..|set_solver]|].
    intros h. mrun. rewrite Hrun. mrun. by destruct n.
  - eapply (good_take_own state_ok State_pending own i p KRecv t (Receiving eid None t) (set_fq fq' n)
      [NetRecv eid]); [done|by split|done|by split_and!; [..|set_solver]|].
    intros h. mrun. by rewrite Hrun.
Qed.

Lemma set_rv_ok n x : inner_ok n → inner_ok (set_rv x n).
Proof. by intros (? & ? & ?). Qed.

Lemma recv_reply_good own i p s n t eid q :
  inner_ok n → tagged (req q) n →
  (p = None ∧ request i = Some (KRecv, t) ∨ p = Some (KRecv, t) ∧ request i = None) →
  transition own i p (State_recv_reply_for s n t eid q).
Proof.
  intros Hn Htag Hp. unfold State_recv_reply_for, Inner_recv_reply_from, get_mut. cbn [pipes set_rv].
  assert (Hn' := set_rv_ok n (rv n ∖ {[eid]}) Hn).
  assert (Htag' : tagged (req q) (set_rv (rv n ∖ {[eid]}) n)) by done.
  destruct (pc_pipes (pipes n) !! eid) as [pipe|] eqn:Hl.
  - eapply (good_take_own state_ok State_pending own i p KRecv t (Receiving eid (Some q) t)
      (set_rv (rv n ∖ {[eid]}) n) [NetRecv (pipe_id pipe)]);
      [done| |done|by split_and!; [..|set_solver]|by intros h; mrun].
    split; [done|]. split; [by eexists|done].
  - eapply (good_take_own state_ok State_pending own i p KRecv t (RecvOnHold (Some eid) (Some q) t)
      (set_rv (rv n ∖ {[eid]}) n) []);
      [done| |done|by split_and!; [..|set_solver]|by intros h; mrun].
    split; [done|]. split; [simpl; set_solver|done].
Qed.

Lemma recv_good own i p s n t :
  state_ok s n →
  (p = None ∧ request i = Some (KRecv, t) ∨ p = Some (KRecv, t) ∧ request i = None ∧ fires i = None) →
  transition own i p (State_recv s n t).
Proof.
  intros Hs Hp. destruct (is_device_item n) eqn:Hdev.
  { apply device_recv_good; [apply Hs|done|naive_solver]. }
  unfold State_recv. rewrite Hdev.
  assert (Hinactive : transition own i p (Inner_recv_when_inactive t n;; mret (Idle, n))).
  { eapply (good_reply_own state_ok State_pending own i p KRecv t (ReplyErr _) None Idle n);
      [done|done|by destruct Hs|done|set_solver|].
    intros h. unfold Inner_recv_when_inactive, send_reply. by mrun. }
  destruct s as [| | |e q| |]; try done.
  apply recv_reply_good; [apply Hs|apply Hs|naive_solver].
Qed.

(** *** Removal *)

Lemma tagged_same msg n n' :
  is_device_item n' = is_device_item n → req_id_seq n' = req_id_seq n → tagged msg n → tagged msg n'.
Proof. unfold tagged, Inner_cur_req_id. intros -> ->. done. Qed.

(** What a state says of the pipe [eid] it depends on. *)
Definition depends (s : State) (eid : EndpointId) : Prop :=
  match s with Sending id _ _ _ | Receiving id _ _ => id = eid | _ => False end.

(** [n'] is [n] with the pipe [eid] gone. *)
Record without (eid : EndpointId) (n n' : Inner) : Prop := {
  without_ok : inner_ok n';
  without_pipes : pc_pipes (pipes n') = delete eid (pc_pipes (pipes n));
  without_lb : peek (lb n) = false → peek (lb n') = false;
  without_fq : peek (fq n) = false → peek (fq n') = false;
  without_rv : rv n' = rv n ∖ {[eid]};
  without_dev : is_device_item n' = is_device_item n;
  without_seq : req_id_seq n' = req_id_seq n
}.

Lemma Inner_remove_run eid n :
  inner_ok n → remove_safe eid (lb n) = true → remove_safe eid (fq n) = true →
  ∃ n', without eid n n' ∧
    ∀ h, Inner_remove_pipe eid n h = Done (pc_pipes (pipes n) !! eid, n') [].
Proof.
  intros (Hlb & Hfq & Hseq) Hg1 Hg2.
  destruct (routed_remove _ _ eid Hlb Hg1) as (lb' & Hrm1 & Hlb' & Hpk1).
  destruct (routed_remove _ _ eid Hfq Hg2) as (fq' & Hrm2 & Hfq' & Hpk2).
  eexists. split; [|intros h; unfold Inner_remove_pipe; rewrite Hrm1, Hrm2; mrun; done].
  by split.
Qed.

Lemma without_local eid n n' s :
  without eid n n' → local_ok s n → ¬ depends s eid → local_ok s n'.
Proof.
  intros [Hok Hp Hlb Hfq Hrv Hdev Hseq] Hs Hnd.
  assert (Htag : ∀ m, tagged m n → tagged m n') by (intros; by eapply tagged_same).
  assert (Hin : ∀ id, id ≠ eid → is_Some (pc_pipes (pipes n) !! id) → is_Some (pc_pipes (pipes n') !! id)).
  { intros id Hne. by rewrite Hp, lookup_delete_ne. }
  destruct s as [|id m t r|m t r|id q|id [q|] t|[id|] [q|] t]; simpl in *; try done.
  - destruct Hs as (H1 & H2 & H3). split_and!; auto.
  - destruct Hs as (H1 & H2 & H3). split_and!; auto.
  - auto.
  - destruct Hs as [H1 H2]. split; auto.
  - destruct Hs as [H1 H2]. split; [auto|by rewrite Hdev].
  - destruct Hs as [H1 H2]. split; [|auto]. rewrite Hrv. set_solver.
  - destruct Hs as [H1 H2]. split; [by rewrite Hdev|auto].
Qed.

Lemma removed_good eid n n' s :
  without eid n n' → state_ok s n →
  transition (State_timers s) (IRemovePipe eid) (State_pending s) (State_on_pipe_removed s n' eid).
Proof.
  intros Hw [Hn Hs]. pose proof (without_ok _ _ _ Hw) as Hn'.
  assert (Htag : ∀ m, tagged m n → tagged m n')
    by (intros; eapply tagged_same; [apply (without_dev _ _ _ Hw)|apply (without_seq _ _ _ Hw)|done]).
  assert (Hkeep : ¬ depends s eid → transition (State_timers s) (IRemovePipe eid) (State_pending s) (mret (s, n'))).
  { intros Hnd. apply good_stay; [split; [done|by eapply without_local]|done]. }
  destruct s as [|id m t r|m t r|id q|id q t|id q t]; try (apply Hkeep; by intros []).
  - simpl State_on_pipe_removed. case_bool_decide; [|by apply Hkeep].
    destruct Hs as (_ & Ht & Hm). apply send_good; [done|auto|set_solver|].
    destruct r; simpl; auto.
  - simpl State_on_pipe_removed. case_bool_decide; [|apply Hkeep; simpl; congruence].
    apply recv_good; [by split|auto].
Qed.

(** A removal's transition never makes the socket ready. *)
Lemma req_removed_lowers eid s n h s' n' o :
  inner_ok n → State_on_pipe_removed s n eid h = Done (s', n') o →
  (State_is_send_ready s n = false → State_is_send_ready s' n' = false) ∧
  (State_is_recv_ready s n = false → State_is_recv_ready s' n' = false).
Proof.
  intros (Hlb & Hfq & Hseq). destruct s as [|id m t r|m t r|id q|id q t|id q t];
    simpl; try (intros [= <- <- <-]; by split); (case_bool_decide; [|intros [= <- <- <-]; by split]).
  - destruct (req_State_send_run Idle n m t r Hlb) as [[Hpk ->]|(e & lb' & Hpk & _ & _ & ->)];
      intros [= <- <- <-]; split; try done.
    unfold State_is_send_ready, Inner_is_send_ready. by rewrite Hpk.
  - unfold State_recv, State_is_recv_ready. destruct (is_device_item n) eqn:Hdev.
    + unfold Inner_recv, Inner_is_recv_ready. mrun.
      destruct (fair_queue_run (fq n) (pipes n) Hfq) as [[Hpk ->]|(e & fq' & Hpk & -> & _)]; mrun;
        intros [= <- <- <-]; (split; [done|]); simpl; rewrite Hdev; [done|by rewrite Hpk].
    + unfold Inner_recv_when_inactive, send_reply. mrun. intros [= <- <- <-]. by rewrite Hdev.
Qed.

Lemma req_apply_inv t n s h self' o :
  apply t (mkReq n (Some s)) h = Done self' o →
  ∃ s' n' o', t s n h = Done (s', n') o' ∧ self' = mkReq n' (Some s').
Proof.
  unfold apply. cbn [state inner]. rewrite bind_run. destruct (t s n h) as [[s' n'] o'|]; [|done].
  mrun. intros [= <- _]. eauto.
Qed.

Lemma without_unready eid n n' s :
  without eid n n' →
  (State_is_send_ready s n = false → State_is_send_ready s n' = false) ∧
  (State_is_recv_ready s n = false → State_is_recv_ready s n' = false).
Proof.
  intros Hw. split; [apply (without_lb _ _ _ Hw)|]. unfold State_is_recv_ready. rewrite (without_dev _ _ _ Hw).
  destruct (is_device_item n); [apply (without_fq _ _ _ Hw)|]. destruct s; try done.
  unfold Inner_is_recv_ready_from. rewrite (without_rv _ _ _ Hw), !bool_decide_eq_false. set_solver.
Qed.

Lemma remove_ok eid n s h :
  state_ok s n → remove_safe eid (lb n) && remove_safe eid (fq n) = true →
  ∃ r self' o, Req_remove_pipe eid (mkReq n (Some s)) h = Done (r, self') o ∧
    Req_inv self' ∧ announced (mkReq n (Some s)) o self' ∧
    contract (State_timers s) (State_pending s) (IRemovePipe eid) o (Req_pending self').
Proof.
  intros Hs [Hg1 Hg2]%andb_true_iff.
  destruct (Inner_remove_run eid n (proj1 Hs) Hg1 Hg2) as (n' & Hw & Hn).
  destruct (without_unready eid n n' s Hw) as [Hus Hur].
  unfold Req_remove_pipe. cbn [inner state]. rewrite bind_run, Hn. mrun.
  destruct (pc_pipes (pipes n) !! eid) as [p|] eqn:Hl.
  - edestruct (apply_ok (State_timers s) (IRemovePipe eid) (State_pending s)
      (λ s inner, State_on_pipe_removed s inner eid) s n')
      as (self' & o & Hrun & Hi & [Ha1 Ha2] & Hc); [by eapply removed_good|].
    destruct (req_apply_inv _ _ _ _ _ _ Hrun) as (s2 & n2 & o2 & Hrun2 & ->).
    destruct (req_removed_lowers eid s n' _ s2 n2 o2 (without_ok _ _ _ Hw) Hrun2) as [Hls Hlr].
    eexists _, _, _. rewrite Hrun. mrun. rewrite app_nil_r. split; [done|]. split; [done|].
    split; [split|apply contract_after; auto].
    + eapply late_send_view; [exact Ha1|exact Hus|exact Hls|intros; apply recv_change_send_view].
    + eapply late_recv_view; [exact Ha2|exact Hur|exact Hlr|intros; apply send_change_recv_view].
  - eexists None, (mkReq n' (Some s)), _. split; [mrun; done|].
    split; [|split; [|apply contract_quiet; auto]].
    + exists s. split; [done|]. split; [apply (without_ok _ _ _ Hw)|]. eapply without_local; [done|apply Hs|].
      destruct Hs as [_ Hs]. intros Hdep. destruct s as [|id m t r|m t r|id q|id [q|] t|id q t]; simpl in Hdep; try done; subst id;
        destruct Hs as [Hsome _]; rewrite Hl in Hsome; by destruct Hsome.
    + split; cbn [is_send_ready is_recv_ready Req_protocol]; views.
Qed.

(** *** The other calls *)

Lemma grown_local n n' s :
  (∀ id, is_Some (pc_pipes (pipes n) !! id) → is_Some (pc_pipes (pipes n') !! id)) →
  peek (lb n') = peek (lb n) → peek (fq n') = peek (fq n) → rv n' = rv n →
  is_device_item n' = is_device_item n → req_id_seq n' = req_id_seq n →
  local_ok s n → local_ok s n'.
Proof.
  intros Hin Hlb Hfq Hrv Hdev Hseq Hs.
  assert (Htag : ∀ m, tagged m n → tagged m n') by (intros; by eapply tagged_same).
  destruct s as [|id m t r|m t r|id q|id [q|] t|[id|] [q|] t]; simpl in *;
    rewrite ?Hlb, ?Hfq, ?Hrv, ?Hdev; try done; destruct_and?; split_and?; auto.
Qed.

Lemma add_ok eid pipe n s :
  state_ok s n → addable eid pipe (Pipe_get_send_priority pipe) (pipes n) →
  addable eid pipe (Pipe_get_recv_priority pipe) (pipes n) →
  state_ok s (Inner_add_pipe eid pipe n).
Proof.
  intros [(Hlb & Hfq & Hseq) Hs] Ha1 Ha2. split.
  - split_and!; [by apply routed_insert|by apply routed_insert|done].
  - eapply grown_local; [| | | | | |exact Hs]; try done.
    intros id Hid. simpl. destruct (decide (eid = id)) as [->|Hne];
      [by rewrite lookup_insert_eq|by rewrite lookup_insert_ne].
Qed.

Lemma on_send_ack_run t retry n h :
  ∃ rt o, Inner_on_send_ack t retry n h =
    Done rt ((if retry : bool then [] else [SendReply ReplySend]) ++ cancel_trace t ++ o) ∧
    mute o ∧ silent o.
Proof.
  unfold Inner_on_send_ack, ctx_schedule, send_reply, history.
  destruct retry, (is_device_item n); cbn [negb]; mrun;
    (eexists _, []; split; [done|done]) || (eexists _, [_]; split; [done|done]).
Qed.

Lemma ack_good eid n s :
  state_ok s n → transition (State_timers s) (ISendAck eid) (State_pending s) (State_on_send_ack s n eid).
Proof.
  intros Hs. destruct s as [|id m t r|m t r|id q|id q t|id q t]; try by apply good_stay.
  simpl State_on_send_ack. case_bool_decide; cbn [negb]; [|by apply good_stay].
  intros h. destruct (on_send_ack_run t r n h) as (rt & o & Hrun & Hm & Hsil).
  set (s' := if is_device_item n then Idle else Active eid (mkPendingRequest m rt)).
  exists s', n, (((if r then [] else [SendReply ReplySend]) ++ cancel_trace t ++ o) ++ []).
  destruct Hs as [Hn (_ & Ht & Htag)]. split_and!.
  - rewrite bind_run, Hrun. unfold s'. by destruct (is_device_item n).
  - split; [done|]. unfold s'. by destruct (is_device_item n).
  - rewrite app_nil_r. destruct r; simpl; auto.
  - rewrite app_nil_r. assert (State_pending s' = None) as ->.
    { unfold s'. by destruct (is_device_item n). }
    destruct r; simpl.
    + rewrite Ht by done. by apply contract_quiet.
    + apply (contract_after _ _ _ (SendReply ReplySend :: cancel_trace t)); [|done].
      eapply (contract_reply _ _ _ KSend t); auto.
Qed.

Lemma req_send_timeout_good n s t :
  state_ok s n → State_pending s = Some (KSend, t) →
  transition (State_timers s) ISendTimeout (State_pending s) (State_on_send_timeout s n).
Proof. intros [Hn _] ->. eapply (good_expire _ _ _ _ _ _ _ Idle n); done. Qed.

Lemma req_recv_timeout_good n s t :
  state_ok s n → State_pending s = Some (KRecv, t) →
  transition (State_timers s) IRecvTimeout (State_pending s) (State_on_recv_timeout s n).
Proof.
  intros [Hn _] Hp. rewrite Hp.
  assert (Hone : ∀ rt, option_list rt ⊆ State_timers s → (∀ h,
    State_on_recv_timeout s n h =
      (Inner_on_recv_timeout rt n;; mret (Idle, n)) h) →
    transition (State_timers s) IRecvTimeout (Some (KRecv, t)) (State_on_recv_timeout s n)).
  { intros rt Hrt Hrun.
    eapply (good_expire_own state_ok State_pending _ _ KRecv t _ rt Idle n); try done.
    intros h. rewrite Hrun. unfold Inner_on_recv_timeout, send_reply. mrun. by rewrite app_nil_r. }
  destruct s as [|id m t' []|m t' []|id q|id [q|] t'|id [q|] t']; try done;
    solve [by apply (Hone (retry_timeout q))|by apply (Hone None)].
Qed.

Lemma req_send_ready_good eid n s :
  state_ok s n → transition (State_timers s) (ISendReady eid) (State_pending s) (State_on_send_ready s n eid).
Proof.
  intros [(Hlb & Hfq & Hseq) Hs]. unfold State_on_send_ready, Inner_on_send_ready.
  destruct (routed_activate _ _ eid Hlb) as (lb' & -> & Hlb').
  eapply good_bind; [done|].
  destruct s as [|id m t r|m t r|id q|id q t|id q t]; try by apply good_stay.
  destruct Hs as (_ & Ht & Htag). apply send_good; [done|done|set_solver|]. destruct r; simpl; auto.
Qed.

Lemma req_send_not_ready_good eid n s :
  state_ok s n →
  transition (State_timers s) (ISendNotReady eid) (State_pending s) (State_on_send_not_ready s n eid).
Proof.
  intros [(Hlb & Hfq & Hseq) Hs]. unfold State_on_send_not_ready, Inner_on_send_not_ready.
  destruct (routed_deactivate _ _ eid Hlb) as (lb' & -> & Hlb' & Hpk).
  eapply good_bind; [done|]. apply good_stay; [|done]. split; [done|].
  destruct s as [|id m t r|m t r|id q|id q t|id q t]; try done.
  destruct Hs as (H1 & H2 & H3). split_and!; auto.
Qed.

Lemma req_recv_ack_good eid raw msg rid n s :
  state_ok s n →
  transition (State_timers s) (IRecvAck eid raw) (State_pending s) (State_on_recv_ack s n eid msg rid).
Proof.
  intros Hs. destruct s as [|id m t r|m t r|id q|id [q|] t|id q t]; try by apply good_stay.
  - simpl State_on_recv_ack. case_bool_decide; [|by apply good_stay].
    case_bool_decide; [|apply recv_reply_good; [apply Hs|apply Hs|auto]].
    eapply (good_reply_own state_ok State_pending _ _ _ KRecv t (ReplyRecv msg) (retry_timeout q) Idle n);
      [auto|done|by destruct Hs|done|done|].
    intros h. unfold Inner_on_recv_ack, send_reply. mrun. by rewrite app_nil_r.
  - simpl State_on_recv_ack. case_bool_decide; [|by apply good_stay].
    eapply (good_reply_own state_ok State_pending _ _ _ KRecv t (ReplyRecv msg) None Idle n);
      [auto|done|by destruct Hs|done|done|].
    intros h. unfold Inner_on_recv_ack, send_reply. mrun. by rewrite app_nil_r.
Qed.

Lemma req_recv_ready_good eid n s :
  state_ok s n → transition (State_timers s) (IRecvReady eid) (State_pending s) (State_on_recv_ready s n eid).
Proof.
  intros [(Hlb & Hfq & Hseq) Hs]. unfold State_on_recv_ready, Inner_on_recv_ready.
  destruct (routed_activate _ _ eid Hfq) as (fq' & -> & Hfq').
  eapply good_bind; [done|].
  destruct s as [|id m t r|m t r|id q|id [q|] t|[id|] [q|] t]; try by apply good_stay.
  - destruct Hs as [Hrv Htag]. case_bool_decide.
    + apply (recv_good _ _ _ (Active id q)); [done|auto].
    + apply good_stay; [|done]. split; [done|]. split; [simpl; set_solver|done].
  - apply recv_good; [done|auto].
Qed.

Lemma req_recv_not_ready_good eid n s :
  state_ok s n →
  transition (State_timers s) (IRecvNotReady eid) (State_pending s) (State_on_recv_not_ready s n eid).
Proof.
  intros [(Hlb & Hfq & Hseq) Hs]. unfold State_on_recv_not_ready, Inner_on_recv_not_ready.
  destruct (routed_deactivate _ _ eid Hfq) as (fq' & -> & Hfq' & Hpk).
  eapply good_bind; [done|]. apply good_stay; [|done]. split; [done|].
  destruct s as [|id m t r|m t r|id q|id [q|] t|[id|] [q|] t]; try done.
  - destruct Hs as [Hrv Htag]. split; [simpl; set_solver|done].
  - destruct Hs as [Hdev Hp]. split; [done|by apply Hpk].
Qed.

Lemma retry_good n s :
  state_ok s n →
  transition (State_timers s) (ITimerTick ReqResend) (State_pending s) (State_on_retry_timeout s n).
Proof.
  intros Hs. destruct s as [|id m t r|m t r|id q|id q t|id q t]; try by apply good_stay.
  apply send_good; [apply Hs|apply Hs|set_solver|auto].
Qed.

(** ** The ids of requests *)

Lemma set_high_bit x : 0 <= x < 2 ^ 32 → Z.lor x 2147483648 = x mod 2 ^ 31 + 2 ^ 31.
Proof.
  intros Hx. rewrite <- Z.add_lor_land. change 2147483648 with (2 ^ 31).
  assert (Hlor : Z.lor (x mod 2 ^ 31) (2 ^ 31) = Z.lor x (2 ^ 31)).
  { apply Z.bits_inj'. intros k Hk. rewrite !Z.lor_spec, Z.pow2_bits_eqb by lia.
    destruct (Z.lt_total k 31) as [Hlt|[->|Hgt]].
    - by rewrite Z.mod_pow2_bits_low by lia.
    - by rewrite !orb_true_r.
    - rewrite Z.mod_pow2_bits_high by lia. rewrite <- (Z.mod_small x (2 ^ 32)), Z.mod_pow2_bits_high by lia. done. }
  assert (Hland : Z.land (x mod 2 ^ 31) (2 ^ 31) = 0).
  { apply Z.bits_inj'. intros k Hk. rewrite Z.land_spec, Z.pow2_bits_eqb, Z.bits_0 by lia.
    case (Z.eqb_spec 31 k) as [<-|]; [by rewrite Z.mod_pow2_bits_high by lia|apply andb_false_r]. }
  rewrite Hlor, Hland. lia.
Qed.

(** Requests sent one after the other. *)
Fixpoint tag_all (msgs : list Message) (self : Inner) : P (list Message * Inner) :=
  match msgs with
  | [] => mret ([], self)
  | msg :: rest =>
      '(raw, self) ← Inner_msg_to_raw_msg msg self;
      '(raws, self) ← tag_all rest self;
      mret (raw :: raws, self)
  end.

(** The id of the request [i] after the sequence stood at [s]. *)
Definition request_id (s : Z) (i : nat) : Z := (s + 1 + Z.of_nat i) mod 2 ^ 31 + 2 ^ 31.

Lemma next_req_id_wraps n h :
  in_range 32 (req_id_seq n) →
  Inner_next_req_id n h =
    if overflow_checks && bool_decide (2 ^ 32 <= req_id_seq n + 1) then Panicked
    else Done (request_id (req_id_seq n) 0, set_req_id_seq (wrap 32 (req_id_seq n + 1)) n) [].
Proof.
  unfold in_range. intros Hr. unfold Inner_next_req_id, checked_add, wrap.
  assert (Hid : ∀ x, 0 <= x < 2 ^ 32 → x mod 2 ^ 31 = (req_id_seq n + 1) mod 2 ^ 31 →
    Z.lor x 2147483648 = request_id (req_id_seq n) 0).
  { intros x Hx Heq. rewrite set_high_bit by done. unfold request_id. rewrite Heq. do 2 f_equal. lia. }
  case_decide as Hd.
  - rewrite bool_decide_false, andb_false_r, bind_run, lift_some, ret_run by lia. cbn [req_id_seq set_req_id_seq].
    rewrite (Hid (req_id_seq n + 1)), (Z.mod_small (req_id_seq n + 1)) by (done || lia). done.
  - rewrite bool_decide_true, andb_true_r by lia. destruct overflow_checks; [done|].
    rewrite bind_run, lift_some, ret_run. cbn [req_id_seq set_req_id_seq].
    rewrite (Hid ((req_id_seq n + 1) mod 2 ^ 32)); [done|by apply Z.mod_pos_bound|].
    symmetry. apply Znumtheory.Zmod_div_mod; [done|done|by exists 2].
Qed.

Lemma request_id_later s i : request_id (wrap 32 (s + 1)) i = request_id s (S i).
Proof.
  unfold request_id, wrap. f_equal. rewrite <- Z.add_assoc, Z.add_mod, <- (Znumtheory.Zmod_div_mod _ (2 ^ 32)), <- Z.add_mod
    by (done || by exists 2). f_equal. lia.
Qed.

Lemma tag_all_run msgs n h :
  is_device_item n = false → in_range 32 (req_id_seq n) →
  tag_all msgs n h =
    if overflow_checks && bool_decide (2 ^ 32 <= req_id_seq n + Z.of_nat (length msgs)) then Panicked
    else Done (zip_with encode msgs (request_id (req_id_seq n) <$> seq 0 (length msgs)),
               set_req_id_seq (wrap 32 (req_id_seq n + Z.of_nat (length msgs))) n) [].
Proof.
  unfold in_range. revert n h. induction msgs as [|msg msgs IH]; intros n h Hdev Hr.
  { cbn [length]. rewrite Z.add_0_r, bool_decide_false, andb_false_r by lia. unfold wrap. rewrite Z.mod_small by done.
    by destruct n. }
  set (n1 := set_req_id_seq (wrap 32 (req_id_seq n + 1)) n).
  assert (Hr1 : 0 <= req_id_seq n1 < 2 ^ 32) by by apply Z.mod_pos_bound.
  cbn [tag_all]. rewrite bind_run. unfold Inner_msg_to_raw_msg. rewrite Hdev, bind_run, next_req_id_wraps by done.
  destruct (overflow_checks && bool_decide (2 ^ 32 <= req_id_seq n + 1)) eqn:Hov.
  { apply andb_true_iff in Hov as [-> Hov%bool_decide_eq_true]. rewrite bool_decide_true by (cbn [length]; lia). done. }
  rewrite ret_run. cbv beta iota. rewrite app_nil_r, bind_run. fold n1. rewrite (IH n1) by done.
  assert (Hsum : overflow_checks && bool_decide (2 ^ 32 <= req_id_seq n1 + Z.of_nat (length msgs)) =
    overflow_checks && bool_decide (2 ^ 32 <= req_id_seq n + Z.of_nat (length (msg :: msgs)))).
  { destruct overflow_checks; [|done]. cbn [andb] in *. apply bool_decide_eq_false in Hov.
    cbn [req_id_seq set_req_id_seq n1 length]. unfold wrap. rewrite Z.mod_small by lia. apply bool_decide_ext. lia. }
  rewrite Hsum. clear Hsum Hov. destruct (_ && _); [done|]. rewrite ret_run. cbn [app length]. f_equal. f_equal.
  - change (seq 0 (S (length msgs))) with (0%nat :: seq 1 (length msgs)). rewrite fmap_cons. cbn [zip_with]. f_equal. f_equal.
    rewrite <- fmap_S_seq, <- list_fmap_compose. apply list_fmap_ext. intros i x _. apply request_id_later.
  - cbn [n1 set_req_id_seq req_id_seq]. unfold set_req_id_seq. cbn. f_equal. unfold wrap. rewrite Zplus_mod_idemp_l. f_equal. lia.
Qed.

Lemma next_id_run n :
  is_device_item n = false → in_range 32 (req_id_seq n) → req_id_seq n + 1 < 2 ^ 32 →
  ∀ h, Inner_next_req_id n h =
    Done (Inner_cur_req_id (set_req_id_seq (req_id_seq n + 1) n),
          set_req_id_seq (req_id_seq n + 1) n) [].
Proof. intros Hdev Hr Hlt h. unfold Inner_next_req_id. rewrite checked_add_fits by done. by mrun. Qed.

Lemma to_raw_run msg n :
  inner_ok n → is_device_item n || bool_decide (req_id_seq n + 1 < 2 ^ 32) = true →
  ∃ raw n', (∀ h, Inner_msg_to_raw_msg msg n h = Done (raw, n') []) ∧ inner_ok n' ∧
    tagged raw n' ∧ lb n' = lb n ∧ fq n' = fq n ∧ rv n' = rv n ∧ is_device_item n' = is_device_item n.
Proof.
  intros (Hlb & Hfq & Hseq) Hg. unfold Inner_msg_to_raw_msg.
  destruct (is_device_item n) eqn:Hdev; simpl in Hg.
  - exists msg, n. split_and!; try done. unfold tagged. by rewrite Hdev.
  - apply bool_decide_eq_true in Hg.
    eexists _, (set_req_id_seq (req_id_seq n + 1) n). split.
    { intros h. rewrite bind_run, next_id_run by done. by mrun. }
    split_and!; try done.
    { split; [done|split; [done|]]. unfold in_range in *. cbn [req_id_seq set_req_id_seq]. lia. }
    intros _. by exists msg.
Qed.

Lemma send_ok n s msg t h :
  state_ok s n → State_pending s = None →
  is_device_item n || bool_decide (req_id_seq n + 1 < 2 ^ 32) = true →
  ∃ self' o, Req_send msg t (mkReq n (Some s)) h = Done self' o ∧ Req_inv self' ∧
    announced (mkReq n (Some s)) o self' ∧
    contract (State_timers s) None (ISend msg t) o (Req_pending self').
Proof.
  intros Hs Hp Hg. destruct (to_raw_run msg n (proj1 Hs) Hg)
    as (raw & n' & Hraw & Hn' & Htag & Hlb & Hfq & Hrv & Hdev).
  unfold Req_send. cbn [inner state]. rewrite bind_run, Hraw. cbn beta iota.
  edestruct (apply_ok (State_timers s) (ISend msg t) None
    (λ s inner, State_send s inner raw t false) s n') as (self' & o & Hrun & Hi & [Ha1 Ha2] & Hc).
  { apply send_good; auto. }
  exists self', o. rewrite Hrun. split; [done|]. split; [done|]. split; [|done].
  split.
  - rewrite <- Ha1. f_equal. cbn. unfold Req_is_send_ready, State_is_send_ready, Inner_is_send_ready. simpl. by rewrite Hlb.
  - rewrite <- Ha2. f_equal. cbn. unfold Req_is_recv_ready, State_is_recv_ready. simpl. rewrite Hdev.
    destruct (is_device_item n); [unfold Inner_is_recv_ready; by rewrite Hfq|].
    destruct s; try done. unfold Inner_is_recv_ready_from. by rewrite Hrv.
Qed.

Lemma raw_some raw n : well_formed raw = true → is_Some (Inner_raw_msg_to_msg raw n).
Proof.
  unfold well_formed, Inner_raw_msg_to_msg, decode, get_body. rewrite bool_decide_eq_true. intros Hlen.
  rewrite bool_decide_false by lia. destruct (is_device_item n); by eexists.
Qed.

Lemma plug_ok n s :
  state_ok s n → state_ok s (set_is_device_item true n).
Proof.
  intros [Hn Hs]. split; [done|].
  assert (Htag : ∀ m, tagged m (set_is_device_item true n)) by done.
  destruct s as [|id m t r|m t r|id q|id [q|] t|[id|] [q|] t]; simpl in *; naive_solver.
Qed.

Lemma Req_step_ok i self h :
  Req_inv self → Req_guard i self = true → allowed i (Req_pending self) = true →
  ∃ self' out, step i self h = Done self' out ∧ Req_inv self' ∧ announced self out self' ∧
    contract (Req_timers self) (Req_pending self) i out (Req_pending self').
Proof.
  destruct self as [n os]. intros (s & Hos & Hs) Hg Ha. cbn [inner state] in *. subst os.
  change (Req_pending (mkReq n (Some s))) with (State_pending s) in *.
  change (Req_timers (mkReq n (Some s))) with (State_timers s) in *.
  assert (Hstay : ∀ n', state_ok s n' → announced (mkReq n (Some s)) [] (mkReq n' (Some s)) →
    request i = None → (step i (mkReq n (Some s)) h = Done (mkReq n' (Some s)) []) →
    ∃ self' out, step i (mkReq n (Some s)) h = Done self' out ∧ Req_inv self' ∧
      announced (mkReq n (Some s)) out self' ∧
      contract (State_timers s) (State_pending s) i out (Req_pending self')).
  { intros n' Hn' Han Hr Hrun. exists (mkReq n' (Some s)), []. split_and!; [done|by exists s|done|].
    by apply contract_quiet. }
  destruct i as [eid pipe|eid|msg t|eid| |eid|eid|t|eid msg| |eid|eid|opt|task|].
  - apply andb_true_iff in Hg as [Hg1%bool_decide_eq_true Hg2%bool_decide_eq_true].
    apply (Hstay (Inner_add_pipe eid pipe n)); [by apply add_ok|done..].
  - destruct (remove_ok eid n s h) as (r & self' & o & Hrun & Hi & Hc); [done..|].
    eexists _, _. simpl step. rewrite bind_run, Hrun. mrun. split; [done|]. by rewrite app_nil_r.
  - apply (allowed_request _ KSend t) in Ha; [|done]. rewrite Ha. by apply send_ok.
  - by apply apply_ok, ack_good.
  - destruct (allowed_fires ISendTimeout KSend _ eq_refl Ha) as [t Ht]. by eapply apply_ok, req_send_timeout_good.
  - by apply apply_ok, req_send_ready_good.
  - by apply apply_ok, req_send_not_ready_good.
  - apply (allowed_request _ KRecv t) in Ha; [|done]. rewrite Ha. apply apply_ok, recv_good; auto.
  - simpl step. unfold Req_on_recv_ack. cbn [inner].
    destruct (raw_some msg n Hg) as [[m rid] ->]. by apply apply_ok, req_recv_ack_good.
  - destruct (allowed_fires IRecvTimeout KRecv _ eq_refl Ha) as [t Ht]. by eapply apply_ok, req_recv_timeout_good.
  - by apply apply_ok, req_recv_ready_good.
  - by apply apply_ok, req_recv_not_ready_good.
  - eexists (Req_set_option opt (mkReq n (Some s))).2, []. split; [done|].
    destruct opt; (split; [by exists s|split; [done|by apply contract_quiet]]).
  - destruct task; try by apply (Hstay n). by apply apply_ok, retry_good.
  - apply (Hstay (set_is_device_item true n)); [by apply plug_ok| |done..].
    split; [done|]. by apply eqb_prop in Hg.
Qed.

#[export] Instance Req_contract : Contract Req := {|
  inv := Req_inv;
  guard := Req_guard;
  pending := Req_pending;
  own_timers := Req_timers;
  step_ok := Req_step_ok
|}.

Lemma Req_from_inv seed : in_range 32 seed → Req_inv (Req_from seed).
Proof.
  intros Hseed. exists Idle. split; [done|]. split; [|done].
  split_and!; [apply routed_new|apply routed_new|done].
Qed.

Lemma Req_reached seed ins self out :
  in_range 32 seed → disciplined ins (Req_from seed) [] = true →
  drive ins (Req_from seed) [] = Done self out → Req_inv self.
Proof.
  intros Hseed Hd Hrun.
  destruct (drive_ok (H0 := Req_contract) ins (Req_from seed) [] (Req_from_inv seed Hseed) Hd)
    as (s & o & Hrun' & Hinv & _).
  rewrite Hrun in Hrun'. by injection Hrun' as <- <-.
Qed.

(** C16: The ids of the requests of a REQ socket, at their width: the [n]th request
    since the sequence stood at [s] carries [s + n] on 31 bits with the highest
    bit set, so ids fit in four bytes and no two of fewer than 2^31 successive
    requests share one; where additions are checked, the request that takes the
    sequence past 2^32 - 1 panics instead, and elsewhere it wraps to 0. *)
Theorem req_ids_bounds msgs n h :
  is_device_item n = false → in_range 32 (req_id_seq n) →
  let ids := request_id (req_id_seq n) <$> seq 0 (length msgs) in
  tag_all msgs n h =
    (if overflow_checks && bool_decide (2 ^ 32 <= req_id_seq n + Z.of_nat (length msgs)) then Panicked
     else Done (zip_with encode msgs ids, set_req_id_seq (wrap 32 (req_id_seq n + Z.of_nat (length msgs))) n) []) ∧
  Forall (λ id, 2 ^ 31 <= id < 2 ^ 32) ids ∧
  (∀ i j id, ids !! i = Some id → ids !! j = Some id → (Z.of_nat i - Z.of_nat j) mod 2 ^ 31 = 0).
Proof.
  intros Hdev Hr ids. split; [by apply tag_all_run|]. split.
  - apply Forall_fmap, Forall_true. intros i. unfold request_id. cbn.
    pose proof (Z.mod_pos_bound (req_id_seq n + 1 + Z.of_nat i) (2 ^ 31)). lia.
  - intros i j id. unfold ids. rewrite !list_lookup_fmap. intros (x & Hi & ->)%fmap_Some (y & Hj & Heq)%fmap_Some.
    apply lookup_seq in Hi as [-> _], Hj as [-> _]. unfold request_id in Heq.
    replace (Z.of_nat i - Z.of_nat j) with ((req_id_seq n + 1 + Z.of_nat i) - (req_id_seq n + 1 + Z.of_nat j)) by lia.
    rewrite Zminus_mod. cbn [Nat.add] in Heq.
    replace ((req_id_seq n + 1 + Z.of_nat i) mod 2 ^ 31) with ((req_id_seq n + 1 + Z.of_nat j) mod 2 ^ 31) by lia.
    by rewrite Z.sub_diag.
Qed.

(** C7: A fresh REQ socket keeps the facade's contract in every disciplined
    conversation with well-formed peers: no panic, one reply of its kind per
    request, resends invisible to the facade, only its own resend timer cancelled
    besides the request's, readiness announced as it is. *)
Theorem req_conversation seed ins :
  in_range 32 seed → disciplined ins (Req_from seed) [] = true → conversation (Req_from seed) ins.
Proof. intros Hseed. by apply conversation_ok; [apply Req_from_inv|]. Qed.

(** C23: While a REQ socket outside a device waits for the reply to the request it
    sent on [eid], which carries the current id, a message from [eid] is delivered
    if and only if it carries that id: then the facade gets it, both timers are
    cancelled and the socket is idle; a reply with any other id is dropped in
    silence and the pipe is asked again; messages from other pipes change nothing. *)
Theorem req_reply_matches seed ins self out eid p t from raw m rid :
  in_range 32 seed → disciplined ins (Req_from seed) [] = true →
  drive ins (Req_from seed) [] = Done self out →
  state self = Some (Receiving eid (Some p) t) → is_device_item (inner self) = false →
  decode raw = Some (m, rid) →
  let cur := Inner_cur_req_id (inner self) in
  (∃ m0, req p = encode m0 cur) ∧
  ∃ self' out', step (IRecvAck from raw) self out = Done self' out' ∧
    (from = eid ∧ rid = cur ∧ state self' = Some Idle ∧ replies out' = [ReplyRecv m] ∧
       cancels out' = option_list t ++ option_list (retry_timeout p) ∨
     from = eid ∧ rid ≠ cur ∧ state self' = state self ∧ replies out' = [] ∧
       cancels out' = [] ∧ recvs out' = [eid] ∨
     from ≠ eid ∧ self' = self ∧ out' = []).
Proof.
  intros Hseed Hd Hrun Hst Hdev Hdec cur.
  destruct (Req_reached seed ins self out Hseed Hd Hrun) as (s & Hos & [(Hlb & Hfq & Hseq) Hs]).
  destruct self as [n os]. cbn [inner state] in *. rewrite Hst in Hos. injection Hos as <-.
  destruct Hs as [[pipe Hl] Htag]. split; [by apply Htag|].
  assert (Hcur : Inner_cur_req_id n = cur) by done.
  subst os. simpl step. unfold Req_on_recv_ack, Inner_raw_msg_to_msg. cbn [inner].
  rewrite Hdev, Hdec. unfold apply. cbn [state inner State_on_recv_ack].
  destruct (decide (from = eid)) as [->|Hne].
  - rewrite bool_decide_true by done. rewrite Hcur. destruct (decide (cur = rid)) as [<-|Hrid].
    + rewrite bool_decide_true by done. unfold Inner_on_recv_ack, send_reply. mrun.
      eexists _, _. split; [done|]. left. split_and!; try done.
      * simpl. by autorewrite with scap.
      * simpl. autorewrite with scap. by destruct t, (retry_timeout p).
    + rewrite bool_decide_false by done. unfold State_recv_reply_for, Inner_recv_reply_from, get_mut.
      cbn [pipes set_rv]. rewrite Hl. unfold Pipe_recv, Endpoint_recv, ctx_recv. mrun.
      eexists _, _. split; [done|]. right; left. split_and!; try done.
      * simpl. by autorewrite with scap.
      * simpl. by autorewrite with scap.
      * simpl. rewrite (routed_keyed _ _ Hlb _ _ Hl). unfold send_change, recv_change.
        by repeat case_bool_decide.
  - rewrite bool_decide_false by done. mrun. eexists _, _. split; [done|]. right; right.
    split_and!; try done. unfold send_change, recv_change. by rewrite !bool_decide_true.
Qed.

(** A transition that runs, run by the protocol: readiness events follow. *)
Lemma req_apply_run t n s n' s' o :
  (∀ h, t s n h = Done (s', n') o) →
  ∃ o', (∀ h, apply t (mkReq n (Some s)) h = Done (mkReq n' (Some s')) (o ++ o')) ∧
    replies o' = [] ∧ sends o' = [].
Proof.
  intros Ht. eexists. split.
  - intros h. unfold apply. cbn [state inner]. rewrite bind_run, Ht. by mrun.
  - by autorewrite with scap.
Qed.

(** A send leaves at once on the next pipe of the list, tagged outside a device. *)
Lemma req_sends s n msg t eid lb' h :
  inner_ok n → pop (lb n) = Some (Some eid, lb') →
  is_device_item n || bool_decide (req_id_seq n + 1 < 2 ^ 32) = true →
  ∃ n' raw o, step (ISend msg t) (mkReq n (Some s)) h = Done (mkReq n' (Some (Sending eid raw t false))) o ∧
    replies o = [] ∧ sends o = [(eid, raw)] ∧ is_device_item n' = is_device_item n ∧ in_range 32 (req_id_seq n') ∧
    raw = (if is_device_item n then msg else encode msg (Inner_cur_req_id n')).
Proof.
  intros (Hlb & Hfq & Hseq) Hpop Hg. destruct (load_balancing_next _ _ (encode msg 0) _ _ Hlb Hpop) as [Hlb' _].
  assert (Hraw : ∃ n1 raw, (∀ k, Inner_msg_to_raw_msg msg n k = Done (raw, n1) []) ∧ lb n1 = lb n ∧ pipes n1 = pipes n ∧
    in_range 32 (req_id_seq n1) ∧ is_device_item n1 = is_device_item n ∧
    raw = (if is_device_item n then msg else encode msg (Inner_cur_req_id n1))).
  { unfold Inner_msg_to_raw_msg. destruct (is_device_item n) eqn:Hdev; [by exists n, msg|].
    apply bool_decide_eq_true in Hg. exists (set_req_id_seq (req_id_seq n + 1) n). eexists. split.
    { intros k. rewrite bind_run, next_id_run by done. by mrun. }
    do 2 (split; [done|]). split; [|done]. unfold in_range in *. cbn [req_id_seq set_req_id_seq]. lia. }
  destruct Hraw as (n1 & raw & Hrun & Hlb1 & Hp1 & Hseq1 & Hdev1 & Hraw).
  destruct (req_apply_run (λ s inner, State_send s inner raw t false) n1 s (set_lb lb' n1) (Sending eid raw t false)
    (drop_trace s ++ [NetSend eid raw])) as (o & Hr & Ho & Hs).
  { intros k. unfold State_send, Inner_send. rewrite Hlb1, Hp1.
    destruct (load_balancing_next _ _ raw _ _ Hlb Hpop) as [_ Hsend].
    rewrite bind_run, drop_run. mrun. rewrite Hsend. by mrun. }
  eexists (set_lb lb' n1), raw, _. split; [simpl step; unfold Req_send; rewrite bind_run, Hrun; cbn [state inner];
    cbv beta iota; by rewrite Hr|].
  rewrite !replies_app, !sends_app, Ho, Hs.
  assert (Hdrop : replies (drop_trace s) = [] ∧ sends (drop_trace s) = [])
    by (destruct s as [| | |e q| |]; try done; cbn [drop_trace]; by destruct (retry_timeout q)).
  by destruct Hdrop as [-> ->].
Qed.

(** The reply a REQ socket waits for is delivered, in a device any message. *)
Lemma req_delivers n eid p t raw m rid h :
  decode raw = Some (m, rid) → is_device_item n = true ∨ rid = Inner_cur_req_id n →
  ∃ o, step (IRecvAck eid raw) (mkReq n (Some (Receiving eid p t))) h = Done (mkReq n (Some Idle)) o ∧
    replies o = [ReplyRecv m] ∧ sends o = [].
Proof.
  intros Hdec Hid. set (rid' := if is_device_item n then Inner_cur_req_id n else rid).
  assert (Hid' : rid' = Inner_cur_req_id n) by (unfold rid'; destruct (is_device_item n); naive_solver).
  destruct (req_apply_run (λ s inner, State_on_recv_ack s inner eid m rid') n (Receiving eid p t) n Idle
    (SendReply (ReplyRecv m) :: cancel_trace t ++ cancel_trace (p ≫= retry_timeout))) as (o & Hr & Ho & Hs).
  { intros k. destruct p as [p|]; simpl; rewrite ?(bool_decide_true (eid = eid)), ?(bool_decide_true (_ = rid')) by done;
      unfold Inner_on_recv_ack, send_reply; mrun; by rewrite ?app_nil_r. }
  eexists. split.
  { simpl step. unfold Req_on_recv_ack, Inner_raw_msg_to_msg. cbn [inner]. unfold rid' in Hr.
    destruct (is_device_item n); rewrite Hdec; apply Hr. }
  simpl. rewrite !replies_app, !sends_app, Ho, Hs. by autorewrite with scap.
Qed.

(** C38: A message too short to hold a request id, received while the facade
    waits for a reply, is answered to the facade as an error although the request
    stays pending: the reply proper, when it comes, is a second answer to the
    one recv. *)
Theorem req_malformed_extra_reply self out eid p t from bad raw m :
  state self = Some (Receiving eid (Some p) t) → is_device_item (inner self) = false →
  well_formed bad = false → decode raw = Some (m, Inner_cur_req_id (inner self)) →
  ∃ e self' out', drive [IRecvAck from bad; IRecvAck eid raw] self out = Done self' out' ∧
    err_kind e = KInvalidData ∧ replies out' = [ReplyErr e; ReplyRecv m] ∧
    kinds [IRecvAck from bad; IRecvAck eid raw] = [].
Proof.
  intros Hst Hdev Hwf Hdec. destruct self as [n os]. cbn [inner state] in *. subst os.
  unfold well_formed in Hwf. rewrite bool_decide_eq_false in Hwf.
  assert (Hbad : decode bad = None) by (unfold decode, get_body; by rewrite bool_decide_true by lia).
  eexists (invalid_data_io_error "Received reply without req id"). simpl drive.
  unfold Req_on_recv_ack, Inner_raw_msg_to_msg. cbn [inner]. rewrite Hdev, Hbad.
  unfold Inner_on_recv_ack_malformed, send_reply. mrun. cbn [inner]. rewrite Hdev, Hdec.
  unfold apply. cbn [state inner State_on_recv_ack]. rewrite !bool_decide_true by done.
  unfold Inner_on_recv_ack, send_reply. mrun.
  eexists _, _. split; [done|]. split; [done|]. split; [|done]. simpl. by autorewrite with scap.
Qed.

(** C33: When the resend timer fires after the facade saw its request sent and
    before it asks for the reply, the very same tagged message goes to one ready
    pipe, or waits for the first one; the facade is told nothing.  When it fires
    while the facade waits for the reply, nothing happens: the request is not
    sent again. *)
Theorem req_resend seed ins self out :
  in_range 32 seed → disciplined ins (Req_from seed) [] = true →
  drive ins (Req_from seed) [] = Done self out →
  ∃ self' out', step (ITimerTick ReqResend) self out = Done self' out' ∧ replies out' = [] ∧
    match state self with
    | Some (Active _ p) =>
        (∃ eid, state self' = Some (Sending eid (req p) None true) ∧ sends out' = [(eid, req p)] ∧
          is_Some (pc_pipes (pipes (inner self)) !! eid)) ∨
        (state self' = Some (SendOnHold (req p) None true) ∧ sends out' = [] ∧
          peek (lb (inner self)) = false)
    | _ => self' = self ∧ out' = []
    end.
Proof.
  intros Hseed Hd Hrun. destruct (Req_reached seed ins self out Hseed Hd Hrun) as (s & Hos & [Hn Hs]).
  destruct self as [n os]. cbn [inner state] in *. subst os. simpl step. unfold apply. cbn [state inner].
  assert (Hsame : ∀ b, send_change b b = []) by (intros; unfold send_change; by rewrite bool_decide_true).
  assert (Hsame' : ∀ b, recv_change b b = []) by (intros; unfold recv_change; by rewrite bool_decide_true).
  destruct s as [|id m t r|m t r|id q|id q t|id q t]; cbn [State_on_retry_timeout];
    try (mrun; rewrite Hsame, Hsame'; by eexists _, _).
  destruct (req_State_send_run Idle n (req q) None true (proj1 Hn))
    as [[Hpk Hr]|(eid & lb' & Hpk & _ & Hin & Hr)]; rewrite bind_run, Hr; mrun;
    eexists _, _; (split; [done|]); simpl; autorewrite with scap; (split; [done|]).
  - by right.
  - left. by exists eid.
Qed.

End contract.

Section witness.
#[local] Existing Instance ref_env.
#[local] Existing Instance be_ref.

Definition ex_id (n : Z) : EndpointId := EndpointId_from n.
Definition ex_pipe (n : Z) : Pipe := Pipe_new_accepted (ex_id n) (mkEndpointDesc 8 8 false 1024).
(** Up to the request sent and acknowledged. *)
Definition ex_sent : list input :=
  [IAddPipe (ex_id 1) (ex_pipe 1); ISendReady (ex_id 1); ISend (from_body [42]) (Some (Scheduled_from 9));
   ISendAck (ex_id 1)].
(** Up to the recv. *)
Definition ex_recv : list input :=
  ex_sent ++ [IRecvReady (ex_id 1); IRecv (Some (Scheduled_from 10))].
(** Up to a stale reply, then the right one. *)
Definition ex_run : list input :=
  ex_recv ++ [IRecvAck (ex_id 1) (from_body [128; 0; 0; 7; 1]);
              IRecvAck (ex_id 1) (from_body [128; 0; 0; 8; 2])].

Example req_ex_run_trace :
  emitted (drive ex_run (Req_from 7) []) =
  [Raise (CanSend true); NetSend (ex_id 1) (mkMessage [128; 0; 0; 8] [42]); Raise (CanSend false);
   SendReply ReplySend; SchCancel (Scheduled_from 9); SchSchedule ReqResend (from_secs 60);
   Raise (CanRecv true); NetRecv (ex_id 1); Raise (CanRecv false); NetRecv (ex_id 1);
   SendReply (ReplyRecv (mkMessage [128; 0; 0; 8] [2]));
   SchCancel (Scheduled_from 10); SchCancel (Scheduled_from 5)].
Proof. vm_compute. reflexivity. Qed.

Definition ex_after (ins : list input) : Req := default (Req_from 7) (returned (drive ins (Req_from 7) [])).
Definition ex_trace (ins : list input) : trace := emitted (drive ins (Req_from 7) []).

Lemma req_conversation_witness : conversation (Req_from 7) ex_run.
Proof. apply (req_conversation 7 ex_run); [done|vm_compute; reflexivity]. Defined.

Lemma req_reply_matches_witness :
  let self := ex_after ex_recv in
  let cur := Inner_cur_req_id (inner self) in
  let p := mkPendingRequest (mkMessage [128; 0; 0; 8] [42]) (Some (Scheduled_from 5)) in
  let t := Some (Scheduled_from 10) in
  (∃ m0, req p = encode m0 cur) ∧
  ∃ self' out', step (IRecvAck (ex_id 1) (from_body [128; 0; 0; 8; 2])) self (ex_trace ex_recv) = Done self' out' ∧
    (ex_id 1 = ex_id 1 ∧ 2147483656 = cur ∧ state self' = Some Idle ∧
       replies out' = [ReplyRecv (mkMessage [128; 0; 0; 8] [2])] ∧
       cancels out' = option_list t ++ option_list (retry_timeout p) ∨
     ex_id 1 = ex_id 1 ∧ 2147483656 ≠ cur ∧ state self' = state self ∧ replies out' = [] ∧
       cancels out' = [] ∧ recvs out' = [ex_id 1] ∨
     ex_id 1 ≠ ex_id 1 ∧ self' = self ∧ out' = []).
Proof.
  apply (req_reply_matches 7 ex_recv); [done|vm_compute; reflexivity..].
Defined.

Lemma req_malformed_extra_reply_witness :
  let bad := IRecvAck (ex_id 1) (from_body [1]) in
  let good := IRecvAck (ex_id 1) (from_body [128; 0; 0; 8; 2]) in
  ∃ e self' out', drive [bad; good] (ex_after ex_recv) (ex_trace ex_recv) = Done self' out' ∧
    err_kind e = KInvalidData ∧
    replies out' = [ReplyErr e; ReplyRecv (mkMessage [128; 0; 0; 8] [2])] ∧ kinds [bad; good] = [].
Proof.
  eapply (req_malformed_extra_reply (ex_after ex_recv)); vm_compute; reflexivity.
Defined.

Lemma req_ids_bounds_witness :
  tag_all [from_body [1]; from_body [2]] (Inner_new 4294967293) [] =
    Done ([mkMessage [255; 255; 255; 254] [1]; mkMessage [255; 255; 255; 255] [2]], Inner_new 4294967295) [] ∧
  tag_all [from_body [1]; from_body [2]; from_body [3]] (Inner_new 4294967293) [] = Panicked.
Proof.
  split.
  - destruct (req_ids_bounds [from_body [1]; from_body [2]] (Inner_new 4294967293) []) as [-> _]; vm_compute; done.
  - destruct (req_ids_bounds [from_body [1]; from_body [2]; from_body [3]] (Inner_new 4294967293) []) as [-> _]; vm_compute; done.
Defined.

Lemma req_resend_witness :
  ∃ self' out', step (ITimerTick ReqResend) (ex_after (ex_sent ++ [ISendReady (ex_id 1)]))
      (ex_trace (ex_sent ++ [ISendReady (ex_id 1)])) = Done self' out' ∧ replies out' = [] ∧
    match state (ex_after (ex_sent ++ [ISendReady (ex_id 1)])) with
    | Some (Active _ p) =>
        (∃ eid, state self' = Some (Sending eid (req p) None true) ∧ sends out' = [(eid, req p)] ∧
          is_Some (pc_pipes (pipes (inner (ex_after (ex_sent ++ [ISendReady (ex_id 1)])))) !! eid)) ∨
        (state self' = Some (SendOnHold (req p) None true) ∧ sends out' = [] ∧
          peek (lb (inner (ex_after (ex_sent ++ [ISendReady (ex_id 1)])))) = false)
    | _ => self' = ex_after (ex_sent ++ [ISendReady (ex_id 1)]) ∧ out' = []
    end.
Proof.
  apply (req_resend 7 (ex_sent ++ [ISendReady (ex_id 1)])); [done|vm_compute; reflexivity..].
Defined.

Example ex_resend :
  emitted (step (ITimerTick ReqResend) (ex_after (ex_sent ++ [ISendReady (ex_id 1)])) []) =
  [NetSend (ex_id 1) (mkMessage [128; 0; 0; 8] [42]); Raise (CanSend false)].
Proof. vm_compute. reflexivity. Qed.
End witness.
