(* ===== verification/Rep.v ===== *)
(** * REP (src/proto/rep.rs)

    Fair-queued requests, each answered on the pipe it came from.  The route a
    request carries (one 4-byte hop per device it went through, the last one with
    its top bit set: the request id) is kept aside as the backtrace, and is the
    header of the reply.  Inside a device the route stays in the message. *)

From S2P Require Import Prelude Core Context Priolist Pipes Protocol Codec.

(** ** State *)

Inductive State : Type :=
| Idle
| Receiving (eid : EndpointId) (timeout : Timeout)
| RecvOnHold (timeout : Timeout)
| Active (eid : EndpointId)
| Sending (eid : EndpointId) (msg : Message) (timeout : Timeout)
| SendOnHold (eid : EndpointId) (msg : Message) (timeout : Timeout).

Record Inner : Type := mkInner {
  pipes : PipeCollection;
  fq : Priolist;
  sd : gset EndpointId;
  ttl : Z;
  backtrace : bytes;
  is_device_item : bool
}.

Record Rep : Type := mkRep { inner : Inner; state : option State }.

Section rep.
Context `{Env} `{ByteOrder}.

(** ** Inner *)

Definition Inner_new : Inner := {|
  pipes := PipeCollection_new;
  fq := new;
  sd := ∅;
  ttl := 8;
  backtrace := [];
  is_device_item := false
|}.

Definition set_pipes x (n : Inner) : Inner :=
  mkInner x (fq n) (sd n) (ttl n) (backtrace n) (is_device_item n).
Definition set_fq x (n : Inner) : Inner :=
  mkInner (pipes n) x (sd n) (ttl n) (backtrace n) (is_device_item n).
Definition set_sd x (n : Inner) : Inner :=
  mkInner (pipes n) (fq n) x (ttl n) (backtrace n) (is_device_item n).
Definition Inner_set_backtrace (bt : bytes) (n : Inner) : Inner :=
  mkInner (pipes n) (fq n) (sd n) (ttl n) bt (is_device_item n).
Definition Inner_clear_backtrace (n : Inner) : Inner :=
  mkInner (pipes n) (fq n) (sd n) (ttl n) [] (is_device_item n).
Definition Inner_get_backtrace (n : Inner) : bytes := backtrace n.
Definition set_is_device_item x (n : Inner) : Inner :=
  mkInner (pipes n) (fq n) (sd n) (ttl n) (backtrace n) x.

Definition Inner_add_pipe (eid : EndpointId) (pipe : Pipe) (self : Inner) : Inner :=
  let self := set_fq (insert eid (Pipe_get_recv_priority pipe) (fq self)) self in
  set_pipes (PipeCollection_insert eid pipe (pipes self)).2 self.

Definition Inner_remove_pipe (eid : EndpointId) (self : Inner) : P (option Pipe * Inner) :=
  fq ← lift (remove eid (fq self));
  let self := set_sd (sd self ∖ {[eid]}) (set_fq fq self) in
  let '(pipe, pipes) := PipeCollection_remove eid (pipes self) in
  mret (pipe, set_pipes pipes self).

Definition Inner_on_send_malformed (timeout : Timeout) (self : Inner) : P () :=
  send_reply (ReplyErr (invalid_data_io_error "Sending without eid"));; cancel_opt timeout.

Definition Inner_send_to (msg : Message) (eid : EndpointId) (self : Inner) : P (bool * Inner) :=
  let self := set_sd (sd self ∖ {[eid]}) self in
  sent ← send_to msg eid (pipes self);
  mret (match sent with Some _ => true | None => false end, self).

Definition Inner_on_send_ack (timeout : Timeout) (self : Inner) : P () :=
  send_reply ReplySend;; cancel_opt timeout.

Definition Inner_send_when_inactive (timeout : Timeout) (self : Inner) : P () :=
  send_reply (ReplyErr (other_io_error "Can't send: no active request"));; cancel_opt timeout.

Definition Inner_on_send_timeout (self : Inner) : P () :=
  send_reply (ReplyErr (timedout_io_error "Send timed out")).

Definition Inner_on_send_ready (eid : EndpointId) (self : Inner) : Inner :=
  set_sd ({[eid]} ∪ sd self) self.
Definition Inner_on_send_not_ready (eid : EndpointId) (self : Inner) : Inner :=
  set_sd (sd self ∖ {[eid]}) self.

Definition Inner_is_send_ready (self : Inner) : bool := negb (bool_decide (sd self = ∅)).
Definition Inner_is_send_ready_to (eid : EndpointId) (self : Inner) : bool :=
  bool_decide (eid ∈ sd self).

Definition Inner_recv (self : Inner) : P (option EndpointId * Inner) :=
  '(asked, fq) ← fair_queue_recv (fq self) (pipes self);
  mret (asked, set_fq fq self).

Definition Inner_on_recv_ready (eid : EndpointId) (self : Inner) : P Inner :=
  fq ← lift (activate eid (fq self)); mret (set_fq fq self).
Definition Inner_on_recv_not_ready (eid : EndpointId) (self : Inner) : P Inner :=
  fq ← lift (deactivate eid (fq self)); mret (set_fq fq self).

Definition Inner_on_recv_ack (timeout : Timeout) (msg : Message) (self : Inner) : P Inner :=
  let '(msg, self) :=
    if negb (is_device_item self)
    then (mkMessage [] (body msg), Inner_set_backtrace (header msg) self)
    else (msg, self) in
  send_reply (ReplyRecv msg);; cancel_opt timeout;; mret self.

Definition Inner_on_recv_timeout (self : Inner) : P () :=
  send_reply (ReplyErr (timedout_io_error "Recv timed out")).

Definition Inner_on_recv_ack_malformed (self : Inner) : P () :=
  send_reply (ReplyErr (invalid_data_io_error "Received request without id")).

Definition Inner_is_recv_ready (self : Inner) : bool := peek (fq self).

(** The loop of [raw_msg_to_msg]: [hops_left] is [ttl - hops]. *)
Fixpoint take_hops (hops_left : nat) (header body : bytes) : option Message :=
  match hops_left with
  | O => None
  | S hops_left =>
      if bool_decide (length body < 4)%nat then None
      else
        let tail := drop 4 body in
        let header := header ++ take 4 body in
        let position := (length header - 4)%nat in
        if negb (Z.land (nth position header 0) 128 =? 0)
        then Some (from_header_and_body header tail)
        else take_hops hops_left header tail
  end.

Definition Inner_raw_msg_to_msg (raw_msg : Message) (eid : EndpointId) (self : Inner)
    : option Message :=
  let '(header, body) := Message_split raw_msg in
  let eid_bytes := be_write_u32 (wrap 32 (EndpointId_into eid)) in
  take_hops (Z.to_nat (ttl self)) (header ++ eid_bytes) body.

Definition Inner_msg_to_raw_msg (msg : Message) (self : Inner) : option (Message * EndpointId) :=
  let '(header, body) := Message_split msg in
  let header := if negb (is_device_item self) then Inner_get_backtrace self else header in
  if bool_decide (length header < 4)%nat then None
  else
    let tail := drop 4 header in
    let eid_u32 := be_read_u32 (take 4 header) in
    Some (from_header_and_body tail body, EndpointId_from eid_u32).

(** ** State transitions *)

Definition State_recv (self : State) (inner : Inner) (timeout : Timeout) : P (State * Inner) :=
  '(asked, inner) ← Inner_recv inner;
  match asked with
  | None => mret (RecvOnHold timeout, inner)
  | Some eid => mret (Receiving eid timeout, inner)
  end.

Definition State_on_pipe_removed (self : State) (inner : Inner) (eid : EndpointId)
    : P (State * Inner) :=
  match self with
  | Receiving id timeout =>
      if bool_decide (id = eid) then State_recv Idle inner timeout
      else mret (Receiving id timeout, inner)
  | any => mret (any, inner)
  end.

Definition State_send_reply_to (self : State) (inner : Inner) (msg : Message) (timeout : Timeout)
    (eid : EndpointId) : P (State * Inner) :=
  '(sent, inner) ← Inner_send_to msg eid inner;
  if sent : bool then mret (Sending eid msg timeout, inner)
  else mret (SendOnHold eid msg timeout, inner).

Definition State_send (self : State) (inner : Inner) (msg : Message) (timeout : Timeout)
    (eid : EndpointId) : P (State * Inner) :=
  if is_device_item inner then
    if Inner_is_send_ready_to eid inner then State_send_reply_to Idle inner msg timeout eid
    else Inner_on_send_ack timeout inner;; mret (Idle, inner)
  else
    match self with
    | Active _ =>
        if Inner_is_send_ready_to eid inner then State_send_reply_to Idle inner msg timeout eid
        else mret (SendOnHold eid msg timeout, inner)
    | _ => Inner_send_when_inactive timeout inner;; mret (Idle, inner)
    end.

Definition State_on_send_ack (self : State) (inner : Inner) (eid : EndpointId)
    : P (State * Inner) :=
  match self with
  | Sending id msg timeout =>
      if bool_decide (id = eid) then Inner_on_send_ack timeout inner;; mret (Idle, inner)
      else mret (Sending id msg timeout, inner)
  | any => mret (any, inner)
  end.

Definition State_on_send_timeout (self : State) (inner : Inner) : P (State * Inner) :=
  Inner_on_send_timeout inner;; mret (Idle, inner).

Definition State_on_send_ready (self : State) (inner : Inner) (eid : EndpointId)
    : P (State * Inner) :=
  let inner := Inner_on_send_ready eid inner in
  match self with
  | SendOnHold id msg timeout =>
      if bool_decide (id = eid) then State_send_reply_to Idle inner msg timeout eid
      else mret (SendOnHold id msg timeout, inner)
  | any => mret (any, inner)
  end.

Definition State_on_send_not_ready (self : State) (inner : Inner) (eid : EndpointId)
    : P (State * Inner) :=
  mret (self, Inner_on_send_not_ready eid inner).

Definition State_is_send_ready (self : State) (inner : Inner) : bool :=
  if is_device_item inner then Inner_is_send_ready inner
  else match self with Active eid => Inner_is_send_ready_to eid inner | _ => false end.

Definition State_on_recv_ack (self : State) (inner : Inner) (eid : EndpointId) (msg : Message)
    : P (State * Inner) :=
  match self with
  | Receiving id timeout =>
      if bool_decide (id = eid) then
        inner ← Inner_on_recv_ack timeout msg inner;
        if is_device_item inner then mret (Idle, inner) else mret (Active eid, inner)
      else mret (Receiving id timeout, inner)
  | any => mret (any, inner)
  end.

Definition State_on_recv_timeout (self : State) (inner : Inner) : P (State * Inner) :=
  Inner_on_recv_timeout inner;; mret (Idle, inner).

Definition State_on_recv_ready (self : State) (inner : Inner) (eid : EndpointId)
    : P (State * Inner) :=
  inner ← Inner_on_recv_ready eid inner;
  match self with
  | RecvOnHold timeout => State_recv Idle inner timeout
  | any => mret (any, inner)
  end.

Definition State_on_recv_not_ready (self : State) (inner : Inner) (eid : EndpointId)
    : P (State * Inner) :=
  inner ← Inner_on_recv_not_ready eid inner; mret (self, inner).

Definition State_is_recv_ready (self : State) (inner : Inner) : bool := Inner_is_recv_ready inner.

(** ** The protocol *)

Definition apply (transition : State → Inner → P (State * Inner)) (self : Rep) : P Rep :=
  match state self with
  | Some old_state =>
      let was_send_ready := State_is_send_ready old_state (inner self) in
      let was_recv_ready := State_is_recv_ready old_state (inner self) in
      '(new_state, inner) ← transition old_state (inner self);
      let is_send_ready := State_is_send_ready new_state inner in
      let is_recv_ready := State_is_recv_ready new_state inner in
      check_send_ready_change was_send_ready is_send_ready;;
      check_recv_ready_change was_recv_ready is_recv_ready;;
      mret (mkRep inner (Some new_state))
  | None => mret self
  end.

Definition Rep_from : Rep := mkRep Inner_new (Some Idle).

Definition Rep_is_send_ready (self : Rep) : bool :=
  match state self with Some s => State_is_send_ready s (inner self) | None => false end.
Definition Rep_is_recv_ready (self : Rep) : bool :=
  match state self with Some s => State_is_recv_ready s (inner self) | None => false end.

Definition Rep_add_pipe (eid : EndpointId) (pipe : Pipe) (self : Rep) : P Rep :=
  mret (mkRep (Inner_add_pipe eid pipe (inner self)) (state self)).

Definition Rep_remove_pipe (eid : EndpointId) (self : Rep) : P (option Pipe * Rep) :=
  let was_send_ready := Rep_is_send_ready self in
  let was_recv_ready := Rep_is_recv_ready self in
  '(pipe, inner) ← Inner_remove_pipe eid (inner self);
  let self := mkRep inner (state self) in
  let is_send_ready := Rep_is_send_ready self in
  let is_recv_ready := Rep_is_recv_ready self in
  self ← match pipe with
         | Some _ => apply (λ s inner, State_on_pipe_removed s inner eid) self
         | None => mret self
         end;
  check_send_ready_change was_send_ready is_send_ready;;
  check_recv_ready_change was_recv_ready is_recv_ready;;
  mret (pipe, self).

Definition Rep_send (msg : Message) (timeout : Timeout) (self : Rep) : P Rep :=
  match Inner_msg_to_raw_msg msg (inner self) with
  | Some (raw_msg, eid) => apply (λ s inner, State_send s inner raw_msg timeout eid) self
  | None => Inner_on_send_malformed timeout (inner self);; mret self
  end.

Definition Rep_on_send_ack (eid : EndpointId) (self : Rep) : P Rep :=
  apply (λ s inner, State_on_send_ack s inner eid)
    (mkRep (Inner_clear_backtrace (inner self)) (state self)).

Definition Rep_on_recv_ack (eid : EndpointId) (raw_msg : Message) (self : Rep) : P Rep :=
  match Inner_raw_msg_to_msg raw_msg eid (inner self) with
  | Some msg => apply (λ s inner, State_on_recv_ack s inner eid msg) self
  | None => Inner_on_recv_ack_malformed (inner self);; mret self
  end.

Definition Rep_on_device_plugged (self : Rep) : P Rep :=
  mret (mkRep (set_is_device_item true (inner self)) (state self)).

Definition Rep_close (self : Rep) : P Rep :=
  pipes ← close_all (pipes (inner self)); mret (mkRep (set_pipes pipes (inner self)) (state self)).

#[export] Instance Rep_protocol : Protocol Rep := {|
  proto_id _ := REP;
  peer_id _ := REQ;
  add_pipe := Rep_add_pipe;
  remove_pipe := Rep_remove_pipe;
  send := Rep_send;
  on_send_ack := Rep_on_send_ack;
  on_send_timeout := apply State_on_send_timeout;
  on_send_ready eid := apply (λ s inner, State_on_send_ready s inner eid);
  on_send_not_ready eid := apply (λ s inner, State_on_send_not_ready s inner eid);
  recv timeout := apply (λ s inner, State_recv s inner timeout);
  on_recv_ack := Rep_on_recv_ack;
  on_recv_timeout := apply State_on_recv_timeout;
  on_recv_ready eid := apply (λ s inner, State_on_recv_ready s inner eid);
  on_recv_not_ready eid := apply (λ s inner, State_on_recv_not_ready s inner eid);
  is_send_ready := Rep_is_send_ready;
  is_recv_ready := Rep_is_recv_ready;
  set_option := default_set_option;
  on_timer_tick := default_on_timer_tick;
  on_device_plugged := Rep_on_device_plugged;
  close := Rep_close
|}.

End rep.

(** ** The contract

    The priority list mirrors the pipes; a recv under way is asked of a pipe the
    socket has, and waits only while none is ready; a reply waits only while its
    pipe is not ready. *)

Section contract.
Context `{Env} `{ByteOrder}.

Definition local_ok (s : State) (n : Inner) : Prop :=
  match s with
  | Receiving eid _ => is_Some (pc_pipes (pipes n) !! eid)
  | RecvOnHold _ => peek (fq n) = false
  | SendOnHold eid _ _ => eid ∉ sd n
  | _ => True
  end.

Definition state_ok (s : State) (n : Inner) : Prop := routed (fq n) (pipes n) ∧ local_ok s n.

Definition Rep_inv (self : Rep) : Prop :=
  ∃ s, state self = Some s ∧ state_ok s (inner self).

(** The message holds a route the socket accepts. *)
Definition well_formed (raw_msg : Message) (eid : EndpointId) (n : Inner) : bool :=
  match Inner_raw_msg_to_msg raw_msg eid n with Some _ => true | None => false end.

Definition plugged (self : Rep) : Rep := mkRep (set_is_device_item true (inner self)) (state self).

Definition Rep_guard (i : input) (self : Rep) : bool :=
  let n := inner self in
  match i with
  | IAddPipe eid pipe => bool_decide (addable eid pipe (Pipe_get_recv_priority pipe) (pipes n))
  | IRemovePipe eid => remove_safe eid (fq n)
  | IRecvAck eid raw => well_formed raw eid n
  | IDevicePlugged => Bool.eqb (Rep_is_send_ready self) (Rep_is_send_ready (plugged self))
  | _ => true
  end.

Definition State_pending (s : State) : option (kind * Timeout) :=
  match s with
  | Receiving _ t | RecvOnHold t => Some (KRecv, t)
  | Sending _ _ t | SendOnHold _ _ t => Some (KSend, t)
  | _ => None
  end.

Definition Rep_pending (self : Rep) : option (kind * Timeout) := state self ≫= State_pending.

Abbreviation transition := (good state_ok State_pending []).

Lemma rep_apply_ok i p t s n h :
  transition i p (t s n) →
  ∃ self' o, apply t (mkRep n (Some s)) h = Done self' o ∧ Rep_inv self' ∧
    announced (mkRep n (Some s)) o self' ∧ contract [] p i o (Rep_pending self').
Proof.
  intros Hg. destruct (Hg h) as (s' & n' & o & Hrun & Hs & Hm & Hc).
  eexists (mkRep n' (Some s')), (o ++ _). unfold apply. cbn [state inner].
  rewrite bind_run, Hrun. mrun. rewrite app_nil_r. split; [done|]. split; [by exists s'|].
  split; [|apply contract_after; auto].
  split; cbn [is_send_ready is_recv_ready Rep_protocol]; views.
Qed.

Lemma rep_recv_good i p s n t :
  routed (fq n) (pipes n) →
  (p = None ∧ request i = Some (KRecv, t) ∨ p = Some (KRecv, t) ∧ request i = None) →
  transition i p (State_recv s n t).
Proof.
  intros Hr Hp. unfold State_recv, Inner_recv.
  destruct (fair_queue_run (fq n) (pipes n) Hr)
    as [[Hpk Hrun]|(eid & fq' & _ & Hrun & Hr' & _ & Hin)].
  - eapply (good_take _ _ _ _ _ KRecv t (RecvOnHold t) n []); [done|by split|done..|].
    intros h. mrun. rewrite Hrun. by destruct n.
  - eapply (good_take _ _ _ _ _ KRecv t (Receiving eid t) (set_fq fq' n) [NetRecv eid]);
      [done|by split|done..|].
    intros h. mrun. by rewrite Hrun.
Qed.

Lemma rep_send_to_good i p s n m t eid :
  routed (fq n) (pipes n) →
  (p = None ∧ request i = Some (KSend, t) ∨ p = Some (KSend, t) ∧ request i = None) →
  transition i p (State_send_reply_to s n m t eid).
Proof.
  intros Hr Hp. unfold State_send_reply_to, Inner_send_to.
  destruct (pc_pipes (pipes n) !! eid) as [pipe|] eqn:Hl.
  - eapply (good_take _ _ _ _ _ KSend t (Sending eid m t) (set_sd (sd n ∖ {[eid]}) n)
      [NetSend (pipe_id pipe) m]); [done|by split|done..|].
    intros h. mrun. rewrite send_to_run. cbn [pipes set_sd]. rewrite Hl. by mrun.
  - eapply (good_take _ _ _ _ _ KSend t (SendOnHold eid m t) (set_sd (sd n ∖ {[eid]}) n) []);
      [done| |done..|].
    + split; [done|]. simpl. set_solver.
    + intros h. mrun. rewrite send_to_run. cbn [pipes set_sd]. rewrite Hl. by mrun.
Qed.

Lemma rep_send_good s n msg raw t eid :
  state_ok s n → State_pending s = None →
  transition (ISend msg t) None (State_send s n raw t eid).
Proof.
  intros [Hr Hs] Hp. unfold State_send.
  assert (Hsend : transition (ISend msg t) None (State_send_reply_to Idle n raw t eid))
    by (apply rep_send_to_good; auto).
  destruct (is_device_item n).
  - destruct (Inner_is_send_ready_to eid n); [done|].
    eapply (good_reply _ _ _ _ _ KSend t ReplySend Idle n); [auto|done..|].
    intros h. unfold Inner_on_send_ack, send_reply. mrun. by rewrite app_nil_r.
  - assert (Hin : transition (ISend msg t) None (Inner_send_when_inactive t n;; mret (Idle, n))).
    { eapply (good_reply _ _ _ _ _ KSend t (ReplyErr _) Idle n); [auto|done..|].
      intros h. unfold Inner_send_when_inactive, send_reply. mrun. by rewrite app_nil_r. }
    destruct s; try done. destruct (Inner_is_send_ready_to eid n) eqn:Hrd; [done|].
    eapply (good_take _ _ _ _ _ KSend t (SendOnHold eid raw t) n []); [auto| |done..].
    split; [done|]. by apply bool_decide_eq_false in Hrd.
Qed.

Lemma rep_send_ack_good eid s n :
  state_ok s n → transition (ISendAck eid) (State_pending s) (State_on_send_ack s n eid).
Proof.
  intros Hs. destruct s as [|id t|t|id|id m t|id m t]; try by apply good_stay.
  simpl State_on_send_ack. case_bool_decide; [|by apply good_stay].
  eapply (good_reply _ _ _ _ _ KSend t ReplySend Idle n); [auto|done|by destruct Hs|done|].
  intros h. unfold Inner_on_send_ack, send_reply. mrun. by rewrite app_nil_r.
Qed.

Lemma rep_send_timeout_good n s t :
  state_ok s n → State_pending s = Some (KSend, t) →
  transition ISendTimeout (State_pending s) (State_on_send_timeout s n).
Proof. intros [Hr _] ->. eapply (good_expire _ _ _ _ _ _ _ Idle n); done. Qed.

Lemma rep_recv_timeout_good n s t :
  state_ok s n → State_pending s = Some (KRecv, t) →
  transition IRecvTimeout (State_pending s) (State_on_recv_timeout s n).
Proof. intros [Hr _] ->. eapply (good_expire _ _ _ _ _ _ _ Idle n); done. Qed.

Lemma rep_send_ready_good eid s n :
  state_ok s n → transition (ISendReady eid) (State_pending s) (State_on_send_ready s n eid).
Proof.
  intros [Hr Hs]. unfold State_on_send_ready.
  destruct s as [|id t|t|id|id m t|id m t]; try by apply good_stay.
  case_bool_decide; [apply rep_send_to_good; auto|].
  apply good_stay; [|done]. split; [done|]. simpl in *. set_solver.
Qed.

Lemma rep_send_not_ready_good eid s n :
  state_ok s n → transition (ISendNotReady eid) (State_pending s) (State_on_send_not_ready s n eid).
Proof.
  intros [Hr Hs]. apply good_stay; [|done]. split; [done|].
  destruct s as [|id t|t|id|id m t|id m t]; try done. simpl in *. set_solver.
Qed.

Lemma rep_recv_ack_good eid raw msg s n :
  state_ok s n → transition (IRecvAck eid raw) (State_pending s) (State_on_recv_ack s n eid msg).
Proof.
  intros Hs. destruct s as [|id t|t|id|id m t|id m t]; try by apply good_stay.
  simpl State_on_recv_ack. case_bool_decide; [|by apply good_stay].
  unfold Inner_on_recv_ack, send_reply. destruct (is_device_item n) eqn:Hdev; cbn [negb].
  - eapply (good_reply _ _ _ _ _ KRecv t (ReplyRecv msg) Idle n); [auto|done|by destruct Hs|done|].
    intros h. mrun. rewrite Hdev. mrun. by rewrite !app_nil_r.
  - eapply (good_reply _ _ _ _ _ KRecv t (ReplyRecv (mkMessage [] (body msg))) (Active eid)
      (Inner_set_backtrace (header msg) n)); [auto|done|by destruct Hs|done|].
    intros h. mrun. cbn [is_device_item Inner_set_backtrace]. rewrite Hdev. mrun. by rewrite !app_nil_r.
Qed.

Lemma rep_recv_ready_good eid s n :
  state_ok s n → transition (IRecvReady eid) (State_pending s) (State_on_recv_ready s n eid).
Proof.
  intros [Hr Hs]. unfold State_on_recv_ready, Inner_on_recv_ready.
  destruct (routed_activate _ _ eid Hr) as (fq' & -> & Hr'). eapply good_bind; [done|].
  destruct s as [|id t|t|id|id m t|id m t]; try by apply good_stay.
  apply rep_recv_good; auto.
Qed.

Lemma rep_recv_not_ready_good eid s n :
  state_ok s n →
  transition (IRecvNotReady eid) (State_pending s) (State_on_recv_not_ready s n eid).
Proof.
  intros [Hr Hs]. unfold State_on_recv_not_ready, Inner_on_recv_not_ready.
  destruct (routed_deactivate _ _ eid Hr) as (fq' & -> & Hr' & Hpk).
  eapply good_bind; [done|]. apply good_stay; [|done]. split; [done|].
  destruct s; try done. by apply Hpk.
Qed.

(** *** Removal *)

Record without (eid : EndpointId) (n n' : Inner) : Prop := {
  without_routed : routed (fq n') (pipes n');
  without_pipes : pc_pipes (pipes n') = delete eid (pc_pipes (pipes n));
  without_fq : peek (fq n) = false → peek (fq n') = false;
  without_sd : sd n' = sd n ∖ {[eid]};
  without_dev : is_device_item n' = is_device_item n
}.

Lemma rep_remove_run eid n :
  routed (fq n) (pipes n) → remove_safe eid (fq n) = true →
  ∃ n', without eid n n' ∧
    ∀ h, Inner_remove_pipe eid n h = Done (pc_pipes (pipes n) !! eid, n') [].
Proof.
  intros Hr Hg. destruct (routed_remove _ _ eid Hr Hg) as (fq' & Hrm & Hr' & Hpk).
  eexists. split; [|intros h; unfold Inner_remove_pipe; rewrite Hrm; mrun; done]. by split.
Qed.

Lemma rep_without_local eid n n' s :
  without eid n n' → local_ok s n → (∀ t, s ≠ Receiving eid t) → local_ok s n'.
Proof.
  intros [Hr Hp Hfq Hsd Hdev] Hs Hne. destruct s as [|id t|t|id|id m t|id m t]; simpl in *; try done.
  - rewrite Hp, lookup_delete_ne; [done|]. intros ->. by eapply Hne.
  - auto.
  - rewrite Hsd. set_solver.
Qed.

Lemma rep_removed_good eid n n' s :
  without eid n n' → state_ok s n →
  transition (IRemovePipe eid) (State_pending s) (State_on_pipe_removed s n' eid).
Proof.
  intros Hw [Hr Hs]. pose proof (without_routed _ _ _ Hw) as Hr'.
  assert (Hkeep : (∀ t, s ≠ Receiving eid t) →
    transition (IRemovePipe eid) (State_pending s) (mret (s, n'))).
  { intros Hne. apply good_stay; [split; [done|by eapply rep_without_local]|done]. }
  destruct s as [|id t|t|id|id m t|id m t]; try by apply Hkeep.
  simpl State_on_pipe_removed. case_bool_decide; [apply rep_recv_good; auto|].
  apply Hkeep. congruence.
Qed.

Lemma rep_removed_lowers eid s n h s' n' o :
  routed (fq n) (pipes n) → State_on_pipe_removed s n eid h = Done (s', n') o →
  (State_is_send_ready s n = false → State_is_send_ready s' n' = false) ∧
  (State_is_recv_ready s n = false → State_is_recv_ready s' n' = false).
Proof.
  intros Hr. destruct s as [|id t|t|id|id m t|id m t]; simpl; try (intros [= <- <- <-]; by split);
    (case_bool_decide; [|intros [= <- <- <-]; by split]).
  unfold State_recv, Inner_recv, State_is_send_ready, State_is_recv_ready, Inner_is_recv_ready. mrun.
  destruct (fair_queue_run (fq n) (pipes n) Hr) as [[Hpk ->]|(e & fq' & Hpk & -> & _)]; mrun;
    intros [= <- <- <-]; cbn; (split; [done|]); [done|by rewrite Hpk].
Qed.

Lemma rep_apply_inv t n s h self' o :
  apply t (mkRep n (Some s)) h = Done self' o →
  ∃ s' n' o', t s n h = Done (s', n') o' ∧ self' = mkRep n' (Some s').
Proof.
  unfold apply. cbn [state inner]. rewrite bind_run. destruct (t s n h) as [[s' n'] o'|]; [|done].
  mrun. intros [= <- _]. eauto.
Qed.

Lemma rep_without_unready eid n n' s :
  without eid n n' →
  (State_is_send_ready s n = false → State_is_send_ready s n' = false) ∧
  (State_is_recv_ready s n = false → State_is_recv_ready s n' = false).
Proof.
  intros Hw. split; [|apply (without_fq _ _ _ Hw)]. unfold State_is_send_ready.
  rewrite (without_dev _ _ _ Hw). destruct (is_device_item n).
  - unfold Inner_is_send_ready. rewrite (without_sd _ _ _ Hw), !negb_false_iff, !bool_decide_eq_true. set_solver.
  - destruct s; try done. unfold Inner_is_send_ready_to.
    rewrite (without_sd _ _ _ Hw), !bool_decide_eq_false. set_solver.
Qed.

Lemma rep_remove_ok eid n s h :
  state_ok s n → remove_safe eid (fq n) = true →
  ∃ r self' o, Rep_remove_pipe eid (mkRep n (Some s)) h = Done (r, self') o ∧
    Rep_inv self' ∧ announced (mkRep n (Some s)) o self' ∧
    contract [] (State_pending s) (IRemovePipe eid) o (Rep_pending self').
Proof.
  intros Hs Hg. destruct (rep_remove_run eid n (proj1 Hs) Hg) as (n' & Hw & Hn).
  destruct (rep_without_unready eid n n' s Hw) as [Hus Hur].
  unfold Rep_remove_pipe. cbn [inner state]. rewrite bind_run, Hn. mrun.
  destruct (pc_pipes (pipes n) !! eid) as [p|] eqn:Hl.
  - edestruct (rep_apply_ok (IRemovePipe eid) (State_pending s)
      (λ s inner, State_on_pipe_removed s inner eid) s n')
      as (self' & o & Hrun & Hi & [Ha1 Ha2] & Hc); [by eapply rep_removed_good|].
    destruct (rep_apply_inv _ _ _ _ _ _ Hrun) as (s2 & n2 & o2 & Hrun2 & ->).
    destruct (rep_removed_lowers eid s n' _ s2 n2 o2 (without_routed _ _ _ Hw) Hrun2) as [Hls Hlr].
    eexists _, _, _. rewrite Hrun. mrun. rewrite app_nil_r. split; [done|]. split; [done|].
    split; [split|apply contract_after; auto].
    + eapply late_send_view; [exact Ha1|exact Hus|exact Hls|intros; apply recv_change_send_view].
    + eapply late_recv_view; [exact Ha2|exact Hur|exact Hlr|intros; apply send_change_recv_view].
  - eexists None, (mkRep n' (Some s)), _. split; [mrun; done|].
    split; [|split; [|apply contract_quiet; auto]].
    + exists s. split; [done|]. split; [apply (without_routed _ _ _ Hw)|].
      eapply rep_without_local; [done|apply Hs|]. intros t ->. destruct Hs as [_ Hs].
      simpl in Hs. rewrite Hl in Hs. by destruct Hs.
    + split; cbn [is_send_ready is_recv_ready Rep_protocol]; views.
Qed.

Lemma rep_add_ok eid pipe n s :
  state_ok s n → addable eid pipe (Pipe_get_recv_priority pipe) (pipes n) →
  state_ok s (Inner_add_pipe eid pipe n).
Proof.
  intros [Hr Hs] Ha. split; [by apply routed_insert|].
  destruct s as [|id t|t|id|id m t|id m t]; try done. simpl in *.
  destruct (decide (eid = id)) as [->|Hne]; [by rewrite lookup_insert_eq|by rewrite lookup_insert_ne].
Qed.

Lemma rep_send_ok s n msg t h :
  state_ok s n → State_pending s = None →
  ∃ self' o, Rep_send msg t (mkRep n (Some s)) h = Done self' o ∧ Rep_inv self' ∧
    announced (mkRep n (Some s)) o self' ∧ contract [] None (ISend msg t) o (Rep_pending self').
Proof.
  intros Hs Hp. unfold Rep_send. cbn [inner].
  destruct (Inner_msg_to_raw_msg msg n) as [[raw eid]|].
  - by apply rep_apply_ok, rep_send_good.
  - unfold Inner_on_send_malformed, send_reply. mrun.
    eexists (mkRep n (Some s)), _. split; [done|]. rewrite app_nil_r. split; [by exists s|].
    pose proof (cancel_trace_mute t). split; [split; cbn; views|].
    unfold Rep_pending. cbn. rewrite Hp. eapply (contract_reply _ _ _ KSend t (ReplyErr _)); auto.
Qed.

Lemma Rep_step_ok i self h :
  Rep_inv self → Rep_guard i self = true → allowed i (Rep_pending self) = true →
  ∃ self' out, step i self h = Done self' out ∧ Rep_inv self' ∧ announced self out self' ∧
    contract [] (Rep_pending self) i out (Rep_pending self').
Proof.
  destruct self as [n os]. intros (s & Hos & Hs) Hg Ha. cbn [inner state] in *. subst os.
  change (Rep_pending (mkRep n (Some s))) with (State_pending s) in *.
  assert (Hstay : ∀ n', state_ok s n' → announced (mkRep n (Some s)) [] (mkRep n' (Some s)) →
    request i = None → (step i (mkRep n (Some s)) h = Done (mkRep n' (Some s)) []) →
    ∃ self' out, step i (mkRep n (Some s)) h = Done self' out ∧ Rep_inv self' ∧
      announced (mkRep n (Some s)) out self' ∧
      contract [] (State_pending s) i out (Rep_pending self')).
  { intros n' Hn' Han Hr Hrun. exists (mkRep n' (Some s)), []. split_and!; [done|by exists s|done|].
    by apply contract_quiet. }
  destruct i as [eid pipe|eid|msg t|eid| |eid|eid|t|eid msg| |eid|eid|opt|task|].
  - apply bool_decide_eq_true in Hg.
    apply (Hstay (Inner_add_pipe eid pipe n)); [by apply rep_add_ok|done..].
  - destruct (rep_remove_ok eid n s h) as (r & self' & o & Hrun & Hi & Hc); [done..|].
    eexists _, _. simpl step. rewrite bind_run, Hrun. mrun. split; [done|]. by rewrite app_nil_r.
  - apply (allowed_request _ KSend t) in Ha; [|done]. rewrite Ha. by apply rep_send_ok.
  - destruct (rep_apply_ok (ISendAck eid) (State_pending s) (λ s inner, State_on_send_ack s inner eid)
      s (Inner_clear_backtrace n) h) as (self' & o & ?); [by apply rep_send_ack_good|].
    by exists self', o.
  - destruct (allowed_fires ISendTimeout KSend _ eq_refl Ha) as [t Ht].
    by eapply rep_apply_ok, rep_send_timeout_good.
  - by apply rep_apply_ok, rep_send_ready_good.
  - by apply rep_apply_ok, rep_send_not_ready_good.
  - apply (allowed_request _ KRecv t) in Ha; [|done]. rewrite Ha.
    apply rep_apply_ok, rep_recv_good; [apply Hs|auto].
  - simpl step. unfold Rep_on_recv_ack. simpl in Hg. unfold well_formed in Hg. cbn [inner] in *.
    destruct (Inner_raw_msg_to_msg msg eid n); [|done]. by apply rep_apply_ok, rep_recv_ack_good.
  - destruct (allowed_fires IRecvTimeout KRecv _ eq_refl Ha) as [t Ht].
    by eapply rep_apply_ok, rep_recv_timeout_good.
  - by apply rep_apply_ok, rep_recv_ready_good.
  - by apply rep_apply_ok, rep_recv_not_ready_good.
  - by apply (Hstay n).
  - by apply (Hstay n).
  - apply (Hstay (set_is_device_item true n)); [by destruct s| |done..].
    split; [|done]. by apply eqb_prop in Hg.
Qed.

#[export] Instance Rep_contract : Contract Rep := {|
  inv := Rep_inv;
  guard := Rep_guard;
  pending := Rep_pending;
  own_timers _ := [];
  step_ok := Rep_step_ok
|}.

Lemma Rep_from_inv : Rep_inv Rep_from.
Proof. exists Idle. split; [done|]. split; [apply routed_new|done]. Qed.

Lemma Rep_reached ins self out :
  disciplined ins Rep_from [] = true → drive ins Rep_from [] = Done self out → Rep_inv self.
Proof.
  intros Hd Hrun. destruct (drive_ok (H0 := Rep_contract) ins Rep_from [] Rep_from_inv Hd) as (s & o & Hrun' & Hinv & _).
  rewrite Hrun in Hrun'. by injection Hrun' as <- <-.
Qed.

(** C18: A fresh REP socket keeps the facade's contract in every disciplined
    conversation with well-formed peers, in a device or not: no panic, one reply of
    its kind per request, readiness announced as it is. *)
Theorem rep_conversation ins :
  disciplined ins Rep_from [] = true → conversation Rep_from ins.
Proof. apply conversation_ok; [apply Rep_from_inv|done]. Qed.

(** ** Routes *)

(** A hop is four bytes; the last one of a route has its top bit set. *)
Definition marked (hop : bytes) : bool := negb (Z.land (nth 0 hop 0) 128 =? 0).

Definition hop_ok (marking : bool) (hop : bytes) : Prop := length hop = 4%nat ∧ marked hop = marking.

Inductive route (limit : nat) : bytes → Prop :=
| route_intro hops last :
    Forall (hop_ok false) hops → hop_ok true last → (length hops < limit)%nat →
    route limit (concat hops ++ last).

Lemma hop_position hd hop : length hop = 4%nat → nth (length (hd ++ hop) - 4) (hd ++ hop) 0 = nth 0 hop 0.
Proof. intros Hl. rewrite app_nth2, length_app; [f_equal; lia|rewrite length_app; lia]. Qed.

Lemma take_hops_route n hd hops last payload :
  Forall (hop_ok false) hops → hop_ok true last → (length hops < n)%nat →
  take_hops n hd (concat hops ++ last ++ payload) =
  Some (mkMessage (hd ++ concat hops ++ last) payload).
Proof.
  intros Hh [Hl Hm]. revert n hd. induction Hh as [|hop hops [Hlen Hun] Hh IH]; intros n hd Hn;
    (destruct n as [|n]; [simpl in Hn; lia|]); cbn [take_hops concat app].
  - rewrite bool_decide_false by (rewrite length_app; lia).
    rewrite take_app_length', drop_app_length', hop_position by done.
    unfold marked in Hm. by rewrite Hm.
  - rewrite <- app_assoc. rewrite bool_decide_false by (rewrite length_app; lia).
    rewrite take_app_length', drop_app_length', hop_position by done.
    unfold marked in Hun. rewrite Hun. rewrite IH by (simpl in Hn; lia). by rewrite <- !app_assoc.
Qed.

Lemma take_hops_long hd hops rest :
  Forall (hop_ok false) hops → take_hops (length hops) hd (concat hops ++ rest) = None.
Proof.
  intros Hh. revert hd. induction Hh as [|hop hops [Hlen Hun] Hh IH]; intros hd; [done|].
  cbn [take_hops concat app length]. rewrite <- app_assoc. rewrite bool_decide_false by (rewrite length_app; lia).
  rewrite take_app_length', drop_app_length', hop_position by done. unfold marked in Hun. by rewrite Hun.
Qed.

Lemma take_hops_some n hd bd m :
  take_hops n hd bd = Some m →
  ∃ r, route n r ∧ bd = r ++ body m ∧ header m = hd ++ r.
Proof.
  revert hd bd. induction n as [|n IH]; intros hd bd; [done|]. cbn [take_hops].
  case_bool_decide as Hl; [done|].
  assert (Hlen : length (take 4 bd) = 4%nat) by (rewrite length_take; lia).
  rewrite hop_position by done. destruct (negb _) eqn:Hm.
  - intros [= <-]. exists (take 4 bd). unfold from_header_and_body. cbn [header body].
    split; [|by rewrite take_drop].
    apply (route_intro _ []); [constructor| |simpl; lia]. split; [done|exact Hm].
  - intros Ht. destruct (IH _ _ Ht) as (r & [hops last Hi He Hlim] & Hb & Hh).
    exists (take 4 bd ++ concat hops ++ last). split.
    + rewrite app_assoc. apply (route_intro _ (take 4 bd :: hops)); [|done|simpl; lia].
      constructor; [|done]. split; [done|exact Hm].
    + rewrite <- app_assoc, <- Hb, take_drop. split; [done|]. by rewrite Hh, <- app_assoc.
Qed.

(** C26: A REP socket accepts a message if and only if its body starts with a
    route of at most [ttl] hops; the route, after the id of the pipe it came from,
    goes to the header, byte for byte, and what follows it is the payload.
    Anything else (no marked hop within [ttl], or less than a hop left) is refused. *)
Theorem rep_accepts_routes n raw eid m :
  Inner_raw_msg_to_msg raw eid n = Some m ↔
  ∃ r, route (Z.to_nat (ttl n)) r ∧ body raw = r ++ body m ∧
    header m = header raw ++ be_write_u32 (wrap 32 (EndpointId_into eid)) ++ r.
Proof.
  unfold Inner_raw_msg_to_msg. destruct raw as [hd bd]. cbn [Message_split header body].
  split.
  - intros Ht. destruct (take_hops_some _ _ _ _ Ht) as (r & Hr & Hb & Hh).
    exists r. by rewrite Hh, <- app_assoc.
  - intros (r & [hops last Hi He Hlim] & -> & Hh). destruct m as [hm bm]. cbn [header body] in *.
    rewrite <- app_assoc, take_hops_route by done. by rewrite Hh, <- !app_assoc.
Qed.

Lemma to_raw_backtrace n reply eid r :
  is_device_item n = false → in_range 32 (EndpointId_into eid) →
  backtrace n = be_write_u32 (EndpointId_into eid) ++ r →
  Inner_msg_to_raw_msg reply n = Some (mkMessage r (body reply), eid).
Proof.
  intros Hdev Hr Hb. unfold Inner_msg_to_raw_msg, Message_split. rewrite Hdev. cbn [negb].
  unfold Inner_get_backtrace. rewrite Hb. pose proof (write_u32_length _ Hr) as Hl.
  rewrite bool_decide_false by (rewrite length_app; lia).
  rewrite take_app_length', drop_app_length' by done.
  rewrite <- (app_nil_r (be_write_u32 _)), read_write_u32 by done. by destruct eid.
Qed.

(** A transition that runs, run by the protocol: readiness events follow. *)
Lemma rep_apply_run t n s n' s' o :
  (∀ h, t s n h = Done (s', n') o) →
  ∃ o', (∀ h, apply t (mkRep n (Some s)) h = Done (mkRep n' (Some s')) (o ++ o')) ∧
    replies o' = [] ∧ sends o' = [].
Proof.
  intros Ht. eexists. split.
  - intros h. unfold apply. cbn [state inner]. rewrite bind_run, Ht. by mrun.
  - by autorewrite with scap.
Qed.

(** The request a REP socket waits for on [eid] is delivered. *)
Lemma rep_takes n eid t raw m h :
  Inner_raw_msg_to_msg raw eid n = Some m →
  ∃ o, step (IRecvAck eid raw) (mkRep n (Some (Receiving eid t))) h =
      Done (if is_device_item n then mkRep n (Some Idle)
            else mkRep (Inner_set_backtrace (header m) n) (Some (Active eid))) o ∧
    replies o = [ReplyRecv (if is_device_item n then m else mkMessage [] (body m))] ∧ sends o = [].
Proof.
  intros Hraw.
  set (n1 := if is_device_item n then n else Inner_set_backtrace (header m) n).
  set (s1 := if is_device_item n then Idle else Active eid).
  set (d := if is_device_item n then m else mkMessage [] (body m)).
  destruct (rep_apply_run (λ s inner, State_on_recv_ack s inner eid m) n (Receiving eid t) n1 s1
    (SendReply (ReplyRecv d) :: cancel_trace t)) as (o1 & Hr1 & Ho1 & Hs1).
  { intros k. unfold n1, s1, d. simpl. rewrite bool_decide_true by done. unfold Inner_on_recv_ack, send_reply.
    destruct (is_device_item n) eqn:Hdev; cbn; mrun; cbn; rewrite Hdev; mrun; by rewrite !app_nil_r. }
  eexists. split.
  { simpl step. unfold Rep_on_recv_ack. cbn [inner]. rewrite Hraw, Hr1. unfold n1, s1. by destruct (is_device_item n). }
  simpl. rewrite replies_app, sends_app, Ho1, Hs1. by autorewrite with scap.
Qed.

(** A reply leaves on the pipe its route names, which is ready. *)
Lemma rep_sends n s eid pipe msg raw t h :
  is_device_item n = true ∨ s = Active eid → eid ∈ sd n → pc_pipes (pipes n) !! eid = Some pipe →
  Inner_msg_to_raw_msg msg n = Some (raw, eid) →
  ∃ o, step (ISend msg t) (mkRep n (Some s)) h =
      Done (mkRep (set_sd (sd n ∖ {[eid]}) n) (Some (Sending eid raw t))) o ∧
    replies o = [] ∧ sends o = [(pipe_id pipe, raw)].
Proof.
  intros Hst Hsd Hl Hraw.
  edestruct (rep_apply_run (λ s inner, State_send s inner raw t eid) n s (set_sd (sd n ∖ {[eid]}) n)
    (Sending eid raw t) [NetSend (pipe_id pipe) raw]) as (o1 & Hr1 & Ho1 & Hs1).
  { intros k. unfold State_send, Inner_is_send_ready_to, State_send_reply_to, Inner_send_to.
    rewrite (bool_decide_true (eid ∈ sd n)) by done.
    destruct Hst as [-> | ->]; [|destruct (is_device_item n)]; mrun; rewrite send_to_run; cbn; rewrite Hl; by mrun. }
  eexists. split; [simpl step; unfold Rep_send; cbn [inner]; rewrite Hraw; apply Hr1|].
  rewrite replies_app, sends_app, Ho1, Hs1. done.
Qed.

(** C17: A request received by a REP socket outside a device reaches the facade
    without its route, and the reply, once the pipe can take it, goes to the pipe
    the request came from and to no other, with the route as its header, byte for
    byte: the devices on the way can route it back, and the requester finds its
    request id. *)
Theorem rep_answers_origin ins self out eid t raw m reply timeout :
  disciplined ins Rep_from [] = true → drive ins Rep_from [] = Done self out →
  state self = Some (Receiving eid t) → is_device_item (inner self) = false →
  in_range 32 (EndpointId_into eid) → header raw = [] →
  Inner_raw_msg_to_msg raw eid (inner self) = Some m →
  ∃ r self' out',
    body raw = r ++ body m ∧
    drive [IRecvAck eid raw; ISendReady eid; ISend reply timeout] self out = Done self' out' ∧
    replies out' = [ReplyRecv (mkMessage [] (body m))] ∧
    sends out' = [(eid, mkMessage r (body reply))] ∧ Rep_pending self' = Some (KSend, timeout).
Proof.
  intros Hd Hrun Hst Hdev Heid Hhd Hraw.
  destruct (Rep_reached ins self out Hd Hrun) as (s & Hos & Hs). rewrite Hst in Hos. injection Hos as <-.
  destruct self as [n os]. cbn [inner state] in *. subst os. destruct Hs as [Hr [pipe Hl]].
  pose proof (routed_keyed _ _ Hr _ _ Hl) as Hkey.
  destruct (take_hops_some _ _ _ _ Hraw) as (r & _ & Hb & Hh).
  assert (Hw : wrap 32 (EndpointId_into eid) = EndpointId_into eid) by (unfold wrap; by apply Z.mod_small).
  destruct raw as [rh rb]. cbn [header body] in *. subst rh.
  exists r. destruct (rep_takes n eid t _ m out Hraw) as (o1 & Hr1 & Ho1 & Hs1). rewrite Hdev in Hr1, Ho1.
  set (n1 := Inner_set_backtrace (header m) n) in *. set (n2 := Inner_on_send_ready eid n1).
  edestruct (rep_apply_run (λ s inner, State_on_send_ready s inner eid) n1 (Active eid)) as (o2 & Hr2 & Ho2 & Hs2);
    [done|].
  destruct (rep_sends n2 (Active eid) eid pipe reply (mkMessage r (body reply)) timeout ((out ++ o1) ++ ([] ++ o2)))
    as (o3 & Hr3 & Ho3 & Hs3); [by right|cbn; set_solver|done| |].
  { apply to_raw_backtrace; [done..|]. cbn. by rewrite Hh, Hw. }
  eexists _, _. split; [done|]. split.
  { simpl drive. eapply bind_done; [apply Hr1|]. eapply bind_done; [apply Hr2|]. by eapply bind_done; [apply Hr3|]. }
  rewrite Hkey in Hs3. split_and!; [| |done]; repeat first [rewrite replies_app|rewrite sends_app];
    by rewrite ?Ho1, ?Ho2, ?Ho3, ?Hs1, ?Hs2, ?Hs3.
Qed.

(** C39: An acknowledgement that comes late (for a reply the facade gave up on)
    empties the backtrace of the request being served: the facade's reply to that
    request is refused, nothing is sent, and the requester is never answered. *)
Theorem rep_late_ack_loses_route self out eid late reply timeout :
  state self = Some (Active eid) → is_device_item (inner self) = false →
  ∃ self' out', drive [ISendAck late; ISend reply timeout] self out = Done self' out' ∧
    replies out' = [ReplyErr (invalid_data_io_error "Sending without eid")] ∧ sends out' = [].
Proof.
  intros Hst Hdev. destruct self as [n os]. cbn [inner state] in *. subst os.
  simpl drive. unfold Rep_on_send_ack, apply at 1. cbn [state inner State_on_send_ack]. mrun.
  unfold Rep_send, Inner_msg_to_raw_msg. cbn [inner is_device_item Inner_clear_backtrace]. rewrite Hdev.
  destruct (Message_split reply) as [rh rb]. cbn [negb Inner_get_backtrace backtrace length].
  rewrite bool_decide_true by (simpl; lia). unfold Inner_on_send_malformed, send_reply. mrun.
  eexists _, _. split; [done|]. split; simpl; autorewrite with scap; simpl; by autorewrite with scap.
Qed.

Lemma sending_kept i self self' h o eid m t :
  state self = Some (Sending eid m t) → i ≠ ISendAck eid → i ≠ ISendTimeout → request i = None →
  i ≠ IRecvTimeout → step i self h = Done self' o → state self' = Some (Sending eid m t).
Proof.
  destruct self as [n os]. cbn [state]. intros -> Hack Hto Hreq Hrto.
  destruct i as [id pipe|id|msg tt|id| |id|id|tt|id msg| |id|id|opt|task|]; try done; simpl step;
    try (by intros [= <- _]).
  - unfold Rep_remove_pipe. cbn [inner state]. rewrite !bind_run.
    destruct (Inner_remove_pipe id n h) as [[p n'] o1|]; [|done].
    mrun. destruct p as [p|]; mrun; [|by intros [= <- _]].
    unfold apply. cbn [state State_on_pipe_removed]. mrun. by intros [= <- _].
  - intros Hrun. destruct (rep_apply_inv _ _ _ _ _ _ Hrun) as (s' & n' & o' & Ht & ->).
    simpl in Ht. rewrite bool_decide_false in Ht by congruence. by injection Ht as <- _ _.
  - intros Hrun. destruct (rep_apply_inv _ _ _ _ _ _ Hrun) as (s' & n' & o' & Ht & ->).
    by injection Ht as <- _ _.
  - intros Hrun. destruct (rep_apply_inv _ _ _ _ _ _ Hrun) as (s' & n' & o' & Ht & ->).
    by injection Ht as <- _ _.
  - unfold Rep_on_recv_ack, Inner_on_recv_ack_malformed, send_reply. cbn [inner].
    destruct (Inner_raw_msg_to_msg msg id n); [|mrun; by intros [= <- _]].
    intros Hrun. destruct (rep_apply_inv _ _ _ _ _ _ Hrun) as (s' & n' & o' & Ht & ->).
    by injection Ht as <- _ _.
  - intros Hrun. destruct (rep_apply_inv _ _ _ _ _ _ Hrun) as (s' & n' & o' & Ht & ->).
    revert Ht. unfold State_on_recv_ready, Inner_on_recv_ready. rewrite !bind_run.
    destruct (lift _ _); [|done]. mrun. by intros [= <- _ _].
  - intros Hrun. destruct (rep_apply_inv _ _ _ _ _ _ Hrun) as (s' & n' & o' & Ht & ->).
    revert Ht. unfold State_on_recv_not_ready, Inner_on_recv_not_ready. rewrite !bind_run.
    destruct (lift _ _); [|done]. mrun. by intros [= <- _ _].
Qed.

Lemma sending_waits ins self h eid m t :
  Rep_inv self → state self = Some (Sending eid m t) →
  (∀ i, i ∈ ins → i ≠ ISendAck eid ∧ i ≠ ISendTimeout) → disciplined ins self h = true →
  ∃ self' out, drive ins self h = Done self' out ∧ replies out = [] ∧
    state self' = Some (Sending eid m t).
Proof.
  revert self h. induction ins as [|i ins IH]; intros self h Hinv Hst Hi Hd; [by exists self, []|].
  simpl in Hd. rewrite !andb_true_iff in Hd. destruct Hd as [[Hg Ha] Hd].
  destruct (Rep_step_ok i self h Hinv Hg Ha) as (s1 & o1 & Hs & Hinv1 & _ & Hc).
  assert (Hp : Rep_pending self = Some (KSend, t)) by (unfold Rep_pending; by rewrite Hst).
  destruct (Hi i) as [Hack Hto]; [set_solver|]. rewrite Hp in Ha, Hc.
  assert (Hreq : request i = None ∧ i ≠ IRecvTimeout) by (destruct i; try done; by destruct t).
  assert (Hst1 : state s1 = Some (Sending eid m t)) 
    by (eapply sending_kept; [exact Hst|exact Hack|exact Hto|apply Hreq..|exact Hs]).
  assert (Hp1 : Rep_pending s1 = Some (KSend, t)) by (unfold Rep_pending; by rewrite Hst1).
  rewrite Hp1 in Hc. rewrite Hs in Hd.
  destruct (IH s1 (h ++ o1) Hinv1 Hst1) as (s2 & o2 & Hr2 & Ho2 & Hst2); [set_solver|done|].
  exists s2, (o1 ++ o2). split; [simpl; by apply bind_done with s1|]. split; [|done].
  rewrite replies_app, Ho2. rewrite app_nil_r. by inversion Hc.
Qed.

(** When the pipe a REP socket is sending a reply on is removed, the send is
    neither answered nor tried again: whatever comes next, short of its timer or an
    acknowledgement of that pipe, the facade keeps waiting.  Without a send timeout
    it waits for ever. *)
Theorem rep_send_lost_with_pipe ins self out eid m t ins' :
  disciplined ins Rep_from [] = true → drive ins Rep_from [] = Done self out →
  state self = Some (Sending eid m t) →
  (∀ i, i ∈ ins' → i ≠ ISendAck eid ∧ i ≠ ISendTimeout) →
  disciplined (IRemovePipe eid :: ins') self out = true →
  ∃ self' out', drive (IRemovePipe eid :: ins') self out = Done self' out' ∧
    replies out' = [] ∧ Rep_pending self' = Some (KSend, t).
Proof.
  intros Hd Hrun Hst Hi Hd'.
  pose proof (Rep_reached ins self out Hd Hrun) as Hinv.
  destruct (sending_waits (IRemovePipe eid :: ins') self out eid m t Hinv Hst)
    as (self' & out' & Hr & Ho & Hst'); [|done|].
  { intros i. rewrite elem_of_cons. intros [->|?]; [done|auto]. }
  exists self', out'. split_and!; try done. unfold Rep_pending. by rewrite Hst'.
Qed.

End contract.

Section witness.
#[local] Existing Instance ref_env.
#[local] Existing Instance be_ref.

Definition ex_id (n : Z) : EndpointId := EndpointId_from n.
Definition ex_pipe (n : Z) : Pipe := Pipe_new_accepted (ex_id n) (mkEndpointDesc 8 8 false 1024).
Definition ex_recv : list input :=
  [IAddPipe (ex_id 1) (ex_pipe 1); IAddPipe (ex_id 2) (ex_pipe 2); IRecvReady (ex_id 1); IRecv None].
(** A request that went through one device. *)
Definition ex_request : Message := from_body [0; 0; 0; 5; 128; 0; 0; 8; 42].
Definition ex_run : list input :=
  ex_recv ++ [IRecvAck (ex_id 1) ex_request; ISendReady (ex_id 1); ISend (from_body [9]) None].
Definition ex_after (ins : list input) : Rep := default Rep_from (returned (drive ins Rep_from [])).
Definition ex_trace (ins : list input) : trace := emitted (drive ins Rep_from []).

Example rep_ex_run_trace :
  emitted (drive (ex_run ++ [ISendAck (ex_id 1)]) Rep_from []) =
  [Raise (CanRecv true); NetRecv (ex_id 1); Raise (CanRecv false);
   SendReply (ReplyRecv (from_body [42])); Raise (CanSend true);
   NetSend (ex_id 1) (mkMessage [0; 0; 0; 5; 128; 0; 0; 8] [9]); Raise (CanSend false);
   SendReply ReplySend].
Proof. vm_compute. reflexivity. Qed.

Lemma rep_conversation_witness : conversation Rep_from ex_run.
Proof. apply (rep_conversation ex_run). vm_compute. reflexivity. Defined.

Lemma rep_answers_origin_witness :
  ∃ r self' out',
    body ex_request = r ++ body (mkMessage [0; 0; 0; 1; 0; 0; 0; 5; 128; 0; 0; 8] [42]) ∧
    drive [IRecvAck (ex_id 1) ex_request; ISendReady (ex_id 1); ISend (from_body [9]) None]
      (ex_after ex_recv) (ex_trace ex_recv) = Done self' out' ∧
    replies out' = [ReplyRecv (mkMessage [] (body (mkMessage [0; 0; 0; 1; 0; 0; 0; 5; 128; 0; 0; 8] [42])))] ∧
    sends out' = [(ex_id 1, mkMessage r (body (from_body [9])))] ∧
    Rep_pending self' = Some (KSend, None).
Proof. apply (rep_answers_origin ex_recv _ _ _ None); vm_compute; done. Defined.

(** The facade gives up on a reply, serves another request, and the first
    acknowledgement arrives. *)
Definition ex_late : list input :=
  ex_recv ++ [IRecvAck (ex_id 1) ex_request; ISendReady (ex_id 1);
    ISend (from_body [9]) (Some (Scheduled_from 3)); ISendTimeout;
    IRecvReady (ex_id 2); IRecv None; IRecvAck (ex_id 2) ex_request].

Lemma rep_late_ack_loses_route_witness :
  disciplined ex_late Rep_from [] = true ∧
  ∃ self' out', drive [ISendAck (ex_id 1); ISend (from_body [7]) None] (ex_after ex_late) (ex_trace ex_late) =
      Done self' out' ∧
    replies out' = [ReplyErr (invalid_data_io_error "Sending without eid")] ∧ sends out' = [].
Proof.
  split; [vm_compute; reflexivity|].
  apply (rep_late_ack_loses_route (ex_after ex_late) _ (ex_id 2)); vm_compute; reflexivity.
Defined.

Lemma rep_send_lost_with_pipe_witness :
  ∃ self' out', drive [IRemovePipe (ex_id 1); IRecvReady (ex_id 2)] (ex_after ex_run) (ex_trace ex_run) =
      Done self' out' ∧
    replies out' = [] ∧ Rep_pending self' = Some (KSend, None).
Proof.
  apply (rep_send_lost_with_pipe ex_run _ _ _ (mkMessage [0; 0; 0; 5; 128; 0; 0; 8] [9]) _ [IRecvReady (ex_id 2)]);
    try (vm_compute; reflexivity).
  intros i. rewrite elem_of_list_singleton || rewrite list_elem_of_singleton. by intros ->.
Defined.
End witness.
