(* ===== verification/Resp.v ===== *)
(** * RESPONDENT (src/proto/resp.rs)

    The SURVEY side of REP: fair-queued surveys, each answered on the pipe it came
    from.  The source repeats rep.rs word for word, with one more readiness event
    in [on_recv_ready], and so do the definitions here.  Nothing is proved twice:
    [to_rep] maps a RESPONDENT onto a REP socket, every handler is shown to be
    like REP's ([resp_step_like]), and the contract follows from REP's. *)

From S2P Require Import Prelude Core Context Priolist Pipes Protocol Codec Rep.

(** ** State *)

Inductive State : Type :=
| Idle
| Receiving (eid : EndpointId) (timeout : Timeout)
| RecvOnHold (timeout : Timeout)
| Active (eid : EndpointId)
| Sending (eid : EndpointId) (msg : Message) (timeout : Timeout)
| SendOnHold (eid : EndpointId) (msg : Message) (timeout : Timeout).

Record Inner : Type := mkInner {
  pipes : PipeCollection;
  fq : Priolist;
  sd : gset EndpointId;
  ttl : Z;
  backtrace : bytes;
  is_device_item : bool
}.

Record Respondent : Type := mkRespondent { inner : Inner; state : option State }.

Section rep.
Context `{Env} `{ByteOrder}.

(** ** Inner *)

Definition Inner_new : Inner := {|
  pipes := PipeCollection_new;
  fq := new;
  sd := ∅;
  ttl := 8;
  backtrace := [];
  is_device_item := false
|}.

Definition set_pipes x (n : Inner) : Inner :=
  mkInner x (fq n) (sd n) (ttl n) (backtrace n) (is_device_item n).
Definition set_fq x (n : Inner) : Inner :=
  mkInner (pipes n) x (sd n) (ttl n) (backtrace n) (is_device_item n).
Definition set_sd x (n : Inner) : Inner :=
  mkInner (pipes n) (fq n) x (ttl n) (backtrace n) (is_device_item n).
Definition Inner_set_backtrace (bt : bytes) (n : Inner) : Inner :=
  mkInner (pipes n) (fq n) (sd n) (ttl n) bt (is_device_item n).
Definition Inner_clear_backtrace (n : Inner) : Inner :=
  mkInner (pipes n) (fq n) (sd n) (ttl n) [] (is_device_item n).
Definition Inner_get_backtrace (n : Inner) : bytes := backtrace n.
Definition set_is_device_item x (n : Inner) : Inner :=
  mkInner (pipes n) (fq n) (sd n) (ttl n) (backtrace n) x.

Definition Inner_add_pipe (eid : EndpointId) (pipe : Pipe) (self : Inner) : Inner :=
  let self := set_fq (insert eid (Pipe_get_recv_priority pipe) (fq self)) self in
  set_pipes (PipeCollection_insert eid pipe (pipes self)).2 self.

Definition Inner_remove_pipe (eid : EndpointId) (self : Inner) : P (option Pipe * Inner) :=
  fq ← lift (remove eid (fq self));
  let self := set_sd (sd self ∖ {[eid]}) (set_fq fq self) in
  let '(pipe, pipes) := PipeCollection_remove eid (pipes self) in
  mret (pipe, set_pipes pipes self).

Definition Inner_on_send_malformed (timeout : Timeout) (self : Inner) : P () :=
  send_reply (ReplyErr (invalid_data_io_error "Sending without eid"));; cancel_opt timeout.

Definition Inner_send_to (msg : Message) (eid : EndpointId) (self : Inner) : P (bool * Inner) :=
  let self := set_sd (sd self ∖ {[eid]}) self in
  sent ← send_to msg eid (pipes self);
  mret (match sent with Some _ => true | None => false end, self).

Definition Inner_on_send_ack (timeout : Timeout) (self : Inner) : P () :=
  send_reply ReplySend;; cancel_opt timeout.

Definition Inner_send_when_inactive (timeout : Timeout) (self : Inner) : P () :=
  send_reply (ReplyErr (other_io_error "Can't send: no active request"));; cancel_opt timeout.

Definition Inner_on_send_timeout (self : Inner) : P () :=
  send_reply (ReplyErr (timedout_io_error "Send timed out")).

Definition Inner_on_send_ready (eid : EndpointId) (self : Inner) : Inner :=
  set_sd ({[eid]} ∪ sd self) self.
Definition Inner_on_send_not_ready (eid : EndpointId) (self : Inner) : Inner :=
  set_sd (sd self ∖ {[eid]}) self.

Definition Inner_is_send_ready (self : Inner) : bool := negb (bool_decide (sd self = ∅)).
Definition Inner_is_send_ready_to (eid : EndpointId) (self : Inner) : bool :=
  bool_decide (eid ∈ sd self).

Definition Inner_recv (self : Inner) : P (option EndpointId * Inner) :=
  '(asked, fq) ← fair_queue_recv (fq self) (pipes self);
  mret (asked, set_fq fq self).

Definition Inner_on_recv_ready (eid : EndpointId) (self : Inner) : P Inner :=
  fq ← lift (activate eid (fq self)); mret (set_fq fq self).
Definition Inner_on_recv_not_ready (eid : EndpointId) (self : Inner) : P Inner :=
  fq ← lift (deactivate eid (fq self)); mret (set_fq fq self).

Definition Inner_on_recv_ack (timeout : Timeout) (msg : Message) (self : Inner) : P Inner :=
  let '(msg, self) :=
    if negb (is_device_item self)
    then (mkMessage [] (body msg), Inner_set_backtrace (header msg) self)
    else (msg, self) in
  send_reply (ReplyRecv msg);; cancel_opt timeout;; mret self.

Definition Inner_on_recv_timeout (self : Inner) : P () :=
  send_reply (ReplyErr (timedout_io_error "Recv timed out")).

Definition Inner_on_recv_ack_malformed (self : Inner) : P () :=
  send_reply (ReplyErr (invalid_data_io_error "Received request without id")).

Definition Inner_is_recv_ready (self : Inner) : bool := peek (fq self).

(** The loop of [raw_msg_to_msg]: [hops_left] is [ttl - hops]. *)
Fixpoint take_hops (hops_left : nat) (header body : bytes) : option Message :=
  match hops_left with
  | O => None
  | S hops_left =>
      if bool_decide (length body < 4)%nat then None
      else
        let tail := drop 4 body in
        let header := header ++ take 4 body in
        let position := (length header - 4)%nat in
        if negb (Z.land (nth position header 0) 128 =? 0)
        then Some (from_header_and_body header tail)
        else take_hops hops_left header tail
  end.

Definition Inner_raw_msg_to_msg (raw_msg : Message) (eid : EndpointId) (self : Inner)
    : option Message :=
  let '(header, body) := Message_split raw_msg in
  let eid_bytes := be_write_u32 (wrap 32 (EndpointId_into eid)) in
  take_hops (Z.to_nat (ttl self)) (header ++ eid_bytes) body.

Definition Inner_msg_to_raw_msg (msg : Message) (self : Inner) : option (Message * EndpointId) :=
  let '(header, body) := Message_split msg in
  let header := if negb (is_device_item self) then Inner_get_backtrace self else header in
  if bool_decide (length header < 4)%nat then None
  else
    let tail := drop 4 header in
    let eid_u32 := be_read_u32 (take 4 header) in
    Some (from_header_and_body tail body, EndpointId_from eid_u32).

(** ** State transitions *)

Definition State_recv (self : State) (inner : Inner) (timeout : Timeout) : P (State * Inner) :=
  '(asked, inner) ← Inner_recv inner;
  match asked with
  | None => mret (RecvOnHold timeout, inner)
  | Some eid => mret (Receiving eid timeout, inner)
  end.

Definition State_on_pipe_removed (self : State) (inner : Inner) (eid : EndpointId)
    : P (State * Inner) :=
  match self with
  | Receiving id timeout =>
      if bool_decide (id = eid) then State_recv Idle inner timeout
      else mret (Receiving id timeout, inner)
  | any => mret (any, inner)
  end.

Definition State_send_reply_to (self : State) (inner : Inner) (msg : Message) (timeout : Timeout)
    (eid : EndpointId) : P (State * Inner) :=
  '(sent, inner) ← Inner_send_to msg eid inner;
  if sent : bool then mret (Sending eid msg timeout, inner)
  else mret (SendOnHold eid msg timeout, inner).

Definition State_send (self : State) (inner : Inner) (msg : Message) (timeout : Timeout)
    (eid : EndpointId) : P (State * Inner) :=
  if is_device_item inner then
    if Inner_is_send_ready_to eid inner then State_send_reply_to Idle inner msg timeout eid
    else Inner_on_send_ack timeout inner;; mret (Idle, inner)
  else
    match self with
    | Active _ =>
        if Inner_is_send_ready_to eid inner then State_send_reply_to Idle inner msg timeout eid
        else mret (SendOnHold eid msg timeout, inner)
    | _ => Inner_send_when_inactive timeout inner;; mret (Idle, inner)
    end.

Definition State_on_send_ack (self : State) (inner : Inner) (eid : EndpointId)
    : P (State * Inner) :=
  match self with
  | Sending id msg timeout =>
      if bool_decide (id = eid) then Inner_on_send_ack timeout inner;; mret (Idle, inner)
      else mret (Sending id msg timeout, inner)
  | any => mret (any, inner)
  end.

Definition State_on_send_timeout (self : State) (inner : Inner) : P (State * Inner) :=
  Inner_on_send_timeout inner;; mret (Idle, inner).

Definition State_on_send_ready (self : State) (inner : Inner) (eid : EndpointId)
    : P (State * Inner) :=
  let inner := Inner_on_send_ready eid inner in
  match self with
  | SendOnHold id msg timeout =>
      if bool_decide (id = eid) then State_send_reply_to Idle inner msg timeout eid
      else mret (SendOnHold id msg timeout, inner)
  | any => mret (any, inner)
  end.

Definition State_on_send_not_ready (self : State) (inner : Inner) (eid : EndpointId)
    : P (State * Inner) :=
  mret (self, Inner_on_send_not_ready eid inner).

Definition State_is_send_ready (self : State) (inner : Inner) : bool :=
  if is_device_item inner then Inner_is_send_ready inner
  else match self with Active eid => Inner_is_send_ready_to eid inner | _ => false end.

Definition State_on_recv_ack (self : State) (inner : Inner) (eid : EndpointId) (msg : Message)
    : P (State * Inner) :=
  match self with
  | Receiving id timeout =>
      if bool_decide (id = eid) then
        inner ← Inner_on_recv_ack timeout msg inner;
        if is_device_item inner then mret (Idle, inner) else mret (Active eid, inner)
      else mret (Receiving id timeout, inner)
  | any => mret (any, inner)
  end.

Definition State_on_recv_timeout (self : State) (inner : Inner) : P (State * Inner) :=
  Inner_on_recv_timeout inner;; mret (Idle, inner).

Definition State_on_recv_ready (self : State) (inner : Inner) (eid : EndpointId)
    : P (State * Inner) :=
  inner ← Inner_on_recv_ready eid inner;
  match self with
  | RecvOnHold timeout => State_recv Idle inner timeout
  | any => ctx_raise (CanRecv true);; mret (any, inner)
  end.

Definition State_on_recv_not_ready (self : State) (inner : Inner) (eid : EndpointId)
    : P (State * Inner) :=
  inner ← Inner_on_recv_not_ready eid inner; mret (self, inner).

Definition State_is_recv_ready (self : State) (inner : Inner) : bool := Inner_is_recv_ready inner.

(** ** The protocol *)

Definition apply (transition : State → Inner → P (State * Inner)) (self : Respondent)
    : P Respondent :=
  match state self with
  | Some old_state =>
      let was_send_ready := State_is_send_ready old_state (inner self) in
      let was_recv_ready := State_is_recv_ready old_state (inner self) in
      '(new_state, inner) ← transition old_state (inner self);
      let is_send_ready := State_is_send_ready new_state inner in
      let is_recv_ready := State_is_recv_ready new_state inner in
      check_send_ready_change was_send_ready is_send_ready;;
      check_recv_ready_change was_recv_ready is_recv_ready;;
      mret (mkRespondent inner (Some new_state))
  | None => mret self
  end.

Definition Respondent_from : Respondent := mkRespondent Inner_new (Some Idle).

Definition Respondent_is_send_ready (self : Respondent) : bool :=
  match state self with Some s => State_is_send_ready s (inner self) | None => false end.
Definition Respondent_is_recv_ready (self : Respondent) : bool :=
  match state self with Some s => State_is_recv_ready s (inner self) | None => false end.

Definition Respondent_add_pipe (eid : EndpointId) (pipe : Pipe) (self : Respondent) : P Respondent :=
  mret (mkRespondent (Inner_add_pipe eid pipe (inner self)) (state self)).

Definition Respondent_remove_pipe (eid : EndpointId) (self : Respondent) : P (option Pipe * Respondent) :=
  let was_send_ready := Respondent_is_send_ready self in
  let was_recv_ready := Respondent_is_recv_ready self in
  '(pipe, inner) ← Inner_remove_pipe eid (inner self);
  let self := mkRespondent inner (state self) in
  let is_send_ready := Respondent_is_send_ready self in
  let is_recv_ready := Respondent_is_recv_ready self in
  self ← match pipe with
         | Some _ => apply (λ s inner, State_on_pipe_removed s inner eid) self
         | None => mret self
         end;
  check_send_ready_change was_send_ready is_send_ready;;
  check_recv_ready_change was_recv_ready is_recv_ready;;
  mret (pipe, self).

Definition Respondent_send (msg : Message) (timeout : Timeout) (self : Respondent) : P Respondent :=
  match Inner_msg_to_raw_msg msg (inner self) with
  | Some (raw_msg, eid) => apply (λ s inner, State_send s inner raw_msg timeout eid) self
  | None => Inner_on_send_malformed timeout (inner self);; mret self
  end.

Definition Respondent_on_send_ack (eid : EndpointId) (self : Respondent) : P Respondent :=
  apply (λ s inner, State_on_send_ack s inner eid)
    (mkRespondent (Inner_clear_backtrace (inner self)) (state self)).

Definition Respondent_on_recv_ack (eid : EndpointId) (raw_msg : Message) (self : Respondent)
    : P Respondent :=
  match Inner_raw_msg_to_msg raw_msg eid (inner self) with
  | Some msg => apply (λ s inner, State_on_recv_ack s inner eid msg) self
  | None => Inner_on_recv_ack_malformed (inner self);; mret self
  end.

Definition Respondent_on_device_plugged (self : Respondent) : P Respondent :=
  mret (mkRespondent (set_is_device_item true (inner self)) (state self)).

Definition Respondent_close (self : Respondent) : P Respondent :=
  pipes ← close_all (pipes (inner self));
  mret (mkRespondent (set_pipes pipes (inner self)) (state self)).

#[export] Instance Respondent_protocol : Protocol Respondent := {|
  proto_id _ := RESPONDENT;
  peer_id _ := SURVEYOR;
  add_pipe := Respondent_add_pipe;
  remove_pipe := Respondent_remove_pipe;
  send := Respondent_send;
  on_send_ack := Respondent_on_send_ack;
  on_send_timeout := apply State_on_send_timeout;
  on_send_ready eid := apply (λ s inner, State_on_send_ready s inner eid);
  on_send_not_ready eid := apply (λ s inner, State_on_send_not_ready s inner eid);
  recv timeout := apply (λ s inner, State_recv s inner timeout);
  on_recv_ack := Respondent_on_recv_ack;
  on_recv_timeout := apply State_on_recv_timeout;
  on_recv_ready eid := apply (λ s inner, State_on_recv_ready s inner eid);
  on_recv_not_ready eid := apply (λ s inner, State_on_recv_not_ready s inner eid);
  is_send_ready := Respondent_is_send_ready;
  is_recv_ready := Respondent_is_recv_ready;
  set_option := default_set_option;
  on_timer_tick := default_on_timer_tick;
  on_device_plugged := Respondent_on_device_plugged;
  close := Respondent_close
|}.

End rep.

(** ** A RESPONDENT as a REP socket *)

Definition to_state (s : State) : Rep.State :=
  match s with
  | Idle => Rep.Idle
  | Receiving eid t => Rep.Receiving eid t
  | RecvOnHold t => Rep.RecvOnHold t
  | Active eid => Rep.Active eid
  | Sending eid m t => Rep.Sending eid m t
  | SendOnHold eid m t => Rep.SendOnHold eid m t
  end.
Definition to_inner (n : Inner) : Rep.Inner :=
  Rep.mkInner (pipes n) (fq n) (sd n) (ttl n) (backtrace n) (is_device_item n).
Definition to_rep (self : Respondent) : Rep.Rep :=
  Rep.mkRep (to_inner (inner self)) (to_state <$> state self).
Abbreviation both := (prod_map to_state to_inner).

Section likeness.
Context `{Env} `{ByteOrder}.

Lemma steady_send_change a b : steady (check_send_ready_change a b).
Proof. intros h h'. by rewrite !check_send_run. Qed.
Lemma steady_recv_change a b : steady (check_recv_ready_change a b).
Proof. intros h h'. by rewrite !check_recv_run. Qed.
Lemma steady_cancel t : steady (cancel_opt t).
Proof. intros h h'. by rewrite !cancel_opt_run. Qed.
Lemma steady_send_to msg eid pc : steady (send_to msg eid pc).
Proof. intros h h'. by rewrite !send_to_run. Qed.
Lemma steady_reply r : steady (send_reply r).
Proof. by intros h h'. Qed.
Lemma steady_fair_queue q pc : steady (fair_queue_recv q pc).
Proof.
  unfold fair_queue_recv. apply steady_bind; [apply steady_lift|]. intros [next q'].
  destruct next as [eid|]; [|apply steady_ret]. apply steady_bind; [|auto with steady].
  intros h h'. by rewrite !recv_from_run.
Qed.
#[local] Hint Resolve steady_send_change steady_recv_change steady_cancel steady_send_to
  steady_reply steady_fair_queue : steady.

(** Go through two handlers in step. *)
Ltac in_step :=
  repeat first
    [ apply like_ret; reflexivity
    | apply like_same; [solve [auto with steady]|intros ?]
    | match goal with
      | |- like _ (match ?x with _ => _ end) _ => destruct x eqn:?
      | |- like _ (let '(_, _) := ?x in _) _ => destruct x eqn:?
      end; cbn [fst snd] ].

Lemma recv_like s n t : like both (State_recv s n t) (Rep.State_recv (to_state s) (to_inner n) t).
Proof.
  unfold State_recv, Rep.State_recv, Inner_recv, Rep.Inner_recv.
  apply (like_bind (prod_map id to_inner)); [|intros [[e|] n']; in_step]. cbn [fq to_inner pipes]. in_step.
Qed.

Lemma send_to_like s n m t eid :
  like both (State_send_reply_to s n m t eid) (Rep.State_send_reply_to (to_state s) (to_inner n) m t eid).
Proof.
  unfold State_send_reply_to, Rep.State_send_reply_to, Inner_send_to, Rep.Inner_send_to.
  apply (like_bind (prod_map id to_inner)); [|intros [[|] n']; in_step]. in_step.
Qed.

Lemma send_like s n m t eid :
  like both (State_send s n m t eid) (Rep.State_send (to_state s) (to_inner n) m t eid).
Proof.
  unfold State_send, Rep.State_send, Inner_on_send_ack, Rep.Inner_on_send_ack,
    Inner_send_when_inactive, Rep.Inner_send_when_inactive. cbn [is_device_item to_inner Rep.is_device_item].
  destruct (is_device_item n); [|destruct s; try solve [in_step]]; cbn [to_state];
    (change (Rep.Inner_is_send_ready_to eid (to_inner n)) with (Inner_is_send_ready_to eid n);
     destruct (Inner_is_send_ready_to eid n); [apply send_to_like|in_step]).
Qed.

Lemma recv_ack_like s n eid m :
  like both (State_on_recv_ack s n eid m) (Rep.State_on_recv_ack (to_state s) (to_inner n) eid m).
Proof.
  destruct s as [|id t|t|id|id m' t|id m' t]; try solve [in_step]. simpl.
  case_bool_decide; [|in_step]. apply (like_bind to_inner).
  - unfold Inner_on_recv_ack, Rep.Inner_on_recv_ack. cbn [Rep.is_device_item to_inner].
    destruct (is_device_item n); cbn [negb]; in_step.
  - intros n'. change (Rep.is_device_item (to_inner n')) with (is_device_item n'). in_step.
Qed.

Lemma send_ack_like s n eid :
  like both (State_on_send_ack s n eid) (Rep.State_on_send_ack (to_state s) (to_inner n) eid).
Proof.
  destruct s as [|id t|t|id|id m' t|id m' t]; try solve [in_step]. simpl.
  unfold Inner_on_send_ack, Rep.Inner_on_send_ack. case_bool_decide; in_step.
Qed.

Lemma send_ready_like s n eid :
  like both (State_on_send_ready s n eid) (Rep.State_on_send_ready (to_state s) (to_inner n) eid).
Proof.
  destruct s as [|id t|t|id|id m' t|id m' t]; try solve [in_step]. unfold State_on_send_ready.
  simpl. case_bool_decide; [|in_step].
  change (Rep.Inner_on_send_ready eid (to_inner n)) with (to_inner (Inner_on_send_ready eid n)).
  apply (send_to_like Idle).
Qed.

Lemma recv_not_ready_like s n eid :
  like both (State_on_recv_not_ready s n eid)
    (Rep.State_on_recv_not_ready (to_state s) (to_inner n) eid).
Proof.
  unfold State_on_recv_not_ready, Rep.State_on_recv_not_ready.
  apply (like_bind to_inner); [|intros; in_step].
  unfold Inner_on_recv_not_ready, Rep.Inner_on_recv_not_ready. cbn [Rep.fq to_inner]. in_step.
Qed.

Lemma removed_like s n eid :
  like both (State_on_pipe_removed s n eid) (Rep.State_on_pipe_removed (to_state s) (to_inner n) eid).
Proof.
  destruct s as [|id t|t|id|id m' t|id m' t]; try solve [in_step]. simpl.
  case_bool_decide; [apply (recv_like Idle)|in_step].
Qed.

Lemma ready_like self :
  Rep.Rep_is_send_ready (to_rep self) = Respondent_is_send_ready self ∧
  Rep.Rep_is_recv_ready (to_rep self) = Respondent_is_recv_ready self.
Proof. by destruct self as [n [[]|]]. Qed.

Lemma state_ready_like s n :
  Rep.State_is_send_ready (to_state s) (to_inner n) = State_is_send_ready s n ∧
  Rep.State_is_recv_ready (to_state s) (to_inner n) = State_is_recv_ready s n.
Proof. by destruct s. Qed.

Lemma apply_like t t' self :
  (∀ s, state self = Some s →
    like both (t s (inner self)) (t' (to_state s) (to_inner (inner self)))) →
  like to_rep (apply t self) (Rep.apply t' (to_rep self)).
Proof.
  intros Ht. destruct self as [n [s|]]; [|in_step]. specialize (Ht s eq_refl). unfold apply, Rep.apply. cbn.
  destruct (state_ready_like s n) as [-> ->]. apply (like_bind both); [exact Ht|].
  intros [s' n']. cbn. destruct (state_ready_like s' n') as [-> ->]. in_step.
Qed.

Lemma remove_like eid self :
  like (prod_map id to_rep) (Respondent_remove_pipe eid self) (Rep.Rep_remove_pipe eid (to_rep self)).
Proof.
  destruct self as [n os]. unfold Respondent_remove_pipe, Rep.Rep_remove_pipe.
  destruct (ready_like (mkRespondent n os)) as [-> ->]. cbn [Rep.inner Rep.state to_rep inner state].
  apply (like_bind (prod_map id to_inner)).
  { unfold Inner_remove_pipe, Rep.Inner_remove_pipe. cbn [Rep.fq to_inner]. in_step. }
  intros [p n']. cbn. destruct (ready_like (mkRespondent n' os)) as [Hs Hr].
  unfold to_rep in Hs, Hr. cbn in Hs, Hr. rewrite Hs, Hr. apply (like_bind to_rep); [|intros; in_step].
  destruct p; [|in_step]. apply (apply_like _ _ (mkRespondent n' os)). intros. apply removed_like.
Qed.

(** Every call but one. *)
Lemma step_like i self :
  (∀ eid, i ≠ IRecvReady eid) → like to_rep (step i self) (step i (to_rep self)).
Proof.
  intros Hi. destruct i as [eid pipe|eid|msg t|eid| |eid|eid|t|eid msg| |eid|eid|opt|task|]; simpl step.
  - in_step.
  - apply (like_bind (prod_map id to_rep)); [apply remove_like|]. intros []. in_step.
  - unfold Respondent_send, Rep.Rep_send.
    change (Rep.Inner_msg_to_raw_msg msg (Rep.inner (to_rep self)))
      with (Inner_msg_to_raw_msg msg (inner self)).
    destruct (Inner_msg_to_raw_msg msg (inner self)) as [[raw eid]|].
    + apply apply_like. intros. apply send_like.
    + unfold Inner_on_send_malformed, Rep.Inner_on_send_malformed. in_step.
  - apply (apply_like _ _ (mkRespondent (Inner_clear_backtrace (inner self)) (state self))).
    intros. apply send_ack_like.
  - apply apply_like. intros. unfold State_on_send_timeout, Rep.State_on_send_timeout.
    unfold Inner_on_send_timeout, Rep.Inner_on_send_timeout. in_step.
  - apply apply_like. intros. apply send_ready_like.
  - apply apply_like. intros. in_step.
  - apply apply_like. intros. apply recv_like.
  - unfold Respondent_on_recv_ack, Rep.Rep_on_recv_ack.
    change (Rep.Inner_raw_msg_to_msg msg eid (Rep.inner (to_rep self)))
      with (Inner_raw_msg_to_msg msg eid (inner self)).
    destruct (Inner_raw_msg_to_msg msg eid (inner self)) as [m|].
    + apply apply_like. intros. apply recv_ack_like.
    + unfold Inner_on_recv_ack_malformed, Rep.Inner_on_recv_ack_malformed. in_step.
  - apply apply_like. intros. unfold State_on_recv_timeout, Rep.State_on_recv_timeout.
    unfold Inner_on_recv_timeout, Rep.Inner_on_recv_timeout. in_step.
  - by destruct (Hi eid).
  - apply apply_like. intros. apply recv_not_ready_like.
  - in_step.
  - in_step.
  - in_step.
Qed.

(** A pipe becoming ready is announced once more, even when nothing changes. *)
Definition extra (i : input) (self : Respondent) : trace :=
  match i, state self with
  | IRecvReady _, Some (RecvOnHold _) | IRecvReady _, None => []
  | IRecvReady _, Some _ => [Raise (CanRecv true)]
  | _, _ => []
  end.

Definition matches (i : input) (self : Respondent) (h h' : trace) : Prop :=
  match step i self h with
  | Done s o => ∃ o', step i (to_rep self) h' = Done (to_rep s) o' ∧ o = extra i self ++ o'
  | Panicked => step i (to_rep self) h' = Panicked
  end.

Lemma like_matches i self h h' :
  like to_rep (step i self) (step i (to_rep self)) → extra i self = [] → matches i self h h'.
Proof.
  intros Hl He. unfold matches. rewrite (Hl h h'), He. destruct (step i self h); [|done]. by eexists.
Qed.

Lemma step_matches i self h h' : matches i self h h'.
Proof.
  assert (Hi : (∀ eid, i ≠ IRecvReady eid) ∨ ∃ eid, i = IRecvReady eid)
    by (destruct i; eauto; left; congruence).
  destruct Hi as [Hi|[eid ->]].
  { apply like_matches; [by apply step_like|]. destruct i; try done. by destruct (Hi eid). }
  destruct self as [n [s|]]; [|by apply like_matches; [simpl step; in_step|]].
  assert (Hcase : (∃ t, s = RecvOnHold t) ∨ extra (IRecvReady eid) (mkRespondent n (Some s)) =
    [Raise (CanRecv true)]) by (destruct s; eauto).
  destruct Hcase as [[t ->]|He].
  { apply like_matches; [|done]. apply apply_like. intros ? [= <-].
    unfold State_on_recv_ready, Rep.State_on_recv_ready. apply (like_bind to_inner).
    - unfold Inner_on_recv_ready, Rep.Inner_on_recv_ready. cbn [Rep.fq to_inner inner]. in_step.
    - intros n'. apply (recv_like Idle). }
  unfold matches. rewrite He. simpl step. unfold apply, Rep.apply, State_on_recv_ready,
    Rep.State_on_recv_ready, Inner_on_recv_ready, Rep.Inner_on_recv_ready.
  cbn [state inner Rep.state Rep.inner to_rep fmap option_fmap option_map].
  destruct (state_ready_like s n) as [-> ->]. cbn [Rep.fq to_inner]. rewrite !bind_run.
  destruct (activate eid (fq n)) as [q|]; [|done]. mrun.
  destruct s; try done; cbn [to_state]; unfold ctx_raise; mrun; (eexists; split; [reflexivity|done]).
Qed.

(** ** The contract *)

Definition Respondent_inv (self : Respondent) : Prop := Rep.Rep_inv (to_rep self).
Definition Respondent_pending (self : Respondent) : option (kind * Timeout) :=
  Rep.Rep_pending (to_rep self).

(** REP's, and that only pipes of the socket become ready, or the extra event
    would announce a readiness that is not there. *)
Definition Respondent_guard (i : input) (self : Respondent) : bool :=
  Rep.Rep_guard i (to_rep self) &&
  match i, extra i self with
  | IRecvReady eid, _ :: _ => bool_decide (is_Some (pc_pipes (pipes (inner self)) !! eid))
  | _, _ => true
  end.

Lemma extra_ready i self h self' o :
  extra i self ≠ [] → Respondent_inv self → Respondent_guard i self = true →
  step i (to_rep self) h = Done (to_rep self') o → Respondent_is_recv_ready self' = true.
Proof.
  intros He (s & Hst & [Hr _]) Hg. unfold Respondent_guard in Hg. apply andb_true_iff in Hg as [_ Hg].
  destruct self as [n [s0|]], i as [| | | | | | | | | |eid| | | |]; try done.
  injection Hst as <-. assert (Hk : is_Some (pc_pipes (pipes n) !! eid)).
  { destruct (extra _ _); [done|]. by apply bool_decide_eq_true in Hg. }
  clear Hg. intros Hrun. destruct (rep_apply_inv _ _ _ _ _ _ Hrun) as (s' & n' & o' & Ht & Hto).
  revert Ht. unfold Rep.State_on_recv_ready, Rep.Inner_on_recv_ready. cbn [Rep.fq to_inner inner].
  rewrite !bind_run. destruct (activate eid (fq n)) as [q|] eqn:Ha; [|done]. mrun.
  pose proof (routed_activate_peek _ _ _ _ Hr Hk Ha) as Hpk.
  destruct (ready_like self') as [_ <-]. rewrite Hto.
  destruct s0; try (by destruct He); intros [= <- <- _]; exact Hpk.
Qed.

Lemma Respondent_step_ok i self h :
  Respondent_inv self → Respondent_guard i self = true → allowed i (Respondent_pending self) = true →
  ∃ self' out, step i self h = Done self' out ∧ Respondent_inv self' ∧ announced self out self' ∧
    contract [] (Respondent_pending self) i out (Respondent_pending self').
Proof.
  intros Hi Hg Ha. pose proof Hg as Hg'. unfold Respondent_guard in Hg'. apply andb_true_iff in Hg' as [Hg' _].
  destruct (Rep_step_ok i (to_rep self) h Hi Hg' Ha) as (s' & o & Hrun & Hi' & [Hs Hr] & Hc).
  pose proof (step_matches i self h h) as Hm. unfold matches in Hm.
  destruct (step i self h) as [self' out|]; [|congruence]. destruct Hm as (o' & Hrun' & ->).
  rewrite Hrun in Hrun'. injection Hrun' as -> <-. exists self', (extra i self ++ o).
  split; [done|]. split; [done|]. destruct (ready_like self) as [Hs1 Hr1], (ready_like self') as [Hs2 Hr2].
  cbn [is_send_ready is_recv_ready Rep.Rep_protocol] in Hs, Hr. rewrite Hs1, Hs2 in Hs. rewrite Hr1, Hr2 in Hr.
  assert (He : extra i self = [] ∨ extra i self = [Raise (CanRecv true)])
    by (unfold extra; destruct i; auto; destruct (state self) as [[]|]; auto).
  split; [|apply contract_before; [done|destruct He as [->| ->]; auto]].
  destruct He as [He|He]; [by rewrite He|]. rewrite He. split; simpl; [done|].
  assert (Hpk : Respondent_is_recv_ready self' = true) by (eapply extra_ready; [by rewrite He|done..]).
  rewrite Hpk in *. by eapply recv_view_true.
Qed.

#[export] Instance Respondent_contract : Contract Respondent := {|
  inv := Respondent_inv;
  guard := Respondent_guard;
  pending := Respondent_pending;
  own_timers _ := [];
  step_ok := Respondent_step_ok
|}.

(** A fresh RESPONDENT socket keeps the facade's contract in every disciplined
    conversation: no panic, one reply of its kind per request, readiness announced
    as it is, in a device or not. *)
Theorem resp_conversation ins :
  disciplined ins Respondent_from [] = true → conversation Respondent_from ins.
Proof. apply conversation_ok; [apply Rep_from_inv|done]. Qed.

(** ** Equivalence with REP *)

(** The trace but for announcements that something can be received. *)
Definition announces_recv (e : effect) : bool :=
  match e with Raise (CanRecv true) => true | _ => false end.
Definition unannounced (t : trace) : trace := filter (λ e, announces_recv e = false) t.

Lemma unannounced_extra i self : unannounced (extra i self) = [].
Proof. unfold extra. destruct i; try done. by destruct (state self) as [[]|]. Qed.

Lemma drive_like ins self h h' :
  match drive ins self h, drive ins (to_rep self) h' with
  | Done s out, Done s' out' => s' = to_rep s ∧ unannounced out = unannounced out'
  | Panicked, Panicked => True
  | _, _ => False
  end.
Proof.
  revert self h h'. induction ins as [|i ins IH]; intros self h h'; [done|]. simpl drive. rewrite !bind_run.
  pose proof (step_matches i self h h') as Hm. unfold matches in Hm.
  destruct (step i self h) as [s1 o1|]; [|by rewrite Hm]. destruct Hm as (o1' & -> & ->).
  specialize (IH s1 (h ++ extra i self ++ o1') (h' ++ o1')).
  destruct (drive ins s1 _), (drive ins (to_rep s1) _); try done. destruct IH as [-> IH].
  split; [done|]. unfold unannounced in *. rewrite !filter_app, IH. f_equal. unfold extra.
  destruct i; try done. by destruct (state self) as [[]|].
Qed.

(** C27: On any calls whatever, in or out of a conversation, a RESPONDENT does what
    a REP socket does: the same states, replies, messages on the same pipes, timers
    and panics, but for announcements that something can be received. *)
Theorem resp_is_rep ins :
  match drive ins Respondent_from [], drive ins Rep.Rep_from [] with
  | Done self out, Done self' out' => self' = to_rep self ∧ unannounced out = unannounced out'
  | Panicked, Panicked => True
  | _, _ => False
  end.
Proof. apply (drive_like ins Respondent_from). Qed.

(** A pipe of a busy RESPONDENT that becomes ready is announced to the poller
    even when something could already be received: two announcements for one change. *)
Theorem resp_announces_twice self s eid h :
  Respondent_inv self → state self = Some s → (∀ t, s ≠ RecvOnHold t) →
  is_Some (pc_pipes (pipes (inner self)) !! eid) → peek (fq (inner self)) = false →
  ∃ self', step (IRecvReady eid) self h = Done self' (Raise (CanRecv true) :: send_change
    (State_is_send_ready s (inner self)) (Respondent_is_send_ready self') ++ [Raise (CanRecv true)]).
Proof.
  intros (s1 & Hst & [Hr _]) Hs Hne Hk Hpk. destruct self as [n os]. cbn [state inner] in *. subst os.
  destruct (routed_activate _ _ eid Hr) as (q & Hact & _).
  pose proof (routed_activate_peek _ _ _ _ Hr Hk Hact) as Hpk'.
  simpl step. unfold apply, State_on_recv_ready, Inner_on_recv_ready. cbn [state inner].
  exists (mkRespondent (set_fq q n) (Some s)). cbn in Hact. rewrite !bind_run, Hact. mrun.
  assert (Hrc : recv_change (State_is_recv_ready s n) (State_is_recv_ready s (set_fq q n)) =
    [Raise (CanRecv true)]).
  { unfold State_is_recv_ready, Inner_is_recv_ready, recv_change. cbn [fq set_fq]. by rewrite Hpk, Hpk'. }
  destruct s; try (by destruct (Hne timeout)); unfold ctx_raise; mrun; rewrite Hrc; done.
Qed.

End likeness.

Section witness.
#[local] Existing Instance ref_env.
#[local] Existing Instance be_ref.

Definition ex_resp_pipe (n : Z) : Pipe :=
  Pipe_new_accepted (EndpointId_from n) (mkEndpointDesc 8 8 false 1024).
Definition ex_resp_calls : list input :=
  [IAddPipe (EndpointId_from 1) (ex_resp_pipe 1); IRecvReady (EndpointId_from 1); IRecv None;
   IRecvAck (EndpointId_from 1) (from_body [128; 0; 0; 8; 42]); ISendReady (EndpointId_from 1);
   ISend (from_body [9]) None; ISendAck (EndpointId_from 1)].

Lemma resp_conversation_witness : conversation Respondent_from ex_resp_calls.
Proof. apply (resp_conversation ex_resp_calls). vm_compute. reflexivity. Defined.

Lemma resp_announces_twice_witness :
  let self := default Respondent_from
    (returned (drive [IAddPipe (EndpointId_from 1) (ex_resp_pipe 1)] Respondent_from [])) in
  ∃ self', step (IRecvReady (EndpointId_from 1)) self [] = Done self'
    (Raise (CanRecv true) :: send_change (State_is_send_ready Idle (inner self))
      (Respondent_is_send_ready self') ++ [Raise (CanRecv true)]).
Proof.
  apply (resp_announces_twice _ Idle); [|done|done|by vm_compute; eexists|done].
  edestruct (drive_ok (H0 := Respondent_contract)
    [IAddPipe (EndpointId_from 1) (ex_resp_pipe 1)] Respondent_from []) as (s & o & Hr & Hi & _);
    [apply Rep_from_inv|vm_compute; reflexivity|]. rewrite Hr. exact Hi.
Defined.
End witness.
