(* ===== verification/Surv.v ===== *)
(** * SURVEYOR (src/proto/surv.rs)

    A survey is tagged with an id and broadcast to every ready pipe; responses are
    fair-queued, and one with another id is dropped.  The survey goes on until its
    deadline fires or the next one is sent.  Inside a device the socket forwards
    messages as they are. *)

From S2P Require Import Prelude Core Context Priolist Pipes Protocol Codec.

(** ** State *)

Record PendingSurvey : Type := mkPendingSurvey { survey_id : Z; survey_timeout : Timeout }.

Inductive State : Type :=
| Idle
| Active (p : PendingSurvey)
| Receiving (eid : EndpointId) (p : option PendingSurvey) (timeout : Timeout)
| RecvOnHold (p : option PendingSurvey) (timeout : Timeout).

Record Inner : Type := mkInner {
  pipes : PipeCollection;
  bc : gset EndpointId;
  fq : Priolist;
  survey_id_seq : Z;
  is_device_item : bool;
  deadline : Duration
}.

Record Surveyor : Type := mkSurveyor { inner : Inner; state : option State }.

Section surv.
Context `{Env} `{ByteOrder}.

(** ** Codec *)

Definition encode (msg : Message) (survey_id : Z) : Message :=
  let survey_id_bytes := be_write_u32 survey_id in
  from_header_and_body (header msg ++ survey_id_bytes) (body msg).

Definition decode (raw_msg : Message) : option (Message * Z) :=
  if bool_decide (length (get_body raw_msg) < 4)%nat then None
  else
    let '(header, payload) := Message_split raw_msg in
    let body := drop 4 payload in
    let payload := take 4 payload in
    let survey_id := be_read_u32 payload in
    let header := if bool_decide (header = []) then payload else header ++ payload in
    Some (from_header_and_body header body, survey_id).

(** ** Inner *)

(** [seed] is [time::get_time().nsec as u32]. *)
Definition Inner_new (seed : Z) : Inner := {|
  pipes := PipeCollection_new;
  bc := ∅;
  fq := new;
  survey_id_seq := seed;
  is_device_item := false;
  deadline := from_secs 1
|}.

Definition set_pipes x (n : Inner) : Inner :=
  mkInner x (bc n) (fq n) (survey_id_seq n) (is_device_item n) (deadline n).
Definition set_bc x (n : Inner) : Inner :=
  mkInner (pipes n) x (fq n) (survey_id_seq n) (is_device_item n) (deadline n).
Definition set_fq x (n : Inner) : Inner :=
  mkInner (pipes n) (bc n) x (survey_id_seq n) (is_device_item n) (deadline n).
Definition set_survey_id_seq x (n : Inner) : Inner :=
  mkInner (pipes n) (bc n) (fq n) x (is_device_item n) (deadline n).
Definition set_is_device_item x (n : Inner) : Inner :=
  mkInner (pipes n) (bc n) (fq n) (survey_id_seq n) x (deadline n).
Definition Inner_set_survey_deadline (ivl : Duration) (n : Inner) : Inner :=
  mkInner (pipes n) (bc n) (fq n) (survey_id_seq n) (is_device_item n) ivl.

Definition Inner_add_pipe (eid : EndpointId) (pipe : Pipe) (self : Inner) : Inner :=
  let self := set_fq (insert eid (Pipe_get_recv_priority pipe) (fq self)) self in
  set_pipes (PipeCollection_insert eid pipe (pipes self)).2 self.

Definition Inner_remove_pipe (eid : EndpointId) (self : Inner) : P (option Pipe * Inner) :=
  let self := set_bc (bc self ∖ {[eid]}) self in
  fq ← lift (remove eid (fq self));
  let self := set_fq fq self in
  let '(pipe, pipes) := PipeCollection_remove eid (pipes self) in
  mret (pipe, set_pipes pipes self).

Definition Inner_cur_survey_id (self : Inner) : Z := Z.lor (survey_id_seq self) 2147483648.

Definition Inner_next_survey_id (self : Inner) : P (Z * Inner) :=
  seq ← lift (checked_add 32 (survey_id_seq self) 1);
  let self := set_survey_id_seq seq self in
  mret (Z.lor (survey_id_seq self) 2147483648, self).

Definition Inner_send (msg : Message) (timeout : Timeout) (self : Inner)
    : P (PendingSurvey * Inner) :=
  bc ← send_to_all (bc self) (pipes self) msg;
  let self := set_bc bc self in
  send_reply ReplySend;;
  cancel_opt timeout;;
  scheduled ← ctx_schedule SurveyCancel (deadline self);
  mret (mkPendingSurvey (Inner_cur_survey_id self) (result_ok scheduled), self).

Definition Inner_on_send_ready (eid : EndpointId) (self : Inner) : Inner :=
  set_bc ({[eid]} ∪ bc self) self.
Definition Inner_on_send_not_ready (eid : EndpointId) (self : Inner) : Inner :=
  set_bc (bc self ∖ {[eid]}) self.
Definition Inner_is_send_ready (self : Inner) : bool := negb (bool_decide (bc self = ∅)).

Definition Inner_recv (self : Inner) : P (option EndpointId * Inner) :=
  '(asked, fq) ← fair_queue_recv (fq self) (pipes self);
  mret (asked, set_fq fq self).

Definition Inner_recv_when_inactive (timeout : Timeout) (self : Inner) : P () :=
  send_reply (ReplyErr (other_io_error "Can't recv: no active survey"));; cancel_opt timeout.

Definition Inner_on_recv_ready (eid : EndpointId) (self : Inner) : P Inner :=
  fq ← lift (activate eid (fq self)); mret (set_fq fq self).
Definition Inner_on_recv_not_ready (eid : EndpointId) (self : Inner) : P Inner :=
  fq ← lift (deactivate eid (fq self)); mret (set_fq fq self).
Definition Inner_is_recv_ready (self : Inner) : bool := peek (fq self).

Definition Inner_on_recv_ack (timeout : Timeout) (msg : Message) (self : Inner) : P () :=
  send_reply (ReplyRecv msg);; cancel_opt timeout.

Definition Inner_on_recv_timeout (self : Inner) : P () :=
  send_reply (ReplyErr (timedout_io_error "Recv timed out")).

Definition Inner_on_recv_ack_malformed (self : Inner) : P () :=
  send_reply (ReplyErr (invalid_data_io_error "Received response without survey id")).

Definition Inner_cancel (pending_survey : PendingSurvey) (self : Inner) : P () :=
  cancel_opt (survey_timeout pending_survey).

Definition Inner_msg_to_raw_msg (msg : Message) (self : Inner) : P (Message * Inner) :=
  if is_device_item self then mret (msg, self)
  else '(survey_id, self) ← Inner_next_survey_id self; mret (encode msg survey_id, self).

Definition Inner_raw_msg_to_msg (raw_msg : Message) (self : Inner) : option (Message * Z) :=
  if is_device_item self then
    let cur_survey_id := Inner_cur_survey_id self in
    (λ mi, (mi.1, cur_survey_id)) <$> decode raw_msg
  else (λ mi, (without_header mi.1, mi.2)) <$> decode raw_msg.

(** ** State transitions *)

Definition State_send (self : State) (inner : Inner) (msg : Message) (timeout : Timeout)
    : P (State * Inner) :=
  match self with Active p => Inner_cancel p inner | _ => mret () end;;
  '(pending_survey, inner) ← Inner_send msg timeout inner;
  mret (Active pending_survey, inner).

Definition State_on_send_ack (self : State) (inner : Inner) (eid : EndpointId)
    : P (State * Inner) := mret (self, inner).
Definition State_on_send_timeout (self : State) (inner : Inner) : P (State * Inner) :=
  mret (self, inner).
Definition State_on_send_ready (self : State) (inner : Inner) (eid : EndpointId)
    : P (State * Inner) := mret (self, Inner_on_send_ready eid inner).
Definition State_on_send_not_ready (self : State) (inner : Inner) (eid : EndpointId)
    : P (State * Inner) := mret (self, Inner_on_send_not_ready eid inner).
Definition State_is_send_ready (self : State) (inner : Inner) : bool := Inner_is_send_ready inner.

Definition State_recv_reply_for (self : State) (inner : Inner) (timeout : Timeout)
    (p : PendingSurvey) : P (State * Inner) :=
  '(asked, inner) ← Inner_recv inner;
  match asked with
  | Some eid => mret (Receiving eid (Some p) timeout, inner)
  | None => mret (RecvOnHold (Some p) timeout, inner)
  end.

Definition State_recv (self : State) (inner : Inner) (timeout : Timeout) : P (State * Inner) :=
  if is_device_item inner then
    '(asked, inner) ← Inner_recv inner;
    match asked with
    | None => mret (RecvOnHold None timeout, inner)
    | Some eid => mret (Receiving eid None timeout, inner)
    end
  else
    match self with
    | Active p => State_recv_reply_for Idle inner timeout p
    | _ => Inner_recv_when_inactive timeout inner;; mret (Idle, inner)
    end.

Definition State_on_pipe_removed (self : State) (inner : Inner) (eid : EndpointId)
    : P (State * Inner) :=
  match self with
  | Receiving id p timeout =>
      if bool_decide (id = eid) then State_recv Idle inner timeout
      else mret (Receiving id p timeout, inner)
  | any => mret (any, inner)
  end.

Definition State_on_recv_ack (self : State) (inner : Inner) (eid : EndpointId) (msg : Message)
    (survey_id' : Z) : P (State * Inner) :=
  match self with
  | Receiving id None timeout =>
      if bool_decide (id = eid) then Inner_on_recv_ack timeout msg inner;; mret (Idle, inner)
      else mret (Receiving id None timeout, inner)
  | Receiving id (Some p) timeout =>
      if bool_decide (id = eid) then
        if bool_decide (survey_id p = survey_id')
        then Inner_on_recv_ack timeout msg inner;; mret (Active p, inner)
        else State_recv_reply_for Idle inner timeout p
      else mret (Receiving id (Some p) timeout, inner)
  | any => mret (any, inner)
  end.

Definition State_on_recv_timeout (self : State) (inner : Inner) : P (State * Inner) :=
  Inner_on_recv_timeout inner;;
  match self with
  | Receiving _ (Some p) _ | RecvOnHold (Some p) _ => mret (Active p, inner)
  | _ => mret (Idle, inner)
  end.

Definition State_on_recv_ready (self : State) (inner : Inner) (eid : EndpointId)
    : P (State * Inner) :=
  inner ← Inner_on_recv_ready eid inner;
  match self with
  | RecvOnHold None timeout => State_recv Idle inner timeout
  | RecvOnHold (Some p) timeout => State_recv (Active p) inner timeout
  | any => mret (any, inner)
  end.

Definition State_on_recv_not_ready (self : State) (inner : Inner) (eid : EndpointId)
    : P (State * Inner) :=
  inner ← Inner_on_recv_not_ready eid inner; mret (self, inner).

Definition State_on_survey_timeout (self : State) (inner : Inner) : P (State * Inner) :=
  match self with Active _ => mret (Idle, inner) | any => mret (any, inner) end.

Definition State_is_recv_ready (self : State) (inner : Inner) : bool :=
  if is_device_item inner then Inner_is_recv_ready inner
  else match self with Active _ => Inner_is_recv_ready inner | _ => false end.

(** ** The protocol *)

Definition apply (transition : State → Inner → P (State * Inner)) (self : Surveyor) : P Surveyor :=
  match state self with
  | Some old_state =>
      let was_send_ready := State_is_send_ready old_state (inner self) in
      let was_recv_ready := State_is_recv_ready old_state (inner self) in
      '(new_state, inner) ← transition old_state (inner self);
      let is_send_ready := State_is_send_ready new_state inner in
      let is_recv_ready := State_is_recv_ready new_state inner in
      check_send_ready_change was_send_ready is_send_ready;;
      check_recv_ready_change was_recv_ready is_recv_ready;;
      mret (mkSurveyor inner (Some new_state))
  | None => mret self
  end.

Definition Surveyor_from (seed : Z) : Surveyor := mkSurveyor (Inner_new seed) (Some Idle).

Definition Surveyor_is_send_ready (self : Surveyor) : bool :=
  match state self with Some s => State_is_send_ready s (inner self) | None => false end.
Definition Surveyor_is_recv_ready (self : Surveyor) : bool :=
  match state self with Some s => State_is_recv_ready s (inner self) | None => false end.

Definition Surveyor_add_pipe (eid : EndpointId) (pipe : Pipe) (self : Surveyor) : P Surveyor :=
  mret (mkSurveyor (Inner_add_pipe eid pipe (inner self)) (state self)).

Definition Surveyor_remove_pipe (eid : EndpointId) (self : Surveyor)
    : P (option Pipe * Surveyor) :=
  let was_send_ready := Surveyor_is_send_ready self in
  let was_recv_ready := Surveyor_is_recv_ready self in
  '(pipe, inner) ← Inner_remove_pipe eid (inner self);
  let self := mkSurveyor inner (state self) in
  let is_send_ready := Surveyor_is_send_ready self in
  let is_recv_ready := Surveyor_is_recv_ready self in
  self ← match pipe with
         | Some _ => apply (λ s inner, State_on_pipe_removed s inner eid) self
         | None => mret self
         end;
  check_send_ready_change was_send_ready is_send_ready;;
  check_recv_ready_change was_recv_ready is_recv_ready;;
  mret (pipe, self).

Definition Surveyor_send (msg : Message) (timeout : Timeout) (self : Surveyor) : P Surveyor :=
  '(raw_msg, inner) ← Inner_msg_to_raw_msg msg (inner self);
  apply (λ s inner, State_send s inner raw_msg timeout) (mkSurveyor inner (state self)).

Definition Surveyor_on_recv_ack (eid : EndpointId) (raw_msg : Message) (self : Surveyor)
    : P Surveyor :=
  match Inner_raw_msg_to_msg raw_msg (inner self) with
  | Some (msg, survey_id) => apply (λ s inner, State_on_recv_ack s inner eid msg survey_id) self
  | None => Inner_on_recv_ack_malformed (inner self);; mret self
  end.

Definition Surveyor_set_option (opt : ConfigOption) (self : Surveyor) : result () * Surveyor :=
  match opt with
  | SurveyDeadline ivl =>
      (Ok (), mkSurveyor (Inner_set_survey_deadline ivl (inner self)) (state self))
  | _ => (Err (invalid_input_io_error "option not supported"), self)
  end.

Definition Surveyor_on_timer_tick (task : Schedulable) (self : Surveyor) : P Surveyor :=
  match task with SurveyCancel => apply State_on_survey_timeout self | _ => mret self end.

Definition Surveyor_on_device_plugged (self : Surveyor) : P Surveyor :=
  mret (mkSurveyor (set_is_device_item true (inner self)) (state self)).

Definition Surveyor_close (self : Surveyor) : P Surveyor :=
  pipes ← close_all (pipes (inner self));
  mret (mkSurveyor (set_pipes pipes (inner self)) (state self)).

#[export] Instance Surveyor_protocol : Protocol Surveyor := {|
  proto_id _ := SURVEYOR;
  peer_id _ := RESPONDENT;
  add_pipe := Surveyor_add_pipe;
  remove_pipe := Surveyor_remove_pipe;
  send := Surveyor_send;
  on_send_ack eid := apply (λ s inner, State_on_send_ack s inner eid);
  on_send_timeout := apply State_on_send_timeout;
  on_send_ready eid := apply (λ s inner, State_on_send_ready s inner eid);
  on_send_not_ready eid := apply (λ s inner, State_on_send_not_ready s inner eid);
  recv timeout := apply (λ s inner, State_recv s inner timeout);
  on_recv_ack := Surveyor_on_recv_ack;
  on_recv_timeout := apply State_on_recv_timeout;
  on_recv_ready eid := apply (λ s inner, State_on_recv_ready s inner eid);
  on_recv_not_ready eid := apply (λ s inner, State_on_recv_not_ready s inner eid);
  is_send_ready := Surveyor_is_send_ready;
  is_recv_ready := Surveyor_is_recv_ready;
  set_option := Surveyor_set_option;
  on_timer_tick := Surveyor_on_timer_tick;
  on_device_plugged := Surveyor_on_device_plugged;
  close := Surveyor_close
|}.

End surv.

(** ** The contract

    The priority list mirrors the pipes; a recv under way is asked of a pipe the
    socket has, and waits only while none is ready; the survey under way carries
    the current id. *)

Section contract.
Context `{Env} `{ByteOrder}.

Definition current (p : PendingSurvey) (n : Inner) : Prop := survey_id p = Inner_cur_survey_id n.

Definition local_ok (s : State) (n : Inner) : Prop :=
  match s with
  | Idle => True
  | Active p => current p n
  | Receiving eid None _ => is_Some (pc_pipes (pipes n) !! eid) ∧ is_device_item n = true
  | Receiving eid (Some p) _ => is_Some (pc_pipes (pipes n) !! eid) ∧ current p n
  | RecvOnHold None _ => peek (fq n) = false ∧ is_device_item n = true
  | RecvOnHold (Some p) _ => peek (fq n) = false ∧ current p n
  end.

Definition inner_ok (n : Inner) : Prop := routed (fq n) (pipes n) ∧ in_range 32 (survey_id_seq n).
Definition state_ok (s : State) (n : Inner) : Prop := inner_ok n ∧ local_ok s n.

Definition Surveyor_inv (self : Surveyor) : Prop :=
  ∃ s, state self = Some s ∧ state_ok s (inner self).

Definition well_formed (raw_msg : Message) : bool := bool_decide (4 <= length (body raw_msg))%nat.

Definition Surveyor_guard (i : input) (self : Surveyor) : bool :=
  let n := inner self in
  match i with
  | IAddPipe eid pipe => bool_decide (addable eid pipe (Pipe_get_recv_priority pipe) (pipes n))
  | IRemovePipe eid => remove_safe eid (fq n)
  | ISend _ _ => is_device_item n || bool_decide (survey_id_seq n + 1 < 2 ^ 32)
  | IRecvAck _ raw => well_formed raw
  | IDevicePlugged =>
      Bool.eqb (Surveyor_is_recv_ready self)
        (Surveyor_is_recv_ready (mkSurveyor (set_is_device_item true n) (state self)))
  | _ => true
  end.

Definition State_pending (s : State) : option (kind * Timeout) :=
  match s with Receiving _ _ t | RecvOnHold _ t => Some (KRecv, t) | _ => None end.

Definition State_timers (s : State) : list Scheduled :=
  match s with
  | Active p | Receiving _ (Some p) _ | RecvOnHold (Some p) _ => option_list (survey_timeout p)
  | _ => []
  end.

Definition Surveyor_pending (self : Surveyor) : option (kind * Timeout) :=
  state self ≫= State_pending.
Definition Surveyor_timers (self : Surveyor) : list Scheduled :=
  match state self with Some s => State_timers s | None => [] end.

Abbreviation transition := (good state_ok State_pending).

Lemma surv_apply_ok own i p t s n h :
  transition own i p (t s n) →
  ∃ self' o, apply t (mkSurveyor n (Some s)) h = Done self' o ∧ Surveyor_inv self' ∧
    announced (mkSurveyor n (Some s)) o self' ∧ contract own p i o (Surveyor_pending self').
Proof.
  intros Hg. destruct (Hg h) as (s' & n' & o & Hrun & Hs & Hm & Hc).
  eexists (mkSurveyor n' (Some s')), (o ++ _). unfold apply. cbn [state inner].
  rewrite bind_run, Hrun. mrun. rewrite app_nil_r. split; [done|]. split; [by exists s'|].
  split; [|apply contract_after; auto].
  split; cbn [is_send_ready is_recv_ready Surveyor_protocol]; views.
Qed.

(** The survey a new one replaces. *)
Definition drop_trace (s : State) : trace :=
  match s with Active p => cancel_trace (survey_timeout p) | _ => [] end.

Definition survey_events (s : State) (n : Inner) (msg : Message) (t : Timeout) (h : trace) : trace :=
  drop_trace s ++
  ((λ id, NetSend id msg) <$>
    reached (pipes n) (filter (λ _, True) (drain_set (h ++ drop_trace s) (bc n)))) ++
  (SendReply ReplySend :: cancel_trace t) ++ [SchSchedule SurveyCancel (deadline n)].

Lemma surv_State_send_run s n msg t h :
  ∃ rt, State_send s n msg t h =
    Done (Active (mkPendingSurvey (Inner_cur_survey_id n) rt), set_bc ∅ n) (survey_events s n msg t h).
Proof.
  assert (Hpre : ∀ h : trace, ((match s with Active p => Inner_cancel p n | _ => mret () end) : P ()) h =
    Done () (drop_trace s)) by (intros ?; destruct s; try done; apply cancel_opt_run).
  unfold State_send, Inner_send, ctx_schedule, send_reply, history. eexists.
  rewrite bind_run, Hpre. mrun. rewrite send_all_run. mrun. unfold survey_events.
  do 2 f_equal. by rewrite app_nil_r.
Qed.

Lemma cancel_trace_cancels t : cancels (cancel_trace t) = option_list t.
Proof. by destruct t. Qed.

Lemma survey_replies s n msg t h : replies (survey_events s n msg t h) = [ReplySend].
Proof.
  unfold survey_events. rewrite !replies_app. simpl. rewrite (proj1 (silent_broadcast _ _)).
  rewrite cancel_trace_replies. by destruct s as [|[i []]| |].
Qed.

Lemma survey_cancels s n msg t h :
  cancels (survey_events s n msg t h) = cancels (drop_trace s) ++ option_list t.
Proof.
  unfold survey_events. rewrite !cancels_app. simpl. rewrite (proj2 (silent_broadcast _ _)).
  by rewrite cancel_trace_cancels, app_nil_r.
Qed.

Lemma survey_sends s n msg t h :
  sends (survey_events s n msg t h) =
  sends ((λ id, NetSend id msg) <$>
    reached (pipes n) (filter (λ _, True) (drain_set (h ++ drop_trace s) (bc n)))).
Proof.
  unfold survey_events. rewrite !sends_app. simpl. rewrite cancel_trace_sends.
  assert (sends (drop_trace s) = []) as -> by (destruct s as [|[i []]| |]; done).
  simpl. by rewrite app_nil_r.
Qed.

Lemma survey_mute s n msg t h : mute (survey_events s n msg t h).
Proof.
  unfold survey_events. repeat apply mute_app; try done; try apply mute_broadcast.
  - destruct s; try done. apply cancel_trace_mute.
  - apply cancel_trace_mute.
Qed.

Lemma surv_send_good s n msg raw t :
  inner_ok n → State_pending s = None →
  transition (State_timers s) (ISend msg t) None (State_send s n raw t).
Proof.
  intros Hn Hp h. destruct (surv_State_send_run s n raw t h) as [rt Hrun].
  eexists _, _, _. split; [exact Hrun|]. split; [by split|]. split; [apply survey_mute|].
  eapply (contract_refused _ _ KSend t ReplySend); [done|apply survey_replies|done|..];
    rewrite survey_cancels; [|set_solver].
  destruct s as [|[i o]| |]; simpl; rewrite ?cancel_trace_cancels; set_solver.
Qed.

Lemma surv_reply_for_good own i p s n t q :
  inner_ok n → current q n →
  (p = None ∧ request i = Some (KRecv, t) ∨ p = Some (KRecv, t) ∧ request i = None) →
  transition own i p (State_recv_reply_for s n t q).
Proof.
  intros [Hr Hseq] Hq Hp. unfold State_recv_reply_for, Inner_recv.
  destruct (fair_queue_run (fq n) (pipes n) Hr)
    as [[Hpk Hrun]|(eid & fq' & _ & Hrun & Hr' & _ & Hin)].
  - eapply (good_take_own _ _ _ _ _ KRecv t (RecvOnHold (Some q) t) n []);
      [done|by split|done|by split_and!; [..|set_solver]|].
    intros h. mrun. rewrite Hrun. mrun. by destruct n.
  - eapply (good_take_own _ _ _ _ _ KRecv t (Receiving eid (Some q) t) (set_fq fq' n) [NetRecv eid]);
      [done|by split|done|by split_and!; [..|set_solver]|].
    intros h. mrun. by rewrite Hrun.
Qed.

Lemma surv_recv_good own i p s n t :
  state_ok s n →
  (p = None ∧ request i = Some (KRecv, t) ∨ p = Some (KRecv, t) ∧ request i = None ∧ fires i = None) →
  transition own i p (State_recv s n t).
Proof.
  intros [[Hr Hseq] Hs] Hp. unfold State_recv. destruct (is_device_item n) eqn:Hdev.
  - unfold Inner_recv. assert (Hp' : p = None ∧ request i = Some (KRecv, t) ∨
      p = Some (KRecv, t) ∧ request i = None) by naive_solver.
    destruct (fair_queue_run (fq n) (pipes n) Hr)
      as [[Hpk Hrun]|(eid & fq' & _ & Hrun & Hr' & _ & Hin)].
    + eapply (good_take_own _ _ _ _ _ KRecv t (RecvOnHold None t) n []);
        [done|by split|done|by split_and!; [..|set_solver]|].
      intros h. mrun. rewrite Hrun. mrun. by destruct n.
    + eapply (good_take_own _ _ _ _ _ KRecv t (Receiving eid None t) (set_fq fq' n) [NetRecv eid]);
        [done|by split|done|by split_and!; [..|set_solver]|].
      intros h. mrun. by rewrite Hrun.
  - assert (Hin : transition own i p (Inner_recv_when_inactive t n;; mret (Idle, n))).
    { eapply (good_reply_own _ _ _ _ _ KRecv t (ReplyErr _) None Idle n);
        [done|done|done|done|set_solver|].
      intros h. unfold Inner_recv_when_inactive, send_reply. by mrun. }
    destruct s as [|q| |]; try done. apply surv_reply_for_good; [done|done|naive_solver].
Qed.

(** *** Removal *)

Record without (eid : EndpointId) (n n' : Inner) : Prop := {
  without_ok : inner_ok n';
  without_pipes : pc_pipes (pipes n') = delete eid (pc_pipes (pipes n));
  without_fq : peek (fq n) = false → peek (fq n') = false;
  without_bc : bc n' = bc n ∖ {[eid]};
  without_dev : is_device_item n' = is_device_item n;
  without_seq : survey_id_seq n' = survey_id_seq n
}.

Lemma surv_remove_run eid n :
  inner_ok n → remove_safe eid (fq n) = true →
  ∃ n', without eid n n' ∧
    ∀ h, Inner_remove_pipe eid n h = Done (pc_pipes (pipes n) !! eid, n') [].
Proof.
  intros [Hr Hseq] Hg. destruct (routed_remove _ _ eid Hr Hg) as (fq' & Hrm & Hr' & Hpk).
  eexists. split; [|intros h; unfold Inner_remove_pipe; cbn [fq set_bc]; rewrite Hrm; mrun; done].
  by split.
Qed.

Lemma current_same p n n' : survey_id_seq n' = survey_id_seq n → current p n → current p n'.
Proof. unfold current, Inner_cur_survey_id. by intros ->. Qed.

Lemma surv_without_local eid n n' s :
  without eid n n' → local_ok s n → (∀ q t, s ≠ Receiving eid q t) → local_ok s n'.
Proof.
  intros [Hok Hp Hfq Hbc Hdev Hseq] Hs Hne.
  assert (Hc : ∀ q, current q n → current q n') by (intros; by eapply current_same).
  destruct s as [|q|id [q|] t|[q|] t]; simpl in *; auto; destruct Hs as [H1 H2];
    (split; [|by rewrite ?Hdev; auto]); auto;
    (rewrite Hp, lookup_delete_ne; [done|]; intros ->; by eapply Hne).
Qed.

Lemma surv_removed_good eid n n' s :
  without eid n n' → state_ok s n →
  transition (State_timers s) (IRemovePipe eid) (State_pending s) (State_on_pipe_removed s n' eid).
Proof.
  intros Hw [Hn Hs]. pose proof (without_ok _ _ _ Hw) as Hn'.
  assert (Hkeep : (∀ q t, s ≠ Receiving eid q t) →
    transition (State_timers s) (IRemovePipe eid) (State_pending s) (mret (s, n'))).
  { intros Hne. apply good_stay; [split; [done|by eapply surv_without_local]|done]. }
  destruct s as [|q|id q t|q t]; try by apply Hkeep.
  simpl State_on_pipe_removed. case_bool_decide; [|apply Hkeep; congruence].
  apply surv_recv_good; [by split|auto].
Qed.

Lemma surv_removed_lowers eid s n h s' n' o :
  inner_ok n → State_on_pipe_removed s n eid h = Done (s', n') o →
  (State_is_send_ready s n = false → State_is_send_ready s' n' = false) ∧
  (State_is_recv_ready s n = false → State_is_recv_ready s' n' = false).
Proof.
  intros [Hr Hseq]. destruct s as [|q|id q t|q t]; simpl; try (intros [= <- <- <-]; by split).
  case_bool_decide; [|intros [= <- <- <-]; by split].
  unfold State_recv, State_is_recv_ready, State_is_send_ready. destruct (is_device_item n) eqn:Hdev.
  - unfold Inner_recv, Inner_is_recv_ready. mrun.
    destruct (fair_queue_run (fq n) (pipes n) Hr) as [[Hpk ->]|(e & fq' & Hpk & -> & _)]; mrun;
      intros [= <- <- <-]; cbn; rewrite Hdev; (split; [done|]); [done|by rewrite Hpk].
  - unfold Inner_recv_when_inactive, send_reply. mrun. intros [= <- <- <-]. by rewrite Hdev.
Qed.

Lemma surv_apply_inv t n s h self' o :
  apply t (mkSurveyor n (Some s)) h = Done self' o →
  ∃ s' n' o', t s n h = Done (s', n') o' ∧ self' = mkSurveyor n' (Some s').
Proof.
  unfold apply. cbn [state inner]. rewrite bind_run. destruct (t s n h) as [[s' n'] o'|]; [|done].
  mrun. intros [= <- _]. eauto.
Qed.

Lemma surv_without_unready eid n n' s :
  without eid n n' →
  (State_is_send_ready s n = false → State_is_send_ready s n' = false) ∧
  (State_is_recv_ready s n = false → State_is_recv_ready s n' = false).
Proof.
  intros Hw. unfold State_is_send_ready, Inner_is_send_ready, State_is_recv_ready, Inner_is_recv_ready.
  rewrite (without_dev _ _ _ Hw), (without_bc _ _ _ Hw), !negb_false_iff, !bool_decide_eq_true.
  split; [set_solver|]. pose proof (without_fq _ _ _ Hw). destruct (is_device_item n); [done|by destruct s].
Qed.

Lemma surv_remove_ok eid n s h :
  state_ok s n → remove_safe eid (fq n) = true →
  ∃ r self' o, Surveyor_remove_pipe eid (mkSurveyor n (Some s)) h = Done (r, self') o ∧
    Surveyor_inv self' ∧ announced (mkSurveyor n (Some s)) o self' ∧
    contract (State_timers s) (State_pending s) (IRemovePipe eid) o (Surveyor_pending self').
Proof.
  intros Hs Hg. destruct (surv_remove_run eid n (proj1 Hs) Hg) as (n' & Hw & Hn).
  destruct (surv_without_unready eid n n' s Hw) as [Hus Hur].
  unfold Surveyor_remove_pipe. cbn [inner state]. rewrite bind_run, Hn. mrun.
  destruct (pc_pipes (pipes n) !! eid) as [p|] eqn:Hl.
  - edestruct (surv_apply_ok (State_timers s) (IRemovePipe eid) (State_pending s)
      (λ s inner, State_on_pipe_removed s inner eid) s n')
      as (self' & o & Hrun & Hi & [Ha1 Ha2] & Hc); [by eapply surv_removed_good|].
    destruct (surv_apply_inv _ _ _ _ _ _ Hrun) as (s2 & n2 & o2 & Hrun2 & ->).
    destruct (surv_removed_lowers eid s n' _ s2 n2 o2 (without_ok _ _ _ Hw) Hrun2) as [Hls Hlr].
    eexists _, _, _. rewrite Hrun. mrun. rewrite app_nil_r. split; [done|]. split; [done|].
    split; [split|apply contract_after; auto].
    + eapply late_send_view; [exact Ha1|exact Hus|exact Hls|intros; apply recv_change_send_view].
    + eapply late_recv_view; [exact Ha2|exact Hur|exact Hlr|intros; apply send_change_recv_view].
  - eexists None, (mkSurveyor n' (Some s)), _. split; [mrun; done|].
    split; [|split; [|apply contract_quiet; auto]].
    + exists s. split; [done|]. split; [apply (without_ok _ _ _ Hw)|].
      eapply surv_without_local; [done|apply Hs|]. intros q t ->. destruct Hs as [_ Hs].
      assert (Hsome : is_Some (pc_pipes (pipes n) !! eid)) by (simpl in Hs; destruct q; apply Hs).
      rewrite Hl in Hsome. by destruct Hsome.
    + split; cbn [is_send_ready is_recv_ready Surveyor_protocol]; views.
Qed.

(** *** The other calls *)

Lemma surv_add_ok eid pipe n s :
  state_ok s n → addable eid pipe (Pipe_get_recv_priority pipe) (pipes n) →
  state_ok s (Inner_add_pipe eid pipe n).
Proof.
  intros [[Hr Hseq] Hs] Ha. split; [split; [by apply routed_insert|done]|].
  assert (Hin : ∀ id, is_Some (pc_pipes (pipes n) !! id) →
    is_Some (pc_pipes (pipes (Inner_add_pipe eid pipe n)) !! id)).
  { intros id Hid. simpl. destruct (decide (eid = id)) as [->|Hne];
      [by rewrite lookup_insert_eq|by rewrite lookup_insert_ne]. }
  destruct s as [|q|id [q|] t|[q|] t]; try done; destruct Hs; split; auto.
Qed.

Lemma surv_recv_timeout_good n s t :
  state_ok s n → State_pending s = Some (KRecv, t) →
  transition (State_timers s) IRecvTimeout (State_pending s) (State_on_recv_timeout s n).
Proof.
  intros [Hn Hs] ->.
  assert (Hto : ∀ s', state_ok s' n → State_pending s' = None →
    (∀ h, State_on_recv_timeout s n h = (Inner_on_recv_timeout n;; mret (s', n)) h) →
    transition (State_timers s) IRecvTimeout (Some (KRecv, t)) (State_on_recv_timeout s n)).
  { intros s' Hok Hp' Hrun. eapply (good_expire_own _ _ _ _ KRecv t _ None s' n); try done.
    { set_solver. } intros h. by rewrite Hrun. }
  destruct s as [|q|id [q|] t'|[q|] t']; simpl in Hs.
  - by apply (Hto Idle).
  - by apply (Hto Idle).
  - apply (Hto (Active q)); [split; [done|apply Hs]|done..].
  - by apply (Hto Idle).
  - apply (Hto (Active q)); [split; [done|apply Hs]|done..].
  - by apply (Hto Idle).
Qed.

Lemma surv_recv_ack_good eid raw msg id n s :
  state_ok s n →
  transition (State_timers s) (IRecvAck eid raw) (State_pending s) (State_on_recv_ack s n eid msg id).
Proof.
  intros [Hn Hs]. destruct s as [|q|e [q|] t|q t]; try by apply good_stay.
  - simpl State_on_recv_ack. case_bool_decide; [|by apply good_stay].
    case_bool_decide; [|apply surv_reply_for_good; [done|apply Hs|auto]].
    eapply (good_reply _ _ _ _ _ KRecv t (ReplyRecv msg) (Active q) n);
      [auto|done|split; [done|apply Hs]|done|].
    intros h. unfold Inner_on_recv_ack, send_reply. mrun. by rewrite app_nil_r.
  - simpl State_on_recv_ack. case_bool_decide; [|by apply good_stay].
    eapply (good_reply _ _ _ _ _ KRecv t (ReplyRecv msg) Idle n); [auto|done|done|done|].
    intros h. unfold Inner_on_recv_ack, send_reply. mrun. by rewrite app_nil_r.
Qed.

Lemma surv_recv_ready_good eid n s :
  state_ok s n →
  transition (State_timers s) (IRecvReady eid) (State_pending s) (State_on_recv_ready s n eid).
Proof.
  intros [[Hr Hseq] Hs]. unfold State_on_recv_ready, Inner_on_recv_ready.
  destruct (routed_activate _ _ eid Hr) as (fq' & -> & Hr'). eapply good_bind; [done|].
  destruct s as [|q|e [q|] t|[q|] t]; try by apply good_stay.
  - apply (surv_recv_good _ _ _ (Active q)); [split; [done|apply Hs]|auto].
  - apply surv_recv_good; [done|auto].
Qed.

Lemma surv_recv_not_ready_good eid n s :
  state_ok s n →
  transition (State_timers s) (IRecvNotReady eid) (State_pending s) (State_on_recv_not_ready s n eid).
Proof.
  intros [[Hr Hseq] Hs]. unfold State_on_recv_not_ready, Inner_on_recv_not_ready.
  destruct (routed_deactivate _ _ eid Hr) as (fq' & -> & Hr' & Hpk).
  eapply good_bind; [done|]. apply good_stay; [|done]. split; [done|].
  destruct s as [|q|e [q|] t|[q|] t]; try done;
    (destruct Hs as [H1 H2]; split; auto).
Qed.

Lemma surv_deadline_good n s :
  state_ok s n →
  transition (State_timers s) (ITimerTick SurveyCancel) (State_pending s) (State_on_survey_timeout s n).
Proof.
  intros [Hn Hs]. destruct s as [|q|e q t|q t]; try by apply good_stay.
  eapply (good_keep_own state_ok State_pending _ _ (Active q) Idle n []); try done. by split_and!; [..|set_solver].
Qed.

Lemma surv_to_raw msg n :
  inner_ok n → is_device_item n || bool_decide (survey_id_seq n + 1 < 2 ^ 32) = true →
  ∃ raw n', (∀ h, Inner_msg_to_raw_msg msg n h = Done (raw, n') []) ∧ inner_ok n' ∧
    bc n' = bc n ∧ pipes n' = pipes n ∧ fq n' = fq n ∧ is_device_item n' = is_device_item n ∧
    deadline n' = deadline n ∧
    (is_device_item n = false → survey_id_seq n' = survey_id_seq n + 1 ∧
      raw = encode msg (Inner_cur_survey_id n')).
Proof.
  intros [Hr Hseq] Hg. unfold Inner_msg_to_raw_msg. destruct (is_device_item n) eqn:Hdev; simpl in Hg.
  - exists msg, n. by split_and!.
  - apply bool_decide_eq_true in Hg. unfold Inner_next_survey_id.
    eexists _, (set_survey_id_seq (survey_id_seq n + 1) n).
    split; [intros h; rewrite checked_add_fits by done; by mrun|].
    split_and!; try done. split; [done|]. unfold in_range in *. cbn [survey_id_seq set_survey_id_seq]. lia.
Qed.

Lemma surv_send_ok n s msg t h :
  state_ok s n → State_pending s = None →
  is_device_item n || bool_decide (survey_id_seq n + 1 < 2 ^ 32) = true →
  ∃ self' o, Surveyor_send msg t (mkSurveyor n (Some s)) h = Done self' o ∧ Surveyor_inv self' ∧
    announced (mkSurveyor n (Some s)) o self' ∧
    contract (State_timers s) None (ISend msg t) o (Surveyor_pending self').
Proof.
  intros [Hn Hs] Hp Hg.
  destruct (surv_to_raw msg n Hn Hg) as (raw & n' & Hraw & Hn' & Hbc & Hpi & Hfq & Hdev & _).
  unfold Surveyor_send. cbn [inner state]. rewrite bind_run, Hraw. cbn beta iota.
  destruct (surv_apply_ok (State_timers s) (ISend msg t) None (λ s inner, State_send s inner raw t)
    s n' (h ++ []) (surv_send_good _ _ _ _ _ Hn' Hp)) as (self' & o & Hrun & Hi & [Ha1 Ha2] & Hc).
  exists self', o. rewrite Hrun. split; [done|]. split; [done|]. split; [|done]. split.
  - rewrite <- Ha1. f_equal. cbn. unfold Surveyor_is_send_ready, State_is_send_ready, Inner_is_send_ready.
    simpl. by rewrite Hbc.
  - rewrite <- Ha2. f_equal. cbn. unfold Surveyor_is_recv_ready, State_is_recv_ready, Inner_is_recv_ready.
    simpl. by rewrite Hdev, Hfq.
Qed.

Lemma surv_raw_some raw n : well_formed raw = true → is_Some (Inner_raw_msg_to_msg raw n).
Proof.
  unfold well_formed, Inner_raw_msg_to_msg, decode, get_body. rewrite bool_decide_eq_true. intros Hlen.
  rewrite bool_decide_false by lia. destruct (is_device_item n); by eexists.
Qed.

Lemma surv_plug_ok n s : state_ok s n → state_ok s (set_is_device_item true n).
Proof.
  intros [Hn Hs]. split; [done|].
  destruct s as [|q|e [q|] t|[q|] t]; try done; (split; [apply Hs|try apply Hs; done]).
Qed.

Lemma Surveyor_step_ok i self h :
  Surveyor_inv self → Surveyor_guard i self = true → allowed i (Surveyor_pending self) = true →
  ∃ self' out, step i self h = Done self' out ∧ Surveyor_inv self' ∧ announced self out self' ∧
    contract (Surveyor_timers self) (Surveyor_pending self) i out (Surveyor_pending self').
Proof.
  destruct self as [n os]. intros (s & Hos & Hs) Hg Ha. cbn [inner state] in *. subst os.
  change (Surveyor_pending (mkSurveyor n (Some s))) with (State_pending s) in *.
  change (Surveyor_timers (mkSurveyor n (Some s))) with (State_timers s) in *.
  assert (Hstay : ∀ n', state_ok s n' → announced (mkSurveyor n (Some s)) [] (mkSurveyor n' (Some s)) →
    request i = None → (step i (mkSurveyor n (Some s)) h = Done (mkSurveyor n' (Some s)) []) →
    ∃ self' out, step i (mkSurveyor n (Some s)) h = Done self' out ∧ Surveyor_inv self' ∧
      announced (mkSurveyor n (Some s)) out self' ∧
      contract (State_timers s) (State_pending s) i out (Surveyor_pending self')).
  { intros n' Hn' Han Hr Hrun. exists (mkSurveyor n' (Some s)), [].
    split_and!; [done|by exists s|done|]. by apply contract_quiet. }
  destruct i as [eid pipe|eid|msg t|eid| |eid|eid|t|eid msg| |eid|eid|opt|task|].
  - apply bool_decide_eq_true in Hg.
    apply (Hstay (Inner_add_pipe eid pipe n)); [by apply surv_add_ok|done..].
  - destruct (surv_remove_ok eid n s h) as (r & self' & o & Hrun & Hi & Hc); [done..|].
    eexists _, _. simpl step. rewrite bind_run, Hrun. mrun. split; [done|]. by rewrite app_nil_r.
  - apply (allowed_request _ KSend t) in Ha; [|done]. rewrite Ha. by apply surv_send_ok.
  - by apply surv_apply_ok, good_stay.
  - destruct (allowed_fires ISendTimeout KSend _ eq_refl Ha) as [t Ht]. by destruct s.
  - by apply surv_apply_ok, good_stay.
  - by apply surv_apply_ok, good_stay.
  - apply (allowed_request _ KRecv t) in Ha; [|done]. rewrite Ha. apply surv_apply_ok, surv_recv_good; auto.
  - simpl step. unfold Surveyor_on_recv_ack. cbn [inner].
    destruct (surv_raw_some msg n Hg) as [[m id] ->]. by apply surv_apply_ok, surv_recv_ack_good.
  - destruct (allowed_fires IRecvTimeout KRecv _ eq_refl Ha) as [t Ht].
    by eapply surv_apply_ok, surv_recv_timeout_good.
  - by apply surv_apply_ok, surv_recv_ready_good.
  - by apply surv_apply_ok, surv_recv_not_ready_good.
  - eexists (Surveyor_set_option opt (mkSurveyor n (Some s))).2, []. split; [done|].
    destruct opt; (split; [by exists s|split; [done|by apply contract_quiet]]).
  - destruct task; try by apply (Hstay n). by apply surv_apply_ok, surv_deadline_good.
  - apply (Hstay (set_is_device_item true n)); [by apply surv_plug_ok| |done..].
    split; [done|]. by apply eqb_prop in Hg.
Qed.

#[export] Instance Surveyor_contract : Contract Surveyor := {|
  inv := Surveyor_inv;
  guard := Surveyor_guard;
  pending := Surveyor_pending;
  own_timers := Surveyor_timers;
  step_ok := Surveyor_step_ok
|}.

Lemma Surveyor_from_inv seed : in_range 32 seed → Surveyor_inv (Surveyor_from seed).
Proof. intros Hseed. exists Idle. split; [done|]. split; [|done]. split; [apply routed_new|done]. Qed.

Lemma Surveyor_reached seed ins self out :
  in_range 32 seed → disciplined ins (Surveyor_from seed) [] = true →
  drive ins (Surveyor_from seed) [] = Done self out → Surveyor_inv self.
Proof.
  intros Hseed Hd Hrun.
  destruct (drive_ok (H0 := Surveyor_contract) ins (Surveyor_from seed) [] (Surveyor_from_inv seed Hseed) Hd)
    as (s & o & Hrun' & Hinv & _).
  rewrite Hrun in Hrun'. by injection Hrun' as <- <-.
Qed.

(** A fresh SURVEYOR socket keeps the facade's contract in every disciplined
    conversation with well-formed peers: no panic, one reply of its kind per
    request, only its own survey timer cancelled besides the request's, readiness
    announced as it is. *)
Theorem surv_conversation seed ins :
  in_range 32 seed → disciplined ins (Surveyor_from seed) [] = true →
  conversation (Surveyor_from seed) ins.
Proof. intros Hseed. by apply conversation_ok; [apply Surveyor_from_inv|]. Qed.

(** C24: Outside a device, sending a survey gives it the next id, sends it so tagged
    to every ready pipe and to each once, answers the facade at once, schedules
    the deadline and cancels the survey it replaces; no pipe is ready after it. *)
Theorem surv_broadcasts seed ins self out msg t :
  in_range 32 seed → disciplined ins (Surveyor_from seed) [] = true →
  drive ins (Surveyor_from seed) [] = Done self out → Surveyor_pending self = None →
  is_device_item (inner self) = false → survey_id_seq (inner self) + 1 < 2 ^ 32 →
  ∃ self' out' rt, step (ISend msg t) self out = Done self' out' ∧
    let id := Inner_cur_survey_id (inner self') in
    survey_id_seq (inner self') = survey_id_seq (inner self) + 1 ∧
    state self' = Some (Active (mkPendingSurvey id rt)) ∧ bc (inner self') = ∅ ∧
    replies out' = [ReplySend] ∧ NoDup (sends out').*1 ∧
    (∀ eid m, (eid, m) ∈ sends out' ↔ m = encode msg id ∧ eid ∈ bc (inner self) ∧
      is_Some (pc_pipes (pipes (inner self)) !! eid)) ∧
    cancels out' = Surveyor_timers self ++ option_list t ∧
    SchSchedule SurveyCancel (deadline (inner self)) ∈ out'.
Proof.
  intros Hseed Hd Hrun Hp Hdev Hlt.
  destruct (Surveyor_reached seed ins self out Hseed Hd Hrun) as (s & Hos & [Hn Hs]).
  destruct self as [n os]. cbn [inner state] in *. subst os.
  change (Surveyor_pending (mkSurveyor n (Some s))) with (State_pending s) in Hp.
  change (Surveyor_timers (mkSurveyor n (Some s))) with (State_timers s).
  destruct (surv_to_raw msg n Hn) as (raw & n' & Hraw & Hn' & Hbc & Hpi & Hfq & Hdev' & Hdl & Hid).
  { by rewrite Hdev, bool_decide_true. }
  destruct (Hid Hdev) as [Hseq ->]. destruct (surv_State_send_run s n' (encode msg (Inner_cur_survey_id n')) t (out ++ []))
    as [rt Hsend].
  simpl step. unfold Surveyor_send. cbn [inner state]. rewrite bind_run, Hraw. cbn beta iota.
  unfold apply. cbn [inner state]. rewrite bind_run, Hsend. mrun.
  eexists _, _, rt. split; [done|]. cbn [inner state bc set_bc survey_id_seq].
  change (Inner_cur_survey_id (set_bc ∅ n')) with (Inner_cur_survey_id n').
  simpl app. rewrite replies_app, sends_app, cancels_app, survey_replies, survey_sends, survey_cancels.
  autorewrite with scap. rewrite <- Hbc, <- Hpi.
  pose proof (broadcast_sends (pipes n') (bc n') (λ _, True) (encode msg (Inner_cur_survey_id n'))
    (out ++ drop_trace s) (routed_keyed _ _ (proj1 Hn'))) as [Hnd Hin].
  split_and!; try done.
  - intros eid m. rewrite Hin. clear. naive_solver.
  - f_equal. destruct s as [|[i o]| |]; try done. apply cancel_trace_cancels.
  - unfold survey_events. rewrite Hdl. set_solver.
Qed.

(** C25: While a SURVEYOR outside a device waits for a response from [eid], a message
    from [eid] is delivered, without its header, if and only if it carries the id
    of the survey under way, which then goes on; one with any other id is dropped
    in silence, the wait goes on, and the facade's timer is kept. *)
Theorem surv_only_current seed ins self out eid p t raw m id :
  in_range 32 seed → disciplined ins (Surveyor_from seed) [] = true →
  drive ins (Surveyor_from seed) [] = Done self out →
  state self = Some (Receiving eid (Some p) t) → is_device_item (inner self) = false →
  decode raw = Some (m, id) →
  survey_id p = Inner_cur_survey_id (inner self) ∧
  ∃ self' out', step (IRecvAck eid raw) self out = Done self' out' ∧
    (id = survey_id p ∧ state self' = Some (Active p) ∧
       replies out' = [ReplyRecv (mkMessage [] (body m))] ∧ cancels out' = option_list t ∨
     id ≠ survey_id p ∧ replies out' = [] ∧ cancels out' = [] ∧
       (∃ from, state self' = Some (Receiving from (Some p) t) ∧ recvs out' = [from] ∨
                state self' = Some (RecvOnHold (Some p) t) ∧ recvs out' = [])).
Proof.
  intros Hseed Hd Hrun Hst Hdev Hdec.
  destruct (Surveyor_reached seed ins self out Hseed Hd Hrun) as (s & Hos & [[Hr Hseq] Hs]).
  destruct self as [n os]. cbn [inner state] in *. rewrite Hst in Hos. injection Hos as <-. subst os.
  split; [apply Hs|]. simpl step. unfold Surveyor_on_recv_ack, Inner_raw_msg_to_msg. cbn [inner].
  rewrite Hdev, Hdec. cbn [fmap option_fmap option_map fst snd]. unfold apply.
  cbn [state inner State_on_recv_ack]. rewrite (bool_decide_true (eid = eid)) by done.
  destruct (decide (survey_id p = id)) as [<-|Hne].
  - rewrite bool_decide_true by done. unfold Inner_on_recv_ack, send_reply. mrun.
    eexists _, _. split; [done|]. left. split_and!; try done.
    + simpl. by autorewrite with scap.
    + simpl. autorewrite with scap. apply cancel_trace_cancels.
  - rewrite bool_decide_false by done. unfold State_recv_reply_for, Inner_recv. mrun.
    destruct (fair_queue_run (fq n) (pipes n) Hr) as [[Hpk ->]|(from & fq' & _ & -> & _)]; mrun;
      (eexists _, _; split; [done|]; right; split; [done|]).
    + split; [by autorewrite with scap|]. split; [by autorewrite with scap|]. exists eid. right.
      split; [done|]. unfold send_change, recv_change. by repeat case_bool_decide.
    + split; [simpl; by autorewrite with scap|]. split; [simpl; by autorewrite with scap|]. exists from. left.
      split; [done|]. unfold send_change, recv_change. simpl. by repeat case_bool_decide.
Qed.

(** When the deadline of a survey fires between two receptions, the survey is
    over: outside a device the next recv is refused, but not as timed out. *)
Theorem surv_deadline_ends self h p t :
  state self = Some (Active p) → is_device_item (inner self) = false →
  ∃ self' out', drive [ITimerTick SurveyCancel; IRecv t] self h = Done self' out' ∧
    state self' = Some Idle ∧ cancels out' = option_list t ∧
    ∃ e, replies out' = [ReplyErr e] ∧ err_kind e = KOther.
Proof.
  intros Hst Hdev. destruct self as [n os]. cbn [inner state] in *. subst os.
  simpl drive. unfold apply. cbn [state inner State_on_survey_timeout]. mrun.
  cbn [state inner]. mrun. unfold State_recv. rewrite Hdev.
  unfold Inner_recv_when_inactive, send_reply. mrun.
  eexists _, _. split; [done|]. split; [done|]. simpl. split.
  - autorewrite with scap. simpl. autorewrite with scap. apply cancel_trace_cancels.
  - eexists. autorewrite with scap. simpl. by autorewrite with scap.
Qed.

(** A deadline that fires while the facade waits for a response does nothing:
    the wait goes on, and a response that comes after it is delivered. *)
Theorem surv_deadline_ignored self h eid p t raw m :
  state self = Some (Receiving eid (Some p) t) → is_device_item (inner self) = false →
  decode raw = Some (m, survey_id p) →
  ∃ out', step (ITimerTick SurveyCancel) self h = Done self [] ∧
  ∃ self', drive [ITimerTick SurveyCancel; IRecvAck eid raw] self h = Done self' out' ∧
    replies out' = [ReplyRecv (mkMessage [] (body m))].
Proof.
  intros Hst Hdev Hdec. destruct self as [n os]. cbn [inner state] in *. subst os.
  assert (Htick : step (ITimerTick SurveyCancel) (mkSurveyor n (Some (Receiving eid (Some p) t))) h =
    Done (mkSurveyor n (Some (Receiving eid (Some p) t))) []).
  { simpl step. unfold apply. cbn [state inner State_on_survey_timeout]. mrun.
    unfold send_change, recv_change. by rewrite !bool_decide_true. }
  eexists. split; [done|]. eexists. split.
  { simpl drive. eapply bind_done; [exact Htick|]. unfold Surveyor_on_recv_ack, Inner_raw_msg_to_msg. cbn [inner].
    rewrite Hdev, Hdec. cbn [fmap option_fmap option_map fst snd]. unfold apply.
    cbn [state inner State_on_recv_ack]. rewrite !bool_decide_true by done.
    unfold Inner_on_recv_ack, send_reply. mrun. done. }
  simpl. by autorewrite with scap.
Qed.

End contract.

Section witness.
#[local] Existing Instance ref_env.
#[local] Existing Instance be_ref.

Definition ex_surv_pipe (n : Z) : Pipe :=
  Pipe_new_accepted (EndpointId_from n) (mkEndpointDesc 8 8 false 1024).
Definition ex_surv_open : list input :=
  [IAddPipe (EndpointId_from 1) (ex_surv_pipe 1); IAddPipe (EndpointId_from 2) (ex_surv_pipe 2);
   ISendReady (EndpointId_from 1); ISendReady (EndpointId_from 2)].
Definition ex_surv_sent : list input := ex_surv_open ++ [ISend (from_body [42]) None].
Definition ex_surv_recv : list input :=
  ex_surv_sent ++ [IRecvReady (EndpointId_from 2); IRecv (Some (Scheduled_from 10))].
Definition ex_response : Message := from_body [128; 0; 0; 8; 2].
Definition ex_surv_run : list input :=
  ex_surv_recv ++ [IRecvAck (EndpointId_from 2) ex_response; ITimerTick SurveyCancel].

Example ex_surv_trace :
  emitted (drive ex_surv_run (Surveyor_from 7) []) =
  [Raise (CanSend true); NetSend (EndpointId_from 2) (mkMessage [128; 0; 0; 8] [42]);
   NetSend (EndpointId_from 1) (mkMessage [128; 0; 0; 8] [42]); SendReply ReplySend;
   SchSchedule SurveyCancel (from_secs 1); Raise (CanSend false); Raise (CanRecv true);
   NetRecv (EndpointId_from 2); Raise (CanRecv false);
   SendReply (ReplyRecv (mkMessage [] [2])); SchCancel (Scheduled_from 10)].
Proof. vm_compute. reflexivity. Qed.

Definition ex_surv_after (ins : list input) : Surveyor :=
  default (Surveyor_from 7) (returned (drive ins (Surveyor_from 7) [])).
Definition ex_surv_log (ins : list input) : trace := emitted (drive ins (Surveyor_from 7) []).

Lemma surv_conversation_witness : conversation (Surveyor_from 7) ex_surv_run.
Proof. apply (surv_conversation 7 ex_surv_run); [done|vm_compute; reflexivity]. Defined.

Lemma surv_broadcasts_witness :
  let self := ex_surv_after ex_surv_open in
  ∃ self' out' rt, step (ISend (from_body [42]) None) self (ex_surv_log ex_surv_open) = Done self' out' ∧
    let id := Inner_cur_survey_id (inner self') in
    survey_id_seq (inner self') = survey_id_seq (inner self) + 1 ∧
    state self' = Some (Active (mkPendingSurvey id rt)) ∧ bc (inner self') = ∅ ∧
    replies out' = [ReplySend] ∧ NoDup (sends out').*1 ∧
    (∀ eid m, (eid, m) ∈ sends out' ↔ m = encode (from_body [42]) id ∧ eid ∈ bc (inner self) ∧
      is_Some (pc_pipes (pipes (inner self)) !! eid)) ∧
    cancels out' = Surveyor_timers self ++ option_list None ∧
    SchSchedule SurveyCancel (deadline (inner self)) ∈ out'.
Proof. apply (surv_broadcasts 7 ex_surv_open); [done|vm_compute; reflexivity..]. Defined.

Lemma surv_only_current_witness :
  let self := ex_surv_after ex_surv_recv in
  ∃ p, survey_id p = Inner_cur_survey_id (inner self) ∧
  ∃ self' out', step (IRecvAck (EndpointId_from 2) ex_response) self (ex_surv_log ex_surv_recv) =
      Done self' out' ∧
    (2147483656 = survey_id p ∧ state self' = Some (Active p) ∧
       replies out' = [ReplyRecv (mkMessage [] (body (mkMessage [128; 0; 0; 8] [2])))] ∧
       cancels out' = option_list (Some (Scheduled_from 10)) ∨
     2147483656 ≠ survey_id p ∧ replies out' = [] ∧ cancels out' = [] ∧
       (∃ from, state self' = Some (Receiving from (Some p) (Some (Scheduled_from 10))) ∧ recvs out' = [from] ∨
                state self' = Some (RecvOnHold (Some p) (Some (Scheduled_from 10))) ∧ recvs out' = [])).
Proof.
  eexists (mkPendingSurvey 2147483656 _). apply (surv_only_current 7 ex_surv_recv);
    [done|vm_compute; reflexivity..].
Defined.

Lemma surv_deadline_ends_witness :
  ∃ self' out', drive [ITimerTick SurveyCancel; IRecv None] (ex_surv_after ex_surv_sent)
      (ex_surv_log ex_surv_sent) = Done self' out' ∧
    state self' = Some Idle ∧ cancels out' = option_list None ∧
    ∃ e, replies out' = [ReplyErr e] ∧ err_kind e = KOther.
Proof. eapply (surv_deadline_ends (ex_surv_after ex_surv_sent)); vm_compute; reflexivity. Defined.

Lemma surv_deadline_ignored_witness :
  ∃ out', step (ITimerTick SurveyCancel) (ex_surv_after ex_surv_recv) (ex_surv_log ex_surv_recv) =
      Done (ex_surv_after ex_surv_recv) [] ∧
  ∃ self', drive [ITimerTick SurveyCancel; IRecvAck (EndpointId_from 2) ex_response]
      (ex_surv_after ex_surv_recv) (ex_surv_log ex_surv_recv) = Done self' out' ∧
    replies out' = [ReplyRecv (mkMessage [] (body (mkMessage [128; 0; 0; 8] [2])))].
Proof. eapply (surv_deadline_ignored (ex_surv_after ex_surv_recv)); vm_compute; reflexivity. Defined.
End witness.
