(* ===== verification/Socket.v ===== *)
(** * The socket (src/core/socket.rs)

    What the facade and the network say to a socket, whatever its protocol: it
    owns the pipes that are not open yet, the acceptors and the options, hands
    the open pipes and the messages to its protocol, arms the timers of send and
    recv, and schedules the reconnections.

    Everything is proved for any protocol with a [Contract]: [socket_conversation]
    turns the promise of the protocols into that of sockets. *)

From S2P Require Import Prelude Core Context Priolist Pipes Protocol Pair.

Record Socket (T : Type) : Type := mkSocket {
  sock_id : SocketId;
  protocol : T;
  sock_pipes : gmap EndpointId Pipe;
  acceptors : gmap EndpointId Acceptor;
  config : Config
}.
Arguments mkSocket {T} _ _ _ _ _.
Arguments sock_id {T} _.
Arguments protocol {T} _.
Arguments sock_pipes {T} _.
Arguments acceptors {T} _.
Arguments config {T} _.

Section socket.
Context `{Env} {T : Type} `{Protocol T}.

Definition Socket_new (id : SocketId) (proto : T) : Socket T :=
  mkSocket id proto ∅ ∅ Config_default.

Definition set_protocol (x : T) (s : Socket T) : Socket T :=
  mkSocket (sock_id s) x (sock_pipes s) (acceptors s) (config s).
Definition set_sock_pipes (x : gmap EndpointId Pipe) (s : Socket T) : Socket T :=
  mkSocket (sock_id s) (protocol s) x (acceptors s) (config s).
Definition set_acceptors (x : gmap EndpointId Acceptor) (s : Socket T) : Socket T :=
  mkSocket (sock_id s) (protocol s) (sock_pipes s) x (config s).
Definition set_config (x : Config) (s : Socket T) : Socket T :=
  mkSocket (sock_id s) (protocol s) (sock_pipes s) (acceptors s) x.

(** A call of the protocol. *)
Definition ask (f : T → P T) (self : Socket T) : P (Socket T) :=
  proto ← f (protocol self); mret (set_protocol proto self).

Definition get_protocol_ids (self : Socket T) : Z * Z :=
  (proto_id (protocol self), peer_id (protocol self)).

Definition Socket_poll (self : Socket T) : P (Socket T) :=
  ctx_raise (CanRecv (is_recv_ready (protocol self)));;
  ctx_raise (CanSend (is_send_ready (protocol self)));;
  mret self.

(** ** Endpoint creation *)

Definition create_endpoint_desc (self : Socket T) : EndpointDesc := {|
  send_priority := cfg_send_priority (config self);
  recv_priority := cfg_recv_priority (config self);
  tcp_no_delay := cfg_tcp_no_delay (config self);
  recv_max_size := cfg_recv_max_size (config self)
|}.
Definition create_endpoint_spec (u : string) (self : Socket T) : EndpointSpec :=
  mkEndpointSpec u (create_endpoint_desc self).
Definition create_endpoint_tmpl (u : string) (self : Socket T) : EndpointTmpl :=
  mkEndpointTmpl (get_protocol_ids self) (create_endpoint_spec u self).

(** ** Pipes and acceptors *)

Definition Socket_insert_pipe (eid : EndpointId) (pipe : Pipe) (self : Socket T) : P (Socket T) :=
  Pipe_open pipe;; mret (set_sock_pipes (<[eid := pipe]> (sock_pipes self)) self).

Definition Socket_remove_pipe (eid : EndpointId) (self : Socket T)
    : P (option EndpointSpec * Socket T) :=
  match sock_pipes self !! eid with
  | Some pipe =>
      let self := set_sock_pipes (delete eid (sock_pipes self)) self in
      spec ← Pipe_close pipe; mret (spec, self)
  | None =>
      '(removed, proto) ← remove_pipe eid (protocol self);
      let self := set_protocol proto self in
      match removed with
      | Some pipe => spec ← Pipe_close pipe; mret (spec, self)
      | None => mret (None, self)
      end
  end.

Definition connect_pipe (eid : EndpointId) (spec : EndpointSpec) : Pipe := Pipe_from_spec eid spec.

Definition accept_pipe (aid eid : EndpointId) (self : Socket T) : Pipe :=
  let '(send_prio, recv_prio) :=
    match acceptors self !! aid with
    | Some acceptor => (Acceptor_get_send_priority acceptor, Acceptor_get_recv_priority acceptor)
    | None => (cfg_send_priority (config self), cfg_recv_priority (config self))
    end in
  Pipe_new_accepted eid
    (mkEndpointDesc send_prio recv_prio (cfg_tcp_no_delay (config self))
       (cfg_recv_max_size (config self))).

Definition insert_acceptor (eid : EndpointId) (acceptor : Acceptor) (self : Socket T)
    : P (Socket T) :=
  Acceptor_open acceptor;; mret (set_acceptors (<[eid := acceptor]> (acceptors self)) self).

Definition remove_acceptor (eid : EndpointId) (self : Socket T)
    : P (option EndpointSpec * Socket T) :=
  match acceptors self !! eid with
  | Some acceptor =>
      let self := set_acceptors (delete eid (acceptors self)) self in
      spec ← Acceptor_close acceptor; mret (spec, self)
  | None => mret (None, self)
  end.

Definition connect_acceptor (eid : EndpointId) (spec : EndpointSpec) : Acceptor :=
  Acceptor_from_spec eid spec.

(** ** Connect *)

Definition on_connect_success (eid : EndpointId) (spec : EndpointSpec) (self : Socket T)
    : P (Socket T) :=
  let pipe := connect_pipe eid spec in
  self ← Socket_insert_pipe eid pipe self;
  send_reply (ReplyConnect eid);;
  mret self.

Definition on_connect_error (err : io_error) (self : Socket T) : P (Socket T) :=
  send_reply (ReplyErr err);; mret self.

Definition Socket_connect (u : string) (self : Socket T) : P (Socket T) :=
  let tmpl := create_endpoint_tmpl u self in
  r ← ctx_connect (sock_id self) tmpl;
  match r with
  | Ok id => on_connect_success id (spec tmpl) self
  | Err e => on_connect_error e self
  end.

Definition schedule_reconnect (eid : EndpointId) (spec : EndpointSpec) (self : Socket T)
    : P (Socket T) :=
  ctx_schedule (Reconnect eid spec) (cfg_retry_ivl (config self));; mret self.

Definition on_reconnect_success (eid : EndpointId) (spec : EndpointSpec) (self : Socket T)
    : P (Socket T) := Socket_insert_pipe eid (Pipe_from_spec eid spec) self.

Definition on_reconnect_error (eid : EndpointId) (spec : EndpointSpec) (self : Socket T)
    : P (Socket T) := schedule_reconnect eid spec self.

Definition Socket_reconnect (eid : EndpointId) (sp : EndpointSpec) (self : Socket T)
    : P (Socket T) :=
  let tmpl := mkEndpointTmpl (get_protocol_ids self) sp in
  r ← ctx_reconnect (sock_id self) eid tmpl;
  match r with
  | Ok _ => on_reconnect_success eid (spec tmpl) self
  | Err _ => on_reconnect_error eid (spec tmpl) self
  end.

(** ** Bind *)

Definition on_bind_success (eid : EndpointId) (spec : EndpointSpec) (self : Socket T)
    : P (Socket T) :=
  let acceptor := connect_acceptor eid spec in
  Acceptor_open acceptor;;
  let self := set_acceptors (<[eid := acceptor]> (acceptors self)) self in
  send_reply (ReplyBind eid);;
  mret self.

Definition on_bind_error (err : io_error) (self : Socket T) : P (Socket T) :=
  send_reply (ReplyErr err);; mret self.

Definition Socket_bind (u : string) (self : Socket T) : P (Socket T) :=
  let tmpl := create_endpoint_tmpl u self in
  r ← ctx_bind (sock_id self) tmpl;
  match r with
  | Ok id => on_bind_success id (spec tmpl) self
  | Err e => on_bind_error e self
  end.

Definition schedule_rebind (eid : EndpointId) (spec : EndpointSpec) (self : Socket T)
    : P (Socket T) :=
  ctx_schedule (Rebind eid spec) (cfg_retry_ivl (config self));; mret self.

Definition on_rebind_success (eid : EndpointId) (spec : EndpointSpec) (self : Socket T)
    : P (Socket T) := insert_acceptor eid (Acceptor_from_spec eid spec) self.

Definition on_rebind_error (eid : EndpointId) (spec : EndpointSpec) (self : Socket T)
    : P (Socket T) := schedule_rebind eid spec self.

Definition Socket_rebind (eid : EndpointId) (sp : EndpointSpec) (self : Socket T)
    : P (Socket T) :=
  let tmpl := mkEndpointTmpl (get_protocol_ids self) sp in
  r ← ctx_rebind (sock_id self) eid tmpl;
  match r with
  | Ok _ => on_rebind_success eid (spec tmpl) self
  | Err _ => on_rebind_error eid (spec tmpl) self
  end.

(** ** What becomes of pipes and acceptors *)

Definition on_pipe_opened (eid : EndpointId) (self : Socket T) : P (Socket T) :=
  match sock_pipes self !! eid with
  | Some pipe =>
      ask (add_pipe eid pipe) (set_sock_pipes (delete eid (sock_pipes self)) self)
  | None => mret self
  end.

Definition on_pipe_accepted (aid eid : EndpointId) (self : Socket T) : P (Socket T) :=
  let pipe := accept_pipe aid eid self in
  Socket_insert_pipe eid pipe self.

Definition close_pipe (eid : EndpointId) (self : Socket T) : P (Socket T) :=
  '(_, self) ← Socket_remove_pipe eid self; mret self.

Definition on_pipe_error (eid : EndpointId) (err : io_error) (self : Socket T) : P (Socket T) :=
  '(removed, self) ← Socket_remove_pipe eid self;
  match removed with
  | Some spec => schedule_reconnect eid spec self
  | None => mret self
  end.

Definition on_acceptor_error (eid : EndpointId) (err : io_error) (self : Socket T) : P (Socket T) :=
  '(removed, self) ← remove_acceptor eid self;
  match removed with
  | Some spec => schedule_rebind eid spec self
  | None => mret self
  end.

Definition close_acceptor (eid : EndpointId) (self : Socket T) : P (Socket T) :=
  '(_, self) ← remove_acceptor eid self; mret self.

(** ** Send *)

Definition get_send_timeout (self : Socket T) : option Duration := cfg_send_timeout (config self).

Definition Socket_send (msg : Message) (self : Socket T) : P (Socket T) :=
  match get_send_timeout self with
  | Some delay =>
      r ← ctx_schedule TaskSendTimeout delay;
      match r with
      | Ok timeout => ask (send msg (Some timeout)) self
      | Err e => send_reply (ReplyErr e);; mret self
      end
  | None => ask (send msg None) self
  end.

Definition Socket_try_send (msg : Message) (self : Socket T) : P (Socket T) :=
  if is_send_ready (protocol self) then ask (send msg None) self
  else
    let err := would_block_io_error "socket is not send ready" in
    send_reply (ReplyErr err);; mret self.

Definition Socket_on_send_ack (eid : EndpointId) (self : Socket T) : P (Socket T) :=
  ask (on_send_ack eid) self.
Definition Socket_on_send_timeout (self : Socket T) : P (Socket T) := ask on_send_timeout self.

Definition Socket_on_send_ready (eid : EndpointId) (ready : bool) (self : Socket T)
    : P (Socket T) :=
  if ready then ask (on_send_ready eid) self else ask (on_send_not_ready eid) self.

(** ** Recv *)

Definition get_recv_timeout (self : Socket T) : option Duration := cfg_recv_timeout (config self).

Definition Socket_recv (self : Socket T) : P (Socket T) :=
  match get_recv_timeout self with
  | Some delay =>
      r ← ctx_schedule TaskRecvTimeout delay;
      match r with
      | Ok timeout => ask (recv (Some timeout)) self
      | Err e => send_reply (ReplyErr e);; mret self
      end
  | None => ask (recv None) self
  end.

Definition Socket_try_recv (self : Socket T) : P (Socket T) :=
  if is_recv_ready (protocol self) then ask (recv None) self
  else
    let err := would_block_io_error "socket is not recv ready" in
    send_reply (ReplyErr err);; mret self.

Definition Socket_on_recv_ack (eid : EndpointId) (msg : Message) (self : Socket T) : P (Socket T) :=
  ask (on_recv_ack eid msg) self.
Definition Socket_on_recv_timeout (self : Socket T) : P (Socket T) := ask on_recv_timeout self.

Definition Socket_on_recv_ready (eid : EndpointId) (ready : bool) (self : Socket T)
    : P (Socket T) :=
  if ready then ask (on_recv_ready eid) self else ask (on_recv_not_ready eid) self.

(** ** Options, and the end *)

Definition Socket_set_option (opt : ConfigOption) (self : Socket T) : P (Socket T) :=
  let '(res, self) :=
    if is_generic opt then
      let '(res, config) := Config_set opt (config self) in (res, set_config config self)
    else
      let '(res, proto) := set_option opt (protocol self) in (res, set_protocol proto self) in
  let reply := match res with Ok _ => ReplySetOption | Err e => ReplyErr e end in
  send_reply reply;; mret self.

Definition Socket_on_timer_tick (task : Schedulable) (self : Socket T) : P (Socket T) :=
  ask (on_timer_tick task) self.
Definition Socket_on_device_plugged (self : Socket T) : P (Socket T) := ask on_device_plugged self.

Definition Socket_close (self : Socket T) : P (Socket T) :=
  h ← history;
  for_each (λ kv, Pipe_close kv.2;; mret ()) (drain_map h (sock_pipes self));;
  let self := set_sock_pipes ∅ self in
  h ← history;
  for_each (λ kv, Acceptor_close kv.2;; mret ()) (drain_map h (acceptors self));;
  let self := set_acceptors ∅ self in
  self ← ask close self;
  ctx_raise Closed;;
  mret self.

(** ** Calls as data *)

Inductive call : Type :=
| CConnect (u : string)
| CBind (u : string)
| CSend (msg : Message)
| CTrySend (msg : Message)
| CRecv
| CTryRecv
| CSetOption (opt : ConfigOption)
| CPoll
| CReconnect (eid : EndpointId) (sp : EndpointSpec)
| CRebind (eid : EndpointId) (sp : EndpointSpec)
| CPipeOpened (eid : EndpointId)
| CPipeAccepted (aid eid : EndpointId)
| CClosePipe (eid : EndpointId)
| CPipeError (eid : EndpointId) (err : io_error)
| CAcceptorError (eid : EndpointId) (err : io_error)
| CCloseAcceptor (eid : EndpointId)
| CSendAck (eid : EndpointId)
| CSendTimeout
| CSendReady (eid : EndpointId) (ready : bool)
| CRecvAck (eid : EndpointId) (msg : Message)
| CRecvTimeout
| CRecvReady (eid : EndpointId) (ready : bool)
| CTimerTick (task : Schedulable)
| CDevicePlugged.

Definition Socket_step (c : call) (self : Socket T) : P (Socket T) :=
  match c with
  | CConnect u => Socket_connect u self
  | CBind u => Socket_bind u self
  | CSend msg => Socket_send msg self
  | CTrySend msg => Socket_try_send msg self
  | CRecv => Socket_recv self
  | CTryRecv => Socket_try_recv self
  | CSetOption opt => Socket_set_option opt self
  | CPoll => Socket_poll self
  | CReconnect eid sp => Socket_reconnect eid sp self
  | CRebind eid sp => Socket_rebind eid sp self
  | CPipeOpened eid => on_pipe_opened eid self
  | CPipeAccepted aid eid => on_pipe_accepted aid eid self
  | CClosePipe eid => close_pipe eid self
  | CPipeError eid err => on_pipe_error eid err self
  | CAcceptorError eid err => on_acceptor_error eid err self
  | CCloseAcceptor eid => close_acceptor eid self
  | CSendAck eid => Socket_on_send_ack eid self
  | CSendTimeout => Socket_on_send_timeout self
  | CSendReady eid ready => Socket_on_send_ready eid ready self
  | CRecvAck eid msg => Socket_on_recv_ack eid msg self
  | CRecvTimeout => Socket_on_recv_timeout self
  | CRecvReady eid ready => Socket_on_recv_ready eid ready self
  | CTimerTick task => Socket_on_timer_tick task self
  | CDevicePlugged => Socket_on_device_plugged self
  end.

Fixpoint Socket_drive (cs : list call) (self : Socket T) : P (Socket T) :=
  match cs with
  | [] => mret self
  | c :: cs => self ← Socket_step c self; Socket_drive cs self
  end.

End socket.

Ltac unfold_socket :=
  unfold Socket_connect, on_connect_success, on_connect_error, Socket_bind, on_bind_success,
    on_bind_error, Socket_reconnect, on_reconnect_success, on_reconnect_error, Socket_rebind,
    on_rebind_success, on_rebind_error, insert_acceptor, Socket_insert_pipe, schedule_reconnect,
    schedule_rebind, on_pipe_opened, on_pipe_accepted, close_pipe, on_pipe_error, Socket_remove_pipe,
    on_acceptor_error, close_acceptor, remove_acceptor, Socket_send, Socket_try_send, Socket_recv,
    Socket_try_recv, Pipe_open, Pipe_close, Acceptor_open, Acceptor_close, Endpoint_open,
    Endpoint_close, ctx_connect, ctx_bind, ctx_reconnect, ctx_rebind, ctx_open, ctx_close,
    ctx_schedule, send_reply, history.

(** ** The promise of a socket

    [relay] is the call of the protocol a call of the socket amounts to, if any. *)

Section promise.
Context `{Env} {T : Type} `{Contract T}.

Definition armed (task : Schedulable) (delay : option Duration) (h : trace) : option Timeout :=
  match delay with
  | None => Some None
  | Some d => match schedule_answer h task d with Ok t => Some (Some t) | Err _ => None end
  end.

Definition relay (c : call) (self : Socket T) (h : trace) : option input :=
  match c with
  | CSend msg => ISend msg <$> armed TaskSendTimeout (get_send_timeout self) h
  | CTrySend msg => if is_send_ready (protocol self) then Some (ISend msg None) else None
  | CRecv => IRecv <$> armed TaskRecvTimeout (get_recv_timeout self) h
  | CTryRecv => if is_recv_ready (protocol self) then Some (IRecv None) else None
  | CSetOption opt => if is_generic opt then None else Some (ISetOption opt)
  | CPipeOpened eid => IAddPipe eid <$> sock_pipes self !! eid
  | CClosePipe eid | CPipeError eid _ =>
      match sock_pipes self !! eid with Some _ => None | None => Some (IRemovePipe eid) end
  | CSendAck eid => Some (ISendAck eid)
  | CSendTimeout => Some ISendTimeout
  | CSendReady eid ready => Some (if ready then ISendReady eid else ISendNotReady eid)
  | CRecvAck eid msg => Some (IRecvAck eid msg)
  | CRecvTimeout => Some IRecvTimeout
  | CRecvReady eid ready => Some (if ready then IRecvReady eid else IRecvNotReady eid)
  | CTimerTick task => Some (ITimerTick task)
  | CDevicePlugged => Some IDevicePlugged
  | _ => None
  end.

(** The facade's requests and what answers them. *)
Inductive demand : Type := DConnect | DBind | DSend | DRecv | DSetOption.

Definition demanded (c : call) : option demand :=
  match c with
  | CConnect _ => Some DConnect
  | CBind _ => Some DBind
  | CSend _ | CTrySend _ => Some DSend
  | CRecv | CTryRecv => Some DRecv
  | CSetOption _ => Some DSetOption
  | _ => None
  end.

Definition serves (d : demand) (r : Reply) : Prop :=
  match d, r with
  | _, ReplyErr _ | DConnect, ReplyConnect _ | DBind, ReplyBind _ | DSend, ReplySend
  | DRecv, ReplyRecv _ | DSetOption, ReplySetOption => True
  | _, _ => False
  end.

Definition demand_of (k : kind) : demand := match k with KSend => DSend | KRecv => DRecv end.

Definition waiting (self : Socket T) : list demand :=
  option_list (demand_of ∘ fst <$> pending (protocol self)).

(** The facade makes one request at a time, and what the call amounts to is
    allowed by the protocol. *)
Definition sock_allowed (c : call) (self : Socket T) (h : trace) : bool :=
  match demanded c, pending (protocol self) with Some _, Some _ => false | _, _ => true end &&
  match relay c self h with
  | Some i => guard i (protocol self) && allowed i (pending (protocol self))
  | None => true
  end.

Fixpoint sock_disciplined (cs : list call) (self : Socket T) (h : trace) : bool :=
  match cs with
  | [] => true
  | c :: cs =>
      sock_allowed c self h &&
      match Socket_step c self h with
      | Done self' out => sock_disciplined cs self' (h ++ out)
      | Panicked => true
      end
  end.

(** What the socket adds around the protocol's own effects. *)
Record aside (t : trace) : Prop := {
  aside_mute : mute t;
  aside_cancels : cancels t = []
}.

Lemma aside_nil : aside [].
Proof. done. Qed.
Lemma aside_close p remote : aside [NetClose p remote].
Proof. done. Qed.
#[local] Hint Resolve aside_nil aside_close : core.

Lemma ask_run (f : T → P T) self h p o :
  f (protocol self) h = Done p o → ask f self h = Done (set_protocol p self) o.
Proof. intros Hf. unfold ask. rewrite bind_run, Hf. mrun. by rewrite app_nil_r. Qed.

Lemma close_run p h :
  ∃ r, Pipe_close p h = Done r [NetClose (pipe_id p) true].
Proof. unfold Pipe_close, Endpoint_close, ctx_close. mrun. eauto. Qed.

(** The replies of the socket's own. *)
Definition own_replies (c : call) (t : trace) : Prop :=
  match c with
  | CSetOption _ => ∃ r, replies t = [r] ∧ serves DSetOption r
  | _ => replies t = []
  end.

(** [c], run from [self] at [h], is the protocol's call [i] and what is around it. *)
Definition relays (c : call) (self : Socket T) (h : trace) (i : input) : Prop :=
  ∃ pre, aside pre ∧ replies pre = [] ∧ ∀ p o, step i (protocol self) (h ++ pre) = Done p o →
    ∃ self' post, Socket_step c self h = Done self' (pre ++ o ++ post) ∧ protocol self' = p ∧
      aside post ∧ own_replies c post.

Lemma relays_ask c self h i f self0 :
  Socket_step c self = ask f self0 → protocol self0 = protocol self →
  step i (protocol self) = f (protocol self) → own_replies c [] → relays c self h i.
Proof.
  intros Hc Hp Hi Hown. exists []. split; [done|]. split; [done|]. intros p o. rewrite app_nil_r, Hi, Hc, <- Hp.
  intros Hf. exists (set_protocol p self0), []. rewrite (ask_run _ _ _ _ _ Hf). by rewrite app_nil_r.
Qed.

Lemma relays_timed c self h i f task d t :
  (∀ h, Socket_step c self h =
    (r ← ctx_schedule task d;
     match r with
     | Ok timeout => ask (f (Some timeout)) self
     | Err e => send_reply (ReplyErr e);; mret self
     end) h) →
  schedule_answer h task d = Ok t → step i (protocol self) = f (Some t) (protocol self) →
  own_replies c [] → relays c self h i.
Proof.
  intros Hc Hs Hi Hown. exists [SchSchedule task d]. split; [done|]. split; [done|].
  intros p o. rewrite Hi. intros Hf. exists (set_protocol p self), []. rewrite Hc.
  unfold ctx_schedule, history. mrun. rewrite !app_nil_r, Hs, (ask_run _ _ _ _ _ Hf). done.
Qed.

Lemma relays_removal c self h eid (f : option EndpointSpec → Socket T → P (Socket T)) :
  sock_pipes self !! eid = None →
  (∀ h, Socket_step c self h = ('(r, self) ← Socket_remove_pipe eid self; f r self) h) →
  (∀ r self h, ∃ post, f r self h = Done self post ∧ aside post ∧ replies post = []) →
  (∀ post, replies post = [] → own_replies c post) →
  relays c self h (IRemovePipe eid).
Proof.
  intros Hnone Hc Hf Hown. exists []. split; [done|]. split; [done|]. intros p o. rewrite app_nil_r.
  simpl step. rewrite bind_run. destruct (remove_pipe eid (protocol self) h) as [[r p'] o'|] eqn:Hrm; [|done].
  mrun. intros [= <- <-]. rewrite app_nil_r. rewrite Hc. unfold Socket_remove_pipe. rewrite Hnone.
  rewrite bind_run, bind_run, Hrm. destruct r as [pipe|].
  - destruct (close_run pipe (h ++ o')) as [rs Hcl]. rewrite bind_run, Hcl. mrun.
    destruct (Hf rs (set_protocol p' self) (h ++ o' ++ [NetClose (pipe_id pipe) true]))
      as (post & -> & [Hm Hcs] & Hr).
    exists (set_protocol p' self), (NetClose (pipe_id pipe) true :: post).
    split; [by rewrite <- app_assoc|]. split_and!; [done| |by apply Hown]. split; [by apply (mute_app [_])|done].
  - mrun. destruct (Hf None (set_protocol p' self) (h ++ o' ++ [])) as (post & -> & Ha & Hr).
    exists (set_protocol p' self), post. rewrite app_nil_r. split_and!; [done..| |by apply Hown]; apply Ha.
Qed.

Lemma schedule_done task d self h :
  (ctx_schedule task d;; mret self : P (Socket T)) h = Done self [SchSchedule task d].
Proof. unfold ctx_schedule, history. by mrun. Qed.

Lemma relayed c self h i : relay c self h = Some i → relays c self h i.
Proof.
  destruct c as [u|u|msg|msg| | |opt| |eid sp|eid sp|eid|aid eid|eid|eid err|eid err|eid|eid| |eid ready
    |eid msg| |eid ready|task|]; simpl relay; unfold armed; try done;
    try (intros [= <-]; by eapply relays_ask).
  - destruct (get_send_timeout self) as [d|] eqn:Ht.
    + destruct (schedule_answer _ _ _) eqn:Hs; [intros [= <-]|done].
      eapply (relays_timed _ _ _ _ (λ t, send msg t)); try done. intros h'. simpl. unfold Socket_send. by rewrite Ht.
    + intros [= <-]. eapply (relays_ask _ _ _ _ (send msg None)); try done. simpl. unfold Socket_send. by rewrite Ht.
  - destruct (is_send_ready _) eqn:Hr; [intros [= <-]|done].
    eapply (relays_ask _ _ _ _ (send msg None)); try done. simpl. unfold Socket_try_send. by rewrite Hr.
  - destruct (get_recv_timeout self) as [d|] eqn:Ht.
    + destruct (schedule_answer _ _ _) eqn:Hs; [intros [= <-]|done].
      eapply (relays_timed _ _ _ _ recv); try done. intros h'. simpl. unfold Socket_recv. by rewrite Ht.
    + intros [= <-]. eapply (relays_ask _ _ _ _ (recv None)); try done. simpl. unfold Socket_recv. by rewrite Ht.
  - destruct (is_recv_ready _) eqn:Hr; [intros [= <-]|done].
    eapply (relays_ask _ _ _ _ (recv None)); try done. simpl. unfold Socket_try_recv. by rewrite Hr.
  - destruct (is_generic opt) eqn:Hg; [done|]. intros [= <-]. exists []. split; [done|]. split; [done|].
    intros p o. simpl. intros [= <- <-]. unfold Socket_set_option. rewrite Hg.
    destruct (set_option opt (protocol self)) as [r p]. unfold send_reply. mrun.
    eexists _, _. split; [done|]. split; [done|]. split; [done|]. eexists. split; [done|]. by destruct r.
  - destruct (sock_pipes self !! eid) as [pipe|] eqn:Hl; [intros [= <-]|done].
    apply (relays_ask _ _ _ _ (add_pipe eid pipe) (set_sock_pipes (delete eid (sock_pipes self)) self)); try done.
    simpl. unfold on_pipe_opened. by rewrite Hl.
  - destruct (sock_pipes self !! eid) as [pipe|] eqn:Hl; [done|intros [= <-]].
    eapply (relays_removal _ _ _ _ (λ _ self, mret self)); try done. intros r s h'. by exists [].
  - destruct (sock_pipes self !! eid) as [pipe|] eqn:Hl; [done|intros [= <-]].
    eapply (relays_removal _ _ _ _ (λ r s, match r with Some spec => schedule_reconnect eid spec s | None => mret s end));
      try done.
    intros [sp|] s h'; [|by exists []]. unfold schedule_reconnect. rewrite schedule_done. by eexists.
  - intros [= <-]. destruct ready; by eapply relays_ask.
  - intros [= <-]. destruct ready; by eapply relays_ask.
Qed.

(** The calls the protocol does not see. *)
Definition answered_here (c : call) (out : trace) : Prop :=
  Forall2 serves (option_list (demanded c)) (replies out).

Definition private (c : call) (self : Socket T) (h : trace) : Prop :=
  ∃ self' out, Socket_step c self h = Done self' out ∧ protocol self' = protocol self ∧
    cancels out = [] ∧ answered_here c out ∧
    send_view (is_send_ready (protocol self)) out = is_send_ready (protocol self) ∧
    recv_view (is_recv_ready (protocol self)) out = is_recv_ready (protocol self).

Lemma private_aside c self h self' out :
  Socket_step c self h = Done self' out → protocol self' = protocol self → aside out →
  answered_here c out → private c self h.
Proof.
  intros Hr Hp [Hm Hc] Ha. exists self', out. split_and!; try done;
    [by apply mute_send_view|by apply mute_recv_view].
Qed.

(** Run a call that [Ha] and [Hb] decide. *)
Ltac here2 Ha Hb :=
  eapply private_aside;
    [simpl; unfold_socket; rewrite ?Ha, ?Hb; repeat (mrun1; cbn [app fst snd]; rewrite ?Ha, ?Hb); reflexivity
    |done|done|by repeat constructor].
Ltac here Ha := here2 Ha Ha.

Lemma unrelayed c self h : relay c self h = None → private c self h.
Proof.
  destruct c as [u|u|msg|msg| | |opt| |eid sp|eid sp|eid|aid eid|eid|eid err|eid err|eid|eid| |eid ready
    |eid msg| |eid ready|task|]; simpl relay; unfold armed; try done; intros Hrel.
  - destruct (connect_answer h (sock_id self) (create_endpoint_tmpl u self)) eqn:Hc; here Hc.
  - destruct (bind_answer h (sock_id self) (create_endpoint_tmpl u self)) eqn:Hc; here Hc.
  - destruct (get_send_timeout self) as [d|] eqn:Ht; [|done].
    destruct (schedule_answer h TaskSendTimeout d) as [t|e] eqn:Hs; [done|]. here2 Ht Hs.
  - destruct (is_send_ready (protocol self)) eqn:Hr; [done|]. here Hr.
  - destruct (get_recv_timeout self) as [d|] eqn:Ht; [|done].
    destruct (schedule_answer h TaskRecvTimeout d) as [t|e] eqn:Hs; [done|]. here2 Ht Hs.
  - destruct (is_recv_ready (protocol self)) eqn:Hr; [done|]. here Hr.
  - destruct (is_generic opt) eqn:Hg; [|done]. unfold private. simpl Socket_step.
    unfold Socket_set_option, send_reply. rewrite Hg.
    destruct (Config_set opt (config self)) as [r cfg]. mrun.
    eexists _, _. split; [done|]. split_and!; try done. repeat constructor. by destruct r.
  - unfold private. simpl Socket_step. unfold Socket_poll, ctx_raise. mrun.
    eexists _, _. split; [done|]. by split_and!; try constructor.
  - destruct (reconnect_answer h (sock_id self) eid (mkEndpointTmpl (get_protocol_ids self) sp)) eqn:Hc; here Hc.
  - destruct (rebind_answer h (sock_id self) eid (mkEndpointTmpl (get_protocol_ids self) sp)) eqn:Hc; here Hc.
  - destruct (sock_pipes self !! eid) eqn:Hl; [done|]. here Hl.
  - here (eq_refl (accept_pipe aid eid self)).
  - destruct (sock_pipes self !! eid) eqn:Hl; [|done]. here Hl.
  - destruct (sock_pipes self !! eid) as [pipe|] eqn:Hl; [|done].
    destruct (ep_url (pipe_ep pipe)) eqn:Hu; here2 Hl Hu.
  - destruct (acceptors self !! eid) as [acc|] eqn:Hl; [|here Hl].
    destruct (ep_url (acceptor_ep acc)) eqn:Hu; here2 Hl Hu.
  - destruct (acceptors self !! eid) as [acc|] eqn:Hl; here Hl.
Qed.

(** Requests and replies, over one call. *)
Definition balanced (ds : list demand) (out : trace) (ds' : list demand) : Prop :=
  ∃ served, ds = served ++ ds' ∧ Forall2 serves served (replies out).

Definition sock_announced (self : Socket T) (out : trace) (self' : Socket T) : Prop :=
  announced (protocol self) out (protocol self').

(** The request under way is still under way, or its timer is gone. *)
Definition disarmed (c : call) (self : Socket T) (out : trace) (self' : Socket T) : Prop :=
  ∀ k t, pending (protocol self) = Some (k, Some t) →
    pending (protocol self') = Some (k, Some t) ∨ t ∈ cancels out ∨
    c = match k with KSend => CSendTimeout | KRecv => CRecvTimeout end.

Lemma serves_answers k r : answers k r → serves (demand_of k) r.
Proof. by destruct k, r. Qed.

Lemma contract_balanced own p i out p' :
  contract own p i out p' →
  balanced (option_list (demand_of ∘ fst <$> p) ++ option_list (demand_of ∘ fst <$> request i)) out
    (option_list (demand_of ∘ fst <$> p')).
Proof.
  intros Hc. destruct (contract_conserves _ _ _ _ _ Hc) as (ks & Hks & Hf).
  exists (demand_of <$> ks). split.
  - assert (Hmap : ∀ o : option (kind * Timeout), option_list (demand_of ∘ fst <$> o) =
      demand_of <$> option_list (fst <$> o)) by (by intros []).
    by rewrite !Hmap, <- fmap_app, Hks, fmap_app.
  - clear Hks. induction Hf; simpl; constructor; auto using serves_answers.
Qed.

Lemma contract_disarms own i k t out p' :
  contract own (Some (k, Some t)) i out p' → fires i ≠ Some k →
  p' = Some (k, Some t) ∨ t ∈ cancels out.
Proof. inversion 1; subst; try done; [by left|right; set_solver]. Qed.

Lemma relay_request c self h i :
  relay c self h = Some i →
  match demanded c with
  | Some DSetOption => request i = None ∧ is_Some (match c with CSetOption o => Some o | _ => None end)
  | d => demand_of ∘ fst <$> request i = d
  end.
Proof.
  destruct c as [u|u|msg|msg| | |opt| |eid sp|eid sp|eid|aid eid|eid|eid err|eid err|eid|eid| |eid ready
    |eid msg| |eid ready|task|]; simpl relay; unfold armed; cbn [demanded]; try done; intros Hrel;
    try (destruct (_ !! _)); repeat case_match; simplify_eq/=; eauto.
Qed.

Lemma relay_fires c self h i k :
  relay c self h = Some i → fires i = Some k →
  c = match k with KSend => CSendTimeout | KRecv => CRecvTimeout end.
Proof.
  destruct c as [u|u|msg|msg| | |opt| |eid sp|eid sp|eid|aid eid|eid|eid err|eid err|eid|eid| |eid ready
    |eid msg| |eid ready|task|]; simpl relay; unfold armed; try done; intros Hrel Hf;
    try (destruct (_ !! _)); repeat case_match; simplify_eq/=; done.
Qed.

Lemma Socket_step_ok c self h :
  inv (protocol self) → sock_allowed c self h = true →
  ∃ self' out, Socket_step c self h = Done self' out ∧ inv (protocol self') ∧
    sock_announced self out self' ∧ disarmed c self out self' ∧
    balanced (waiting self ++ option_list (demanded c)) out (waiting self').
Proof.
  intros Hinv Hall. unfold sock_allowed in Hall. apply andb_true_iff in Hall as [Hone Hall].
  destruct (relay c self h) as [i|] eqn:Hrel.
  - apply andb_true_iff in Hall as [Hg Ha].
    destruct (relayed c self h i Hrel) as (pre & [Hm Hcs] & Hpr & Hgo).
    destruct (step_ok i (protocol self) (h ++ pre) Hinv Hg Ha) as (p & o & Hst & Hinv' & [Hv Hw] & Hc).
    destruct (Hgo p o Hst) as (self' & post & Hrun & <- & [Hmp Hcp] & Hown).
    exists self', (pre ++ o ++ post). split; [done|]. split; [done|]. split_and!.
    + unfold sock_announced. split.
      * by rewrite !send_view_app, (mute_send_view _ pre), (mute_send_view _ post).
      * by rewrite !recv_view_app, (mute_recv_view _ pre), (mute_recv_view _ post).
    + intros k t Hp. rewrite Hp in Hc. rewrite !cancels_app, Hcs, Hcp, app_nil_r. simpl.
      destruct (decide (fires i = Some k)) as [Hf|Hf].
      * right; right. by eapply relay_fires.
      * destruct (contract_disarms _ _ _ _ _ _ Hc Hf); auto.
    + pose proof (relay_request c self h i Hrel) as Hreq.
      destruct (contract_balanced _ _ _ _ _ Hc) as (served & Heq & Hf).
      unfold balanced, waiting. rewrite !replies_app, Hpr. simpl.
      destruct (demanded c) as [[]|] eqn:Hd; simpl in Hreq.
      1-4: rewrite Hreq in Heq; exists served; split; [done|];
        assert (replies post = []) as -> by (by destruct c); by rewrite app_nil_r.
      * destruct Hreq as [Hreq [opt Hopt]]. destruct c; try done. destruct (pending (protocol self)); [done|].
        rewrite Hreq in Heq. simpl in Heq. destruct Hown as (r & -> & Hr).
        symmetry in Heq. apply app_eq_nil in Heq as [-> ->]. apply Forall2_nil_inv_l in Hf. rewrite Hf.
        exists [DSetOption]. split; [done|]. repeat constructor. done.
      * rewrite Hreq in Heq. exists served. split; [done|].
        assert (replies post = []) as -> by (by destruct c). by rewrite app_nil_r.
  - destruct (unrelayed c self h Hrel) as (self' & out & Hrun & Hp & Hcs & Hans & Hv & Hw).
    exists self', out. split; [done|]. unfold sock_announced, announced, disarmed, waiting. rewrite Hp.
    split; [done|]. split_and!; [done|done|by left; congruence|].
    destruct (demanded c) as [d|] eqn:Hd.
    + destruct (pending (protocol self)); [done|]. exists [d]. split; [done|].
      unfold answered_here in Hans. by rewrite Hd in Hans.
    + exists []. rewrite app_nil_r. split; [done|]. unfold answered_here in Hans. by rewrite Hd in Hans.
Qed.

(** A conversation with a socket. *)
Definition demands (cs : list call) : list demand := omap demanded cs.

Lemma Socket_drive_ok cs self h :
  inv (protocol self) → sock_disciplined cs self h = true →
  ∃ self' out, Socket_drive cs self h = Done self' out ∧ inv (protocol self') ∧
    sock_announced self out self' ∧ balanced (waiting self ++ demands cs) out (waiting self').
Proof.
  revert self h. induction cs as [|c cs IH]; intros self h Hinv Hd.
  - exists self, []. split; [done|]. split; [done|]. split; [done|]. exists []. by rewrite app_nil_r.
  - simpl in Hd. apply andb_true_iff in Hd as [Ha Hd].
    destruct (Socket_step_ok c self h Hinv Ha) as (s1 & o1 & Hs & Hinv1 & [Hv1 Hw1] & _ & sv1 & Heq1 & Hf1).
    rewrite Hs in Hd. destruct (IH _ _ Hinv1 Hd) as (s2 & o2 & Hr & Hinv2 & [Hv2 Hw2] & sv2 & Heq2 & Hf2).
    exists s2, (o1 ++ o2). split; [simpl; by apply bind_done with s1|]. split; [done|]. split.
    { split; [by rewrite send_view_app, Hv1|by rewrite recv_view_app, Hw1]. }
    exists (sv1 ++ sv2). rewrite replies_app. split; [|by apply Forall2_app].
    assert (demands (c :: cs) = option_list (demanded c) ++ demands cs) as ->
      by (unfold demands; simpl; by destruct (demanded c)).
    by rewrite app_assoc, Heq1, <- !app_assoc, Heq2.
Qed.



End promise.

(** ** Endpoints, options and the end, on any protocol *)

Section endpoints.
Context `{Env} {T : Type} `{Protocol T}.
Implicit Types self : Socket T.

Lemma connect_run self u h eid :
  connect_answer h (sock_id self) (create_endpoint_tmpl u self) = Ok eid →
  Socket_step (CConnect u) self h =
  Done (set_sock_pipes (<[eid := Pipe_from_spec eid (create_endpoint_spec u self)]> (sock_pipes self)) self)
    [NetConnect (sock_id self) (create_endpoint_tmpl u self); NetOpen eid true; SendReply (ReplyConnect eid)].
Proof. intros Hc. simpl. unfold_socket. mrun. by rewrite Hc. Qed.

Lemma set_generic_run self opt h :
  is_generic opt = true →
  Socket_step (CSetOption opt) self h =
  Done (set_config (Config_set opt (config self)).2 self)
    [SendReply match (Config_set opt (config self)).1 with Ok _ => ReplySetOption | Err e => ReplyErr e end].
Proof.
  intros Hg. simpl. unfold Socket_set_option, send_reply. rewrite Hg. by destruct (Config_set opt (config self)).
Qed.

Lemma pipe_error_run self eid pipe err h :
  sock_pipes self !! eid = Some pipe →
  Socket_step (CPipeError eid err) self h =
  Done (set_sock_pipes (delete eid (sock_pipes self)) self)
    (NetClose (pipe_id pipe) true ::
     match ep_url (pipe_ep pipe) with
     | Some u => [SchSchedule (Reconnect eid (mkEndpointSpec u (ep_desc (pipe_ep pipe))))
                    (cfg_retry_ivl (config self))]
     | None => []
     end).
Proof. intros Hl. simpl. unfold_socket. rewrite Hl. mrun. by destruct (ep_url (pipe_ep pipe)). Qed.

Lemma reconnect_run self eid sp h :
  let tmpl := mkEndpointTmpl (get_protocol_ids self) sp in
  Socket_step (CReconnect eid sp) self h =
  match reconnect_answer h (sock_id self) eid tmpl with
  | Ok _ => Done (set_sock_pipes (<[eid := Pipe_from_spec eid sp]> (sock_pipes self)) self)
              [NetReconnect (sock_id self) eid tmpl; NetOpen eid true]
  | Err _ => Done self [NetReconnect (sock_id self) eid tmpl;
               SchSchedule (Reconnect eid sp) (cfg_retry_ivl (config self))]
  end.
Proof. intros tmpl. simpl. unfold_socket. mrun. by destruct (reconnect_answer _ _ _ _). Qed.

(** C29: A pipe made by connect and lost before it opened is closed, and comes back
    with the url, priorities and limits it had when the facade asked for it,
    whatever the options became since: a reconnection is scheduled after
    [retry_ivl], again each time it fails, and when it succeeds the very same pipe
    is opened anew. The facade hears of the first connection only. *)
Theorem socket_reconnects self h u eid opt err :
  let sp := create_endpoint_spec u self in
  connect_answer h (sock_id self) (create_endpoint_tmpl u self) = Ok eid →
  is_generic opt = true →
  ∃ self' out reply, Socket_drive [CConnect u; CSetOption opt; CPipeError eid err] self h = Done self' out ∧
    let retry := SchSchedule (Reconnect eid sp) (cfg_retry_ivl (config self')) in
    let tmpl := mkEndpointTmpl (get_protocol_ids self) sp in
    out = [NetConnect (sock_id self) (create_endpoint_tmpl u self); NetOpen eid true;
           SendReply (ReplyConnect eid); SendReply reply; NetClose eid true; retry] ∧
    sock_pipes self' = delete eid (sock_pipes self) ∧
    ∀ h', ∃ self'', match reconnect_answer h' (sock_id self) eid tmpl with
      | Ok _ =>
          Socket_step (CReconnect eid sp) self' h' =
            Done self'' [NetReconnect (sock_id self) eid tmpl; NetOpen eid true] ∧
          sock_pipes self'' = <[eid := Pipe_from_spec eid sp]> (sock_pipes self)
      | Err _ =>
          Socket_step (CReconnect eid sp) self' h' =
            Done self'' [NetReconnect (sock_id self) eid tmpl; retry] ∧ self'' = self'
      end.
Proof.
  intros sp Hc Hg. set (cfg := (Config_set opt (config self)).2).
  set (self1 := mkSocket (sock_id self) (protocol self) (delete eid (sock_pipes self)) (acceptors self) cfg).
  exists self1. eexists _, _. split.
  { simpl Socket_drive. eapply bind_done; [by apply connect_run|]. eapply bind_done; [by apply set_generic_run|].
    eapply bind_done; [eapply (pipe_error_run _ _ _ err); apply lookup_insert_eq|].
    rewrite ret_run. cbn [sock_pipes set_config set_sock_pipes]. by rewrite delete_insert_eq. }
  intros retry tmpl. split; [reflexivity|]. split; [done|]. intros h'.
  pose proof (reconnect_run self1 eid sp h') as Hr. cbv zeta in Hr. fold tmpl in Hr.
  change (sock_id self1) with (sock_id self) in Hr. change (get_protocol_ids self1) with (get_protocol_ids self) in Hr.
  fold tmpl retry in Hr. destruct (reconnect_answer h' (sock_id self) eid tmpl); eexists; (split; [exact Hr|]); [|done].
  cbn. by rewrite insert_delete_eq.
Qed.

(** The timers a run arms. *)
Definition is_schedule (e : effect) : bool := match e with SchSchedule _ _ => true | _ => false end.
Definition schedules (t : trace) : trace := filter (λ e, is_schedule e = true) t.

(** Reconnections keep the pace of [retry_ivl]: however many fail in a row, and
    whatever [retry_ivl_max] says, each waits as long as the first. *)
Theorem socket_retry_constant self h eid sp limit n :
  (∀ h, ∃ e, reconnect_answer h (sock_id self) eid (mkEndpointTmpl (get_protocol_ids self) sp) = Err e) →
  ∃ self' out, Socket_drive (CSetOption (RetryIvlMax limit) :: replicate n (CReconnect eid sp)) self h =
      Done self' (SendReply ReplySetOption :: out) ∧
    cfg_retry_ivl_max (config self') = limit ∧
    schedules out =
      replicate n (SchSchedule (Reconnect eid sp) (cfg_retry_ivl (config self))).
Proof.
  intros Hfail. set (self1 := set_config (Config_set (RetryIvlMax limit) (config self)).2 self).
  assert (Hn : ∀ h, ∃ out, Socket_drive (replicate n (CReconnect eid sp)) self1 h = Done self1 out ∧
    schedules out =
      replicate n (SchSchedule (Reconnect eid sp) (cfg_retry_ivl (config self)))).
  { induction n as [|n IH]; intros h0; [by exists []|].
    pose proof (reconnect_run self1 eid sp h0) as Hr. cbv zeta in Hr. destruct (Hfail h0) as [e He].
    change (sock_id self1) with (sock_id self) in Hr. change (get_protocol_ids self1) with (get_protocol_ids self) in Hr.
    rewrite He in Hr. destruct (IH (h0 ++ [NetReconnect (sock_id self)
      eid (mkEndpointTmpl (get_protocol_ids self) sp); SchSchedule (Reconnect eid sp) (cfg_retry_ivl (config self1))]))
      as (out & Hd & Hf).
    eexists. split; [simpl Socket_drive; eapply bind_done; [exact Hr|exact Hd]|].
    unfold schedules in *. rewrite filter_app, Hf. cbn. f_equal. unfold self1. by destruct self as [? ? ? ? []]. }
  destruct (Hn (h ++ [SendReply ReplySetOption])) as (out & Hd & Hf).
  exists self1, out. split; [|split; [by destruct self as [? ? ? ? []]|done]].
  cbn [Socket_drive]. eapply (bind_done _ _ _ _ [_]); [|exact Hd].
  pose proof (set_generic_run self (RetryIvlMax limit) h eq_refl) as Hs. rewrite Hs. by destruct self as [? ? ? ? []].
Qed.

(** Setting an option of the socket changes that option only and says so, for
    every generic option but [Linger], which is refused although it is one; an
    option of the protocol is the protocol's to accept. *)
Theorem socket_options self h opt :
  ∃ self' r, Socket_step (CSetOption opt) self h = Done self' [SendReply r] ∧
    (is_generic opt = false →
       protocol self' = (set_option opt (protocol self)).2 ∧ config self' = config self ∧
       r = match (set_option opt (protocol self)).1 with Ok _ => ReplySetOption | Err e => ReplyErr e end) ∧
    (is_generic opt = true → protocol self' = protocol self ∧
       let cfg := config self in
       match opt with
       | Linger _ => self' = self ∧ ∃ e, r = ReplyErr e ∧ err_kind e = KInvalidInput
       | _ => r = ReplySetOption ∧ ∀ u, create_endpoint_spec u self' = mkEndpointSpec u
           (mkEndpointDesc
             (match opt with SendPriority p => p | _ => cfg_send_priority cfg end)
             (match opt with RecvPriority p => p | _ => cfg_recv_priority cfg end)
             (match opt with TcpNoDelay b => b | _ => cfg_tcp_no_delay cfg end)
             (match opt with RecvMaxSize n => n | _ => cfg_recv_max_size cfg end)) ∧
         get_send_timeout self' = (match opt with SendTimeout d => d | _ => get_send_timeout self end) ∧
         get_recv_timeout self' = (match opt with RecvTimeout d => d | _ => get_recv_timeout self end) ∧
         cfg_retry_ivl (config self') = (match opt with RetryIvl d => d | _ => cfg_retry_ivl cfg end)
       end).
Proof.
  destruct (is_generic opt) eqn:Hg.
  - rewrite set_generic_run by done. eexists _, _. split; [done|]. split; [done|]. intros _. split; [done|].
    destruct self as [i p ps acs []]. destruct opt; try done; cbn; split_and!; eauto.
  - simpl Socket_step. unfold Socket_set_option, send_reply. rewrite Hg.
    destruct (set_option opt (protocol self)) as [r p]. mrun. eexists _, _. split; [done|]. by split.
Qed.

(** A pipe the network accepts has the priorities of the acceptor it came
    through, as they were when it was bound, and those of the socket when the
    acceptor is gone; it is never reconnected. *)
Theorem socket_accepts self h aid eid err :
  ∃ self' pipe, Socket_step (CPipeAccepted aid eid) self h = Done self' [NetOpen eid true] ∧
    sock_pipes self' = <[eid := pipe]> (sock_pipes self) ∧ pipe_id pipe = eid ∧
    (Pipe_get_send_priority pipe, Pipe_get_recv_priority pipe) =
      match acceptors self !! aid with
      | Some a => (Acceptor_get_send_priority a, Acceptor_get_recv_priority a)
      | None => (cfg_send_priority (config self), cfg_recv_priority (config self))
      end ∧
    ∀ h', Socket_step (CPipeError eid err) self' h' =
      Done (set_sock_pipes (delete eid (sock_pipes self)) self) [NetClose eid true].
Proof.
  set (pipe := accept_pipe aid eid self).
  exists (set_sock_pipes (<[eid := pipe]> (sock_pipes self)) self), pipe.
  assert (Hid : pipe_id pipe = eid) by (unfold pipe, accept_pipe; by destruct (acceptors self !! aid)).
  assert (Hurl : ep_url (pipe_ep pipe) = None) by (unfold pipe, accept_pipe; by destruct (acceptors self !! aid)).
  split_and!; [|done|done| |].
  - simpl Socket_step. unfold on_pipe_accepted. fold pipe. unfold_socket. mrun. by rewrite Hid.
  - unfold pipe, accept_pipe. by destruct (acceptors self !! aid).
  - intros h'. erewrite pipe_error_run by apply lookup_insert_eq. rewrite Hid, Hurl.
    cbn [sock_pipes set_sock_pipes]. by rewrite delete_insert_eq.
Qed.

(** Closing a socket closes every pipe not open yet and every acceptor, each
    once, then has the protocol close its own, and says so last. *)
Theorem socket_closes self h :
  let closings (k : bool) ids := (λ id, NetClose id k) <$> ids in
  ∃ pids aids, let closed := closings true pids ++ closings false aids in
    Socket_close self h =
      match close (protocol self) (h ++ closed) with
      | Done p out => Done (mkSocket (sock_id self) p ∅ ∅ (config self)) (closed ++ out ++ [Raise Closed])
      | Panicked => Panicked
      end ∧
    pids ≡ₚ (λ kv, pipe_id kv.2) <$> map_to_list (sock_pipes self) ∧
    aids ≡ₚ (λ kv, ep_id (acceptor_ep kv.2)) <$> map_to_list (acceptors self).
Proof.
  intros closings.
  assert (Hpipes : ∀ (l : list (EndpointId * Pipe)) h, for_each (λ kv, Pipe_close kv.2;; mret ()) l h =
    Done () (closings true ((λ kv, pipe_id kv.2) <$> l))).
  { induction l as [|kv l IH]; intros h0; [done|]. cbn [for_each]. unfold_socket. mrun. by rewrite IH. }
  assert (Haccs : ∀ (l : list (EndpointId * Acceptor)) h, for_each (λ kv, Acceptor_close kv.2;; mret ()) l h =
    Done () (closings false ((λ kv, ep_id (acceptor_ep kv.2)) <$> l))).
  { induction l as [|kv l IH]; intros h0; [done|]. cbn [for_each]. unfold_socket. mrun. by rewrite IH. }
  set (pids := (λ kv, pipe_id kv.2) <$> drain_map h (sock_pipes self)).
  set (aids := (λ kv, ep_id (acceptor_ep kv.2)) <$> drain_map (h ++ closings true pids) (acceptors self)).
  exists pids, aids. split; [|split; apply fmap_Permutation, drain_map_perm].
  unfold Socket_close, ctx_raise, history. mrun. rewrite app_nil_r, Hpipes. fold pids. mrun.
  cbn [acceptors set_sock_pipes]. rewrite app_nil_r, Haccs. fold aids. mrun.
  unfold ask. rewrite bind_run. cbn [protocol set_acceptors set_sock_pipes]. rewrite <- app_assoc.
  destruct (close _ _) as [p out|]; [|done]. mrun. by rewrite !app_nil_r, <- !app_assoc.
Qed.

End endpoints.

(** ** On concrete inputs: a PAIR socket *)

Section witness.
#[local] Existing Instance ref_env.

Definition ex_socket : Socket Pair := Socket_new (SocketId_from 1) Pair_from.
Definition ex_eid : EndpointId := EndpointId_from 2.
(** Options, a connection and its pipe, a timed send that goes through, then the
    peer is lost and found again. *)
Definition ex_calls : list call :=
  [CSetOption (SendTimeout (Some (from_millis 50))); CSetOption (SendPriority 3);
   CConnect "tcp://127.0.0.1:5454"; CPipeOpened ex_eid; CSendReady ex_eid true;
   CSend (from_body [42]); CSendAck ex_eid; CTryRecv;
   CPipeError ex_eid (other_io_error "connection reset"); CPoll].

Example ex_socket_trace :
  let sp := mkEndpointSpec "tcp://127.0.0.1:5454" (mkEndpointDesc 3 8 false 1048576) in
  emitted (Socket_drive ex_calls ex_socket []) =
  [SendReply ReplySetOption; SendReply ReplySetOption;
   NetConnect (SocketId_from 1) (mkEndpointTmpl (PAIR, PAIR) sp); NetOpen ex_eid true;
   SendReply (ReplyConnect ex_eid); Raise (CanSend true); SchSchedule TaskSendTimeout (from_millis 50);
   NetSend ex_eid (from_body [42]); Raise (CanSend false); SendReply ReplySend;
   SchCancel (Scheduled_from 6);
   SendReply (ReplyErr (would_block_io_error "socket is not recv ready"));
   NetClose ex_eid true; SchSchedule (Reconnect ex_eid sp) (from_millis 100);
   Raise (CanRecv false); Raise (CanSend false)].
Proof. vm_compute. reflexivity. Qed.


Definition ex_sending : list call := take 6 ex_calls.
Definition ex_busy : Socket Pair := default ex_socket (returned (Socket_drive ex_sending ex_socket [])).


Lemma socket_reconnects_witness :
  let u := "tcp://127.0.0.1:5454" in
  let sp := create_endpoint_spec u ex_socket in
  let eid := EndpointId_from 0 in
  ∃ self' out reply, Socket_drive [CConnect u; CSetOption (SendPriority 3); CPipeError eid (other_io_error "reset")]
      ex_socket [] = Done self' out ∧
    let retry := SchSchedule (Reconnect eid sp) (cfg_retry_ivl (config self')) in
    let tmpl := mkEndpointTmpl (get_protocol_ids ex_socket) sp in
    out = [NetConnect (sock_id ex_socket) (create_endpoint_tmpl u ex_socket); NetOpen eid true;
           SendReply (ReplyConnect eid); SendReply reply; NetClose eid true; retry] ∧
    sock_pipes self' = delete eid (sock_pipes ex_socket) ∧
    ∀ h', ∃ self'', match reconnect_answer h' (sock_id ex_socket) eid tmpl with
      | Ok _ =>
          Socket_step (CReconnect eid sp) self' h' =
            Done self'' [NetReconnect (sock_id ex_socket) eid tmpl; NetOpen eid true] ∧
          sock_pipes self'' = <[eid := Pipe_from_spec eid sp]> (sock_pipes ex_socket)
      | Err _ =>
          Socket_step (CReconnect eid sp) self' h' =
            Done self'' [NetReconnect (sock_id ex_socket) eid tmpl; retry] ∧ self'' = self'
      end.
Proof. apply (socket_reconnects ex_socket [] "tcp://127.0.0.1:5454"); reflexivity. Defined.

End witness.

(** A network that never reconnects. *)
Definition refusing_env : Env := {|
  env_build := {| overflow_checks := true |};
  connect_answer h _ _ := Ok (EndpointId_from (Z.of_nat (length h)));
  reconnect_answer _ _ _ _ := Err (other_io_error "refused");
  bind_answer h _ _ := Ok (EndpointId_from (Z.of_nat (length h)));
  rebind_answer _ _ _ _ := Err (other_io_error "refused");
  schedule_answer h _ _ := Ok (Scheduled_from (Z.of_nat (length h)));
  drain_set _ s := elements s;
  drain_map _ _ m := map_to_list m;
  drain_set_perm _ _ := reflexivity _;
  drain_map_perm _ _ _ := reflexivity _
|}.

Section refused.
#[local] Existing Instance refusing_env.

Lemma socket_retry_constant_witness :
  let sp := create_endpoint_spec "tcp://127.0.0.1:5454" ex_socket in
  ∃ self' out, Socket_drive (CSetOption (RetryIvlMax (Some (from_secs 9))) ::
        replicate 5 (CReconnect ex_eid sp)) ex_socket [] = Done self' (SendReply ReplySetOption :: out) ∧
    cfg_retry_ivl_max (config self') = Some (from_secs 9) ∧
    schedules out = replicate 5 (SchSchedule (Reconnect ex_eid sp) (cfg_retry_ivl (config ex_socket))).
Proof.
  apply (socket_retry_constant ex_socket [] ex_eid (create_endpoint_spec "tcp://127.0.0.1:5454" ex_socket)
    (Some (from_secs 9)) 5). intros h. eexists. reflexivity.
Defined.
End refused.
