(* ===== verification/Stream.v ===== *)
(** * Byte streams and the handshake (src/transport/async/stub.rs)

    What a connection accepts and yields is up to the network: a [Sink] holds the
    answers its next writes will get, a [Source] what its next reads will see.
    Every theorem holds for all of them, so for every way a message can be cut in
    pieces.  A write takes any part of its buffer, from the start; a read returns
    what has arrived, up to the length of its buffer ([std::io::Write::write] and
    [std::io::Read::read]); mio's vectored [write_bufs] writes the buffers one
    after the other, as [writev] does. *)

From S2P Require Import Prelude Core Codec.

(** ** Fallible input and output over a stream *)

Inductive iores (A : Type) : Type :=
| IOk (a : A)
| IErr (e : io_error)
| IPanic.
Arguments IOk {A} a.
Arguments IErr {A} e.
Arguments IPanic {A}.

(** A run on a stream [S]; binding is the [?] of the source. *)
Definition IO (S A : Type) : Type := S → iores A * S.

#[global] Instance IO_ret {S} : MRet (IO S) := λ A a s, (IOk a, s).
#[global] Instance IO_bind {S} : MBind (IO S) := λ A B k m s,
  match m s with
  | (IOk a, s') => k a s'
  | (IErr e, s') => (IErr e, s')
  | (IPanic, s') => (IPanic, s')
  end.

Definition fail {S A} (e : io_error) : IO S A := λ s, (IErr e, s).
(** [match r { Ok(x) => .., Err(e) => .. }]: the run with its error as a value. *)
Definition attempt {S A} (m : IO S A) : IO S (result A) := λ s,
  match m s with
  | (IOk a, s') => (IOk (Ok a), s')
  | (IErr e, s') => (IOk (Err e), s')
  | (IPanic, s') => (IPanic, s')
  end.
(** [&buf\[from..\]] *)
Definition slice_from {S} (from : nat) (buf : bytes) : IO S bytes := λ s,
  if bool_decide (from <= length buf)%nat then (IOk (drop from buf), s) else (IPanic, s).

Definition would_block (e : io_error) : bool :=
  match err_kind e with KWouldBlock => true | _ => false end.

Lemma io_bind_run {S A B} (m : IO S A) (k : A → IO S B) s :
  (m ≫= k) s =
  match m s with
  | (IOk a, s') => k a s'
  | (IErr e, s') => (IErr e, s')
  | (IPanic, s') => (IPanic, s')
  end.
Proof. reflexivity. Qed.

Lemma attempt_ok {S A} (m : IO S A) s r s' :
  attempt m s = (IOk r, s') → m s = (match r with Ok a => IOk a | Err e => IErr e end, s').
Proof. unfold attempt. destruct (m s) as [[a|e|] s1]; by intros [= <- <-]. Qed.

Lemma slice_from_run {S} from buf (s : S) :
  (from <= length buf)%nat → slice_from from buf s = (IOk (drop from buf), s).
Proof. intros Hf. unfold slice_from. by rewrite bool_decide_true. Qed.

(** ** Sinks *)

(** How much each of the next writes takes, or why it fails; when there is no more
    room, a write would block. *)
Record Sink : Type := mkSink { room : list (result nat); sent : bytes }.

Definition no_more : io_error := would_block_io_error "".

Definition sink_write (buf : bytes) : IO Sink nat := λ s,
  match room s with
  | [] => (IErr no_more, s)
  | Ok n :: r =>
      let k := min n (length buf) in
      (IOk k, mkSink r (sent s ++ take k buf))
  | Err e :: r => (IErr e, mkSink r (sent s))
  end.
Definition sink_write_bufs (bufs : list bytes) : IO Sink nat := sink_write (concat bufs).

(** [WriteBuffer::write_buffer]: whether the buffer is done, and how much is. *)
Definition write_buffer (buf : bytes) (written : nat) : IO Sink (bool * nat) :=
  rest ← slice_from written buf;
  r ← attempt (sink_write rest);
  match r with
  | Ok x =>
      let written := (written + x)%nat in
      mret (bool_decide (written = length buf), written)
  | Err e => if would_block e then mret (false, written) else fail e
  end.

(** A sink fails only by being full for a while. *)
Definition mild {A} (answers : list (result A)) : Prop :=
  ∀ e, Err e ∈ answers → would_block e = true.

(** How many answers take something. *)
Fixpoint takers (answers : list (result nat)) : nat :=
  match answers with
  | [] => 0
  | Ok (S _) :: r => S (takers r)
  | _ :: r => takers r
  end.

(** [s'] is [s] after it took [done]; every answer that takes something was paid
    for by a byte. *)
Record took (s : Sink) (done : bytes) (s' : Sink) : Prop := {
  took_sent : sent s' = sent s ++ done;
  took_mild : mild (room s) → mild (room s');
  took_shorter : (length (room s') <= length (room s))%nat;
  took_pays : (takers (room s) <= takers (room s') + length done)%nat
}.

(** An answer was used up, when there was one. *)
Definition waited (s s' : Sink) : Prop := room s = [] ∨ (length (room s') < length (room s))%nat.

Lemma took_nothing s : took s [] s.
Proof. split; [by rewrite app_nil_r|done|done|simpl; lia]. Qed.

Lemma took_trans s1 s2 s3 d1 d2 : took s1 d1 s2 → took s2 d2 s3 → took s1 (d1 ++ d2) s3.
Proof.
  intros [Hs1 Hm1 Hr1 Hp1] [Hs2 Hm2 Hr2 Hp2]. split; [|auto|lia|rewrite length_app; lia].
  by rewrite Hs2, Hs1, app_assoc.
Qed.

(** One write: some of the buffer, or an error, the stream being full for now
    unless it is broken. *)
Lemma attempt_write buf s :
  buf ≠ [] →
  ∃ r s', attempt (sink_write buf) s = (IOk r, s') ∧ waited s s' ∧
    match r with
    | Ok k => (k <= length buf)%nat ∧ took s (take k buf) s'
    | Err e => (mild (room s) → would_block e = true) ∧ took s [] s'
    end.
Proof.
  intros Hbuf. unfold attempt, sink_write, waited. destruct s as [[|[n|e] r] sn]; cbn [room sent] in *.
  - exists (Err no_more), (mkSink [] sn). repeat (split; [auto|]). apply took_nothing.
  - eexists _, _. split; [done|]. split; [right; simpl; lia|]. split; [lia|].
    split; simpl; [done| |lia|].
    + intros Hm e He. apply Hm. set_solver.
    + destruct n, buf; simpl; lia || done.
  - eexists _, _. split; [done|]. split; [right; simpl; lia|]. split; [intros Hm; apply Hm; set_solver|].
    split; simpl; [by rewrite app_nil_r| |lia|lia]. intros Hm e' He. apply Hm. set_solver.
Qed.

Lemma write_buffer_run buf written s :
  (written < length buf)%nat →
  ∃ r s', attempt (write_buffer buf written) s = (IOk r, s') ∧
    match r with
    | Ok (sent, k) => sent = bool_decide (k = length buf) ∧ (written <= k <= length buf)%nat ∧
        took s (take (k - written) (drop written buf)) s' ∧ waited s s'
    | Err e => ¬ mild (room s)
    end.
Proof.
  intros Hw. unfold write_buffer, attempt at 1. rewrite io_bind_run, slice_from_run by lia.
  destruct (attempt_write (drop written buf) s) as (r & s' & Hr & Hw' & Hs).
  { intros Hnil%(f_equal length). rewrite length_drop in Hnil. simpl in Hnil. lia. }
  rewrite io_bind_run, Hr. rewrite length_drop in Hs. destruct r as [k|e].
  - destruct Hs as [Hk Ht]. eexists _, s'. split; [done|]. split; [done|]. split; [lia|].
    by replace (written + k - written)%nat with k by lia.
  - destruct Hs as [He Ht]. destruct (would_block e) eqn:Hwb.
    + eexists _, s'. split; [done|]. split; [by rewrite bool_decide_false by lia|]. split; [lia|].
      by rewrite Nat.sub_diag.
    + eexists _, s'. split; [done|]. intros Hm%He. congruence.
Qed.

(** ** Sources *)

(** What the next reads will see: bytes that arrived together (none at the end of
    the stream), or an error; when there is nothing, a read would block. *)
Record Source : Type := mkSource { arrivals : list (result bytes) }.

Definition source_read (n : nat) : IO Source bytes := λ s,
  match arrivals s with
  | [] => (IErr no_more, s)
  | Ok bs :: r =>
      if bool_decide (length bs <= n)%nat then (IOk bs, mkSource r)
      else (IOk (take n bs), mkSource (Ok (drop n bs) :: r))
  | Err e :: r => (IErr e, mkSource r)
  end.

(** [ReadBuffer::read_buffer], on a buffer of [n] bytes: what was read. *)
Definition read_buffer (n : nat) : IO Source bytes :=
  r ← attempt (source_read n);
  match r with
  | Ok x => mret x
  | Err e => if would_block e then mret [] else fail e
  end.

(** [buffer\[read..\]] after [got] was read into it. *)
Definition fill (buffer : bytes) (read : nat) (got : bytes) : bytes :=
  take read buffer ++ got ++ drop (read + length got) buffer.

(** What is still to be read, in order. *)
Definition pending_bytes (s : Source) : bytes :=
  concat (omap (λ a, match a with Ok bs => Some bs | Err _ => None end) (arrivals s)).

Record gave (s : Source) (n : nat) (got : bytes) (s' : Source) : Prop := {
  gave_size : (length got <= n)%nat;
  gave_bytes : pending_bytes s = got ++ pending_bytes s';
  gave_mild : mild (arrivals s');
  gave_short : (length (arrivals s') <= length (arrivals s))%nat;
  gave_waits : (length got < n)%nat →
    arrivals s = [] ∨ (length (arrivals s') < length (arrivals s))%nat
}.

Lemma read_buffer_run n s :
  mild (arrivals s) → ∃ got s', read_buffer n s = (IOk got, s') ∧ gave s n got s'.
Proof.
  intros Hm. unfold read_buffer, attempt, source_read. rewrite io_bind_run.
  destruct s as [[|[bs|e] r]]; cbn [arrivals].
  - exists [], (mkSource []). split; [done|]. split; simpl; auto; lia.
  - assert (Hm' : ∀ bs', mild (Ok bs' :: r)).
    { intros bs' e He. apply elem_of_cons in He as [?|He]; [done|]. apply Hm. cbn. set_solver. }
    case_bool_decide as Hl.
    + exists bs, (mkSource r). split; [done|]. split; cbn [arrivals length]; auto; try lia.
      intros e He. apply Hm. set_solver.
    + exists (take n bs), (mkSource (Ok (drop n bs) :: r)). split; [done|].
      split; cbn [arrivals length]; auto; rewrite ?length_take; try lia.
      unfold pending_bytes. cbn. by rewrite app_assoc, take_drop.
  - assert (He : would_block e = true) by (apply Hm; cbn [arrivals]; set_solver).
    cbn. rewrite He. exists [], (mkSource r). split; [done|]. split; cbn [arrivals length]; auto; try lia.
    intros e' He'. apply Hm. set_solver.
Qed.

(** ** The handshake *)

Section handshake.
Context `{ByteOrder}.

Definition create_handshake (protocol_id : Z) : bytes :=
  [0; 83; 80; 0] ++ be_write_u16 protocol_id ++ [0; 0].

Definition send_and_check_handshake (pids : Z * Z) : IO Sink () :=
  let '(proto_id, _) := pids in
  let handshake := create_handshake proto_id in
  n ← sink_write handshake;
  if bool_decide (n = 8%nat) then mret ()
  else fail (would_block_io_error "failed to send handshake").

Definition check_handshake {S} (pids : Z * Z) (handshake : bytes) : IO S () :=
  let '(_, proto_id) := pids in
  let expected_handshake := create_handshake proto_id in
  if bool_decide (handshake = expected_handshake) then mret ()
  else fail (invalid_data_io_error "received bad handshake").

Definition recv_and_check_handshake (pids : Z * Z) : IO Source () :=
  let handshake := replicate 8 0 in
  got ← source_read 8;
  check_handshake pids (fill handshake 0 got).

Lemma create_handshake_length id : in_range 16 id → length (create_handshake id) = 8%nat.
Proof. intros Hid. unfold create_handshake. by rewrite !length_app, write_u16_length. Qed.

Lemma create_handshake_bytes id :
  in_range 16 id → create_handshake id = [0; 83; 80; 0; id / 256; id mod 256; 0; 0].
Proof. intros Hid. unfold create_handshake. by rewrite be_write_u16_law. Qed.

Lemma create_handshake_inj id id' :
  in_range 16 id → in_range 16 id' → create_handshake id = create_handshake id' → id = id'.
Proof.
  intros Hid Hid' Heq. unfold create_handshake in Heq. simplify_eq/=. apply app_inj_2 in Heq as [Heq _]; [|done].
  rewrite <- (read_write_u16 id []), <- (read_write_u16 id' []) by done. by rewrite !app_nil_r, Heq.
Qed.

(** C35: Two peers whose handshakes pass whole agree: what one sends, eight bytes and
    nothing else, is accepted by the other exactly when it announces the protocol
    the other expects, and the bytes after the handshake are left for the frames. *)
Theorem handshake_agrees mine yours expected more s room_left src_rest :
  in_range 16 mine → in_range 16 expected → (8 <= room_left)%nat →
  ∃ s', send_and_check_handshake (mine, yours) (mkSink (Ok room_left :: []) s) = (IOk (), s') ∧
    sent s' = s ++ create_handshake mine ∧
    let src := mkSource (Ok (create_handshake mine ++ more) :: src_rest) in
    (recv_and_check_handshake (yours, expected) src).1 =
      (if bool_decide (mine = expected) then IOk () else IErr (invalid_data_io_error "received bad handshake")) ∧
    pending_bytes (recv_and_check_handshake (yours, expected) src).2 =
      more ++ pending_bytes (mkSource src_rest).
Proof.
  intros Hm He Hroom. pose proof (create_handshake_length mine Hm) as Hlen.
  unfold send_and_check_handshake, recv_and_check_handshake, check_handshake, sink_write, source_read, fill.
  cbn [room arrivals]. rewrite !io_bind_run. cbn [room sent arrivals]. rewrite Hlen, Nat.min_r by done.
  rewrite bool_decide_true by done. eexists. split; [done|]. split; [cbn [sent]; by rewrite take_ge by lia|].
  assert (Hif : ∀ hs : bytes, hs = create_handshake mine →
    bool_decide (hs = create_handshake expected) = bool_decide (mine = expected)).
  { intros hs ->. apply bool_decide_ext. split; [by apply create_handshake_inj|by intros ->]. }
  set (hs := create_handshake mine) in *.
  destruct (decide (length (hs ++ more) <= 8)%nat) as [Hmore|Hmore];
    [rewrite (bool_decide_true (length (hs ++ more) <= 8)%nat) by done
    |rewrite (bool_decide_false (length (hs ++ more) <= 8)%nat) by done];
    rewrite length_app, Hlen in Hmore.
  - assert (more = []) as -> by (apply nil_length_inv; lia). rewrite app_nil_r, Hlen. cbn [take drop replicate app Nat.add].
    rewrite Hif by (by rewrite app_nil_r). by case_bool_decide.
  - rewrite take_app_length', drop_app_length' by done. rewrite Hlen. cbn [take drop replicate app Nat.add].
    rewrite Hif by (by rewrite app_nil_r). by case_bool_decide.
Qed.

(** C40: The handshake is read at once, whatever arrived.  When its first six or seven
    bytes come alone, it is accepted, the others stay in the stream and are taken
    for the start of the first frame; when fewer come, the right peer is refused. *)
Theorem handshake_cut expected yours cut more rest :
  in_range 16 expected → 0 < expected mod 256 → (0 < cut < 8)%nat →
  let hs := create_handshake expected in
  let src := mkSource (Ok (take cut hs) :: Ok (drop cut hs ++ more) :: rest) in
  (recv_and_check_handshake (yours, expected) src).1 =
    (if bool_decide (6 <= cut)%nat then IOk () else IErr (invalid_data_io_error "received bad handshake")) ∧
  ((6 <= cut)%nat → pending_bytes (recv_and_check_handshake (yours, expected) src).2 =
    replicate (8 - cut) 0 ++ more ++ pending_bytes (mkSource rest)).
Proof.
  intros Hr Hlo Hcut hs src. unfold recv_and_check_handshake, check_handshake, source_read, fill, src, hs.
  rewrite create_handshake_bytes by done. cbn [arrivals].
  assert (Hcases : (cut = 1 ∨ cut = 2 ∨ cut = 3 ∨ cut = 4 ∨ cut = 5 ∨ cut = 6 ∨ cut = 7)%nat) by lia.
  destruct Hcases as [->|[->|[->|[->|[->|[->| ->]]]]]]; rewrite !io_bind_run; cbn;
    (split; [|intros; try lia]); rewrite ?(bool_decide_true (_ <= 8)%nat) by lia; cbn.
  all: case_bool_decide as Heq; try done; exfalso; first [by apply Heq|simplify_eq; lia].
Qed.

End handshake.

(** ** The trait [AsyncPipeStub] *)

(** A vector holds at most [isize::MAX] bytes. *)
Definition sendable (msg : Message) : Prop := Message_len msg < 2 ^ 63.

(** [Sender], [Receiver] and [Handshake]. *)
Class AsyncPipeStub (S : Type) : Type := {
  stub_start_send : Message → IO S bool;
  stub_resume_send : IO S bool;
  stub_has_pending_send : S → bool;
  stub_start_recv : IO S (option Message);
  stub_resume_recv : IO S (option Message);
  stub_has_pending_recv : S → bool;
  stub_send_handshake : Z * Z → IO S ();
  stub_recv_handshake : Z * Z → IO S ()
}.

(** What a stub promises to the pipe that owns it: while it is well formed
    ([stub_ok]) and carries messages that it [takes], its operations do not panic,
    and an operation is pending exactly from the call that could not finish it to
    the one that does. *)
Class StubLaws (S : Type) `{AsyncPipeStub S} (takes : Message → Prop) (stub_ok : S → Prop) : Prop := {
  law_start_send : ∀ msg s, takes msg → stub_ok s →
    ∃ r s', attempt (stub_start_send msg) s = (IOk r, s') ∧ stub_ok s' ∧
      stub_has_pending_recv s' = stub_has_pending_recv s ∧
      stub_has_pending_send s' = match r with Ok false => true | _ => stub_has_pending_send s end;
  law_resume_send : ∀ s, stub_ok s → stub_has_pending_send s = true →
    ∃ r s', attempt stub_resume_send s = (IOk r, s') ∧ stub_ok s' ∧
      stub_has_pending_recv s' = stub_has_pending_recv s ∧
      stub_has_pending_send s' = match r with Ok false => true | _ => false end;
  law_start_recv : ∀ s, stub_ok s →
    ∃ r s', attempt stub_start_recv s = (IOk r, s') ∧ stub_ok s' ∧
      stub_has_pending_send s' = stub_has_pending_send s ∧
      stub_has_pending_recv s' = match r with Ok None => true | _ => stub_has_pending_recv s end;
  law_resume_recv : ∀ s, stub_ok s → stub_has_pending_recv s = true →
    ∃ r s', attempt stub_resume_recv s = (IOk r, s') ∧ stub_ok s' ∧
      stub_has_pending_send s' = stub_has_pending_send s ∧
      stub_has_pending_recv s' = match r with Ok None => true | _ => false end;
  law_send_handshake : ∀ pids s, stub_ok s →
    ∃ r s', attempt (stub_send_handshake pids) s = (IOk r, s') ∧ stub_ok s' ∧
      stub_has_pending_send s' = stub_has_pending_send s ∧ stub_has_pending_recv s' = stub_has_pending_recv s;
  law_recv_handshake : ∀ pids s, stub_ok s →
    ∃ r s', attempt (stub_recv_handshake pids) s = (IOk r, s') ∧ stub_ok s' ∧
      stub_has_pending_send s' = stub_has_pending_send s ∧ stub_has_pending_recv s' = stub_has_pending_recv s
}.

Lemma handshake_agrees_witness :
  in_range 16 48 ∧ ∃ s', send_and_check_handshake (H := be_ref) (48, 49) (mkSink [Ok 8%nat] []) = (IOk (), s') ∧
    sent s' = [0; 83; 80; 0; 0; 48; 0; 0].
Proof.
  split; [unfold in_range; lia|].
  destruct (handshake_agrees (H := be_ref) 48 49 48 [1] [] 8 []) as (s' & Hrun & Hsent & _);
    [unfold in_range; lia..|lia|]. by exists s'.
Defined.

Lemma handshake_cut_witness :
  let src := mkSource [Ok (take 6 (create_handshake (H := be_ref) 48)); Ok ([0; 0] ++ [7])] in
  (recv_and_check_handshake (H := be_ref) (49, 48) src).1 = IOk () ∧
  pending_bytes (recv_and_check_handshake (H := be_ref) (49, 48) src).2 = [0; 0; 7].
Proof.
  destruct (handshake_cut (H := be_ref) 48 49 6 [7] []) as [Hok Hrest];
    [unfold in_range; lia|by vm_compute|lia|]. split; [apply Hok|by apply Hrest].
Defined.
