(* ===== verification/Framing.v ===== *)
(** * Framed messages over a stream (src/transport/tcp, src/transport/ipc)

    The TCP and IPC transports send a message as a frame: a prefix (nothing for TCP,
    one byte for IPC), the length in eight bytes, then the header and the body of
    the message.  Their operations are state machines that do what the stream
    accepts for now and are resumed later; the two transports have the same
    machines, except for the way a step writes its part of the frame, [advance],
    and the size of the prefix.  This file holds what they share, over [advance]
    and [prefix]; [Tcp] and [Ipc] instantiate it. *)

From S2P Require Import Prelude Core Codec Stream.

(** ** Sending: tcp/send.rs, ipc/send.rs *)

Inductive SendOperationStep : Type :=
| TransportHdr (msg : Message) (written : nat)
| ProtocolHdr (msg : Message) (written : nat)
| UsrPayload (msg : Message) (written : nat)
| STerminal.

Definition is_terminal (self : SendOperationStep) : bool :=
  match self with STerminal => true | _ => false end.

Record SendOperation : Type := mkSendOperation { send_step : option SendOperationStep }.

Definition SendOperation_new (msg : Message) : SendOperation :=
  mkSendOperation (Some (TransportHdr msg 0)).

(** A step that passes moves on to a later one. *)
Definition send_rank (st : SendOperationStep) : nat :=
  match st with TransportHdr _ _ => 3 | ProtocolHdr _ _ => 2 | UsrPayload _ _ => 1 | STerminal => 0 end.

Lemma send_rank_le st : (send_rank st <= 3)%nat.
Proof. destruct st; simpl; lia. Qed.

(** ** Receiving: tcp/recv.rs, ipc/recv.rs *)

Inductive RecvOperationStep : Type :=
| RHeader (buffer : bytes) (read : nat) (max_size : Z)
| RPayload (buffer : bytes) (read : nat)
| RTerminal (msg : Message).

Record RecvOperation : Type := mkRecvOperation { recv_step : option RecvOperationStep }.

Definition recv_rank (st : RecvOperationStep) : nat :=
  match st with RHeader _ _ _ => 2 | RPayload _ _ => 1 | RTerminal _ => 0 end.

(** ** The stubs: tcp/stub.rs, ipc/unix/stub.rs *)

(** The stream is its two directions. *)
Record PipeStub : Type := mkPipeStub {
  sink : Sink;
  source : Source;
  recv_max_size : Z;
  send_operation : option SendOperation;
  recv_operation : option RecvOperation
}.

Definition PipeStub_new (stream : Sink * Source) (max : Z) : PipeStub :=
  mkPipeStub stream.1 stream.2 max None None.

Definition with_sink (self : PipeStub) (s : Sink) : PipeStub :=
  mkPipeStub s (source self) (recv_max_size self) (send_operation self) (recv_operation self).
Definition with_source (self : PipeStub) (s : Source) : PipeStub :=
  mkPipeStub (sink self) s (recv_max_size self) (send_operation self) (recv_operation self).
Definition with_send (self : PipeStub) (op : option SendOperation) : PipeStub :=
  mkPipeStub (sink self) (source self) (recv_max_size self) op (recv_operation self).
Definition with_recv (self : PipeStub) (op : option RecvOperation) : PipeStub :=
  mkPipeStub (sink self) (source self) (recv_max_size self) (send_operation self) op.

Definition on_sink {A} (m : IO Sink A) : IO PipeStub A := λ self,
  let '(r, s) := m (sink self) in (r, with_sink self s).
Definition on_source {A} (m : IO Source A) : IO PipeStub A := λ self,
  let '(r, s) := m (source self) in (r, with_source self s).
Definition set_send (op : option SendOperation) : IO PipeStub () := λ self, (IOk (), with_send self op).
Definition set_recv (op : option RecvOperation) : IO PipeStub () := λ self, (IOk (), with_recv self op).
Definition get_stub : IO PipeStub PipeStub := λ self, (IOk self, self).
Definition of_result {S A} (r : result A) : IO S A :=
  match r with Ok a => mret a | Err e => fail e end.

Definition has_pending_send (self : PipeStub) : bool := bool_decide (is_Some (send_operation self)).
Definition has_pending_recv (self : PipeStub) : bool := bool_decide (is_Some (recv_operation self)).

Section sending.
Context (advance : SendOperationStep → IO Sink (bool * SendOperationStep)).

(** [self.step] was taken: it is [None] unless it is set again.  The loop goes
    from step to later step, of which there are three before the end
    ([resume_at_ends]). *)
Fixpoint resume_at (fuel : nat) (self : SendOperation) (cur_step : SendOperationStep) :
    IO Sink (result bool * SendOperation) :=
  match fuel with
  | O => λ s, (IPanic, s)
  | S fuel =>
      r ← attempt (advance cur_step);
      match r with
      | Err e => mret (Err e, self)
      | Ok (passed, next_step) =>
          if is_terminal next_step then mret (Ok true, self)
          else if negb passed then mret (Ok false, mkSendOperation (Some next_step))
          else resume_at fuel self next_step
      end
  end.

Definition SendOperation_run (self : SendOperation) : IO Sink (result bool * SendOperation) :=
  match send_step self with
  | Some step => resume_at 3 (mkSendOperation None) step
  | None => mret (Err (other_io_error "Cannot resume already finished send operation"), self)
  end.

Definition run_send_operation (send_operation : SendOperation) : IO PipeStub bool :=
  r ← on_sink (SendOperation_run send_operation);
  done ← of_result r.1;
  if (done : bool) then mret true
  else set_send (Some r.2);; mret false.

Definition start_send (msg : Message) : IO PipeStub bool :=
  run_send_operation (SendOperation_new msg).

Definition resume_send : IO PipeStub bool :=
  self ← get_stub;
  match send_operation self with
  | Some op => set_send None;; run_send_operation op
  | None => fail (other_io_error "Cannot resume send: no pending operation")
  end.

(** A message is started, then resumed each time the stream is writable. *)
Fixpoint resume_sends (n : nat) : IO PipeStub bool :=
  match n with
  | O => mret false
  | S n => sent ← resume_send; if (sent : bool) then mret true else resume_sends n
  end.
Definition send_whole (n : nat) (msg : Message) : IO PipeStub bool :=
  sent ← start_send msg; if (sent : bool) then mret true else resume_sends n.

End sending.

Section receiving.
Context `{ByteOrder} (prefix : nat).

Definition header_size : nat := prefix + 8.

Definition RecvOperation_new (recv_max_size : Z) : RecvOperation :=
  mkRecvOperation (Some (RHeader (replicate header_size 0) 0 recv_max_size)).

(** [vec!\[0u8; len\]] panics beyond [isize::MAX]. *)
Definition vec_zeroed {S} (len : Z) : IO S bytes := λ s,
  if bool_decide (len < 2 ^ 63) then (IOk (replicate (Z.to_nat len) 0), s) else (IPanic, s).

Definition read_header (buffer : bytes) (read : nat) (max_size : Z) : IO Source (bool * RecvOperationStep) :=
  rest ← slice_from read buffer;
  got ← read_buffer (length rest);
  let buffer := fill buffer read got in
  let read := (read + length got)%nat in
  if bool_decide (read = header_size) then
    let msg_len := be_read_u64 (drop prefix buffer) in
    if bool_decide (0 < max_size) && bool_decide (max_size < msg_len)
    then fail (invalid_data_io_error "message is too long")
    else payload ← vec_zeroed msg_len; mret (true, RPayload payload 0)
  else mret (false, RHeader buffer read max_size).

(** The capacity of a vector made by [vec!] is its length. *)
Definition read_payload (buffer : bytes) (read : nat) : IO Source (bool * RecvOperationStep) :=
  rest ← slice_from read buffer;
  got ← read_buffer (length rest);
  let buffer := fill buffer read got in
  let read := (read + length got)%nat in
  if bool_decide (read = length buffer) then mret (true, RTerminal (from_body buffer))
  else mret (false, RPayload buffer read).

Definition recv_advance (self : RecvOperationStep) : IO Source (bool * RecvOperationStep) :=
  match self with
  | RHeader buffer read max_size => read_header buffer read max_size
  | RPayload buffer read => read_payload buffer read
  | RTerminal _ => fail (other_io_error "Cannot advance terminal step of recv operation")
  end.

Fixpoint recv_resume_at (fuel : nat) (self : RecvOperation) (cur_step : RecvOperationStep) :
    IO Source (result (option Message) * RecvOperation) :=
  match fuel with
  | O => λ s, (IPanic, s)
  | S fuel =>
      r ← attempt (recv_advance cur_step);
      match r with
      | Err e => mret (Err e, self)
      | Ok (passed, next_step) =>
          if negb passed then mret (Ok None, mkRecvOperation (Some next_step))
          else match next_step with
               | RTerminal msg => mret (Ok (Some msg), self)
               | other => recv_resume_at fuel self other
               end
      end
  end.

Definition RecvOperation_run (self : RecvOperation) : IO Source (result (option Message) * RecvOperation) :=
  match recv_step self with
  | Some step => recv_resume_at 2 (mkRecvOperation None) step
  | None => mret (Err (other_io_error "Cannot resume already finished recv operation"), self)
  end.

Definition run_recv_operation (recv_operation : RecvOperation) : IO PipeStub (option Message) :=
  r ← on_source (RecvOperation_run recv_operation);
  got ← of_result r.1;
  match got with
  | Some msg => mret (Some msg)
  | None => set_recv (Some r.2);; mret None
  end.

Definition start_recv : IO PipeStub (option Message) :=
  self ← get_stub;
  run_recv_operation (RecvOperation_new (recv_max_size self)).

Definition resume_recv : IO PipeStub (option Message) :=
  self ← get_stub;
  match recv_operation self with
  | Some op => set_recv None;; run_recv_operation op
  | None => fail (other_io_error "Cannot resume recv: no pending operation")
  end.

Fixpoint resume_recvs (n : nat) : IO PipeStub (option Message) :=
  match n with
  | O => mret None
  | S n => got ← resume_recv; match got with Some m => mret (Some m) | None => resume_recvs n end
  end.
Definition recv_whole (n : nat) : IO PipeStub (option Message) :=
  got ← start_recv; match got with Some m => mret (Some m) | None => resume_recvs n end.

End receiving.

(** ** The frame, and what a sender promises *)

Section spec.
Context `{ByteOrder}.

Definition frame (pre : bytes) (msg : Message) : bytes :=
  pre ++ be_write_u64 (Message_len msg) ++ header msg ++ body msg.

(** Bytes [k] to [k'] of a frame. *)
Definition slice (k k' : nat) (bs : bytes) : bytes := take (k' - k) (drop k bs).

Lemma slice_glue k1 k2 k3 bs :
  (k1 <= k2 <= k3)%nat → slice k1 k2 bs ++ slice k2 k3 bs = slice k1 k3 bs.
Proof.
  intros Hk. unfold slice. rewrite <- (take_drop (k2 - k1) (take (k3 - k1) (drop k1 bs))).
  rewrite take_take, skipn_firstn_comm, drop_drop. f_equal; [f_equal; lia|].
  replace (k1 + (k2 - k1))%nat with k2 by lia. f_equal. lia.
Qed.

Lemma sendable_fits msg : sendable msg → in_range 64 (Message_len msg).
Proof. unfold sendable, in_range, Message_len. lia. Qed.

Lemma frame_length pre msg :
  sendable msg → length (frame pre msg) = (length pre + 8 + length (header msg) + length (body msg))%nat.
Proof.
  intros Hs%sendable_fits. unfold frame. rewrite !length_app, write_u64_length by done. lia.
Qed.

(** What [advance] may do from byte [k] of the frame [wire] of [msg]: fail when the
    stream does, or write the next bytes; [place] says at what byte a step is. *)
Definition advanced (wire : bytes) (place : Message → SendOperationStep → nat → Prop) (msg : Message)
    (st : SendOperationStep) (k : nat) (s : Sink) (r : result (bool * SendOperationStep)) (s' : Sink) : Prop :=
  match r with
  | Err _ => ¬ mild (room s)
  | Ok (passed, st') =>
      ∃ k', (k <= k' <= length wire)%nat ∧ took s (slice k k' wire) s' ∧
        if is_terminal st' then k' = length wire
        else place msg st' k' ∧
          if (passed : bool) then (send_rank st' < send_rank st)%nat
          else (k' < length wire)%nat ∧ waited s s'
  end.

(** A transport's side of the bargain: each step writes the next bytes of the frame
    of a message that the transport [takes]. *)
Class Sends (pre : bytes) (takes : Message → Prop) (advance : SendOperationStep → IO Sink (bool * SendOperationStep))
    (place : Message → SendOperationStep → nat → Prop) : Prop := {
  sends_sendable : ∀ msg, takes msg → sendable msg;
  sends_new : ∀ msg, place msg (TransportHdr msg 0) 0%nat;
  sends_rank : ∀ msg st k, place msg st k → (0 < send_rank st)%nat;
  sends_step : ∀ msg st k s, takes msg → place msg st k →
    ∃ r s', attempt (advance st) s = (IOk r, s') ∧
      advanced (frame pre msg) place msg st k s r s'
}.

End spec.

Section sender.
Context `{ByteOrder} {pre : bytes} {takes : Message → Prop} {advance} {place : Message → SendOperationStep → nat → Prop}
  `{!Sends pre takes advance place}.
Context (msg : Message) (Hmsg : takes msg).
Let wire := frame pre msg.

(** What a run from byte [k] leaves: all sent, or stopped at [k'] by the stream,
    or broken with it. *)
Definition sent_some (k : nat) (s : Sink) (r : result bool * SendOperation) (s' : Sink) : Prop :=
  match r.1 with
  | Ok done => ∃ k', (k <= k' <= length wire)%nat ∧ took s (slice k k' wire) s' ∧
      if (done : bool) then k' = length wire
      else (k' < length wire)%nat ∧ waited s s' ∧
        ∃ st, r.2 = mkSendOperation (Some st) ∧ place msg st k'
  | Err _ => ¬ mild (room s)
  end.

Lemma sent_some_later k k' s s1 r s2 :
  (k <= k' <= length wire)%nat → took s (slice k k' wire) s1 → sent_some k' s1 r s2 → sent_some k s r s2.
Proof.
  intros Hk Ht. unfold sent_some. destruct r as [[done|e] op]; cbn [fst snd].
  - intros (k2 & Hk2 & Ht2 & Hr). exists k2. split; [lia|].
    split; [rewrite <- (slice_glue k k' k2) by lia; by eapply took_trans|].
    destruct done; [done|]. destruct Hr as (Hlt & Hw & Hop). split; [done|]. split; [|done].
    unfold waited in *. pose proof (took_shorter _ _ _ Ht) as Hsh. destruct Hw as [Hw|?]; [|right; lia].
    pose proof (took_shorter _ _ _ Ht2) as Hsh2. rewrite Hw in *. simpl in *.
    destruct (room s) as [|a l]; [by left|right]. simpl. lia.
  - intros Hm Hm'. apply Hm. by apply (took_mild _ _ _ Ht).
Qed.

(** The loop ends, whatever the stream answers. *)
Lemma resume_at_ends fuel op st k s :
  place msg st k → (send_rank st <= fuel)%nat →
  ∃ r s', resume_at advance fuel op st s = (IOk r, s') ∧ sent_some k s r s'.
Proof.
  revert st k s. induction fuel as [|fuel IH]; intros st k s Hpl Hf.
  { pose proof (sends_rank _ _ _ Hpl). lia. }
  destruct (sends_step _ _ _ s Hmsg Hpl) as (r & s' & Hrun & Hadv).
  cbn [resume_at]. rewrite io_bind_run, Hrun. destruct r as [[passed st']|e].
  - destruct Hadv as (k' & Hk & Ht & Hadv). destruct (is_terminal st') eqn:Hterm.
    { eexists _, _. split; [done|]. by exists k'. }
    destruct Hadv as [Hpl' Hadv]. destruct passed; cbn [negb].
    + destruct (IH st' k' s' Hpl' ltac:(lia)) as (r & s2 & Hrun2 & Hr).
      exists r, s2. split; [done|]. by eapply sent_some_later.
    + destruct Hadv. eexists _, _. split; [done|]. exists k'. repeat (split; [done|]). eauto.
  - eexists _, _. by split.
Qed.

Definition send_ready (k : nat) (op : SendOperation) : Prop :=
  ∃ st, op = mkSendOperation (Some st) ∧ place msg st k.

(** A run of the operation at byte [k], by the stub: the operation is kept only
    when it is not over. *)
Definition ran_send (k : nat) (self : PipeStub) (r : result bool) (self' : PipeStub) : Prop :=
  source self' = source self ∧ recv_operation self' = recv_operation self ∧
  recv_max_size self' = recv_max_size self ∧
  match r with
  | Ok done => ∃ k', (k <= k' <= length wire)%nat ∧ took (sink self) (slice k k' wire) (sink self') ∧
      if (done : bool) then k' = length wire ∧ send_operation self' = send_operation self
      else (k' < length wire)%nat ∧ waited (sink self) (sink self') ∧
        ∃ op', send_operation self' = Some op' ∧ send_ready k' op'
  | Err _ => ¬ mild (room (sink self)) ∧ send_operation self' = send_operation self
  end.

Lemma run_send k op self :
  send_ready k op →
  ∃ r self', attempt (run_send_operation advance op) self = (IOk r, self') ∧ ran_send k self r self'.
Proof.
  intros (st & -> & Hpl).
  destruct (resume_at_ends 3 (mkSendOperation None) st k (sink self) Hpl (send_rank_le st))
    as ([d op'] & s' & Hrun & Hr).
  unfold attempt, run_send_operation. rewrite io_bind_run. unfold on_sink, SendOperation_run. cbn [send_step].
  rewrite Hrun. unfold sent_some in Hr. cbn [fst snd] in *. rewrite io_bind_run. destruct d as [[]|e]; cbn.
  - destruct Hr as (k' & Hk & Ht & ->). exists (Ok true), (with_sink self s'). repeat (split; [done|]).
    exists (length wire). by repeat (split; [done|]).
  - destruct Hr as (k' & Hk & Ht & Hlt & Hw & st' & -> & Hpl'). eexists (Ok false), _. repeat (split; [done|]).
    exists k'. repeat (split; [done|]). eexists. split; [done|]. by eexists.
  - exists (Err e), (with_sink self s'). by repeat (split; [done|]).
Qed.

(** On a sink that is not broken. *)
Lemma run_send_mild k op self :
  send_ready k op → mild (room (sink self)) →
  ∃ done self', run_send_operation advance op self = (IOk done, self') ∧ ran_send k self (Ok done) self'.
Proof.
  intros Hop Hm. destruct (run_send k op self Hop) as ([done|e] & self' & Hrun%attempt_ok & Hr).
  - by exists done, self'.
  - by destruct Hr as (_ & _ & _ & ? & _).
Qed.

Lemma slice_length k k' : (k <= k' <= length wire)%nat → length (slice k k' wire) = (k' - k)%nat.
Proof. intros Hk. unfold slice. rewrite length_take, length_drop. lia. Qed.

Lemma resume_sends_run n k op self :
  send_operation self = Some op → send_ready k op → (k < length wire)%nat →
  mild (room (sink self)) → (length (room (sink self)) <= n)%nat →
  (length wire - k <= takers (room (sink self)))%nat →
  ∃ self', resume_sends advance n self = (IOk true, self') ∧
    took (sink self) (slice k (length wire) wire) (sink self') ∧ send_operation self' = None.
Proof.
  revert k op self. induction n as [|n IH]; intros k op self Hop Hready Hk Hm Hroom Htake.
  { destruct (room (sink self)); simpl in *; lia. }
  destruct (run_send_mild k op (with_send self None) Hready Hm)
    as (done & self' & Hrun & _ & _ & _ & k' & Hk' & Ht & Hdone). cbn [sink with_send send_operation] in *.
  cbn [resume_sends]. rewrite io_bind_run. unfold resume_send. rewrite io_bind_run.
  cbn [get_stub]. rewrite Hop, io_bind_run. cbn [set_send]. rewrite Hrun.
  destruct done; [destruct Hdone as [-> ?]; by exists self'|].
  destruct Hdone as (Hlt & Hw & op' & Hop' & Hready').
  pose proof (took_pays _ _ _ Ht) as Hp. rewrite slice_length in Hp by done.
  assert (length (room (sink self')) < length (room (sink self)))%nat.
  { destruct Hw as [Hw|?]; [|done]. cbn [sink with_send] in Hw. rewrite Hw in Htake. simpl in *. lia. }
  destruct (IH k' op' self' Hop' Hready' Hlt (took_mild _ _ _ Ht Hm) ltac:(lia) ltac:(lia)) as (self2 & Hrun2 & Ht2 & H2).
  exists self2. split; [done|]. split; [|done].
  rewrite <- (slice_glue k k' (length wire)) by lia. by eapply took_trans.
Qed.

(** A message whose bytes the stream can take is sent, exactly. *)
Lemma send_whole_run self :
  send_operation self = None → mild (room (sink self)) →
  (length wire <= takers (room (sink self)))%nat →
  ∃ self', send_whole advance (length (room (sink self))) msg self = (IOk true, self') ∧
    sent (sink self') = sent (sink self) ++ wire ∧ send_operation self' = None.
Proof.
  intros Hidle Hm Htake.
  destruct (run_send_mild 0 (SendOperation_new msg) self) as (done & self' & Hrun & _ & _ & _ & k & Hk & Ht & Hdone).
  { eexists. split; [done|apply sends_new]. }
  { done. }
  unfold send_whole, start_send. rewrite io_bind_run, Hrun. destruct done.
  - destruct Hdone as [-> Hop]. exists self'. split; [done|]. split; [|by rewrite Hop].
    rewrite (took_sent _ _ _ Ht). unfold slice. by rewrite drop_0, Nat.sub_0_r, firstn_all.
  - destruct Hdone as (Hlt & Hw & op' & Hop' & Hready'). pose proof (took_pays _ _ _ Ht) as Hp.
    rewrite slice_length in Hp by lia. pose proof (took_shorter _ _ _ Ht).
    destruct (resume_sends_run (length (room (sink self))) k op' self') as (self2 & Hrun2 & Ht2 & H2);
      try done; [by eapply took_mild|lia|].
    exists self2. split; [done|]. split; [|done].
    rewrite (took_sent _ _ _ (took_trans _ _ _ _ _ Ht Ht2)), slice_glue by lia.
    unfold slice. by rewrite drop_0, Nat.sub_0_r, firstn_all.
Qed.

End sender.

(** ** Reading a frame *)

(** What a read does to a buffer that is being filled with the first bytes of [w]. *)
Lemma read_on buf read w more src :
  (read <= length buf <= length w)%nat → take read buf = take read w →
  pending_bytes src = drop read w ++ more → mild (arrivals src) →
  ∃ got src', read_buffer (length (drop read buf)) src = (IOk got, src') ∧
    (read + length got <= length buf)%nat ∧ length (fill buf read got) = length buf ∧
    take (read + length got) (fill buf read got) = take (read + length got) w ∧
    pending_bytes src' = drop (read + length got) w ++ more ∧ mild (arrivals src') ∧
    (length (arrivals src') <= length (arrivals src))%nat ∧
    ((read + length got < length buf)%nat → (length (arrivals src') < length (arrivals src))%nat).
Proof.
  intros Hlen Htake Hpend Hm. destruct (read_buffer_run (length (drop read buf)) src Hm) as (got & src' & Hrun & Hg).
  destruct Hg as [Hsize Hbytes Hm' Hshort Hwaits]. rewrite length_drop in Hsize, Hwaits.
  rewrite Hpend in Hbytes. exists got, src'. split; [done|]. split; [lia|].
  assert (Hgot : got = take (length got) (drop read w)).
  { rewrite <- (take_app_le (drop read w) more) by (rewrite length_drop; lia). rewrite Hbytes.
    by rewrite take_app_length. }
  assert (Hrest : pending_bytes src' = drop (read + length got) w ++ more).
  { apply (f_equal (drop (length got))) in Hbytes. rewrite drop_app_length in Hbytes.
    rewrite <- Hbytes, drop_app_le, drop_drop by (rewrite length_drop; lia). done. }
  unfold fill. split; [|split; [|split; [done|split; [done|split; [done|]]]]].
  - rewrite !length_app, length_take, length_drop. lia.
  - rewrite app_assoc, take_app_le, take_ge by (rewrite length_app, length_take; lia).
    rewrite Htake, Hgot at 1. by rewrite take_take_drop.
  - intros Hlt. destruct (Hwaits ltac:(lia)) as [Hnil|?]; [|done]. exfalso.
    rewrite Hrest in Hbytes. unfold pending_bytes in Hpend. rewrite Hnil in Hpend. cbn in Hpend.
    apply (f_equal length) in Hpend. rewrite length_app, length_drop in Hpend. simpl in Hpend. lia.
Qed.

Section receiver.
Context `{ByteOrder} (pre : bytes) (msg : Message) (max : Z) (more : bytes) (Hmsg : sendable msg).
Let wire := frame pre msg.
Let data := header msg ++ body msg.
Let prefix := length pre.

(** The receiver bounds what it takes, unless its bound is zero. *)
Definition refused : bool := bool_decide (0 < max) && bool_decide (max < Message_len msg).
Definition too_long : io_error := invalid_data_io_error "message is too long".

(** [c] bytes of the frame were consumed by the steps before [st]. *)
Definition receiving (st : RecvOperationStep) (c : nat) : Prop :=
  match st with
  | RHeader buffer read m => m = max ∧ read = c ∧ length buffer = header_size prefix ∧
      take c buffer = take c wire ∧ (c < header_size prefix)%nat
  | RPayload buffer read => c = (header_size prefix + read)%nat ∧ length buffer = length data ∧
      (read <= length data)%nat ∧ take read buffer = take read data ∧ refused = false
  | RTerminal _ => False
  end.

(** The stream has the rest of the frame from [c], then [more]. *)
Definition left_at (c : nat) (src : Source) : Prop :=
  pending_bytes src = drop c wire ++ more ∧ mild (arrivals src).

Lemma data_length : Z.of_nat (length data) = Message_len msg.
Proof. unfold data, Message_len. rewrite length_app. lia. Qed.

Lemma wire_length : length wire = (header_size prefix + length data)%nat.
Proof. unfold wire, header_size, data, prefix. rewrite frame_length, length_app by done. lia. Qed.

Lemma wire_data n : drop (header_size prefix + n) wire = drop n data.
Proof.
  unfold wire, frame, header_size, prefix. rewrite app_assoc, <- drop_drop, drop_app_length'; [done|].
  rewrite length_app, write_u64_length by by apply sendable_fits. done.
Qed.

Lemma wire_size buffer :
  take (header_size prefix) buffer = take (header_size prefix) wire → length buffer = header_size prefix →
  be_read_u64 (drop prefix buffer) = Message_len msg.
Proof.
  intros Heq Hlen. rewrite <- (firstn_all buffer), Hlen, Heq. unfold wire, frame, header_size, prefix.
  rewrite app_assoc, take_app_length'.
  - rewrite drop_app_length, <- (app_nil_r (be_write_u64 _)). apply read_write_u64. by apply sendable_fits.
  - rewrite length_app, write_u64_length by by apply sendable_fits. done.
Qed.

(** One step: the frame goes on, waits for the stream, ends, or is refused. *)
Definition recv_stepped (st : RecvOperationStep) (src : Source) (r : result (bool * RecvOperationStep))
    (src' : Source) : Prop :=
  match r with
  | Err e => refused = true ∧ e = too_long ∧ left_at (header_size prefix) src'
  | Ok (true, RTerminal m) => refused = false ∧ m = from_body data ∧ left_at (length wire) src'
  | Ok (true, st') => (recv_rank st' < recv_rank st)%nat ∧ ∃ c', receiving st' c' ∧ left_at c' src'
  | Ok (false, st') => (length (arrivals src') < length (arrivals src))%nat ∧
      ∃ c', receiving st' c' ∧ left_at c' src'
  end.

Lemma read_header_step buffer read m c src :
  receiving (RHeader buffer read m) c → left_at c src →
  ∃ r src', attempt (read_header prefix buffer read m) src = (IOk r, src') ∧
    (length (arrivals src') <= length (arrivals src))%nat ∧
    recv_stepped (RHeader buffer read m) src r src'.
Proof.
  intros (-> & -> & Hlen & Htake & Hc) [Hpend Hm].
  destruct (read_on buffer c wire more src) as (got & src' & Hrun & Hle & Hfill & Hpre & Hpend' & Hm' & Hsh & Hw);
    [rewrite wire_length; lia|done..|].
  unfold attempt, read_header. rewrite io_bind_run, slice_from_run by lia. rewrite io_bind_run, Hrun.
  set (b := fill buffer c got) in *. case_bool_decide as Hfull.
  - rewrite Hfull in *. rewrite (wire_size b) by (done || lia).
    change (bool_decide (0 < max) && bool_decide (max < Message_len msg)) with refused.
    destruct refused eqn:Href.
    + eexists _, src'. split; [done|]. split; [done|]. by repeat split.
    + rewrite io_bind_run. unfold vec_zeroed. rewrite bool_decide_true by done.
      eexists _, src'. split; [done|]. split; [done|]. split; [simpl; lia|].
      exists (header_size prefix). split; [|done]. rewrite <- data_length, Nat2Z.id.
      split; [lia|]. split; [by rewrite length_replicate|]. split; [lia|done].
  - eexists _, src'. split; [done|]. split; [done|]. split; [apply Hw; lia|].
    exists (c + length got)%nat. split; [|done]. repeat (split; [done || lia|]). lia.
Qed.

Lemma read_payload_step buffer read c src :
  receiving (RPayload buffer read) c → left_at c src →
  ∃ r src', attempt (read_payload buffer read) src = (IOk r, src') ∧
    (length (arrivals src') <= length (arrivals src))%nat ∧
    recv_stepped (RPayload buffer read) src r src'.
Proof.
  intros (-> & Hlen & Hread & Htake & Href) [Hpend Hm]. rewrite wire_data in Hpend.
  destruct (read_on buffer read data more src) as (got & src' & Hrun & Hle & Hfill & Hpre & Hpend' & Hm' & Hsh & Hw);
    [lia|done..|].
  unfold attempt, read_payload. rewrite io_bind_run, slice_from_run by lia. rewrite io_bind_run, Hrun.
  set (b := fill buffer read got) in *. case_bool_decide as Hfull.
  - eexists _, src'. split; [done|]. split; [done|]. split; [done|]. split.
    + f_equal. rewrite Hfull, firstn_all, Hfill, Hlen, firstn_all in Hpre. done.
    + split; [|done]. rewrite wire_length, wire_data. by rewrite Hpend', Hfull, Hfill, Hlen.
  - eexists _, src'. split; [done|]. split; [done|]. split; [apply Hw; lia|].
    exists (header_size prefix + (read + length got))%nat. split; [|split; [by rewrite wire_data|done]].
    by repeat (split; [done || lia|]).
Qed.

Lemma recv_step_run st c src :
  receiving st c → left_at c src →
  ∃ r src', attempt (recv_advance prefix st) src = (IOk r, src') ∧
    (length (arrivals src') <= length (arrivals src))%nat ∧ recv_stepped st src r src'.
Proof.
  destruct st; [apply read_header_step|apply read_payload_step|done].
Qed.

Definition recv_got (src : Source) (r : result (option Message) * RecvOperation) (src' : Source) : Prop :=
  match r.1 with
  | Err e => refused = true ∧ e = too_long ∧ left_at (header_size prefix) src'
  | Ok (Some m) => refused = false ∧ m = from_body data ∧ left_at (length wire) src'
  | Ok None => (length (arrivals src') < length (arrivals src))%nat ∧
      ∃ st c, r.2 = mkRecvOperation (Some st) ∧ receiving st c ∧ left_at c src'
  end.

(** The loop ends, whatever the stream answers. *)
Lemma recv_resume_at_ends fuel op st c src :
  receiving st c → left_at c src → (recv_rank st <= fuel)%nat →
  ∃ r src', recv_resume_at prefix fuel op st src = (IOk r, src') ∧
    (length (arrivals src') <= length (arrivals src))%nat ∧ recv_got src r src'.
Proof.
  revert st c src. induction fuel as [|fuel IH]; intros st c src Hst Hleft Hf.
  { destruct st; simpl in Hf; [lia|lia|done]. }
  destruct (recv_step_run st c src Hst Hleft) as (r & src' & Hrun & Hsh & Hstep).
  cbn [recv_resume_at]. rewrite io_bind_run, Hrun.
  destruct r as [[[] st']|e]; cbn [negb recv_stepped] in *.
  - assert (Hgo : (∃ m, st' = RTerminal m) ∨ (recv_rank st' < recv_rank st)%nat ∧
      ∃ c', receiving st' c' ∧ left_at c' src') by (destruct st'; eauto).
    destruct Hgo as [[m ->]|(Hrank & c' & Hst' & Hleft')].
    + eexists _, src'. split; [done|]. by split.
    + destruct (IH st' c' src' Hst' Hleft' ltac:(lia)) as (r & src2 & Hrun2 & Hsh2 & Hgot).
      exists r, src2. split; [by destruct st'|]. split; [lia|].
      unfold recv_got in *. destruct r as [[[m|]|e] op']; try done. destruct Hgot. split; [lia|done].
  - destruct Hstep as (Hlt & c' & Hst' & Hleft'). eexists _, src'. split; [done|]. split; [done|].
    split; [done|]. by exists st', c'.
  - eexists _, src'. split; [done|]. by split.
Qed.

Definition recv_pending (self : PipeStub) (op : RecvOperation) : Prop :=
  ∃ st c, op = mkRecvOperation (Some st) ∧ receiving st c ∧ left_at c (source self).

(** What the receiver answers for the whole frame, and where it stops in it. *)
Definition recv_answer : iores (option Message) :=
  if refused then IErr too_long else IOk (Some (from_body data)).
Definition recv_stop : nat := if refused then header_size prefix else length wire.

Lemma run_recv op self :
  recv_pending self op →
  ∃ r self', run_recv_operation prefix op self = (r, self') ∧
    ((r = recv_answer ∧ left_at recv_stop (source self')) ∨
     (r = IOk None ∧ (length (arrivals (source self')) < length (arrivals (source self)))%nat ∧
      ∃ op', recv_operation self' = Some op' ∧ recv_pending self' op')).
Proof.
  intros (st & c & -> & Hst & Hleft). assert (Hrank : (recv_rank st <= 2)%nat) by (destruct st; simpl; lia).
  destruct (recv_resume_at_ends 2 (mkRecvOperation None) st c _ Hst Hleft Hrank) as ([g op'] & src' & Hrun & _ & Hgot).
  unfold run_recv_operation. rewrite io_bind_run. unfold on_source, RecvOperation_run. cbn [recv_step].
  rewrite Hrun. unfold recv_answer, recv_stop. destruct g as [[m|]|e]; cbn in Hgot; rewrite io_bind_run; cbn.
  - destruct Hgot as (-> & -> & Hl). eexists _, _. split; [done|]. by left.
  - destruct Hgot as (Hlt & st' & c' & -> & Hst' & Hl). eexists _, _. split; [done|]. right.
    split; [done|]. split; [done|]. eexists. split; [done|]. by exists st', c'.
  - destruct Hgot as (-> & -> & Hl). eexists _, _. split; [done|]. by left.
Qed.

Lemma resume_recvs_run n op self :
  recv_operation self = Some op → recv_pending self op → (length (arrivals (source self)) < n)%nat →
  ∃ self', resume_recvs prefix n self = (recv_answer, self') ∧ left_at recv_stop (source self').
Proof.
  revert op self. induction n as [|n IH]; intros op self Hop Hpend Hn; [lia|].
  destruct (run_recv op (with_recv self None)) as (r & self' & Hrun & Hr).
  { destruct Hpend as (st & c & ?). by exists st, c. }
  cbn [resume_recvs]. rewrite io_bind_run. unfold resume_recv. rewrite io_bind_run.
  cbn [get_stub]. rewrite Hop, io_bind_run. cbn [set_recv]. rewrite Hrun.
  destruct Hr as [[-> Hl]|(-> & Hlt & op' & Hop' & Hpend')].
  - exists self'. split; [|done]. unfold recv_answer. by destruct refused.
  - apply (IH op'); [done|done|]. cbn [with_recv source] in Hlt. lia.
Qed.

(** A frame that has arrived, in any pieces, is received or refused. *)
Lemma recv_whole_run self :
  recv_max_size self = max → left_at 0 (source self) →
  ∃ self', recv_whole prefix (length (arrivals (source self))) self = (recv_answer, self') ∧
    left_at recv_stop (source self').
Proof.
  intros Hmax Hleft. destruct (run_recv (RecvOperation_new prefix max) self) as (r & self' & Hrun & Hr).
  { eexists _, 0%nat. split; [done|]. split; [|done]. split; [done|]. split; [done|].
    split; [by rewrite length_replicate|]. split; [done|]. unfold header_size. lia. }
  unfold recv_whole, start_recv. rewrite !io_bind_run. cbn [get_stub]. rewrite Hmax, Hrun.
  destruct Hr as [[-> Hl]|(-> & Hlt & op' & Hop' & Hpend')].
  - exists self'. split; [|done]. unfold recv_answer. by destruct refused.
  - by apply (resume_recvs_run _ op').
Qed.

Lemma stop_rest :
  drop recv_stop wire = if refused then data else [].
Proof.
  unfold recv_stop. destruct refused; [|apply drop_all].
  pose proof (wire_data 0) as Hd. by rewrite Nat.add_0_r, drop_0 in Hd.
Qed.

End receiver.

(** ** From one end to the other *)

Section round_trip.
Context `{ByteOrder} {pre : bytes} {takes : Message → Prop} {advance} {place : Message → SendOperationStep → nat → Prop}
  `{!Sends pre takes advance place}.

(** [out] sends [msg] whole, and a peer that gets these bytes receives [msg], or
    refuses it for its size. *)
Definition transfers (msg : Message) (out : PipeStub) : Prop :=
  ∃ wire out', send_whole advance (length (room (sink out))) msg out = (IOk true, out') ∧
    sent (sink out') = sent (sink out) ++ wire ∧ has_pending_send out' = false ∧
    ∀ inn more, mild (arrivals (source inn)) → pending_bytes (source inn) = wire ++ more →
      ∃ inn', recv_whole (length pre) (length (arrivals (source inn))) inn =
          (recv_answer msg (recv_max_size inn), inn') ∧
        pending_bytes (source inn') =
          (if refused msg (recv_max_size inn) then header msg ++ body msg else []) ++ more.

Lemma round_trip msg out :
  takes msg → has_pending_send out = false → mild (room (sink out)) →
  (length (frame pre msg) <= takers (room (sink out)))%nat → transfers msg out.
Proof.
  intros Hmsg Hidle Hm Htake. unfold has_pending_send in *. apply bool_decide_eq_false in Hidle.
  destruct (send_whole_run msg Hmsg out) as (out' & Hrun & Hsent & Hop); [by apply eq_None_not_Some|done..|].
  exists (frame pre msg), out'. split; [done|]. split; [done|]. split; [unfold has_pending_send; by rewrite Hop|].
  intros inn more Hmild Hpend.
  destruct (recv_whole_run pre msg (recv_max_size inn) more (sends_sendable _ Hmsg) inn) as (inn' & Hrun' & Hleft & _); [done|by split|].
  exists inn'. split; [done|]. by rewrite Hleft, stop_rest by by apply sends_sendable.
Qed.

End round_trip.

(** ** The promises of a stub, on any stream *)

Section stub.
Context `{ByteOrder} {pre : bytes} {takes : Message → Prop} {advance} {place : Message → SendOperationStep → nat → Prop}
  `{!Sends pre takes advance place}.
Let prefix := length pre.

#[local] Instance framed_stub : AsyncPipeStub PipeStub := {|
  stub_start_send := start_send advance;
  stub_resume_send := resume_send advance;
  stub_has_pending_send := has_pending_send;
  stub_start_recv := start_recv prefix;
  stub_resume_recv := resume_recv prefix;
  stub_has_pending_recv := has_pending_recv;
  stub_send_handshake pids := on_sink (send_and_check_handshake pids);
  stub_recv_handshake pids := on_source (recv_and_check_handshake pids)
|}.

(** What is pending can be resumed; the bound on what is received is set. *)
Definition recv_wf (max : Z) (st : RecvOperationStep) : Prop :=
  match st with
  | RHeader buffer read m => m = max ∧ length buffer = header_size prefix ∧ (read <= length buffer)%nat
  | RPayload buffer read => (read <= length buffer)%nat
  | RTerminal _ => False
  end.

Record framed_ok (self : PipeStub) : Prop := {
  ok_send : ∀ op, send_operation self = Some op → ∃ msg k, takes msg ∧ send_ready (place := place) msg k op;
  ok_recv : ∀ op, recv_operation self = Some op →
    ∃ st, op = mkRecvOperation (Some st) ∧ recv_wf (recv_max_size self) st;
  ok_max : 0 < recv_max_size self < 2 ^ 63
}.

Lemma framed_run_send msg k op self :
  takes msg → send_ready (place := place) msg k op → framed_ok self →
  ∃ r self', attempt (run_send_operation advance op) self = (IOk r, self') ∧ framed_ok self' ∧
    has_pending_recv self' = has_pending_recv self ∧
    has_pending_send self' = match r with Ok false => true | _ => has_pending_send self end.
Proof.
  intros Hmsg Hop [Hs Hr Hm]. destruct (run_send msg Hmsg k op self Hop) as (r & self' & Hrun & _ & Hrecv & Hmax & Hran).
  exists r, self'. split; [done|]. unfold has_pending_recv, has_pending_send. rewrite Hrecv.
  assert (Hsend : (send_operation self' = send_operation self ∧ r ≠ Ok false) ∨
    (r = Ok false ∧ ∃ op' k', send_operation self' = Some op' ∧ send_ready (place := place) msg k' op')).
  { destruct r as [[]|e].
    - destruct Hran as (k' & _ & _ & _ & ?). by left.
    - destruct Hran as (k' & _ & _ & _ & _ & op' & ? & ?). right. eauto.
    - left. by destruct Hran. }
  destruct Hsend as [[Hsend Hne]|(-> & op' & k' & Hsend & Hready)].
  - rewrite Hsend. split; [split; rewrite ?Hsend, ?Hrecv, ?Hmax; auto|]. split; [done|].
    by destruct r as [[]|].
  - split; [split; rewrite ?Hrecv, ?Hmax; auto|].
    + intros op2 Hop2. rewrite Hsend in Hop2. injection Hop2 as <-. eauto.
    + split; [done|]. by rewrite Hsend.
Qed.

(** A step of the receiver on any source: it fails, ends, or goes on. *)
Definition recv_safe (max : Z) (st : RecvOperationStep) (r : result (bool * RecvOperationStep)) : Prop :=
  match r with
  | Err _ => True
  | Ok (true, RTerminal _) => True
  | Ok (passed, st') => recv_wf max st' ∧ (passed = true → (recv_rank st' < recv_rank st)%nat)
  end.

Lemma read_any n src :
  ∃ r src', attempt (read_buffer n) src = (IOk r, src') ∧
    match r with Ok got => (length got <= n)%nat | Err _ => True end.
Proof.
  unfold attempt, read_buffer. rewrite io_bind_run. unfold attempt, source_read.
  destruct src as [[|[bs|e] l]]; cbn [arrivals].
  - by exists (Ok []), (mkSource []); split; [|simpl; lia].
  - case_bool_decide; eexists (Ok _), _; (split; [done|]); [done|]. rewrite length_take. lia.
  - cbn. destruct (would_block e); [eexists (Ok []), _|eexists (Err _), _]; (split; [done|]); simpl; [lia|done].
Qed.

Lemma fill_length buf read got :
  (read + length got <= length buf)%nat → length (fill buf read got) = length buf.
Proof. intros Hle. unfold fill. rewrite !length_app, length_take, length_drop. lia. Qed.

Lemma recv_step_safe max st src :
  0 < max < 2 ^ 63 → recv_wf max st →
  ∃ r src', attempt (recv_advance prefix st) src = (IOk r, src') ∧ recv_safe max st r.
Proof.
  intros Hmax Hst. unfold attempt. destruct st as [buf read m|buf read|]; [| |done]; cbn [recv_advance].
  - destruct Hst as (-> & Hlen & Hread). unfold read_header. rewrite io_bind_run, slice_from_run by lia.
    destruct (read_any (length (drop read buf)) src) as ([got|e] & src' & Hrun%attempt_ok & Hgot); rewrite io_bind_run, Hrun;
      [|by exists (Err e), src'].
    rewrite length_drop in Hgot. case_bool_decide as Hfull.
    + rewrite bool_decide_true by lia. case_bool_decide as Hbig; cbn [andb]; [by eexists (Err _), src'|].
      rewrite io_bind_run. unfold vec_zeroed. rewrite bool_decide_true by lia.
      eexists (Ok _), src'. split; [done|]. cbn. split; [lia|intros _; lia].
    + eexists (Ok _), src'. split; [done|]. cbn. rewrite fill_length by lia. split; [|done].
      split; [done|]. split; [done|lia].
  - unfold read_payload. cbn in Hst. rewrite io_bind_run, slice_from_run by lia.
    destruct (read_any (length (drop read buf)) src) as ([got|e] & src' & Hrun%attempt_ok & Hgot); rewrite io_bind_run, Hrun;
      [|by exists (Err e), src'].
    rewrite length_drop in Hgot. case_bool_decide as Hfull; eexists (Ok _), src'; (split; [done|]); cbn; [done|].
    rewrite fill_length by lia. split; [lia|done].
Qed.

Lemma recv_run_safe max fuel op st src :
  0 < max < 2 ^ 63 → recv_wf max st → (recv_rank st <= fuel)%nat →
  ∃ r src', recv_resume_at prefix fuel op st src = (IOk r, src') ∧
    match r.1 with
    | Ok None => ∃ st', r.2 = mkRecvOperation (Some st') ∧ recv_wf max st'
    | _ => True
    end.
Proof.
  intros Hmax. revert st src. induction fuel as [|fuel IH]; intros st src Hst Hf.
  { destruct st; simpl in *; lia || done. }
  destruct (recv_step_safe max st src Hmax Hst) as ([[[] st']|e] & src' & Hrun & Hsafe);
    cbn [recv_resume_at]; rewrite io_bind_run, Hrun; cbn [negb].
  - destruct st' as [b rd m|b rd|m]; cbn in Hsafe; [| |by eexists _, src'].
    + destruct Hsafe as [Hwf Hrank]. apply IH; [done|]. simpl. specialize (Hrank eq_refl). lia.
    + destruct Hsafe as [Hwf Hrank]. apply IH; [done|]. simpl. specialize (Hrank eq_refl). lia.
  - eexists _, src'. split; [done|]. exists st'. by destruct st', Hsafe.
  - by eexists _, src'.
Qed.

Lemma framed_run_recv st self :
  recv_wf (recv_max_size self) st → framed_ok self →
  ∃ r self', attempt (run_recv_operation prefix (mkRecvOperation (Some st))) self = (IOk r, self') ∧ framed_ok self' ∧
    has_pending_send self' = has_pending_send self ∧
    has_pending_recv self' = match r with Ok None => true | _ => has_pending_recv self end.
Proof.
  intros Hst [Hs Hr Hm]. assert (Hrank : (recv_rank st <= 2)%nat) by (destruct st; simpl; lia).
  destruct (recv_run_safe _ 2 (mkRecvOperation None) st (source self) Hm Hst Hrank) as ([g op'] & src' & Hrun & Hg).
  unfold attempt, run_recv_operation. rewrite io_bind_run. unfold on_source, RecvOperation_run. cbn [recv_step].
  rewrite Hrun. cbn [fst snd] in *. rewrite io_bind_run. destruct g as [[m|]|e]; cbn.
  - by exists (Ok (Some m)), (with_source self src').
  - destruct Hg as (st' & -> & Hwf). eexists (Ok None), _. split; [done|]. split; [|done].
    split; [done| |done]. intros op [= <-]. eauto.
  - by exists (Err e), (with_source self src').
Qed.

Lemma framed_drop_send self : framed_ok self → framed_ok (with_send self None).
Proof. by intros [Hs Hr Hm]. Qed.

Lemma framed_drop_recv self : framed_ok self → framed_ok (with_recv self None).
Proof. by intros [Hs Hr Hm]. Qed.

Lemma handshake_send_runs pids s :
  ∃ r s', attempt (send_and_check_handshake pids) s = (IOk r, s').
Proof.
  destruct pids as [p q]. unfold attempt, send_and_check_handshake, sink_write. rewrite io_bind_run.
  destruct s as [[|[n|e] l] sn]; cbn [room sent]; [by eexists (Err _), _| |by eexists (Err _), _].
  case_bool_decide; [by eexists (Ok _), _|by eexists (Err _), _].
Qed.

Lemma handshake_recv_runs pids s :
  ∃ r s', attempt (recv_and_check_handshake pids) s = (IOk r, s').
Proof.
  destruct pids as [p q]. unfold attempt, recv_and_check_handshake, check_handshake, source_read. rewrite io_bind_run.
  destruct s as [[|[n|e] l]]; cbn [arrivals]; [by eexists (Err _), _| |by eexists (Err _), _].
  case_bool_decide; case_bool_decide; (by eexists (Ok _), _) || (by eexists (Err _), _).
Qed.

Lemma framed_stub_laws : StubLaws PipeStub takes framed_ok.
Proof.
  split; cbn.
  - intros msg self Hmsg Hok. apply (framed_run_send msg 0); [done| |done]. eexists. split; [done|apply sends_new].
  - intros self Hok Hpend. unfold has_pending_send in Hpend. apply bool_decide_eq_true in Hpend as [op Hop].
    destruct (ok_send self Hok op Hop) as (msg & k & Hmsg & Hready).
    destruct (framed_run_send msg k op _ Hmsg Hready (framed_drop_send self Hok)) as (r & self' & Hrun & Hok' & Hr & Hs).
    exists r, self'. unfold attempt, resume_send in *. rewrite io_bind_run. cbn [get_stub]. rewrite Hop.
    by rewrite io_bind_run.
  - intros self Hok. unfold start_recv, attempt. rewrite io_bind_run. cbn [get_stub].
    apply framed_run_recv; [|done]. split; [done|]. split; [by rewrite length_replicate|lia].
  - intros self Hok Hpend. unfold has_pending_recv in Hpend. apply bool_decide_eq_true in Hpend as [op Hop].
    destruct (ok_recv self Hok op Hop) as (st & -> & Hwf).
    destruct (framed_run_recv st (with_recv self None) Hwf (framed_drop_recv self Hok)) as (r & self' & Hrun & Hok' & Hs & Hr).
    exists r, self'. unfold attempt, resume_recv in *. rewrite io_bind_run. cbn [get_stub]. rewrite Hop.
    by rewrite io_bind_run.
  - intros pids self Hok. destruct (handshake_send_runs pids (sink self)) as (r & s' & Hrun%attempt_ok).
    unfold attempt, on_sink. rewrite Hrun. destruct Hok. exists r, (with_sink self s'). by destruct r.
  - intros pids self Hok. destruct (handshake_recv_runs pids (source self)) as (r & s' & Hrun%attempt_ok).
    unfold attempt, on_source. rewrite Hrun. destruct Hok. exists r, (with_source self s'). by destruct r.
Qed.

Lemma framed_new stream max : 0 < max < 2 ^ 63 → framed_ok (PipeStub_new stream max).
Proof. by split. Qed.

End stub.
