(* ===== verification/Tcp.v ===== *)
(** * The TCP transport (src/transport/tcp)

    A step writes all that is left of the message with one vectored write, and
    finds out from what was taken where it is.  The operations and the stub are
    those of [Framing], without a prefix.

    The buffers of a vectored write are converted to the slices of the iovec crate,
    which do not exist for empty buffers.  The first step avoids them; the second
    does not, so that a message which has a header and no body cannot be resumed
    inside its header ([tcp_empty_body_panics]).  [takes] excludes it from the
    promises of the stub. *)

From S2P Require Import Prelude Core Codec Stream Framing.

(** [<&IoVec>::from] of the iovec crate, on the bytes of a slice: the bytes of the
    [IoVec], or a panic.  An [IoVec] is not empty. *)
Class IoVec : Type := {
  io_vec : bytes → option bytes;
  io_vec_some : ∀ b, b ≠ [] → io_vec b = Some b;
  io_vec_empty : io_vec [] = None
}.

Section tcp.
Context `{ByteOrder} `{HV : IoVec}.

(** [x.into()], of each of the slices. *)
Definition into {S} (slice : bytes) : IO S bytes := λ s,
  match io_vec slice with Some v => (IOk v, s) | None => (IPanic, s) end.
Fixpoint into_all {S} (slices : list bytes) : IO S (list bytes) :=
  match slices with
  | [] => mret []
  | slice :: rest => v ← into slice; vs ← into_all rest; mret (v :: vs)
  end.

Definition flatten_would_block (r : result nat) : IO Sink nat :=
  match r with
  | Ok x => mret x
  | Err e => if would_block e then mret 0%nat else fail e
  end.

Definition write_buffer (buffer : bytes) : IO Sink nat :=
  attempt (sink_write buffer) ≫= flatten_would_block.

(** [let buffers = &\[..into(), ..\]; write_buffers(stream, buffers)] *)
Definition write_buffers (slices : list bytes) : IO Sink nat :=
  buffers ← into_all slices;
  attempt (sink_write_bufs buffers) ≫= flatten_would_block.

Definition write_transport_hdr (msg : Message) (written : nat) : IO Sink (bool * SendOperationStep) :=
  let buffer := be_write_u64 (Message_len msg) in
  transport_hdr ← (if bool_decide (written = 0%nat) then mret buffer else slice_from written buffer);
  let proto_hdr := get_header msg in
  let payload := get_body msg in
  x ← (if bool_decide (length proto_hdr = 0%nat) then
         if bool_decide (length payload = 0%nat) then write_buffer transport_hdr
         else write_buffers [transport_hdr; payload]
       else
         if bool_decide (length payload = 0%nat) then write_buffers [transport_hdr; proto_hdr]
         else write_buffers [transport_hdr; proto_hdr; payload]);
  let written := (written + x)%nat in
  let transport_limit := 8%nat in
  let proto_hdr_limit := (transport_limit + length (get_header msg))%nat in
  let payload_limit := (proto_hdr_limit + length (get_body msg))%nat in
  mret (if bool_decide (written < transport_limit)%nat then (false, TransportHdr msg written)
        else if bool_decide (written < proto_hdr_limit)%nat
        then (false, ProtocolHdr msg (written - transport_limit))
        else if bool_decide (written < payload_limit)%nat
        then (false, UsrPayload msg (written - proto_hdr_limit))
        else (true, STerminal)).

Definition write_protocol_hdr (msg : Message) (written : nat) : IO Sink (bool * SendOperationStep) :=
  let payload := get_body msg in
  proto_hdr ← (if bool_decide (written = 0%nat) then mret (get_header msg)
               else slice_from written (get_header msg));
  x ← write_buffers [proto_hdr; payload];
  let written := (written + x)%nat in
  let proto_hdr_limit := length (get_header msg) in
  let payload_limit := (proto_hdr_limit + length (get_body msg))%nat in
  mret (if bool_decide (written < proto_hdr_limit)%nat then (false, ProtocolHdr msg written)
        else if bool_decide (written < payload_limit)%nat
        then (false, UsrPayload msg (written - proto_hdr_limit))
        else (true, STerminal)).

Definition write_usr_payload (msg : Message) (written : nat) : IO Sink (bool * SendOperationStep) :=
  payload ← (if bool_decide (written = 0%nat) then mret (get_body msg)
             else slice_from written (get_body msg));
  x ← write_buffer payload;
  let written := (written + x)%nat in
  let payload_limit := length (get_body msg) in
  mret (if bool_decide (written < payload_limit)%nat then (false, UsrPayload msg written)
        else (true, STerminal)).

Definition advance (self : SendOperationStep) : IO Sink (bool * SendOperationStep) :=
  match self with
  | TransportHdr msg written => write_transport_hdr msg written
  | ProtocolHdr msg written => write_protocol_hdr msg written
  | UsrPayload msg written => write_usr_payload msg written
  | STerminal => fail (other_io_error "Cannot advance terminal step of send operation")
  end.

(** Where a step is in the frame. *)
Definition place (msg : Message) (st : SendOperationStep) (k : nat) : Prop :=
  match st with
  | TransportHdr m written => m = msg ∧ k = written ∧ (written < 8)%nat
  | ProtocolHdr m written => m = msg ∧ k = (8 + written)%nat ∧ (written < length (header msg))%nat
  | UsrPayload m written => m = msg ∧ k = (8 + length (header msg) + written)%nat ∧
      (written < length (body msg))%nat
  | STerminal => False
  end.

(** The messages that the steps can carry: those with a header and no body panic
    when they are cut inside the header. *)
Definition takes (msg : Message) : Prop := sendable msg ∧ (body msg = [] → header msg = []).

(** Slices that are not empty are all converted; one that is, is a panic. *)
Lemma into_all_run {S} slices (s : S) :
  Forall (λ b, b ≠ []) slices → into_all slices s = (IOk slices, s).
Proof.
  induction 1 as [|b l Hb Hl IH]; [done|]. cbn [into_all]. unfold into at 1.
  by rewrite io_bind_run, (io_vec_some b Hb), io_bind_run, IH.
Qed.

Lemma into_all_panics {S} b (s : S) : into_all [b; []] s = (IPanic, s).
Proof.
  cbn [into_all]. unfold into. rewrite io_bind_run. destruct (io_vec b); [|done].
  by rewrite io_bind_run, io_bind_run, io_vec_empty.
Qed.

Lemma write_buffers_run slices s :
  Forall (λ b, b ≠ []) slices →
  write_buffers slices s = (attempt (sink_write (concat slices)) ≫= flatten_would_block) s.
Proof. intros Hs. unfold write_buffers. by rewrite io_bind_run, into_all_run. Qed.

(** What is left of a part that is not done. *)
Lemma rest_not_nil (w : nat) (part : bytes) : (w < length part)%nat → drop w part ≠ [].
Proof. intros Hw Hnil%(f_equal length). rewrite length_drop in Hnil. simpl in Hnil. lia. Qed.

(** One flattened write of the rest of the frame. *)
Lemma write_rest k msg s :
  (k < length (frame [] msg))%nat →
  ∃ r s', attempt (attempt (sink_write (drop k (frame [] msg))) ≫= flatten_would_block) s = (IOk r, s') ∧
    match r with
    | Ok x => (k + x <= length (frame [] msg))%nat ∧ took s (slice k (k + x) (frame [] msg)) s' ∧ waited s s'
    | Err _ => ¬ mild (room s)
    end.
Proof.
  intros Hk. destruct (attempt_write (drop k (frame [] msg)) s) as (r & s' & Hrun & Hw & Hr).
  { by apply rest_not_nil. }
  unfold attempt at 1. rewrite io_bind_run, Hrun. unfold slice. rewrite length_drop in Hr. destruct r as [x|e].
  - destruct Hr as [Hx Ht]. exists (Ok x), s'. split; [done|]. split; [lia|]. split; [|done].
    by replace (k + x - k)%nat with x by lia.
  - destruct Hr as [He Ht]. unfold flatten_would_block. destruct (would_block e) eqn:Hwb.
    + exists (Ok 0%nat), s'. split; [done|]. split; [lia|]. split; [|done]. by rewrite Nat.add_0_r, Nat.sub_diag.
    + exists (Err e), s'. split; [done|]. intros Hm%He. congruence.
Qed.

(** Where a write that left [k'] bytes sent puts the operation. *)
Definition next_step (msg : Message) (k' : nat) : bool * SendOperationStep :=
  if bool_decide (k' < 8)%nat then (false, TransportHdr msg k')
  else if bool_decide (k' < 8 + length (header msg))%nat then (false, ProtocolHdr msg (k' - 8))
  else if bool_decide (k' < 8 + length (header msg) + length (body msg))%nat
  then (false, UsrPayload msg (k' - (8 + length (header msg))))
  else (true, STerminal).

Lemma next_step_advanced msg st k x s s' :
  sendable msg → (k + x <= length (frame [] msg))%nat →
  took s (slice k (k + x) (frame [] msg)) s' → waited s s' →
  advanced (frame [] msg) place msg st k s (Ok (next_step msg (k + x))) s'.
Proof.
  intros Hmsg Hk Ht Hw. unfold advanced. pose proof (frame_length [] msg Hmsg) as Hlen. cbn [length] in Hlen.
  destruct (next_step msg (k + x)) as [passed st'] eqn:Hn. exists (k + x)%nat. split; [lia|]. split; [done|].
  rewrite Hlen in *. unfold next_step in Hn. repeat case_bool_decide; injection Hn as <- <-;
    cbn [is_terminal place]; repeat split; done || lia.
Qed.

Lemma next_step_hdr msg w :
  next_step msg (8 + w) =
  if bool_decide (w < length (header msg))%nat then (false, ProtocolHdr msg w)
  else if bool_decide (w < length (header msg) + length (body msg))%nat
  then (false, UsrPayload msg (w - length (header msg)))
  else (true, STerminal).
Proof. unfold next_step. repeat case_bool_decide; try lia; repeat f_equal; lia. Qed.

Lemma next_step_payload msg w :
  next_step msg (8 + length (header msg) + w) =
  if bool_decide (w < length (body msg))%nat then (false, UsrPayload msg w) else (true, STerminal).
Proof.
  rewrite <- Nat.add_assoc, next_step_hdr. repeat case_bool_decide; try lia; repeat f_equal; lia.
Qed.

Lemma write_transport_hdr_eq msg written s :
  sendable msg → (written < 8)%nat →
  write_transport_hdr msg written s =
  (x ← attempt (sink_write (drop written (frame [] msg))) ≫= flatten_would_block;
   mret (next_step msg (written + x))) s.
Proof.
  intros Hmsg Hw. pose proof (write_u64_length _ (sendable_fits _ Hmsg)) as Hlen. unfold write_transport_hdr.
  rewrite io_bind_run.
  assert (Hhdr : (if bool_decide (written = 0%nat) then mret (be_write_u64 (Message_len msg))
    else slice_from written (be_write_u64 (Message_len msg))) s =
    (IOk (drop written (be_write_u64 (Message_len msg))), s)).
  { case_bool_decide as H0; [by subst written|]. apply slice_from_run. lia. }
  rewrite Hhdr. unfold frame. cbn [app]. rewrite drop_app_le by lia.
  assert (Hwr : (if bool_decide (length (get_header msg) = 0%nat) then
         if bool_decide (length (get_body msg) = 0%nat)
         then write_buffer (drop written (be_write_u64 (Message_len msg)))
         else write_buffers [drop written (be_write_u64 (Message_len msg)); get_body msg]
       else
         if bool_decide (length (get_body msg) = 0%nat)
         then write_buffers [drop written (be_write_u64 (Message_len msg)); get_header msg]
         else write_buffers [drop written (be_write_u64 (Message_len msg)); get_header msg; get_body msg]) s =
    (attempt (sink_write (drop written (be_write_u64 (Message_len msg)) ++ header msg ++ body msg)) ≫= flatten_would_block) s).
  { assert (Hrest : drop written (be_write_u64 (Message_len msg)) ≠ []) by (apply rest_not_nil; lia).
    assert (Hnil : ∀ b : bytes, length b = 0%nat → b = []) by apply nil_length_inv.
    unfold get_header, get_body. clear Hhdr. case_bool_decide as Hh; case_bool_decide as Hb;
      [rewrite (Hnil _ Hh), (Hnil _ Hb)|rewrite (Hnil _ Hh)|rewrite (Hnil _ Hb)|];
      [by rewrite app_nil_r| | |]; rewrite write_buffers_run; cbn [concat app]; rewrite ?app_nil_r; try done;
      repeat constructor; try done; intros Hn; by rewrite Hn in *. }
  cbv zeta. rewrite io_bind_run, Hwr, (io_bind_run (attempt _ ≫= _)). done.
Qed.

Lemma write_protocol_hdr_eq msg written s :
  takes msg → (written < length (header msg))%nat →
  write_protocol_hdr msg written s =
  (x ← attempt (sink_write (drop (8 + written) (frame [] msg))) ≫= flatten_would_block;
   mret (next_step msg (8 + written + x))) s.
Proof.
  intros [Hmsg Hbody] Hw. pose proof (write_u64_length _ (sendable_fits _ Hmsg)) as Hlen. unfold write_protocol_hdr, get_header, get_body.
  rewrite io_bind_run.
  assert (Hhdr : (if bool_decide (written = 0%nat) then mret (header msg)
    else slice_from written (header msg)) s = (IOk (drop written (header msg)), s)).
  { case_bool_decide as H0; [by subst written|]. apply slice_from_run. lia. }
  rewrite Hhdr. unfold frame. cbn [app]. rewrite drop_app_ge, Hlen by lia.
  replace (8 + written - 8)%nat with written by lia. rewrite drop_app_le by lia.
  assert (Hparts : Forall (λ b, b ≠ []) [drop written (header msg); body msg]).
  { constructor; [by apply rest_not_nil|]. constructor; [|done]. intros Hnil%Hbody. rewrite Hnil in Hw. simpl in Hw. lia. }
  rewrite io_bind_run, (write_buffers_run _ _ Hparts). cbn [concat]. rewrite app_nil_r, (io_bind_run (_ ≫= _)).
  destruct ((attempt (sink_write (drop written (header msg) ++ body msg)) ≫= flatten_would_block) s) as [[x|e|] s'];
    try done. by rewrite <- Nat.add_assoc, next_step_hdr.
Qed.

Lemma write_usr_payload_eq msg written s :
  sendable msg → (written < length (body msg))%nat →
  write_usr_payload msg written s =
  (x ← attempt (sink_write (drop (8 + length (header msg) + written) (frame [] msg))) ≫= flatten_would_block;
   mret (next_step msg (8 + length (header msg) + written + x))) s.
Proof.
  intros Hmsg Hw. pose proof (write_u64_length _ (sendable_fits _ Hmsg)) as Hlen.
  unfold write_usr_payload, get_body. rewrite io_bind_run.
  assert (Hhdr : (if bool_decide (written = 0%nat) then mret (body msg)
    else slice_from written (body msg)) s = (IOk (drop written (body msg)), s)).
  { case_bool_decide as H0; [by subst written|]. apply slice_from_run. lia. }
  rewrite Hhdr. unfold frame. cbn [app]. rewrite app_assoc, drop_app_ge by (rewrite length_app; lia).
  rewrite length_app, Hlen. replace (8 + length (header msg) + written - _)%nat with written by lia.
  unfold write_buffer. rewrite !(io_bind_run (_ ≫= _)).
  destruct ((attempt (sink_write (drop written (body msg))) ≫= flatten_would_block) s) as [[x|e|] s'];
    try done. by rewrite <- Nat.add_assoc, next_step_payload.
Qed.

(** Every step is one write of what is left. *)
Lemma advance_eq msg st k s :
  takes msg → place msg st k →
  advance st s =
  (x ← attempt (sink_write (drop k (frame [] msg))) ≫= flatten_would_block;
   mret (next_step msg (k + x))) s.
Proof.
  intros Hmsg Hpl. destruct st as [m w|m w|m w|]; [| | |done]; destruct Hpl as (-> & -> & Hw); cbn [advance].
  - apply write_transport_hdr_eq; [apply Hmsg|done].
  - by apply write_protocol_hdr_eq.
  - apply write_usr_payload_eq; [apply Hmsg|done].
Qed.

#[export] Instance tcp_sends : Sends [] takes advance place.
Proof.
  split.
  - by intros msg [? _].
  - intros msg. repeat split. lia.
  - intros msg [] k; simpl; lia.
  - intros msg st k s Hmsg Hpl.
    assert (Hk : (k < length (frame [] msg))%nat).
    { rewrite frame_length by apply Hmsg. destruct st; [| | |done]; destruct Hpl as (-> & -> & Hw); simpl; lia. }
    destruct (write_rest k msg s Hk) as (r & s' & Hrun & Hr).
    unfold attempt at 1 in Hrun. unfold attempt at 1. rewrite (advance_eq msg st k s Hmsg Hpl), io_bind_run.
    destruct ((attempt (sink_write (drop k (frame [] msg))) ≫= flatten_would_block) s) as [[x|e|] s2];
      [|by injection Hrun as <- <-; exists (Err e), s2|done].
    injection Hrun as <- <-. destruct Hr as (Hx & Ht & Hw). exists (Ok (next_step msg (k + x))), s2.
    split; [done|]. apply next_step_advanced; [apply Hmsg|done..].
Qed.

(** ** The stub *)

Definition TcpPipeStub_start_send : Message → IO PipeStub bool := start_send advance.
Definition TcpPipeStub_resume_send : IO PipeStub bool := resume_send advance.
Definition TcpPipeStub_start_recv : IO PipeStub (option Message) := start_recv 0.
Definition TcpPipeStub_resume_recv : IO PipeStub (option Message) := resume_recv 0.

(** The stub as the pipes use it, and what it promises them. *)
Definition TcpPipeStub_stub : AsyncPipeStub PipeStub := framed_stub (pre := []) (advance := advance).

Lemma tcp_stub_laws : StubLaws PipeStub (H := TcpPipeStub_stub) takes (framed_ok (pre := []) (takes := takes) (place := place)).
Proof. apply framed_stub_laws. Qed.

(** C19: However the network cuts the frame on the way out and on the way in, a
    message started and then resumed until it is done is put on the stream once,
    whole and with nothing else, unless it has a header and no body (see
    [tcp_resume_panics]), and the peer that reads this receives the header
    and the body of the message as one body and leaves the bytes that follow; or,
    when the message is longer than the peer's bound, refuses it after the eight
    bytes of the length.  The loops end for every such cutting. *)
Theorem tcp_round_trip msg out :
  sendable msg → (body msg = [] → header msg = []) → has_pending_send out = false → mild (room (sink out)) →
  (length (frame [] msg) <= takers (room (sink out)))%nat →
  transfers (pre := []) (advance := advance) msg out.
Proof. intros Hmsg Hbody. apply round_trip. by split. Qed.

(** A message with a header and no body, of which the stream takes the length and
    a part of the header: the rest is pending, and resuming it panics whatever the
    stream answers then, the empty body being converted to an [IoVec]. *)
Lemma tcp_resume_panics msg k out more :
  sendable msg → body msg = [] → (8 <= k < 8 + length (header msg))%nat → room (sink out) = Ok k :: more →
  ∃ out', start_send advance msg out = (IOk false, out') ∧
    sent (sink out') = sent (sink out) ++ take k (frame [] msg) ∧
    source out' = source out ∧ has_pending_send out' = true ∧ has_pending_recv out' = has_pending_recv out ∧
    ∀ s, (resume_send advance (with_sink out' s)).1 = IPanic.
Proof.
  intros Hmsg Hnil Hk Hroom. pose proof (frame_length [] msg Hmsg) as Hlen. rewrite Hnil in Hlen. cbn [length] in Hlen.
  set (op := mkSendOperation (Some (ProtocolHdr msg (k - 8)))).
  assert (Hadv : advance (TransportHdr msg 0) (sink out) =
    (IOk (false, ProtocolHdr msg (k - 8)), mkSink more (sent (sink out) ++ take k (frame [] msg)))).
  { cbn [advance]. rewrite write_transport_hdr_eq by (done || lia). rewrite drop_0, io_bind_run, io_bind_run.
    unfold attempt, sink_write. rewrite Hroom, Nat.min_l by lia. cbn [flatten_would_block].
    unfold mret, IO_ret. rewrite Nat.add_0_l. unfold next_step. by rewrite bool_decide_false, bool_decide_true by lia. }
  exists (with_send (with_sink out (mkSink more (sent (sink out) ++ take k (frame [] msg)))) (Some op)).
  split; [|repeat (split; [done|])].
  - unfold start_send, run_send_operation. rewrite io_bind_run. unfold on_sink, SendOperation_run. cbn [SendOperation_new send_step].
    cbn [resume_at]. rewrite io_bind_run. unfold attempt. by rewrite Hadv.
  - intros s. unfold resume_send. rewrite io_bind_run. cbn [get_stub with_sink with_send send_operation]. rewrite io_bind_run.
    cbn [set_send]. unfold run_send_operation. rewrite io_bind_run. unfold on_sink, SendOperation_run. cbn [op send_step resume_at].
    rewrite io_bind_run. unfold attempt. cbn [advance sink with_send with_sink].
    assert (Hpanic : write_protocol_hdr msg (k - 8) s = (IPanic, s)); [|by rewrite Hpanic].
    unfold write_protocol_hdr, get_header, get_body, write_buffers. rewrite Hnil, io_bind_run.
    assert (Hhdr : (if bool_decide (k - 8 = 0)%nat then mret (header msg)
      else slice_from (k - 8) (header msg)) s = (IOk (drop (k - 8) (header msg)), s)).
    { case_bool_decide as Hz; [by rewrite Hz|]. apply slice_from_run. lia. }
    by rewrite Hhdr, !io_bind_run, into_all_panics.
Qed.

End tcp.

(** A conversion that satisfies the laws. *)
Definition ref_io_vec (b : bytes) : option bytes :=
  match b with [] => None | _ :: _ => Some b end.
#[program] Definition iovec_ref : IoVec := {| io_vec := ref_io_vec |}.
Next Obligation. by destruct b. Qed.
Next Obligation. done. Qed.

Lemma tcp_round_trip_witness :
  let msg := mkMessage [1; 2] [3] in
  let room := Ok 3%nat :: Err no_more :: replicate 12 (Ok 1%nat) in
  let out := PipeStub_new (mkSink room [], mkSource []) 0 in
  has_pending_send out = false ∧
  transfers (H := be_ref) (pre := []) (advance := advance (H := be_ref) (HV := iovec_ref)) msg out.
Proof.
  split; [done|]. apply (tcp_round_trip (H := be_ref) (HV := iovec_ref)); [by vm_compute|done|done| |vm_compute; lia].
  intros e He. cbn in He. set_unfold in He. naive_solver.
Defined.
