(* ===== verification/Ipc.v ===== *)
(** * The IPC transport (src/transport/ipc)

    The parts of a message are written one after the other.  The operations and
    the stub are those of [Framing], with a prefix of one byte. *)

From S2P Require Import Prelude Core Codec Stream Framing.

(** What a frame starts with: [\[1u8; 9\]] before the length is written. *)
Definition ipc_prefix : bytes := [1].

Section ipc.
Context `{ByteOrder}.

Definition write_transport_hdr (msg : Message) (written : nat) : IO Sink (bool * SendOperationStep) :=
  let msg_len := Message_len msg in
  let buffer := 1 :: be_write_u64 msg_len in
  '(sent, written) ← write_buffer buffer written;
  if (sent : bool) then mret (true, ProtocolHdr msg 0)
  else mret (false, TransportHdr msg written).

Definition write_protocol_hdr (msg : Message) (written : nat) : IO Sink (bool * SendOperationStep) :=
  if bool_decide (length (get_header msg) = 0%nat) then mret (true, UsrPayload msg 0)
  else
    '(sent, written) ← write_buffer (get_header msg) written;
    if (sent : bool) then mret (true, UsrPayload msg 0)
    else mret (false, ProtocolHdr msg written).

Definition write_usr_payload (msg : Message) (written : nat) : IO Sink (bool * SendOperationStep) :=
  if bool_decide (length (get_body msg) = 0%nat) then mret (true, STerminal)
  else
    '(sent, written) ← write_buffer (get_body msg) written;
    if (sent : bool) then mret (true, STerminal)
    else mret (false, UsrPayload msg written).

Definition advance (self : SendOperationStep) : IO Sink (bool * SendOperationStep) :=
  match self with
  | TransportHdr msg written => write_transport_hdr msg written
  | ProtocolHdr msg written => write_protocol_hdr msg written
  | UsrPayload msg written => write_usr_payload msg written
  | STerminal => fail (other_io_error "Cannot advance terminal step of send operation")
  end.

(** [written] bytes of a part are sent, not all unless it is empty. *)
Definition within (written : nat) (part : bytes) : Prop :=
  (written < length part)%nat ∨ (written = 0%nat ∧ part = []).

(** Where a step is in the frame. *)
Definition place (msg : Message) (st : SendOperationStep) (k : nat) : Prop :=
  match st with
  | TransportHdr m written => m = msg ∧ k = written ∧ (written < 9)%nat
  | ProtocolHdr m written => m = msg ∧ k = (9 + written)%nat ∧ within written (header msg)
  | UsrPayload m written => m = msg ∧ k = (9 + length (header msg) + written)%nat ∧ within written (body msg)
  | STerminal => False
  end.

Lemma within_start part : within 0 part.
Proof. destruct part; [by right|left; simpl; lia]. Qed.

Lemma within_le w part : within w part → (w <= length part)%nat.
Proof. intros [?|[-> ->]]; simpl; lia. Qed.

(** Writing a part [part] of the frame, that starts after [before]: it is done and
    [yes] is next, or it is [no] that is left. *)
Lemma write_part msg before part after w yes no s :
  frame ipc_prefix msg = before ++ part ++ after → (w < length part)%nat →
  (if is_terminal yes then after = [] else place msg yes (length (before ++ part))) →
  (∀ w', within w' part → place msg (no w') (length before + w') ∧ is_terminal (no w') = false) →
  (∀ w', send_rank yes < send_rank (no w'))%nat →
  ∃ r s',
    attempt ('(sent, written) ← write_buffer part w;
     if (sent : bool) then mret (true, yes) else mret (false, no written)) s = (IOk r, s') ∧
    advanced (frame ipc_prefix msg) place msg (no w) (length before + w) s r s'.
Proof.
  intros Hframe Hw Hyes Hno Hrank. destruct (write_buffer_run part w s Hw) as (r & s' & Hrun%attempt_ok & Hr).
  unfold attempt. rewrite io_bind_run, Hrun. destruct r as [[sent w']|e]; [|by exists (Err e), s'].
  destruct Hr as (-> & Hw' & Ht & Hwait).
  assert (Hslice : slice (length before + w) (length before + w') (frame ipc_prefix msg) = take (w' - w) (drop w part)).
  { rewrite Hframe. unfold slice. rewrite drop_app_ge by lia.
    replace (length before + w - length before)%nat with w by lia.
    rewrite drop_app_le, take_app_le by (rewrite ?length_drop; lia). f_equal. lia. }
  assert (Hsize : length (frame ipc_prefix msg) = (length before + length part + length after)%nat).
  { rewrite Hframe, !length_app. lia. }
  case_bool_decide as Hdone; (eexists _, s'; split; [done|]); exists (length before + w')%nat;
    (split; [lia|]); rewrite Hslice; (split; [done|]).
  - subst w'. rewrite length_app in Hyes. destruct (is_terminal yes); [subst after; simpl in *; lia|]. by split.
  - destruct (Hno w') as [Hpl ->]; [by left; lia|]. split; [done|]. split; [lia|done].
Qed.

(** A part that is empty passes without a write. *)
Lemma pass_part msg k st yes s :
  (k <= length (frame ipc_prefix msg))%nat →
  (if is_terminal yes then k = length (frame ipc_prefix msg) else place msg yes k) →
  (send_rank yes < send_rank st)%nat →
  ∃ r s', attempt (mret (true, yes) : IO Sink _) s = (IOk r, s') ∧
    advanced (frame ipc_prefix msg) place msg st k s r s'.
Proof.
  intros Hk Hyes Hrank. exists (Ok (true, yes)), s. split; [done|]. exists k. split; [lia|]. split.
  - unfold slice. rewrite Nat.sub_diag. by apply took_nothing.
  - destruct (is_terminal yes); [done|by split].
Qed.

(** The first part of a frame. *)
Definition transport_hdr (msg : Message) : bytes := 1 :: be_write_u64 (Message_len msg).

Lemma transport_hdr_length msg : sendable msg → length (transport_hdr msg) = 9%nat.
Proof. intros Hmsg%sendable_fits. simpl. by rewrite write_u64_length. Qed.

Lemma hdr_within msg w : sendable msg → within w (transport_hdr msg) → (w < 9)%nat.
Proof. intros Hmsg. rewrite <- (transport_hdr_length msg Hmsg). intros [?|[_ ?]]; done. Qed.

#[export] Instance ipc_sends : Sends ipc_prefix sendable advance place.
Proof.
  split.
  - done.
  - intros msg. repeat split. lia.
  - intros msg [] k; simpl; lia.
  - intros msg st k s Hmsg Hpl.
    pose proof (frame_length ipc_prefix msg Hmsg) as Hsize. change (length ipc_prefix) with 1%nat in Hsize.
    destruct st as [m w|m w|m w|]; [| | |done]; destruct Hpl as (-> & -> & Hw); cbn [advance].
    + apply (write_part msg [] (transport_hdr msg) (header msg ++ body msg) w _ (TransportHdr msg));
        [done|by rewrite (transport_hdr_length _ Hmsg)|..].
      * cbn [is_terminal place app]. rewrite (transport_hdr_length _ Hmsg). split; [done|]. split; [done|apply within_start].
      * intros w' Hw'. split; [|done]. split; [done|]. split; [done|]. by apply (hdr_within msg).
      * intros w'. simpl. lia.
    + pose proof (within_le _ _ Hw). unfold write_protocol_hdr, get_header. case_bool_decide as Hnil.
      * apply pass_part; [lia| |simpl; lia]. destruct Hw as [?|[-> _]]; [lia|].
        split; [done|]. split; [lia|apply within_start].
      * destruct Hw as [Hw|[_ Hnl]]; [|by rewrite Hnl in Hnil].
        assert (Hb : 9%nat = length (transport_hdr msg)) by (by rewrite (transport_hdr_length _ Hmsg)).
        replace (9 + w)%nat with (length (transport_hdr msg) + w)%nat by lia.
        apply (write_part msg _ (header msg) (body msg) w _ (ProtocolHdr msg)); [done|done|..].
        -- cbn [is_terminal place]. rewrite length_app, <- Hb. split; [done|]. split; [lia|apply within_start].
        -- intros w' Hw'. rewrite <- Hb. by repeat split.
        -- intros w'. simpl. lia.
    + pose proof (within_le _ _ Hw). unfold write_usr_payload, get_body. case_bool_decide as Hnil.
      * apply pass_part; [lia| |simpl; lia]. destruct Hw as [?|[-> _]]; [lia|]. cbn [is_terminal]. lia.
      * destruct Hw as [Hw|[_ Hnl]]; [|by rewrite Hnl in Hnil].
        assert (Hb : (9 + length (header msg))%nat = length ((transport_hdr msg) ++ header msg))
          by (by rewrite length_app, (transport_hdr_length _ Hmsg)).
        replace (9 + length (header msg) + w)%nat with
          (length ((transport_hdr msg) ++ header msg) + w)%nat by lia.
        apply (write_part msg _ (body msg) [] w _ (UsrPayload msg)); [|done|done|..].
        -- unfold frame. by rewrite app_nil_r, <- !app_assoc.
        -- intros w' Hw'. rewrite <- Hb. by repeat split.
        -- intros w'. simpl. lia.
Qed.

(** ** The operations and the stub, at this size of prefix *)

Definition SendOperation_new : Message → SendOperation := Framing.SendOperation_new.
Definition SendOperation_run : SendOperation → IO Sink (result bool * SendOperation) :=
  Framing.SendOperation_run advance.

Definition RecvOperation_new : Z → RecvOperation := Framing.RecvOperation_new 1.
Definition read_header : bytes → nat → Z → IO Source (bool * RecvOperationStep) := Framing.read_header 1.
Definition read_payload : bytes → nat → IO Source (bool * RecvOperationStep) := Framing.read_payload.
Definition recv_advance : RecvOperationStep → IO Source (bool * RecvOperationStep) := Framing.recv_advance 1.
Definition RecvOperation_run : RecvOperation → IO Source (result (option Message) * RecvOperation) :=
  Framing.RecvOperation_run 1.

Definition IpcPipeStub_new : Sink * Source → Z → PipeStub := PipeStub_new.
Definition IpcPipeStub_run_send_operation : SendOperation → IO PipeStub bool := run_send_operation advance.
Definition IpcPipeStub_run_recv_operation : RecvOperation → IO PipeStub (option Message) := run_recv_operation 1.
Definition IpcPipeStub_start_send : Message → IO PipeStub bool := start_send advance.
Definition IpcPipeStub_resume_send : IO PipeStub bool := resume_send advance.
Definition IpcPipeStub_start_recv : IO PipeStub (option Message) := start_recv 1.
Definition IpcPipeStub_resume_recv : IO PipeStub (option Message) := resume_recv 1.

(** The stub as the pipes use it, and what it promises them. *)
Definition IpcPipeStub_stub : AsyncPipeStub PipeStub := framed_stub (pre := ipc_prefix) (advance := advance).

Lemma ipc_stub_laws : StubLaws PipeStub (H := IpcPipeStub_stub) sendable (framed_ok (pre := ipc_prefix) (takes := sendable) (place := place)).
Proof. apply framed_stub_laws. Qed.

(** C34: The same for IPC, whose frames start with a byte 1 and whose parts are
    written separately, the empty ones not at all. *)
Theorem ipc_round_trip msg out :
  sendable msg → has_pending_send out = false → mild (room (sink out)) →
  (length (frame ipc_prefix msg) <= takers (room (sink out)))%nat →
  transfers (pre := ipc_prefix) (advance := advance) msg out.
Proof. by apply round_trip. Qed.

End ipc.

Lemma ipc_round_trip_witness :
  let msg := mkMessage [] [3; 4] in
  let room := Ok 3%nat :: Err no_more :: replicate 12 (Ok 1%nat) in
  let out := PipeStub_new (mkSink room [], mkSource []) 0 in
  has_pending_send out = false ∧
  transfers (H := be_ref) (pre := ipc_prefix) (advance := advance (H := be_ref)) msg out.
Proof.
  split; [done|]. apply (ipc_round_trip (H := be_ref)); [by vm_compute|done| |vm_compute; lia].
  intros e He. cbn in He. set_unfold in He. naive_solver.
Defined.
