(* ===== verification/Delivery.v ===== *)
(** * What a protocol delivers

    A message the facade gets from a protocol is one that came from the network, in
    the call that brought it: nothing is stored, invented or repeated.  Its payload
    is the end of what came; what is cut off its front (an id, a route) is the
    protocol's own.  [Tenants] makes it a promise of every protocol, and [Integrity]
    carries it up to the application. *)

From S2P Require Import Prelude Core Context Priolist Pipes Protocol Codec.
From S2P Require Import Push Pull Sub Bus Publ Pair Req Rep Resp Surv.

(** ** Walking handlers

    What every handler may do: ask a pipe, cancel timers, tell of its readiness; and
    send. *)

Class Tame (Q : effect → Prop) : Prop :=
  tame : ∀ e, match e with NetRecv _ | SchCancel _ | Raise _ => True | _ => False end → Q e.
Class Plain (Q : effect → Prop) : Prop :=
  plain : ∀ e, match e with NetSend _ _ | NetRecv _ | SchCancel _ | Raise _ => True | _ => False end → Q e.

Lemma plain_tame Q : Plain Q → Tame Q.
Proof. intros HQ []; try done; intros _; by apply HQ. Qed.

Create HintDb handler.

Section rules.
Context `{Env} (Q : effect → Prop) `{HQ : Tame Q}.

Lemma plain_cancel t : every Q (cancel_opt t).
Proof. apply every_if_some. intros x _. by apply runs_emit; [apply HQ|]. Qed.
Lemma plain_send_change a b : every Q (check_send_ready_change a b).
Proof. unfold check_send_ready_change. case_bool_decide; [by apply runs_ret|by apply runs_emit; [apply HQ|]]. Qed.
Lemma plain_recv_change a b : every Q (check_recv_ready_change a b).
Proof. unfold check_recv_ready_change. case_bool_decide; [by apply runs_ret|by apply runs_emit; [apply HQ|]]. Qed.
Lemma plain_recv_from eid pc : every Q (recv_from eid pc).
Proof. unfold recv_from. walk; by apply HQ. Qed.
Lemma plain_fair fq pc : every Q (fair_queue_recv fq pc).
Proof. unfold fair_queue_recv. walk; try apply plain_recv_from. Qed.

(** What sends [msg], where sending it is fine. *)
Context (msg : Message) (Hmsg : ∀ eid, Q (NetSend eid msg)).

Lemma fine_send_to eid pc : every Q (send_to msg eid pc).
Proof. unfold send_to. walk; apply Hmsg. Qed.
Lemma fine_send_all bc pc : every Q (send_to_all bc pc msg).
Proof.
  unfold send_to_all, send_to_one. walk. apply every_for_each. intros id _. walk; apply Hmsg.
Qed.
Lemma fine_send_all_except bc pc x : every Q (send_to_all_except bc pc msg x).
Proof.
  unfold send_to_all_except, send_to_one. walk. apply every_for_each. intros id _. walk; apply Hmsg.
Qed.
Lemma fine_balance lb pc : every Q (load_balancing_send lb pc msg).
Proof. unfold load_balancing_send. walk; try apply fine_send_to. Qed.

End rules.

#[export] Hint Resolve plain_tame plain_cancel plain_send_change plain_recv_change plain_recv_from plain_fair
  fine_send_to fine_send_all fine_send_all_except fine_balance : handler.
#[export] Hint Extern 3 => match goal with |- _ (NetSend _ _) => first [exact I|assumption] end : handler.

(** Walk a handler, with what is known of its parts, and open the others. *)
Ltac head_of t := match t with ?f _ => head_of f | _ => t end.
Ltac tread :=
  repeat first
    [ solve [auto with handler nocore]
    | apply runs_ret; exact I | apply every_history | apply runs_emit; [done|exact I]
    | apply every_bind; [|intros ?]
    | apply every_if_some; intros ? _
    | apply runs_lift; intros ? _; exact I
    | match goal with
      | |- runs _ _ (match ?x with _ => _ end) => destruct x eqn:?
      | |- runs _ _ ?m => let f := head_of m in unfold f
      end ].

(** ** Delivering *)

(** The messages given to the facade. *)
Definition delivered (out : trace) : list Message :=
  omap (λ e, match e with SendReply (ReplyRecv m) => Some m | _ => None end) out.

(** [m'] is made of [m]: same payload, but for what the protocol put before it. *)
Definition part_of (m m' : Message) : Prop := body m' `suffix_of` body m.

(** [ds] come from [ms], in order and once each. *)
Definition drawn (ms ds : list Message) : Prop := ∃ src, src `sublist_of` ms ∧ Forall2 part_of src ds.

Definition hands {A} (ms : list Message) (m : P A) : Prop :=
  ∀ h a out, m h = Done a out → drawn ms (delivered out).

(** What a call brings from the network. *)
Definition brought (i : input) : list Message := match i with IRecvAck _ msg => [msg] | _ => [] end.

Definition quiet (e : effect) : Prop := match e with SendReply (ReplyRecv _) => False | _ => True end.
#[export] Instance quiet_plain : Plain quiet.
Proof. by intros []. Qed.
#[export] Hint Resolve quiet_plain : handler.

Section hands.

Lemma delivery_delivered_app o1 o2 : delivered (o1 ++ o2) = delivered o1 ++ delivered o2.
Proof. apply omap_app. Qed.

Lemma quiet_delivered out : Forall quiet out → delivered out = [].
Proof. induction 1 as [|e out He _ IH]; [done|]. destruct e as [| | | | | | | | | | |[]]; try exact IH. done. Qed.

Lemma drawn_nil ms : drawn ms [].
Proof. exists []. split; [apply sublist_nil_l|done]. Qed.

Lemma drawn_app ms1 ms2 ds1 ds2 : drawn ms1 ds1 → drawn ms2 ds2 → drawn (ms1 ++ ms2) (ds1 ++ ds2).
Proof. intros (s1 & ? & ?) (s2 & ? & ?). exists (s1 ++ s2). split; [by apply sublist_app|by apply Forall2_app]. Qed.

Lemma drawn_less ms ms' ds : ms `sublist_of` ms' → drawn ms ds → drawn ms' ds.
Proof. intros Hs (src & Hsrc & Hf). exists src. split; [by etrans|done]. Qed.

Lemma drawn_before ms ds1 ds2 : drawn ms (ds1 ++ ds2) → drawn ms ds1.
Proof.
  intros (src & Hs & Hf). apply Forall2_app_inv_r in Hf as (s1 & s2 & Hf & _ & ->). exists s1. split; [|done].
  etrans; [|exact Hs]. by apply sublist_inserts_r.
Qed.

Lemma hands_quiet {A} ms (m : P A) : every quiet m → hands ms m.
Proof. intros Hm h a out Hrun. destruct (Hm _ _ _ Hrun) as [Ho _]. rewrite (quiet_delivered _ Ho). apply drawn_nil. Qed.

Lemma hands_then {A B} ms (m : P A) (k : A → P B) : every quiet m → (∀ a, hands ms (k a)) → hands ms (m ≫= k).
Proof.
  intros Hm Hk h b out. rewrite bind_run. destruct (m h) as [a o1|] eqn:H1; [|done].
  destruct (k a (h ++ o1)) as [b' o2|] eqn:H2; [|done]. intros [= <- <-]. destruct (Hm _ _ _ H1) as [Ho _].
  rewrite delivery_delivered_app, (quiet_delivered _ Ho). by eapply Hk.
Qed.

Lemma hands_first {A B} ms (m : P A) (k : A → P B) : hands ms m → (∀ a, every quiet (k a)) → hands ms (m ≫= k).
Proof.
  intros Hm Hk h b out. rewrite bind_run. destruct (m h) as [a o1|] eqn:H1; [|done].
  destruct (k a (h ++ o1)) as [b' o2|] eqn:H2; [|done]. intros [= <- <-]. destruct (Hk a _ _ _ H2) as [Ho _].
  rewrite delivery_delivered_app, (quiet_delivered _ Ho), app_nil_r. by eapply Hm.
Qed.

Lemma hands_reply m m' : part_of m m' → hands [m] (send_reply (ReplyRecv m')).
Proof. intros Hp h a out [= _ <-]. exists [m]. split; [done|]. by repeat constructor. Qed.

Lemma part_same m : part_of m m.
Proof. by unfold part_of. Qed.
Lemma part_body m m' h : part_of m m' → part_of m (mkMessage h (body m')).
Proof. done. Qed.

End hands.

Create HintDb part.
Create HintDb hands.
#[export] Hint Resolve part_same part_body : part.

(** Walk a handler to the one reply it makes. *)
Ltac hand :=
  repeat first
    [ apply hands_quiet; solve [tread]
    | apply hands_reply; solve [eauto with part nocore]
    | solve [eauto with hands part nocore]
    | apply hands_then; [solve [tread]|intros ?]
    | apply hands_first; [|intros ?; solve [tread]]
    | match goal with
      | |- hands _ (match ?x with _ => _ end) => destruct x eqn:?
      | |- hands _ ?m => let f := head_of m in unfold f
      end ].

(** ** The protocols *)

Section protocols.
Context `{Env} `{ByteOrder}.

Lemma req_part raw n msg id : Req.Inner_raw_msg_to_msg raw n = Some (msg, id) → part_of raw msg.
Proof.
  assert (Hd : ∀ r, Req.decode raw = Some r → part_of raw r.1).
  { intros r. unfold Req.decode, part_of. case_bool_decide; [done|]. intros [= <-]. apply suffix_drop. }
  unfold Req.Inner_raw_msg_to_msg. destruct (Req.is_device_item n); [|by intros Hr; apply Hd in Hr].
  intros (r & Hr & [= -> _])%fmap_Some. by apply Hd.
Qed.

Lemma surv_part raw n msg id : Surv.Inner_raw_msg_to_msg raw n = Some (msg, id) → part_of raw msg.
Proof.
  assert (Hd : ∀ r, Surv.decode raw = Some r → part_of raw r.1).
  { intros r. unfold Surv.decode, part_of. case_bool_decide; [done|]. intros [= <-]. apply suffix_drop. }
  unfold Surv.Inner_raw_msg_to_msg. destruct (Surv.is_device_item n); intros (r & Hr & [= -> _])%fmap_Some; by apply Hd in Hr.
Qed.

Lemma rep_part raw eid n msg : Rep.Inner_raw_msg_to_msg raw eid n = Some msg → part_of raw msg.
Proof.
  unfold Rep.Inner_raw_msg_to_msg, part_of. cbn. generalize (header raw ++ be_write_u32 (wrap 32 (EndpointId_into eid))).
  generalize (body raw) at 1 2. induction (Z.to_nat (Rep.ttl n)) as [|k IH]; intros bd hd; cbn; [done|].
  case_bool_decide; [done|]. destruct (negb _).
  - intros [= <-]. apply suffix_drop.
  - intros Hk. etrans; [by eapply IH|apply suffix_drop].
Qed.

Lemma resp_part raw eid n msg : Resp.Inner_raw_msg_to_msg raw eid n = Some msg → part_of raw msg.
Proof.
  unfold Resp.Inner_raw_msg_to_msg, part_of. cbn. generalize (header raw ++ be_write_u32 (wrap 32 (EndpointId_into eid))).
  generalize (body raw) at 1 2. induction (Z.to_nat (Resp.ttl n)) as [|k IH]; intros bd hd; cbn; [done|].
  case_bool_decide; [done|]. destruct (negb _).
  - intros [= <-]. apply suffix_drop.
  - intros Hk. etrans; [by eapply IH|apply suffix_drop].
Qed.

#[local] Hint Resolve req_part surv_part rep_part resp_part : part.

(** REP and RESPONDENT keep the route of what they deliver. *)
Lemma rep_ack_hands raw msg t n : part_of raw msg → hands [raw] (Rep.Inner_on_recv_ack t msg n).
Proof. intros Hp. unfold Rep.Inner_on_recv_ack. destruct (Rep.is_device_item n); cbn [negb]; hand. Qed.
Lemma resp_ack_hands raw msg t n : part_of raw msg → hands [raw] (Resp.Inner_on_recv_ack t msg n).
Proof. intros Hp. unfold Resp.Inner_on_recv_ack. destruct (Resp.is_device_item n); cbn [negb]; hand. Qed.
#[local] Hint Resolve rep_ack_hands resp_ack_hands : hands.

Lemma push_hands i s : hands (brought i) (step (T := Push) i s).
Proof. destruct i; simpl step; cbn [brought]; hand. Qed.
Lemma pull_hands i s : hands (brought i) (step (T := Pull) i s).
Proof. destruct i; simpl step; cbn [brought]; hand. Qed.
Lemma sub_hands i s : hands (brought i) (step (T := Sub) i s).
Proof. destruct i; simpl step; cbn [brought]; hand. Qed.
Lemma bus_hands i s : hands (brought i) (step (T := Bus) i s).
Proof. destruct i; simpl step; cbn [brought]; hand. Qed.
Lemma pub_hands i s : hands (brought i) (step (T := Pub) i s).
Proof. destruct i; simpl step; cbn [brought]; hand. Qed.
Lemma pair_hands i s : hands (brought i) (step (T := Pair) i s).
Proof. destruct i; simpl step; cbn [brought]; hand. Qed.
Lemma req_hands i s : hands (brought i) (step (T := Req) i s).
Proof. destruct i; simpl step; cbn [brought]; hand. Qed.
Lemma rep_hands i s : hands (brought i) (step (T := Rep) i s).
Proof. destruct i; simpl step; cbn [brought]; hand. Qed.
Lemma resp_hands i s : hands (brought i) (step (T := Respondent) i s).
Proof. destruct i; simpl step; cbn [brought]; hand. Qed.
Lemma surv_hands i s : hands (brought i) (step (T := Surveyor) i s).
Proof. destruct i; simpl step; cbn [brought]; hand. Qed.

End protocols.
