(* ===== verification/Provenance.v ===== *)
(** * Where what a protocol sends comes from

    The counterpart of [Delivery]: every message a protocol sends to a pipe, at once
    or later, as a request, a reply or a survey, or again after a pipe was lost, has
    the payload of a message it was given to send.  A protocol holds what it has not
    sent yet, or may send again, in its state: that is what [*_laden] is about.
    [Tenants] makes it a promise of every protocol, and [Outbound] carries it from
    the application to the pipes. *)

From S2P Require Import Prelude Core Context Priolist Pipes Protocol Codec.
From S2P Require Import Push Pull Sub Bus Publ Pair Req Rep Resp Surv Delivery.

(** ** What is given *)

(** What is sent has a payload in [G]. *)
Definition given (G : bytes → Prop) (e : effect) : Prop :=
  match e with NetSend _ m => G (body m) | _ => True end.

#[export] Instance given_tame G : Tame (given G).
Proof. by intros []. Qed.
#[export] Hint Resolve given_tame : handler.

(** The messages a call gives to send are in [G]. *)
Definition giving (G : bytes → Prop) (i : input) : Prop :=
  match i with ISend m _ => G (body m) | _ => True end.

(** What is held in [o] satisfies [f]. *)
Definition within {A} (f : A → Prop) (o : option A) : Prop := match o with Some a => f a | None => True end.

(** A protocol whose state satisfies [L], whenever what it holds and what it is given
    is in [G], sends nothing else, and holds nothing else. *)
Definition gives `{Protocol T} (L : (bytes → Prop) → T → Prop) : Prop :=
  ∀ G i s, L G s → giving G i → runs (given G) (L G) (step i s).

Record provenance {T} (L : (bytes → Prop) → T → Prop) (P : ∀ {E : Env}, Protocol T) : Prop := {
  prov_more : ∀ (G G' : bytes → Prop) s, (∀ b, G b → G' b) → L G s → L G' s;
  prov_gives : ∀ {E : Env}, gives L;
  prov_close : ∀ {E : Env} G s, L G s → runs (given G) (L G) (close s)
}.

Ltac held := cbn in *; solve [assumption | exact I | done | match goal with opt : ConfigOption |- _ => by destruct opt end].

(** Walk a handler, keeping what [binds] knows of what is bound; then, that states
    satisfy [L] and protocols [PL]. *)
Ltac haul_with binds :=
  repeat first
    [ solve [auto with handler nocore]
    | progress cbv beta
    | apply runs_ret; held
    | binds
    | apply every_bind; [solve [tread]|intros ?]
    | match goal with
      | |- runs _ _ (match ?x with _ => _ end) => destruct x eqn:?; cbn in * |-; simplify_eq
      | |- runs _ _ ?m => let f := head_of m in unfold f
      end ].
Ltac haul L PL :=
  haul_with ltac:(first
    [ apply (runs_bind _ (λ x, L (fst x))); [|intros [? ?] ?; cbn in * |-]
    | apply (runs_bind _ (λ x, PL (snd x))); [|intros [? ?] ?; cbn in * |-]
    | apply (runs_bind _ PL); [|intros ? ?] ]).

Lemma given_close_all `{Env} G pc : every (given G) (close_all pc).
Proof. unfold close_all. tread; apply every_for_each; intros kv _; tread. Qed.
#[export] Hint Resolve given_close_all : handler.

Section protocols.
Context `{ByteOrder}.

Definition no_load {T} (G : bytes → Prop) (s : T) : Prop := True.

(** *** PUSH *)

Definition push_state_laden (G : bytes → Prop) (s : Push.State) : Prop :=
  match s with
  | Push.Sending _ m _ | Push.SendOnHold m _ => G (body m)
  | Push.Idle => True
  end.
Definition push_laden (G : bytes → Prop) (s : Push) : Prop := within (push_state_laden G) (Push.state s).

Lemma push_provenance : provenance push_laden (λ E, Push.Push_protocol).
Proof.
  split.
  - intros G G' [n [[]|]] HG; cbn; repeat case_match; auto.
  - intros E G i [n st] Hs Hi. destruct i; simpl in Hi; simpl step; haul (push_state_laden G) (push_laden G).
  - intros E G [n st] Hs. simpl close. haul (push_state_laden G) (push_laden G).
Qed.

(** *** PAIR *)

Definition pair_state_laden (G : bytes → Prop) (s : Pair.State) : Prop :=
  match s with
  | Pair.Sending _ m _ | Pair.SendOnHold m _ => G (body m)
  | _ => True
  end.
Definition pair_laden (G : bytes → Prop) (s : Pair) : Prop := within (pair_state_laden G) (Pair.state s).

Lemma pair_provenance : provenance pair_laden (λ E, Pair.Pair_protocol).
Proof.
  split.
  - intros G G' [n [[]|]] HG; cbn; repeat case_match; auto.
  - intros E G i [n st] Hs Hi. destruct i; simpl in Hi; simpl step; haul (pair_state_laden G) (pair_laden G).
  - intros E G [n st] Hs. simpl close. haul (pair_state_laden G) (pair_laden G).
Qed.

(** *** REQ *)

Definition req_state_laden (G : bytes → Prop) (s : Req.State) : Prop :=
  match s with
  | Req.Sending _ m _ _ | Req.SendOnHold m _ _ => G (body m)
  | Req.Active _ p | Req.Receiving _ (Some p) _ | Req.RecvOnHold _ (Some p) _ => G (body (Req.req p))
  | _ => True
  end.
Definition req_laden (G : bytes → Prop) (s : Req) : Prop := within (req_state_laden G) (Req.state s).

Lemma req_send_gives `{Env} G msg t s :
  req_laden G s → G (body msg) → runs (given G) (req_laden G) (Req.Req_send msg t s).
Proof.
  intros Hs Hm. destruct s as [n st]. unfold Req.Req_send. cbn [Req.inner Req.state].
  apply (runs_bind _ (λ x, G (body x.1))); [unfold Req.Inner_msg_to_raw_msg, Req.encode; tread; apply runs_ret; exact Hm|].
  intros [raw n'] Hraw. cbn in Hraw. haul (req_state_laden G) (req_laden G).
Qed.
#[local] Hint Resolve req_send_gives : handler.

Lemma req_provenance : provenance req_laden (λ E, Req.Req_protocol).
Proof.
  split.
  - intros G G' [n [[]|]] HG; cbn; repeat case_match; auto.
  - intros E G i [n st] Hs Hi. destruct i; simpl in Hi; simpl step; haul (req_state_laden G) (req_laden G).
  - intros E G [n st] Hs. simpl close. haul (req_state_laden G) (req_laden G).
Qed.

(** *** REP *)

Definition rep_state_laden (G : bytes → Prop) (s : Rep.State) : Prop :=
  match s with
  | Rep.Sending _ m _ | Rep.SendOnHold _ m _ => G (body m)
  | _ => True
  end.
Definition rep_laden (G : bytes → Prop) (s : Rep) : Prop := within (rep_state_laden G) (Rep.state s).

Lemma rep_raw msg n raw eid : Rep.Inner_msg_to_raw_msg msg n = Some (raw, eid) → body raw = body msg.
Proof. unfold Rep.Inner_msg_to_raw_msg. cbn. case_bool_decide; [done|]. by intros [= <- _]. Qed.

Lemma rep_send_gives `{Env} G msg t s :
  rep_laden G s → G (body msg) → runs (given G) (rep_laden G) (Rep.Rep_send msg t s).
Proof.
  intros Hs Hm. destruct s as [n st]. unfold Rep.Rep_send. cbn [Rep.inner].
  destruct (Rep.Inner_msg_to_raw_msg msg n) as [[raw eid]|] eqn:Hraw; [rewrite <- (rep_raw _ _ _ _ Hraw) in Hm|];
    haul (rep_state_laden G) (rep_laden G).
Qed.
#[local] Hint Resolve rep_send_gives : handler.

Lemma rep_provenance : provenance rep_laden (λ E, Rep.Rep_protocol).
Proof.
  split.
  - intros G G' [n [[]|]] HG; cbn; repeat case_match; auto.
  - intros E G i [n st] Hs Hi. destruct i; simpl in Hi; simpl step; haul (rep_state_laden G) (rep_laden G).
  - intros E G [n st] Hs. simpl close. haul (rep_state_laden G) (rep_laden G).
Qed.

(** *** RESPONDENT *)

Definition resp_state_laden (G : bytes → Prop) (s : Resp.State) : Prop :=
  match s with
  | Resp.Sending _ m _ | Resp.SendOnHold _ m _ => G (body m)
  | _ => True
  end.
Definition resp_laden (G : bytes → Prop) (s : Respondent) : Prop := within (resp_state_laden G) (Resp.state s).

Lemma resp_raw msg n raw eid : Resp.Inner_msg_to_raw_msg msg n = Some (raw, eid) → body raw = body msg.
Proof. unfold Resp.Inner_msg_to_raw_msg. cbn. case_bool_decide; [done|]. by intros [= <- _]. Qed.

Lemma resp_send_gives `{Env} G msg t s :
  resp_laden G s → G (body msg) → runs (given G) (resp_laden G) (Resp.Respondent_send msg t s).
Proof.
  intros Hs Hm. destruct s as [n st]. unfold Resp.Respondent_send. cbn [Resp.inner].
  destruct (Resp.Inner_msg_to_raw_msg msg n) as [[raw eid]|] eqn:Hraw; [rewrite <- (resp_raw _ _ _ _ Hraw) in Hm|];
    haul (resp_state_laden G) (resp_laden G).
Qed.
#[local] Hint Resolve resp_send_gives : handler.

Lemma resp_provenance : provenance resp_laden (λ E, Resp.Respondent_protocol).
Proof.
  split.
  - intros G G' [n [[]|]] HG; cbn; repeat case_match; auto.
  - intros E G i [n st] Hs Hi. destruct i; simpl in Hi; simpl step; haul (resp_state_laden G) (resp_laden G).
  - intros E G [n st] Hs. simpl close. haul (resp_state_laden G) (resp_laden G).
Qed.

(** *** Those that hold no message *)

Lemma bus_send_gives `{Env} G msg t s : G (body msg) → runs (given G) (no_load G) (Bus.Bus_send msg t s).
Proof.
  intros Hm. unfold Bus.Bus_send. assert (Hraw : body (Bus.encode msg).1 = body msg) by (unfold Bus.encode; by case_bool_decide).
  destruct (Bus.encode msg) as [raw oid]. cbn in Hraw. rewrite <- Hraw in Hm. haul (λ _ : Bus.State, True) (@no_load Bus G).
Qed.
Lemma surv_send_gives `{Env} G msg t s : G (body msg) → runs (given G) (no_load G) (Surv.Surveyor_send msg t s).
Proof.
  intros Hm. unfold Surv.Surveyor_send.
  apply (runs_bind _ (λ x, G (body x.1))); [unfold Surv.Inner_msg_to_raw_msg, Surv.encode; tread; apply runs_ret; exact Hm|].
  intros [raw n'] Hraw. cbn in Hraw. haul (λ _ : Surv.State, True) (@no_load Surveyor G).
Qed.
#[local] Hint Resolve bus_send_gives surv_send_gives : handler.

Lemma pull_provenance : provenance no_load (λ E, Pull.Pull_protocol).
Proof.
  split; [done| |].
  - intros E G i s _ Hi. destruct i; simpl in Hi; simpl step; haul (λ _ : Pull.State, True) (@no_load Pull G).
  - intros E G s _. simpl close. haul (λ _ : Pull.State, True) (@no_load Pull G).
Qed.

Lemma sub_provenance : provenance no_load (λ E, Sub.Sub_protocol).
Proof.
  split; [done| |].
  - intros E G i s _ Hi. destruct i; simpl in Hi; simpl step; haul (λ _ : Sub.State, True) (@no_load Sub G).
  - intros E G s _. simpl close. haul (λ _ : Sub.State, True) (@no_load Sub G).
Qed.

Lemma bus_provenance : provenance no_load (λ E, Bus.Bus_protocol).
Proof.
  split; [done| |].
  - intros E G i s _ Hi. destruct i; simpl in Hi; simpl step; haul (λ _ : Bus.State, True) (@no_load Bus G).
  - intros E G s _. simpl close. haul (λ _ : Bus.State, True) (@no_load Bus G).
Qed.

Lemma surv_provenance : provenance no_load (λ E, Surv.Surveyor_protocol).
Proof.
  split; [done| |].
  - intros E G i s _ Hi. destruct i; simpl in Hi; simpl step; haul (λ _ : Surv.State, True) (@no_load Surveyor G).
  - intros E G s _. simpl close. haul (λ _ : Surv.State, True) (@no_load Surveyor G).
Qed.

Lemma pub_provenance : provenance no_load (λ E, Publ.Pub_protocol).
Proof.
  split; [done| |].
  - intros E G i s _ Hi. destruct i; simpl in Hi; simpl step; haul (λ _ : (), True) (@no_load Pub G).
  - intros E G s _. simpl close. haul (λ _ : (), True) (@no_load Pub G).
Qed.

End protocols.
