(* ===== verification/Closed.v ===== *)
(** * Closed protocols

    A socket asked to close closes its pipes at once, but it is removed only when
    the signal of it comes round: what was on its way to it by then (acknowledgements,
    readiness, pipes that open or fail, timers) still reaches its protocol.  Each
    protocol, once closed while nobody waits, takes all of it without a panic and
    without a reply.  Its list of pipes is then empty, but its priority lists are as
    they were: a closed protocol is [asleep], which asks of the lists no more than
    that they are well formed. *)

From S2P Require Import Prelude Core Context Priolist Pipes Protocol Codec.
From S2P Require Import Push Pull Sub Bus Publ Pair Req Rep Resp Surv.

(** ** Handlers that finish and say nothing to the facade *)

Definition rests {A} (R : A → Prop) (m : P A) : Prop :=
  ∀ h, ∃ a out, m h = Done a out ∧ replies out = [] ∧ R a.

Create HintDb rests.

Section rests.

Lemma rests_ret {A} (R : A → Prop) a : R a → rests R (mret a).
Proof. intros HR h. by exists a, []. Qed.

Lemma rests_bind {A B} (R1 : A → Prop) (R : B → Prop) (m : P A) (k : A → P B) :
  rests R1 m → (∀ a, R1 a → rests R (k a)) → rests R (m ≫= k).
Proof.
  intros Hm Hk h. destruct (Hm h) as (a & o1 & H1 & Ho1 & HR1). destruct (Hk a HR1 (h ++ o1)) as (b & o2 & H2 & Ho2 & HR).
  exists b, (o1 ++ o2). split; [by eapply bind_done|]. by rewrite replies_app, Ho1, Ho2.
Qed.

Lemma rests_assoc {A B C} (R : C → Prop) (m : P A) (k : A → P B) (l : B → P C) :
  rests R (m ≫= λ a, k a ≫= l) → rests R ((m ≫= k) ≫= l).
Proof.
  intros Hm h. destruct (Hm h) as (c & out & Hrun & Ho & HR). exists c, out. split; [|done]. rewrite <- Hrun.
  rewrite !bind_run. destruct (m h) as [a o1|]; [|done]. rewrite bind_run. destruct (k a (h ++ o1)) as [b o2|]; [|done].
  rewrite <- app_assoc. destruct (l b _); [by rewrite app_assoc|done].
Qed.

Lemma rests_ret_bind {A B} (R : B → Prop) (a : A) (k : A → P B) : rests R (k a) → rests R (mret a ≫= k).
Proof.
  intros Hk h. destruct (Hk h) as (b & out & Hrun & Ho & HR). exists b, out. split; [|done].
  rewrite bind_run, ret_run, app_nil_r, Hrun. done.
Qed.

Lemma rests_emit (e : effect) : replies [e] = [] → rests (λ _, True) (emit e).
Proof. intros He h. by exists (), [e]. Qed.

Lemma rests_mono {A} (R R' : A → Prop) m : rests R m → (∀ a, R a → R' a) → rests R' m.
Proof. intros Hm HR h. destruct (Hm h) as (a & o & ? & ? & ?). exists a, o. auto. Qed.

Lemma rests_if_some {A} (o : option A) (f : A → P ()) :
  (∀ x, rests (λ _, True) (f x)) → rests (λ _, True) (if_some o f).
Proof. intros Hf. destruct o; [apply Hf|by apply rests_ret]. Qed.

Lemma rests_cancel t : rests (λ _, True) (cancel_opt t).
Proof. apply rests_if_some. intros x. by apply rests_emit. Qed.
Lemma rests_send_change a b : rests (λ _, True) (check_send_ready_change a b).
Proof. unfold check_send_ready_change. case_bool_decide; [by apply rests_ret|by apply rests_emit]. Qed.
Lemma rests_recv_change a b : rests (λ _, True) (check_recv_ready_change a b).
Proof. unfold check_recv_ready_change. case_bool_decide; [by apply rests_ret|by apply rests_emit]. Qed.
Lemma rests_raise e : rests (λ _, True) (ctx_raise e).
Proof. by apply rests_emit. Qed.
Lemma rests_pipe_close p : rests (λ _, True) (Pipe_close p).
Proof. eapply rests_bind; [by apply rests_emit|]. intros _ _. by apply rests_ret. Qed.

Context `{Env}.

Lemma rests_schedule task d : rests (λ _, True) (ctx_schedule task d).
Proof. intros h. eexists _, _. split; [unfold ctx_schedule, history; mrun; done|]. done. Qed.

Lemma rests_activate id pl : wf pl → rests wf (lift (activate id pl)).
Proof. intros Hwf h. destruct (activate_spec id pl Hwf) as (pl' & -> & Hwf' & _). by exists pl', []. Qed.
Lemma rests_deactivate id pl : wf pl → rests wf (lift (deactivate id pl)).
Proof. intros Hwf h. destruct (deactivate_spec id pl Hwf) as (pl' & -> & Hwf' & _). by exists pl', []. Qed.
Lemma rests_remove id pl : wf pl → remove_safe id pl = true → rests wf (lift (remove id pl)).
Proof. intros Hwf Hs h. destruct (remove_spec id pl Hwf Hs) as (pl' & -> & Hwf' & _). by exists pl', []. Qed.

Lemma rests_balance lb pc msg : wf lb → rests (λ r, wf r.2) (load_balancing_send lb pc msg).
Proof.
  intros Hwf. unfold load_balancing_send. destruct (run_op_refines Spec.Pop lb Hwf I) as (r & lb' & Hpop & Hwf' & _).
  cbn in Hpop. rewrite Hpop. eapply (rests_bind (λ x, x = (r, lb'))); [intros h; by eexists _, []|]. intros _ ->.
  destruct r as [eid|]; [|by apply rests_ret]. eapply (rests_bind (λ _, True)); [|intros x _; by apply rests_ret].
  intros h. rewrite send_to_run. destruct (_ !! _); by eexists _, _.
Qed.

Lemma rests_for_each {A} (f : A → P ()) l : (∀ x, rests (λ _, True) (f x)) → rests (λ _, True) (for_each f l).
Proof.
  intros Hf. induction l as [|x l IH]; cbn [for_each]; [by apply rests_ret|]. eapply rests_bind; [apply Hf|auto].
Qed.
Lemma rests_close_all pc : rests (λ _, True) (close_all pc).
Proof.
  unfold close_all. eapply (rests_bind (λ _, True)); [intros h; by exists h, []|]. intros h _.
  eapply rests_bind; [|intros _ _; by apply rests_ret]. apply rests_for_each. intros kv.
  eapply rests_bind; [apply rests_pipe_close|]. intros _ _. by apply rests_ret.
Qed.

(** A pipe is added once, and with a priority in range. *)
Definition joinable (eid : EndpointId) (prio : Z) (pl : Priolist) : bool :=
  bool_decide (eid ∉ value <$> items pl) && bool_decide (0 <= prio <= 16).

Lemma joinable_wf eid prio pl : wf pl → joinable eid prio pl = true → wf (insert eid prio pl).
Proof.
  intros Hwf [H1%bool_decide_eq_true H2%bool_decide_eq_true]%andb_true_iff. by destruct (insert_spec eid prio pl Hwf H1 H2).
Qed.

End rests.

#[export] Hint Resolve rests_cancel rests_send_change rests_recv_change rests_raise rests_pipe_close rests_schedule
  rests_activate rests_deactivate rests_remove rests_balance rests_close_all : rests.

(** Walk a handler, and open those it calls; what it returns is left. *)
Ltac head_of t := match t with ?f _ => head_of f | _ => t end.
Ltac rest :=
  repeat first
    [ match goal with
      | |- rests _ (mret _) => apply rests_ret
      | |- rests _ (mret _ ≫= _) => apply rests_ret_bind
      | |- rests _ ((_ ≫= _) ≫= _) => apply rests_assoc
      end
    | eapply rests_bind; [solve [eauto with rests nocore]|intros ? ?]
    | solve [eauto with rests nocore]
    | match goal with
      | |- rests _ (match ?x with _ => _ end) => let y := eval cbn in x in progress change x with y; cbn beta iota
      | |- rests _ ((match ?x with _ => _ end) ≫= _) => let y := eval cbn in x in progress change x with y; cbn beta iota
      end
    | match goal with
      | |- rests _ (match ?x with _ => _ end) => destruct x eqn:?
      | |- rests _ ((match ?x with _ => _ end) ≫= _) => destruct x eqn:?
      | |- rests _ (?m ≫= _) => let f := head_of m in unfold f
      | |- rests _ ?m => let f := head_of m in unfold f
      end;
      cbn beta iota ].

(** What reaches a protocol that nobody asks anything: no request, no timer of one,
    no option. *)
Definition is_event (i : input) : Prop :=
  match i with ISend _ _ | ISendTimeout | IRecv _ | IRecvTimeout | ISetOption _ => False | _ => True end.

(** What a protocol promises once it is closed. *)
Record sleeps `{Protocol T} {X} (awake : T → Prop) (pending : T → option X) (asleep : T → Prop) (guard : input → T → bool) : Prop := {
  sleeps_idle s : asleep s → pending s = None;
  sleeps_step i s : asleep s → guard i s = true → is_event i → rests asleep (step i s);
  sleeps_close s : awake s → pending s = None → rests asleep (close s)
}.

(** ** PUSH *)

Section push.
Context `{Env}.

Definition push_asleep (self : Push) : Prop := Push.state self = Some Push.Idle ∧ wf (Push.lb (Push.inner self)).

Definition push_asleep_guard (i : input) (self : Push) : bool :=
  match i with
  | IAddPipe eid pipe => joinable eid (Pipe_get_send_priority pipe) (Push.lb (Push.inner self))
  | _ => Push.Push_guard i self
  end.

Lemma push_sleeps : sleeps Push.Push_inv Push.Push_pending push_asleep push_asleep_guard.
Proof.
  split.
  - intros s [Hs _]. unfold Push.Push_pending. by rewrite Hs.
  - intros i [n os] [Hs Hn] Hg He. cbn in Hs, Hn. subst os.
    destruct i; try done; simpl step; cbn in Hg; rest; split; try done. by apply joinable_wf.
  - intros [n os] (s & Hos & Hw & _) Hp. cbn in Hos. subst os. destruct s; try done. cbn [close].
    rest. split; [done|exact (routed_wf _ _ Hw)].
Qed.

End push.

(** ** PULL *)

Section pull.
Context `{Env}.

Definition pull_asleep (self : Pull) : Prop := Pull.state self = Some Pull.Idle ∧ wf (Pull.fq (Pull.inner self)).

Definition pull_asleep_guard (i : input) (self : Pull) : bool :=
  match i with
  | IAddPipe eid pipe => joinable eid (Pipe_get_recv_priority pipe) (Pull.fq (Pull.inner self))
  | _ => Pull.Pull_guard i self
  end.

Lemma pull_sleeps : sleeps Pull.Pull_inv Pull.Pull_pending pull_asleep pull_asleep_guard.
Proof.
  split.
  - intros s [Hs _]. unfold Pull.Pull_pending. by rewrite Hs.
  - intros i [n os] [Hs Hn] Hg He. cbn in Hs, Hn. subst os.
    destruct i; try done; simpl step; cbn in Hg; rest; split; try done. by apply joinable_wf.
  - intros [n os] (s & Hos & Hw & _) Hp. cbn in Hos. subst os. destruct s; try done. cbn [close].
    rest. split; [done|exact (routed_wf _ _ Hw)].
Qed.

End pull.

(** ** SUB *)

Section sub.
Context `{Env}.

Definition sub_asleep (self : Sub) : Prop := Sub.state self = Some Sub.Idle ∧ wf (Sub.fq (Sub.inner self)).

Definition sub_asleep_guard (i : input) (self : Sub) : bool :=
  match i with
  | IAddPipe eid pipe => joinable eid (Pipe_get_recv_priority pipe) (Sub.fq (Sub.inner self))
  | _ => Sub.Sub_guard i self
  end.

Lemma sub_sleeps : sleeps Sub.Sub_inv Sub.Sub_pending sub_asleep sub_asleep_guard.
Proof.
  split.
  - intros s [Hs _]. unfold Sub.Sub_pending. by rewrite Hs.
  - intros i [n os] [Hs Hn] Hg He. cbn in Hs, Hn. subst os.
    destruct i; try done; simpl step; cbn in Hg; rest; split; try done. by apply joinable_wf.
  - intros [n os] (s & Hos & Hw & _) Hp. cbn in Hos. subst os. destruct s; try done. cbn [close].
    rest. split; [done|exact (routed_wf _ _ Hw)].
Qed.

End sub.

(** ** BUS *)

Section bus.
Context `{Env} `{ByteOrder}.

Definition bus_asleep (self : Bus) : Prop := Bus.state self = Some Bus.Idle ∧ wf (Bus.fq (Bus.inner self)).

Definition bus_asleep_guard (i : input) (self : Bus) : bool :=
  match i with
  | IAddPipe eid pipe => joinable eid (Pipe_get_recv_priority pipe) (Bus.fq (Bus.inner self))
  | _ => Bus.Bus_guard i self
  end.

Lemma bus_sleeps : sleeps Bus.Bus_inv Bus.Bus_pending bus_asleep bus_asleep_guard.
Proof.
  split.
  - intros s [Hs _]. unfold Bus.Bus_pending. by rewrite Hs.
  - intros i [n os] [Hs Hn] Hg He. cbn in Hs, Hn. subst os.
    destruct i; try done; simpl step; cbn in Hg; rest; split; try done. by apply joinable_wf.
  - intros [n os] (s & Hos & Hw & _) Hp. cbn in Hos. subst os. destruct s; try done. cbn [close].
    rest. split; [done|exact (routed_wf _ _ Hw)].
Qed.

End bus.

(** ** PUB *)

Section pub.
Context `{Env}.

Lemma pub_sleeps : sleeps Publ.Pub_inv (λ _ : Pub, @None (kind * Timeout)) (λ _, True) (λ _ _, true).
Proof.
  split; [done| |].
  - intros i s _ _ He. destruct i; try done; simpl step; by rest.
  - intros s _ _. cbn [close]. by rest.
Qed.

End pub.

(** ** PAIR *)

Section pair.
Context `{Env}.

Definition pair_asleep (self : Pair) : Prop := Pair.state self = Some Pair.Idle.

Lemma pair_sleeps : sleeps Pair.Pair_inv Pair.Pair_pending pair_asleep (λ _ _, true).
Proof.
  split.
  - intros s Hs. unfold Pair.Pair_pending. by rewrite Hs.
  - intros i [n os] Hs _ He. unfold pair_asleep in Hs. cbn in Hs. subst os. destruct i; try done; simpl step; by rest.
  - intros [n os] (s & Hos & Hs) Hp. cbn in Hos. subst os. destruct s; try done.
    cbn [close Pair_protocol]. by rest.
Qed.

End pair.

(** ** REP *)

Section rep.
Context `{Env} `{ByteOrder}.

Definition rep_asleep (self : Rep) : Prop :=
  ∃ s, Rep.state self = Some s ∧ Rep.State_pending s = None ∧ wf (Rep.fq (Rep.inner self)).

Definition rep_asleep_guard (i : input) (self : Rep) : bool :=
  match i with
  | IAddPipe eid pipe => joinable eid (Pipe_get_recv_priority pipe) (Rep.fq (Rep.inner self))
  | IDevicePlugged => true
  | _ => Rep.Rep_guard i self
  end.

Lemma rep_sleeps : sleeps Rep.Rep_inv Rep.Rep_pending rep_asleep rep_asleep_guard.
Proof.
  split.
  - intros s (st & Hs & Hp & _). unfold Rep.Rep_pending. by rewrite Hs.
  - intros i [n os] (s & Hs & Hp & Hn) Hg He. cbn in Hs, Hn. subst os.
    destruct i as [| | | | | | | |eid raw| | | | | |]; try done; simpl step; cbn in Hg.
    6: { unfold Rep.Rep_on_recv_ack. unfold Rep.well_formed in Hg. cbn [Rep.inner].
      destruct (Rep.Inner_raw_msg_to_msg raw eid n); [|done]. destruct s; try done; rest; by eexists. }
    all: destruct s; try done; rest; eexists; split; try done; (split; [done|]); try done; by apply joinable_wf.
  - intros [n os] (s & Hos & Hw & _) Hp. cbn in Hos. subst os. cbn [close Rep_protocol].
    rest. exists s. split; [done|]. split; [done|exact (routed_wf _ _ Hw)].
Qed.

End rep.

(** ** RESPONDENT, as REP *)

Section resp.
Context `{Env} `{ByteOrder}.

Lemma resp_sleeps :
  sleeps Resp.Respondent_inv Resp.Respondent_pending (λ s, rep_asleep (Resp.to_rep s)) (λ i s, rep_asleep_guard i (Resp.to_rep s)).
Proof.
  split.
  - intros s. apply (sleeps_idle _ _ _ _ rep_sleeps).
  - intros i s Hs Hg He h. pose proof (Resp.step_matches i s h h) as Hm. unfold Resp.matches in Hm.
    destruct (sleeps_step _ _ _ _ rep_sleeps i _ Hs Hg He h) as (s' & o & Hrun & Ho & Hs').
    destruct (step i s h) as [s1 o1|]; [|congruence]. destruct Hm as (o2 & Hrun' & ->).
    rewrite Hrun' in Hrun. injection Hrun as <- <-. exists s1, (Resp.extra i s ++ o2). split; [done|].
    split; [|done]. rewrite replies_app, Ho, app_nil_r. unfold Resp.extra. destruct i; try done. by destruct (Resp.state s) as [[]|].
  - intros [n os] (s & Hos & Hw & _) Hp. unfold Resp.to_rep in *. cbn in *.
    destruct os as [s0|]; [|done]. injection Hos as <-. cbn [close Respondent_protocol]. rest.
    eexists. split; [done|]. split; [done|exact (routed_wf _ _ Hw)].
Qed.

End resp.

(** ** REQ *)

Section req.
Context `{Env} `{ByteOrder}.

(** A resend under way has no timer of a request. *)
Definition resends (s : Req.State) : Prop :=
  match s with
  | Req.Idle | Req.Active _ _ => True
  | Req.Sending _ _ t true | Req.SendOnHold _ t true => True
  | _ => False
  end.

Definition req_asleep (self : Req) : Prop :=
  ∃ s, Req.state self = Some s ∧ resends s ∧ wf (Req.lb (Req.inner self)) ∧ wf (Req.fq (Req.inner self)).

Definition req_asleep_guard (i : input) (self : Req) : bool :=
  match i with
  | IAddPipe eid pipe =>
      joinable eid (Pipe_get_send_priority pipe) (Req.lb (Req.inner self)) &&
      joinable eid (Pipe_get_recv_priority pipe) (Req.fq (Req.inner self))
  | IDevicePlugged => true
  | _ => Req.Req_guard i self
  end.

Lemma req_resends s : resends s → Req.State_pending s = None.
Proof. by destruct s as [|id m t []|m t []| | |]. Qed.

Lemma req_sleeps : sleeps Req.Req_inv Req.Req_pending req_asleep req_asleep_guard.
Proof.
  split.
  - intros s (st & Hs & Hp & _). unfold Req.Req_pending. rewrite Hs. by apply req_resends.
  - intros i [n os] (s & Hs & Hp & Hlb & Hfq) Hg He. cbn in Hs, Hlb, Hfq. subst os.
    destruct i as [| | | | | | | |eid raw| | | | | |]; try done; simpl step; cbn in Hg.
    6: { unfold Req.Req_on_recv_ack. cbn [Req.inner]. destruct (raw_some raw n Hg) as [[m rid] ->].
      destruct s as [|id m' t []|m' t []| | |]; try done; rest; by eexists. }
    1,2: apply andb_true_iff in Hg as [Hg1 Hg2].
    all: destruct s as [|id m' t []|m' t []| | |]; try done; rest; eexists; split; try done; (split; [done|]); try done;
      split; by apply joinable_wf.
  - intros [n os] (s & Hos & (Hlb & Hfq & _) & Hs) Hp. cbn in Hos. subst os. cbn [close Req_protocol].
    rest. exists s. split; [done|].
    split; [|split; [exact (routed_wf _ _ Hlb)|exact (routed_wf _ _ Hfq)]].
    by destruct s as [|id m t []|m t []| | |].
Qed.

End req.

(** ** SURVEYOR *)

Section surv.
Context `{Env} `{ByteOrder}.

Definition surv_asleep (self : Surveyor) : Prop :=
  ∃ s, Surv.state self = Some s ∧ Surv.State_pending s = None ∧ wf (Surv.fq (Surv.inner self)).

Definition surv_asleep_guard (i : input) (self : Surveyor) : bool :=
  match i with
  | IAddPipe eid pipe => joinable eid (Pipe_get_recv_priority pipe) (Surv.fq (Surv.inner self))
  | IDevicePlugged => true
  | _ => Surv.Surveyor_guard i self
  end.

Lemma surv_sleeps : sleeps Surv.Surveyor_inv Surv.Surveyor_pending surv_asleep surv_asleep_guard.
Proof.
  split.
  - intros s (st & Hs & Hp & _). unfold Surv.Surveyor_pending. by rewrite Hs.
  - intros i [n os] (s & Hs & Hp & Hn) Hg He. cbn in Hs, Hn. subst os.
    destruct i as [| | | | | | | |eid raw| | | | | |]; try done; simpl step; cbn in Hg.
    6: { unfold Surv.Surveyor_on_recv_ack. cbn [Surv.inner]. destruct (surv_raw_some raw n Hg) as [[m rid] ->].
      destruct s; try done; rest; by eexists. }
    all: destruct s; try done; rest; eexists; split; try done; (split; [done|]); try done; by apply joinable_wf.
  - intros [n os] (s & Hos & (Hw & _) & Hs) Hp. cbn in Hos. subst os. cbn [close Surveyor_protocol].
    rest. exists s. split; [done|]. split; [done|exact (routed_wf _ _ Hw)].
Qed.

End surv.
