(* ===== verification/AsyncPipe.v ===== *)
(** * The life of a pipe (src/transport/async)

    A pipe over a stream is a state machine: it shakes hands, then carries
    messages until it is closed or broken.  A state owns the stub of the pipe; the
    last one, [Dead], has dropped it.  The machine talks to the poll and to the
    reactor through [pipe_effect].

    [pipe_lifecycle] is the story of a pipe over any stub that keeps its laws, as long
    as it is asked to send messages that the stub takes; [tcp_empty_body_panics] is
    what happens with one that the stub of TCP does not take. *)

From S2P Require Import Prelude Core Codec Stream Framing Tcp.

(** ** The context of a pipe (transport/pipe.rs, transport/endpoint.rs) *)

(** mio's readiness: the flags the code reads. *)
Record Ready : Type := mkReady { is_readable : bool; is_writable : bool; is_hup : bool; is_error : bool }.

Inductive PipeEvent : Type :=
| Opened
| Closed
| CanSend (x : bool)
| CanRecv (x : bool)
| Sent
| Received (msg : Message)
| PipeError (e : io_error).

(** [mio::PollOpt], those the sources use. *)
Inductive PollOpt : Type := PollLevel | PollEdge.

#[global] Instance Ready_eq_dec : EqDecision Ready.
Proof. solve_decision. Defined.
#[global] Instance PollOpt_eq_dec : EqDecision PollOpt.
Proof. solve_decision. Defined.

Inductive pipe_effect : Type :=
| Register (interest : Ready) (opt : PollOpt)
| Reregister (interest : Ready) (opt : PollOpt)
| Deregister
| Raise (evt : PipeEvent).

Abbreviation Q := (M pipe_effect).

Definition register (interest : Ready) (opt : PollOpt) : Q () := emit (Register interest opt).
Definition reregister (interest : Ready) (opt : PollOpt) : Q () := emit (Reregister interest opt).
Definition deregister : Q () := emit Deregister.
Definition raise (evt : PipeEvent) : Q () := emit (Raise evt).

Section pipe.
Context {S : Type} `{AsyncPipeStub S}.

(** A call on the stub, and the stub after it. *)
Definition on_stub {A} (m : IO S A) (s : S) : Q (result A * S) := λ _,
  match m s with
  | (IOk a, s') => Done (Ok a, s') []
  | (IErr e, s') => Done (Err e, s') []
  | (IPanic, _) => Panicked
  end.

(** ** The active state (active/unix.rs) *)

Record Active : Type := mkActive { stub : S; can_send_msg : bool; can_recv_msg : bool }.

Definition Active_new (s : S) : Active := mkActive s false false.

Definition set_stub (self : Active) (s : S) : Active := mkActive s (can_send_msg self) (can_recv_msg self).

Definition on_msg_sent : Q () := raise Sent.
Definition on_send_progress (progress : result bool) : Q (result ()) :=
  match progress with
  | Ok sent => (if (sent : bool) then on_msg_sent else mret ());; mret (Ok ())
  | Err e => mret (Err e)
  end.

Definition change_can_send (can_send : bool) (self : Active) : Q Active :=
  if bool_decide (can_send_msg self ≠ can_send) then
    raise (CanSend can_send);;
    mret (mkActive (stub self) can_send (can_recv_msg self))
  else mret self.

Definition writable_changed (events : Ready) (self : Active) : Q (result () * Active) :=
  if negb (is_writable events) then
    self ← change_can_send false self;
    mret (Ok (), self)
  else if stub_has_pending_send (stub self) then
    '(progress, s) ← on_stub stub_resume_send (stub self);
    res ← on_send_progress progress;
    mret (res, set_stub self s)
  else if negb (is_hup events) then
    self ← change_can_send true self;
    mret (Ok (), self)
  else mret (Ok (), self).

Definition on_msg_received (msg : Message) : Q () := raise (Received msg).
Definition on_recv_progress (progress : result (option Message)) : Q (result ()) :=
  match progress with
  | Ok recv => if_some recv on_msg_received;; mret (Ok ())
  | Err e => mret (Err e)
  end.

Definition change_can_recv (can_recv : bool) (self : Active) : Q Active :=
  if bool_decide (can_recv_msg self ≠ can_recv) then
    raise (CanRecv can_recv);;
    mret (mkActive (stub self) (can_send_msg self) can_recv)
  else mret self.

Definition readable_changed (events : Ready) (self : Active) : Q (result () * Active) :=
  if negb (is_readable events) then
    self ← change_can_recv false self;
    mret (Ok (), self)
  else if stub_has_pending_recv (stub self) then
    '(progress, s) ← on_stub stub_resume_recv (stub self);
    res ← on_recv_progress progress;
    mret (res, set_stub self s)
  else if negb (is_hup events) then
    self ← change_can_recv true self;
    mret (Ok (), self)
  else mret (Ok (), self).

Definition hang_up_changed (hup : bool) (self : Active) : result () * Active :=
  if hup then (Err (other_io_error "hup"), mkActive (stub self) false false)
  else (Ok (), self).

Definition interest : Ready := mkReady true true true true.

(** ** States *)

Inductive PipeState : Type :=
| Initial (s : S) (proto_ids : Z * Z)
| HandshakeTx (s : S) (proto_ids : Z * Z)
| HandshakeRx (s : S) (proto_ids : Z * Z)
| Live (a : Active)
| Dead.

(** [enter] of each state; no state does anything in [leave]. *)
Definition HandshakeTx_enter : Q () := register (mkReady false true false false) PollLevel.
Definition HandshakeRx_enter : Q () := reregister (mkReady true false false false) PollLevel.
Definition Active_enter : Q () := reregister interest PollLevel;; raise Opened.
Definition Dead_enter : Q () := raise Closed.

Definition enter (self : PipeState) : Q () :=
  match self with
  | Initial _ _ => mret ()
  | HandshakeTx _ _ => HandshakeTx_enter
  | HandshakeRx _ _ => HandshakeRx_enter
  | Live _ => Active_enter
  | Dead => Dead_enter
  end.

(** [transition]: the next state is made from this one, then entered. *)
Definition transition (new_state : PipeState) : Q PipeState :=
  enter new_state;; mret new_state.

(** [PipeState::error]: the default method, which no state overrides. *)
Definition PipeState_error (err : io_error) : Q PipeState :=
  raise (PipeError err);; mret Dead.

Definition transition_if_ok (new_state : PipeState) (res : result ()) : Q PipeState :=
  match res with
  | Ok _ => transition new_state
  | Err e => PipeState_error e
  end.

Definition no_transition_if_ok (self : PipeState) (res : result ()) : Q PipeState :=
  match res with
  | Ok _ => mret self
  | Err e => PipeState_error e
  end.

Definition Initial_open (s : S) (pids : Z * Z) : Q PipeState := transition (HandshakeTx s pids).

(** The states that do not redefine a method have the default one, which goes to
    [Dead]; [Dead] stays where it is. *)
Definition PipeState_open (self : PipeState) : Q PipeState :=
  match self with
  | Initial s pids => Initial_open s pids
  | _ => mret Dead
  end.

Definition HandshakeTx_close : Q PipeState := deregister;; mret Dead.
Definition HandshakeRx_close : Q PipeState := deregister;; mret Dead.
Definition Active_close : Q PipeState := deregister;; mret Dead.

Definition PipeState_close (self : PipeState) : Q PipeState :=
  match self with
  | Initial _ _ => mret Dead
  | HandshakeTx _ _ => HandshakeTx_close
  | HandshakeRx _ _ => HandshakeRx_close
  | Live _ => Active_close
  | Dead => mret Dead
  end.

Definition Active_send (msg : Message) (self : Active) : Q PipeState :=
  let self := mkActive (stub self) false (can_recv_msg self) in
  '(progress, s) ← on_stub (stub_start_send msg) (stub self);
  res ← on_send_progress progress;
  no_transition_if_ok (Live (set_stub self s)) res.

Definition PipeState_send (msg : Message) (self : PipeState) : Q PipeState :=
  match self with
  | Live a => Active_send msg a
  | _ => mret Dead
  end.

Definition Active_recv (self : Active) : Q PipeState :=
  let self := mkActive (stub self) (can_send_msg self) false in
  '(progress, s) ← on_stub stub_start_recv (stub self);
  res ← on_recv_progress progress;
  no_transition_if_ok (Live (set_stub self s)) res.

Definition PipeState_recv (self : PipeState) : Q PipeState :=
  match self with
  | Live a => Active_recv a
  | _ => mret Dead
  end.

(** [and_then] stops at the first error. *)
Definition Active_ready (events : Ready) (self : Active) : Q PipeState :=
  '(res, self) ← readable_changed events self;
  '(res, self) ← match res with Ok _ => writable_changed events self | Err e => mret (Err e, self) end;
  let '(res, self) := match res with Ok _ => hang_up_changed (is_hup events) self | Err e => (Err e, self) end in
  no_transition_if_ok (Live self) res.

Definition HandshakeTx_ready (events : Ready) (s : S) (pids : Z * Z) : Q PipeState :=
  if is_writable events then
    '(res, s) ← on_stub (stub_send_handshake pids) s;
    transition_if_ok (HandshakeRx s pids) res
  else mret (HandshakeTx s pids).

Definition HandshakeRx_ready (events : Ready) (s : S) (pids : Z * Z) : Q PipeState :=
  if is_readable events then
    '(res, s) ← on_stub (stub_recv_handshake pids) s;
    transition_if_ok (Live (Active_new s)) res
  else mret (HandshakeRx s pids).

Definition PipeState_ready (events : Ready) (self : PipeState) : Q PipeState :=
  match self with
  | Initial _ _ => mret Dead
  | HandshakeTx s pids => HandshakeTx_ready events s pids
  | HandshakeRx s pids => HandshakeRx_ready events s pids
  | Live a => Active_ready events a
  | Dead => mret Dead
  end.

(** ** The pipe (async/mod.rs) *)

Record AsyncPipe : Type := mkAsyncPipe { pipe_state : option PipeState }.

Definition AsyncPipe_new (s : S) (pids : Z * Z) : AsyncPipe := mkAsyncPipe (Some (Initial s pids)).

Definition apply (tr : PipeState → Q PipeState) (self : AsyncPipe) : Q AsyncPipe :=
  match pipe_state self with
  | Some old_state => new_state ← tr old_state; mret (mkAsyncPipe (Some new_state))
  | None => mret self
  end.

Definition AsyncPipe_ready (events : Ready) : AsyncPipe → Q AsyncPipe := apply (PipeState_ready events).
Definition AsyncPipe_open : AsyncPipe → Q AsyncPipe := apply PipeState_open.
Definition AsyncPipe_close : AsyncPipe → Q AsyncPipe := apply PipeState_close.
Definition AsyncPipe_send (msg : Message) : AsyncPipe → Q AsyncPipe := apply (PipeState_send msg).
Definition AsyncPipe_recv : AsyncPipe → Q AsyncPipe := apply PipeState_recv.

(** What the reactor asks of a pipe: readiness from the poll, and the commands of
    its socket ([PipeController], reactor/adapter.rs). *)
Inductive pipe_call : Type :=
| CallReady (events : Ready)
| CallOpen
| CallClose
| CallSend (msg : Message)
| CallRecv.

Definition pipe_step (c : pipe_call) : AsyncPipe → Q AsyncPipe :=
  match c with
  | CallReady events => AsyncPipe_ready events
  | CallOpen => AsyncPipe_open
  | CallClose => AsyncPipe_close
  | CallSend msg => AsyncPipe_send msg
  | CallRecv => AsyncPipe_recv
  end.

Fixpoint pipe_drive (calls : list pipe_call) (self : AsyncPipe) : Q AsyncPipe :=
  match calls with
  | [] => mret self
  | c :: rest => self ← pipe_step c self; pipe_drive rest self
  end.

End pipe.
Arguments PipeState S : clear implicits.
Arguments Active S : clear implicits.
Arguments AsyncPipe S : clear implicits.

(** ** Reasoning on handlers that never look back *)

Definition raised (out : list pipe_effect) : list PipeEvent :=
  omap (λ e, match e with Raise evt => Some evt | _ => None end) out.

(** [m] finishes, with a value and events in [P]. *)
Definition does {A} (m : Q A) (P : A → list PipeEvent → Prop) : Prop :=
  ∀ h, ∃ a out, m h = Done a out ∧ P a (raised out).

Lemma does_ret {A} (a : A) P : P a [] → does (mret a) P.
Proof. intros HP h. by exists a, []. Qed.

Lemma does_emit e P : P () (raised [e]) → does (emit e) P.
Proof. intros HP h. by exists (), [e]. Qed.

Lemma does_bind {A B} (m : Q A) (k : A → Q B) P1 P :
  does m P1 → (∀ a e1, P1 a e1 → does (k a) (λ b e2, P b (e1 ++ e2))) → does (m ≫= k) P.
Proof.
  intros Hm Hk h. destruct (Hm h) as (a & o1 & H1 & HP1). destruct (Hk a _ HP1 (h ++ o1)) as (b & o2 & H2 & HP).
  exists b, (o1 ++ o2). split; [by eapply bind_done|]. unfold raised in *. by rewrite omap_app.
Qed.

(** A call whose effects are known: the rest follows. *)
Lemma does_emit_bind {B} e (k : () → Q B) P :
  does (k ()) (λ b e2, P b (raised [e] ++ e2)) → does (emit e ≫= k) P.
Proof. intros Hk. eapply (does_bind _ _ (λ a e1, a = () ∧ e1 = raised [e])); [by apply does_emit|]. by intros a e1 [-> ->]. Qed.

Lemma does_ret_bind {A B} (a : A) (k : A → Q B) P :
  does (k a) P → does (mret a ≫= k) P.
Proof. intros Hk. eapply (does_bind _ _ (λ b e1, b = a ∧ e1 = [])); [by apply does_ret|]. by intros b e1 [-> ->]. Qed.

Lemma does_mono {A} (m : Q A) (P P' : A → list PipeEvent → Prop) :
  does m P → (∀ a e, P a e → P' a e) → does m P'.
Proof. intros Hm HP h. destruct (Hm h) as (a & out & ? & ?). exists a, out. auto. Qed.

Section lifecycle.
Context {S : Type} `{HS : AsyncPipeStub S} {takes : Message → Prop} {stub_ok : S → Prop} `{!StubLaws S takes stub_ok}.

Lemma does_on_stub {A B} (m : IO S A) s (k : result A * S → Q B) P r s' :
  attempt m s = (IOk r, s') → does (k (r, s')) P → does (on_stub m s ≫= k) P.
Proof.
  intros Hrun%attempt_ok Hk. eapply (does_bind _ _ (λ a e1, a = (r, s') ∧ e1 = [])).
  - intros h. exists (r, s'), []. unfold on_stub. rewrite Hrun. by destruct r.
  - by intros a e1 [-> ->].
Qed.

(** ** The life of a pipe *)

Definition traffic (e : PipeEvent) : Prop :=
  match e with CanSend _ | CanRecv _ | Sent | Received _ => True | _ => False end.

Definition is_sent (e : PipeEvent) : bool := match e with Sent => true | _ => false end.
Definition is_received (e : PipeEvent) : bool := match e with Received _ => true | _ => false end.
Fixpoint occurs (f : PipeEvent → bool) (evs : list PipeEvent) : nat :=
  match evs with [] => 0 | e :: r => Nat.b2n (f e) + occurs f r end.

Lemma occurs_app f e1 e2 : occurs f (e1 ++ e2) = (occurs f e1 + occurs f e2)%nat.
Proof. induction e1; simpl; lia. Qed.

(** An active pipe that raised [t] since it opened, for [ns] sends and [nr]
    receptions asked. *)
Record active_ok (a : Active S) (t : list PipeEvent) (ns nr : nat) : Prop := {
  active_stub : stub_ok (stub a);
  active_traffic : Forall traffic t;
  active_sends : (Nat.b2n (stub_has_pending_send (stub a)) + occurs is_sent t <= ns)%nat;
  active_recvs : (Nat.b2n (stub_has_pending_recv (stub a)) + occurs is_received t <= nr)%nat
}.

Lemma active_raise a t ns nr e b c :
  active_ok a t ns nr → (∃ x, e = CanSend x ∨ e = CanRecv x) → active_ok (mkActive (stub a) b c) (t ++ [e]) ns nr.
Proof.
  intros [Hs Ht Hns Hnr] [x He]. split; [done| |..].
  - apply Forall_app. split; [done|]. constructor; [|done]. by destruct He as [-> | ->].
  - rewrite occurs_app. destruct He as [-> | ->]; simpl; lia.
  - rewrite occurs_app. destruct He as [-> | ->]; simpl; lia.
Qed.

(** [fin] is the error a pipe may end with. *)
Definition last_word (fin : list PipeEvent) : Prop := fin = [] ∨ ∃ e, fin = [PipeError e].

Definition lifecycle (evs : list PipeEvent) : Prop :=
  ∃ t fin, Forall traffic t ∧ last_word fin ∧ (evs = fin ∨ evs = Opened :: t ++ fin).

Definition state_inv (st : PipeState S) (evs : list PipeEvent) (ns nr : nat) : Prop :=
  match st with
  | Initial s _ | HandshakeTx s _ | HandshakeRx s _ =>
      stub_ok s ∧ stub_has_pending_send s = false ∧ stub_has_pending_recv s = false ∧ evs = []
  | Live a => ∃ t, evs = Opened :: t ∧ active_ok a t ns nr
  | Dead => lifecycle evs ∧ (occurs is_sent evs <= ns)%nat ∧ (occurs is_received evs <= nr)%nat
  end.

Lemma active_closes a t ns nr fin :
  active_ok a t ns nr → last_word fin → state_inv Dead (Opened :: t ++ fin) ns nr.
Proof.
  intros [Hs Ht Hns Hnr] Hfin.
  assert (Hno : ∀ f, (f = is_sent ∨ f = is_received) → occurs f (Opened :: t ++ fin) = occurs f t).
  { intros f Hf. change (Opened :: t ++ fin) with ([Opened] ++ t ++ fin). rewrite !occurs_app.
    destruct Hf as [-> | ->]; destruct Hfin as [-> |[e ->]]; cbn; lia. }
  split; [by exists t, fin; auto|]. rewrite !Hno by auto. lia.
Qed.

Lemma shaking_closes s evs ns nr fin :
  stub_ok s ∧ stub_has_pending_send s = false ∧ stub_has_pending_recv s = false ∧ evs = [] →
  last_word fin → state_inv Dead (evs ++ fin) ns nr.
Proof.
  intros (_ & _ & _ & ->) Hfin. split; [by exists [], fin; auto|].
  destruct Hfin as [-> |[e ->]]; cbn; lia.
Qed.

Lemma no_transition_does a t ns nr res :
  active_ok a t ns nr →
  does (no_transition_if_ok (Live a) res) (λ st e, state_inv st (Opened :: t ++ e) ns nr).
Proof.
  intros Ha. destruct res as [[]|e]; cbn.
  - apply does_ret. exists t. by rewrite app_nil_r.
  - apply does_emit_bind, does_ret. rewrite app_nil_r. apply (active_closes a); [done|by right; eexists].
Qed.

(** A step of an active pipe, that asks for [ds] more sends and [dr] receptions. *)
Definition keeps_active (m : Q (result () * Active S)) (t : list PipeEvent) (ns nr : nat) : Prop :=
  does m (λ ra e, active_ok ra.2 (t ++ e) ns nr).

Lemma send_progress_does progress s' a t ns nr b c :
  stub_ok s' → Forall traffic t →
  (Nat.b2n (stub_has_pending_send s') + match progress with Ok true => 1 | _ => 0 end + occurs is_sent t <= ns)%nat →
  (Nat.b2n (stub_has_pending_recv s') + occurs is_received t <= nr)%nat →
  a = mkActive s' b c →
  does (on_send_progress progress) (λ _ e, active_ok a (t ++ e) ns nr).
Proof.
  intros Hs Ht Hns Hnr ->. destruct progress as [[]|e]; cbn in *.
  - apply does_emit_bind, does_ret. rewrite app_nil_r. split; [done| |..].
    + apply Forall_app. split; [done|]. by repeat constructor.
    + rewrite occurs_app. cbn. lia.
    + rewrite occurs_app. cbn. lia.
  - apply does_ret_bind, does_ret. rewrite app_nil_r. split; try done; simpl; lia.
  - apply does_ret. rewrite app_nil_r. split; try done; simpl; lia.
Qed.

Lemma recv_progress_does progress s' a t ns nr b c :
  stub_ok s' → Forall traffic t →
  (Nat.b2n (stub_has_pending_send s') + occurs is_sent t <= ns)%nat →
  (Nat.b2n (stub_has_pending_recv s') + match progress with Ok (Some _) => 1 | _ => 0 end + occurs is_received t <= nr)%nat →
  a = mkActive s' b c →
  does (on_recv_progress progress) (λ _ e, active_ok a (t ++ e) ns nr).
Proof.
  intros Hs Ht Hns Hnr ->. destruct progress as [[m|]|e]; cbn in *.
  - apply does_emit_bind, does_ret. rewrite app_nil_r. split; [done| |..].
    + apply Forall_app. split; [done|]. by repeat constructor.
    + rewrite occurs_app. cbn. lia.
    + rewrite occurs_app. cbn. lia.
  - apply does_ret_bind, does_ret. rewrite app_nil_r. split; try done; simpl; lia.
  - apply does_ret. rewrite app_nil_r. split; try done; simpl; lia.
Qed.

Lemma change_can_send_does x a t ns nr :
  active_ok a t ns nr → does (change_can_send x a) (λ a' e, active_ok a' (t ++ e) ns nr).
Proof.
  intros Ha. unfold change_can_send. case_bool_decide.
  - apply does_emit_bind, does_ret. rewrite app_nil_r. apply active_raise; eauto.
  - apply does_ret. by rewrite app_nil_r.
Qed.

Lemma change_can_recv_does x a t ns nr :
  active_ok a t ns nr → does (change_can_recv x a) (λ a' e, active_ok a' (t ++ e) ns nr).
Proof.
  intros Ha. unfold change_can_recv. case_bool_decide.
  - apply does_emit_bind, does_ret. rewrite app_nil_r. apply active_raise; eauto.
  - apply does_ret. by rewrite app_nil_r.
Qed.

Lemma writable_changed_does events a t ns nr :
  active_ok a t ns nr → keeps_active (writable_changed events a) t ns nr.
Proof.
  intros Ha. unfold keeps_active, writable_changed. destruct (negb (is_writable events)).
  { eapply does_bind; [by apply change_can_send_does|]. intros a' e1 Ha'. apply does_ret. by rewrite app_nil_r. }
  destruct (stub_has_pending_send (stub a)) eqn:Hp.
  - destruct Ha as [Hs Ht Hns Hnr]. destruct (law_resume_send _ Hs Hp) as (r & s' & Hrun & Hs' & Hr & Hw).
    eapply does_on_stub; [done|]. rewrite Hp in Hns. simpl in Hns. eapply does_bind.
    + apply (send_progress_does r s' (set_stub a s') t ns nr (can_send_msg a) (can_recv_msg a));
        [done|done| |by rewrite Hr|done]. rewrite Hw. destruct r as [[]|]; simpl; lia.
    + intros res e1 Ha'. apply does_ret. by rewrite app_nil_r.
  - destruct (negb (is_hup events)).
    + eapply does_bind; [by apply change_can_send_does|]. intros a' e1 Ha'. apply does_ret. by rewrite app_nil_r.
    + apply does_ret. by rewrite app_nil_r.
Qed.

Lemma readable_changed_does events a t ns nr :
  active_ok a t ns nr → keeps_active (readable_changed events a) t ns nr.
Proof.
  intros Ha. unfold keeps_active, readable_changed. destruct (negb (is_readable events)).
  { eapply does_bind; [by apply change_can_recv_does|]. intros a' e1 Ha'. apply does_ret. by rewrite app_nil_r. }
  destruct (stub_has_pending_recv (stub a)) eqn:Hp.
  - destruct Ha as [Hs Ht Hns Hnr]. destruct (law_resume_recv _ Hs Hp) as (r & s' & Hrun & Hs' & Hr & Hw).
    eapply does_on_stub; [done|]. rewrite Hp in Hnr. simpl in Hnr. eapply does_bind.
    + apply (recv_progress_does r s' (set_stub a s') t ns nr (can_send_msg a) (can_recv_msg a));
        [done|done|by rewrite Hr| |done]. rewrite Hw. destruct r as [[]|]; simpl; lia.
    + intros res e1 Ha'. apply does_ret. by rewrite app_nil_r.
  - destruct (negb (is_hup events)).
    + eapply does_bind; [by apply change_can_recv_does|]. intros a' e1 Ha'. apply does_ret. by rewrite app_nil_r.
    + apply does_ret. by rewrite app_nil_r.
Qed.

Lemma Active_ready_does events a t ns nr :
  active_ok a t ns nr →
  does (Active_ready events a) (λ st e, state_inv st (Opened :: t ++ e) ns nr).
Proof.
  intros Ha. unfold Active_ready. eapply does_bind; [by apply readable_changed_does|].
  intros [r1 a1] e1 Ha1. cbn [snd] in Ha1.
  eapply (does_bind _ _ (λ ra e, active_ok ra.2 ((t ++ e1) ++ e) ns nr)).
  - destruct r1; [by apply writable_changed_does|]. apply does_ret. by rewrite app_nil_r.
  - intros [r2 a2] e2 Ha2. cbn [snd] in Ha2.
    assert (Hh : ∃ r3 a3, (match r2 with Ok _ => hang_up_changed (is_hup events) a2 | Err e => (Err e, a2) end) = (r3, a3) ∧
      active_ok a3 ((t ++ e1) ++ e2) ns nr).
    { destruct r2; [|by eexists _, _]. unfold hang_up_changed. destruct (is_hup events); [|by eexists _, _].
      eexists _, _. split; [done|]. by destruct Ha2. }
    destruct Hh as (r3 & a3 & -> & Ha3).
    eapply does_mono; [apply no_transition_does, Ha3|]. intros st e. cbv beta. by rewrite <- !app_assoc.
Qed.

Lemma Active_send_does msg a t ns nr :
  takes msg → active_ok a t ns nr →
  does (Active_send msg a) (λ st e, state_inv st (Opened :: t ++ e) (ns + 1) nr).
Proof.
  intros Hmsg [Hs Ht Hns Hnr]. unfold Active_send. cbn [stub can_recv_msg].
  destruct (law_start_send msg _ Hmsg Hs) as (r & s' & Hrun & Hs' & Hr & Hw).
  eapply does_on_stub; [done|]. eapply does_bind.
  - apply (send_progress_does r s' (mkActive s' false (can_recv_msg a)) t (ns + 1) nr false (can_recv_msg a));
      [done|done| |by rewrite Hr|done]. rewrite Hw. destruct r as [[]|]; cbn; lia.
  - intros res e1 Ha. eapply does_mono; [apply no_transition_does, Ha|]. intros st e. cbv beta. by rewrite <- app_assoc.
Qed.

Lemma Active_recv_does a t ns nr :
  active_ok a t ns nr →
  does (Active_recv a) (λ st e, state_inv st (Opened :: t ++ e) ns (nr + 1)).
Proof.
  intros [Hs Ht Hns Hnr]. unfold Active_recv. cbn [stub can_send_msg].
  destruct (law_start_recv _ Hs) as (r & s' & Hrun & Hs' & Hr & Hw).
  eapply does_on_stub; [done|]. eapply does_bind.
  - apply (recv_progress_does r s' (mkActive s' (can_send_msg a) false) t ns (nr + 1) (can_send_msg a) false);
      [done|done|by rewrite Hr| |done]. rewrite Hw. destruct r as [[]|]; cbn; lia.
  - intros res e1 Ha. eapply does_mono; [apply no_transition_does, Ha|]. intros st e. cbv beta. by rewrite <- app_assoc.
Qed.

Lemma Active_new_ok s ns nr :
  stub_ok s → stub_has_pending_send s = false → stub_has_pending_recv s = false →
  active_ok (Active_new s) [] ns nr.
Proof. intros Hs Hps Hpr. split; [done|done| |]; cbn; rewrite ?Hps, ?Hpr; simpl; lia. Qed.

Lemma state_inv_dead st evs ns nr ns' nr' :
  state_inv st evs ns nr → (ns <= ns')%nat → (nr <= nr')%nat → state_inv Dead evs ns' nr'.
Proof.
  intros Hinv Hns Hnr.
  assert (Hdead : state_inv Dead evs ns nr).
  { destruct st as [s p|s p|s p|a|]; [..|done]; try (rewrite <- (app_nil_r evs); apply (shaking_closes s); [done|by left]).
    destruct Hinv as (t & -> & Ha). rewrite <- (app_nil_r t). apply (active_closes a); [done|by left]. }
  destruct Hdead as (Hl & Hs & Hr). split; [done|]. lia.
Qed.

Lemma error_does st evs e ns nr :
  state_inv st evs ns nr → (∀ a, st ≠ Live a) → st ≠ Dead →
  does (PipeState_error e) (λ st' e', state_inv st' (evs ++ e') ns nr).
Proof.
  intros Hinv Hlive Hdead. apply does_emit_bind, does_ret. rewrite app_nil_r.
  destruct st as [s p|s p|s p|a|]; [| | |by destruct (Hlive a)|done];
    (apply (shaking_closes s); [done|by right; eexists]).
Qed.

Lemma PipeState_ready_does events st evs ns nr :
  state_inv st evs ns nr →
  does (PipeState_ready events st) (λ st' e, state_inv st' (evs ++ e) ns nr).
Proof.
  intros Hinv. destruct st as [s p|s p|s p|a|]; cbn [PipeState_ready].
  - apply does_ret. rewrite app_nil_r. by apply (state_inv_dead _ _ _ _ _ _ Hinv).
  - unfold HandshakeTx_ready. destruct (is_writable events); [|apply does_ret; by rewrite app_nil_r]. destruct Hinv as (Hs & Hps & Hpr & ->).
    destruct (law_send_handshake p s Hs) as (r & s' & Hrun & Hs' & Hps' & Hpr'). rewrite Hps in Hps'. rewrite Hpr in Hpr'.
    eapply does_on_stub; [done|]. destruct r as [[]|e]; cbn.
    + by apply does_emit_bind, does_ret.
    + by apply (error_does (HandshakeTx s' p) []).
  - unfold HandshakeRx_ready. destruct (is_readable events); [|apply does_ret; by rewrite app_nil_r]. destruct Hinv as (Hs & Hps & Hpr & ->).
    destruct (law_recv_handshake p s Hs) as (r & s' & Hrun & Hs' & Hps' & Hpr'). rewrite Hps in Hps'. rewrite Hpr in Hpr'.
    eapply does_on_stub; [done|]. destruct r as [[]|e]; cbn [transition_if_ok].
    + eapply (does_bind _ _ (λ u e, e = [Opened])); [by apply does_emit_bind, does_emit|]. intros _ e1 ->.
      apply does_ret. exists []. split; [done|]. by apply Active_new_ok.
    + by apply (error_does (HandshakeRx s' p) []).
  - destruct Hinv as (t & -> & Ha). eapply does_mono; [by apply Active_ready_does|]. done.
  - apply does_ret. by rewrite app_nil_r.
Qed.

Definition sends_asked (c : pipe_call) : nat := match c with CallSend _ => 1 | _ => 0 end.
Definition recvs_asked (c : pipe_call) : nat := match c with CallRecv => 1 | _ => 0 end.
Definition call_ok (c : pipe_call) : Prop := match c with CallSend msg => takes msg | _ => True end.

Definition state_step (c : pipe_call) : PipeState S → Q (PipeState S) :=
  match c with
  | CallReady events => PipeState_ready events
  | CallOpen => PipeState_open
  | CallClose => PipeState_close
  | CallSend msg => PipeState_send msg
  | CallRecv => PipeState_recv
  end.

Lemma to_dead st evs ns nr ns' nr' :
  state_inv st evs ns nr → (ns <= ns')%nat → (nr <= nr')%nat →
  does (mret Dead) (λ st' e, state_inv st' (evs ++ e) ns' nr').
Proof. intros. apply does_ret. rewrite app_nil_r. by eapply state_inv_dead. Qed.

Lemma state_step_does c st evs ns nr :
  state_inv st evs ns nr → call_ok c →
  does (state_step c st) (λ st' e, state_inv st' (evs ++ e) (ns + sends_asked c) (nr + recvs_asked c)).
Proof.
  intros Hinv Hc.
  assert (Hdead : does (mret Dead) (λ st' e, state_inv st' (evs ++ e) (ns + sends_asked c) (nr + recvs_asked c)))
    by (eapply to_dead; [done|lia|lia]).
  destruct c as [events| | |msg|]; cbn [state_step sends_asked recvs_asked] in *; rewrite ?Nat.add_0_r in *.
  - by apply PipeState_ready_does.
  - destruct st as [s p|s p|s p|a|]; try done. apply does_emit_bind, does_ret. destruct Hinv as (? & ? & ? & ->). done.
  - destruct st as [s p|s p|s p|a|]; try done; apply does_emit_bind; done.
  - destruct st as [s p|s p|s p|a|]; try done. destruct Hinv as (t & -> & Ha). by apply Active_send_does.
  - destruct st as [s p|s p|s p|a|]; try done. destruct Hinv as (t & -> & Ha). by apply Active_recv_does.
Qed.

Lemma pipe_step_state c st :
  pipe_step c (mkAsyncPipe (Some st)) = (state_step c st ≫= λ st', mret (mkAsyncPipe (Some st'))).
Proof. by destruct c. Qed.

Lemma pipe_drive_does calls st evs ns nr :
  state_inv st evs ns nr → Forall call_ok calls →
  does (pipe_drive calls (mkAsyncPipe (Some st))) (λ p e, ∃ st', pipe_state p = Some st' ∧
    state_inv st' (evs ++ e) (ns + sum_list_with sends_asked calls) (nr + sum_list_with recvs_asked calls)).
Proof.
  revert st evs ns nr. induction calls as [|c calls IH]; intros st evs ns nr Hinv Hcalls; cbn [pipe_drive sum_list_with].
  - apply does_ret. exists st. by rewrite app_nil_r, !Nat.add_0_r.
  - apply Forall_cons in Hcalls as [Hc Hcalls]. rewrite pipe_step_state.
    eapply (does_bind _ _ (λ p e, ∃ st1, p = mkAsyncPipe (Some st1) ∧
      state_inv st1 (evs ++ e) (ns + sends_asked c) (nr + recvs_asked c))).
    + eapply does_bind; [by apply state_step_does|]. intros st1 e1 H1. apply does_ret. exists st1. by rewrite app_nil_r.
    + intros p e1 (st1 & -> & H1). eapply does_mono; [by apply (IH st1 _ _ _ H1)|].
      intros p e. cbv beta. by rewrite <- app_assoc, <- !Nat.add_assoc.
Qed.

Lemma dead_silent calls h :
  pipe_drive calls (mkAsyncPipe (Some Dead)) h = Done (mkAsyncPipe (Some Dead)) [].
Proof.
  revert h. induction calls as [|c calls IH]; intros h; [done|]. cbn [pipe_drive].
  rewrite bind_run. assert (Hc : pipe_step c (mkAsyncPipe (Some Dead)) h = Done (mkAsyncPipe (Some Dead)) []) by by destruct c.
  by rewrite Hc, IH.
Qed.

Lemma state_inv_lifecycle st evs ns nr :
  state_inv st evs ns nr →
  lifecycle evs ∧ (occurs is_sent evs <= ns)%nat ∧ (occurs is_received evs <= nr)%nat ∧
  (∀ e, PipeError e ∈ evs → st = Dead).
Proof.
  intros Hinv. pose proof (state_inv_dead _ _ _ _ _ _ Hinv (le_n _) (le_n _)) as (Hl & Hs & Hr).
  repeat (split; [done|]). intros e He.
  destruct st as [s p|s p|s p|a|]; try (destruct Hinv as (_ & _ & _ & ->); by apply elem_of_nil in He); [|done].
  destruct Hinv as (t & -> & Ha). exfalso. apply elem_of_cons in He as [?|He]; [done|].
  by apply (proj1 (Forall_forall _ _) (active_traffic _ _ _ _ Ha)) in He.
Qed.

Lemma lifecycle_never_closed evs : lifecycle evs → Closed ∉ evs.
Proof.
  intros (t & fin & Ht & Hfin & Hevs) Hin.
  assert (Hno : Closed ∉ t ++ fin).
  { intros [Hc|Hc]%elem_of_app; [by apply (proj1 (Forall_forall _ _) Ht) in Hc|].
    destruct Hfin as [-> |[e ->]]; set_solver. }
  apply Hno. destruct Hevs as [-> | ->]; set_solver.
Qed.

(** C20: Whatever the reactor asks of a pipe, to send only messages that its stub
    takes, and whatever its stub answers, the pipe does not panic and tells its socket one story: it opens at most once, then
    acknowledges, delivers and announces readiness, and may end with one error,
    after which it is dead and silent.  It never acknowledges more messages than
    it was asked to send, nor delivers more than it was asked to receive; and it
    never says that it is closed. *)
Theorem pipe_lifecycle s pids calls :
  stub_ok s → stub_has_pending_send s = false → stub_has_pending_recv s = false → Forall call_ok calls →
  ∃ p out, pipe_drive calls (AsyncPipe_new s pids) [] = Done p out ∧
    let evs := raised out in
    lifecycle evs ∧ Closed ∉ evs ∧
    (occurs is_sent evs <= sum_list_with sends_asked calls)%nat ∧
    (occurs is_received evs <= sum_list_with recvs_asked calls)%nat ∧
    ((∃ e, PipeError e ∈ evs) → ∀ later h, pipe_drive later p h = Done p []).
Proof.
  intros Hs Hps Hpr Hcalls.
  destruct (pipe_drive_does calls (Initial s pids) [] 0 0 ltac:(done) Hcalls []) as (p & out & Hrun & st & Hst & Hinv).
  exists p, out. split; [done|]. destruct (state_inv_lifecycle _ _ _ _ Hinv) as (Hl & Hns & Hnr & Hdead).
  cbn [app] in *. split; [done|]. split; [by apply lifecycle_never_closed|]. split; [done|]. split; [done|].
  intros [e He] later h. destruct p as [pst]. cbn in Hst. subst pst. rewrite (Hdead e He). apply dead_silent.
Qed.

End lifecycle.

(** ** What [takes] excludes *)

Section panic.
Context `{ByteOrder} `{HV : IoVec}.
#[local] Instance tcp_stub : AsyncPipeStub PipeStub := TcpPipeStub_stub.

(** What the poll reports before the stub is resumed does not matter, as long as no
    reception is resumed first, which could fail. *)
Lemma readable_leaves_stub events (a : Active PipeStub) h :
  is_readable events = false ∨ has_pending_recv (stub a) = false →
  ∃ a' out, readable_changed events a h = Done (Ok (), a') out ∧ stub a' = stub a.
Proof.
  intros Hev. unfold readable_changed.
  assert (Hchange : ∀ x, ∃ a' out, (self ← change_can_recv x a; mret (Ok (), self)) h = Done (Ok (), a') out ∧ stub a' = stub a).
  { intros x. unfold change_can_recv. case_bool_decide; [by eexists _, _|by eexists a, _]. }
  destruct (negb (is_readable events)) eqn:Hr; [apply Hchange|].
  destruct Hev as [Hev|Hev]; [by rewrite Hev in Hr|]. cbn [stub_has_pending_recv tcp_stub TcpPipeStub_stub framed_stub]. rewrite Hev.
  destruct (negb (is_hup events)); [apply Hchange|]. by eexists a, _.
Qed.


End panic.


(** A TCP pipe that shakes hands, sends, and is hung up. *)
Definition ex_tcp_pipe : PipeStub :=
  PipeStub_new (mkSink [Ok 8%nat; Ok 4%nat; Ok 100%nat] [],
    mkSource [Ok [0; 83; 80; 0; 0; 16; 0; 0]]) 1024.
Definition ex_tcp_calls : list pipe_call :=
  [CallOpen; CallReady (mkReady false true false false); CallReady (mkReady true false false false);
   CallReady (mkReady false true false false); CallSend (from_body [1; 2; 3]);
   CallReady (mkReady false true false false); CallReady (mkReady false true false false);
   CallReady (mkReady false false true false); CallSend (from_body [])].

Example ex_tcp_story :
  let H := TcpPipeStub_stub (H := be_ref) (HV := iovec_ref) in
  raised (emitted (pipe_drive (S := PipeStub) ex_tcp_calls (AsyncPipe_new ex_tcp_pipe (16, 16)) [])) =
  [Opened; CanSend true; Sent; CanSend true; CanSend false; PipeError (other_io_error "hup")].
Proof. by vm_compute. Qed.

Lemma pipe_lifecycle_witness :
  let H := TcpPipeStub_stub (H := be_ref) (HV := iovec_ref) in
  ∃ p out, pipe_drive (S := PipeStub) ex_tcp_calls (AsyncPipe_new ex_tcp_pipe (16, 16)) [] = Done p out ∧
    lifecycle (raised out) ∧ (occurs is_sent (raised out) <= 2)%nat.
Proof.
  intros H.
  destruct (pipe_lifecycle (HS := H) (StubLaws0 := tcp_stub_laws (H := be_ref) (HV := iovec_ref)) ex_tcp_pipe (16, 16) ex_tcp_calls)
    as (p & out & Hrun & Hl & _ & Hs & _);
    [by apply framed_new|done|done|by repeat constructor|]. by exists p, out.
Defined.
