(* ===== verification/Exchange.v ===== *)
(** * A request and its reply, across devices

    A REQ socket, a chain of devices and a REP socket, each in a world of its own,
    joined by transports.  What leaves one socket arrives at the next as
    [Framing.transfers] says: header and body as one body ([arrival]).  The theorems
    follow a request to the REP socket and the reply back to the one that asked. *)

From S2P Require Import Prelude Core Context Priolist Pipes Protocol Codec Req Rep Stream Framing.

(** ** Sockets far apart *)

(** A protocol where it runs, and what it emitted so far. *)
Record party (T : Type) : Type := mkParty { world : Env; who : T; past : trace }.
Arguments mkParty {T}. Arguments world {T}. Arguments who {T}. Arguments past {T}.

Section exchange.
Context `{ByteOrder}.

Definition hears {T} (proto : Env → Protocol T) (ins : list input) (p : party T)
    : option (list Reply * list (EndpointId * Message) * party T) :=
  match drive (H := proto (world p)) ins (who p) (past p) with
  | Done s out => Some (replies out, sends out, mkParty (world p) s (past p ++ out))
  | Panicked => None
  end.

Definition req_hears : list input → party Req → _ := hears (λ E, @Req_protocol E _).
Definition rep_hears : list input → party Rep → _ := hears (λ E, @Rep_protocol E _).

(** A message that leaves a socket, when the transport hands it to the next. *)
Definition arrival (m : Message) : Message := from_body (header m ++ body m).

Lemma transport_arrival m max : refused m max = false → recv_answer m max = IOk (Some (arrival m)).
Proof. intros Hr. unfold recv_answer. by rewrite Hr. Qed.

(** The message delivered when nothing else happens, and the one sent. *)
Definition delivered {T} (r : option (list Reply * list (EndpointId * Message) * party T)) : option Message :=
  match r with Some ([ReplyRecv m], [], _) => Some m | _ => None end.
Definition sent_on {T} (eid : EndpointId) (r : option (list Reply * list (EndpointId * Message) * party T))
    : option Message :=
  match r with Some ([], [(id, m)], _) => if bool_decide (id = eid) then Some m else None | _ => None end.

(** A device joins a REP socket to a REQ socket; its thread sends on one what it
    receives from the other ([Facade.forward_msg]).  The sockets as they are when
    the request crosses, and when the reply does: [from] is the pipe to the
    requester, [to] the one to the replier. *)
Record hop : Type := mkHop {
  from : EndpointId;
  to : EndpointId;
  out_rep : party Rep;
  out_req : party Req;
  back_req : party Req;
  back_rep : party Rep
}.

Definition crosses_out (h : hop) (raw : Message) : option Message :=
  msg ← delivered (rep_hears [IRecvAck (from h) raw] (out_rep h));
  arrival <$> sent_on (to h) (req_hears [ISend msg None] (out_req h)).

Definition crosses_back (h : hop) (raw : Message) : option Message :=
  msg ← delivered (req_hears [IRecvAck (to h) raw] (back_req h));
  arrival <$> sent_on (from h) (rep_hears [ISend msg None] (back_rep h)).

(** The nearest device to the requester comes first. *)
Fixpoint all_out (hops : list hop) (raw : Message) : option Message :=
  match hops with [] => Some raw | h :: hops => crosses_out h raw ≫= all_out hops end.
Fixpoint all_back (hops : list hop) (raw : Message) : option Message :=
  match hops with [] => Some raw | h :: hops => all_back hops raw ≫= crosses_back h end.

(** ** When a device is ready *)

(** The pipe a hop is known by, on 4 bytes whose top bit is free. *)
Definition hop_bytes (eid : EndpointId) : bytes := be_write_u32 (wrap 32 (EndpointId_into eid)).

Record rep_awaits (dev : bool) (eid : EndpointId) (p : party Rep) : Prop := {
  ra_state : ∃ t, Rep.state (who p) = Some (Rep.Receiving eid t);
  ra_dev : Rep.is_device_item (Rep.inner (who p)) = dev;
  ra_ttl : Rep.ttl (Rep.inner (who p)) = 8
}.

Record req_sends_on (dev : bool) (eid : EndpointId) (p : party Req) : Prop := {
  rs_inv : Req_inv (who p);
  rs_next : ∃ next, @pop (@env_build (world p)) (Req.lb (Req.inner (who p))) = Some (Some eid, next);
  rs_dev : Req.is_device_item (Req.inner (who p)) = dev;
  rs_ids : dev = false → Req.req_id_seq (Req.inner (who p)) + 1 < 2 ^ 32
}.

Record req_awaits (dev : bool) (eid : EndpointId) (p : party Req) : Prop := {
  qa_state : ∃ q t, Req.state (who p) = Some (Req.Receiving eid q t);
  qa_dev : Req.is_device_item (Req.inner (who p)) = dev
}.

Record rep_sends_on (eid : EndpointId) (p : party Rep) : Prop := {
  ps_inv : Rep_inv (who p);
  ps_ready : eid ∈ Rep.sd (Rep.inner (who p));
  ps_pipe : is_Some (pc_pipes (Rep.pipes (Rep.inner (who p))) !! eid);
  ps_dev : Rep.is_device_item (Rep.inner (who p)) = true
}.

Record hop_ready (h : hop) : Prop := {
  hr_id : in_range 31 (EndpointId_into (from h));
  hr_out_rep : rep_awaits true (from h) (out_rep h);
  hr_out_req : req_sends_on true (to h) (out_req h);
  hr_back_req : req_awaits true (to h) (back_req h);
  hr_back_rep : rep_sends_on (from h) (back_rep h)
}.

(** ** Routes *)

Lemma high_byte b : byte_ok b → negb (Z.land b 128 =? 0) = (128 <=? b).
Proof.
  unfold byte_ok. intros Hb.
  assert (Hall : Forall (λ b, negb (Z.land b 128 =? 0) = (128 <=? b)) (seqZ 0 256)) by (vm_compute; repeat constructor).
  rewrite Forall_forall in Hall. apply Hall, elem_of_seqZ. lia.
Qed.

Lemma marked_u32 n : in_range 32 n → marked (be_write_u32 n) = (2 ^ 31 <=? n).
Proof.
  intros Hn. unfold marked. pose proof (write_u32_bytes n Hn) as Hb. rewrite be_write_u32_law in * by done.
  cbn [nth]. apply Forall_cons in Hb as [Hb _]. rewrite high_byte by done.
  apply eq_true_iff_eq. rewrite !Z.leb_le. change (2 ^ 31) with (128 * 16777216).
  pose proof (Z.mul_div_le n 16777216). pose proof (Z.mul_succ_div_gt n 16777216). lia.
Qed.

Lemma hop_bytes_ok eid :
  in_range 31 (EndpointId_into eid) →
  hop_ok false (hop_bytes eid) ∧ be_read_u32 (hop_bytes eid) = EndpointId_into eid.
Proof.
  unfold in_range. intros Hr. assert (Hr' : in_range 32 (EndpointId_into eid)) by (unfold in_range; lia).
  unfold hop_bytes, wrap. rewrite Z.mod_small by done. split.
  - split; [by apply write_u32_length|]. rewrite marked_u32 by done. apply Z.leb_gt. lia.
  - rewrite <- (app_nil_r (be_write_u32 _)). by apply read_write_u32.
Qed.

(** What a request id is on the wire. *)
Definition id_bytes (n : Req.Inner) : bytes := be_write_u32 (Inner_cur_req_id n).

Lemma id_bytes_ok n :
  in_range 32 (Req.req_id_seq n) →
  hop_ok true (id_bytes n) ∧ ∀ r, be_read_u32 (id_bytes n ++ r) = Inner_cur_req_id n.
Proof.
  unfold in_range. intros Hr. assert (Hid : in_range 32 (Inner_cur_req_id n) ∧ 2 ^ 31 <= Inner_cur_req_id n).
  { unfold Inner_cur_req_id, in_range. rewrite set_high_bit by done.
    pose proof (Z.mod_pos_bound (Req.req_id_seq n) (2 ^ 31)). lia. }
  destruct Hid as [Hid Hhi]. split; [split|].
  - by apply write_u32_length.
  - unfold id_bytes. rewrite marked_u32 by done. by apply Z.leb_le.
  - intros r. by apply read_write_u32.
Qed.

(** ** Through a device *)

Lemma hears_one {T} (proto : Env → Protocol T) i p s o :
  step (H := proto (world p)) i (who p) (past p) = Done s o →
  hears proto [i] p = Some (replies o, sends o, mkParty (world p) s (past p ++ o)).
Proof. intros Hs. unfold hears. simpl drive. rewrite bind_run, Hs, ret_run. by rewrite app_nil_r. Qed.

Lemma hears_run {T} (proto : Env → Protocol T) ins p s out rs ss :
  drive (H := proto (world p)) ins (who p) (past p) = Done s out → replies out = rs → sends out = ss →
  hears proto ins p = Some (rs, ss, mkParty (world p) s (past p ++ out)).
Proof. unfold hears. intros -> <- <-. done. Qed.

Lemma rep_hears_request dev eid p hops last payload :
  rep_awaits dev eid p → Forall (hop_ok false) hops → hop_ok true last → (length hops < 8)%nat →
  let route := hop_bytes eid ++ concat hops ++ last in
  ∃ p', rep_hears [IRecvAck eid (from_body (concat hops ++ last ++ payload))] p =
      Some ([ReplyRecv (mkMessage (if dev then route else []) payload)], [], p') ∧
    Rep.state (who p') = Some (if dev then Rep.Idle else Rep.Active eid) ∧
    world p' = world p ∧
    Rep.inner (who p') = (if dev then Rep.inner (who p) else Inner_set_backtrace route (Rep.inner (who p))).
Proof.
  intros [[t Hst] Hdev Httl] Hh Hl Hn route. destruct p as [w [n os] past]. cbn [who Rep.state Rep.inner world] in *. subst os.
  assert (Hraw : Rep.Inner_raw_msg_to_msg (from_body (concat hops ++ last ++ payload)) eid n = Some (mkMessage route payload)).
  { unfold Rep.Inner_raw_msg_to_msg. cbn [Message_split from_body header body]. rewrite Httl.
    by rewrite take_hops_route. }
  destruct (@rep_takes w _ n eid t _ _ past Hraw) as (o & Hs & Ho & Hse). rewrite Hdev in *.
  unfold rep_hears. erewrite hears_one; [|exact Hs]. rewrite Ho, Hse. by destruct dev; eexists.
Qed.

Lemma rep_hears_long_route dev eid p hops rest :
  rep_awaits dev eid p → Forall (hop_ok false) hops → length hops = 8%nat →
  ∃ p', rep_hears [IRecvAck eid (from_body (concat hops ++ rest))] p =
    Some ([ReplyErr (invalid_data_io_error "Received request without id")], [], p').
Proof.
  intros [[t Hst] Hdev Httl] Hh Hn. destruct p as [w [n os] past]. cbn [who Rep.state Rep.inner world] in *. subst os.
  assert (Hraw : Rep.Inner_raw_msg_to_msg (from_body (concat hops ++ rest)) eid n = None).
  { unfold Rep.Inner_raw_msg_to_msg. cbn [Message_split from_body header body]. rewrite Httl.
    change (Z.to_nat 8) with 8%nat. rewrite <- Hn. by apply take_hops_long. }
  eexists. unfold rep_hears. erewrite hears_one; [|simpl step; unfold Rep.Rep_on_recv_ack; cbn [who Rep.inner];
    rewrite Hraw; unfold Rep.Inner_on_recv_ack_malformed, send_reply; by mrun]. done.
Qed.

Lemma req_hears_send dev eid p msg t :
  req_sends_on dev eid p →
  ∃ p' raw, req_hears [ISend msg t] p = Some ([], [(eid, raw)], p') ∧ world p' = world p ∧
    Req.is_device_item (Req.inner (who p')) = dev ∧ in_range 32 (Req.req_id_seq (Req.inner (who p'))) ∧
    raw = (if dev then msg else Req.encode msg (Inner_cur_req_id (Req.inner (who p')))).
Proof.
  intros [(s & Hst & Hok) [next Hpop] Hdev Hids]. destruct p as [w [n os] past]. cbn [who Req.state Req.inner world] in *. subst os.
  destruct (@req_sends w _ s n msg t eid next past) as (n' & raw & o & Hs & Ho & Hse & Hd & Hseq & Hraw);
    [apply Hok|done| |].
  { rewrite Hdev. destruct dev; [done|]. by apply bool_decide_eq_true, Hids. }
  unfold req_hears. eexists _, raw. erewrite hears_one; [|exact Hs]. rewrite Ho, Hse. rewrite Hdev in *.
  split_and!; try done.
Qed.

Lemma req_hears_reply dev eid p raw m rid :
  req_awaits dev eid p → Req.decode raw = Some (m, rid) →
  dev = true ∨ rid = Inner_cur_req_id (Req.inner (who p)) →
  ∃ p', req_hears [IRecvAck eid raw] p = Some ([ReplyRecv m], [], p').
Proof.
  intros [(q & t & Hst) Hdev] Hdec Hid. destruct p as [w [n os] past]. cbn [who Req.state Req.inner world] in *. subst os.
  destruct (@req_delivers w _ n eid q t raw m rid past Hdec) as (o & Hs & Ho & Hse); [by rewrite Hdev|].
  unfold req_hears. eexists. erewrite hears_one; [|exact Hs]. by rewrite Ho, Hse.
Qed.

Lemma rep_hears_answer eid p msg raw t :
  rep_sends_on eid p ∨ (∃ pipe, Rep.state (who p) = Some (Rep.Active eid) ∧ eid ∈ Rep.sd (Rep.inner (who p)) ∧
    pc_pipes (Rep.pipes (Rep.inner (who p))) !! eid = Some pipe ∧ pipe_id pipe = eid) →
  Rep.Inner_msg_to_raw_msg msg (Rep.inner (who p)) = Some (raw, eid) →
  ∃ p', rep_hears [ISend msg t] p = Some ([], [(eid, raw)], p').
Proof.
  intros Hp Hraw. destruct p as [w [n os] past]. cbn [who Rep.state Rep.inner world] in *.
  assert (Hready : ∃ s pipe, os = Some s ∧ (Rep.is_device_item n = true ∨ s = Rep.Active eid) ∧ eid ∈ Rep.sd n ∧
    pc_pipes (Rep.pipes n) !! eid = Some pipe ∧ pipe_id pipe = eid).
  { destruct Hp as [[(s & Hos & Hr & _) Hsd [pipe Hl] Hdev]|(pipe & Hos & Hsd & Hl & Hid)]; cbn [who Rep.state Rep.inner] in *.
    - exists s, pipe. split_and!; try done; [by left|]. exact (routed_keyed _ _ Hr _ _ Hl).
    - exists (Rep.Active eid), pipe. split_and!; try done. by right. }
  destruct Hready as (s & pipe & -> & Hst & Hsd & Hl & Hid).
  destruct (@rep_sends w _ n s eid pipe msg raw t past Hst Hsd Hl Hraw) as (o & Hs & Ho & Hse).
  unfold rep_hears. erewrite hears_one; [|exact Hs]. rewrite Ho, Hse, Hid. by eexists.
Qed.

Lemma crosses_out_ok h hops last payload :
  hop_ready h → Forall (hop_ok false) hops → hop_ok true last → (length hops < 8)%nat →
  crosses_out h (from_body (concat hops ++ last ++ payload)) =
  Some (from_body (hop_bytes (from h) ++ concat hops ++ last ++ payload)).
Proof.
  intros Hr Hh Hl Hn. unfold crosses_out.
  destruct (rep_hears_request true (from h) (out_rep h) hops last payload) as (p1 & -> & _); [apply Hr|done..|].
  simpl. destruct (req_hears_send true (to h) (out_req h) (mkMessage (hop_bytes (from h) ++ concat hops ++ last) payload) None)
    as (p2 & raw & -> & _ & _ & _ & ->); [apply Hr|].
  simpl. rewrite bool_decide_true by done. simpl. unfold arrival. cbn [header body]. by rewrite <- !app_assoc.
Qed.

Lemma crosses_back_ok h rest :
  hop_ready h → crosses_back h (from_body (hop_bytes (from h) ++ rest)) = Some (from_body rest).
Proof.
  intros Hr. destruct (hop_bytes_ok (from h)) as [[Hlen _] Hread]; [apply Hr|]. unfold crosses_back.
  destruct (req_hears_reply true (to h) (back_req h) (from_body (hop_bytes (from h) ++ rest))
    (mkMessage (hop_bytes (from h)) rest) (be_read_u32 (hop_bytes (from h)))) as (p1 & ->); [apply Hr| |by left|].
  { unfold Req.decode, get_body. cbn [from_body body Message_split header].
    rewrite bool_decide_false by (rewrite length_app; lia). by rewrite take_app_length', drop_app_length'. }
  simpl. destruct (rep_hears_answer (from h) (back_rep h) (mkMessage (hop_bytes (from h)) rest) (mkMessage [] rest) None)
    as (p2 & ->); [left; apply Hr| |].
  { unfold Rep.Inner_msg_to_raw_msg, Message_split. rewrite (ps_dev _ _ (hr_back_rep h Hr)). cbn [negb header body].
    rewrite bool_decide_false by lia. rewrite <- (app_nil_r (hop_bytes _)), take_app_length', drop_app_length', Hread by done.
    by destruct (from h). }
  simpl. by rewrite bool_decide_true.
Qed.

(** The route of a request past some devices. *)
Definition trail (hops : list hop) (route : list bytes) : list bytes :=
  foldl (λ route h, hop_bytes (from h) :: route) route hops.

Lemma trail_length hops route : length (trail hops route) = (length hops + length route)%nat.
Proof. revert route. induction hops as [|h hops IH]; intros route; [done|]. simpl. rewrite IH. simpl. lia. Qed.

Lemma trail_ok hops route :
  Forall hop_ready hops → Forall (hop_ok false) route → Forall (hop_ok false) (trail hops route).
Proof.
  intros Hh. revert route. induction Hh as [|h hops Hr Hh IH]; intros route Hroute; [done|]. simpl. apply IH.
  constructor; [|done]. apply hop_bytes_ok, Hr.
Qed.

Lemma all_out_ok hops route last payload :
  Forall hop_ready hops → Forall (hop_ok false) route → hop_ok true last → (length hops + length route <= 8)%nat →
  all_out hops (from_body (concat route ++ last ++ payload)) =
  Some (from_body (concat (trail hops route) ++ last ++ payload)).
Proof.
  intros Hh. revert route. induction Hh as [|h hops Hr Hh IH]; intros route Hroute Hl Hn; [done|]. simpl in *.
  rewrite crosses_out_ok by (done || lia). simpl. specialize (IH (hop_bytes (from h) :: route)). simpl in IH.
  rewrite <- app_assoc in IH. apply IH; [|done|lia]. constructor; [|done]. apply hop_bytes_ok, Hr.
Qed.

Lemma all_out_app hops hops' raw : all_out (hops ++ hops') raw = all_out hops raw ≫= all_out hops'.
Proof.
  revert raw. induction hops as [|h hops IH]; intros raw; [done|]. simpl. destruct (crosses_out h raw); [apply IH|done].
Qed.

Lemma all_back_ok hops route rest :
  Forall hop_ready hops →
  all_back hops (from_body (concat (trail hops route) ++ rest)) = Some (from_body (concat route ++ rest)).
Proof.
  intros Hh. revert route. induction Hh as [|h hops Hr Hh IH]; intros route; [done|]. simpl. rewrite IH. simpl.
  rewrite <- app_assoc. by apply crosses_back_ok.
Qed.

End exchange.

(** ** Meanwhile

    What the server and the requester remember of the exchange while other things
    happen to them. *)

Lemma drive_runs `{Protocol T} Q (R : T → Prop) (ok : input → Prop) ins s :
  (∀ i s, ok i → R s → runs Q R (step i s)) → Forall ok ins → R s → runs Q R (drive ins s).
Proof.
  intros Hstep Hok. revert s. induction Hok as [|i ins Hi Hok IH]; intros s Hs; [by apply runs_ret|].
  simpl. eapply runs_bind; [by apply Hstep|]. intros s' Hs'. by apply IH.
Qed.

Definition quiet (e : effect) : Prop := match e with SendReply _ | NetSend _ _ => False | _ => True end.

Lemma quiet_trace out : Forall quiet out → replies out = [] ∧ sends out = [].
Proof. induction 1 as [|e out He Hout [IH1 IH2]]; [done|]. destruct e; try done. Qed.

Section meanwhile.
Context `{Env} `{ByteOrder}.

(** Nothing but readiness, options, timers, and other pipes that come and go. *)
Definition calm (eid : EndpointId) (i : input) : Prop :=
  match i with
  | ISendReady _ | ISendNotReady _ | IRecvReady _ | IRecvNotReady _ | ISetOption _ | ITimerTick _ => True
  | IAddPipe id _ | IRemovePipe id => id ≠ eid
  | _ => False
  end.

(** The server still has the route to answer on. *)
Definition holds_route (eid : EndpointId) (pipe : Pipe) (route : bytes) (s : Rep) : Prop :=
  Rep.state s = Some (Rep.Active eid) ∧ Rep.backtrace (Rep.inner s) = route ∧
  Rep.is_device_item (Rep.inner s) = false ∧ pc_pipes (Rep.pipes (Rep.inner s)) !! eid = Some pipe.

Lemma holds_route_apply eid pipe route t n :
  runs quiet (λ r : Rep.State * Rep.Inner, holds_route eid pipe route (mkRep r.2 (Some r.1))) (t (Rep.Active eid) n) →
  runs quiet (holds_route eid pipe route) (Rep.apply t (mkRep n (Some (Rep.Active eid)))).
Proof.
  intros Ht. unfold Rep.apply. cbn [Rep.state Rep.inner]. eapply runs_bind; [apply Ht|]. intros [s' n'] Hs. cbn in *.
  unfold check_send_ready_change, check_recv_ready_change. by walk.
Qed.

Lemma calm_holds_route eid pipe route i s :
  calm eid i → holds_route eid pipe route s → runs quiet (holds_route eid pipe route) (step i s).
Proof.
  intros Hi Hs. destruct s as [n os]. destruct (Hs) as (Hst & Hbt & Hdev & Hl). cbn in Hst, Hbt, Hdev, Hl. subst os.
  destruct i as [id p|id|msg t|id| |id|id|t|id msg| |id|id|opt|task|]; try done; simpl step;
    try (by apply runs_ret); try (by apply holds_route_apply, runs_ret).
  - apply runs_ret. split_and!; try done. cbn. by rewrite lookup_insert_ne.
  - eapply runs_bind with (λ r : option Pipe * Rep, holds_route eid pipe route r.2); [|intros [r s'] Hr; by apply runs_ret].
    unfold Rep.Rep_remove_pipe. cbn [Rep.inner Rep.state].
    eapply runs_bind with (λ r : option Pipe * Rep.Inner, holds_route eid pipe route (mkRep r.2 (Some (Rep.Active eid)))).
    { unfold Rep.Inner_remove_pipe. apply every_bind; [by apply runs_lift|]. intros fq. apply runs_ret.
      split_and!; try done. cbn. by rewrite lookup_delete_ne. }
    intros [r n'] Hn'. cbn in Hn'.
    eapply runs_bind with (holds_route eid pipe route).
    { destruct r; [by apply holds_route_apply, runs_ret|by apply runs_ret]. }
    intros s' Hs'. unfold check_send_ready_change, check_recv_ready_change. by walk.
  - apply holds_route_apply. unfold State_on_recv_ready, Rep.Inner_on_recv_ready.
    eapply runs_bind with (λ n', holds_route eid pipe route (mkRep n' (Some (Rep.Active eid)))); [by walk|].
    intros n' Hn'. by apply runs_ret.
  - apply holds_route_apply. unfold State_on_recv_not_ready, Rep.Inner_on_recv_not_ready.
    eapply runs_bind with (λ n', holds_route eid pipe route (mkRep n' (Some (Rep.Active eid)))); [by walk|].
    intros n' Hn'. by apply runs_ret.
Qed.

(** ** The id of the last request *)

Definition keeps_id (q : Z) (s : Req) : Prop :=
  Req.req_id_seq (Req.inner s) = q ∧ Req.is_device_item (Req.inner s) = false.
Definition keeps_inner (q : Z) (n : Req.Inner) : Prop := keeps_id q (mkReq n None).
Abbreviation finishes := (runs (λ _ : effect, True)).
Abbreviation keeps q := (finishes (λ r : Req.State * Req.Inner, keeps_inner q r.2)).

Lemma runs_any {A} (m : P A) : finishes (λ _, True) m.
Proof. intros h a out _. split; [by apply Forall_true|done]. Qed.

Lemma keeps_apply q t n os :
  keeps_inner q n → (∀ s, keeps q (t s n)) → finishes (keeps_id q) (Req.apply t (mkReq n os)).
Proof.
  intros Hn Ht. unfold Req.apply. cbn [Req.state Req.inner]. destruct os as [s|]; [|by apply runs_ret].
  eapply runs_bind; [apply Ht|]. intros [s' n'] Hs. cbn in *.
  unfold check_send_ready_change, check_recv_ready_change. by walk.
Qed.

(** A call that gives a new [Inner], among other things, then the rest. *)
Lemma exchange_keeps_then {A B} (f : A → Req.Inner) q (R : B → Prop) (m : P A) (k : A → P B) :
  finishes (λ a, keeps_inner q (f a)) m → (∀ a, keeps_inner q (f a) → finishes R (k a)) → finishes R (m ≫= k).
Proof. apply runs_bind. Qed.

Lemma exchange_keeps_ret {A} q (f : A → Req.Inner) a : keeps_inner q (f a) → finishes (λ a, keeps_inner q (f a)) (mret a : P A).
Proof. intros Hn. by apply runs_ret. Qed.

(** The handlers that give a new [Inner]: whatever they call first, they return
    the old one with another list of pipes. *)
Ltac keeping :=
  repeat first
    [ apply runs_ret; done
    | apply every_bind; [apply runs_any|intros ?]
    | match goal with |- runs _ _ (match ?x with _ => _ end) => destruct x end ].

Lemma keeps_inner_send q msg n : keeps_inner q n → finishes (λ r, keeps_inner q r.2) (Req.Inner_send msg n).
Proof. intros Hn. unfold Req.Inner_send. by keeping. Qed.
Lemma keeps_inner_recv q n : keeps_inner q n → finishes (λ r, keeps_inner q r.2) (Req.Inner_recv n).
Proof. intros Hn. unfold Req.Inner_recv. by keeping. Qed.
Lemma keeps_inner_recv_from q eid n : keeps_inner q n → finishes (λ r, keeps_inner q r.2) (Inner_recv_reply_from eid n).
Proof. intros Hn. unfold Inner_recv_reply_from. by keeping. Qed.
Lemma keeps_inner_remove q eid n : keeps_inner q n → finishes (λ r, keeps_inner q r.2) (Req.Inner_remove_pipe eid n).
Proof. intros Hn. unfold Req.Inner_remove_pipe. by keeping. Qed.
Lemma exchange_keeps_send_ready q eid n : keeps_inner q n → finishes (keeps_inner q) (Req.Inner_on_send_ready eid n).
Proof. intros Hn. unfold Req.Inner_on_send_ready. by keeping. Qed.
Lemma keeps_send_not_ready q eid n : keeps_inner q n → finishes (keeps_inner q) (Req.Inner_on_send_not_ready eid n).
Proof. intros Hn. unfold Req.Inner_on_send_not_ready. by keeping. Qed.
Lemma exchange_keeps_recv_ready q eid n : keeps_inner q n → finishes (keeps_inner q) (Req.Inner_on_recv_ready eid n).
Proof. intros Hn. unfold Req.Inner_on_recv_ready. by keeping. Qed.
Lemma keeps_recv_not_ready q eid n : keeps_inner q n → finishes (keeps_inner q) (Req.Inner_on_recv_not_ready eid n).
Proof. intros Hn. unfold Req.Inner_on_recv_not_ready. by keeping. Qed.

Lemma exchange_keeps_send q s n msg t r : keeps_inner q n → keeps q (Req.State_send s n msg t r).
Proof.
  intros Hn. unfold Req.State_send. apply every_bind; [apply runs_any|]. intros _.
  eapply (exchange_keeps_then snd); [by apply keeps_inner_send|]. intros [sent n'] Hn'. by keeping.
Qed.

Lemma keeps_recv_reply q s n t eid p : keeps_inner q n → keeps q (State_recv_reply_for s n t eid p).
Proof.
  intros Hn. unfold State_recv_reply_for. eapply (exchange_keeps_then snd); [by apply keeps_inner_recv_from|].
  intros [asked n'] Hn'. by keeping.
Qed.

Lemma exchange_keeps_recv q s n t : keeps_inner q n → keeps q (Req.State_recv s n t).
Proof.
  intros Hn. unfold Req.State_recv. rewrite (proj2 Hn : Req.is_device_item n = false).
  destruct s; try by keeping. by apply keeps_recv_reply.
Qed.

(** No other request: outside a device, a REQ socket takes a new id when it sends,
    and only then. *)
Definition patient (i : input) : Prop := match i with ISend _ _ | IDevicePlugged => False | _ => True end.

Lemma id_kept q i s : patient i → keeps_id q s → finishes (keeps_id q) (step i s).
Proof.
  intros Hi Hs. destruct s as [n os]. assert (Hn : keeps_inner q n) by exact Hs.
  destruct i as [id p|id|msg t|id| |id|id|t|id raw| |id|id|opt|task|]; try done; simpl step.
  - by apply runs_ret.
  - eapply runs_bind with (λ r, keeps_id q r.2); [|intros [r s'] Hr; by apply runs_ret].
    unfold Req_remove_pipe. cbn [Req.inner Req.state].
    eapply (exchange_keeps_then snd); [by apply keeps_inner_remove|]. intros [r n'] Hn'. cbn in Hn'.
    eapply runs_bind with (keeps_id q).
    { destruct r; [|by apply runs_ret]. apply keeps_apply; [done|]. intros s. unfold Req.State_on_pipe_removed.
      destruct s; try (by keeping); destruct (bool_decide _); try (by keeping); [by apply exchange_keeps_send|by apply exchange_keeps_recv]. }
    intros s' Hs'. by keeping.
  - apply keeps_apply; [done|]. intros s. unfold Req.State_on_send_ack.
    destruct s; by keeping.
  - apply keeps_apply; [done|]. intros s. unfold Req.State_on_send_timeout. by keeping.
  - apply keeps_apply; [done|]. intros s. eapply (exchange_keeps_then (λ n, n)); [by apply exchange_keeps_send_ready|]. intros n' Hn'.
    destruct s; try (by keeping). by apply exchange_keeps_send.
  - apply keeps_apply; [done|]. intros s. eapply (exchange_keeps_then (λ n, n)); [by apply keeps_send_not_ready|]. intros n' Hn'. by keeping.
  - apply keeps_apply; [done|]. intros s. by apply exchange_keeps_recv.
  - unfold Req.Req_on_recv_ack. destruct (Req.Inner_raw_msg_to_msg _ _) as [[m rid]|]; [|by keeping].
    apply keeps_apply; [done|]. intros s. destruct s as [| | | |id' [p|] t|]; try (by keeping); simpl;
      destruct (bool_decide _); try (by keeping). destruct (bool_decide _); [by keeping|by apply keeps_recv_reply].
  - apply keeps_apply; [done|]. intros s. unfold Req.State_on_recv_timeout. apply every_bind; [apply runs_any|intros _]. by keeping.
  - apply keeps_apply; [done|]. intros s. eapply (exchange_keeps_then (λ n, n)); [by apply exchange_keeps_recv_ready|]. intros n' Hn'.
    destruct s as [| | | | |[id'|] [p|] t]; try (by keeping); simpl; [|by apply exchange_keeps_recv].
    destruct (bool_decide _); [by apply exchange_keeps_recv|by keeping].
  - apply keeps_apply; [done|]. intros s. eapply (exchange_keeps_then (λ n, n)); [by apply keeps_recv_not_ready|]. intros n' Hn'. by keeping.
  - apply runs_ret. by destruct opt.
  - destruct task; try (by apply runs_ret). apply keeps_apply; [done|]. intros s.
    destruct s; try (by keeping). by apply exchange_keeps_send.
Qed.

Lemma patient_keeps_id q ins s h s' out :
  Forall patient ins → keeps_id q s → drive ins s h = Done s' out → keeps_id q s'.
Proof.
  intros Hi Hs Hrun. apply (drive_runs (λ _, True) (keeps_id q) patient ins s (id_kept q) Hi Hs h s' out Hrun).
Qed.

Lemma calm_holds eid pipe route ins s h s' out :
  Forall (calm eid) ins → holds_route eid pipe route s → drive ins s h = Done s' out →
  holds_route eid pipe route s' ∧ replies out = [] ∧ sends out = [].
Proof.
  intros Hi Hs Hrun. destruct (drive_runs quiet (holds_route eid pipe route) (calm eid) ins s
    (calm_holds_route eid pipe route) Hi Hs h s' out Hrun) as [Ho Hs']. split; [done|]. by apply quiet_trace.
Qed.

End meanwhile.

Section theorems.
Context `{ByteOrder}.

Definition rep_ready (eid : EndpointId) (p : party Rep) : Prop := eid ∈ Rep.sd (Rep.inner (who p)).

(** What comes back is delivered to the requester, whatever it lived through but
    another request, when it waits for its reply on the pipe it asked on. *)
Definition requester_gets (to : EndpointId) (back reply : Message) (requester : party Req) : Prop :=
  ∀ ins rs ss requester', Forall patient ins → req_hears ins requester = Some (rs, ss, requester') →
    req_awaits false to requester' →
    ∃ requester'', req_hears [IRecvAck to back] requester' =
      Some ([ReplyRecv (mkMessage (id_bytes (Req.inner (who requester))) (body reply))], [], requester'').

(** After any calm while, the server's reply goes to the pipe the request came
    from and nowhere else, and from there to the requester. *)
Definition server_answers (hops : list hop) (eid to : EndpointId) (requester : party Req) (server : party Rep) : Prop :=
  ∀ ins rs ss server' reply t, Forall (calm eid) ins → rep_hears ins server = Some (rs, ss, server') →
    rep_ready eid server' →
    rs = [] ∧ ss = [] ∧ ∃ answer server'' back,
      rep_hears [ISend reply t] server' = Some ([], [(eid, answer)], server'') ∧
      all_back hops (arrival answer) = Some back ∧ requester_gets to back reply requester.

Lemma hears_drive {T} (proto : Env → Protocol T) ins p rs ss p' :
  hears proto ins p = Some (rs, ss, p') →
  ∃ out, drive (H := proto (world p)) ins (who p) (past p) = Done (who p') out ∧ rs = replies out ∧ ss = sends out.
Proof. unfold hears. destruct (drive _ _ _) as [s out|]; [|done]. intros [= <- <- <-]. by exists out. Qed.

Lemma requester_gets_ok to requester reply :
  Req.is_device_item (Req.inner (who requester)) = false → in_range 32 (Req.req_id_seq (Req.inner (who requester))) →
  requester_gets to (from_body (id_bytes (Req.inner (who requester)) ++ body reply)) reply requester.
Proof.
  intros Hdev Hseq ins rs ss p Hins Hrun Hp. apply hears_drive in Hrun as (out & Hrun & _).
  destruct (@patient_keeps_id (world requester) _ (Req.req_id_seq (Req.inner (who requester))) _ _ _ _ _ Hins
    ltac:(done) Hrun) as [Hid _].
  destruct (id_bytes_ok (Req.inner (who requester)) Hseq) as [[Hlen _] Hread].
  apply (req_hears_reply false to p _ _ (Inner_cur_req_id (Req.inner (who requester)))); [done| |].
  - unfold Req.decode, get_body. cbn [from_body body Message_split header].
    rewrite bool_decide_false by (rewrite length_app; lia). rewrite take_app_length', drop_app_length' by done.
    cbn. do 2 f_equal. rewrite <- (app_nil_r (id_bytes _)). apply Hread.
  - right. unfold Inner_cur_req_id. by rewrite Hid.
Qed.

Lemma server_answers_ok hops eid to requester server pipe :
  Forall hop_ready hops → in_range 32 (EndpointId_into eid) → pipe_id pipe = eid →
  Req.is_device_item (Req.inner (who requester)) = false → in_range 32 (Req.req_id_seq (Req.inner (who requester))) →
  holds_route eid pipe (hop_bytes eid ++ concat (trail hops []) ++ id_bytes (Req.inner (who requester))) (who server) →
  server_answers hops eid to requester server.
Proof.
  intros Hh Heid Hkey Hdev Hseq Hs ins rs ss server' reply t Hins Hrun Hready.
  apply hears_drive in Hrun as (out & Hrun & -> & ->).
  destruct (@calm_holds (world server) _ eid pipe _ _ _ _ _ _ Hins Hs Hrun) as ((Hst & Hbt & Hd & Hl) & Hr & Hse).
  split; [done|]. split; [done|].
  set (route := concat (trail hops []) ++ id_bytes (Req.inner (who requester))) in *.
  destruct (rep_hears_answer eid server' reply (mkMessage route (body reply)) t) as (p & Hp).
  { right. by exists pipe. }
  { apply to_raw_backtrace; [done..|]. rewrite Hbt. unfold hop_bytes, wrap. by rewrite Z.mod_small. }
  eexists _, p, _. split; [exact Hp|]. split; [|by apply requester_gets_ok].
  unfold arrival, route. cbn [header body]. rewrite <- app_assoc. by apply (all_back_ok hops []).
Qed.

(** C5: A request and its reply, across up to seven devices and any transports
    between them.  A REQ socket that sends on [to] tags its request; each device
    forwards it, one hop longer; the REP socket at the end delivers the payload as
    it was given.  When the server answers, however much later, the reply goes back
    through the pipe of each device that the request came in by, and nowhere else;
    and the requester, unless it asked something else meanwhile, delivers the
    payload of the reply as the server gave it. *)
Theorem exchange_round_trip hops requester to payload t :
  Forall hop_ready hops → (length hops <= 7)%nat → req_sends_on false to requester →
  ∃ raw requester' asked,
    req_hears [ISend (from_body payload) t] requester = Some ([], [(to, raw)], requester') ∧
    all_out hops (arrival raw) = Some asked ∧
    ∀ server eid, in_range 32 (EndpointId_into eid) → Rep_inv (who server) → rep_awaits false eid server →
      ∃ server', rep_hears [IRecvAck eid asked] server = Some ([ReplyRecv (from_body payload)], [], server') ∧
        server_answers hops eid to requester' server'.
Proof.
  intros Hh Hn Hreq. destruct (req_hears_send false to requester (from_body payload) t Hreq)
    as (p1 & raw & Hsend & _ & Hdev & Hseq & ->).
  destruct (id_bytes_ok _ Hseq) as [Hid _].
  eexists _, p1, _. split; [exact Hsend|]. split.
  { unfold arrival. cbn. apply (all_out_ok hops []); [done|done|exact Hid|simpl; lia]. }
  intros server eid Heid (s & Hos & Hs) Hwait. destruct (Hwait) as [[t' Hst] _ _]. rewrite Hst in Hos. injection Hos as <-.
  destruct Hs as [Hr [pipe Hl]].
  destruct (rep_hears_request false eid server (trail hops []) _ payload Hwait (trail_ok hops [] Hh ltac:(done)) Hid)
    as (p2 & Hrun & Hst2 & Hw2 & Hn2); [rewrite trail_length; simpl; lia|].
  exists p2. split; [exact Hrun|]. apply server_answers_ok with pipe; try done.
  - exact (routed_keyed _ _ Hr _ _ Hl).
  - split_and!; rewrite ?Hn2; try done. cbn. apply Hwait.
Qed.

(** C37: The eighth device is one too many: it still forwards the request, but whoever
    waits for it next, the REP socket or another device, refuses it with an error,
    and passes nothing on. *)
Theorem exchange_too_far hops requester to payload t :
  Forall hop_ready hops → length hops = 8%nat → req_sends_on false to requester →
  ∃ raw requester' asked,
    req_hears [ISend (from_body payload) t] requester = Some ([], [(to, raw)], requester') ∧
    all_out hops (arrival raw) = Some asked ∧
    (∀ server dev eid, rep_awaits dev eid server →
      ∃ server', rep_hears [IRecvAck eid asked] server =
        Some ([ReplyErr (invalid_data_io_error "Received request without id")], [], server')) ∧
    (∀ h more, rep_awaits true (from h) (out_rep h) → all_out (hops ++ h :: more) (arrival raw) = None).
Proof.
  intros Hh Hn Hreq. destruct (req_hears_send false to requester (from_body payload) t Hreq)
    as (p1 & raw & Hsend & _ & Hdev & Hseq & ->).
  destruct (id_bytes_ok _ Hseq) as [Hid _].
  assert (Hlen : length (trail hops []) = 8%nat) by (rewrite trail_length; simpl; lia).
  assert (Hout : all_out hops (arrival (encode (from_body payload) (Inner_cur_req_id (Req.inner (who p1))))) =
    Some (from_body (concat (trail hops []) ++ id_bytes (Req.inner (who p1)) ++ payload))).
  { unfold arrival. cbn. apply (all_out_ok hops []); [done|done|exact Hid|simpl; lia]. }
  pose proof (trail_ok hops [] Hh ltac:(done)) as Htrail.
  eexists _, p1, _. split; [exact Hsend|]. split; [exact Hout|]. split.
  - intros server dev eid Hwait. by eapply rep_hears_long_route.
  - intros h more Hwait. rewrite all_out_app, Hout. cbn [mbind option_bind all_out]. unfold crosses_out.
    destruct (rep_hears_long_route true (from h) (out_rep h) (trail hops []) (id_bytes (Req.inner (who p1)) ++ payload))
      as (p & ->); done.
Qed.

End theorems.

Section witness.
#[local] Existing Instance ref_env.
#[local] Existing Instance be_ref.

(** A socket that lived through some calls. *)
Definition grown {T} (proto : Env → Protocol T) (s : T) (ins : list input) : party T :=
  let r := drive (H := proto ref_env) ins s [] in mkParty ref_env (default s (returned r)) (emitted r).
Definition ex_id (n : Z) : EndpointId := EndpointId_from n.
Definition ex_pipe (n : Z) : input := IAddPipe (ex_id n) (Pipe_new_accepted (ex_id n) (mkEndpointDesc 8 8 false 1024)).
Definition ex_rep (ins : list input) : party Rep := grown (λ E, @Rep_protocol E be_ref) Rep_from ins.
Definition ex_req (ins : list input) : party Req := grown (λ E, @Req_protocol E be_ref) (Req_from 7) ins.

Definition ex_out_rep (n : Z) : list input := [IDevicePlugged; ex_pipe n; IRecvReady (ex_id n); IRecv None].
Definition ex_out_req (n : Z) : list input := [IDevicePlugged; ex_pipe n; ISendReady (ex_id n)].
Definition ex_back_req (n : Z) : list input := ex_out_rep n.
Definition ex_back_rep (n : Z) : list input := ex_out_req n.

(** The device with pipe [n] to the requester and [m] to the replier. *)
Definition ex_hop (n m : Z) : hop :=
  mkHop (ex_id n) (ex_id m) (ex_rep (ex_out_rep n)) (ex_req (ex_out_req m)) (ex_req (ex_back_req m)) (ex_rep (ex_back_rep n)).

Lemma ex_rep_inv ins : disciplined (T := Rep) ins Rep_from [] = true → Rep_inv (who (ex_rep ins)).
Proof.
  intros Hd. destruct (drive_ok (H0 := Rep_contract) ins Rep_from [] Rep_from_inv Hd) as (s & o & Hrun & Hinv & _).
  unfold ex_rep, grown. cbn. by rewrite Hrun.
Qed.
Lemma ex_req_inv ins : disciplined (T := Req) ins (Req_from 7) [] = true → Req_inv (who (ex_req ins)).
Proof.
  intros Hd. destruct (drive_ok (H0 := Req_contract) ins (Req_from 7) [] (Req_from_inv 7 ltac:(done)) Hd) as (s & o & Hrun & Hinv & _).
  unfold ex_req, grown. cbn. by rewrite Hrun.
Qed.

Lemma ex_hop_ready : hop_ready (ex_hop 1 5).
Proof.
  split.
  - done.
  - split; [eexists|..]; vm_compute; reflexivity.
  - split; [apply ex_req_inv; vm_compute; reflexivity|eexists|..|done]; vm_compute; reflexivity.
  - split; [do 2 eexists|]; vm_compute; reflexivity.
  - split; [apply ex_rep_inv; vm_compute; reflexivity|..].
    + vm_compute. reflexivity.
    + eexists. vm_compute. reflexivity.
    + vm_compute. reflexivity.
Qed.

Definition ex_requester : party Req := ex_req [ex_pipe 3; ISendReady (ex_id 3)].
Definition ex_server : party Rep := ex_rep [ex_pipe 9; IRecvReady (ex_id 9); IRecv None].

Lemma ex_requester_ready : req_sends_on false (ex_id 3) ex_requester.
Proof. split; [apply ex_req_inv; vm_compute; reflexivity|eexists; vm_compute; reflexivity|vm_compute; reflexivity|done]. Qed.
Lemma ex_server_ready : rep_awaits false (ex_id 9) ex_server.
Proof. split; [eexists|..]; vm_compute; reflexivity. Qed.

(** Three devices; the server answers when its pipe is ready, and the requester
    waits for the reply as soon as its request is gone. *)
Lemma exchange_round_trip_witness :
  let hops := [ex_hop 1 5; ex_hop 1 5; ex_hop 1 5] in
  ∃ raw requester asked, req_hears [ISend (from_body [42]) None] ex_requester = Some ([], [(ex_id 3, raw)], requester) ∧
    all_out hops (arrival raw) = Some asked ∧
  ∃ server, rep_hears [IRecvAck (ex_id 9) asked] ex_server = Some ([ReplyRecv (from_body [42])], [], server) ∧
  ∃ server', rep_hears [ISendReady (ex_id 9)] server = Some ([], [], server') ∧
  ∃ answer server'' back, rep_hears [ISend (from_body [9]) None] server' = Some ([], [(ex_id 9, answer)], server'') ∧
    all_back hops (arrival answer) = Some back ∧
  ∃ requester', req_hears [ISendAck (ex_id 3); IRecvReady (ex_id 3); IRecv None] requester =
      Some ([ReplySend], [], requester') ∧
  ∃ requester'', req_hears [IRecvAck (ex_id 3) back] requester' =
    Some ([ReplyRecv (mkMessage [128; 0; 0; 8] [9])], [], requester'').
Proof.
  intros hops. assert (Hh : Forall hop_ready hops) by (repeat constructor; apply ex_hop_ready).
  destruct (exchange_round_trip hops ex_requester (ex_id 3) [42] None Hh ltac:(cbn; lia) ex_requester_ready)
    as (raw & requester & asked & Hreq & Hout & Hserve).
  exists raw, requester, asked. do 2 (split; [done|]).
  unfold req_hears in Hreq. erewrite hears_run in Hreq; [|vm_compute; reflexivity..]. injection Hreq as <- <-.
  vm_compute in Hout. injection Hout as <-.
  destruct (Hserve ex_server (ex_id 9) ltac:(done) ltac:(apply ex_rep_inv; vm_compute; reflexivity) ex_server_ready)
    as (server & Hs & Hans).
  exists server. split; [exact Hs|]. unfold rep_hears in Hs.
  erewrite hears_run in Hs; [|vm_compute; reflexivity..]. injection Hs as <-.
  eexists. split; [apply hears_run; vm_compute; reflexivity|].
  specialize (Hans [ISendReady (ex_id 9)] [] []).
  edestruct Hans as (_ & _ & answer & server'' & back & Ha & Hb & Hgets);
    [by repeat constructor|apply hears_run; vm_compute; reflexivity|vm_compute; reflexivity|].
  exists answer, server'', back. split; [exact Ha|]. split; [exact Hb|].
  eexists. split; [apply hears_run; vm_compute; reflexivity|].
  specialize (Hgets [ISendAck (ex_id 3); IRecvReady (ex_id 3); IRecv None] [ReplySend] []).
  eapply Hgets; [by repeat constructor|apply hears_run; vm_compute; reflexivity|].
  split; [do 2 eexists|]; vm_compute; reflexivity.
Defined.

Lemma exchange_too_far_witness :
  let hops := replicate 8 (ex_hop 1 5) in
  ∃ raw requester asked, req_hears [ISend (from_body [42]) None] ex_requester = Some ([], [(ex_id 3, raw)], requester) ∧
    all_out hops (arrival raw) = Some asked ∧
    (∃ server, rep_hears [IRecvAck (ex_id 9) asked] ex_server =
      Some ([ReplyErr (invalid_data_io_error "Received request without id")], [], server)) ∧
    all_out (hops ++ [ex_hop 1 5]) (arrival raw) = None.
Proof.
  intros hops. assert (Hh : Forall hop_ready hops) by (repeat constructor; apply ex_hop_ready).
  destruct (exchange_too_far hops ex_requester (ex_id 3) [42] None Hh eq_refl ex_requester_ready)
    as (raw & requester & asked & Hreq & Hout & Hserve & Hmore).
  exists raw, requester, asked. split; [done|]. split; [done|]. split.
  - apply (Hserve ex_server false), ex_server_ready.
  - apply Hmore, ex_hop_ready.
Defined.

End witness.
