(* ===== verification/Probe.v ===== *)
(** * Probes (src/core/probe.rs)

    A probe waits, for at most a given time, until every socket it watches is
    ready for all that was asked of it.  The sockets vote through the reactor.
    [Watch] is what a probe means: the last vote of each socket since the last
    answer; [probe_refines] shows that the indexed vectors implement it. *)

From S2P Require Import Prelude Core.

(** ** Context (core/probe.rs) *)

Inductive ProbeReply : Type :=
| ProbeErr (e : io_error)
| ProbePoll (res : list PollRes)
| ProbeClosed.

Inductive probe_effect : Type :=
| ProbeSchedule (delay : Duration)
| ProbeCancel (s : Scheduled)
| PollSocket (sid : SocketId)
| ProbeAnswer (r : ProbeReply).

Abbreviation K := (M probe_effect).

(** What the schedule answers, given all that was done before. *)
Class ProbeEnv : Type := { poll_schedule_answer : list probe_effect → Duration → result Scheduled }.

Definition probe_schedule `{ProbeEnv} (delay : Duration) : K (result Scheduled) :=
  h ← history; emit (ProbeSchedule delay);; mret (poll_schedule_answer h delay).
Definition probe_cancel (s : Scheduled) : K () := emit (ProbeCancel s).
Definition probe_poll (sid : SocketId) : K () := emit (PollSocket sid).
Definition Probe_send_reply (r : ProbeReply) : K () := emit (ProbeAnswer r).

(** ** Probe *)

Record Probe : Type := mkProbe {
  poll_opts : list PollReq;
  recv_votes : list (option bool);
  send_votes : list (option bool);
  sid_to_idx : gmap SocketId nat;
  timeout : Timeout
}.

Definition set_timeout (self : Probe) (t : Timeout) : Probe :=
  mkProbe (poll_opts self) (recv_votes self) (send_votes self) (sid_to_idx self) t.
Definition set_votes (self : Probe) (r s : list (option bool)) : Probe :=
  mkProbe (poll_opts self) r s (sid_to_idx self) (timeout self).

(** [v\[i\]], and [v\[i\] = x]. *)
Definition vec_get {A} (v : list A) (i : nat) : K A := lift (v !! i).
Definition vec_set {A} (v : list A) (i : nat) (x : A) : K (list A) :=
  lift (if bool_decide (i < length v)%nat then Some (<[i := x]> v) else None).

Fixpoint index_sids (i : nat) (opts : list PollReq) (m : gmap SocketId nat) : gmap SocketId nat :=
  match opts with
  | [] => m
  | po :: rest => index_sids (S i) rest (<[req_sid po := i]> m)
  end.

Definition Probe_new (opts : list PollReq) : Probe :=
  mkProbe opts (replicate (length opts) None) (replicate (length opts) None) (index_sids 0 opts ∅) None.

Definition is_vote_over (interest : bool) (vote : option bool) : bool :=
  match interest, vote with
  | false, _ => true
  | true, None => false
  | true, Some x => x
  end.

Definition is_socket_side_ready (interest : bool) (vote : option bool) : bool :=
  match interest, vote with
  | false, _ | true, None => false
  | true, Some x => x
  end.

Fixpoint clear_from (idxs : list nat) (self : Probe) : K Probe :=
  match idxs with
  | [] => mret self
  | i :: rest =>
      r ← vec_set (recv_votes self) i None;
      s ← vec_set (send_votes self) i None;
      clear_from rest (set_votes self r s)
  end.
Definition clear_votes (self : Probe) : K Probe :=
  clear_from (range 0 (length (poll_opts self))) self.

Definition on_poll_succeed (poll_results : list PollRes) (self : Probe) : K Probe :=
  if_some (timeout self) probe_cancel;;
  self ← clear_votes (set_timeout self None);
  Probe_send_reply (ProbePoll poll_results);;
  mret self.

(** The loop of [check]: whether it goes through without returning. *)
Fixpoint votes_over (i : nat) (opts : list PollReq) (self : Probe) : K bool :=
  match opts with
  | [] => mret true
  | poll_opt :: rest =>
      recv_vote ← vec_get (recv_votes self) i;
      if negb (is_vote_over (req_recv poll_opt) recv_vote) then mret false
      else
        send_vote ← vec_get (send_votes self) i;
        if negb (is_vote_over (req_send poll_opt) send_vote) then mret false
        else votes_over (S i) rest self
  end.

Definition check (self : Probe) : K Probe :=
  if bool_decide (timeout self = None) then mret self
  else
    over ← votes_over 0 (poll_opts self) self;
    if (over : bool) then
      let poll_results := (λ po, mkPollRes (req_recv po) (req_send po)) <$> poll_opts self in
      on_poll_succeed poll_results self
    else mret self.

Definition start_poll (t : Scheduled) (self : Probe) : K Probe :=
  let self := set_timeout self (Some t) in
  for_each (λ po, probe_poll (req_sid po)) (poll_opts self);;
  check self.

Definition poll `{ProbeEnv} (delay : Duration) (self : Probe) : K Probe :=
  scheduled ← probe_schedule delay;
  match scheduled with
  | Ok t => start_poll t self
  | Err e => Probe_send_reply (ProbeErr e);; mret self
  end.

Fixpoint collect_results (i : nat) (opts : list PollReq) (self : Probe) : K (list PollRes) :=
  match opts with
  | [] => mret []
  | po :: rest =>
      recv_vote ← vec_get (recv_votes self) i;
      send_vote ← vec_get (send_votes self) i;
      results ← collect_results (S i) rest self;
      mret (mkPollRes (is_socket_side_ready (req_recv po) recv_vote)
                      (is_socket_side_ready (req_send po) send_vote) :: results)
  end.

Definition on_poll_timeout (self : Probe) : K Probe :=
  poll_results ← collect_results 0 (poll_opts self) self;
  on_poll_succeed poll_results self.

Definition on_socket_can_recv (sid : SocketId) (can_recv : bool) (self : Probe) : K Probe :=
  self ← match sid_to_idx self !! sid with
         | Some i => r ← vec_set (recv_votes self) i (Some can_recv); mret (set_votes self r (send_votes self))
         | None => mret self
         end;
  check self.

Definition on_socket_can_send (sid : SocketId) (can_send : bool) (self : Probe) : K Probe :=
  self ← match sid_to_idx self !! sid with
         | Some i => s ← vec_set (send_votes self) i (Some can_send); mret (set_votes self (recv_votes self) s)
         | None => mret self
         end;
  check self.

Definition get_socket_ids (self : Probe) : list SocketId := req_sid <$> poll_opts self.
Definition Probe_drop (self : Probe) : K () := Probe_send_reply ProbeClosed.

Inductive probe_call : Type :=
| AskPoll (delay : Duration)
| PollTimeout
| VoteRecv (sid : SocketId) (x : bool)
| VoteSend (sid : SocketId) (x : bool).

Definition Probe_step `{ProbeEnv} (c : probe_call) : Probe → K Probe :=
  match c with
  | AskPoll delay => poll delay
  | PollTimeout => on_poll_timeout
  | VoteRecv sid x => on_socket_can_recv sid x
  | VoteSend sid x => on_socket_can_send sid x
  end.

Fixpoint Probe_drive `{ProbeEnv} (calls : list probe_call) (self : Probe) : K Probe :=
  match calls with
  | [] => mret self
  | c :: rest => self ← Probe_step c self; Probe_drive rest self
  end.

(** ** What a probe means *)

(** The last vote of each socket since the last answer, and the timer of the poll
    that is under way, if any. *)
Record Watch : Type := mkWatch {
  seen_recv : gmap SocketId bool;
  seen_send : gmap SocketId bool;
  armed : Timeout
}.

Definition Watch_new : Watch := mkWatch ∅ ∅ None.

Section watch.
Context `{ProbeEnv} (opts : list PollReq).

Definition can (seen : gmap SocketId bool) (sid : SocketId) : bool := bool_decide (seen !! sid = Some true).

(** Everything that was asked of every socket. *)
Definition all_ready (w : Watch) : bool :=
  forallb (λ po, implb (req_recv po) (can (seen_recv w) (req_sid po)) &&
                 implb (req_send po) (can (seen_send w) (req_sid po))) opts.

(** What was asked, where it is ready. *)
Definition ready_sides (w : Watch) : list PollRes :=
  (λ po, mkPollRes (req_recv po && can (seen_recv w) (req_sid po))
                   (req_send po && can (seen_send w) (req_sid po))) <$> opts.

Definition watch_answer (w : Watch) : K Watch :=
  if_some (armed w) probe_cancel;;
  Probe_send_reply (ProbePoll (ready_sides w));;
  mret Watch_new.

Definition watch_check (w : Watch) : K Watch :=
  if bool_decide (armed w = None) then mret w
  else if all_ready w then watch_answer w else mret w.

Definition Watch_step (c : probe_call) (w : Watch) : K Watch :=
  match c with
  | AskPoll delay =>
      scheduled ← probe_schedule delay;
      match scheduled with
      | Ok t =>
          for_each (λ po, probe_poll (req_sid po)) opts;;
          watch_check (mkWatch (seen_recv w) (seen_send w) (Some t))
      | Err e => Probe_send_reply (ProbeErr e);; mret w
      end
  | PollTimeout => watch_answer w
  | VoteRecv sid x => watch_check (mkWatch (<[sid := x]> (seen_recv w)) (seen_send w) (armed w))
  | VoteSend sid x => watch_check (mkWatch (seen_recv w) (<[sid := x]> (seen_send w)) (armed w))
  end.

Fixpoint Watch_drive (calls : list probe_call) (w : Watch) : K Watch :=
  match calls with
  | [] => mret w
  | c :: rest => w ← Watch_step c w; Watch_drive rest w
  end.

(** ** The vectors implement it *)

Definition votes_match (votes : list (option bool)) (seen : gmap SocketId bool) : Prop :=
  length votes = length opts ∧
  ∀ i po, opts !! i = Some po → votes !! i = Some (seen !! req_sid po).

Record watches (p : Probe) (w : Watch) : Prop := {
  w_opts : poll_opts p = opts;
  w_recv : votes_match (recv_votes p) (seen_recv w);
  w_send : votes_match (send_votes p) (seen_send w);
  w_index : ∀ sid i, sid_to_idx p !! sid = Some i ↔ ∃ po, opts !! i = Some po ∧ req_sid po = sid;
  w_timeout : timeout p = armed w
}.

Lemma vec_get_run {A} (v : list A) i x h : v !! i = Some x → vec_get v i h = Done x [].
Proof. intros Hi. unfold vec_get. by rewrite Hi. Qed.

Lemma vec_set_run {A} (v : list A) i (x : A) h : (i < length v)%nat → vec_set v i x h = Done (<[i := x]> v) [].
Proof. intros Hi. unfold vec_set. by rewrite bool_decide_true. Qed.

Lemma votes_match_none : votes_match (replicate (length opts) None) ∅.
Proof.
  split; [by rewrite length_replicate|]. intros i po Hi. rewrite lookup_empty, lookup_replicate.
  split; [done|]. by eapply lookup_lt_Some.
Qed.

Lemma index_sids_lookup i l m sid j :
  NoDup (req_sid <$> l) → (∀ po, po ∈ l → m !! req_sid po = None) →
  index_sids i l m !! sid = Some j ↔
  m !! sid = Some j ∨ (i <= j)%nat ∧ ∃ po, l !! (j - i)%nat = Some po ∧ req_sid po = sid.
Proof.
  revert i m. induction l as [|po l IH]; intros i m Hnd Hm; cbn [index_sids].
  { split; [by left|]. intros [?|(_ & po & ? & _)]; done. }
  rewrite fmap_cons, NoDup_cons in Hnd. destruct Hnd as [Hni Hnd]. rewrite IH; [|done|].
  - rewrite lookup_insert_Some. split.
    + intros [[[<- <-]|[Hne Hs]]|(Hj & po' & Hl & Hs)]; [|by left|].
      * right. split; [done|]. exists po. by rewrite Nat.sub_diag.
      * right. split; [lia|]. exists po'. split; [|done]. by replace (j - i)%nat with (Datatypes.S (j - Datatypes.S i)) by lia.
    + intros [Hs|(Hj & po' & Hl & Hs)].
      * left. right. split; [|done]. intros <-. rewrite Hm in Hs by set_solver. done.
      * destruct (j - i)%nat as [|k] eqn:Hk; simpl in Hl.
        -- left. left. injection Hl as <-. split; [done|lia].
        -- right. split; [lia|]. exists po'. split; [|done]. by replace (j - Datatypes.S i)%nat with k by lia.
  - intros po' Hin. rewrite lookup_insert_ne; [apply Hm; set_solver|]. intros Heq. apply Hni. rewrite Heq.
    by apply list_elem_of_fmap_2.
Qed.

Lemma watches_new : NoDup (req_sid <$> opts) → watches (Probe_new opts) Watch_new.
Proof.
  intros Hnd. split; [done|apply votes_match_none|apply votes_match_none| |done].
  intros sid i. cbn. rewrite index_sids_lookup, lookup_empty; [|done|by intros; rewrite lookup_empty].
  rewrite Nat.sub_0_r. split; [|right; split; [lia|done]]. intros [?|[_ ?]]; done.
Qed.


Lemma is_vote_over_eq interest vote : is_vote_over interest vote = implb interest (bool_decide (vote = Some true)).
Proof. by destruct interest, vote as [[]|]. Qed.

Lemma is_socket_side_ready_eq interest vote :
  is_socket_side_ready interest vote = interest && bool_decide (vote = Some true).
Proof. by destruct interest, vote as [[]|]. Qed.

(** The votes that [i] and the following positions hold are those of [l]. *)
Definition votes_at (votes : list (option bool)) (seen : gmap SocketId bool) (i : nat) (l : list PollReq) : Prop :=
  ∀ k po, l !! k = Some po → votes !! (i + k)%nat = Some (seen !! req_sid po).

Lemma votes_at_cons votes seen i po l :
  votes_at votes seen i (po :: l) → votes !! i = Some (seen !! req_sid po) ∧ votes_at votes seen (Datatypes.S i) l.
Proof.
  intros Hv. split.
  - rewrite <- (Nat.add_0_r i). by apply (Hv 0%nat).
  - intros k po' Hk. replace (Datatypes.S i + k)%nat with (i + Datatypes.S k)%nat by lia. by apply Hv.
Qed.

Lemma votes_over_run l i p w h :
  votes_at (recv_votes p) (seen_recv w) i l → votes_at (send_votes p) (seen_send w) i l →
  votes_over i l p h = Done (forallb (λ po, implb (req_recv po) (can (seen_recv w) (req_sid po)) &&
                                        implb (req_send po) (can (seen_send w) (req_sid po))) l) [].
Proof.
  revert i h. induction l as [|po l IH]; intros i h Hr Hs; [done|].
  apply votes_at_cons in Hr as [Hr Hr']. apply votes_at_cons in Hs as [Hs Hs'].
  cbn [votes_over forallb]. rewrite bind_run, (vec_get_run _ _ _ _ Hr), is_vote_over_eq. unfold can at 1.
  destruct (implb (req_recv po) _); [cbn [negb andb]|done].
  rewrite bind_run, (vec_get_run _ _ _ _ Hs), is_vote_over_eq. unfold can at 1.
  destruct (implb (req_send po) _); [cbn [negb andb]|done]. by rewrite IH.
Qed.

Lemma collect_results_run l i p w h :
  votes_at (recv_votes p) (seen_recv w) i l → votes_at (send_votes p) (seen_send w) i l →
  collect_results i l p h =
  Done ((λ po, mkPollRes (req_recv po && can (seen_recv w) (req_sid po))
                         (req_send po && can (seen_send w) (req_sid po))) <$> l) [].
Proof.
  revert i h. induction l as [|po l IH]; intros i h Hr Hs; [done|].
  apply votes_at_cons in Hr as [Hr Hr']. apply votes_at_cons in Hs as [Hs Hs'].
  cbn [collect_results]. rewrite bind_run, (vec_get_run _ _ _ _ Hr), bind_run, (vec_get_run _ _ _ _ Hs), bind_run.
  rewrite IH by done. cbn. by rewrite !is_socket_side_ready_eq.
Qed.

Lemma clear_from_run idxs p h :
  length (recv_votes p) = length (send_votes p) → Forall (λ i, i < length (recv_votes p))%nat idxs →
  ∃ r s, clear_from idxs p h = Done (set_votes p r s) [] ∧
    length r = length (recv_votes p) ∧ length s = length (send_votes p) ∧
    (∀ i, i ∈ idxs → r !! i = Some None ∧ s !! i = Some None) ∧
    (∀ i, i ∉ idxs → r !! i = recv_votes p !! i ∧ s !! i = send_votes p !! i).
Proof.
  revert p h. induction idxs as [|j idxs IH]; intros p h Hlen Hall.
  { exists (recv_votes p), (send_votes p). repeat (split; [by destruct p|]). split; [set_solver|done]. }
  apply Forall_cons in Hall as [Hj Hall]. cbn [clear_from].
  rewrite bind_run, vec_set_run by done. rewrite bind_run, vec_set_run by lia.
  set (q := set_votes p (<[j := None]> (recv_votes p)) (<[j := None]> (send_votes p))).
  assert (Hq : length (recv_votes q) = length (recv_votes p) ∧ length (send_votes q) = length (send_votes p))
    by (cbn; by rewrite !length_insert).
  destruct Hq as [Hqr Hqs]. destruct (IH q ((h ++ []) ++ [])) as (r & s & Hrun & Hlr & Hls & Hin & Hout);
    [lia|by rewrite Hqr|].
  exists r, s. rewrite Hrun. split; [done|]. split; [lia|]. split; [lia|]. split; intros i Hi.
  - destruct (decide (i ∈ idxs)) as [Hd|Hd]; [auto|]. destruct (Hout i Hd) as [-> ->].
    assert (i = j) as -> by set_solver. cbn. rewrite !list_lookup_insert_eq by lia. done.
  - destruct (Hout i ltac:(set_solver)) as [-> ->]. cbn. rewrite !list_lookup_insert_ne by set_solver. done.
Qed.

Lemma clear_votes_run p h :
  poll_opts p = opts → length (recv_votes p) = length opts → length (send_votes p) = length opts →
  clear_votes p h = Done (set_votes p (replicate (length opts) None) (replicate (length opts) None)) [].
Proof.
  intros Ho Hr Hs. unfold clear_votes. rewrite Ho.
  destruct (clear_from_run (range 0 (length opts)) p h) as (r & s & Hrun & Hlr & Hls & Hin & _); [lia| |].
  { apply Forall_forall. intros i Hi. apply elem_of_range in Hi. lia. }
  rewrite Hrun. do 2 f_equal; (apply list_eq_same_length with (n := length opts); rewrite ?length_replicate; try lia);
    intros i x y Hi Hx Hy; apply lookup_replicate in Hy as [-> _];
    destruct (Hin i) as [Hr' Hs']; try (apply elem_of_range; lia); congruence.
Qed.

Lemma on_poll_succeed_tracks res p w :
  watches p w → res = ready_sides w →
  tracks watches (on_poll_succeed res p) (watch_answer w).
Proof.
  intros [Ho [Hr _] [Hs _] Hi Ht] ->. unfold on_poll_succeed, watch_answer. rewrite Ht.
  apply tracks_same; [intros h; apply if_some_finishes; intros; apply emit_finishes|]. intros _.
  eapply tracks_silent; [intros h; by apply clear_votes_run|].
  apply tracks_same; [intros h; apply emit_finishes|]. intros _. apply tracks_ret.
  split; [done|apply votes_match_none|apply votes_match_none|done|done].
Qed.

(** When all is ready, what is answered is what was asked. *)
Lemma ready_sides_all w :
  all_ready w = true → ready_sides w = (λ po, mkPollRes (req_recv po) (req_send po)) <$> opts.
Proof.
  unfold all_ready, ready_sides. intros Hall. rewrite forallb_forall in Hall.
  apply list_fmap_ext. intros i po Hi%list_elem_of_lookup_2. apply list_elem_of_In in Hi.
  specialize (Hall po Hi). apply andb_true_iff in Hall as [Hr Hs].
  destruct (req_recv po), (req_send po); cbn in *; by rewrite ?Hr, ?Hs.
Qed.

Lemma votes_match_at votes seen : votes_match votes seen → votes_at votes seen 0 opts.
Proof. intros [_ Hv] k po Hk. by apply Hv. Qed.

Lemma check_tracks p w : watches p w → tracks watches (check p) (watch_check w).
Proof.
  intros Hw. destruct Hw as [Ho Hr Hs Hi Ht] eqn:Heq. unfold check, watch_check. rewrite Ht.
  case_bool_decide; [by apply tracks_ret|].
  eapply tracks_silent.
  { intros h. rewrite Ho. by apply votes_over_run; apply votes_match_at. }
  fold (all_ready w). destruct (all_ready w) eqn:Hall; [|by apply tracks_ret].
  apply on_poll_succeed_tracks; [done|]. by rewrite ready_sides_all, Ho.
Qed.

Lemma votes_match_insert votes seen i po x :
  NoDup (req_sid <$> opts) → opts !! i = Some po → votes_match votes seen →
  votes_match (<[i := Some x]> votes) (<[req_sid po := x]> seen).
Proof.
  intros Hnd Hi [Hlen Hv]. split; [by rewrite length_insert|]. intros j po' Hj.
  destruct (decide (i = j)) as [<-|Hne].
  - rewrite list_lookup_insert_eq by (rewrite Hlen; by eapply lookup_lt_Some).
    rewrite Hi in Hj. injection Hj as ->. by rewrite lookup_insert_eq.
  - rewrite list_lookup_insert_ne, (Hv j po' Hj), lookup_insert_ne; [done| |done].
    intros Hsid. apply Hne. apply (NoDup_lookup _ i j (req_sid po) Hnd); rewrite list_lookup_fmap; [by rewrite Hi|].
    rewrite Hj. simpl. by rewrite Hsid.
Qed.

(** The vote of a socket that is not watched. *)
Lemma votes_match_other votes seen sid x :
  (∀ i po, opts !! i = Some po → req_sid po ≠ sid) → votes_match votes seen →
  votes_match votes (<[sid := x]> seen).
Proof.
  intros Hno [Hlen Hv]. split; [done|]. intros i po Hi. rewrite (Hv i po Hi), lookup_insert_ne; [done|].
  intros Hs. by apply (Hno i po).
Qed.

Lemma unwatched p w sid i po :
  watches p w → sid_to_idx p !! sid = None → opts !! i = Some po → req_sid po ≠ sid.
Proof.
  intros Hw Hnone Hi Hs. assert (Hsome : sid_to_idx p !! sid = Some i) by (apply (w_index _ _ Hw); eauto).
  congruence.
Qed.

Hypothesis Hnd : NoDup (req_sid <$> opts).

Lemma on_socket_can_recv_tracks sid x p w :
  watches p w → tracks watches (on_socket_can_recv sid x p) (Watch_step (VoteRecv sid x) w).
Proof.
  intros Hw. unfold on_socket_can_recv. cbn [Watch_step]. destruct (sid_to_idx p !! sid) as [i|] eqn:Hidx.
  - destruct (proj1 (w_index _ _ Hw sid i) Hidx) as (po & Hi & <-). destruct Hw as [Ho [Hl Hr] Hs Hix Ht].
    eapply tracks_silent.
    + intros h. rewrite bind_run, vec_set_run; [done|]. rewrite Hl. by eapply lookup_lt_Some.
    + apply check_tracks. split; [done| |done|done|done]. cbn. by apply votes_match_insert.
  - eapply tracks_silent; [done|]. apply check_tracks. destruct Hw as [Ho Hr Hs Hix Ht] eqn:Heq.
    split; [done| |done|done|done]. cbn. apply votes_match_other; [|done]. intros i po. by apply (unwatched p w).
Qed.

Lemma on_socket_can_send_tracks sid x p w :
  watches p w → tracks watches (on_socket_can_send sid x p) (Watch_step (VoteSend sid x) w).
Proof.
  intros Hw. unfold on_socket_can_send. cbn [Watch_step]. destruct (sid_to_idx p !! sid) as [i|] eqn:Hidx.
  - destruct (proj1 (w_index _ _ Hw sid i) Hidx) as (po & Hi & <-). destruct Hw as [Ho Hr [Hl Hs] Hix Ht].
    eapply tracks_silent.
    + intros h. rewrite bind_run, vec_set_run; [done|]. rewrite Hl. by eapply lookup_lt_Some.
    + apply check_tracks. split; [done|done| |done|done]. cbn. by apply votes_match_insert.
  - eapply tracks_silent; [done|]. apply check_tracks. destruct Hw as [Ho Hr Hs Hix Ht] eqn:Heq.
    split; [done|done| |done|done]. cbn. apply votes_match_other; [|done]. intros i po. by apply (unwatched p w).
Qed.

Lemma poll_tracks delay p w :
  watches p w → tracks watches (poll delay p) (Watch_step (AskPoll delay) w).
Proof.
  intros Hw. unfold poll. cbn [Watch_step].
  apply tracks_same; [intros h; eexists _, _; unfold probe_schedule; by rewrite bind_run|].
  intros [t|e].
  - unfold start_poll. cbn [poll_opts set_timeout]. rewrite (w_opts _ _ Hw).
    apply tracks_same; [intros h; apply for_each_finishes; intros; apply emit_finishes|].
    intros _. apply check_tracks. by destruct Hw.
  - apply tracks_same; [intros h; apply emit_finishes|]. intros _. by apply tracks_ret.
Qed.

Lemma Probe_step_tracks c p w : watches p w → tracks watches (Probe_step c p) (Watch_step c w).
Proof.
  intros Hw. destruct c as [delay| |sid x|sid x]; cbn [Probe_step].
  - by apply poll_tracks.
  - cbn [Watch_step]. unfold on_poll_timeout. destruct Hw as [Ho Hr Hs Hi Ht] eqn:Heq.
    eapply tracks_silent.
    + intros h. rewrite Ho. by apply collect_results_run; apply votes_match_at.
    + by apply on_poll_succeed_tracks.
  - by apply on_socket_can_recv_tracks.
  - by apply on_socket_can_send_tracks.
Qed.

Lemma Probe_drive_tracks calls p w : watches p w → tracks watches (Probe_drive calls p) (Watch_drive calls w).
Proof.
  revert p w. induction calls as [|c calls IH]; intros p w Hw; cbn [Probe_drive Watch_drive]; [by apply tracks_ret|].
  eapply tracks_bind; [by apply Probe_step_tracks|]. auto.
Qed.

End watch.

(** ** One answer for each poll *)

Definition poll_answers (out : list probe_effect) : list ProbeReply :=
  omap (λ e, match e with ProbeAnswer r => Some r | _ => None end) out.
Definition polls_asked (calls : list probe_call) : nat :=
  length (omap (λ c, match c with AskPoll d => Some d | _ => None end) calls).
Definition under_way (t : Timeout) : nat := if t then 1 else 0.

(** The facade polls again when it was answered, and a timer that was cancelled
    does not fire. *)
Definition poll_allowed (c : probe_call) (w : Watch) : bool :=
  match c with
  | AskPoll _ => bool_decide (armed w = None)
  | PollTimeout => bool_decide (armed w ≠ None)
  | _ => true
  end.

Section answers.
Context `{ProbeEnv} (opts : list PollReq).

Fixpoint poll_disciplined (calls : list probe_call) (w : Watch) (h : list probe_effect) : bool :=
  match calls with
  | [] => true
  | c :: rest =>
      poll_allowed c w &&
      match Watch_step opts c w h with
      | Done w' out => poll_disciplined rest w' (h ++ out)
      | Panicked => true
      end
  end.

(** What [m] answers and leaves under way is what [n] polls asked. *)
Definition accounts (n : nat) (m : K Watch) : Prop :=
  ∀ h, ∃ w out, m h = Done w out ∧ (length (poll_answers out) + under_way (armed w))%nat = n.

Lemma accounts_ret w : accounts (under_way (armed w)) (mret w).
Proof. intros h. by exists w, []. Qed.

Lemma accounts_quiet {A} n (m : K A) (k : A → K Watch) :
  (∀ h, ∃ a out, m h = Done a out ∧ poll_answers out = []) → (∀ a, accounts n (k a)) → accounts n (m ≫= k).
Proof.
  intros Hm Hk h. destruct (Hm h) as (a & o1 & H1 & Hq). destruct (Hk a (h ++ o1)) as (w & o2 & H2 & Hn).
  exists w, (o1 ++ o2). split; [by eapply bind_done|]. unfold poll_answers in *. by rewrite omap_app, Hq.
Qed.

Lemma accounts_reply r w : accounts (S (under_way (armed w))) (Probe_send_reply r;; mret w).
Proof. intros h. exists w, [ProbeAnswer r]. done. Qed.

Lemma polls_quiet h : ∃ a out, for_each (λ po, probe_poll (req_sid po)) opts h = Done a out ∧ poll_answers out = [].
Proof.
  revert h. induction opts as [|po l IH]; intros h; [by exists (), []|].
  destruct (IH (h ++ [PollSocket (req_sid po)])) as ([] & out & Hrun & Hq).
  exists (), (PollSocket (req_sid po) :: out). split; [|done]. cbn [for_each]. rewrite bind_run. unfold probe_poll at 1.
  by rewrite emit_run, Hrun.
Qed.

Lemma watch_answer_accounts w : accounts 1 (watch_answer opts w).
Proof.
  apply accounts_quiet; [|intros _; by apply (accounts_reply _ Watch_new)].
  intros h. destruct (armed w) as [t|]; [by exists (), [ProbeCancel t]|by exists (), []].
Qed.

Lemma watch_check_accounts w : accounts (under_way (armed w)) (watch_check opts w).
Proof.
  unfold watch_check. case_bool_decide as Ha; [apply accounts_ret|].
  destruct (all_ready opts w); [|apply accounts_ret].
  destruct (armed w); [apply watch_answer_accounts|done].
Qed.

Lemma Watch_step_accounts c w :
  poll_allowed c w = true → accounts (under_way (armed w) + polls_asked [c]) (Watch_step opts c w).
Proof.
  intros Ha. destruct c as [delay| |sid x|sid x]; cbn [poll_allowed Watch_step polls_asked omap length] in *;
    rewrite ?Nat.add_0_r.
  - apply bool_decide_eq_true in Ha. rewrite Ha.
    apply accounts_quiet; [intros h; eexists _, _; unfold probe_schedule; by rewrite bind_run|].
    intros [t|e].
    + apply accounts_quiet; [apply polls_quiet|]. intros _. apply (watch_check_accounts (mkWatch _ _ (Some t))).
    + pose proof (accounts_reply (ProbeErr e) w) as Hr. by rewrite Ha in Hr.
  - apply bool_decide_eq_true in Ha. destruct (armed w); [apply watch_answer_accounts|done].
  - apply (watch_check_accounts (mkWatch _ _ (armed w))).
  - apply (watch_check_accounts (mkWatch _ _ (armed w))).
Qed.

Lemma Watch_drive_accounts calls w h :
  poll_disciplined calls w h = true →
  ∃ w' out, Watch_drive opts calls w h = Done w' out ∧
    (length (poll_answers out) + under_way (armed w'))%nat = (under_way (armed w) + polls_asked calls)%nat.
Proof.
  revert w h. induction calls as [|c calls IH]; intros w h Hd; cbn [Watch_drive poll_disciplined] in *.
  { exists w, []. split; [done|]. cbn. lia. }
  apply andb_true_iff in Hd as [Ha Hd]. destruct (Watch_step_accounts c w Ha h) as (w1 & o1 & H1 & Hn1).
  rewrite H1 in Hd. destruct (IH w1 (h ++ o1) Hd) as (w2 & o2 & H2 & Hn2).
  exists w2, (o1 ++ o2). split; [by eapply bind_done|].
  assert (Hp : polls_asked (c :: calls) = (polls_asked [c] + polls_asked calls)%nat) by by destruct c.
  unfold poll_answers in *. rewrite omap_app, length_app. lia.
Qed.

(** C10: A probe on distinct sockets is its watch: whatever it is asked and told, it
    does not panic, and does exactly what the watch does.  It answers a poll at
    once or at the first vote after which every socket it watches is ready for
    all that was asked of it, with all that was asked; or at the timeout, with
    what is ready then; and when the facade polls once at a time, each poll gets
    one answer, but for the one under way. *)
Theorem probe_refines calls :
  NoDup (req_sid <$> opts) →
  tracks (watches opts) (Probe_drive calls (Probe_new opts)) (Watch_drive opts calls Watch_new) ∧
  (poll_disciplined calls Watch_new [] = true →
   ∃ p out, Probe_drive calls (Probe_new opts) [] = Done p out ∧
     (length (poll_answers out) + under_way (timeout p))%nat = polls_asked calls).
Proof.
  intros Hnd. assert (Ht := Probe_drive_tracks opts Hnd calls _ _ (watches_new opts Hnd)).
  split; [done|]. intros Hd. destruct (Ht []) as (p & w & out & Hp & Hw & Hpw).
  destruct (Watch_drive_accounts calls Watch_new [] Hd) as (w' & out' & Hw' & Hn).
  rewrite Hw in Hw'. injection Hw' as <- <-. exists p, out. split; [done|]. by rewrite (w_timeout _ _ _ Hpw).
Qed.

End answers.

(** A schedule that counts. *)
Definition ex_probe_env : ProbeEnv :=
  {| poll_schedule_answer h _ := Ok (Scheduled_from (Z.of_nat (length h))) |}.
Definition ex_opts : list PollReq :=
  [mkPollReq (SocketId_from 1) true false; mkPollReq (SocketId_from 2) true true].
Definition ex_probe_calls : list probe_call :=
  [VoteRecv (SocketId_from 2) true; AskPoll 1000; VoteRecv (SocketId_from 1) true; VoteSend (SocketId_from 2) true;
   AskPoll 1000; VoteSend (SocketId_from 2) true; PollTimeout].

Example ex_probe_story :
  poll_answers (emitted (Probe_drive (H := ex_probe_env) ex_probe_calls (Probe_new ex_opts) [])) =
  [ProbePoll [mkPollRes true false; mkPollRes true true];
   ProbePoll [mkPollRes false false; mkPollRes false true]].
Proof. by vm_compute. Qed.

Lemma probe_refines_witness :
  poll_disciplined (H := ex_probe_env) ex_opts ex_probe_calls Watch_new [] = true ∧
  ∃ p out, Probe_drive (H := ex_probe_env) ex_probe_calls (Probe_new ex_opts) [] = Done p out ∧
    (length (poll_answers out) + under_way (timeout p))%nat = 2%nat.
Proof.
  split; [by vm_compute|].
  destruct (probe_refines (H := ex_probe_env) ex_opts ex_probe_calls) as [_ Hone];
    [by apply (bool_decide_unpack _); vm_compute|]. by apply Hone; vm_compute.
Defined.

(** ** A probe never panics

    Whatever it watches, even the same socket twice. *)

Record probe_wf (opts : list PollReq) (p : Probe) : Prop := {
  wf_opts : poll_opts p = opts;
  wf_recv : length (recv_votes p) = length opts;
  wf_send : length (send_votes p) = length opts;
  wf_index : ∀ sid i, sid_to_idx p !! sid = Some i → (i < length opts)%nat
}.

Section wf.
Context `{ProbeEnv} (opts : list PollReq).

Lemma index_sids_bound i l m sid j :
  (∀ sid j, m !! sid = Some j → (j < i + length l)%nat) → index_sids i l m !! sid = Some j → (j < i + length l)%nat.
Proof.
  revert i m. induction l as [|po l IH]; intros i m Hm; [apply Hm|]. cbn [index_sids length]. intros Hl.
  replace (i + S (length l))%nat with (S i + length l)%nat by lia. eapply (IH (S i)); [|exact Hl].
  intros sid' j'. destruct (decide (sid' = req_sid po)) as [->|Hne].
  - rewrite lookup_insert_eq. intros [= <-]. lia.
  - rewrite lookup_insert_ne by done. intros Hj%Hm. cbn [length] in Hj. lia.
Qed.

Lemma probe_new_wf : probe_wf opts (Probe_new opts).
Proof.
  split; [done|apply length_replicate|apply length_replicate|]. intros sid i Hi.
  apply (index_sids_bound 0 opts ∅ sid i); [|done]. intros ? ?. by rewrite lookup_empty.
Qed.

Lemma vec_get_settles {A} (v : list A) i : (i < length v)%nat → settles (E := probe_effect) (λ _, True) (vec_get v i).
Proof. intros Hi. apply settles_lift. destruct (lookup_lt_is_Some_2 v i Hi) as [x ->]. by exists x. Qed.

Lemma vec_set_settles {A} (v : list A) i x :
  (i < length v)%nat → settles (E := probe_effect) (λ w, length w = length v) (vec_set v i x).
Proof. intros Hi. apply settles_lift. exists (<[i:=x]> v). rewrite bool_decide_true by done. by rewrite length_insert. Qed.

Lemma clear_votes_settles p : probe_wf opts p → settles (probe_wf opts) (clear_votes p).
Proof.
  intros [Ho Hr Hs Hi] h. destruct (clear_from_run (range 0 (length (poll_opts p))) p h) as (r & s & Hrun & Hlr & Hls & _).
  - lia.
  - apply Forall_forall. intros i Hin%elem_of_range. rewrite Hr. rewrite Ho in Hin. lia.
  - eexists _, _. split; [exact Hrun|]. split; cbn; first [exact Hi|done|lia].
Qed.

Lemma on_poll_succeed_settles res p : probe_wf opts p → settles (probe_wf opts) (on_poll_succeed res p).
Proof.
  intros Hp. unfold on_poll_succeed. apply settles_then; [apply settles_if_some; intros; by apply settles_emit|]. intros _.
  eapply settles_bind; [apply clear_votes_settles; by destruct Hp|]. intros q Hq.
  apply settles_then; [by apply settles_emit|]. intros _. by apply settles_ret.
Qed.

Lemma votes_over_settles i l p :
  probe_wf opts p → (i + length l <= length opts)%nat → settles (λ _, True) (votes_over i l p).
Proof.
  intros [Ho Hr Hs _]. revert i. induction l as [|po l IH]; intros i Hl; cbn [votes_over length] in *; [by apply settles_ret|].
  apply settles_then; [apply vec_get_settles; lia|]. intros v. destruct (negb _); [by apply settles_ret|].
  apply settles_then; [apply vec_get_settles; lia|]. intros v'. destruct (negb _); [by apply settles_ret|]. apply IH. lia.
Qed.

Lemma collect_results_settles i l p :
  probe_wf opts p → (i + length l <= length opts)%nat → settles (λ _, True) (collect_results i l p).
Proof.
  intros [Ho Hr Hs _]. revert i. induction l as [|po l IH]; intros i Hl; cbn [collect_results length] in *; [by apply settles_ret|].
  apply settles_then; [apply vec_get_settles; lia|]. intros v.
  apply settles_then; [apply vec_get_settles; lia|]. intros v'.
  apply settles_then; [apply IH; lia|]. intros rs. by apply settles_ret.
Qed.

Lemma check_settles p : probe_wf opts p → settles (probe_wf opts) (check p).
Proof.
  intros Hp. unfold check. case_bool_decide; [by apply settles_ret|].
  apply settles_then; [apply votes_over_settles; [done|rewrite (wf_opts _ _ Hp); lia]|].
  intros []; [by apply on_poll_succeed_settles|by apply settles_ret].
Qed.

Lemma Probe_step_settles c p : probe_wf opts p → settles (probe_wf opts) (Probe_step c p).
Proof.
  intros Hp. destruct c as [delay| |sid x|sid x]; cbn [Probe_step].
  - unfold poll, probe_schedule. eapply settles_then.
    { apply settles_then; [by apply settles_history|]. intros h. apply settles_then; [by apply settles_emit|]. intros. by apply settles_ret. }
    intros [t|e].
    + unfold start_poll. apply settles_then; [apply settles_for_each; intros; by apply settles_emit|]. intros _.
      apply check_settles. by destruct Hp.
    + apply settles_then; [by apply settles_emit|]. intros _. by apply settles_ret.
  - unfold on_poll_timeout. apply settles_then; [apply collect_results_settles; [done|rewrite (wf_opts _ _ Hp); lia]|].
    intros rs. by apply on_poll_succeed_settles.
  - unfold on_socket_can_recv. eapply (settles_bind (probe_wf opts)); [|intros; by apply check_settles].
    destruct (sid_to_idx p !! sid) as [i|] eqn:Hi; [|by apply settles_ret]. destruct Hp as [Ho Hr Hs Hx].
    eapply settles_bind; [apply vec_set_settles; rewrite Hr; by eapply Hx|]. intros v Hv. apply settles_ret. cbv beta in Hv.
    split; cbn; first [exact Hx|done|lia].
  - unfold on_socket_can_send. eapply (settles_bind (probe_wf opts)); [|intros; by apply check_settles].
    destruct (sid_to_idx p !! sid) as [i|] eqn:Hi; [|by apply settles_ret]. destruct Hp as [Ho Hr Hs Hx].
    eapply settles_bind; [apply vec_set_settles; rewrite Hs; by eapply Hx|]. intros v Hv. apply settles_ret. cbv beta in Hv. split; cbn; first [exact Hx|done|lia].
Qed.

End wf.
