(* ===== verification/Device.v ===== *)
(** * Devices (src/core/device.rs)

    A device tells the thread that forwards messages between two sockets which of
    them has something to receive; when none has, the thread waits. *)

From S2P Require Import Prelude Core.

Inductive DeviceReply : Type :=
| DeviceCheck (l r : bool)
| DeviceClosed.

Inductive device_effect : Type :=
| DevicePoll (sid : SocketId)
| DeviceAnswer (r : DeviceReply).

Abbreviation D := (M device_effect).

Definition device_poll (sid : SocketId) : D () := emit (DevicePoll sid).

Record Device : Type := mkDevice {
  left : SocketId;
  right : SocketId;
  left_recv : bool;
  right_recv : bool;
  is_waiting : bool
}.

Definition Device_new (l r : SocketId) : Device := mkDevice l r false false false.

Definition Device_send_reply (reply : DeviceReply) : D () := emit (DeviceAnswer reply).

Definition send_check_reply (self : Device) : D Device :=
  let reply := DeviceCheck (left_recv self) (right_recv self) in
  Device_send_reply reply;;
  mret (mkDevice (left self) (right self) (left_recv self) (right_recv self) false).

Definition Device_check (self : Device) : D Device :=
  if left_recv self || right_recv self then send_check_reply self
  else
    device_poll (left self);;
    device_poll (right self);;
    mret (mkDevice (left self) (right self) (left_recv self) (right_recv self) true).

Definition Device_on_socket_can_recv (sid : SocketId) (can_recv : bool) (self : Device) : D Device :=
  let self :=
    if bool_decide (sid = left self)
    then mkDevice (left self) (right self) can_recv (right_recv self) (is_waiting self)
    else if bool_decide (sid = right self)
    then mkDevice (left self) (right self) (left_recv self) can_recv (is_waiting self)
    else self in
  if can_recv && is_waiting self then send_check_reply self else mret self.

Definition get_left_id (self : Device) : SocketId := left self.
Definition get_right_id (self : Device) : SocketId := right self.
Definition Device_drop (self : Device) : D () := Device_send_reply DeviceClosed.

Inductive device_call : Type :=
| AskCheck
| CanRecvNow (sid : SocketId) (x : bool).

Definition Device_step (c : device_call) : Device → D Device :=
  match c with
  | AskCheck => Device_check
  | CanRecvNow sid x => Device_on_socket_can_recv sid x
  end.

Fixpoint Device_drive (calls : list device_call) (self : Device) : D Device :=
  match calls with
  | [] => mret self
  | c :: rest => self ← Device_step c self; Device_drive rest self
  end.

(** ** What the forwarding thread is told *)

Definition device_answers (out : list device_effect) : list DeviceReply :=
  omap (λ e, match e with DeviceAnswer r => Some r | _ => None end) out.

Definition checks_asked (calls : list device_call) : nat :=
  length (omap (λ c, match c with AskCheck => Some () | _ => None end) calls).

(** What [sid] said last, [b] before it said anything. *)
Definition last_told (b : bool) (sid : SocketId) (calls : list device_call) : bool :=
  foldl (λ b c, match c with CanRecvNow s x => if bool_decide (s = sid) then x else b | AskCheck => b end) b calls.

(** The thread asks again when it was answered; the sockets told of are its own. *)
Definition device_allowed (c : device_call) (self : Device) : bool :=
  match c with
  | AskCheck => negb (is_waiting self)
  | CanRecvNow sid _ => bool_decide (sid = left self) || bool_decide (sid = right self)
  end.

Fixpoint device_disciplined (calls : list device_call) (self : Device) (h : list device_effect) : bool :=
  match calls with
  | [] => true
  | c :: rest =>
      device_allowed c self &&
      match Device_step c self h with
      | Done self' out => device_disciplined rest self' (h ++ out)
      | Panicked => true
      end
  end.

(** A device that waits knows of nothing to receive. *)
Definition device_ok (self : Device) : Prop :=
  is_waiting self = true → left_recv self = false ∧ right_recv self = false.

(** One call: the answer is the state of both sides, one of which is ready. *)
Definition device_stepped (c : device_call) (self : Device) (out : list device_effect) (self' : Device) : Prop :=
  left self' = left self ∧ right self' = right self ∧ device_ok self' ∧
  left_recv self' = last_told (left_recv self) (left self) [c] ∧
  right_recv self' = last_told (right_recv self) (right self) [c] ∧
  ((device_answers out = [] ∧ Nat.b2n (is_waiting self') = (Nat.b2n (is_waiting self) + checks_asked [c])%nat) ∨
   (device_answers out = [DeviceCheck (left_recv self') (right_recv self')] ∧ is_waiting self' = false ∧
    left_recv self' || right_recv self' = true ∧ (Nat.b2n (is_waiting self) + checks_asked [c] = 1)%nat)).

Lemma Device_step_ok c self h :
  left self ≠ right self → device_ok self → device_allowed c self = true →
  ∃ self' out, Device_step c self h = Done self' out ∧ device_stepped c self out self'.
Proof.
  intros Hne Hok Ha. destruct self as [l r lr rr w]. unfold device_ok in Hok. cbn in Hne, Hok.
  destruct c as [|sid x]; cbn [Device_step device_allowed] in *.
  - apply negb_true_iff in Ha. cbn in Ha. subst w. unfold Device_check. cbn.
    destruct lr, rr; eexists _, _; (split; [reflexivity|]); unfold device_stepped, device_ok; cbn; naive_solver.
  - cbn in Ha. apply orb_true_iff in Ha. unfold Device_on_socket_can_recv. cbn.
    destruct Ha as [Hs|Hs]; apply bool_decide_eq_true in Hs; subst sid.
    + rewrite bool_decide_true by done. cbn.
      destruct x, w; eexists _, _; (split; [reflexivity|]); unfold device_stepped, device_ok, last_told; cbn;
        rewrite bool_decide_true, bool_decide_false by done; naive_solver.
    + rewrite (bool_decide_false (r = l)), bool_decide_true by done. cbn.
      destruct x, w; eexists _, _; (split; [reflexivity|]); unfold device_stepped, device_ok, last_told; cbn;
        rewrite (bool_decide_false (r = l)), bool_decide_true by done; naive_solver.
Qed.

Lemma last_told_cons b sid c calls : last_told b sid (c :: calls) = last_told (last_told b sid [c]) sid calls.
Proof. done. Qed.

Lemma checks_asked_cons c calls : checks_asked (c :: calls) = (checks_asked [c] + checks_asked calls)%nat.
Proof. by destruct c. Qed.

Definition tells_ready (r : DeviceReply) : Prop :=
  match r with DeviceCheck l r => l || r = true | DeviceClosed => False end.

Lemma Device_drive_ok calls self h :
  left self ≠ right self → device_ok self → device_disciplined calls self h = true →
  ∃ self' out, Device_drive calls self h = Done self' out ∧
    left self' = left self ∧ right self' = right self ∧ device_ok self' ∧
    Forall tells_ready (device_answers out) ∧
    (length (device_answers out) + Nat.b2n (is_waiting self') =
      Nat.b2n (is_waiting self) + checks_asked calls)%nat ∧
    left_recv self' = last_told (left_recv self) (left self) calls ∧
    right_recv self' = last_told (right_recv self) (right self) calls.
Proof.
  revert self h. induction calls as [|c calls IH]; intros self h Hne Hok Hd; cbn [Device_drive device_disciplined] in *.
  { exists self, []. cbn. by rewrite Nat.add_0_r. }
  apply andb_true_iff in Hd as [Ha Hd]. destruct (Device_step_ok c self h Hne Hok Ha) as (s1 & o1 & H1 & Hst).
  destruct Hst as (Hl & Hr & Hok1 & Hlr & Hrr & Hans). rewrite H1 in Hd.
  destruct (IH s1 (h ++ o1) ltac:(by rewrite Hl, Hr) Hok1 Hd) as (s2 & o2 & H2 & Hl2 & Hr2 & Hok2 & Hf & Hn & Hlr2 & Hrr2).
  exists s2, (o1 ++ o2). split; [by eapply bind_done|]. split; [congruence|]. split; [congruence|]. split; [done|].
  assert (Happ : device_answers (o1 ++ o2) = device_answers o1 ++ device_answers o2) by apply omap_app.
  rewrite Happ, length_app, checks_asked_cons, (last_told_cons _ (left self)), (last_told_cons _ (right self)).
  rewrite <- Hlr, <- Hrr, <- Hl, <- Hr. split; [|split; [|done]].
  - apply Forall_app. split; [|done]. destruct Hans as [[-> _]|(-> & _ & Hor & _)]; by repeat constructor.
  - destruct Hans as [[-> Hw]|(-> & Hw & _ & Hc)]; rewrite Hw in *; cbn in *; lia.
Qed.

(** C13: When the forwarding thread checks once at a time, a device on two sockets
    answers each check exactly once, but for the one under way, and never that
    nothing can be received: it waits for the first side that can.  What it
    knows of each side is what that side said last. *)
Theorem device_answers_checks l r calls :
  l ≠ r → device_disciplined calls (Device_new l r) [] = true →
  ∃ self out, Device_drive calls (Device_new l r) [] = Done self out ∧
    Forall tells_ready (device_answers out) ∧
    (length (device_answers out) + Nat.b2n (is_waiting self) = checks_asked calls)%nat ∧
    left_recv self = last_told false l calls ∧ right_recv self = last_told false r calls ∧
    (is_waiting self = true → left_recv self = false ∧ right_recv self = false).
Proof.
  intros Hne Hd. destruct (Device_drive_ok calls (Device_new l r) [] Hne) as (s & out & Hrun & _ & _ & Hok & Hf & Hn & Hl & Hr);
    [by intros ?|done|]. exists s, out. by repeat (split; [done|]).
Qed.

Definition ex_device_calls : list device_call :=
  [AskCheck; CanRecvNow (SocketId_from 2) true; CanRecvNow (SocketId_from 2) false; AskCheck;
   CanRecvNow (SocketId_from 1) true; AskCheck].

Lemma device_answers_checks_witness :
  device_disciplined ex_device_calls (Device_new (SocketId_from 1) (SocketId_from 2)) [] = true ∧
  ∃ self out, Device_drive ex_device_calls (Device_new (SocketId_from 1) (SocketId_from 2)) [] = Done self out ∧
    (length (device_answers out) + Nat.b2n (is_waiting self) = 3)%nat.
Proof.
  split; [by vm_compute|].
  destruct (device_answers_checks (SocketId_from 1) (SocketId_from 2) ex_device_calls)
    as (self & out & Hrun & _ & Hn & _); [done|by vm_compute|]. by exists self, out.
Defined.
