(* ===== verification/Session.v ===== *)
(** * Sessions (src/core/session.rs)

    The sockets, devices and probes of the reactor, by id, and the links from a
    socket to the device and to the probe that listen to it.

    The three collections and the endpoints of the reactor number what they hold
    with clones of one [Sequence]: the cell is passed around.  An item that is
    removed is given back, since dropping it has effects. *)

From S2P Require Import Prelude Core Context Protocol Socket Probe Device.

Inductive SessionReply : Type :=
| SessionErr (e : io_error)
| SocketCreated (sid : SocketId)
| DeviceCreated (did : DeviceId)
| ProbeCreated (pid : ProbeId)
| SessionShutdown.

Record SocketCollection (T : Type) : Type := mkSocketCollection { sockets : gmap SocketId (Socket T) }.
Arguments mkSocketCollection {T} _.
Arguments sockets {T} _.

Record DeviceCollection : Type := mkDeviceCollection {
  device_mapping : gmap SocketId DeviceId;
  devices : gmap DeviceId Device
}.

Record ProbeCollection : Type := mkProbeCollection {
  probe_mapping : gmap SocketId ProbeId;
  probes : gmap ProbeId Probe
}.

Section collections.
Context `{Build} {T : Type}.

(** ** Socket collection *)

Definition SocketCollection_new : SocketCollection T := mkSocketCollection ∅.

Definition SocketCollection_add (proto : T) (ids : Sequence) (self : SocketCollection T)
    : option (SocketId * Sequence * SocketCollection T) :=
  '(n, ids) ← Sequence_next ids;
  let id := SocketId_from n in
  let socket := Socket_new id proto in
  Some (id, ids, mkSocketCollection (<[id := socket]> (sockets self))).

Definition SocketCollection_get_socket_mut (id : SocketId) (self : SocketCollection T) : option (Socket T) :=
  sockets self !! id.

Definition SocketCollection_remove (id : SocketId) (self : SocketCollection T) : SocketCollection T :=
  mkSocketCollection (delete id (sockets self)).

(** ** Device collection *)

Definition DeviceCollection_new : DeviceCollection := mkDeviceCollection ∅ ∅.

Definition DeviceCollection_add (l r : SocketId) (ids : Sequence) (self : DeviceCollection)
    : option (DeviceId * Sequence * DeviceCollection) :=
  '(n, ids) ← Sequence_next ids;
  let id := DeviceId_from n in
  let device := Device_new l r in
  Some (id, ids, mkDeviceCollection (<[r := id]> (<[l := id]> (device_mapping self)))
                                    (<[id := device]> (devices self))).

Definition DeviceCollection_get_device_mut (id : DeviceId) (self : DeviceCollection) : option Device :=
  devices self !! id.

(** With the id under which the device is kept. *)
Definition DeviceCollection_find_device_mut (sid : SocketId) (self : DeviceCollection) : option (DeviceId * Device) :=
  match device_mapping self !! sid with
  | Some did => pair did <$> devices self !! did
  | None => None
  end.

Definition DeviceCollection_remove (id : DeviceId) (self : DeviceCollection) : option Device * DeviceCollection :=
  match devices self !! id with
  | Some device =>
      (Some device,
       mkDeviceCollection (delete (get_right_id device) (delete (get_left_id device) (device_mapping self)))
                          (delete id (devices self)))
  | None => (None, self)
  end.

(** ** Probe collection *)

Definition ProbeCollection_new : ProbeCollection := mkProbeCollection ∅ ∅.

Definition link_all (id : ProbeId) (opts : list PollReq) (m : gmap SocketId ProbeId) : gmap SocketId ProbeId :=
  foldl (λ m po, <[req_sid po := id]> m) m opts.
Definition unlink_all (ids : list SocketId) (m : gmap SocketId ProbeId) : gmap SocketId ProbeId :=
  foldl (λ m sid, delete sid m) m ids.

Definition ProbeCollection_add (poll_opts : list PollReq) (ids : Sequence) (self : ProbeCollection)
    : option (ProbeId * Sequence * ProbeCollection) :=
  '(n, ids) ← Sequence_next ids;
  let id := ProbeId_from n in
  let probe := Probe_new poll_opts in
  Some (id, ids, mkProbeCollection (link_all id poll_opts (probe_mapping self)) (<[id := probe]> (probes self))).

Definition ProbeCollection_get_probe_mut (id : ProbeId) (self : ProbeCollection) : option Probe :=
  probes self !! id.

Definition ProbeCollection_find_probe_mut (sid : SocketId) (self : ProbeCollection) : option (ProbeId * Probe) :=
  match probe_mapping self !! sid with
  | Some pid => pair pid <$> probes self !! pid
  | None => None
  end.

Definition ProbeCollection_remove (id : ProbeId) (self : ProbeCollection) : option Probe * ProbeCollection :=
  match probes self !! id with
  | Some probe =>
      (Some probe,
       mkProbeCollection (unlink_all (get_socket_ids probe) (probe_mapping self)) (delete id (probes self)))
  | None => (None, self)
  end.

(** ** Session *)

Record Session : Type := mkSession {
  ses_sockets : SocketCollection T;
  ses_devices : DeviceCollection;
  ses_probes : ProbeCollection
}.

Definition Session_new : Session := mkSession SocketCollection_new DeviceCollection_new ProbeCollection_new.

(** The reply is what is sent on the channel of the session. *)
Definition add_socket (protocol : T) (ids : Sequence) (self : Session)
    : option (SessionReply * Sequence * Session) :=
  '(id, ids, socks) ← SocketCollection_add protocol ids (ses_sockets self);
  Some (SocketCreated id, ids, mkSession socks (ses_devices self) (ses_probes self)).
Definition get_socket_mut (id : SocketId) (self : Session) : option (Socket T) :=
  SocketCollection_get_socket_mut id (ses_sockets self).
Definition remove_socket (id : SocketId) (self : Session) : Session :=
  mkSession (SocketCollection_remove id (ses_sockets self)) (ses_devices self) (ses_probes self).

Definition add_device (l r : SocketId) (ids : Sequence) (self : Session)
    : option (SessionReply * Sequence * Session) :=
  '(id, ids, devs) ← DeviceCollection_add l r ids (ses_devices self);
  Some (DeviceCreated id, ids, mkSession (ses_sockets self) devs (ses_probes self)).
Definition get_device_mut (id : DeviceId) (self : Session) : option Device :=
  DeviceCollection_get_device_mut id (ses_devices self).
Definition find_device_mut (sid : SocketId) (self : Session) : option (DeviceId * Device) :=
  DeviceCollection_find_device_mut sid (ses_devices self).
Definition remove_device (did : DeviceId) (self : Session) : option Device * Session :=
  let '(dropped, devs) := DeviceCollection_remove did (ses_devices self) in
  (dropped, mkSession (ses_sockets self) devs (ses_probes self)).

Definition add_probe (poll_opts : list PollReq) (ids : Sequence) (self : Session)
    : option (SessionReply * Sequence * Session) :=
  '(id, ids, prbs) ← ProbeCollection_add poll_opts ids (ses_probes self);
  Some (ProbeCreated id, ids, mkSession (ses_sockets self) (ses_devices self) prbs).
Definition get_probe_mut (id : ProbeId) (self : Session) : option Probe :=
  ProbeCollection_get_probe_mut id (ses_probes self).
Definition find_probe_mut (sid : SocketId) (self : Session) : option (ProbeId * Probe) :=
  ProbeCollection_find_probe_mut sid (ses_probes self).
Definition remove_probe (id : ProbeId) (self : Session) : option Probe * Session :=
  let '(dropped, prbs) := ProbeCollection_remove id (ses_probes self) in
  (dropped, mkSession (ses_sockets self) (ses_devices self) prbs).

(** Through the [&mut] that the [get_*] and [find_*] give: the item is put back. *)
Definition put_socket (id : SocketId) (s : Socket T) (self : Session) : Session :=
  mkSession (mkSocketCollection (<[id := s]> (sockets (ses_sockets self)))) (ses_devices self) (ses_probes self).
Definition put_device (id : DeviceId) (d : Device) (self : Session) : Session :=
  mkSession (ses_sockets self)
    (mkDeviceCollection (device_mapping (ses_devices self)) (<[id := d]> (devices (ses_devices self))))
    (ses_probes self).
Definition put_probe (id : ProbeId) (p : Probe) (self : Session) : Session :=
  mkSession (ses_sockets self) (ses_devices self)
    (mkProbeCollection (probe_mapping (ses_probes self)) (<[id := p]> (probes (ses_probes self)))).

End collections.
Arguments Session T : clear implicits.

(** ** What a session is *)

Section session.
Context `{Build} {T : Type}.
Implicit Types (self : Session T) (sid : SocketId).

(** Items are filed under ids that were drawn; sockets know theirs; a link leads
    to an item that is there and listens to that socket. *)
Record session_ok (ids : Sequence) self : Prop := {
  ok_positive : 0 <= ids;
  ok_sockets : ∀ id s, get_socket_mut id self = Some s → sock_id s = id ∧ SocketId_into id < ids;
  ok_devices : ∀ id d, get_device_mut id self = Some d → DeviceId_into id < ids;
  ok_probes : ∀ id p, get_probe_mut id self = Some p → ProbeId_into id < ids;
  ok_device_links : ∀ sid id, device_mapping (ses_devices self) !! sid = Some id →
    ∃ d, get_device_mut id self = Some d ∧ (sid = get_left_id d ∨ sid = get_right_id d);
  ok_probe_links : ∀ sid id, probe_mapping (ses_probes self) !! sid = Some id →
    ∃ p, get_probe_mut id self = Some p ∧ sid ∈ get_socket_ids p
}.

Inductive session_op : Type :=
| AddSocket (protocol : T)
| RemoveSocket (id : SocketId)
| PutSocket (id : SocketId) (s : Socket T)
| AddDevice (l r : SocketId)
| RemoveDevice (id : DeviceId)
| PutDevice (id : DeviceId) (d : Device)
| AddProbe (opts : list PollReq)
| RemoveProbe (id : ProbeId)
| PutProbe (id : ProbeId) (p : Probe)
| DrawId.

Definition session_step (op : session_op) (ids : Sequence) self : option (list SessionReply * Sequence * Session T) :=
  match op with
  | AddSocket protocol => '(r, ids, self) ← add_socket protocol ids self; Some ([r], ids, self)
  | RemoveSocket id => Some ([], ids, remove_socket id self)
  | PutSocket id s => Some ([], ids, put_socket id s self)
  | AddDevice l r => '(r, ids, self) ← add_device l r ids self; Some ([r], ids, self)
  | RemoveDevice id => Some ([], ids, (remove_device id self).2)
  | PutDevice id d => Some ([], ids, put_device id d self)
  | AddProbe opts => '(r, ids, self) ← add_probe opts ids self; Some ([r], ids, self)
  | RemoveProbe id => Some ([], ids, (remove_probe id self).2)
  | PutProbe id p => Some ([], ids, put_probe id p self)
  | DrawId => '(_, ids) ← Sequence_next ids; Some ([], ids, self)
  end.

Fixpoint session_run (ops : list session_op) (ids : Sequence) self : option (list SessionReply * Sequence * Session T) :=
  match ops with
  | [] => Some ([], ids, self)
  | op :: rest =>
      '(r, ids, self) ← session_step op ids self;
      '(rs, ids, self) ← session_run rest ids self;
      Some (r ++ rs, ids, self)
  end.

(** What is put back is what was got, changed inside: it keeps its ids. *)
Definition put_back (op : session_op) self : Prop :=
  match op with
  | PutSocket id s => ∃ s0, get_socket_mut id self = Some s0 ∧ sock_id s = sock_id s0
  | PutDevice id d => ∃ d0, get_device_mut id self = Some d0 ∧ get_left_id d = get_left_id d0 ∧ get_right_id d = get_right_id d0
  | PutProbe id p => ∃ p0, get_probe_mut id self = Some p0 ∧ get_socket_ids p = get_socket_ids p0
  | _ => True
  end.

Fixpoint put_backs (ops : list session_op) (ids : Sequence) self : Prop :=
  match ops with
  | [] => True
  | op :: rest =>
      put_back op self ∧
      match session_step op ids self with Some (_, ids, self) => put_backs rest ids self | None => True end
  end.

(** The number drawn for what a reply announces. *)
Definition announced_id (r : SessionReply) : option Z :=
  match r with
  | SocketCreated id => Some (SocketId_into id)
  | DeviceCreated id => Some (DeviceId_into id)
  | ProbeCreated id => Some (ProbeId_into id)
  | _ => None
  end.

(** The probe that listens to [sid] after [op]: the one just added, none once a
    probe that watches it is removed. *)
Definition probe_after (op : session_op) (ids : Sequence) self sid : option (ProbeId * Probe) :=
  match op with
  | AddProbe opts =>
      if bool_decide (sid ∈ req_sid <$> opts) then Some (ProbeId_from ids, Probe_new opts) else find_probe_mut sid self
  | RemoveProbe id =>
      match get_probe_mut id self with
      | Some p => if bool_decide (sid ∈ get_socket_ids p) then None else find_probe_mut sid self
      | None => find_probe_mut sid self
      end
  | PutProbe id p =>
      (λ '(id', p'), if bool_decide (id' = id) then (id, p) else (id', p')) <$> find_probe_mut sid self
  | _ => find_probe_mut sid self
  end.

Definition device_after (op : session_op) (ids : Sequence) self sid : option (DeviceId * Device) :=
  match op with
  | AddDevice l r =>
      if bool_decide (sid = l ∨ sid = r) then Some (DeviceId_from ids, Device_new l r) else find_device_mut sid self
  | RemoveDevice id =>
      match get_device_mut id self with
      | Some d => if bool_decide (sid = get_left_id d ∨ sid = get_right_id d) then None else find_device_mut sid self
      | None => find_device_mut sid self
      end
  | PutDevice id d =>
      (λ '(id', d'), if bool_decide (id' = id) then (id, d) else (id', d')) <$> find_device_mut sid self
  | _ => find_device_mut sid self
  end.

Lemma link_all_lookup id opts m sid :
  link_all id opts m !! sid = if bool_decide (sid ∈ req_sid <$> opts) then Some id else m !! sid.
Proof.
  unfold link_all. revert m. induction opts as [|po opts IH]; intros m; [done|].
  cbn [foldl fmap list_fmap]. rewrite IH. destruct (decide (sid ∈ req_sid <$> opts)) as [Hin|Hin].
  - rewrite !bool_decide_true; [done|set_solver|done].
  - rewrite bool_decide_false by done. destruct (decide (req_sid po = sid)) as [<-|Hne].
    + rewrite lookup_insert_eq. by rewrite bool_decide_true by set_solver.
    + rewrite lookup_insert_ne by done. by rewrite bool_decide_false by set_solver.
Qed.

Lemma unlink_all_lookup ids m sid :
  unlink_all ids m !! sid = if bool_decide (sid ∈ ids) then None else m !! sid.
Proof.
  unfold unlink_all. revert m. induction ids as [|id ids IH]; intros m; [done|].
  cbn [foldl]. rewrite IH. destruct (decide (sid ∈ ids)) as [Hin|Hin].
  - rewrite !bool_decide_true; [done|set_solver|done].
  - rewrite bool_decide_false by done. destruct (decide (id = sid)) as [<-|Hne].
    + rewrite lookup_delete_eq. by rewrite bool_decide_true by set_solver.
    + rewrite lookup_delete_ne by done. by rewrite bool_decide_false by set_solver.
Qed.


(** What the links give, in a session that is well formed. *)
Lemma find_probe_link ids self sid : session_ok ids self →
  fst <$> find_probe_mut sid self = probe_mapping (ses_probes self) !! sid.
Proof.
  intros Hok. unfold find_probe_mut, ProbeCollection_find_probe_mut.
  destruct (probe_mapping (ses_probes self) !! sid) as [id|] eqn:Hl; [|done].
  destruct (ok_probe_links _ _ Hok _ _ Hl) as (p & Hp & _).
  change (probes _ !! id) with (get_probe_mut id self). by rewrite Hp.
Qed.

Lemma find_device_link ids self sid : session_ok ids self →
  fst <$> find_device_mut sid self = device_mapping (ses_devices self) !! sid.
Proof.
  intros Hok. unfold find_device_mut, DeviceCollection_find_device_mut.
  destruct (device_mapping (ses_devices self) !! sid) as [id|] eqn:Hl; [|done].
  destruct (ok_device_links _ _ Hok _ _ Hl) as (d & Hd & _).
  change (devices _ !! id) with (get_device_mut id self). by rewrite Hd.
Qed.

Definition session_stepped (op : session_op) (ids : Sequence) self (rs : list SessionReply)
    (ids' : Sequence) (self' : Session T) : Prop :=
  session_ok ids' self' ∧
  (omap announced_id rs = [] ∧ ids <= ids' <= ids + 1 ∨ omap announced_id rs = [ids] ∧ ids' = ids + 1) ∧
  (∀ sid, find_probe_mut sid self' = probe_after op ids self sid) ∧
  (∀ sid, find_device_mut sid self' = device_after op ids self sid).

(** The links after an item that is linked is put back. *)
Lemma linked_update `{Countable Ix} {V} (links : gmap SocketId Ix) (items : gmap Ix V) k v sid :
  is_Some (items !! k) →
  match links !! sid with Some i => pair i <$> <[k := v]> items !! i | None => None end =
  (λ '(i, w), if bool_decide (i = k) then (k, v) else (i, w)) <$>
    match links !! sid with Some i => pair i <$> items !! i | None => None end.
Proof.
  intros [w0 Hk]. destruct (links !! sid) as [i|]; [|done]. destruct (decide (i = k)) as [->|Hne].
  - rewrite lookup_insert_eq, Hk. cbn. by rewrite bool_decide_true.
  - rewrite lookup_insert_ne by done. destruct (items !! i); [|done]. cbn. by rewrite bool_decide_false.
Qed.

(** A new item takes the links it asks for; the others lead where they led. *)
Lemma linked_insert `{Countable Ix} {V} (links links' : gmap SocketId Ix) (items : gmap Ix V) k v (b : bool) sid :
  links' !! sid = (if b then Some k else links !! sid) →
  (∀ i, links !! sid = Some i → i ≠ k) →
  match links' !! sid with Some i => pair i <$> <[k := v]> items !! i | None => None end =
  if b then Some (k, v) else match links !! sid with Some i => pair i <$> items !! i | None => None end.
Proof.
  intros -> Hne. destruct b; [by rewrite lookup_insert_eq|].
  destruct (links !! sid) as [i|] eqn:Hi; [|done]. by rewrite lookup_insert_ne by (symmetry; auto).
Qed.

(** A removed item drops the links that lead to it, and maybe others. *)
Lemma linked_delete `{Countable Ix} {V} (links links' : gmap SocketId Ix) (items : gmap Ix V) k (b : bool) sid :
  links' !! sid = (if b then None else links !! sid) → (b = false → links !! sid ≠ Some k) →
  match links' !! sid with Some i => pair i <$> delete k items !! i | None => None end =
  if b then None else match links !! sid with Some i => pair i <$> items !! i | None => None end.
Proof.
  intros -> Hne. destruct b; [done|]. destruct (links !! sid) as [i|] eqn:Hi; [|done].
  rewrite lookup_delete_ne; [done|]. intros <-. by apply Hne.
Qed.


Lemma draw_run ids : 0 <= ids → ids + 1 < 2 ^ 64 → Sequence_next ids = Some (ids, ids + 1).
Proof. apply Sequence_next_fresh. Qed.

(** A session is well formed when only its sockets changed, well. *)
Lemma session_ok_sockets ids ids' self socks :
  session_ok ids self → ids <= ids' →
  (∀ id s, sockets socks !! id = Some s → sock_id s = id ∧ SocketId_into id < ids') →
  session_ok ids' (mkSession socks (ses_devices self) (ses_probes self)).
Proof.
  intros [Hp Hs Hd Hb Hdl Hbl] Hle Hsock. split; try done; [lia| |].
  - intros id d Hl. specialize (Hd id d Hl). lia.
  - intros id d Hl. specialize (Hb id d Hl). lia.
Qed.

Lemma session_ok_devices ids ids' self devs :
  session_ok ids self → ids <= ids' →
  (∀ id d, devices devs !! id = Some d → DeviceId_into id < ids') →
  (∀ sid id, device_mapping devs !! sid = Some id →
    ∃ d, devices devs !! id = Some d ∧ (sid = get_left_id d ∨ sid = get_right_id d)) →
  session_ok ids' (mkSession (ses_sockets self) devs (ses_probes self)).
Proof.
  intros [Hp Hs Hd Hb Hdl Hbl] Hle Hids Hlinks. split; try done; [lia| |].
  - intros id s Hl. destruct (Hs id s Hl). split; [done|lia].
  - intros id p Hl. specialize (Hb id p Hl). lia.
Qed.

Lemma session_ok_probes ids ids' self prbs :
  session_ok ids self → ids <= ids' →
  (∀ id p, probes prbs !! id = Some p → ProbeId_into id < ids') →
  (∀ sid id, probe_mapping prbs !! sid = Some id → ∃ p, probes prbs !! id = Some p ∧ sid ∈ get_socket_ids p) →
  session_ok ids' (mkSession (ses_sockets self) (ses_devices self) prbs).
Proof.
  intros [Hp Hs Hd Hb Hdl Hbl] Hle Hids Hlinks. split; try done; [lia| |].
  - intros id s Hl. destruct (Hs id s Hl). split; [done|lia].
  - intros id d Hl. specialize (Hd id d Hl). lia.
Qed.

Lemma session_new_ok : session_ok Sequence_new Session_new.
Proof. split; try done; unfold Sequence_new; lia. Qed.

Lemma sockets_stepped ids self socks rs ids' op :
  session_ok ids self →
  omap announced_id rs = [] ∧ ids <= ids' <= ids + 1 ∨ omap announced_id rs = [ids] ∧ ids' = ids + 1 →
  (∀ id s, sockets socks !! id = Some s → sock_id s = id ∧ SocketId_into id < ids') →
  (∀ sid, probe_after op ids self sid = find_probe_mut sid self) →
  (∀ sid, device_after op ids self sid = find_device_mut sid self) →
  session_stepped op ids self rs ids' (mkSession socks (ses_devices self) (ses_probes self)).
Proof.
  intros Hok Hids Hsock Hpr Hdev. split; [eapply session_ok_sockets; [done|lia|done]|].
  split; [done|]. split; [intros sid; by rewrite Hpr|intros sid; by rewrite Hdev].
Qed.

Lemma AddSocket_stepped protocol ids self :
  session_ok ids self → ids + 1 < 2 ^ 64 →
  ∃ rs ids' self', session_step (AddSocket protocol) ids self = Some (rs, ids', self') ∧
    session_stepped (AddSocket protocol) ids self rs ids' self'.
Proof.
  intros Hok Hlt. eexists _, _, _. split.
  { simpl. unfold add_socket, SocketCollection_add. by rewrite draw_run by (done || apply Hok). }
  apply sockets_stepped; try done; [by right|]. intros id s. cbn [sockets].
  destruct (decide (id = SocketId_from ids)) as [->|Hne].
  - rewrite lookup_insert_eq. intros [= <-]. split; [done|cbn; lia].
  - rewrite lookup_insert_ne by done. intros Hl. destruct (ok_sockets _ _ Hok id s Hl). split; [done|lia].
Qed.

Lemma AddDevice_stepped l r ids self :
  session_ok ids self → ids + 1 < 2 ^ 64 →
  ∃ rs ids' self', session_step (AddDevice l r) ids self = Some (rs, ids', self') ∧
    session_stepped (AddDevice l r) ids self rs ids' self'.
Proof.
  intros Hok Hlt. eexists _, _, _. split.
  { simpl. unfold add_device, DeviceCollection_add. by rewrite draw_run by (done || apply Hok). }
  assert (Hmap : ∀ sid, <[r := DeviceId_from ids]> (<[l := DeviceId_from ids]> (device_mapping (ses_devices self))) !! sid =
    if bool_decide (sid = l ∨ sid = r) then Some (DeviceId_from ids) else device_mapping (ses_devices self) !! sid).
  { intros sid. destruct (decide (sid = r)) as [->|Hr]; [rewrite lookup_insert_eq, bool_decide_true; auto|].
    rewrite lookup_insert_ne by done. destruct (decide (sid = l)) as [->|Hl];
      [rewrite lookup_insert_eq, bool_decide_true; auto|].
    rewrite lookup_insert_ne by done. rewrite bool_decide_false; naive_solver. }
  assert (Hfresh : ∀ id d, devices (ses_devices self) !! id = Some d → id ≠ DeviceId_from ids).
  { intros id d Hd ->. pose proof (ok_devices _ _ Hok _ _ Hd) as Hf. simpl in Hf. lia. }
  split; [|split; [by right|split; [done|]]].
  - apply (session_ok_devices ids); [done|lia| |]; cbn [devices device_mapping].
    + intros id d. destruct (decide (id = DeviceId_from ids)) as [->|Hne]; [cbn; lia|].
      rewrite lookup_insert_ne by done. intros Hd. pose proof (ok_devices _ _ Hok _ _ Hd). lia.
    + intros sid id. rewrite Hmap. case_bool_decide as Hs.
      * intros [= <-]. rewrite lookup_insert_eq. by eexists.
      * intros Hl. destruct (ok_device_links _ _ Hok _ _ Hl) as (d & Hd & Hlr). exists d.
        rewrite lookup_insert_ne; [done|]. intros <-. by eapply Hfresh.
  - intros sid. unfold device_after, find_device_mut, DeviceCollection_find_device_mut. cbn [ses_devices device_mapping devices].
    rewrite (linked_insert (device_mapping (ses_devices self)) _ _ _ _ (bool_decide (sid = l ∨ sid = r))); [by case_bool_decide|apply Hmap|].
    intros i Hi. destruct (ok_device_links _ _ Hok _ _ Hi) as (d & Hd & _). by eapply Hfresh.
Qed.

Lemma AddProbe_stepped opts ids self :
  session_ok ids self → ids + 1 < 2 ^ 64 →
  ∃ rs ids' self', session_step (AddProbe opts) ids self = Some (rs, ids', self') ∧
    session_stepped (AddProbe opts) ids self rs ids' self'.
Proof.
  intros Hok Hlt. eexists _, _, _. split.
  { simpl. unfold add_probe, ProbeCollection_add. by rewrite draw_run by (done || apply Hok). }
  assert (Hfresh : ∀ id p, probes (ses_probes self) !! id = Some p → id ≠ ProbeId_from ids).
  { intros id p Hp ->. pose proof (ok_probes _ _ Hok _ _ Hp) as Hf. simpl in Hf. lia. }
  split; [|split; [by right|split; [|done]]].
  - apply (session_ok_probes ids); [done|lia| |]; cbn [probes probe_mapping].
    + intros id p. destruct (decide (id = ProbeId_from ids)) as [->|Hne]; [cbn; lia|].
      rewrite lookup_insert_ne by done. intros Hp. pose proof (ok_probes _ _ Hok _ _ Hp). lia.
    + intros sid id. rewrite link_all_lookup. case_bool_decide as Hs.
      * intros [= <-]. rewrite lookup_insert_eq. by eexists.
      * intros Hl. destruct (ok_probe_links _ _ Hok _ _ Hl) as (p & Hp & Hin). exists p.
        rewrite lookup_insert_ne; [done|]. intros <-. by eapply Hfresh.
  - intros sid. unfold probe_after, find_probe_mut, ProbeCollection_find_probe_mut. cbn [ses_probes probe_mapping probes].
    rewrite (linked_insert (probe_mapping (ses_probes self)) _ _ _ _ (bool_decide (sid ∈ req_sid <$> opts)));
      [by case_bool_decide|apply link_all_lookup|].
    intros i Hi. destruct (ok_probe_links _ _ Hok _ _ Hi) as (p & Hp & _). by eapply Hfresh.
Qed.

Lemma RemoveDevice_stepped id ids self :
  session_ok ids self → session_stepped (RemoveDevice id) ids self [] ids (remove_device id self).2.
Proof.
  intros Hok. unfold session_stepped, remove_device, DeviceCollection_remove, device_after, get_device_mut, DeviceCollection_get_device_mut.
  destruct (devices (ses_devices self) !! id) as [d|] eqn:Hd; cbn; [|destruct self; split; [done|]; split; [left; split; [done|lia]|done]].
  assert (Hmap : ∀ sid, delete (get_right_id d) (delete (get_left_id d) (device_mapping (ses_devices self))) !! sid =
    if bool_decide (sid = get_left_id d ∨ sid = get_right_id d) then None else device_mapping (ses_devices self) !! sid).
  { intros sid. destruct (decide (sid = get_right_id d)) as [->|Hr]; [rewrite lookup_delete_eq, bool_decide_true; auto|].
    rewrite lookup_delete_ne by done. destruct (decide (sid = get_left_id d)) as [->|Hl];
      [rewrite lookup_delete_eq, bool_decide_true; auto|].
    rewrite lookup_delete_ne by done. rewrite bool_decide_false; naive_solver. }
  assert (Hother : ∀ sid i, bool_decide (sid = get_left_id d ∨ sid = get_right_id d) = false →
    device_mapping (ses_devices self) !! sid = Some i → i ≠ id).
  { intros sid i Hb%bool_decide_eq_false Hi ->. destruct (ok_device_links _ _ Hok _ _ Hi) as (d' & Hd' & Hlr).
    change (devices (ses_devices self) !! id = Some d') in Hd'. rewrite Hd in Hd'. injection Hd' as <-. tauto. }
  split; [|split; [left; split; [done|lia]|split; [done|]]].
  - apply (session_ok_devices ids); [done|lia| |]; cbn [devices device_mapping].
    + intros i d' [_ Hd']%lookup_delete_Some. by apply (ok_devices _ _ Hok _ _ Hd').
    + intros sid i. rewrite Hmap. case_bool_decide as Hb; [done|]. intros Hi.
      destruct (ok_device_links _ _ Hok _ _ Hi) as (d' & Hd' & Hlr). exists d'.
      rewrite lookup_delete_ne; [done|]. intros <-. by eapply (Hother sid id); [apply bool_decide_eq_false|..].
  - intros sid. unfold find_device_mut, DeviceCollection_find_device_mut. cbn [ses_devices device_mapping devices].
    rewrite (linked_delete (device_mapping (ses_devices self)) _ _ _ (bool_decide (sid = get_left_id d ∨ sid = get_right_id d))); [by case_bool_decide|apply Hmap|].
    intros Hb Hi. by apply (Hother sid id).
Qed.

Lemma RemoveProbe_stepped id ids self :
  session_ok ids self → session_stepped (RemoveProbe id) ids self [] ids (remove_probe id self).2.
Proof.
  intros Hok. unfold session_stepped, remove_probe, ProbeCollection_remove, probe_after, get_probe_mut, ProbeCollection_get_probe_mut.
  destruct (probes (ses_probes self) !! id) as [p|] eqn:Hp; cbn; [|destruct self; split; [done|]; split; [left; split; [done|lia]|done]].
  assert (Hother : ∀ sid i, bool_decide (sid ∈ get_socket_ids p) = false →
    probe_mapping (ses_probes self) !! sid = Some i → i ≠ id).
  { intros sid i Hb%bool_decide_eq_false Hi ->. destruct (ok_probe_links _ _ Hok _ _ Hi) as (p' & Hp' & Hlr).
    change (probes (ses_probes self) !! id = Some p') in Hp'. rewrite Hp in Hp'. injection Hp' as <-. tauto. }
  split; [|split; [left; split; [done|lia]|split; [|done]]].
  - apply (session_ok_probes ids); [done|lia| |]; cbn [probes probe_mapping].
    + intros i p' [_ Hp']%lookup_delete_Some. by apply (ok_probes _ _ Hok _ _ Hp').
    + intros sid i. rewrite unlink_all_lookup. case_bool_decide as Hb; [done|]. intros Hi.
      destruct (ok_probe_links _ _ Hok _ _ Hi) as (p' & Hp' & Hlr). exists p'.
      rewrite lookup_delete_ne; [done|]. intros <-. by eapply (Hother sid id); [apply bool_decide_eq_false|..].
  - intros sid. unfold find_probe_mut, ProbeCollection_find_probe_mut. cbn [ses_probes probe_mapping probes].
    rewrite (linked_delete (probe_mapping (ses_probes self)) _ _ _ (bool_decide (sid ∈ get_socket_ids p)));
      [by case_bool_decide|apply unlink_all_lookup|].
    intros Hb Hi. by apply (Hother sid id).
Qed.

Lemma PutSocket_stepped id s ids self :
  session_ok ids self → put_back (PutSocket id s) self → session_stepped (PutSocket id s) ids self [] ids (put_socket id s self).
Proof.
  intros Hok (s0 & Hs0 & Hid). apply sockets_stepped; try done; [left; split; [done|lia]|].
  destruct (ok_sockets _ _ Hok _ _ Hs0) as [Hs Hlt]. intros i x. cbn [sockets].
  destruct (decide (i = id)) as [->|Hne].
  - rewrite lookup_insert_eq. intros [= <-]. by rewrite Hid.
  - rewrite lookup_insert_ne by done. apply (ok_sockets _ _ Hok).
Qed.

Lemma PutDevice_stepped id d ids self :
  session_ok ids self → put_back (PutDevice id d) self → session_stepped (PutDevice id d) ids self [] ids (put_device id d self).
Proof.
  intros Hok (d0 & Hd0 & Hl & Hr). split; [|split; [left; split; [done|lia]|split; [done|]]].
  - apply (session_ok_devices ids); [done|lia| |]; cbn [devices device_mapping].
    + intros i x. destruct (decide (i = id)) as [->|Hne]; [intros _; by apply (ok_devices _ _ Hok _ _ Hd0)|].
      rewrite lookup_insert_ne by done. apply (ok_devices _ _ Hok).
    + intros sid i Hi. destruct (ok_device_links _ _ Hok _ _ Hi) as (x & Hx & Hlr).
      destruct (decide (i = id)) as [->|Hne]; [|exists x; by rewrite lookup_insert_ne].
      rewrite Hd0 in Hx. injection Hx as <-. exists d. by rewrite lookup_insert_eq, Hl, Hr.
  - intros sid. apply linked_update. by exists d0.
Qed.

Lemma PutProbe_stepped id p ids self :
  session_ok ids self → put_back (PutProbe id p) self → session_stepped (PutProbe id p) ids self [] ids (put_probe id p self).
Proof.
  intros Hok (p0 & Hp0 & Hids). split; [|split; [left; split; [done|lia]|split; [|done]]].
  - apply (session_ok_probes ids); [done|lia| |]; cbn [probes probe_mapping].
    + intros i x. destruct (decide (i = id)) as [->|Hne]; [intros _; by apply (ok_probes _ _ Hok _ _ Hp0)|].
      rewrite lookup_insert_ne by done. apply (ok_probes _ _ Hok).
    + intros sid i Hi. destruct (ok_probe_links _ _ Hok _ _ Hi) as (x & Hx & Hlr).
      destruct (decide (i = id)) as [->|Hne]; [|exists x; by rewrite lookup_insert_ne].
      rewrite Hp0 in Hx. injection Hx as <-. exists p. by rewrite lookup_insert_eq, Hids.
  - intros sid. apply linked_update. by exists p0.
Qed.

Lemma session_step_ok op ids self :
  session_ok ids self → put_back op self → ids + 1 < 2 ^ 64 →
  ∃ rs ids' self', session_step op ids self = Some (rs, ids', self') ∧ session_stepped op ids self rs ids' self'.
Proof.
  intros Hok Hput Hlt. destruct op as [pr|id|id s|l r|id|id d|opts|id|id p|].
  - by apply AddSocket_stepped.
  - eexists _, _, _. split; [done|]. apply sockets_stepped; try done; [left; split; [done|lia]|].
    intros i s. cbn [sockets SocketCollection_remove]. intros Hl. apply lookup_delete_Some in Hl as [_ Hs]. by apply (ok_sockets _ _ Hok).
  - eexists _, _, _. split; [done|]. by apply PutSocket_stepped.
  - by apply AddDevice_stepped.
  - eexists _, _, _. split; [done|]. by apply RemoveDevice_stepped.
  - eexists _, _, _. split; [done|]. by apply PutDevice_stepped.
  - by apply AddProbe_stepped.
  - eexists _, _, _. split; [done|]. by apply RemoveProbe_stepped.
  - eexists _, _, _. split; [done|]. by apply PutProbe_stepped.
  - eexists _, _, _. split; [simpl; by rewrite draw_run by (done || apply Hok)|]. destruct self as [socks ? ?].
    apply sockets_stepped; try done; [left; split; [done|lia]|]. intros i s Hs.
    destruct (ok_sockets _ _ Hok i s Hs). split; [done|lia].
Qed.

Lemma session_run_ok ops ids self :
  session_ok ids self → put_backs ops ids self → ids + Z.of_nat (length ops) < 2 ^ 64 →
  ∃ rs ids' self', session_run ops ids self = Some (rs, ids', self') ∧ session_ok ids' self' ∧
    ids <= ids' <= ids + Z.of_nat (length ops) ∧
    NoDup (omap announced_id rs) ∧ Forall (λ n, ids <= n < ids') (omap announced_id rs).
Proof.
  revert ids self. induction ops as [|op ops IH]; intros ids self Hok Hput Hlt.
  { exists [], ids, self. cbn. split_and!; try done; [lia..|constructor]. }
  cbn [put_backs session_run length] in *. destruct Hput as [Hp Hrest].
  destruct (session_step_ok op ids self Hok Hp) as (rs & ids1 & self1 & Hs & Hok1 & Hids & _); [lia|].
  rewrite Hs in Hrest |- *.
  destruct (IH ids1 self1 Hok1 Hrest) as (rs' & ids2 & self2 & Hs' & Hok2 & Hb & Hnd & Hf); [lia|].
  exists (rs ++ rs'), ids2, self2. simpl. rewrite Hs'. split; [done|]. split; [done|]. split; [lia|].
  rewrite omap_app. destruct Hids as [[-> Hle]|[-> ->]]; cbn [app].
  - split; [done|]. eapply Forall_impl; [exact Hf|]. cbn. lia.
  - split.
    + constructor; [|done]. intros Hin. rewrite Forall_forall in Hf. specialize (Hf _ Hin). lia.
    + constructor; [lia|]. eapply Forall_impl; [exact Hf|]. cbn. lia.
Qed.

(** C11: In a session, whatever is added, removed or changed inside and whoever else
    draws ids, no two items ever get the same id, every item is filed under its
    own, and a socket is linked to the last device and the last probe that was
    added on it.  Removing a probe unlinks every socket it watches, even those
    that another probe watches since. *)
Theorem session_links ops op :
  put_backs (ops ++ [op]) Sequence_new Session_new → Z.of_nat (length ops) + 1 < 2 ^ 64 →
  ∃ rs ids self, session_run ops Sequence_new Session_new = Some (rs, ids, self) ∧
    session_ok ids self ∧ NoDup (omap announced_id rs) ∧
    ∃ rs' ids' self', session_step op ids self = Some (rs', ids', self') ∧
      (∀ sid, find_probe_mut sid self' = probe_after op ids self sid) ∧
      (∀ sid, find_device_mut sid self' = device_after op ids self sid).
Proof.
  intros Hput Hlt.
  assert (Hsplit : ∀ ops ids self, put_backs (ops ++ [op]) ids self → put_backs ops ids self ∧
    ∀ rs ids' self', session_run ops ids self = Some (rs, ids', self') → put_back op self').
  { clear. induction ops as [|o ops IH]; intros ids self; cbn [app put_backs session_run].
    - intros [Hp _]. split; [done|]. by intros ? ? ? [= _ _ <-].
    - intros [Hp Hrest]. destruct (session_step o ids self) as [[[r i] s]|]; [|by split].
      destruct (IH _ _ Hrest) as [Hps Hend]. split; [done|]. intros rs ids' self'. simpl.
      destruct (session_run ops i s) as [[[rs1 i1] s1]|] eqn:Hr; [|done]. simpl. intros [= <- <- <-]. by eapply Hend. }
  destruct (Hsplit _ _ _ Hput) as [Hps Hp].
  destruct (session_run_ok ops Sequence_new Session_new session_new_ok Hps) as (rs & ids & self & Hrun & Hok & Hb & Hnd & _);
    [unfold Sequence_new; lia|].
  exists rs, ids, self. split; [done|]. split; [done|]. split; [done|].
  destruct (session_step_ok op ids self Hok) as (rs' & ids' & self' & Hs & _ & _ & Hpr & Hdv); [by eapply Hp| |by eauto 8].
  unfold Sequence_new in Hb. lia.
Qed.

End session.

Section witness.
#[local] Instance checking : Build := {| overflow_checks := true |}.

(** Two probes on one socket: the second one is told, then nobody. *)
Definition ex_watched : list PollReq := [mkPollReq (SocketId_from 0) true false].
Definition ex_ops : list (session_op (T := nat)) :=
  [AddSocket 7%nat; AddProbe ex_watched; DrawId; AddProbe ex_watched; AddDevice (SocketId_from 0) (SocketId_from 9)].

Lemma session_links_witness :
  ∃ rs ids self, session_run ex_ops Sequence_new Session_new = Some (rs, ids, self) ∧
    find_probe_mut (SocketId_from 0) self = Some (ProbeId_from 3, Probe_new ex_watched) ∧
    ∃ rs' ids' self', session_step (RemoveProbe (ProbeId_from 3)) ids self = Some (rs', ids', self') ∧
      get_probe_mut (ProbeId_from 1) self' = Some (Probe_new ex_watched) ∧
      find_probe_mut (SocketId_from 0) self' = None.
Proof.
  destruct (session_links ex_ops (RemoveProbe (ProbeId_from 3))) as (rs & ids & self & Hrun & _ & _ & rs' & ids' & self' & Hs & Hp & _);
    [vm_compute; repeat split|by vm_compute|].
  exists rs, ids, self. split; [done|]. vm_compute in Hrun. injection Hrun as <- <- <-. split; [by vm_compute|].
  exists rs', ids', self'. split; [done|]. split; [vm_compute in Hs; by injection Hs as <- <- <-|].
  rewrite Hp. by vm_compute.
Defined.
End witness.
