(* ===== verification/Acceptor.v ===== *)
(** * Pipes, acceptors and transports

    The traits [Pipe], [Acceptor] and [Transport] that the reactor drives
    (src/transport/pipe.rs, acceptor.rs, mod.rs) and their implementations by TCP
    (transport/tcp/mod.rs, tcp/acceptor.rs) and IPC on unix (transport/ipc/unix).

    The sockets of the operating system are mio's and mio-uds': a listener is what
    its next [accept]s will answer, connecting and binding are asked of [Os]. *)

From S2P Require Import Prelude Core Codec Stream Framing Tcp Ipc AsyncPipe.

(** ** The traits *)

(** transport/pipe.rs *)
Class PipeTrait (Pp : Type) : Type := {
  pipe_ready : Ready → Pp → Q Pp;
  pipe_open : Pp → Q Pp;
  pipe_close : Pp → Q Pp;
  pipe_send : Message → Pp → Q Pp;
  pipe_recv : Pp → Q Pp
}.

(** transport/acceptor.rs *)
Inductive AcceptorEvent (Pp : Type) : Type :=
| AcceptorOpened
| AcceptorClosed
| Accepted (pipes : list Pp)
| AcceptorError (e : io_error).
Arguments AcceptorOpened {Pp}.
Arguments AcceptorClosed {Pp}.
Arguments Accepted {Pp} pipes.
Arguments AcceptorError {Pp} e.

Inductive acceptor_effect (Pp : Type) : Type :=
| AcceptorRegister (interest : Ready) (opt : PollOpt)
| AcceptorDeregister
| AcceptorRaise (evt : AcceptorEvent Pp).
Arguments AcceptorRegister {Pp} interest opt.
Arguments AcceptorDeregister {Pp}.
Arguments AcceptorRaise {Pp} evt.

Abbreviation Am Pp := (M (acceptor_effect Pp)).

Definition acceptor_raise {Pp} (evt : AcceptorEvent Pp) : Am Pp () := emit (AcceptorRaise evt).

Class AcceptorTrait (Pp Ac : Type) : Type := {
  acceptor_ready : Ready → Ac → Am Pp Ac;
  acceptor_open : Ac → Am Pp Ac;
  acceptor_close : Ac → Am Pp Ac
}.

(** transport/mod.rs *)
Record Destination : Type := mkDestination {
  addr : string;
  dest_pids : Z * Z;
  dest_tcp_no_delay : bool;
  dest_recv_max_size : Z
}.

(** What connecting does depends on the network and changes it: [Net]. *)
Class Transport (Tr Pp Ac Net : Type) : Type := {
  transport_connect : Tr → Destination → Net → result Pp * Net;
  transport_bind : Tr → Destination → Net → result Ac * Net
}.

#[global] Instance AsyncPipe_pipe {S} `{AsyncPipeStub S} : PipeTrait (AsyncPipe S) := {|
  pipe_ready := AsyncPipe_ready;
  pipe_open := AsyncPipe_open;
  pipe_close := AsyncPipe_close;
  pipe_send := AsyncPipe_send;
  pipe_recv := AsyncPipe_recv
|}.

(** ** Accepting

    [backlog]: what the next [accept]s answer; past its end, they would block. *)

Section acceptors.
Context {Str : Type}.
Abbreviation TcpPipe := (AsyncPipe PipeStub).

Record TcpListener : Type := mkTcpListener { backlog : list (result Str) }.

(** The OS' view of a TCP stream, and the two directions of what it carries. *)
Context (set_nodelay : bool → Str → result Str) (stream_of : Str → Sink * Source).

Record TcpAcceptor : Type := mkTcpAcceptor {
  listener : TcpListener;
  proto_ids : Z * Z;
  no_delay : bool;
  acceptor_max : Z
}.

Definition TcpAcceptor_new (l : TcpListener) (dest : Destination) : TcpAcceptor :=
  mkTcpAcceptor l (dest_pids dest) (dest_tcp_no_delay dest) (dest_recv_max_size dest).

Definition TcpAcceptor_create_pipe (self : TcpAcceptor) (stream : Str) : TcpPipe :=
  AsyncPipe_new (PipeStub_new (stream_of stream) (acceptor_max self)) (proto_ids self).

(** [let _ = stream.set_nodelay(..)]: a failure is ignored. *)
Definition try_nodelay (self : TcpAcceptor) (stream : Str) : Str :=
  match set_nodelay (no_delay self) stream with Ok s => s | Err _ => stream end.

(** The loop: the pipes made, and what was not accepted. *)
Fixpoint TcpAcceptor_accept_loop (self : TcpAcceptor) (answers : list (result Str)) (pipes : list TcpPipe)
    : Am TcpPipe (list TcpPipe * list (result Str)) :=
  match answers with
  | [] => mret (pipes, [])
  | Ok stream :: rest =>
      let stream := try_nodelay self stream in
      TcpAcceptor_accept_loop self rest (pipes ++ [TcpAcceptor_create_pipe self stream])
  | Err e :: rest =>
      if bool_decide (err_kind e = KWouldBlock) then mret (pipes, rest)
      else acceptor_raise (AcceptorError e);; TcpAcceptor_accept_loop self rest pipes
  end.

Definition raise_accepted (pipes : list TcpPipe) : Am TcpPipe () :=
  if bool_decide (pipes = []) then mret () else acceptor_raise (Accepted pipes).

Definition TcpAcceptor_accept (self : TcpAcceptor) : Am TcpPipe TcpAcceptor :=
  '(pipes, rest) ← TcpAcceptor_accept_loop self (backlog (listener self)) [];
  raise_accepted pipes;;
  mret (mkTcpAcceptor (mkTcpListener rest) (proto_ids self) (no_delay self) (acceptor_max self)).

Definition TcpAcceptor_ready (events : Ready) (self : TcpAcceptor) : Am TcpPipe TcpAcceptor :=
  if is_readable events then TcpAcceptor_accept self else mret self.

Definition TcpAcceptor_open (self : TcpAcceptor) : Am TcpPipe TcpAcceptor :=
  emit (AcceptorRegister (mkReady true false false false) PollEdge);;
  acceptor_raise AcceptorOpened;;
  mret self.

Definition TcpAcceptor_close (self : TcpAcceptor) : Am TcpPipe TcpAcceptor :=
  emit AcceptorDeregister;;
  acceptor_raise AcceptorClosed;;
  mret self.

#[local] Instance TcpAcceptor_acceptor : AcceptorTrait TcpPipe TcpAcceptor := {|
  acceptor_ready := TcpAcceptor_ready;
  acceptor_open := TcpAcceptor_open;
  acceptor_close := TcpAcceptor_close
|}.

(** [UnixListener::accept] also answers [Ok(None)]. *)
Record UnixListener : Type := mkUnixListener { unix_backlog : list (result (option Str)) }.

Record IpcAcceptor : Type := mkIpcAcceptor {
  ipc_listener : UnixListener;
  ipc_proto_ids : Z * Z;
  ipc_max : Z
}.

Definition IpcAcceptor_new (l : UnixListener) (pids : Z * Z) (recv_max_size : Z) : IpcAcceptor :=
  mkIpcAcceptor l pids recv_max_size.

Definition IpcAcceptor_create_pipe (self : IpcAcceptor) (stream : Str) : TcpPipe :=
  AsyncPipe_new (IpcPipeStub_new (stream_of stream) (ipc_max self)) (ipc_proto_ids self).

Fixpoint IpcAcceptor_accept_loop (self : IpcAcceptor) (answers : list (result (option Str))) (pipes : list TcpPipe)
    : Am TcpPipe (list TcpPipe * list (result (option Str))) :=
  match answers with
  | [] => mret (pipes, [])
  | Ok (Some stream) :: rest => IpcAcceptor_accept_loop self rest (pipes ++ [IpcAcceptor_create_pipe self stream])
  | Ok None :: rest => mret (pipes, rest)
  | Err e :: rest =>
      if bool_decide (err_kind e = KWouldBlock) then mret (pipes, rest)
      else acceptor_raise (AcceptorError e);; IpcAcceptor_accept_loop self rest pipes
  end.

Definition IpcAcceptor_accept (self : IpcAcceptor) : Am TcpPipe IpcAcceptor :=
  '(pipes, rest) ← IpcAcceptor_accept_loop self (unix_backlog (ipc_listener self)) [];
  raise_accepted pipes;;
  mret (mkIpcAcceptor (mkUnixListener rest) (ipc_proto_ids self) (ipc_max self)).

Definition IpcAcceptor_ready (events : Ready) (self : IpcAcceptor) : Am TcpPipe IpcAcceptor :=
  if is_readable events then IpcAcceptor_accept self else mret self.

Definition IpcAcceptor_open (self : IpcAcceptor) : Am TcpPipe IpcAcceptor :=
  emit (AcceptorRegister (mkReady true false false false) PollEdge);;
  acceptor_raise AcceptorOpened;;
  mret self.

Definition IpcAcceptor_close (self : IpcAcceptor) : Am TcpPipe IpcAcceptor :=
  emit AcceptorDeregister;;
  acceptor_raise AcceptorClosed;;
  mret self.

#[local] Instance IpcAcceptor_acceptor : AcceptorTrait TcpPipe IpcAcceptor := {|
  acceptor_ready := IpcAcceptor_ready;
  acceptor_open := IpcAcceptor_open;
  acceptor_close := IpcAcceptor_close
|}.

End acceptors.

(** ** Transports *)

(** What the transports ask of the operating system: an address is parsed by the
    standard library, sockets are mio's and mio-uds', files std::fs'. *)
Class Os (Net Str : Type) : Type := {
  SocketAddr : Type;
  from_str : string → option SocketAddr;
  TcpStream_connect : SocketAddr → Net → result Str * Net;
  TcpListener_bind : SocketAddr → Net → result (TcpListener (Str := Str)) * Net;
  UnixStream_connect : string → Net → result Str * Net;
  UnixListener_bind : string → Net → result (UnixListener (Str := Str)) * Net;
  is_socket : string → Net → result bool;
  remove_file : string → Net → result () * Net;
  nodelay : bool → Str → result Str;
  carried : Str → Sink * Source
}.

Section transports.
Context {Net Str : Type} `{Os Net Str}.
Abbreviation TcpPipe := (AsyncPipe PipeStub).

Definition Tcp_connect_to (a : SocketAddr) (dest : Destination) (net : Net) : result TcpPipe * Net :=
  let '(stream, net) := TcpStream_connect a net in
  match stream with
  | Err e => (Err e, net)
  | Ok stream =>
      match nodelay (dest_tcp_no_delay dest) stream with
      | Err e => (Err e, net)
      | Ok stream =>
          let stub := PipeStub_new (carried stream) (dest_recv_max_size dest) in
          let pipe := AsyncPipe_new stub (dest_pids dest) in
          (Ok pipe, net)
      end
  end.

Definition Tcp_bind_to (a : SocketAddr) (dest : Destination) (net : Net) : result (TcpAcceptor (Str := Str)) * Net :=
  let '(listener, net) := TcpListener_bind a net in
  match listener with
  | Err e => (Err e, net)
  | Ok listener => (Ok (TcpAcceptor_new listener dest), net)
  end.

Definition Tcp_connect (dest : Destination) (net : Net) : result TcpPipe * Net :=
  match from_str (addr dest) with
  | Some a => Tcp_connect_to a dest net
  | None => (Err (invalid_input_io_error (addr dest)), net)
  end.

Definition Tcp_bind (dest : Destination) (net : Net) : result (TcpAcceptor (Str := Str)) * Net :=
  match from_str (addr dest) with
  | Some a => Tcp_bind_to a dest net
  | None => (Err (invalid_input_io_error (addr dest)), net)
  end.

Definition Ipc_connect (dest : Destination) (net : Net) : result TcpPipe * Net :=
  let filename := addr dest in
  let '(stream, net) := UnixStream_connect filename net in
  match stream with
  | Err e => (Err e, net)
  | Ok stream =>
      let stub := IpcPipeStub_new (carried stream) (dest_recv_max_size dest) in
      (Ok (AsyncPipe_new stub (dest_pids dest)), net)
  end.

Definition Ipc_bind (dest : Destination) (net : Net) : result (IpcAcceptor (Str := Str)) * Net :=
  let filename := addr dest in
  let '(removed, net) :=
    match is_socket filename net with
    | Ok true => remove_file filename net
    | _ => (Ok (), net)
    end in
  match removed with
  | Err e => (Err e, net)
  | Ok _ =>
      let '(listener, net) := UnixListener_bind filename net in
      match listener with
      | Err e => (Err e, net)
      | Ok listener => (Ok (IpcAcceptor_new listener (dest_pids dest) (dest_recv_max_size dest)), net)
      end
  end.

End transports.

(** ** What an acceptor accepts *)

Section accepts.
Context {Str : Type} (set_nodelay : bool → Str → result Str) (stream_of : Str → Sink * Source).
Abbreviation TcpPipe := (AsyncPipe PipeStub).

Definition accepted_events (out : list (acceptor_effect TcpPipe)) : list (AcceptorEvent TcpPipe) :=
  omap (λ e, match e with AcceptorRaise evt => Some evt | _ => None end) out.

(** The answers up to the one that would block: the streams, the failures, and
    what is left. *)
Fixpoint arrivals_of {X} (blocks : X → bool) (answers : list X) : list X * list X :=
  match answers with
  | [] => ([], [])
  | a :: rest =>
      if blocks a then ([], rest)
      else let '(before, after) := arrivals_of blocks rest in (a :: before, after)
  end.

Definition tcp_blocks (a : result Str) : bool :=
  match a with Err e => bool_decide (err_kind e = KWouldBlock) | Ok _ => false end.
Definition ipc_blocks (a : result (option Str)) : bool :=
  match a with Err e => bool_decide (err_kind e = KWouldBlock) | Ok None => true | Ok (Some _) => false end.

Definition failures {X} (answers : list (result X)) : list (AcceptorEvent TcpPipe) :=
  omap (λ a, match a with Err e => Some (AcceptorError e) | Ok _ => None end) answers.

Definition announces (pipes : list TcpPipe) : list (AcceptorEvent TcpPipe) :=
  if bool_decide (pipes = []) then [] else [Accepted pipes].

Lemma tcp_loop_run self answers pipes h :
  let '(before, after) := arrivals_of tcp_blocks answers in
  TcpAcceptor_accept_loop set_nodelay stream_of self answers pipes h =
    Done (pipes ++ omap (λ a, match a with
            | Ok s => Some (TcpAcceptor_create_pipe stream_of self (try_nodelay set_nodelay self s)) | Err _ => None end) before,
          after) (AcceptorRaise <$> failures before).
Proof.
  revert pipes h. induction answers as [|a rest IH]; intros pipes h; cbn [arrivals_of TcpAcceptor_accept_loop].
  { by rewrite app_nil_r. }
  destruct a as [s|e]; cbn [tcp_blocks].
  - specialize (IH (pipes ++ [TcpAcceptor_create_pipe stream_of self (try_nodelay set_nodelay self s)]) h).
    destruct (arrivals_of tcp_blocks rest) as [before after]. rewrite IH. cbn. by rewrite <- app_assoc.
  - case_bool_decide as Hb; [by rewrite app_nil_r|].
    specialize (IH pipes (h ++ [AcceptorRaise (AcceptorError e)])).
    destruct (arrivals_of tcp_blocks rest) as [before after]. unfold acceptor_raise. rewrite bind_run, emit_run, IH. done.
Qed.

Lemma ipc_loop_run self answers pipes h :
  let '(before, after) := arrivals_of ipc_blocks answers in
  IpcAcceptor_accept_loop stream_of self answers pipes h =
    Done (pipes ++ omap (λ a, match a with
            | Ok (Some s) => Some (IpcAcceptor_create_pipe stream_of self s) | _ => None end) before,
          after) (AcceptorRaise <$> failures before).
Proof.
  revert pipes h. induction answers as [|a rest IH]; intros pipes h; cbn [arrivals_of IpcAcceptor_accept_loop].
  { by rewrite app_nil_r. }
  destruct a as [[s|]|e]; cbn [ipc_blocks].
  - specialize (IH (pipes ++ [IpcAcceptor_create_pipe stream_of self s]) h).
    destruct (arrivals_of ipc_blocks rest) as [before after]. rewrite IH. cbn. by rewrite <- app_assoc.
  - by rewrite app_nil_r.
  - case_bool_decide as Hb; [by rewrite app_nil_r|].
    specialize (IH pipes (h ++ [AcceptorRaise (AcceptorError e)])).
    destruct (arrivals_of ipc_blocks rest) as [before after]. unfold acceptor_raise. rewrite bind_run, emit_run, IH. done.
Qed.

Lemma raise_accepted_run pipes h :
  raise_accepted pipes h = Done () (AcceptorRaise <$> announces pipes).
Proof. unfold raise_accepted, announces. by case_bool_decide. Qed.

Lemma accepted_raises evs : accepted_events (AcceptorRaise <$> evs) = evs.
Proof. unfold accepted_events. induction evs as [|e evs IH]; [done|]. cbn. f_equal. apply IH. Qed.

Lemma tcp_pipes {X} (f : Str → X) (answers : list (result Str)) :
  omap (λ a, match a with Ok s => Some (f s) | Err _ => None end) answers =
  f <$> omap (λ a, match a with Ok s => Some s | Err _ => None end) answers.
Proof. induction answers as [|[s|e] l IH]; cbn; [done|by f_equal|done]. Qed.

Lemma ipc_pipes {X} (f : Str → X) (answers : list (result (option Str))) :
  omap (λ a, match a with Ok (Some s) => Some (f s) | _ => None end) answers =
  f <$> omap (λ a, match a with Ok o => o | Err _ => None end) answers.
Proof. induction answers as [|[[s|]|e] l IH]; cbn; [done|by f_equal|done..]. Qed.

(** C15: When a listener is readable, its acceptor takes every connection that waits
    and stops at the first answer that would block: each stream becomes one fresh
    pipe with the protocols and the size limit of the acceptor, in the order they
    came; each failure is reported, and the pipes last, together, if there are
    any.  TCP and IPC agree, but for the ways they would block. *)
Theorem acceptor_accepts tcp ipc events h :
  is_readable events = true →
  (let '(before, after) := arrivals_of tcp_blocks (backlog (listener tcp)) in
   let streams := omap (λ a, match a with Ok s => Some s | Err _ => None end) before in
   let pipes := (λ s, AsyncPipe_new (PipeStub_new (stream_of (try_nodelay set_nodelay tcp s)) (acceptor_max tcp))
                        (proto_ids tcp)) <$> streams in
   ∃ out, TcpAcceptor_ready set_nodelay stream_of events tcp h =
       Done (mkTcpAcceptor (mkTcpListener after) (proto_ids tcp) (no_delay tcp) (acceptor_max tcp)) out ∧
     accepted_events out = failures before ++ announces pipes) ∧
  (let '(before, after) := arrivals_of ipc_blocks (unix_backlog (ipc_listener ipc)) in
   let streams := omap (λ a, match a with Ok o => o | Err _ => None end) before in
   let pipes := (λ s, AsyncPipe_new (PipeStub_new (stream_of s) (ipc_max ipc)) (ipc_proto_ids ipc)) <$> streams in
   ∃ out, IpcAcceptor_ready stream_of events ipc h =
       Done (mkIpcAcceptor (mkUnixListener after) (ipc_proto_ids ipc) (ipc_max ipc)) out ∧
     accepted_events out = failures before ++ announces pipes).
Proof.
  intros Hr. unfold TcpAcceptor_ready, IpcAcceptor_ready. rewrite Hr. split.
  - unfold TcpAcceptor_accept. pose proof (tcp_loop_run tcp (backlog (listener tcp)) [] h) as Hl.
    destruct (arrivals_of tcp_blocks (backlog (listener tcp))) as [before after].
    rewrite bind_run, Hl, tcp_pipes. cbn [app]. rewrite bind_run, raise_accepted_run, ret_run. eexists. split; [done|].
    by rewrite app_nil_r, <- fmap_app, accepted_raises.
  - unfold IpcAcceptor_accept. pose proof (ipc_loop_run ipc (unix_backlog (ipc_listener ipc)) [] h) as Hl.
    destruct (arrivals_of ipc_blocks (unix_backlog (ipc_listener ipc))) as [before after].
    rewrite bind_run, Hl, ipc_pipes. cbn [app]. rewrite bind_run, raise_accepted_run, ret_run. eexists. split; [done|].
    by rewrite app_nil_r, <- fmap_app, accepted_raises.
Qed.

End accepts.

(** Two connections around a failure, and one that waits for the next time. *)
Lemma acceptor_accepts_witness :
  let room n := (mkSink [Ok n] [], mkSource []) in
  let tcp := mkTcpAcceptor (mkTcpListener [Ok 1%nat; Err (other_io_error "EMFILE"); Ok 2%nat;
                              Err (would_block_io_error "later"); Ok 3%nat]) (16, 16) true 1024 in
  let ipc := mkIpcAcceptor (mkUnixListener [Ok None; Ok (Some 1%nat)]) (16, 16) 1024 in
  ∃ out, TcpAcceptor_ready (λ _ s, Ok s) room (mkReady true false false false) tcp [] =
      Done (mkTcpAcceptor (mkTcpListener [Ok 3%nat]) (16, 16) true 1024) out ∧
    accepted_events out = [AcceptorError (other_io_error "EMFILE");
      Accepted [AsyncPipe_new (PipeStub_new (room 1%nat) 1024) (16, 16); AsyncPipe_new (PipeStub_new (room 2%nat) 1024) (16, 16)]].
Proof.
  intros room tcp ipc.
  destruct (acceptor_accepts (λ _ s, Ok s) room tcp ipc (mkReady true false false false) [] eq_refl) as [(out & Hrun & Hev) _].
  exists out. split; [apply Hrun|]. rewrite Hev. vm_compute. done.
Defined.
