(* ===== verification/Windows.v ===== *)
(** * The Windows variant (src/transport/async/active/windows.rs, src/transport/ipc/windows)

    Windows builds other code for the active state of a pipe and for IPC, which
    goes over named pipes.  The poll is armed there by reading and writing: after
    each message the pipe reads and writes nothing, once, so that it hears of
    readiness again; and it never hears that its peer hung up.  But for this it is the
    pipe of unix over a stub that reads and writes nothing by itself, [resyncing]
    ([windows_pipe_is_unix]).

    The states of a pipe, their data and what they share are those of [AsyncPipe].
    Named pipes are mio-named-pipes'. *)

From S2P Require Import Prelude Core Codec Stream Framing Tcp Ipc AsyncPipe Acceptor.

(** What [AsyncPipeStub] has more on Windows; what the calls return is ignored. *)
Class WindowsStub (S : Type) : Type := {
  stub_read_and_write_void : S → S;
  stub_registered : S → S
}.

Section pipe.
Context {S : Type} `{AsyncPipeStub S} `{WindowsStub S}.
Abbreviation Active := (AsyncPipe.Active S).
Abbreviation PipeState := (AsyncPipe.PipeState S).
Abbreviation AsyncPipe := (AsyncPipe.AsyncPipe S).

(** ** The active state

    Its structure is that of unix.  It registers for edges, not levels. *)

Definition interest : Ready := mkReady true true false false.

Definition raise_and_resync_readiness (evt : PipeEvent) (self : Active) : Q Active :=
  let self := set_stub self (stub_read_and_write_void (stub self)) in
  raise evt;;
  reregister interest PollEdge;;
  mret self.

Definition on_msg_sent (self : Active) : Q Active := raise_and_resync_readiness Sent self.
Definition on_send_progress (progress : result bool) (self : Active) : Q (result () * Active) :=
  match progress with
  | Ok sent => self ← (if (sent : bool) then on_msg_sent self else mret self); mret (Ok (), self)
  | Err e => mret (Err e, self)
  end.

(** [change_can_send] and [change_can_recv] are the same in the two files. *)
Definition change_can_send : bool → Active → Q Active := AsyncPipe.change_can_send.
Definition change_can_recv : bool → Active → Q Active := AsyncPipe.change_can_recv.

Definition writable_changed (events : Ready) (self : Active) : Q (result () * Active) :=
  if negb (is_writable events) then
    self ← change_can_send false self;
    mret (Ok (), self)
  else if stub_has_pending_send (stub self) then
    '(progress, s) ← on_stub stub_resume_send (stub self);
    on_send_progress progress (set_stub self s)
  else
    self ← change_can_send true self;
    mret (Ok (), self).

Definition on_msg_received (msg : Message) (self : Active) : Q Active :=
  raise_and_resync_readiness (Received msg) self.
Definition on_recv_progress (progress : result (option Message)) (self : Active) : Q (result () * Active) :=
  match progress with
  | Ok recv =>
      self ← match recv with Some msg => on_msg_received msg self | None => mret self end;
      mret (Ok (), self)
  | Err e => mret (Err e, self)
  end.

Definition readable_changed (events : Ready) (self : Active) : Q (result () * Active) :=
  if negb (is_readable events) then
    self ← change_can_recv false self;
    mret (Ok (), self)
  else if stub_has_pending_recv (stub self) then
    '(progress, s) ← on_stub stub_resume_recv (stub self);
    on_recv_progress progress (set_stub self s)
  else
    self ← change_can_recv true self;
    mret (Ok (), self).

Definition Active_enter (self : Active) : Q Active := raise_and_resync_readiness Opened self.
Definition Active_close : Q PipeState := deregister;; mret Dead.

Definition Active_send (msg : Message) (self : Active) : Q PipeState :=
  '(progress, s) ← on_stub (stub_start_send msg) (stub self);
  '(res, self) ← on_send_progress progress (set_stub self s);
  let self := mkActive (stub self) false (can_recv_msg self) in
  no_transition_if_ok (Live self) res.

Definition Active_recv (self : Active) : Q PipeState :=
  '(progress, s) ← on_stub stub_start_recv (stub self);
  '(res, self) ← on_recv_progress progress (set_stub self s);
  let self := mkActive (stub self) (can_send_msg self) false in
  no_transition_if_ok (Live self) res.

Definition Active_ready (events : Ready) (self : Active) : Q PipeState :=
  '(res, self) ← readable_changed events self;
  '(res, self) ← match res with Ok _ => writable_changed events self | Err e => mret (Err e, self) end;
  no_transition_if_ok (Live self) res.

(** ** The other states, which enter the next one with a stub that changes *)

Definition HandshakeTx_enter (s : S) : Q S :=
  register (mkReady false true false false) PollLevel;;
  mret (stub_registered s).

Definition enter (self : PipeState) : Q PipeState :=
  match self with
  | Initial s pids => mret (Initial s pids)
  | HandshakeTx s pids => s ← HandshakeTx_enter s; mret (HandshakeTx s pids)
  | HandshakeRx s pids => HandshakeRx_enter;; mret (HandshakeRx s pids)
  | Live a => a ← Active_enter a; mret (Live a)
  | Dead => Dead_enter;; mret Dead
  end.

Definition transition_if_ok (new_state : PipeState) (res : result ()) : Q PipeState :=
  match res with
  | Ok _ => enter new_state
  | Err e => PipeState_error e
  end.

Definition PipeState_open (self : PipeState) : Q PipeState :=
  match self with
  | Initial s pids => enter (HandshakeTx s pids)
  | _ => mret Dead
  end.

Definition PipeState_close (self : PipeState) : Q PipeState :=
  match self with
  | Live _ => Active_close
  | _ => AsyncPipe.PipeState_close self
  end.

Definition PipeState_send (msg : Message) (self : PipeState) : Q PipeState :=
  match self with
  | Live a => Active_send msg a
  | _ => mret Dead
  end.

Definition PipeState_recv (self : PipeState) : Q PipeState :=
  match self with
  | Live a => Active_recv a
  | _ => mret Dead
  end.

Definition HandshakeTx_ready (events : Ready) (s : S) (pids : Z * Z) : Q PipeState :=
  if is_writable events then
    '(res, s) ← on_stub (stub_send_handshake pids) s;
    transition_if_ok (HandshakeRx s pids) res
  else mret (HandshakeTx s pids).

Definition HandshakeRx_ready (events : Ready) (s : S) (pids : Z * Z) : Q PipeState :=
  if is_readable events then
    '(res, s) ← on_stub (stub_recv_handshake pids) s;
    transition_if_ok (Live (Active_new s)) res
  else mret (HandshakeRx s pids).

Definition PipeState_ready (events : Ready) (self : PipeState) : Q PipeState :=
  match self with
  | Initial _ _ => mret Dead
  | HandshakeTx s pids => HandshakeTx_ready events s pids
  | HandshakeRx s pids => HandshakeRx_ready events s pids
  | Live a => Active_ready events a
  | Dead => mret Dead
  end.

Definition state_step (c : pipe_call) : PipeState → Q PipeState :=
  match c with
  | CallReady events => PipeState_ready events
  | CallOpen => PipeState_open
  | CallClose => PipeState_close
  | CallSend msg => PipeState_send msg
  | CallRecv => PipeState_recv
  end.

Definition pipe_step (c : pipe_call) : AsyncPipe → Q AsyncPipe := apply (state_step c).

Fixpoint pipe_drive (calls : list pipe_call) (self : AsyncPipe) : Q AsyncPipe :=
  match calls with
  | [] => mret self
  | c :: rest => self ← pipe_step c self; pipe_drive rest self
  end.

(** The pipe as the reactor drives it. *)
Definition WindowsPipe_pipe : PipeTrait AsyncPipe := {|
  Acceptor.pipe_ready events := pipe_step (CallReady events);
  Acceptor.pipe_open := pipe_step CallOpen;
  Acceptor.pipe_close := pipe_step CallClose;
  Acceptor.pipe_send msg := pipe_step (CallSend msg);
  Acceptor.pipe_recv := pipe_step CallRecv
|}.

End pipe.

(** ** The same story

    [m1] and [m2], started anywhere, both panic, or end with values related by [R]
    after raising the same events: what they ask of the poll is left aside. *)

Definition same_story {A B} (R : A → B → Prop) (m1 : Q A) (m2 : Q B) : Prop :=
  ∀ h1 h2, match m1 h1, m2 h2 with
           | Done a o1, Done b o2 => R a b ∧ raised o1 = raised o2
           | Panicked, Panicked => True
           | _, _ => False
           end.

Lemma same_ret {A B} (R : A → B → Prop) a b : R a b → same_story R (mret a) (mret b).
Proof. by intros HR h1 h2. Qed.

Lemma same_bind {A B A' B'} (R : A → B → Prop) (R' : A' → B' → Prop) m1 m2 k1 k2 :
  same_story R m1 m2 → (∀ a b, R a b → same_story R' (k1 a) (k2 b)) →
  same_story R' (m1 ≫= k1) (m2 ≫= k2).
Proof.
  intros Hm Hk h1 h2. specialize (Hm h1 h2). rewrite !bind_run.
  destruct (m1 h1) as [a o1|], (m2 h2) as [b o2|]; try done. destruct Hm as [HR Ho].
  specialize (Hk a b HR (h1 ++ o1) (h2 ++ o2)).
  destruct (k1 a (h1 ++ o1)) as [a' p1|], (k2 b (h2 ++ o2)) as [b' p2|]; try done.
  destruct Hk as [HR' Hp]. split; [done|]. unfold raised in *. by rewrite !omap_app, Ho, Hp.
Qed.

(** A handler that does not look at what was emitted tells its own story. *)
Lemma same_emit {A B} (R : A → B → Prop) e m1 m2 :
  same_story R m1 m2 → same_story R (emit e;; m1) (emit e;; m2).
Proof. intros Hm. apply (same_bind eq); [by intros h1 h2|]. by intros [] [] _. Qed.

(** Registrations are not part of the story, on the left or on the right. *)
Definition unseen (e : pipe_effect) : Prop := match e with Raise _ => False | _ => True end.

Lemma same_unseen_l {A B} (R : A → B → Prop) e m1 m2 :
  unseen e → same_story R m1 m2 → same_story R (emit e;; m1) m2.
Proof.
  intros He Hm h1 h2. rewrite bind_run, emit_run. specialize (Hm (h1 ++ [e]) h2).
  destruct (m1 (h1 ++ [e])), (m2 h2); try done. by destruct e.
Qed.

Lemma same_unseen_r {A B} (R : A → B → Prop) e m1 m2 :
  unseen e → same_story R m1 m2 → same_story R m1 (emit e;; m2).
Proof.
  intros He Hm h1 h2. rewrite bind_run, emit_run. specialize (Hm h1 (h2 ++ [e])).
  destruct (m1 h1), (m2 (h2 ++ [e])); try done. by destruct e.
Qed.

Section stories.
Context {S : Type} `{HS : AsyncPipeStub S} `{HW : WindowsStub S}.

(** What the windows pipe does to its stub besides what it asks of it: after a
    message that went through, and after the handshake of the peer, the stub reads
    and writes nothing; and it is told that it was registered before it sends its
    own handshake.  [resyncing] is the stub that does so by itself. *)
Definition resync {A} (due : A → bool) (m : IO S A) : IO S A :=
  a ← m;
  (λ s, (IOk a, if due a then stub_read_and_write_void s else s)) : IO S A.

Definition received_some (got : option Message) : bool := bool_decide (is_Some got).

Definition resyncing : AsyncPipeStub S := {|
  stub_start_send msg := resync id (stub_start_send msg);
  stub_resume_send := resync id stub_resume_send;
  stub_has_pending_send := stub_has_pending_send;
  stub_start_recv := resync received_some stub_start_recv;
  stub_resume_recv := resync received_some stub_resume_recv;
  stub_has_pending_recv := stub_has_pending_recv;
  stub_send_handshake pids := λ s, stub_send_handshake pids (stub_registered s);
  stub_recv_handshake pids := resync (λ _, true) (stub_recv_handshake pids)
|}.

(** The windows pipe on the left, the unix one over [resyncing] on the right: the
    same state, but that the first has told its stub of the registration when it
    waits to send its handshake, and the second will when it sends it. *)
Definition alike (st st' : PipeState S) : Prop :=
  match st, st' with
  | HandshakeTx s pids, HandshakeTx s' pids' => s = stub_registered s' ∧ pids = pids'
  | _, _ => st = st'
  end.
Definition alike_pipes (p p' : AsyncPipe S) : Prop :=
  match pipe_state p, pipe_state p' with
  | Some st, Some st' => alike st st'
  | st, st' => st = st'
  end.

Abbreviation same := (same_story alike).

(** The stub after a call that answered [r]. *)
Definition owed {A} (due : A → bool) (r : result A) (s : S) : S :=
  match r with
  | Ok a => if due a then stub_read_and_write_void s else s
  | Err _ => s
  end.

Lemma same_on_stub {A B C} (R : B → C → Prop) (m : IO S A) due s k1 k2 :
  (∀ r s', same_story R (k1 (r, s')) (k2 (r, owed due r s'))) →
  same_story R (on_stub m s ≫= k1) (on_stub (resync due m) s ≫= k2).
Proof.
  intros Hk. apply (same_bind (λ rs rs', rs' = (rs.1, owed due rs.1 rs.2))); [|by intros [r s'] _ ->].
  intros h1 h2. unfold on_stub, resync. rewrite io_bind_run. by destruct (m s) as [[a|e|] s'].
Qed.

Lemma same_no_transition (a : Active S) res :
  same (no_transition_if_ok (Live a) res) (no_transition_if_ok (Live a) res).
Proof. destruct res as [[]|e]; [by apply same_ret|]. by apply same_emit, same_ret. Qed.

(** A step of an active pipe and what is left of it. *)
Abbreviation same_active := (same_story (@eq (result () * Active S))).

Lemma same_change_send x (a : Active S) :
  same_active (self ← change_can_send x a; mret (Ok (), self)) (self ← AsyncPipe.change_can_send x a; mret (Ok (), self)).
Proof.
  unfold change_can_send, AsyncPipe.change_can_send. apply (same_bind eq); [|by intros a' _ <-; apply same_ret].
  case_bool_decide; [apply same_emit|]; by apply same_ret.
Qed.

Lemma same_change_recv x (a : Active S) :
  same_active (self ← change_can_recv x a; mret (Ok (), self)) (self ← AsyncPipe.change_can_recv x a; mret (Ok (), self)).
Proof.
  unfold change_can_recv, AsyncPipe.change_can_recv. apply (same_bind eq); [|by intros a' _ <-; apply same_ret].
  case_bool_decide; [apply same_emit|]; by apply same_ret.
Qed.

(** The active state once its stub has read and written nothing. *)
Definition voided (a : Active S) : Active S := set_stub a (stub_read_and_write_void (stub a)).

Lemma same_resync evt (a : Active S) : same_story eq (raise_and_resync_readiness evt a) (raise evt;; mret (voided a)).
Proof. unfold raise_and_resync_readiness. apply same_emit, same_unseen_l; [done|]. by apply same_ret. Qed.

Lemma same_resynced evt (a : Active S) :
  same_active (self ← raise_and_resync_readiness evt a; mret (Ok (), self))
    (res ← (raise evt;; mret (Ok ())); mret (res, voided a)).
Proof.
  intros h1 h2. pose proof (same_resync evt a h1 h2) as Hr. rewrite (bind_run _ _ h1).
  destruct (raise_and_resync_readiness evt a h1) as [a' o|]; [|done]. destruct Hr as [-> Hr]. cbn. by rewrite app_nil_r.
Qed.

Lemma same_send_progress progress (a : Active S) :
  same_active (on_send_progress progress a)
    (res ← AsyncPipe.on_send_progress progress; mret (res, set_stub a (owed id progress (stub a)))).
Proof.
  destruct progress as [[]|e]; cbn [on_send_progress AsyncPipe.on_send_progress owed id];
    [apply same_resynced|by destruct a..].
Qed.

Lemma same_recv_progress progress (a : Active S) :
  same_active (on_recv_progress progress a)
    (res ← AsyncPipe.on_recv_progress progress; mret (res, set_stub a (owed received_some progress (stub a)))).
Proof.
  destruct progress as [[msg|]|e]; cbn [on_recv_progress AsyncPipe.on_recv_progress owed];
    [apply same_resynced|by destruct a..].
Qed.

(** What unix is told when the poll does not report hang ups. *)
Definition deaf (events : Ready) : Ready :=
  mkReady (is_readable events) (is_writable events) false (is_error events).
Definition deaf_call (c : pipe_call) : pipe_call :=
  match c with CallReady events => CallReady (deaf events) | c => c end.

Lemma same_writable events (a : Active S) :
  same_active (writable_changed events a) (AsyncPipe.writable_changed (H := resyncing) (deaf events) a).
Proof.
  unfold writable_changed, AsyncPipe.writable_changed. cbn [deaf is_writable is_hup negb].
  destruct (negb (is_writable events)); [apply same_change_send|]. cbn [resyncing stub_has_pending_send].
  destruct (stub_has_pending_send (stub a)); [|apply same_change_send].
  apply same_on_stub. intros r s'. apply same_send_progress.
Qed.

Lemma same_readable events (a : Active S) :
  same_active (readable_changed events a) (AsyncPipe.readable_changed (H := resyncing) (deaf events) a).
Proof.
  unfold readable_changed, AsyncPipe.readable_changed. cbn [deaf is_readable is_hup negb].
  destruct (negb (is_readable events)); [apply same_change_recv|]. cbn [resyncing stub_has_pending_recv].
  destruct (stub_has_pending_recv (stub a)); [|apply same_change_recv].
  apply same_on_stub. intros r s'. apply same_recv_progress.
Qed.

Lemma same_active_ready events (a : Active S) :
  same (Active_ready events a) (AsyncPipe.Active_ready (H := resyncing) (deaf events) a).
Proof.
  unfold Active_ready, AsyncPipe.Active_ready. cbn [deaf is_hup].
  apply (same_bind eq); [apply same_readable|]. intros [r1 a1] _ <-.
  apply (same_bind eq); [destruct r1; [apply same_writable|by apply same_ret]|]. intros [r2 a2] _ <-.
  destruct r2 as [[]|e]; apply same_no_transition.
Qed.

(** A handler that gives the active state back, against one that does not touch it. *)
Lemma same_through {A B} (R : A → B → Prop) m (m' : Q (result ())) (a : Active S) k k' :
  same_active m (res ← m'; mret (res, a)) → (∀ res, same_story R (k (res, a)) (k' res)) →
  same_story R (m ≫= k) (m' ≫= k').
Proof.
  intros Hm Hk h1 h2. specialize (Hm h1 h2). rewrite !bind_run. rewrite bind_run in Hm.
  destruct (m h1) as [[res a1] o1|], (m' h2) as [res' o2|]; try done.
  rewrite ret_run, app_nil_r in Hm. destruct Hm as [[= -> ->] Ho]. specialize (Hk res' (h1 ++ o1) (h2 ++ o2)).
  destruct (k _ _) as [st p1|], (k' _ _) as [st' p2|]; try done. destruct Hk as [HR Hp].
  split; [done|]. unfold raised in *. by rewrite !omap_app, Ho, Hp.
Qed.

Lemma same_active_send msg (a : Active S) : same (Active_send msg a) (AsyncPipe.Active_send (H := resyncing) msg a).
Proof.
  unfold Active_send, AsyncPipe.Active_send. apply same_on_stub. intros r s'.
  eapply same_through; [apply same_send_progress|]. intros res. apply same_no_transition.
Qed.

Lemma same_active_recv (a : Active S) : same (Active_recv a) (AsyncPipe.Active_recv (H := resyncing) a).
Proof.
  unfold Active_recv, AsyncPipe.Active_recv. apply same_on_stub. intros r s'.
  eapply same_through; [apply same_recv_progress|]. intros res. apply same_no_transition.
Qed.

Lemma same_opened s : same (enter (Live (Active_new s))) (transition (Live (Active_new (stub_read_and_write_void s)))).
Proof.
  intros h1 h2. pose proof (same_resync Opened (Active_new s) h1 h2) as Hr. cbn [enter]. unfold Active_enter.
  rewrite bind_run. destruct (raise_and_resync_readiness Opened (Active_new s) h1) as [a' o|]; [|done].
  destruct Hr as [-> Hr]. cbn. by rewrite app_nil_r.
Qed.

Lemma same_error e : same (PipeState_error e) (PipeState_error e).
Proof. by apply same_emit, same_ret. Qed.

Lemma same_state_step c (st st' : PipeState S) :
  alike st st' → same (state_step c st) (AsyncPipe.state_step (HS := resyncing) (deaf_call c) st').
Proof.
  destruct st as [s p|s p|s p|a|], st' as [s' p'|s' p'|s' p'|a'|]; try done; cbn [alike];
    [intros [= -> ->]|intros [-> ->]|intros [= -> ->]|intros [= ->]|intros _];
    destruct c as [events| | |msg|]; try by intros h1 h2.
  - cbn. unfold HandshakeTx_ready, AsyncPipe.HandshakeTx_ready. cbn [deaf is_writable].
    destruct (is_writable events); [|by apply same_ret]. apply (same_bind eq); [by intros h1 h2; unfold on_stub; cbn; destruct (stub_send_handshake _ _) as [[]]|].
    intros [r s] _ <-. destruct r as [[]|e]; [by intros h1 h2|apply same_error].
  - cbn. unfold HandshakeRx_ready, AsyncPipe.HandshakeRx_ready. cbn [deaf is_readable].
    destruct (is_readable events); [|by apply same_ret]. apply same_on_stub. intros [[]|e] s; [apply same_opened|apply same_error].
  - apply same_active_ready.
  - apply same_active_send.
  - apply same_active_recv.
Qed.

(** C32: Whatever the reactor asks of a pipe over whatever stub, the Windows variant
    tells its socket the story that the unix one tells when it is never told of a
    hang up and its stub resynchronises by itself ([resyncing]): the same events in
    the same order, the same panics, the same state in the end.  A peer that hangs
    up is noticed on unix; on Windows only a failing read or write tells. *)
Theorem windows_pipe_is_unix calls s pids :
  same_story alike_pipes (pipe_drive calls (AsyncPipe_new s pids))
    (AsyncPipe.pipe_drive (H := resyncing) (deaf_call <$> calls) (AsyncPipe_new s pids)).
Proof.
  assert (Hnew : alike_pipes (AsyncPipe_new s pids) (AsyncPipe_new s pids)) by done. revert Hnew.
  generalize (AsyncPipe_new s pids) at 1 3 as p. generalize (AsyncPipe_new s pids) as p'.
  induction calls as [|c calls IH]; intros p' p Hp; cbn [pipe_drive AsyncPipe.pipe_drive fmap list_fmap].
  { by apply same_ret. }
  eapply same_bind; [|intros p1 p1' Hp1; by apply IH]. destruct p as [[st|]], p' as [[st'|]]; try done.
  - rewrite (pipe_step_state (HS := resyncing)). unfold pipe_step, apply. cbn [pipe_state].
    apply (same_bind alike); [by apply same_state_step|]. intros st1 st1' Hst. by apply same_ret.
  - destruct c; by apply same_ret.
Qed.

End stories.

(** ** The life of a pipe

    [pipe_lifecycle] holds here too, of any stub that reads and writes nothing
    without harm. *)

Class WindowsLaws (S : Type) `{AsyncPipeStub S} `{WindowsStub S} (stub_ok : S → Prop) : Prop := {
  law_void : ∀ s, stub_ok s → stub_ok (stub_read_and_write_void s) ∧
    stub_has_pending_send (stub_read_and_write_void s) = stub_has_pending_send s ∧
    stub_has_pending_recv (stub_read_and_write_void s) = stub_has_pending_recv s;
  law_registered : ∀ s, stub_ok s → stub_ok (stub_registered s) ∧
    stub_has_pending_send (stub_registered s) = stub_has_pending_send s ∧
    stub_has_pending_recv (stub_registered s) = stub_has_pending_recv s
}.

Section lifecycle.
Context {S : Type} `{HS : AsyncPipeStub S} `{HW : WindowsStub S} {takes : Message → Prop} {stub_ok : S → Prop}
  `{!StubLaws S takes stub_ok} `{!WindowsLaws S stub_ok}.

Abbreviation active_ok := (AsyncPipe.active_ok (stub_ok := stub_ok)).
Abbreviation state_inv := (AsyncPipe.state_inv (stub_ok := stub_ok)).
Abbreviation call_ok := (AsyncPipe.call_ok (takes := takes)).

(** What an active pipe raises, with what its stub owes. *)
Lemma resync_does evt (a : Active S) t ns nr :
  stub_ok (stub a) → Forall traffic (t ++ [evt]) →
  (Nat.b2n (stub_has_pending_send (stub a)) + occurs is_sent (t ++ [evt]) <= ns)%nat →
  (Nat.b2n (stub_has_pending_recv (stub a)) + occurs is_received (t ++ [evt]) <= nr)%nat →
  does (raise_and_resync_readiness evt a) (λ a' e, active_ok a' (t ++ e) ns nr).
Proof.
  intros Hs Ht Hns Hnr. destruct (law_void _ Hs) as (Hs' & Hps & Hpr).
  apply does_emit_bind, does_emit_bind, does_ret. cbn [raised omap list_omap app].
  split; cbn [stub set_stub]; [done|done|by rewrite Hps|by rewrite Hpr].
Qed.

(** The steps that end without an error to report. *)
Lemma active_done m t ns nr :
  does m (λ a' e, active_ok a' (t ++ e) ns nr) →
  does (self ← m; mret (Ok (), self)) (λ (ra : result () * Active S) e, active_ok ra.2 (t ++ e) ns nr).
Proof.
  intros Hm. eapply does_bind; [exact Hm|]. intros a' e1 Ha'. apply does_ret. by rewrite app_nil_r.
Qed.

Lemma windows_send_progress_does progress (a : Active S) t ns nr :
  stub_ok (stub a) → Forall traffic t →
  (Nat.b2n (stub_has_pending_send (stub a)) + match progress with Ok true => 1 | _ => 0 end + occurs is_sent t <= ns)%nat →
  (Nat.b2n (stub_has_pending_recv (stub a)) + occurs is_received t <= nr)%nat →
  does (on_send_progress progress a) (λ ra e, active_ok ra.2 (t ++ e) ns nr).
Proof.
  intros Hs Ht Hns Hnr. destruct progress as [[]|e]; cbn [on_send_progress] in *.
  - apply active_done. apply resync_does; [done| |rewrite occurs_app; cbn; lia..].
    apply Forall_app. split; [done|]. by repeat constructor.
  - apply active_done. apply does_ret. rewrite app_nil_r. split; try done; lia.
  - apply does_ret. rewrite app_nil_r. split; try done; simpl; lia.
Qed.

Lemma windows_recv_progress_does progress (a : Active S) t ns nr :
  stub_ok (stub a) → Forall traffic t →
  (Nat.b2n (stub_has_pending_send (stub a)) + occurs is_sent t <= ns)%nat →
  (Nat.b2n (stub_has_pending_recv (stub a)) + match progress with Ok (Some _) => 1 | _ => 0 end + occurs is_received t <= nr)%nat →
  does (on_recv_progress progress a) (λ ra e, active_ok ra.2 (t ++ e) ns nr).
Proof.
  intros Hs Ht Hns Hnr. destruct progress as [[m|]|e]; cbn [on_recv_progress] in *.
  - apply active_done. apply resync_does; [done| |rewrite occurs_app; cbn; lia..].
    apply Forall_app. split; [done|]. by repeat constructor.
  - apply active_done. apply does_ret. rewrite app_nil_r. split; try done; lia.
  - apply does_ret. rewrite app_nil_r. split; try done; simpl; lia.
Qed.

Lemma windows_writable_changed_does events (a : Active S) t ns nr :
  active_ok a t ns nr → does (writable_changed events a) (λ ra e, active_ok ra.2 (t ++ e) ns nr).
Proof.
  intros Ha. unfold writable_changed, change_can_send. destruct (negb (is_writable events)).
  { by apply active_done, change_can_send_does. }
  destruct (stub_has_pending_send (stub a)) eqn:Hp; [|by apply active_done, change_can_send_does].
  destruct Ha as [Hs Ht Hns Hnr]. destruct (law_resume_send _ Hs Hp) as (r & s' & Hrun & Hs' & Hr & Hw).
  eapply does_on_stub; [done|]. rewrite Hp in Hns. apply windows_send_progress_does; cbn [stub set_stub]; [done|done| |by rewrite Hr].
  rewrite Hw. destruct r as [[]|]; simpl in *; lia.
Qed.

Lemma windows_readable_changed_does events (a : Active S) t ns nr :
  active_ok a t ns nr → does (readable_changed events a) (λ ra e, active_ok ra.2 (t ++ e) ns nr).
Proof.
  intros Ha. unfold readable_changed, change_can_recv. destruct (negb (is_readable events)).
  { by apply active_done, change_can_recv_does. }
  destruct (stub_has_pending_recv (stub a)) eqn:Hp; [|by apply active_done, change_can_recv_does].
  destruct Ha as [Hs Ht Hns Hnr]. destruct (law_resume_recv _ Hs Hp) as (r & s' & Hrun & Hs' & Hr & Hw).
  eapply does_on_stub; [done|]. rewrite Hp in Hnr. apply windows_recv_progress_does; cbn [stub set_stub]; [done|done|by rewrite Hr|].
  rewrite Hw. destruct r as [[]|]; simpl in *; lia.
Qed.

(** A step of an active pipe, then the end of the call. *)
Lemma then_ends m t ns nr :
  does m (λ (ra : result () * Active S) e, active_ok ra.2 (t ++ e) ns nr) →
  ∀ k, (∀ res a e, active_ok a (t ++ e) ns nr →
     does (k (res, a)) (λ st e', state_inv st (Opened :: (t ++ e) ++ e') ns nr)) →
  does (m ≫= k) (λ st e, state_inv st (Opened :: t ++ e) ns nr).
Proof.
  intros Hm k Hk. eapply does_bind; [exact Hm|]. intros [res a] e1 Ha. cbn [snd] in Ha.
  eapply does_mono; [by apply Hk|]. intros st e. cbv beta. by rewrite <- app_assoc.
Qed.

Lemma windows_Active_ready_does events (a : Active S) t ns nr :
  active_ok a t ns nr → does (Active_ready events a) (λ st e, state_inv st (Opened :: t ++ e) ns nr).
Proof.
  intros Ha. apply then_ends; [by apply windows_readable_changed_does|]. intros r1 a1 e1 Ha1.
  apply then_ends; [|intros r2 a2 e2 Ha2; by apply no_transition_does].
  destruct r1; [by apply windows_writable_changed_does|]. apply does_ret. by rewrite app_nil_r.
Qed.

(** The flags do not count. *)
Lemma active_flags (a : Active S) t ns nr b c : active_ok a t ns nr → active_ok (mkActive (stub a) b c) t ns nr.
Proof. by intros [? ? ? ?]. Qed.

Lemma windows_Active_send_does msg (a : Active S) t ns nr :
  takes msg → active_ok a t ns nr →
  does (Active_send msg a) (λ st e, state_inv st (Opened :: t ++ e) (ns + 1) nr).
Proof.
  intros Hmsg [Hs Ht Hns Hnr]. unfold Active_send.
  destruct (law_start_send msg _ Hmsg Hs) as (r & s' & Hrun & Hs' & Hr & Hw).
  eapply does_on_stub; [done|]. apply then_ends.
  - apply windows_send_progress_does; cbn [stub set_stub]; [done|done| |by rewrite Hr]. rewrite Hw. destruct r as [[]|]; cbn; lia.
  - intros res a' e Ha. apply no_transition_does. by apply active_flags.
Qed.

Lemma windows_Active_recv_does (a : Active S) t ns nr :
  active_ok a t ns nr → does (Active_recv a) (λ st e, state_inv st (Opened :: t ++ e) ns (nr + 1)).
Proof.
  intros [Hs Ht Hns Hnr]. unfold Active_recv.
  destruct (law_start_recv _ Hs) as (r & s' & Hrun & Hs' & Hr & Hw).
  eapply does_on_stub; [done|]. apply then_ends.
  - apply windows_recv_progress_does; cbn [stub set_stub]; [done|done|by rewrite Hr|]. rewrite Hw. destruct r as [[]|]; cbn; lia.
  - intros res a' e Ha. apply no_transition_does. by apply active_flags.
Qed.

(** A state before it is entered. *)
Definition fresh (st : PipeState S) : Prop :=
  match st with
  | HandshakeTx s _ | HandshakeRx s _ => stub_ok s ∧ stub_has_pending_send s = false ∧ stub_has_pending_recv s = false
  | Live a => stub_ok (stub a) ∧ stub_has_pending_send (stub a) = false ∧ stub_has_pending_recv (stub a) = false
  | _ => False
  end.

Lemma enter_does (st : PipeState S) ns nr : fresh st → does (enter st) (λ st' e, state_inv st' e ns nr).
Proof.
  destruct st as [s p|s p|s p|a|]; intros Hf; try done; destruct Hf as (Hs & Hps & Hpr); cbn [enter].
  - destruct (law_registered _ Hs) as (Hs' & Hps' & Hpr'). unfold HandshakeTx_enter.
    eapply (does_bind _ _ (λ s1 e, s1 = stub_registered s ∧ e = [])); [by apply does_emit_bind, does_ret|].
    intros s1 e [-> ->]. apply does_ret. cbn. repeat split; congruence.
  - by apply does_emit_bind, does_ret.
  - destruct (law_void _ Hs) as (Hs' & Hps' & Hpr').
    eapply (does_bind _ _ (λ a' e, e = [Opened] ∧ active_ok a' [] ns nr)).
    + apply does_emit_bind, does_emit_bind, does_ret. split; [done|]. split; cbn [stub set_stub]; [done|done|..]; rewrite ?Hps', ?Hpr', ?Hps, ?Hpr; cbn; lia.
    + intros a' e [-> Ha]. apply does_ret. exists []. by rewrite app_nil_r.
Qed.

Lemma transition_does (st : PipeState S) res ns nr :
  fresh st → does (transition_if_ok st res) (λ st' e, state_inv st' e ns nr).
Proof.
  intros Hf. destruct res as [[]|e]; cbn [transition_if_ok]; [by apply enter_does|].
  apply does_emit_bind, does_ret. split; [exists [], [PipeError e]; split; [done|]; split; [by right; eexists|by left]|]. cbn. lia.
Qed.

Lemma windows_PipeState_ready_does events (st : PipeState S) evs ns nr :
  state_inv st evs ns nr → does (PipeState_ready events st) (λ st' e, state_inv st' (evs ++ e) ns nr).
Proof.
  intros Hinv. destruct st as [s p|s p|s p|a|]; cbn [PipeState_ready].
  - by eapply to_dead.
  - unfold HandshakeTx_ready. destruct (is_writable events); [|apply does_ret; by rewrite app_nil_r].
    destruct Hinv as (Hs & Hps & Hpr & ->). destruct (law_send_handshake p s Hs) as (r & s' & Hrun & Hs' & Hps' & Hpr').
    eapply does_on_stub; [done|]. apply transition_does. cbn. by rewrite Hps', Hpr'.
  - unfold HandshakeRx_ready. destruct (is_readable events); [|apply does_ret; by rewrite app_nil_r].
    destruct Hinv as (Hs & Hps & Hpr & ->). destruct (law_recv_handshake p s Hs) as (r & s' & Hrun & Hs' & Hps' & Hpr').
    eapply does_on_stub; [done|]. apply transition_does. cbn. by rewrite Hps', Hpr'.
  - destruct Hinv as (t & -> & Ha). by apply windows_Active_ready_does.
  - apply does_ret. by rewrite app_nil_r.
Qed.

Lemma windows_state_step_does c (st : PipeState S) evs ns nr :
  state_inv st evs ns nr → call_ok c →
  does (state_step c st) (λ st' e, state_inv st' (evs ++ e) (ns + sends_asked c) (nr + recvs_asked c)).
Proof.
  intros Hinv Hc.
  assert (Hdead : does (mret Dead) (λ st' e, state_inv st' (evs ++ e) (ns + sends_asked c) (nr + recvs_asked c)))
    by (eapply to_dead; [done|lia|lia]).
  destruct c as [events| | |msg|]; cbn [state_step sends_asked recvs_asked] in *; rewrite ?Nat.add_0_r in *.
  - by apply windows_PipeState_ready_does.
  - destruct st as [s p|s p|s p|a|]; try done. destruct Hinv as (? & ? & ? & ->). by apply enter_does.
  - destruct st as [s p|s p|s p|a|]; try done; apply does_emit_bind; done.
  - destruct st as [s p|s p|s p|a|]; try done. destruct Hinv as (t & -> & Ha). by apply windows_Active_send_does.
  - destruct st as [s p|s p|s p|a|]; try done. destruct Hinv as (t & -> & Ha). by apply windows_Active_recv_does.
Qed.

Lemma windows_pipe_drive_does calls (st : PipeState S) evs ns nr :
  state_inv st evs ns nr → Forall call_ok calls →
  does (pipe_drive calls (mkAsyncPipe (Some st))) (λ p e, ∃ st', pipe_state p = Some st' ∧
    state_inv st' (evs ++ e) (ns + sum_list_with sends_asked calls) (nr + sum_list_with recvs_asked calls)).
Proof.
  revert st evs ns nr. induction calls as [|c calls IH]; intros st evs ns nr Hinv Hcalls; cbn [pipe_drive sum_list_with].
  - apply does_ret. exists st. by rewrite app_nil_r, !Nat.add_0_r.
  - apply Forall_cons in Hcalls as [Hc Hcalls]. eapply (does_bind _ _ (λ p e, ∃ st1, p = mkAsyncPipe (Some st1) ∧
      state_inv st1 (evs ++ e) (ns + sends_asked c) (nr + recvs_asked c))).
    + unfold pipe_step, apply. cbn [pipe_state]. eapply does_bind; [by apply windows_state_step_does|].
      intros st1 e1 H1. apply does_ret. exists st1. by rewrite app_nil_r.
    + intros p e1 (st1 & -> & H1). eapply does_mono; [by apply (IH st1 _ _ _ H1)|].
      intros p e. cbv beta. by rewrite <- app_assoc, <- !Nat.add_assoc.
Qed.

(** A pipe on Windows tells one story too: it opens at most once, carries traffic,
    may end with one error, and never acknowledges or delivers more than it was
    asked. *)
Theorem windows_lifecycle s pids calls :
  stub_ok s → stub_has_pending_send s = false → stub_has_pending_recv s = false → Forall call_ok calls →
  ∃ p out, pipe_drive calls (AsyncPipe_new s pids) [] = Done p out ∧
    let evs := raised out in
    lifecycle evs ∧ Closed ∉ evs ∧
    (occurs is_sent evs <= sum_list_with sends_asked calls)%nat ∧
    (occurs is_received evs <= sum_list_with recvs_asked calls)%nat.
Proof.
  intros Hs Hps Hpr Hcalls.
  destruct (windows_pipe_drive_does calls (Initial s pids) [] 0 0 ltac:(done) Hcalls []) as (p & out & Hrun & st & Hst & Hinv).
  exists p, out. split; [done|]. destruct (state_inv_lifecycle _ _ _ _ Hinv) as (Hl & Hns & Hnr & _).
  cbn [app] in *. split; [done|]. by split; [apply lifecycle_never_closed|].
Qed.

End lifecycle.

(** ** The stubs *)

Section stubs.
Context `{ByteOrder} `{HV : IoVec}.

(** [TcpPipeStub::read_and_write_void] (tcp/stub.rs): a read and a write of no
    bytes, whose results are ignored. *)
Definition read_and_write_void (self : PipeStub) : PipeStub :=
  let self := (on_source (source_read 0) self).2 in
  (on_sink (sink_write []) self).2.

(** TCP keeps the default [registered], which does nothing. *)
Definition TcpPipeStub_windows : WindowsStub PipeStub :=
  {| stub_read_and_write_void := read_and_write_void; stub_registered s := s |}.

(** What a named pipe carries after [NamedPipe::connect], on the server's side. *)
Context (connect : Sink * Source → Sink * Source).

(** [IpcPipeStub]: the stream, the bound and the operations are in [base]. *)
Record IpcPipeStub : Type := mkIpcPipeStub { server : bool; base : PipeStub }.

Definition IpcPipeStub_new_server (named_pipe : Sink * Source) (recv_max_size : Z) : IpcPipeStub :=
  mkIpcPipeStub true (PipeStub_new named_pipe recv_max_size).
Definition IpcPipeStub_new_client (named_pipe : Sink * Source) (recv_max_size : Z) : IpcPipeStub :=
  mkIpcPipeStub false (PipeStub_new named_pipe recv_max_size).

Definition on_base {A} (m : IO PipeStub A) : IO IpcPipeStub A := λ self,
  let '(r, base) := m (base self) in (r, mkIpcPipeStub (server self) base).

Definition IpcPipeStub_run_send_operation (op : SendOperation) : IO IpcPipeStub bool :=
  on_base (run_send_operation Ipc.advance op).
Definition IpcPipeStub_run_recv_operation (op : RecvOperation) : IO IpcPipeStub (option Message) :=
  on_base (run_recv_operation 1 op).
Definition IpcPipeStub_start_send (msg : Message) : IO IpcPipeStub bool := on_base (start_send Ipc.advance msg).
Definition IpcPipeStub_resume_send : IO IpcPipeStub bool := on_base (resume_send Ipc.advance).
Definition IpcPipeStub_has_pending_send (self : IpcPipeStub) : bool := has_pending_send (base self).
Definition IpcPipeStub_start_recv : IO IpcPipeStub (option Message) := on_base (start_recv 1).
Definition IpcPipeStub_resume_recv : IO IpcPipeStub (option Message) := on_base (resume_recv 1).
Definition IpcPipeStub_has_pending_recv (self : IpcPipeStub) : bool := has_pending_recv (base self).
Definition IpcPipeStub_send_handshake (pids : Z * Z) : IO IpcPipeStub () :=
  on_base (on_sink (send_and_check_handshake pids)).
Definition IpcPipeStub_recv_handshake (pids : Z * Z) : IO IpcPipeStub () :=
  on_base (on_source (recv_and_check_handshake pids)).

Definition IpcPipeStub_read_and_write_void (self : IpcPipeStub) : IpcPipeStub :=
  mkIpcPipeStub (server self) (read_and_write_void (base self)).

Definition IpcPipeStub_registered (self : IpcPipeStub) : IpcPipeStub :=
  if server self then
    let '(si, so) := connect (sink (base self), source (base self)) in
    mkIpcPipeStub (server self) (with_source (with_sink (base self) si) so)
  else self.

#[local] Instance IpcPipeStub_stub : AsyncPipeStub IpcPipeStub := {|
  stub_start_send := IpcPipeStub_start_send;
  stub_resume_send := IpcPipeStub_resume_send;
  stub_has_pending_send := IpcPipeStub_has_pending_send;
  stub_start_recv := IpcPipeStub_start_recv;
  stub_resume_recv := IpcPipeStub_resume_recv;
  stub_has_pending_recv := IpcPipeStub_has_pending_recv;
  stub_send_handshake := IpcPipeStub_send_handshake;
  stub_recv_handshake := IpcPipeStub_recv_handshake
|}.

#[local] Instance IpcPipeStub_windows : WindowsStub IpcPipeStub :=
  {| stub_read_and_write_void := IpcPipeStub_read_and_write_void; stub_registered := IpcPipeStub_registered |}.

(** ** What the stubs promise *)

Lemma void_keeps self :
  let self' := read_and_write_void self in
  send_operation self' = send_operation self ∧ recv_operation self' = recv_operation self ∧
  recv_max_size self' = recv_max_size self.
Proof.
  unfold read_and_write_void, on_source, on_sink. destruct self as [si so max sop rop]. cbn.
  destruct (source_read 0 so) as [r so']. cbn. destruct (sink_write [] si) as [r' si']. done.
Qed.

(** What a stub is worth depends on its operations only. *)
Lemma framed_same {pre takes place} self self' :
  send_operation self' = send_operation self → recv_operation self' = recv_operation self →
  recv_max_size self' = recv_max_size self →
  framed_ok (pre := pre) (takes := takes) (place := place) self →
  framed_ok (pre := pre) (takes := takes) (place := place) self'.
Proof. intros Hs Hr Hm [Hos Hor Hom]. split; rewrite ?Hs, ?Hr, ?Hm; done. Qed.

Lemma tcp_windows_laws :
  WindowsLaws PipeStub (H := TcpPipeStub_stub) (H0 := TcpPipeStub_windows)
    (framed_ok (pre := []) (takes := Tcp.takes) (place := Tcp.place)).
Proof.
  split; cbn; [|done]. intros s Hs. destruct (void_keeps s) as (Hso & Hro & Hm).
  split; [by apply (framed_same s)|]. unfold has_pending_send, has_pending_recv. by rewrite Hso, Hro.
Qed.

Definition ipc_ok (self : IpcPipeStub) : Prop :=
  framed_ok (pre := ipc_prefix) (takes := sendable) (place := Ipc.place) (base self).

Lemma on_base_attempt {A} (m : IO PipeStub A) self r base' :
  attempt m (base self) = (IOk r, base') → attempt (on_base m) self = (IOk r, mkIpcPipeStub (server self) base').
Proof. unfold attempt, on_base. destruct (m (base self)) as [[a|e|] b]; by intros [= <- <-]. Qed.

(** A law of the stub below is a law of the stub. *)
Lemma windows_ipc_stub_laws : StubLaws IpcPipeStub sendable ipc_ok.
Proof.
  pose proof (Ipc.ipc_stub_laws) as L. unfold ipc_ok. split; cbn.
  - intros msg [b s] Hmsg Hs. destruct (law_start_send (StubLaws := L) msg s Hmsg Hs) as (r & s' & Hrun%(on_base_attempt _ (mkIpcPipeStub b s)) & Hok).
    by exists r, (mkIpcPipeStub b s').
  - intros [b s] Hs Hp. destruct (law_resume_send (StubLaws := L) s Hs Hp) as (r & s' & Hrun%(on_base_attempt _ (mkIpcPipeStub b s)) & Hok).
    by exists r, (mkIpcPipeStub b s').
  - intros [b s] Hs. destruct (law_start_recv (StubLaws := L) s Hs) as (r & s' & Hrun%(on_base_attempt _ (mkIpcPipeStub b s)) & Hok).
    by exists r, (mkIpcPipeStub b s').
  - intros [b s] Hs Hp. destruct (law_resume_recv (StubLaws := L) s Hs Hp) as (r & s' & Hrun%(on_base_attempt _ (mkIpcPipeStub b s)) & Hok).
    by exists r, (mkIpcPipeStub b s').
  - intros pids [b s] Hs. destruct (law_send_handshake (StubLaws := L) pids s Hs) as (r & s' & Hrun%(on_base_attempt _ (mkIpcPipeStub b s)) & Hok).
    by exists r, (mkIpcPipeStub b s').
  - intros pids [b s] Hs. destruct (law_recv_handshake (StubLaws := L) pids s Hs) as (r & s' & Hrun%(on_base_attempt _ (mkIpcPipeStub b s)) & Hok).
    by exists r, (mkIpcPipeStub b s').
Qed.

Lemma ipc_windows_laws : WindowsLaws IpcPipeStub ipc_ok.
Proof.
  unfold ipc_ok. split; intros [b s] Hs; cbn.
  - destruct (void_keeps s) as (Hso & Hro & Hm). split; [by apply (framed_same s)|].
    unfold IpcPipeStub_has_pending_send, IpcPipeStub_has_pending_recv, has_pending_send, has_pending_recv. cbn.
    by rewrite Hso, Hro.
  - unfold IpcPipeStub_registered. destruct b; [|done]. cbn. destruct (connect (sink s, source s)) as [si so]. cbn.
    split; [by apply (framed_same s)|]. done.
Qed.

(** ** The IPC acceptor *)

(** [named_pipe_new k name]: what the system answers to the [k]-th
    [NamedPipe::new(name)]; [asked] counts them. *)
Context (named_pipe_new : nat → string → result (Sink * Source)).
Abbreviation WindowsPipe := (AsyncPipe.AsyncPipe IpcPipeStub).

Record IpcAcceptor : Type := mkIpcAcceptor {
  ipc_addr : string;
  ipc_proto_ids : Z * Z;
  ipc_max : Z;
  asked : nat
}.

Definition IpcAcceptor_new (a : string) (pids : Z * Z) (recv_max_size : Z) : IpcAcceptor :=
  mkIpcAcceptor a pids recv_max_size 0.

Definition pipe_name (a : string) : string := "\\.\pipe\scaproust-pipe-" +:+ a.

Definition IpcAcceptor_create_pipe (self : IpcAcceptor) (named_pipe : Sink * Source) : WindowsPipe :=
  AsyncPipe_new (IpcPipeStub_new_server named_pipe (ipc_max self)) (ipc_proto_ids self).

Definition IpcAcceptor_connect (self : IpcAcceptor) : Am WindowsPipe IpcAcceptor :=
  let name := pipe_name (ipc_addr self) in
  match named_pipe_new (asked self) name with
  | Ok named_pipe => acceptor_raise (Accepted [IpcAcceptor_create_pipe self named_pipe])
  | Err e => acceptor_raise (AcceptorError e)
  end;;
  mret (mkIpcAcceptor (ipc_addr self) (ipc_proto_ids self) (ipc_max self) (asked self + 1)).

Definition IpcAcceptor_ready (events : Ready) (self : IpcAcceptor) : Am WindowsPipe IpcAcceptor := mret self.

Definition IpcAcceptor_open (self : IpcAcceptor) : Am WindowsPipe IpcAcceptor :=
  acceptor_raise AcceptorOpened;;
  IpcAcceptor_connect self.

Definition IpcAcceptor_close (self : IpcAcceptor) : Am WindowsPipe IpcAcceptor :=
  acceptor_raise AcceptorClosed;;
  mret self.

#[local] Instance IpcAcceptor_acceptor : AcceptorTrait WindowsPipe IpcAcceptor := {|
  acceptor_ready := IpcAcceptor_ready;
  acceptor_open := IpcAcceptor_open;
  acceptor_close := IpcAcceptor_close
|}.

(** ** The transport *)

(** Opening the file of a named pipe ([OpenOptions], [NamedPipe::from_raw_handle]). *)
Context {Net : Type} (open_pipe : string → Net → result (Sink * Source) * Net).

Definition Ipc_connect (dest : Destination) (net : Net) : result WindowsPipe * Net :=
  let name := pipe_name (addr dest) in
  let '(file, net) := open_pipe name net in
  match file with
  | Err e => (Err e, net)
  | Ok named_pipe =>
      let stub := IpcPipeStub_new_client named_pipe (dest_recv_max_size dest) in
      (Ok (AsyncPipe_new stub (dest_pids dest)), net)
  end.

Definition Ipc_bind (dest : Destination) (net : Net) : result IpcAcceptor * Net :=
  (Ok (IpcAcceptor_new (addr dest) (dest_pids dest) (dest_recv_max_size dest)), net).

Definition Ipc_transport : Transport () WindowsPipe IpcAcceptor Net := {|
  transport_connect _ := Ipc_connect;
  transport_bind _ := Ipc_bind
|}.

(** An acceptor on Windows makes one pipe when it opens, or reports why not, and
    never another: its readiness means nothing to it. *)
Theorem windows_acceptor_once self readiness h :
  ∃ self' out,
    (self ← IpcAcceptor_open self;
     self ← foldr (λ events m, m ≫= IpcAcceptor_ready events) (mret self) readiness;
     IpcAcceptor_close self) h = Done self' out ∧
    out = AcceptorRaise <$>
      [AcceptorOpened;
       match named_pipe_new (asked self) (pipe_name (ipc_addr self)) with
       | Ok np => Accepted [AsyncPipe_new (mkIpcPipeStub true (PipeStub_new np (ipc_max self))) (ipc_proto_ids self)]
       | Err e => AcceptorError e
       end;
       AcceptorClosed].
Proof.
  assert (Hr : ∀ s h', foldr (λ events (m : Am WindowsPipe IpcAcceptor), m ≫= IpcAcceptor_ready events) (mret s) readiness h' = Done s []).
  { intros s h'. induction readiness as [|ev l IH]; [done|]. cbn [foldr]. by rewrite bind_run, IH. }
  unfold IpcAcceptor_open, IpcAcceptor_connect.
  destruct (named_pipe_new (asked self) (pipe_name (ipc_addr self))) as [np|e]; eexists _, _;
    (split; [eapply bind_done; [done|]; eapply bind_done; [apply Hr|done]|done]).
Qed.

End stubs.

(** The pipe of [AsyncPipe.ex_tcp_calls], which is hung up: no error, though the
    stub of TCP does take the answers that it reads and writes nothing with. *)
Example ex_windows_story :
  let HS := TcpPipeStub_stub (H := be_ref) (HV := iovec_ref) in
  let HW := TcpPipeStub_windows in
  let calls := ex_tcp_calls in
  let pipe := AsyncPipe_new (PipeStub_new (mkSink [Ok 8%nat; Ok 0%nat; Ok 4%nat; Ok 100%nat; Ok 0%nat] [],
    mkSource [Ok [0; 83; 80; 0; 0; 16; 0; 0]]) 1024) (16, 16) in
  raised (emitted (pipe_drive (S := PipeStub) calls pipe [])) = [Opened; CanSend true; Sent; CanSend true; CanSend false] ∧
  raised (emitted (AsyncPipe.pipe_drive (H := resyncing) (deaf_call <$> calls) pipe [])) =
    [Opened; CanSend true; Sent; CanSend true; CanSend false].
Proof. split; by vm_compute. Qed.

(** The pipes of both transports satisfy the laws: a client of a named pipe that
    shakes hands and receives. *)
Definition ex_client : IpcPipeStub :=
  IpcPipeStub_new_client (mkSink [Ok 8%nat; Ok 0%nat] [],
    mkSource [Ok [0; 83; 80; 0; 0; 16; 0; 0]; Ok [1; 0; 0; 0; 0; 0; 0; 0; 2; 65; 66]]) 1024.
Definition ex_client_calls : list pipe_call :=
  [CallOpen; CallReady (mkReady false true false false); CallReady (mkReady true false false false);
   CallReady (mkReady true false false false); CallRecv; CallReady (mkReady false false true false)].

Example ex_client_story :
  let HS := IpcPipeStub_stub (H := be_ref) in
  let HW := IpcPipeStub_windows (λ s, s) in
  raised (emitted (pipe_drive (S := IpcPipeStub) ex_client_calls (AsyncPipe_new ex_client (16, 16)) [])) =
  [Opened; CanRecv true; Received (from_body [65; 66])].
Proof. by vm_compute. Qed.

Lemma windows_lifecycle_witness :
  let HS := IpcPipeStub_stub (H := be_ref) in
  let HW := IpcPipeStub_windows (λ s, s) in
  ∃ p out, pipe_drive (S := IpcPipeStub) ex_client_calls (AsyncPipe_new ex_client (16, 16)) [] = Done p out ∧
    lifecycle (raised out) ∧ (occurs is_received (raised out) <= 1)%nat.
Proof.
  intros HS HW.
  destruct (windows_lifecycle (HS := HS) (HW := HW) (StubLaws0 := windows_ipc_stub_laws (H := be_ref)) (WindowsLaws0 := ipc_windows_laws (H := be_ref) (λ s, s))
    ex_client (16, 16) ex_client_calls) as (p & out & Hrun & Hl & _ & _ & Hr);
    [by apply framed_new|done|done|by repeat constructor|]. by exists p, out.
Defined.
