(* ===== verification/Adapter.v ===== *)
(** * What the reactor lends to its sockets (src/reactor)

    The bus of signals (bus.rs), the endpoints and their controllers, the schedule
    over the timer of mio-extras, and the contexts through which sockets, devices,
    probes and endpoints act on them (adapter.rs, mod.rs).

    A handler of a socket is a run in [Context.P]: what its context would have
    answered is computed from the reactor as it was when the handler started and
    from what the handler did since ([context_env]); once it is done, what it did
    is carried out ([carry_out]). *)

From S2P Require Import Prelude Core Context Protocol Socket Probe Device Session.
From S2P Require Import AsyncPipe Acceptor.

(** ** Signals and tasks (mod.rs) *)

(** transport/pipe.rs, transport/acceptor.rs *)
Inductive PipeCommand : Type :=
| PipeCmdOpen
| PipeCmdClose
| PipeCmdSend (msg : Message)
| PipeCmdRecv.

Inductive AcceptorCommand : Type :=
| AcceptorCmdOpen
| AcceptorCmdClose.

Inductive Signal (Pp : Type) : Type :=
| PipeCmd (sid : SocketId) (eid : EndpointId) (cmd : PipeCommand)
| PipeEvt (sid : SocketId) (eid : EndpointId) (evt : PipeEvent)
| AcceptorCmd (sid : SocketId) (eid : EndpointId) (cmd : AcceptorCommand)
| AcceptorEvt (sid : SocketId) (eid : EndpointId) (evt : AcceptorEvent Pp)
| SocketCmd (sid : SocketId) (cmd : Command)
| SocketEvt (sid : SocketId) (evt : Event).
Arguments PipeCmd {Pp} sid eid cmd.
Arguments PipeEvt {Pp} sid eid evt.
Arguments AcceptorCmd {Pp} sid eid cmd.
Arguments AcceptorEvt {Pp} sid eid evt.
Arguments SocketCmd {Pp} sid cmd.
Arguments SocketEvt {Pp} sid evt.

(** [probe::Schedulable] has one case, [PollTimeout]. *)
Inductive Task : Type :=
| TaskSocket (sid : SocketId) (task : Schedulable)
| TaskProbe (pid : ProbeId).

(** What leaves the thread of the reactor: replies on channels, and the interests
    declared to the poll, by token. *)
Inductive rx_effect : Type :=
| ToSession (r : SessionReply)
| ToSocket (sid : SocketId) (r : Reply)
| ToDevice (did : DeviceId) (r : DeviceReply)
| ToProbe (pid : ProbeId) (r : ProbeReply)
| PollRegister (eid : EndpointId) (interest : Ready) (opt : PollOpt)
| PollReregister (eid : EndpointId) (interest : Ready) (opt : PollOpt)
| PollDeregister (eid : EndpointId).

Abbreviation R := (M rx_effect).

(** ** The bus (bus.rs)

    [readiness]: what its registration last told the poll, once registered. *)

Section bus.
Context {S : Type}.

Record EventLoopBus : Type := mkBus { queue : list S; readiness : option bool }.

Definition EventLoopBus_new : EventLoopBus := mkBus [] None.

Definition set_readiness (b : bool) (self : EventLoopBus) : EventLoopBus :=
  mkBus (queue self) (match readiness self with Some _ => Some b | None => None end).

Definition bus_send (t : S) (self : EventLoopBus) : EventLoopBus :=
  let self := if bool_decide (queue self = []) then set_readiness true self else self in
  mkBus (queue self ++ [t]) (readiness self).

Definition bus_recv (self : EventLoopBus) : option S * EventLoopBus :=
  let self := if bool_decide (length (queue self) = 1%nat) then set_readiness false self else self in
  match queue self with
  | [] => (None, self)
  | t :: rest => (Some t, mkBus rest (readiness self))
  end.

(** [Evented]: [poll] is what the poll answers. *)
Definition bus_register (poll : result ()) (self : EventLoopBus) : result () * EventLoopBus :=
  match readiness self with
  | Some _ => (Err (other_io_error "bus already registered"), self)
  | None =>
      match poll with
      | Err e => (Err e, self)
      | Ok _ => (Ok (), mkBus (queue self) (Some (negb (bool_decide (queue self = [])))))
      end
  end.

Definition bus_reregister (poll : result ()) (self : EventLoopBus) : result () :=
  match readiness self with Some _ => poll | None => Err (other_io_error "bus not registered") end.
Definition bus_deregister (poll : result ()) (self : EventLoopBus) : result () :=
  match readiness self with Some _ => poll | None => Err (other_io_error "bus not registered") end.

End bus.
Arguments EventLoopBus S : clear implicits.

(** ** The timer of mio-extras *)

Class Timer (Tm Hd : Type) : Type := {
  set_timeout : Duration → Task → Tm → Hd * Tm;
  cancel_timeout : Hd → Tm → Tm;
  timer_poll : Z → Tm → option Task * Tm
}.

Section adapter.
Context `{Build} {Tr Pp Ac Net Tm Hd : Type}.
Context `{PipeTrait Pp} `{AcceptorTrait Pp Ac} `{Transport Tr Pp Ac Net} `{Timer Tm Hd}.

(** ** Controllers and endpoints *)

Record PipeController : Type := mkPipeController {
  pc_socket_id : SocketId;
  pc_endpoint_id : EndpointId;
  pc_pipe : Pp
}.
Record AcceptorController : Type := mkAcceptorController {
  ac_socket_id : SocketId;
  ac_endpoint_id : EndpointId;
  ac_acceptor : Ac
}.

Record EndpointCollection : Type := mkEndpointCollection {
  transports : gmap string Tr;
  ep_pipes : gmap EndpointId PipeController;
  ep_acceptors : gmap EndpointId AcceptorController
}.

Definition EndpointCollection_new (trs : gmap string Tr) : EndpointCollection := mkEndpointCollection trs ∅ ∅.

Definition get_transport (scheme : string) (self : EndpointCollection) : result Tr :=
  match transports self !! scheme with
  | Some t => Ok t
  | None => Err (invalid_input_io_error "invalid scheme")
  end.

Definition get_pipe_mut (eid : EndpointId) (self : EndpointCollection) : option PipeController := ep_pipes self !! eid.

Definition insert_pipe_controller (sid : SocketId) (eid : EndpointId) (pipe : Pp) (self : EndpointCollection) : EndpointCollection :=
  let controller := mkPipeController sid eid pipe in
  mkEndpointCollection (transports self) (<[eid := controller]> (ep_pipes self)) (ep_acceptors self).

Definition insert_pipe (sid : SocketId) (pipe : Pp) (ids : Sequence) (self : EndpointCollection)
    : option (EndpointId * Sequence * EndpointCollection) :=
  '(n, ids) ← Sequence_next ids;
  let eid := EndpointId_from n in
  Some (eid, ids, insert_pipe_controller sid eid pipe self).

Definition ep_remove_pipe (eid : EndpointId) (self : EndpointCollection) : EndpointCollection :=
  mkEndpointCollection (transports self) (delete eid (ep_pipes self)) (ep_acceptors self).

Definition get_acceptor_mut (eid : EndpointId) (self : EndpointCollection) : option AcceptorController := ep_acceptors self !! eid.

Definition insert_acceptor_controller (sid : SocketId) (eid : EndpointId) (acceptor : Ac) (self : EndpointCollection)
    : EndpointCollection :=
  let controller := mkAcceptorController sid eid acceptor in
  mkEndpointCollection (transports self) (ep_pipes self) (<[eid := controller]> (ep_acceptors self)).

Definition ep_insert_acceptor (sid : SocketId) (acceptor : Ac) (ids : Sequence) (self : EndpointCollection)
    : option (EndpointId * Sequence * EndpointCollection) :=
  '(n, ids) ← Sequence_next ids;
  let eid := EndpointId_from n in
  Some (eid, ids, insert_acceptor_controller sid eid acceptor self).

(** ** The schedule *)

Record Schedule : Type := mkSchedule { sch_ids : Sequence; items : gmap Scheduled Hd }.

Definition Schedule_new (seq : Sequence) : Schedule := mkSchedule seq ∅.

Definition Schedule_insert (handle : Hd) (self : Schedule) : option (Scheduled * Schedule) :=
  '(n, ids) ← Sequence_next (sch_ids self);
  let scheduled := Scheduled_from n in
  Some (scheduled, mkSchedule ids (<[scheduled := handle]> (items self))).

Definition Schedule_remove (scheduled : Scheduled) (self : Schedule) : option Hd * Schedule :=
  (items self !! scheduled, mkSchedule (sch_ids self) (delete scheduled (items self))).

(** ** What a context borrows

    [ids] is the cell shared by the endpoints and the session. *)

Record World : Type := mkWorld {
  signal_tx : EventLoopBus (Signal Pp);
  ids : Sequence;
  endpoints : EndpointCollection;
  schedule : Schedule;
  timer : Tm;
  net : Net
}.

Definition send_signal (s : Signal Pp) (w : World) : World :=
  mkWorld (bus_send s (signal_tx w)) (ids w) (endpoints w) (schedule w) (timer w) (net w).
Definition with_bus (b : EventLoopBus (Signal Pp)) (w : World) : World :=
  mkWorld b (ids w) (endpoints w) (schedule w) (timer w) (net w).
Definition with_endpoints (i : Sequence) (e : EndpointCollection) (w : World) : World :=
  mkWorld (signal_tx w) i e (schedule w) (timer w) (net w).
Definition with_schedule (s : Schedule) (t : Tm) (w : World) : World :=
  mkWorld (signal_tx w) (ids w) (endpoints w) s t (net w).
Definition with_net (n : Net) (w : World) : World :=
  mkWorld (signal_tx w) (ids w) (endpoints w) (schedule w) (timer w) n.

(** ** The context of a socket *)

(** [url.find("://")], and the url split there. *)
Definition split_url (u : string) : option (string * string) :=
  match String.index 0 "://" u with
  | Some index =>
      let scheme := String.substring 0 index u in
      let remainder := String.substring index (String.length u - index) u in
      Some (scheme, String.substring 3 (String.length remainder - 3) remainder)
  | None => None
  end.

Definition destination (a : string) (tmpl : EndpointTmpl) : Destination :=
  mkDestination a (pids tmpl) (tcp_no_delay (desc (spec tmpl))) (recv_max_size (desc (spec tmpl))).

Definition dial {X} (go : Tr → Destination → Net → result X * Net) (tmpl : EndpointTmpl) (w : World) : result X * World :=
  let u := url (spec tmpl) in
  match split_url u with
  | None => (Err (invalid_input_io_error u), w)
  | Some (scheme, a) =>
      match get_transport scheme (endpoints w) with
      | Err e => (Err e, w)
      | Ok transport =>
          let '(r, n) := go transport (destination a tmpl) (net w) in
          (r, with_net n w)
      end
  end.

Definition SocketContext_connect : EndpointTmpl → World → result Pp * World := dial transport_connect.
Definition SocketContext_bind : EndpointTmpl → World → result Ac * World := dial transport_bind.

(** [Network]: [None] when an id could not be drawn. *)
Definition Network_connect (sid : SocketId) (tmpl : EndpointTmpl) (w : World) : option (result EndpointId * World) :=
  let '(r, w) := SocketContext_connect tmpl w in
  match r with
  | Err e => Some (Err e, w)
  | Ok pipe =>
      '(eid, i, eps) ← insert_pipe sid pipe (ids w) (endpoints w);
      Some (Ok eid, with_endpoints i eps w)
  end.

Definition Network_bind (sid : SocketId) (tmpl : EndpointTmpl) (w : World) : option (result EndpointId * World) :=
  let '(r, w) := SocketContext_bind tmpl w in
  match r with
  | Err e => Some (Err e, w)
  | Ok acceptor =>
      '(eid, i, eps) ← ep_insert_acceptor sid acceptor (ids w) (endpoints w);
      Some (Ok eid, with_endpoints i eps w)
  end.

Definition Network_reconnect (sid : SocketId) (eid : EndpointId) (tmpl : EndpointTmpl) (w : World) : result () * World :=
  let '(r, w) := SocketContext_connect tmpl w in
  match r with
  | Err e => (Err e, w)
  | Ok pipe => (Ok (), with_endpoints (ids w) (insert_pipe_controller sid eid pipe (endpoints w)) w)
  end.

Definition Network_rebind (sid : SocketId) (eid : EndpointId) (tmpl : EndpointTmpl) (w : World) : result () * World :=
  let '(r, w) := SocketContext_bind tmpl w in
  match r with
  | Err e => (Err e, w)
  | Ok acceptor => (Ok (), with_endpoints (ids w) (insert_acceptor_controller sid eid acceptor (endpoints w)) w)
  end.

Definition send_pipe_cmd (self_id : SocketId) (eid : EndpointId) (cmd : PipeCommand) (w : World) : World :=
  send_signal (PipeCmd self_id eid cmd) w.
Definition send_acceptor_cmd (self_id : SocketId) (eid : EndpointId) (cmd : AcceptorCommand) (w : World) : World :=
  send_signal (AcceptorCmd self_id eid cmd) w.
Definition send_socket_evt (self_id : SocketId) (evt : Event) (w : World) : World :=
  send_signal (SocketEvt self_id evt) w.

Definition Network_open (self_id : SocketId) (eid : EndpointId) (remote : bool) (w : World) : World :=
  if remote then send_pipe_cmd self_id eid PipeCmdOpen w else send_acceptor_cmd self_id eid AcceptorCmdOpen w.
Definition Network_close (self_id : SocketId) (eid : EndpointId) (remote : bool) (w : World) : World :=
  if remote then send_pipe_cmd self_id eid PipeCmdClose w else send_acceptor_cmd self_id eid AcceptorCmdClose w.
Definition Network_send (self_id : SocketId) (eid : EndpointId) (msg : Message) (w : World) : World :=
  send_pipe_cmd self_id eid (PipeCmdSend msg) w.
Definition Network_recv (self_id : SocketId) (eid : EndpointId) (w : World) : World :=
  send_pipe_cmd self_id eid PipeCmdRecv w.

(** [Scheduler], for sockets and probes alike. *)
Definition Scheduler_schedule (task : Task) (delay : Duration) (w : World) : option (result Scheduled * World) :=
  let '(handle, t) := set_timeout delay task (timer w) in
  '(scheduled, s) ← Schedule_insert handle (schedule w);
  Some (Ok scheduled, with_schedule s t w).

Definition Scheduler_cancel (scheduled : Scheduled) (w : World) : World :=
  match Schedule_remove scheduled (schedule w) with
  | (Some handle, s) => with_schedule s (cancel_timeout handle (timer w)) w
  | (None, s) => with_schedule s (timer w) w
  end.

(** One call of a handler on its context. *)
Definition act (self_id : SocketId) (e : effect) (w : World) : option World :=
  match e with
  | NetConnect sid tmpl => snd <$> Network_connect sid tmpl w
  | NetReconnect sid eid tmpl => Some (Network_reconnect sid eid tmpl w).2
  | NetBind sid tmpl => snd <$> Network_bind sid tmpl w
  | NetRebind sid eid tmpl => Some (Network_rebind sid eid tmpl w).2
  | NetOpen eid remote => Some (Network_open self_id eid remote w)
  | NetClose eid remote => Some (Network_close self_id eid remote w)
  | NetSend eid msg => Some (Network_send self_id eid msg w)
  | NetRecv eid => Some (Network_recv self_id eid w)
  | SchSchedule task delay => snd <$> Scheduler_schedule (TaskSocket self_id task) delay w
  | SchCancel s => Some (Scheduler_cancel s w)
  | Context.Raise evt => Some (send_socket_evt self_id evt w)
  | SendReply _ => Some w
  end.

Fixpoint carry_out (self_id : SocketId) (es : list effect) (w : World) : option World :=
  match es with
  | [] => Some w
  | e :: rest => w ← act self_id e w; carry_out self_id rest w
  end.

Definition out_of_ids : io_error := other_io_error "attempt to add with overflow".

(** The iteration order of the hash collections of the standard library. *)
Class HashOrder : Type := {
  order_set : trace → gset EndpointId → list EndpointId;
  order_map : ∀ X, trace → gmap EndpointId X → list (EndpointId * X);
  order_set_perm : ∀ h s, order_set h s ≡ₚ elements s;
  order_map_perm : ∀ X h (m : gmap EndpointId X), order_map X h m ≡ₚ map_to_list m
}.

Context `{HashOrder}.

(** When an id cannot be drawn the thread panics in [carry_out], whatever is
    answered here. *)
Definition context_env (self_id : SocketId) (w : World) : Env := {|
  env_build := _;
  connect_answer h sid tmpl :=
    match w ← carry_out self_id h w; Network_connect sid tmpl w with Some (r, _) => r | None => Err out_of_ids end;
  reconnect_answer h sid eid tmpl :=
    match carry_out self_id h w with Some w => (Network_reconnect sid eid tmpl w).1 | None => Err out_of_ids end;
  bind_answer h sid tmpl :=
    match w ← carry_out self_id h w; Network_bind sid tmpl w with Some (r, _) => r | None => Err out_of_ids end;
  rebind_answer h sid eid tmpl :=
    match carry_out self_id h w with Some w => (Network_rebind sid eid tmpl w).1 | None => Err out_of_ids end;
  schedule_answer h task delay :=
    match w ← carry_out self_id h w; Scheduler_schedule (TaskSocket self_id task) delay w with
    | Some (r, _) => r | None => Err out_of_ids end;
  drain_set := order_set;
  drain_map := order_map;
  drain_set_perm := order_set_perm;
  drain_map_perm := order_map_perm
|}.

(** ** The contexts of devices and probes *)

Definition DeviceContext_poll (sid : SocketId) (w : World) : World := send_signal (SocketCmd sid Poll) w.

Definition device_act (e : device_effect) (w : World) : World :=
  match e with
  | DevicePoll sid => DeviceContext_poll sid w
  | DeviceAnswer _ => w
  end.

Definition ProbeContext_poll (sid : SocketId) (w : World) : World := send_signal (SocketCmd sid Poll) w.

Definition probe_act (self_id : ProbeId) (e : probe_effect) (w : World) : option World :=
  match e with
  | ProbeSchedule delay => snd <$> Scheduler_schedule (TaskProbe self_id) delay w
  | ProbeCancel s => Some (Scheduler_cancel s w)
  | PollSocket sid => Some (ProbeContext_poll sid w)
  | ProbeAnswer _ => Some w
  end.

Fixpoint probe_carry_out (self_id : ProbeId) (es : list probe_effect) (w : World) : option World :=
  match es with
  | [] => Some w
  | e :: rest => w ← probe_act self_id e w; probe_carry_out self_id rest w
  end.

Definition probe_context_env (self_id : ProbeId) (w : World) : ProbeEnv := {|
  poll_schedule_answer h delay :=
    match w ← probe_carry_out self_id h w; Scheduler_schedule (TaskProbe self_id) delay w with
    | Some (r, _) => r | None => Err out_of_ids end
|}.

(** ** The context of an endpoint

    An error of the poll is logged, and nothing else. *)

Definition endpoint_act (sid : SocketId) (eid : EndpointId) (e : pipe_effect) (w : World) : World :=
  match e with
  | AsyncPipe.Raise evt => send_signal (PipeEvt sid eid evt) w
  | _ => w
  end.
Definition endpoint_output (eid : EndpointId) (e : pipe_effect) : option rx_effect :=
  match e with
  | Register i opt => Some (PollRegister eid i opt)
  | Reregister i opt => Some (PollReregister eid i opt)
  | Deregister => Some (PollDeregister eid)
  | AsyncPipe.Raise _ => None
  end.

Definition acceptor_act (sid : SocketId) (eid : EndpointId) (e : acceptor_effect Pp) (w : World) : World :=
  match e with
  | AcceptorRaise evt => send_signal (AcceptorEvt sid eid evt) w
  | _ => w
  end.
Definition acceptor_output (eid : EndpointId) (e : acceptor_effect Pp) : option rx_effect :=
  match e with
  | AcceptorRegister i opt => Some (PollRegister eid i opt)
  | AcceptorDeregister => Some (PollDeregister eid)
  | AcceptorRaise _ => None
  end.

(** A call of a pipe, by its controller. *)
Definition run_pipe (f : Pp → Q Pp) (self : PipeController) (w : World) : R (PipeController * World) := λ _,
  match f (pc_pipe self) [] with
  | Done p out =>
      Done (mkPipeController (pc_socket_id self) (pc_endpoint_id self) p,
            foldl (λ w e, endpoint_act (pc_socket_id self) (pc_endpoint_id self) e w) w out)
           (omap (endpoint_output (pc_endpoint_id self)) out)
  | Panicked => Panicked
  end.

Definition PipeController_ready (events : Ready) : PipeController → World → R (PipeController * World) :=
  run_pipe (pipe_ready events).

Definition PipeController_process (cmd : PipeCommand) : PipeController → World → R (PipeController * World) :=
  match cmd with
  | PipeCmdOpen => run_pipe pipe_open
  | PipeCmdClose => run_pipe pipe_close
  | PipeCmdSend msg => run_pipe (pipe_send msg)
  | PipeCmdRecv => run_pipe pipe_recv
  end.

Definition run_acceptor (f : Ac → Am Pp Ac) (self : AcceptorController) (w : World) : R (AcceptorController * World) := λ _,
  match f (ac_acceptor self) [] with
  | Done a out =>
      Done (mkAcceptorController (ac_socket_id self) (ac_endpoint_id self) a,
            foldl (λ w e, acceptor_act (ac_socket_id self) (ac_endpoint_id self) e w) w out)
           (omap (acceptor_output (ac_endpoint_id self)) out)
  | Panicked => Panicked
  end.

Definition AcceptorController_ready (events : Ready) : AcceptorController → World → R (AcceptorController * World) :=
  run_acceptor (acceptor_ready events).

Definition AcceptorController_process (cmd : AcceptorCommand) : AcceptorController → World → R (AcceptorController * World) :=
  match cmd with
  | AcceptorCmdOpen => run_acceptor acceptor_open
  | AcceptorCmdClose => run_acceptor acceptor_close
  end.

End adapter.
