(* ===== verification/Dispatcher.v ===== *)
(** * The dispatcher (src/reactor/dispatcher.rs, src/reactor/event_loop.rs)

    The thread of the reactor: it takes requests from the facade, signals from its
    bus, tasks from its timer and readiness from the poll, one at a time, and hands
    each to the socket, device, probe or endpoint it is for. *)

From S2P Require Import Prelude Pull Core Context Protocol Socket Probe Device Session.
From S2P Require Import AsyncPipe Acceptor Adapter.

(** ** Requests (mod.rs, core/session.rs, core/endpoint.rs, core/device.rs, core/probe.rs) *)

(** [CreateSocket] carries the constructor of the protocol: what it makes. *)
Inductive SessionRequest (T : Type) : Type :=
| CreateSocket (ctor : T)
| CreateDevice (l r : SocketId)
| CreateProbe (poll_opts : list PollReq)
| Shutdown.
Arguments CreateSocket {T} ctor.
Arguments CreateDevice {T} l r.
Arguments CreateProbe {T} poll_opts.
Arguments Shutdown {T}.

Inductive EndpointRequest : Type := EndpointClose (remote : bool).
Inductive DeviceRequest : Type := RequestCheck | RequestDeviceClose.
Inductive ProbeRequest : Type := RequestPoll (timeout : Duration) | RequestProbeClose.

Inductive rx_request (T : Type) : Type :=
| ForSession (req : SessionRequest T)
| ForSocket (id : SocketId) (req : Request)
| ForEndpoint (sid : SocketId) (eid : EndpointId) (req : EndpointRequest)
| ForDevice (id : DeviceId) (req : DeviceRequest)
| ForProbe (id : ProbeId) (req : ProbeRequest).
Arguments ForSession {T} req.
Arguments ForSocket {T} id req.
Arguments ForEndpoint {T} sid eid req.
Arguments ForDevice {T} id req.
Arguments ForProbe {T} id req.

Section dispatcher.
Context `{Build} {Tr Pp Ac Net Tm Hd : Type}.
Context `{PipeTrait Pp} `{AcceptorTrait Pp Ac} `{Transport Tr Pp Ac Net} `{Timer Tm Hd} `{HashOrder}.
Context {T : Type} {PT : ∀ E : Env, Protocol T}.
Abbreviation W := (@World Tr Pp Ac Net Tm Hd).
Abbreviation PipeC := (PipeController (Pp := Pp)).
Abbreviation AcceptorC := (AcceptorController (Ac := Ac)).

(** [running] is the event loop's. *)
Record Dispatcher : Type := mkDispatcher {
  channel : list (rx_request T);
  world : W;
  session : Session T;
  running : bool
}.

Definition Dispatcher_new (trs : gmap string Tr) (clock : Tm) (net : Net) : Dispatcher :=
  let id_seq := Sequence_new in
  let timeout_eq := Sequence_new in
  mkDispatcher [] (mkWorld EventLoopBus_new id_seq (EndpointCollection_new trs) (Schedule_new timeout_eq) clock net)
    Session_new false.

Definition set_world (w : W) (self : Dispatcher) : Dispatcher := mkDispatcher (channel self) w (session self) (running self).
Definition set_session (s : Session T) (self : Dispatcher) : Dispatcher :=
  mkDispatcher (channel self) (world self) s (running self).
Definition set_channel (c : list (rx_request T)) (self : Dispatcher) : Dispatcher :=
  mkDispatcher c (world self) (session self) (running self).
Definition set_running (b : bool) (self : Dispatcher) : Dispatcher :=
  mkDispatcher (channel self) (world self) (session self) b.
Definition shutdown (self : Dispatcher) : Dispatcher := set_running false self.

(** ** Applying a handler *)

(** The replies of a socket, as they leave. *)
Definition socket_output (sid : SocketId) (e : effect) : option rx_effect :=
  match e with SendReply r => Some (ToSocket sid r) | _ => None end.
Definition device_output (did : DeviceId) (e : device_effect) : option rx_effect :=
  match e with DeviceAnswer r => Some (ToDevice did r) | DevicePoll _ => None end.
Definition probe_output (pid : ProbeId) (e : probe_effect) : option rx_effect :=
  match e with ProbeAnswer r => Some (ToProbe pid r) | _ => None end.

Definition apply_on_socket (id : SocketId) (f : ∀ E : Env, Socket T → P (Socket T)) (self : Dispatcher) : R Dispatcher := λ _,
  match get_socket_mut id (session self) with
  | None => Done self []
  | Some socket =>
      match f (context_env id (world self)) socket [] with
      | Panicked => Panicked
      | Done socket out =>
          match carry_out id out (world self) with
          | None => Panicked
          | Some w => Done (set_world w (set_session (put_socket id socket (session self)) self))
                           (omap (socket_output id) out)
          end
      end
  end.

Definition on_device (id : DeviceId) (device : Device) (f : Device → D Device) (self : Dispatcher) : R Dispatcher := λ _,
  match f device [] with
  | Panicked => Panicked
  | Done device out =>
      Done (set_world (foldl (λ w e, device_act e w) (world self) out)
              (set_session (put_device id device (session self)) self))
           (omap (device_output id) out)
  end.

Definition apply_on_device (id : DeviceId) (f : Device → D Device) (self : Dispatcher) : R Dispatcher :=
  match get_device_mut id (session self) with
  | Some device => on_device id device f self
  | None => mret self
  end.

Definition apply_on_device_link (id : SocketId) (f : Device → D Device) (self : Dispatcher) : R Dispatcher :=
  match find_device_mut id (session self) with
  | Some (did, device) => on_device did device f self
  | None => mret self
  end.

Definition on_probe (id : ProbeId) (probe : Probe) (f : ∀ E : ProbeEnv, Probe → K Probe) (self : Dispatcher) : R Dispatcher := λ _,
  match f (probe_context_env id (world self)) probe [] with
  | Panicked => Panicked
  | Done probe out =>
      match probe_carry_out id out (world self) with
      | None => Panicked
      | Some w => Done (set_world w (set_session (put_probe id probe (session self)) self)) (omap (probe_output id) out)
      end
  end.

Definition apply_on_probe (id : ProbeId) (f : ∀ E : ProbeEnv, Probe → K Probe) (self : Dispatcher) : R Dispatcher :=
  match get_probe_mut id (session self) with
  | Some probe => on_probe id probe f self
  | None => mret self
  end.

Definition apply_on_probe_link (id : SocketId) (f : ∀ E : ProbeEnv, Probe → K Probe) (self : Dispatcher) : R Dispatcher :=
  match find_probe_mut id (session self) with
  | Some (pid, probe) => on_probe pid probe f self
  | None => mret self
  end.

(** ** Timed tasks *)

Definition process_socket_task (sid : SocketId) (task : Schedulable) (self : Dispatcher) : R Dispatcher :=
  match task with
  | Reconnect eid spec => apply_on_socket sid (λ E, Socket_reconnect eid spec) self
  | Rebind eid spec => apply_on_socket sid (λ E, Socket_rebind eid spec) self
  | TaskSendTimeout => apply_on_socket sid (λ E, Socket_on_send_timeout) self
  | TaskRecvTimeout => apply_on_socket sid (λ E, Socket_on_recv_timeout) self
  | other => apply_on_socket sid (λ E, Socket_on_timer_tick other) self
  end.

Definition process_probe_task (id : ProbeId) (self : Dispatcher) : R Dispatcher :=
  apply_on_probe id (λ E, on_poll_timeout) self.

Definition process_tick (task : Task) (self : Dispatcher) : R Dispatcher :=
  match task with
  | TaskSocket id schedulable => process_socket_task id schedulable self
  | TaskProbe id => process_probe_task id self
  end.

(** ** Readiness *)

Definition with_pipe (eid : EndpointId) (self : Dispatcher)
    (run : PipeC → W → R (PipeC * W)) (controller : PipeC) : R Dispatcher :=
  '(controller, w) ← run controller (world self);
  let eps := endpoints w in
  let eps := mkEndpointCollection (transports eps) (<[eid := controller]> (ep_pipes eps)) (ep_acceptors eps) in
  mret (set_world (with_endpoints (ids w) eps w) self).

Definition with_acceptor (eid : EndpointId) (self : Dispatcher)
    (run : AcceptorC → W → R (AcceptorC * W)) (controller : AcceptorC) : R Dispatcher :=
  '(controller, w) ← run controller (world self);
  let eps := endpoints w in
  let eps := mkEndpointCollection (transports eps) (ep_pipes eps) (<[eid := controller]> (ep_acceptors eps)) in
  mret (set_world (with_endpoints (ids w) eps w) self).

Definition process_io (eid : EndpointId) (events : Ready) (self : Dispatcher) : R Dispatcher :=
  match get_pipe_mut eid (endpoints (world self)) with
  | Some pipe => with_pipe eid self (PipeController_ready events) pipe
  | None =>
      match get_acceptor_mut eid (endpoints (world self)) with
      | Some acceptor => with_acceptor eid self (AcceptorController_ready events) acceptor
      | None => mret self
      end
  end.

(** ** Requests *)

Definition reply_session (r : option (SessionReply * Sequence * Session T)) (self : Dispatcher) : R Dispatcher :=
  '(reply, i, s) ← lift r;
  emit (ToSession reply);;
  mret (set_world (with_endpoints i (endpoints (world self)) (world self)) (set_session s self)).

Definition process_session_request (request : SessionRequest T) (self : Dispatcher) : R Dispatcher :=
  match request with
  | CreateSocket ctor => reply_session (add_socket ctor (ids (world self)) (session self)) self
  | CreateDevice l r =>
      self ← apply_on_socket l (λ E, Socket_on_device_plugged) self;
      self ← apply_on_socket r (λ E, Socket_on_device_plugged) self;
      reply_session (add_device l r (ids (world self)) (session self)) self
  | CreateProbe poll_opts => reply_session (add_probe poll_opts (ids (world self)) (session self)) self
  | Shutdown => mret (shutdown self)
  end.

Definition process_socket_request (id : SocketId) (request : Request) (self : Dispatcher) : R Dispatcher :=
  match request with
  | RequestConnect url => apply_on_socket id (λ E, Socket_connect url) self
  | RequestBind url => apply_on_socket id (λ E, Socket_bind url) self
  | RequestSend msg false => apply_on_socket id (λ E, Socket_send msg) self
  | RequestSend msg true => apply_on_socket id (λ E, Socket_try_send msg) self
  | RequestRecv false => apply_on_socket id (λ E, Socket_recv) self
  | RequestRecv true => apply_on_socket id (λ E, Socket_try_recv) self
  | RequestSetOption x => apply_on_socket id (λ E, Socket_set_option x) self
  | RequestClose => apply_on_socket id (λ E, Socket_close) self
  end.

Definition process_endpoint_request (sid : SocketId) (eid : EndpointId) (request : EndpointRequest) (self : Dispatcher)
    : R Dispatcher :=
  let '(EndpointClose remote) := request in
  apply_on_socket sid (λ E, if remote then close_pipe eid else close_acceptor eid) self.

(** A request to close a device is ignored. *)
Definition process_device_request (id : DeviceId) (request : DeviceRequest) (self : Dispatcher) : R Dispatcher :=
  match request with
  | RequestCheck => apply_on_device id Device_check self
  | RequestDeviceClose => mret self
  end.

(** A probe that is removed is dropped, and says so. *)
Definition process_probe_request (id : ProbeId) (request : ProbeRequest) (self : Dispatcher) : R Dispatcher :=
  match request with
  | RequestPoll timeout => apply_on_probe id (λ E, poll timeout) self
  | RequestProbeClose =>
      let '(dropped, s) := remove_probe id (session self) in
      if_some dropped (λ _, emit (ToProbe id ProbeClosed));;
      mret (set_session s self)
  end.

Definition process_request (request : rx_request T) (self : Dispatcher) : R Dispatcher :=
  match request with
  | ForSession req => process_session_request req self
  | ForSocket id req => process_socket_request id req self
  | ForEndpoint sid eid req => process_endpoint_request sid eid req self
  | ForDevice id req => process_device_request id req self
  | ForProbe id req => process_probe_request id req self
  end.

(** ** Signals *)

Definition process_pipe_cmd (eid : EndpointId) (cmd : PipeCommand) (self : Dispatcher) : R Dispatcher :=
  match get_pipe_mut eid (endpoints (world self)) with
  | Some pipe => with_pipe eid self (PipeController_process cmd) pipe
  | None => mret self
  end.

Definition process_acceptor_cmd (eid : EndpointId) (cmd : AcceptorCommand) (self : Dispatcher) : R Dispatcher :=
  match get_acceptor_mut eid (endpoints (world self)) with
  | Some acceptor => with_acceptor eid self (AcceptorController_process cmd) acceptor
  | None => mret self
  end.

Definition process_socket_cmd (id : SocketId) (cmd : Command) (self : Dispatcher) : R Dispatcher :=
  match cmd with Poll => apply_on_socket id (λ E, Socket_poll) self end.

Definition process_pipe_evt (sid : SocketId) (eid : EndpointId) (evt : PipeEvent) (self : Dispatcher) : R Dispatcher :=
  match evt with
  | Opened => apply_on_socket sid (λ E, on_pipe_opened eid) self
  | AsyncPipe.CanSend x => apply_on_socket sid (λ E, Socket_on_send_ready eid x) self
  | Sent => apply_on_socket sid (λ E, Socket_on_send_ack eid) self
  | AsyncPipe.CanRecv x => apply_on_socket sid (λ E, Socket_on_recv_ready eid x) self
  | Received msg => apply_on_socket sid (λ E, Socket_on_recv_ack eid msg) self
  | PipeError err => apply_on_socket sid (λ E, on_pipe_error eid err) self
  | AsyncPipe.Closed =>
      let w := world self in
      mret (set_world (with_endpoints (ids w) (ep_remove_pipe eid (endpoints w)) w) self)
  end.

Fixpoint accept_pipes (sid : SocketId) (aid : EndpointId) (pipes : list Pp) (self : Dispatcher) : R Dispatcher :=
  match pipes with
  | [] => mret self
  | pipe :: rest =>
      let w := world self in
      '(pipe_id, i, eps) ← lift (insert_pipe sid pipe (ids w) (endpoints w));
      self ← apply_on_socket sid (λ E, on_pipe_accepted aid pipe_id) (set_world (with_endpoints i eps w) self);
      accept_pipes sid aid rest self
  end.

Definition process_acceptor_evt (sid : SocketId) (aid : EndpointId) (evt : AcceptorEvent Pp) (self : Dispatcher) : R Dispatcher :=
  match evt with
  | AcceptorError e => apply_on_socket sid (λ E, on_acceptor_error aid e) self
  | Accepted pipes => accept_pipes sid aid pipes self
  | _ => mret self
  end.

Definition process_socket_evt (sid : SocketId) (evt : Event) (self : Dispatcher) : R Dispatcher :=
  match evt with
  | Core.CanRecv x =>
      self ← apply_on_device_link sid (Device_on_socket_can_recv sid x) self;
      apply_on_probe_link sid (λ E, on_socket_can_recv sid x) self
  | Core.CanSend x => apply_on_probe_link sid (λ E, on_socket_can_send sid x) self
  | Core.Closed => mret (set_session (remove_socket sid (session self)) self)
  end.

Definition process_signal (signal : Signal Pp) (self : Dispatcher) : R Dispatcher :=
  match signal with
  | PipeCmd _ eid cmd => process_pipe_cmd eid cmd self
  | AcceptorCmd _ eid cmd => process_acceptor_cmd eid cmd self
  | SocketCmd sid cmd => process_socket_cmd sid cmd self
  | PipeEvt sid eid evt => process_pipe_evt sid eid evt self
  | AcceptorEvt sid eid evt => process_acceptor_evt sid eid evt self
  | SocketEvt sid evt => process_socket_evt sid evt self
  end.

(** ** One turn of each loop

    The body of the loops of [process_channel], [process_bus] and [process_timer]:
    [false] when there is nothing left. *)

Definition channel_turn (self : Dispatcher) : R (bool * Dispatcher) :=
  match channel self with
  | [] => mret (false, self)
  | req :: rest => self ← process_request req (set_channel rest self); mret (true, self)
  end.

Definition bus_turn (self : Dispatcher) : R (bool * Dispatcher) :=
  let '(signal, bus) := bus_recv (signal_tx (world self)) in
  let self := set_world (with_bus bus (world self)) self in
  match signal with
  | None => mret (false, self)
  | Some signal => self ← process_signal signal self; mret (true, self)
  end.

(** [now] is when the timer is polled. *)
Definition timer_turn (now : Z) (self : Dispatcher) : R (bool * Dispatcher) :=
  let w := world self in
  let '(task, t) := timer_poll now (timer w) in
  let self := set_world (with_schedule (schedule w) t w) self in
  match task with
  | None => mret (false, self)
  | Some task => self ← process_tick task self; mret (true, self)
  end.

(** The loops; [fuel] bounds their turns, [false] says that it ran out. *)
Fixpoint turns (turn : Dispatcher → R (bool * Dispatcher)) (fuel : nat) (self : Dispatcher) : R (bool * Dispatcher) :=
  match fuel with
  | O => mret (false, self)
  | S fuel =>
      '(more, self) ← turn self;
      if (more : bool) then turns turn fuel self else mret (true, self)
  end.

Definition process_channel : nat → Dispatcher → R (bool * Dispatcher) := turns channel_turn.
Definition process_bus : nat → Dispatcher → R (bool * Dispatcher) := turns bus_turn.
Definition process_timer (now : Z) : nat → Dispatcher → R (bool * Dispatcher) := turns (timer_turn now).

(** ** Events of the poll *)

Definition usize_max : Z := 2 ^ 64 - 1.
Definition CHANNEL_TOKEN : Z := usize_max - 1.
Definition BUS_TOKEN : Z := usize_max - 2.
Definition TIMER_TOKEN : Z := usize_max - 3.

Definition handle (fuel : nat) (now token : Z) (events : Ready) (self : Dispatcher) : R (bool * Dispatcher) :=
  if bool_decide (token = CHANNEL_TOKEN) then process_channel fuel self
  else if bool_decide (token = BUS_TOKEN) then process_bus fuel self
  else if bool_decide (token = TIMER_TOKEN) then process_timer now fuel self
  else self ← process_io (EndpointId_from token) events self; mret (true, self).

(** ** The event loop (event_loop.rs)

    What a poll answers: the requests that came on the channel meanwhile, the time,
    and the events. *)

Record PollAnswer : Type := mkPollAnswer {
  arrived : list (rx_request T);
  poll_time : Z;
  poll_events : result (list (Z * Ready))
}.

Fixpoint process_events (fuel : nat) (now : Z) (events : list (Z * Ready)) (self : Dispatcher) : R (bool * Dispatcher) :=
  match events with
  | [] => mret (true, self)
  | (token, readiness) :: rest =>
      '(whole, self) ← handle fuel now token readiness self;
      if (whole : bool) then process_events fuel now rest self else mret (false, self)
  end.

Definition run_once (fuel : nat) (answer : PollAnswer) (self : Dispatcher) : R (result bool * Dispatcher) :=
  let self := set_channel (channel self ++ arrived answer) self in
  match poll_events answer with
  | Ok events => '(whole, self) ← process_events fuel (poll_time answer) events self; mret (Ok whole, self)
  | Err err =>
      if bool_decide (err_kind err = KInterrupted) then
        '(whole, self) ← process_events fuel (poll_time answer) [] self; mret (Ok whole, self)
      else mret (Err err, self)
  end.

(** The [while] loop, as long as the poll answers. *)
Fixpoint EventLoop_while (fuel : nat) (answers : list PollAnswer) (self : Dispatcher) : R (result () * Dispatcher) :=
  match answers with
  | [] => mret (Ok (), self)
  | answer :: rest =>
      if running self then
        '(res, self) ← run_once fuel answer self;
        match res with
        | Ok true => EventLoop_while fuel rest self
        | Ok false => mret (Ok (), self)
        | Err e => mret (Err e, self)
        end
      else mret (Ok (), self)
  end.

Definition EventLoop_run (fuel : nat) (answers : list PollAnswer) (self : Dispatcher) : R (result () * Dispatcher) :=
  EventLoop_while fuel answers (set_running true self).

(** [Dispatcher::run]; [polls] is what the poll answers to the three registrations. *)
Definition Dispatcher_run (polls : result () * result () * result ()) (fuel : nat) (answers : list PollAnswer) (self : Dispatcher)
    : R (result () * Dispatcher) :=
  let '(for_channel, for_bus, for_timer) := polls in
  match for_channel with
  | Err e => mret (Err e, self)
  | Ok _ =>
      let '(res, bus) := bus_register for_bus (signal_tx (world self)) in
      let self := set_world (with_bus bus (world self)) self in
      match res, for_timer with
      | Err e, _ => mret (Err e, self)
      | _, Err e => mret (Err e, self)
      | Ok _, Ok _ => EventLoop_run fuel answers self
      end
  end.

(** ** Steps

    Whatever the loops do is a sequence of these. *)

Inductive rx_input : Type :=
| Arrive (reqs : list (rx_request T))
| TurnChannel
| TurnBus
| TurnTimer (now : Z)
| TurnIo (eid : EndpointId) (events : Ready).

Definition rx_step (i : rx_input) (self : Dispatcher) : R Dispatcher :=
  match i with
  | Arrive reqs => mret (set_channel (channel self ++ reqs) self)
  | TurnChannel => '(_, self) ← channel_turn self; mret self
  | TurnBus => '(_, self) ← bus_turn self; mret self
  | TurnTimer now => '(_, self) ← timer_turn now self; mret self
  | TurnIo eid events => process_io eid events self
  end.

Fixpoint rx_run (ins : list rx_input) (self : Dispatcher) : R Dispatcher :=
  match ins with
  | [] => mret self
  | i :: rest => self ← rx_step i self; rx_run rest self
  end.

(** [m] is a sequence of steps. *)
Definition stepwise {A} (m : R (A * Dispatcher)) (self : Dispatcher) : Prop :=
  ∀ h, ∃ ins, rx_run ins self h = outcome_map snd (m h).

Lemma rx_run_app ins1 ins2 self h :
  rx_run (ins1 ++ ins2) self h = (self ← rx_run ins1 self; rx_run ins2 self) h.
Proof.
  revert self h. induction ins1 as [|i ins1 IH]; intros self h.
  - cbn [app rx_run]. rewrite bind_run, ret_run, app_nil_r. by destruct (rx_run ins2 self h).
  - cbn [app rx_run]. rewrite !bind_run. destruct (rx_step i self h) as [s1 o1|]; [|done].
    rewrite IH, bind_run. destruct (rx_run ins1 s1 (h ++ o1)) as [s2 o2|]; [|done].
    rewrite <- app_assoc. destruct (rx_run ins2 s2 (h ++ o1 ++ o2)); [by rewrite app_assoc|done].
Qed.

Lemma stepwise_ret {A} (a : A) self : stepwise (mret (a, self)) self.
Proof. intros h. by exists []. Qed.

Lemma stepwise_bind {A B} (m : R (A * Dispatcher)) (k : A * Dispatcher → R (B * Dispatcher)) self :
  stepwise m self → (∀ a self', stepwise (k (a, self')) self') → stepwise (m ≫= k) self.
Proof.
  intros Hm Hk h. destruct (Hm h) as [ins1 Hi1]. rewrite bind_run.
  destruct (m h) as [[a s1] o1|] eqn:Hmh; cbn [outcome_map snd] in Hi1; [|by exists ins1].
  destruct (Hk a s1 (h ++ o1)) as [ins2 Hi2]. exists (ins1 ++ ins2).
  rewrite rx_run_app, bind_run, Hi1, Hi2. by destruct (k (a, s1) (h ++ o1)) as [[b s2] o2|].
Qed.

(** One step, whose result says more. *)
Lemma stepwise_step {A} i (m : R (A * Dispatcher)) self :
  (∀ h, rx_step i self h = outcome_map snd (m h)) → stepwise m self.
Proof.
  intros Hi h. exists [i]. cbn [rx_run]. rewrite bind_run, Hi.
  destruct (m h) as [[a s] o|]; [|done]. cbn. by rewrite app_nil_r.
Qed.

Lemma turn_step {A} (m : R (A * Dispatcher)) h : ('(_, self) ← m; mret self) h = outcome_map snd (m h).
Proof. rewrite bind_run. destruct (m h) as [[a s] o|]; [|done]. cbn. by rewrite app_nil_r. Qed.

Lemma turns_stepwise turn i fuel self :
  (∀ self h, rx_step i self h = outcome_map snd (turn self h)) → stepwise (turns turn fuel self) self.
Proof.
  intros Hi. revert self. induction fuel as [|fuel IH]; intros self; cbn [turns]; [apply stepwise_ret|].
  apply stepwise_bind; [by apply (stepwise_step i)|]. intros [] s; [apply IH|apply stepwise_ret].
Qed.

Lemma handle_stepwise fuel now token events self : stepwise (handle fuel now token events self) self.
Proof.
  unfold handle, process_channel, process_bus, process_timer. repeat case_bool_decide.
  - apply (turns_stepwise _ TurnChannel). intros s h. apply turn_step.
  - apply (turns_stepwise _ TurnBus). intros s h. apply turn_step.
  - apply (turns_stepwise _ (TurnTimer now)). intros s h. apply turn_step.
  - apply (stepwise_step (TurnIo (EndpointId_from token) events)). intros h. cbn [rx_step].
    rewrite bind_run. destruct (process_io _ events self h) as [s o|]; [|done]. cbn. by rewrite app_nil_r.
Qed.

Lemma process_events_stepwise fuel now events self : stepwise (process_events fuel now events self) self.
Proof.
  revert self. induction events as [|[token readiness] events IH]; intros self; cbn [process_events]; [apply stepwise_ret|].
  apply stepwise_bind; [apply handle_stepwise|]. intros [] s; [apply IH|apply stepwise_ret].
Qed.

Lemma arrive_stepwise {A} reqs (m : Dispatcher → R (A * Dispatcher)) self :
  (∀ self, stepwise (m self) self) → stepwise (m (set_channel (channel self ++ reqs) self)) self.
Proof.
  intros Hm h. destruct (Hm (set_channel (channel self ++ reqs) self) h) as [ins Hins].
  exists (Arrive reqs :: ins). cbn [rx_run rx_step]. rewrite bind_run, ret_run, app_nil_r, Hins.
  by destruct (m _ h).
Qed.

Lemma run_once_stepwise fuel answer self : stepwise (run_once fuel answer self) self.
Proof.
  apply (arrive_stepwise (arrived answer) (λ self,
    match poll_events answer with
    | Ok events => '(whole, self) ← process_events fuel (poll_time answer) events self; mret (Ok whole, self)
    | Err err =>
        if bool_decide (err_kind err = KInterrupted) then
          '(whole, self) ← process_events fuel (poll_time answer) [] self; mret (Ok whole, self)
        else mret (Err err, self)
    end)). intros s.
  assert (Hev : ∀ evs, stepwise ('(whole, self) ← process_events fuel (poll_time answer) evs s; mret (Ok whole, self)) s).
  { intros evs. apply stepwise_bind; [apply process_events_stepwise|]. intros a s'. apply stepwise_ret. }
  destruct (poll_events answer) as [events|err]; [apply Hev|]. case_bool_decide; [apply Hev|apply stepwise_ret].
Qed.

Lemma EventLoop_stepwise fuel answers self : stepwise (EventLoop_while fuel answers self) self.
Proof.
  revert self. induction answers as [|answer answers IH]; intros self; cbn [EventLoop_while]; [apply stepwise_ret|].
  destruct (running self); [|apply stepwise_ret].
  apply stepwise_bind; [apply run_once_stepwise|]. intros [[]|e] s; [apply IH|apply stepwise_ret..].
Qed.

(** ** What every step leaves as it is

    [I] depends on the channel and on which sockets there are, at most. *)

Definition sockets_stay (s s' : Session T) : Prop :=
  ∀ sid, is_Some (get_socket_mut sid s) → is_Some (get_socket_mut sid s').

Section preserved.
Variable I : Dispatcher → Prop.
Hypothesis I_world : ∀ w d, I d → I (set_world w d).
Hypothesis I_running : ∀ b d, I d → I (set_running b d).
Hypothesis I_session : ∀ s d, sockets_stay (session d) s → I d → I (set_session s d).

Abbreviation holds m := (runs (λ _ : rx_effect, True) I m).

Lemma holds_ret d : I d → holds (mret d).
Proof. apply runs_ret. Qed.

Lemma holds_bind (m : R Dispatcher) (k : Dispatcher → R Dispatcher) :
  holds m → (∀ d, I d → holds (k d)) → holds (d ← m; k d).
Proof. apply runs_bind. Qed.

Lemma put_socket_stays id s (self : Session T) : sockets_stay self (put_socket id s self).
Proof.
  intros sid [x Hx]. unfold get_socket_mut, SocketCollection_get_socket_mut in *. cbn [put_socket ses_sockets sockets] in *.
  destruct (decide (sid = id)) as [->|Hne]; [rewrite lookup_insert_eq; by eexists|rewrite lookup_insert_ne by done; by eexists].
Qed.

Lemma holds_socket id f d : I d → holds (apply_on_socket id f d).
Proof.
  intros HI h d' out. unfold apply_on_socket. destruct (get_socket_mut id _); [|intros [= <- <-]; split; [by apply Forall_true|done]].
  destruct (f _ _ _); [|done]. destruct (carry_out _ _ _); [|done]. intros [= <- <-]. split; [by apply Forall_true|].
  apply I_world, I_session; [apply put_socket_stays|done].
Qed.

Lemma holds_probe id p f d : I d → holds (on_probe id p f d).
Proof.
  intros HI h d' out. unfold on_probe. destruct (f _ _ _); [|done]. destruct (probe_carry_out _ _ _); [|done].
  intros [= <- <-]. split; [by apply Forall_true|apply I_world, I_session; [by intros ?|done]].
Qed.

Lemma holds_device id x f d : I d → holds (on_device id x f d).
Proof.
  intros HI h d' out. unfold on_device. destruct (f _ _); [|done]. intros [= <- <-].
  split; [by apply Forall_true|apply I_world, I_session; [by intros ?|done]].
Qed.

Lemma holds_reply r d : I d → (∀ rep i s, r = Some (rep, i, s) → sockets_stay (session d) s) → holds (reply_session r d).
Proof.
  intros HI Hs. unfold reply_session. apply (runs_bind _ (λ x, sockets_stay (session d) x.2)); [by apply runs_lift; intros [[]] ?; eapply Hs|].
  intros [[rep i] s] Hstay. apply every_bind; [by apply runs_emit|]. intros _. apply runs_ret. by apply I_world, I_session.
Qed.

Lemma holds_session_request req d : I d → holds (process_session_request req d).
Proof.
  intros HI. destruct req as [ctor|l r|opts|]; cbn [process_session_request].
  - apply holds_reply; [done|]. intros rep i s. unfold add_socket, SocketCollection_add. destruct (Sequence_next _) as [[n i']|]; [|done].
    intros [= _ _ <-]. intros sid [x Hx]. unfold get_socket_mut, SocketCollection_get_socket_mut in *. cbn [ses_sockets sockets] in *.
    destruct (decide (sid = SocketId_from n)) as [->|Hne]; [rewrite lookup_insert_eq; by eexists|rewrite lookup_insert_ne by done; by eexists].
  - apply holds_bind; [by apply holds_socket|]. intros d1 HI1. apply holds_bind; [by apply holds_socket|]. intros d2 HI2.
    apply holds_reply; [done|]. intros rep i s. unfold add_device, DeviceCollection_add. destruct (Sequence_next _) as [[n i']|]; [|done].
    intros [= _ _ <-]. by intros ?.
  - apply holds_reply; [done|]. intros rep i s. unfold add_probe, ProbeCollection_add. destruct (Sequence_next _) as [[n i']|]; [|done].
    intros [= _ _ <-]. by intros ?.
  - apply runs_ret. by apply I_running.
Qed.

Lemma holds_request req d : I d → holds (process_request req d).
Proof.
  intros HI. destruct req as [req|sid req|sid eid [remote]|did []|pid [delay|]]; cbn [process_request].
  - by apply holds_session_request.
  - destruct req as [u|u|msg []|[]|o|]; by apply holds_socket.
  - by apply holds_socket.
  - cbn. unfold apply_on_device. destruct (get_device_mut did _); [by apply holds_device|by apply runs_ret].
  - by apply runs_ret.
  - cbn. unfold apply_on_probe. destruct (get_probe_mut pid _); [by apply holds_probe|by apply runs_ret].
  - cbn. unfold remove_probe. destruct (ProbeCollection_remove pid _) as [dropped s].
    apply every_bind; [|intros _; apply runs_ret; by apply I_session; [intros ?|]]. apply every_if_some. intros p _. by apply runs_emit.
Qed.

Lemma holds_endpoint {X} (run : X → W → R (X * W)) (c : X) (put : EndpointId → X → EndpointCollection → EndpointCollection) eid d :
  I d → holds ('(c, w) ← run c (world d); let eps := endpoints w in
    mret (set_world (with_endpoints (ids w) (put eid c eps) w) d)).
Proof. intros HI. apply every_bind; [by intros h a o _; split; [by apply Forall_true|]|]. intros [x w]. apply runs_ret. by apply I_world. Qed.

Lemma holds_io eid events d : I d → holds (process_io eid events d).
Proof.
  intros HI. unfold process_io. destruct (get_pipe_mut eid _) as [p|]; [|destruct (get_acceptor_mut eid _) as [a|]; [|by apply runs_ret]].
  - by apply (holds_endpoint _ p (λ eid c eps, mkEndpointCollection (transports eps) (<[eid := c]> (ep_pipes eps)) (ep_acceptors eps))).
  - by apply (holds_endpoint _ a (λ eid c eps, mkEndpointCollection (transports eps) (ep_pipes eps) (<[eid := c]> (ep_acceptors eps)))).
Qed.

Lemma holds_accept sid aid pipes d : I d → holds (accept_pipes sid aid pipes d).
Proof.
  revert d. induction pipes as [|p pipes IH]; intros d HI; cbn [accept_pipes]; [by apply runs_ret|].
  apply every_bind; [by apply runs_lift|]. intros [[pid i] eps]. apply holds_bind; [|exact IH].
  apply holds_socket. by apply I_world.
Qed.

Lemma holds_signal s d :
  I d → (∀ sid, s = SocketEvt sid Core.Closed → I (set_session (remove_socket sid (session d)) d)) → holds (process_signal s d).
Proof.
  intros HI Hclosed. destruct s as [sid eid cmd|sid eid evt|sid eid cmd|sid eid evt|sid []|sid evt]; cbn [process_signal].
  - unfold process_pipe_cmd. destruct (get_pipe_mut eid _) as [p|]; [|by apply runs_ret].
    by apply (holds_endpoint _ p (λ eid c eps, mkEndpointCollection (transports eps) (<[eid := c]> (ep_pipes eps)) (ep_acceptors eps))).
  - destruct evt; try (by apply holds_socket). apply runs_ret. by apply I_world.
  - unfold process_acceptor_cmd. destruct (get_acceptor_mut eid _) as [a|]; [|by apply runs_ret].
    by apply (holds_endpoint _ a (λ eid c eps, mkEndpointCollection (transports eps) (ep_pipes eps) (<[eid := c]> (ep_acceptors eps)))).
  - destruct evt; try (by apply runs_ret); [by apply holds_accept|by apply holds_socket].
  - by apply holds_socket.
  - assert (Hlink : ∀ f d, I d → holds (apply_on_probe_link sid f d)).
    { intros f d1 HI1. unfold apply_on_probe_link. destruct (find_probe_mut sid _) as [[]|]; [by apply holds_probe|by apply runs_ret]. }
    destruct evt; cbn [process_socket_evt].
    + by apply Hlink.
    + apply holds_bind; [|by intros; apply Hlink]. unfold apply_on_device_link.
      destruct (find_device_mut sid _) as [[]|]; [by apply holds_device|by apply runs_ret].
    + apply runs_ret. by apply Hclosed.
Qed.

Lemma holds_tick task d : I d → holds (process_tick task d).
Proof.
  intros HI. destruct task as [sid []|pid]; try (by apply holds_socket). cbn. unfold process_probe_task, apply_on_probe.
  destruct (get_probe_mut pid _); [by apply holds_probe|by apply runs_ret].
Qed.

Lemma holds_turn i (turn : R (bool * Dispatcher)) d :
  (∀ h, rx_step i d h = outcome_map snd (turn h)) → runs (λ _ : rx_effect, True) (λ bd, I bd.2) turn → holds (rx_step i d).
Proof.
  intros Hi Hturn h d' out. rewrite Hi. destruct (turn h) as [[b x] o|] eqn:Hrun; [|done]. intros [= <- <-].
  exact (Hturn _ _ _ Hrun).
Qed.

(** A step, from where it starts. *)
Lemma holds_step i d :
  match i with
  | Arrive reqs => I (set_channel (channel d ++ reqs) d)
  | TurnChannel => match channel d with [] => I d | _ :: rest => I (set_channel rest d) end
  | _ => I d
  end →
  (∀ sid bus, i = TurnBus → bus_recv (signal_tx (world d)) = (Some (SocketEvt sid Core.Closed), bus) →
    let d := set_world (with_bus bus (world d)) d in I (set_session (remove_socket sid (session d)) d)) →
  holds (rx_step i d).
Proof.
  intros HI Hclosed. destruct i as [reqs| | |now|eid events].
  - by apply runs_ret.
  - apply (holds_turn TurnChannel (channel_turn d)); [intros; apply turn_step|]. unfold channel_turn.
    destruct (channel d) as [|req rest]; [by apply runs_ret|].
    apply (runs_bind _ I); [by apply holds_request|]. intros d1 HI1. by apply runs_ret.
  - apply (holds_turn TurnBus (bus_turn d)); [intros; apply turn_step|]. unfold bus_turn.
    destruct (bus_recv (signal_tx (world d))) as [[s|] bus]; [|apply runs_ret; by apply I_world].
    apply (runs_bind _ I); [|intros d1 HI1; by apply runs_ret]. apply holds_signal; [by apply I_world|].
    intros sid ->. by apply Hclosed.
  - apply (holds_turn (TurnTimer now) (timer_turn now d)); [intros; apply turn_step|]. unfold timer_turn.
    destruct (timer_poll now (timer (world d))) as [[task|] tm]; [|apply runs_ret; by apply I_world].
    apply (runs_bind _ I); [by apply holds_tick, I_world|]. intros d1 HI1. by apply runs_ret.
  - by apply holds_io.
Qed.

End preserved.

(** ** The loop over the channel

    Processing a request leaves those that wait where they are. *)

Lemma process_request_leaves req d : runs (λ _ : rx_effect, True) (λ d', channel d' = channel d) (process_request req d).
Proof. by apply (holds_request (λ d', channel d' = channel d)). Qed.

(** The requests, one after the other. *)
Fixpoint process_all (reqs : list (rx_request T)) (self : Dispatcher) : R Dispatcher :=
  match reqs with
  | [] => mret self
  | req :: rest => self ← process_request req (set_channel rest self); process_all rest self
  end.


End dispatcher.


(** ** A small reactor for examples: pipes that deliver what they hold *)

Definition ex_pipe_raise (evt : PipeEvent) : Q () := emit (AsyncPipe.Raise evt).
#[local] Instance ex_pipes : PipeTrait (list Message) := {|
  pipe_ready _ p := mret p;
  pipe_open p := ex_pipe_raise Opened;; ex_pipe_raise (AsyncPipe.CanRecv true);; mret p;
  pipe_close p := ex_pipe_raise AsyncPipe.Closed;; mret p;
  pipe_send _ p := ex_pipe_raise Sent;; mret p;
  pipe_recv p := match p with [] => mret p | m :: p => ex_pipe_raise (Received m);; mret p end
|}.
#[local] Instance ex_acceptors : AcceptorTrait (list Message) () := {|
  acceptor_ready _ a := mret a; acceptor_open a := mret a; acceptor_close a := mret a |}.
#[local] Instance ex_transport : Transport () (list Message) () () := {|
  transport_connect _ _ n := (Ok [from_body [42]], n); transport_bind _ _ n := (Ok (), n) |}.
#[local] Instance ex_build : Build := {| overflow_checks := true |}.
#[local] Instance ex_order : HashOrder := {|
  order_set _ s := elements s; order_map _ _ m := map_to_list m;
  order_set_perm _ _ := reflexivity _; order_map_perm _ _ _ := reflexivity _ |}.

#[local] Instance ex_timer : Timer () () := {|
  set_timeout _ _ t := ((), t); cancel_timeout _ t := t; timer_poll _ t := (None, t) |}.

Definition ex_waiting : @Dispatcher () (list Message) () () () () Pull :=
  set_channel [ForSession (CreateSocket Pull_from); ForSocket (SocketId_from 0) (RequestSetOption (RecvTimeout (Some 7)));
               ForSocket (SocketId_from 9) (RequestRecv true); ForSocket (SocketId_from 0) (RequestRecv true); ForSession Shutdown]
    (set_running true (Dispatcher_new ∅ () ())).

