(* ===== verification/Facade.v ===== *)
(** * The facade (src/facade)

    What an application calls: each function sends one request to the thread of the
    reactor and waits for the reply.  A program of the application is a [client]:
    it sends requests, awaits replies and goes on with what it got.  The channels
    are those of the standard library and of mio-extras: sending and receiving fail
    once the other side is gone. *)

From S2P Require Import Prelude Core Context Socket Probe Device Session Acceptor Adapter Dispatcher.

(** ** Channels *)

(** [mio_extras::channel::SendError] *)
Inductive SendError : Type :=
| SendIo (e : io_error)
| Disconnected.

Definition from_send_error (send_error : SendError) : io_error :=
  match send_error with
  | SendIo e => e
  | Disconnected => other_io_error "channel closed"
  end.

Definition receive {A} (answer : option A) : result A :=
  match answer with
  | Some t => Ok t
  | None => Err (other_io_error "evt channel closed")
  end.

(** ** Programs of the application *)

Section client.
Context {T : Type}.

(** [SendRequest]: sending on the channel of mio-extras, [None] when it went well;
    the others: receiving on the channel of a session, socket, device or probe,
    [None] when it is closed. *)
Inductive client (A : Type) : Type :=
| Return (a : A)
| SendRequest (req : rx_request T) (k : option SendError → client A)
| AwaitSession (k : option SessionReply → client A)
| AwaitSocket (sid : SocketId) (k : option Reply → client A)
| AwaitDevice (did : DeviceId) (k : option DeviceReply → client A)
| AwaitProbe (pid : ProbeId) (k : option ProbeReply → client A).

End client.
Arguments client T A : clear implicits.
Arguments Return {T A} a.
Arguments SendRequest {T A} req k.
Arguments AwaitSession {T A} k.
Arguments AwaitSocket {T A} sid k.
Arguments AwaitDevice {T A} did k.
Arguments AwaitProbe {T A} pid k.

#[export] Instance client_ret {T} : MRet (client T) := λ A a, Return a.
#[export] Instance client_bind {T} : MBind (client T) := λ A B f,
  fix bind c := match c with
  | Return a => f a
  | SendRequest req k => SendRequest req (λ r, bind (k r))
  | AwaitSession k => AwaitSession (λ r, bind (k r))
  | AwaitSocket sid k => AwaitSocket sid (λ r, bind (k r))
  | AwaitDevice did k => AwaitDevice did (λ r, bind (k r))
  | AwaitProbe pid k => AwaitProbe pid (λ r, bind (k r))
  end.

(** [Result::and_then], and [?]: an error ends the function. *)
Definition and_then {T A B} (m : client T (result A)) (f : A → client T (result B)) : client T (result B) :=
  r ← m; match r with Ok a => f a | Err e => mret (Err e) end.

Definition and_then_pure {T A B} (m : client T (result A)) (f : A → result B) : client T (result B) :=
  and_then m (λ a, mret (f a)).

Definition unexpected_reply {A} : result A := Err (other_io_error "unexpected reply").

Section facade.
Context {T : Type}.
Abbreviation C A := (client T A).

(** The [send] of every [RequestSender]. *)
Definition send_request (req : rx_request T) : C (result ()) :=
  SendRequest req (λ r, Return (match r with None => Ok () | Some e => Err (from_send_error e) end)).

(** ** endpoint.rs *)

Record FacadeEndpoint : Type := mkFacadeEndpoint { ep_sid : SocketId; ep_eid : EndpointId; ep_remote : bool }.

Definition FacadeEndpoint_close (self : FacadeEndpoint) : C (result ()) :=
  send_request (ForEndpoint (ep_sid self) (ep_eid self) (EndpointClose (ep_remote self))).

(** ** socket.rs *)

Record FacadeSocket : Type := mkFacadeSocket { fs_id : SocketId }.

Definition create_poll_req (recv send : bool) (self : FacadeSocket) : PollReq := mkPollReq (fs_id self) recv send.

Definition socket_send_request (req : Request) (self : FacadeSocket) : C (result ()) := send_request (ForSocket (fs_id self) req).
Definition socket_recv_reply (self : FacadeSocket) : C (result Reply) := AwaitSocket (fs_id self) (λ r, Return (receive r)).
Definition socket_execute_request (req : Request) (self : FacadeSocket) : C (result Reply) :=
  and_then (socket_send_request req self) (λ _, socket_recv_reply self).
Definition socket_call {A} (req : Request) (process : Reply → result A) (self : FacadeSocket) : C (result A) :=
  and_then_pure (socket_execute_request req self) process.

Definition on_connect_reply (reply : Reply) (self : FacadeSocket) : result FacadeEndpoint :=
  match reply with
  | ReplyConnect id => Ok (mkFacadeEndpoint (fs_id self) id true)
  | ReplyErr e => Err e
  | _ => unexpected_reply
  end.

Definition on_bind_reply (reply : Reply) (self : FacadeSocket) : result FacadeEndpoint :=
  match reply with
  | ReplyBind id => Ok (mkFacadeEndpoint (fs_id self) id false)
  | ReplyErr e => Err e
  | _ => unexpected_reply
  end.

Definition on_send_reply (reply : Reply) : result () :=
  match reply with ReplySend => Ok () | ReplyErr e => Err e | _ => unexpected_reply end.
Definition on_recv_reply (reply : Reply) : result Message :=
  match reply with ReplyRecv msg => Ok msg | ReplyErr e => Err e | _ => unexpected_reply end.
Definition on_set_option_reply (reply : Reply) : result () :=
  match reply with ReplySetOption => Ok () | ReplyErr e => Err e | _ => unexpected_reply end.

Definition connect (url : string) (self : FacadeSocket) : C (result FacadeEndpoint) :=
  socket_call (RequestConnect url) (λ reply, on_connect_reply reply self) self.
Definition bind (url : string) (self : FacadeSocket) : C (result FacadeEndpoint) :=
  socket_call (RequestBind url) (λ reply, on_bind_reply reply self) self.

Definition send_msg (msg : Message) (self : FacadeSocket) : C (result ()) :=
  socket_call (RequestSend msg false) on_send_reply self.
Definition send (buffer : bytes) (self : FacadeSocket) : C (result ()) := send_msg (from_body buffer) self.
Definition try_send_msg (msg : Message) (self : FacadeSocket) : C (result ()) :=
  socket_call (RequestSend msg true) on_send_reply self.
Definition try_send (buffer : bytes) (self : FacadeSocket) : C (result ()) := try_send_msg (from_body buffer) self.

Definition recv_msg (self : FacadeSocket) : C (result Message) := socket_call (RequestRecv false) on_recv_reply self.
Definition recv (self : FacadeSocket) : C (result bytes) :=
  and_then_pure (recv_msg self) (λ msg, Ok (Message_into_vec msg)).
Definition try_recv_msg (self : FacadeSocket) : C (result Message) := socket_call (RequestRecv true) on_recv_reply self.
Definition try_recv (self : FacadeSocket) : C (result bytes) :=
  and_then_pure (try_recv_msg self) (λ msg, Ok (Message_into_vec msg)).

Definition facade_set_option (cfg_opt : ConfigOption) (self : FacadeSocket) : C (result ()) :=
  socket_call (RequestSetOption cfg_opt) on_set_option_reply self.
Definition set_send_timeout (timeout : option Duration) : FacadeSocket → C (result ()) := facade_set_option (SendTimeout timeout).
Definition set_recv_timeout (timeout : option Duration) : FacadeSocket → C (result ()) := facade_set_option (RecvTimeout timeout).
Definition set_send_priority (priority : Z) : FacadeSocket → C (result ()) := facade_set_option (SendPriority priority).
Definition set_recv_priority (priority : Z) : FacadeSocket → C (result ()) := facade_set_option (RecvPriority priority).
Definition set_tcp_nodelay (value : bool) : FacadeSocket → C (result ()) := facade_set_option (TcpNoDelay value).

(** [Drop]: both results are ignored. *)
Definition FacadeSocket_drop (self : FacadeSocket) : C () :=
  _ ← socket_send_request RequestClose self;
  _ ← socket_recv_reply self;
  mret ().

(** ** device.rs *)

Record Bridge : Type := mkBridge { bridge_id : DeviceId; bridge_left : FacadeSocket; bridge_right : FacadeSocket }.

Inductive FacadeDevice : Type :=
| RelayDevice (socket : FacadeSocket)
| BridgeDevice (bridge : Bridge).

Definition device_send_request (req : DeviceRequest) (self : Bridge) : C (result ()) := send_request (ForDevice (bridge_id self) req).
Definition device_recv_reply (self : Bridge) : C (result DeviceReply) := AwaitDevice (bridge_id self) (λ r, Return (receive r)).
Definition device_execute_request (req : DeviceRequest) (self : Bridge) : C (result DeviceReply) :=
  and_then (device_send_request req self) (λ _, device_recv_reply self).

Definition forward_msg (from to : FacadeSocket) : C (result ()) := and_then (recv_msg from) (λ msg, send_msg msg to).

Definition exchange_msg (left right : FacadeSocket) : C (result ()) :=
  and_then (recv_msg left) (λ from_left,
  and_then (recv_msg right) (λ from_right,
  and_then (send_msg from_left right) (λ _, send_msg from_right left))).

Definition Bridge_run_once (self : Bridge) : C (result ()) :=
  let left := bridge_left self in
  let right := bridge_right self in
  and_then (device_execute_request RequestCheck self) (λ reply,
    match reply with
    | DeviceCheck l r =>
        match l, r with
        | true, true => exchange_msg left right
        | true, _ => forward_msg left right
        | _, true => forward_msg right left
        | _, _ => mret (Ok ())
        end
    | _ => mret unexpected_reply
    end).

Definition Bridge_drop (self : Bridge) : C () :=
  _ ← device_send_request RequestDeviceClose self;
  _ ← device_recv_reply self;
  mret ().

(** The loop of [run]: [fuel] bounds its turns, [None] says that it goes on. *)
Fixpoint device_loop (once : C (result ())) (fuel : nat) : C (option io_error) :=
  match fuel with
  | O => mret None
  | S fuel => r ← once; match r with Ok _ => device_loop once fuel | Err e => mret (Some e) end
  end.

(** [run] takes the sockets out of the device; they are dropped when it ends, and
    before the bridge is. *)
Definition Relay_run (fuel : nat) (socket : FacadeSocket) : C (option io_error) :=
  res ← device_loop (forward_msg socket socket) fuel;
  match res with
  | Some e => FacadeSocket_drop socket;; mret (Some e)
  | None => mret None
  end.

Definition Bridge_run (fuel : nat) (self : Bridge) : C (option io_error) :=
  res ← device_loop (Bridge_run_once self) fuel;
  match res with
  | Some e =>
      FacadeSocket_drop (bridge_right self);;
      FacadeSocket_drop (bridge_left self);;
      Bridge_drop self;;
      mret (Some e)
  | None => mret None
  end.

Definition FacadeDevice_run (fuel : nat) (self : FacadeDevice) : C (option io_error) :=
  match self with
  | RelayDevice socket => Relay_run fuel socket
  | BridgeDevice bridge => Bridge_run fuel bridge
  end.

(** ** probe.rs *)

Record FacadeProbe : Type := mkFacadeProbe { fp_id : ProbeId }.

Definition probe_send_request (req : ProbeRequest) (self : FacadeProbe) : C (result ()) := send_request (ForProbe (fp_id self) req).
Definition probe_recv_reply (self : FacadeProbe) : C (result ProbeReply) := AwaitProbe (fp_id self) (λ r, Return (receive r)).
Definition probe_execute_request (req : ProbeRequest) (self : FacadeProbe) : C (result ProbeReply) :=
  and_then (probe_send_request req self) (λ _, probe_recv_reply self).
Definition probe_facade_call {A} (req : ProbeRequest) (process : ProbeReply → result A) (self : FacadeProbe) : C (result A) :=
  and_then_pure (probe_execute_request req self) process.

Definition on_poll_reply (reply : ProbeReply) : result (list PollRes) :=
  match reply with
  | ProbePoll x => Ok x
  | ProbeErr e => Err e
  | ProbeClosed => Err (other_io_error "unexpected reply")
  end.

Definition FacadeProbe_poll (timeout : Duration) (self : FacadeProbe) : C (result (list PollRes)) :=
  probe_facade_call (RequestPoll timeout) on_poll_reply self.

Definition FacadeProbe_drop (self : FacadeProbe) : C () :=
  _ ← probe_send_request RequestProbeClose self;
  _ ← probe_recv_reply self;
  mret ().

(** ** session.rs *)

Definition session_send_request (req : SessionRequest T) : C (result ()) := send_request (ForSession req).
Definition session_recv_reply : C (result SessionReply) := AwaitSession (λ r, Return (receive r)).
Definition session_execute_request (req : SessionRequest T) : C (result SessionReply) :=
  and_then (session_send_request req) (λ _, session_recv_reply).
Definition session_call {A} (req : SessionRequest T) (process : SessionReply → result A) : C (result A) :=
  and_then_pure (session_execute_request req) process.

Definition on_create_socket_reply (reply : SessionReply) : result FacadeSocket :=
  match reply with
  | SocketCreated id => Ok (mkFacadeSocket id)
  | SessionErr e => Err e
  | _ => unexpected_reply
  end.

Definition on_create_device_reply (left right : FacadeSocket) (reply : SessionReply) : result FacadeDevice :=
  match reply with
  | DeviceCreated id => Ok (BridgeDevice (mkBridge id left right))
  | SessionErr e => Err e
  | _ => unexpected_reply
  end.

Definition on_create_probe_reply (reply : SessionReply) : result FacadeProbe :=
  match reply with
  | ProbeCreated id => Ok (mkFacadeProbe id)
  | SessionErr e => Err e
  | _ => unexpected_reply
  end.

Definition create_socket (ctor : T) : C (result FacadeSocket) := session_call (CreateSocket ctor) on_create_socket_reply.
Definition create_relay_device (socket : FacadeSocket) : result FacadeDevice := Ok (RelayDevice socket).
(** When it fails, the sockets that were moved into it are dropped. *)
Definition create_bridge_device (left right : FacadeSocket) : C (result FacadeDevice) :=
  reply ← session_execute_request (CreateDevice (fs_id left) (fs_id right));
  match reply with
  | Err e => FacadeSocket_drop left;; FacadeSocket_drop right;; mret (Err e)
  | Ok reply =>
      match on_create_device_reply left right reply with
      | Ok device => mret (Ok device)
      | Err e => FacadeSocket_drop right;; FacadeSocket_drop left;; mret (Err e)
      end
  end.
Definition create_probe (poll_opts : list PollReq) : C (result FacadeProbe) :=
  session_call (CreateProbe poll_opts) on_create_probe_reply.

Definition FacadeSession_drop : C () :=
  _ ← session_send_request Shutdown;
  _ ← session_recv_reply;
  mret ().

(** [SessionBuilder]: the transports, by scheme, of the thread that [build] starts. *)
Definition SessionBuilder_new {Tr} : gmap string Tr := ∅.
Definition SessionBuilder_with {Tr} (scheme : string) (transport : Tr) (self : gmap string Tr) : gmap string Tr :=
  <[scheme := transport]> self.

End facade.

(** ** Forwarding

    What a client does when it hears [h], one item for each request it sends and
    each reply it awaits: the replies it gets, each with the request it followed,
    what it did not hear, and where it stops. *)

Section forwarding.
Context {T : Type}.

Inductive heard : Type :=
| HeardSent (r : option SendError)
| HeardSession (r : option SessionReply)
| HeardSocket (r : option Reply)
| HeardDevice (r : option DeviceReply)
| HeardProbe (r : option ProbeReply).

(** A request, and the reply of a socket. *)
Inductive fact : Type :=
| Asked (req : rx_request T)
| Replied (last : option (rx_request T)) (sid : SocketId) (r : Reply).

Fixpoint play {A} (last : option (rx_request T)) (h : list heard) (c : client T A)
    : list fact * option (rx_request T) * list heard * client T A :=
  match h, c with
  | HeardSent r :: h, SendRequest req k =>
      let '(l, last, h, c) := play (Some req) h (k r) in
      (match r with None => [Asked req] | Some _ => [] end ++ l, last, h, c)
  | HeardSession r :: h, AwaitSession k => play last h (k r)
  | HeardSocket r :: h, AwaitSocket sid k =>
      let '(l, last', h, c) := play last h (k r) in
      (match r with Some x => [Replied last sid x] | None => [] end ++ l, last', h, c)
  | HeardDevice r :: h, AwaitDevice did k => play last h (k r)
  | HeardProbe r :: h, AwaitProbe pid k => play last h (k r)
  | _, _ => ([], last, h, c)
  end.

(** The messages a recv on [sid] was answered with, and those it was asked to send. *)
Definition received_from (sid : SocketId) (l : list fact) : list Message :=
  omap (λ f, match f with
    | Replied (Some (ForSocket s (RequestRecv _))) _ (ReplyRecv m) => if bool_decide (s = sid) then Some m else None
    | _ => None
    end) l.
Definition sent_to (sid : SocketId) (l : list fact) : list Message :=
  omap (λ f, match f with
    | Asked (ForSocket s (RequestSend m _)) => if bool_decide (s = sid) then Some m else None
    | _ => None
    end) l.

Lemma play_bind {A B} last h (c : client T A) (f : A → client T B) :
  play last h (c ≫= f) =
    let '(l, last, h, c) := play last h c in
    match c with
    | Return a => let '(l', last, h, c) := play last h (f a) in (l ++ l', last, h, c)
    | _ => (l, last, h, c ≫= f)
    end.
Proof.
  revert last c. induction h as [|x h IH]; intros last c.
  - by destruct c.
  - destruct c as [a|req k|k|sid k|did k|pid k]; [|destruct x; try done..].
    + change (Return a ≫= f) with (f a). cbn [play]. destruct (play last (x :: h) (f a)) as [[[]]] eqn:Hp; destruct x; by rewrite Hp.
    + cbn. rewrite (IH (Some req) (k r)). destruct (play (Some req) h (k r)) as [[[l last'] h'] c'].
      destruct c'; try done. destruct (play last' h' (f a)) as [[[]]]. by rewrite app_assoc.
    + cbn. apply IH.
    + cbn. rewrite (IH last (k r)). destruct (play last h (k r)) as [[[l last'] h'] c'].
      destruct c'; try done. destruct (play last' h' (f a)) as [[[]]]. by rewrite app_assoc.
    + cbn. apply IH.
    + cbn. apply IH.
Qed.

(** Nothing of a message passed. *)
Definition idle_log (l : list fact) : Prop := ∀ sid, received_from sid l = [] ∧ sent_to sid l = [].

Lemma play_return {A} last h (a : A) : play last h (Return a) = ([], last, h, Return a).
Proof. by destruct h as [|[]]. Qed.

Lemma play_recv last h (s : FacadeSocket) :
  let '(l, _, _, c) := play last h (recv_msg (T := T) s) in
  (∃ m, c = Return (Ok m) ∧ ∀ sid, received_from sid l = (if bool_decide (fs_id s = sid) then [m] else []) ∧ sent_to sid l = []) ∨
  ((∀ m, c ≠ Return (Ok m)) ∧ idle_log l).
Proof.
  assert (Hout : ∀ c, (∀ m, c ≠ Return (Ok m)) → ∀ l, idle_log l →
    (∃ m, c = Return (T := T) (Ok m) ∧ ∀ sid, received_from sid l = (if bool_decide (fs_id s = sid) then [m] else []) ∧ sent_to sid l = []) ∨
    ((∀ m : Message, c ≠ Return (Ok m)) ∧ idle_log l)) by (intros; by right).
  destruct h as [|[[e|]| | | |] h]; try (by apply Hout).
  - cbn. unfold mret, client_ret. cbn. rewrite play_return. by apply Hout.
  - destruct h as [|[| |[r|]| |] h]; try (by apply Hout).
    + destruct r as [e|eid|eid| |m|]; cbn; unfold mret, client_ret; cbn; rewrite play_return; try (by apply Hout).
      left. exists m. split; [done|]. intros sid. cbn. by case_bool_decide.
    + cbn. unfold mret, client_ret. cbn. rewrite play_return. by apply Hout.
Qed.

Lemma play_send last h m (s : FacadeSocket) :
  let '(l, _, _, c) := play last h (send_msg (T := T) m s) in
  (∀ sid, received_from sid l = [] ∧ sent_to sid l = (if bool_decide (fs_id s = sid) then [m] else [])) ∨
  ((∀ u, c ≠ Return (Ok u)) ∧ idle_log l).
Proof.
  assert (Hasked : ∀ rest, idle_log rest → ∀ sid, received_from sid (Asked (ForSocket (fs_id s) (RequestSend m false)) :: rest) = [] ∧
    sent_to sid (Asked (ForSocket (fs_id s) (RequestSend m false)) :: rest) = (if bool_decide (fs_id s = sid) then [m] else [])).
  { intros rest Hrest sid. destruct (Hrest sid) as [Hr Hs]. unfold received_from, sent_to in *. cbn. case_bool_decide; by rewrite ?Hr, ?Hs. }
  destruct h as [|[[e|]| | | |] h]; try (right; split; [done|by intros sid]).
  - cbn. unfold mret, client_ret. cbn. rewrite play_return. right. split; [done|by intros sid].
  - destruct h as [|[| |[r|]| |] h]; try (left; by apply Hasked).
    + destruct r; cbn; unfold mret, client_ret; cbn; rewrite play_return; left; by apply Hasked.
    + cbn. unfold mret, client_ret. cbn. rewrite play_return. left. by apply Hasked.
Qed.

(** The messages of each side go to the other, but for those held. *)
Definition forwards (left right : SocketId) (l : list fact) (pl pr : list Message) : Prop :=
  received_from left l = sent_to right l ++ pl ∧ received_from right l = sent_to left l ++ pr.

Lemma forwards_app left right l1 l2 pl pr :
  forwards left right l1 [] [] → forwards left right l2 pl pr → forwards left right (l1 ++ l2) pl pr.
Proof.
  unfold forwards, received_from, sent_to. rewrite !omap_app. intros [Hl1 Hr1] [Hl2 Hr2].
  by rewrite Hl1, Hl2, Hr1, Hr2, !app_nil_r, <- !app_assoc.
Qed.

Lemma forwards_idle left right l : idle_log l → forwards left right l [] [].
Proof. intros Hl. destruct (Hl left) as [Hl1 Hl2], (Hl right) as [Hr1 Hr2]. split; by rewrite ?Hl1, ?Hl2, ?Hr1, ?Hr2. Qed.

Lemma forwards_swap left right l pl pr : forwards left right l pl pr → forwards right left l pr pl.
Proof. by intros [? ?]. Qed.

(** A function that returned [Ok] holds nothing; another may hold one message of
    each side. *)
Definition delivers {A} left right (l : list fact) (c : client T (result A)) : Prop :=
  ∃ pl pr, forwards left right l pl pr ∧ (length pl <= 1)%nat ∧ (length pr <= 1)%nat ∧
    ∀ a, c = Return (Ok a) → pl = [] ∧ pr = [].

Lemma play_and_then {A B} last h (m : client T (result A)) (f : A → client T (result B)) (Q : list fact → client T (result B) → Prop) :
  (let '(l, last', h', c) := play last h m in
   (∀ a, c = Return (Ok a) → let '(l2, _, _, c2) := play last' h' (f a) in Q (l ++ l2) c2) ∧
   ((∀ a, c ≠ Return (Ok a)) → ∀ c2, (∀ b, c2 ≠ Return (Ok b)) → Q l c2)) →
  let '(l, _, _, c) := play last h (and_then m f) in Q l c.
Proof.
  unfold and_then. rewrite play_bind. destruct (play last h m) as [[[l last'] h'] c]. intros [Hok Hno].
  destruct c as [[a|e]|req k|k|sid k|did k|pid k]; try (by apply Hno).
  - specialize (Hok a eq_refl). destruct (play last' h' (f a)) as [[[l2 last2] h2] c2]. exact Hok.
  - change (mret (Err e)) with (Return (T := T) (@Err B e)). rewrite play_return, app_nil_r. by apply Hno.
Qed.

(** Adds up what each part of a log says of the sockets [x] and [y]. *)
Ltac tally x y :=
  unfold idle_log, forwards, received_from, sent_to in *; rewrite ?omap_app;
  repeat match goal with
  | E : ∀ _ : SocketId, _ ∧ _ |- _ => let E1 := fresh in let E2 := fresh in
      pose proof (E x) as E1; pose proof (E y) as E2; destruct E1 as [? ?], E2 as [? ?]; clear E
  end;
  repeat match goal with E : omap _ _ = _ |- _ => rewrite E; clear E end;
  repeat case_bool_decide; try congruence.

Lemma play_forward last h (from to : FacadeSocket) :
  fs_id from ≠ fs_id to →
  let '(l, _, _, c) := play last h (forward_msg (T := T) from to) in delivers (fs_id from) (fs_id to) l c.
Proof.
  intros Hne. apply play_and_then. pose proof (play_recv last h from) as Hr.
  destruct (play last h (recv_msg from)) as [[[l last'] h'] c]. destruct Hr as [(m & -> & Hl)|[Hno Hl]].
  - split; [|by intros Hm; destruct (Hm m)]. intros a [= <-]. pose proof (play_send last' h' m to) as Hs.
    destruct (play last' h' (send_msg m to)) as [[[l2 last2] h2] c2]. destruct Hs as [Hs|[Hno Hidle]].
    + exists [], []. split; [by tally (fs_id from) (fs_id to)|by auto].
    + exists [m], []. split; [by tally (fs_id from) (fs_id to)|]. split; [done|split; [cbn; lia|by intros a Ha; destruct (Hno a)]].
  - split; [by intros a ->; destruct (Hno a)|]. intros _ c2 Hc2. exists [], [].
    split; [by apply forwards_idle|]. split; [cbn; lia|split; [cbn; lia|done]].
Qed.

Lemma delivers_none {A} x y l (c : client T (result A)) : idle_log l → delivers x y l c.
Proof. intros Hl. exists [], []. split; [by apply forwards_idle|]. split; [cbn; lia|split; [cbn; lia|done]]. Qed.

Lemma play_exchange last h (left right : FacadeSocket) :
  fs_id left ≠ fs_id right →
  let '(l, _, _, c) := play last h (exchange_msg (T := T) left right) in delivers (fs_id left) (fs_id right) l c.
Proof.
  intros Hne. apply play_and_then. pose proof (play_recv last h left) as Hl.
  destruct (play last h (recv_msg left)) as [[[l1 last1] h1] c1]. destruct Hl as [(m & -> & Hl)|[Hno Hl]];
    [|by split; [intros a ->; destruct (Hno a)|intros _ c2 Hc2; apply delivers_none]].
  split; [|by intros Hm; destruct (Hm m)]. intros a [= <-].
  apply (play_and_then _ _ _ _ (λ l c, delivers _ _ (l1 ++ l) c)). pose proof (play_recv last1 h1 right) as Hr.
  destruct (play last1 h1 (recv_msg right)) as [[[l2 last2] h2] c2]. destruct Hr as [(m' & -> & Hr)|[Hno Hr]].
  2: { split; [by intros a ->; destruct (Hno a)|]. intros _ c Hc. exists [m], [].
       split; [by tally (fs_id left) (fs_id right)|]. split; [done|split; [cbn; lia|by intros a Ha; destruct (Hc a)]]. }
  split; [|by intros Hm; destruct (Hm m')]. intros a [= <-].
  apply (play_and_then _ _ _ _ (λ l c, delivers _ _ (l1 ++ l2 ++ l) c)). pose proof (play_send last2 h2 m right) as Hs.
  destruct (play last2 h2 (send_msg m right)) as [[[l3 last3] h3] c3].
  assert (Hone : ∀ c : client T (result ()), (∀ a, c ≠ Return (Ok a)) → delivers (fs_id left) (fs_id right) (l1 ++ l2 ++ l3) c).
  { intros c Hc. destruct Hs as [Hs|[_ Hs]]; [exists [], [m']|exists [m], [m']];
      (split; [by tally (fs_id left) (fs_id right)|]; split; [cbn; lia|split; [cbn; lia|by intros a Ha; destruct (Hc a)]]). }
  split; [|by intros _]. intros u ->. destruct Hs as [Hs|[Hno _]]; [|by destruct (Hno u)].
  pose proof (play_send last3 h3 m' left) as Hs'. destruct (play last3 h3 (send_msg m' left)) as [[[l4 last4] h4] c4].
  destruct Hs' as [Hs'|[Hno Hs']]; [exists [], []|exists [], [m']];
    (split; [by tally (fs_id left) (fs_id right)|]; split; [cbn; lia|split; [cbn; lia|try done]]).
  intros a Ha. by destruct (Hno a).
Qed.

Lemma play_check last h (b : Bridge) : let '(l, _, _, c) := play last h (device_execute_request (T := T) RequestCheck b) in idle_log l.
Proof.
  destruct h as [|[[e|]| | | |] h]; try done; cbn; unfold mret, client_ret; cbn.
  - by rewrite play_return.
  - destruct h as [|[| | |[r|]|] h]; cbn; unfold mret, client_ret; cbn; try (by intros sid); by rewrite play_return.
Qed.

Lemma delivers_after {A} x y l1 l2 (c : client T (result A)) : idle_log l1 → delivers x y l2 c → delivers x y (l1 ++ l2) c.
Proof. intros Hl (pl & pr & Hf & Hrest). exists pl, pr. split; [|done]. apply forwards_app; [by apply forwards_idle|done]. Qed.

Lemma delivers_swap {A} x y l (c : client T (result A)) : delivers x y l c → delivers y x l c.
Proof.
  intros (pl & pr & Hf & Hl & Hr & Hok). exists pr, pl. split; [by apply forwards_swap|]. split; [done|split; [done|]].
  intros a Ha. by destruct (Hok a Ha).
Qed.

Lemma play_run_once last h (b : Bridge) :
  fs_id (bridge_left b) ≠ fs_id (bridge_right b) →
  let '(l, _, _, c) := play last h (Bridge_run_once (T := T) b) in delivers (fs_id (bridge_left b)) (fs_id (bridge_right b)) l c.
Proof.
  intros Hne. apply play_and_then. pose proof (play_check last h b) as Hl.
  destruct (play last h (device_execute_request RequestCheck b)) as [[[l last'] h'] c].
  split; [|by intros _ c2 Hc2; apply delivers_none].
  assert (Hret : ∀ r : result (), let '(l2, _, _, c2) := play last' h' (Return (T := T) r) in
    delivers (fs_id (bridge_left b)) (fs_id (bridge_right b)) (l ++ l2) c2).
  { intros r. rewrite play_return, app_nil_r. by apply delivers_none. }
  intros [[] []|] _; try (by apply Hret).
  - pose proof (play_exchange last' h' _ _ Hne) as Hx. destruct (play last' h' _) as [[[]]]. by apply delivers_after.
  - pose proof (play_forward last' h' _ _ Hne) as Hx. destruct (play last' h' _) as [[[]]]. by apply delivers_after.
  - pose proof (play_forward last' h' _ _ (not_eq_sym Hne)) as Hx. destruct (play last' h' _) as [[[]]].
    by apply delivers_after, delivers_swap.
Qed.

(** C14: A bridge between two sockets, however long it ran and whatever it was
    answered: the messages it asked one socket to send are those it received from
    the other, unchanged and in order, none twice; and it holds none, or at most
    one of each side when it was stopped in the middle of a turn. *)
Theorem bridge_forwards fuel h (b : Bridge) :
  fs_id (bridge_left b) ≠ fs_id (bridge_right b) →
  let '(l, _, _, c) := play None h (device_loop (T := T) (Bridge_run_once b) fuel) in
  let left := fs_id (bridge_left b) in
  let right := fs_id (bridge_right b) in
  ∃ pl pr, received_from left l = sent_to right l ++ pl ∧ received_from right l = sent_to left l ++ pr ∧
    (length pl <= 1)%nat ∧ (length pr <= 1)%nat ∧ (c = Return None → pl = [] ∧ pr = []).
Proof.
  intros Hne.
  assert (Hloop : ∀ last h, let '(l, _, _, c) := play last h (device_loop (T := T) (Bridge_run_once b) fuel) in
    ∃ pl pr, forwards (fs_id (bridge_left b)) (fs_id (bridge_right b)) l pl pr ∧
      (length pl <= 1)%nat ∧ (length pr <= 1)%nat ∧ (c = Return None → pl = [] ∧ pr = [])).
  { clear h. induction fuel as [|fuel IH]; intros last h; cbn [device_loop].
    - change (mret None) with (Return (T := T) (@None io_error)). rewrite play_return. exists [], [].
      split; [by split|]. split; [cbn; lia|split; [cbn; lia|done]].
    - rewrite play_bind. pose proof (play_run_once last h b Hne) as Hturn.
      destruct (play last h (Bridge_run_once b)) as [[[l1 last1] h1] c1].
      destruct Hturn as (pl & pr & Hf & Hl & Hr & Hok).
      assert (Hstop : ∀ c : client T (option io_error), c ≠ Return None → ∃ pl pr,
        forwards (fs_id (bridge_left b)) (fs_id (bridge_right b)) l1 pl pr ∧ (length pl <= 1)%nat ∧ (length pr <= 1)%nat ∧
        (c = Return None → pl = [] ∧ pr = [])) by (intros c Hc; by exists pl, pr).
      destruct c1 as [[u|e]|req k|k|sid k|did k|pid k]; try (by apply Hstop).
      + destruct (Hok u eq_refl) as [-> ->]. specialize (IH last1 h1).
        destruct (play last1 h1 (device_loop (Bridge_run_once b) fuel)) as [[[l2 last2] h2] c2].
        destruct IH as (pl & pr & Hf2 & Hrest). exists pl, pr. split; [by apply forwards_app|done].
      + change (mret (Some e)) with (Return (T := T) (Some e)). rewrite play_return, app_nil_r. by apply Hstop. }
  specialize (Hloop None h). destruct (play None h _) as [[[l last'] h'] c].
  destruct Hloop as (pl & pr & [Hfl Hfr] & Hl & Hr & Hc). by exists pl, pr.
Qed.

End forwarding.

Lemma bridge_forwards_witness :
  let left := mkFacadeSocket (SocketId_from 0) in
  let right := mkFacadeSocket (SocketId_from 1) in
  let b := mkBridge (DeviceId_from 2) left right in
  let ok := HeardSent None in
  let got m := [ok; HeardSocket (Some (ReplyRecv (from_body m)))] in
  let sent := [ok; HeardSocket (Some ReplySend)] in
  let h := [ok; HeardDevice (Some (DeviceCheck true false))] ++ got [1] ++ sent ++
           [ok; HeardDevice (Some (DeviceCheck true true))] ++ got [2] ++ got [3] ++ sent in
  let '(l, _, _, _) := play (T := ()) None h (device_loop (Bridge_run_once b) 9) in
  received_from (SocketId_from 0) l = [from_body [1]; from_body [2]] ∧ sent_to (SocketId_from 1) l = [from_body [1]; from_body [2]] ∧
  ∃ pr, received_from (SocketId_from 1) l = sent_to (SocketId_from 0) l ++ pr ∧ (length pr <= 1)%nat.
Proof.
  intros left right b ok got sent h. assert (Hne : fs_id (bridge_left b) ≠ fs_id (bridge_right b)) by done.
  pose proof (bridge_forwards (T := ()) 9 h b Hne) as Hb.
  destruct (play (T := ()) None h (device_loop (Bridge_run_once b) 9)) as [[[l last'] h'] c] eqn:Hl.
  destruct Hb as (pl & pr & _ & Hr & _ & Hlen & _). vm_compute in Hl. injection Hl as <- _ _ _.
  split; [reflexivity|]. split; [reflexivity|]. by exists pr.
Defined.
