(* ===== verification/Tenants.v ===== *)
(** * The protocols as tenants of a socket

    What the reactor needs of the protocol of a socket, beyond its contract: it
    never schedules the timers that the socket arms for the requests of the facade.
    The ten protocols are tenants; so is a choice between two, which is how a
    [Box<dyn Protocol>] is read: [AnyProtocol] is one of the ten. *)

From S2P Require Import Prelude Core Context Priolist Pipes Protocol Codec.
From S2P Require Import Push Pull Sub Bus Publ Pair Req Rep Resp Surv Closed Delivery Provenance.

(** The tasks of the socket itself. *)
Definition is_request_task (task : Schedulable) : bool :=
  match task with TaskSendTimeout | TaskRecvTimeout => true | _ => false end.

(** Any effect but the scheduling of one of them. *)
Definition discreet (e : effect) : Prop :=
  match e with SchSchedule task _ => is_request_task task = false | _ => True end.

#[export] Instance discreet_plain : Plain discreet.
Proof. by intros []. Qed.
#[export] Hint Resolve discreet_plain : handler.

Section discreet.
Context `{Env} `{ByteOrder}.

Lemma push_discreet i s : every discreet (step (T := Push) i s).
Proof. destruct i; simpl step; tread. Qed.
Lemma pull_discreet i s : every discreet (step (T := Pull) i s).
Proof. destruct i; simpl step; tread. Qed.
Lemma sub_discreet i s : every discreet (step (T := Sub) i s).
Proof. destruct i; simpl step; tread. Qed.
Lemma bus_discreet i s : every discreet (step (T := Bus) i s).
Proof. destruct i; simpl step; tread. Qed.
Lemma pub_discreet i s : every discreet (step (T := Pub) i s).
Proof. destruct i; simpl step; tread. Qed.
Lemma pair_discreet i s : every discreet (step (T := Pair) i s).
Proof. destruct i; simpl step; tread. Qed.
Lemma req_discreet i s : every discreet (step (T := Req) i s).
Proof. destruct i; simpl step; tread. Qed.
Lemma rep_discreet i s : every discreet (step (T := Rep) i s).
Proof. destruct i; simpl step; tread. Qed.
Lemma resp_discreet i s : every discreet (step (T := Respondent) i s).
Proof. destruct i; simpl step; tread. Qed.
Lemma surv_discreet i s : every discreet (step (T := Surveyor) i s).
Proof. destruct i; simpl step; tread. Qed.

End discreet.

(** ** Closing

    A protocol that is closed closes its pipes and does nothing else; what waits
    on it goes on waiting. *)

Definition is_closing (e : effect) : Prop := match e with NetClose _ _ => True | _ => False end.

Definition closes `{Protocol T} {X} (pending : T → X) : Prop :=
  ∀ s : T, settles (λ s', pending s' = pending s) (close s) ∧ every is_closing (close s).

Section closing.
Context `{Env}.

Lemma Pipe_close_closing p : settles (λ _, True) (Pipe_close p) ∧ every is_closing (Pipe_close p).
Proof.
  unfold Pipe_close, Endpoint_close, ctx_close. split.
  - apply settles_then; [by apply settles_emit|]. intros _. by apply settles_ret.
  - apply every_bind; [by apply runs_emit|]. intros _. by apply runs_ret.
Qed.

Lemma close_all_closing pc : settles (λ _, True) (close_all pc) ∧ every is_closing (close_all pc).
Proof.
  unfold close_all. split.
  - apply settles_then; [by apply settles_history|]. intros h. apply settles_then; [|intros _; by apply settles_ret].
    apply settles_for_each. intros kv. apply settles_then; [apply Pipe_close_closing|]. intros _. by apply settles_ret.
  - apply every_bind; [apply every_history|]. intros h. apply every_bind; [|intros _; by apply runs_ret].
    apply every_for_each. intros kv _. apply every_bind; [apply Pipe_close_closing|]. intros _. by apply runs_ret.
Qed.

(** A protocol that closes all its pipes, then changes what nobody waits for. *)
Lemma closes_pipes {T X} (f : T → X) (pc : PipeCollection) (k : PipeCollection → T) s :
  (∀ pc, f (k pc) = f s) →
  settles (λ s', f s' = f s) (pipes ← close_all pc; mret (k pipes)) ∧ every is_closing (pipes ← close_all pc; mret (k pipes)).
Proof.
  intros Hk. destruct (close_all_closing pc). split.
  - apply settles_then; [done|]. intros pc'. by apply settles_ret.
  - apply every_bind; [done|]. intros pc'. by apply runs_ret.
Qed.

Context `{ByteOrder}.

Lemma push_closes : closes Push.Push_pending. Proof. intros s. by apply (closes_pipes Push.Push_pending). Qed.
Lemma pull_closes : closes Pull.Pull_pending. Proof. intros s. by apply (closes_pipes Pull.Pull_pending). Qed.
Lemma sub_closes : closes Sub.Sub_pending. Proof. intros s. by apply (closes_pipes Sub.Sub_pending). Qed.
Lemma bus_closes : closes Bus.Bus_pending. Proof. intros s. by apply (closes_pipes Bus.Bus_pending). Qed.
Lemma pub_closes : closes (λ _ : Pub, @None (kind * Timeout)).
Proof. intros s. by apply (closes_pipes (λ _ : Pub, @None (kind * Timeout))). Qed.
Lemma pair_closes : closes Pair.Pair_pending.
Proof.
  intros s. cbn [close]. unfold Pair.Pair_close, Pair.Inner_close. split.
  - apply settles_then; [|intros n; by apply settles_ret]. apply settles_then; [|intros _; by apply settles_ret].
    apply settles_if_some. intros x. apply settles_then; [apply Pipe_close_closing|]. intros _. by apply settles_ret.
  - apply every_bind; [|intros n; by apply runs_ret]. apply every_bind; [|intros _; by apply runs_ret].
    apply every_if_some. intros x _. apply every_bind; [apply Pipe_close_closing|]. intros _. by apply runs_ret.
Qed.
Lemma req_closes : closes Req.Req_pending. Proof. intros s. by apply (closes_pipes Req.Req_pending). Qed.
Lemma rep_closes : closes Rep.Rep_pending. Proof. intros s. by apply (closes_pipes Rep.Rep_pending). Qed.
Lemma resp_closes : closes Resp.Respondent_pending. Proof. intros s. by apply (closes_pipes Resp.Respondent_pending). Qed.
Lemma surv_closes : closes Surv.Surveyor_pending. Proof. intros s. by apply (closes_pipes Surv.Surveyor_pending). Qed.

End closing.

(** ** The interface *)

(** The promise does not depend on what the context answers: a socket may be
    called with another context each time. *)
Class Tenant (T : Type) : Type := {
  tenant_protocol :: ∀ {E : Env}, Protocol T;
  tenant_inv : T → Prop;
  tenant_guard : input → T → bool;
  tenant_pending : T → option (kind * Timeout);
  tenant_timers : T → list Scheduled;
  tenant_step_ok : ∀ {E : Env} i s h, tenant_inv s → tenant_guard i s = true → allowed i (tenant_pending s) = true →
    ∃ s' out, step i s h = Done s' out ∧ tenant_inv s' ∧ announced s out s' ∧
      contract (tenant_timers s) (tenant_pending s) i out (tenant_pending s');
  tenant_discreet : ∀ {E : Env} i (s : T), every discreet (step i s);
  tenant_hands : ∀ {E : Env} i (s : T), hands (brought i) (step i s);
  tenant_laden : (bytes → Prop) → T → Prop;
  tenant_provenance : provenance tenant_laden (λ E, tenant_protocol);
  tenant_closes : ∀ {E : Env}, closes tenant_pending;
  tenant_asleep : T → Prop;
  tenant_asleep_guard : input → T → bool;
  tenant_sleeps : ∀ {E : Env}, sleeps tenant_inv tenant_pending tenant_asleep tenant_asleep_guard
}.

#[export] Instance tenant_contract `{Tenant T} {E : Env} : Contract T := {|
  inv := tenant_inv;
  guard := tenant_guard;
  pending := tenant_pending;
  own_timers := tenant_timers;
  step_ok := tenant_step_ok
|}.

(** What holds of the steps of a protocol holds of each of its calls. *)
Lemma remove_step `{Protocol T} Q (R : T → Prop) eid s :
  runs Q R (step (IRemovePipe eid) s) → runs Q (λ x, R x.2) (remove_pipe eid s).
Proof.
  intros Hs h [r s'] out Hrun. destruct (Hs h s' out) as [Ho HR]; [|by split].
  simpl. by rewrite bind_run, Hrun, ret_run, app_nil_r.
Qed.

Ltac as_step :=
  match goal with
  | |- runs ?Q ?R (add_pipe ?eid ?pipe ?s) => change (runs Q R (step (IAddPipe eid pipe) s))
  | |- runs ?Q ?R (send ?msg ?t ?s) => change (runs Q R (step (ISend msg t) s))
  | |- runs ?Q ?R (on_send_ack ?eid ?s) => change (runs Q R (step (ISendAck eid) s))
  | |- runs ?Q ?R (on_send_timeout ?s) => change (runs Q R (step ISendTimeout s))
  | |- runs ?Q ?R (on_send_ready ?eid ?s) => change (runs Q R (step (ISendReady eid) s))
  | |- runs ?Q ?R (on_send_not_ready ?eid ?s) => change (runs Q R (step (ISendNotReady eid) s))
  | |- runs ?Q ?R (recv ?t ?s) => change (runs Q R (step (IRecv t) s))
  | |- runs ?Q ?R (on_recv_ack ?eid ?msg ?s) => change (runs Q R (step (IRecvAck eid msg) s))
  | |- runs ?Q ?R (on_recv_timeout ?s) => change (runs Q R (step IRecvTimeout s))
  | |- runs ?Q ?R (on_recv_ready ?eid ?s) => change (runs Q R (step (IRecvReady eid) s))
  | |- runs ?Q ?R (on_recv_not_ready ?eid ?s) => change (runs Q R (step (IRecvNotReady eid) s))
  | |- runs ?Q ?R (on_timer_tick ?task ?s) => change (runs Q R (step (ITimerTick task) s))
  | |- runs ?Q ?R (on_device_plugged ?s) => change (runs Q R (step IDevicePlugged s))
  | |- runs ?Q (λ _, True) (remove_pipe ?eid ?s) => apply (remove_step Q (λ _, True))
  | |- runs _ _ (remove_pipe ?eid ?s) => apply remove_step
  end.

Section tenants.
Context `{ByteOrder}.

#[export] Instance Push_tenant : Tenant Push := {|
  tenant_protocol E := Push.Push_protocol;
  tenant_inv := Push.Push_inv; tenant_guard := Push.Push_guard; tenant_pending := Push.Push_pending;
  tenant_timers := λ _, [];
  tenant_step_ok E := Push.Push_step_ok; tenant_discreet E := push_discreet; tenant_hands E := push_hands;
  tenant_laden := push_laden; tenant_provenance := push_provenance; tenant_closes E := push_closes;
  tenant_asleep := push_asleep; tenant_asleep_guard := push_asleep_guard; tenant_sleeps E := push_sleeps
|}.
#[export] Instance Pull_tenant : Tenant Pull := {|
  tenant_protocol E := Pull.Pull_protocol;
  tenant_inv := Pull.Pull_inv; tenant_guard := Pull.Pull_guard; tenant_pending := Pull.Pull_pending;
  tenant_timers := λ _, [];
  tenant_step_ok E := Pull.Pull_step_ok; tenant_discreet E := pull_discreet; tenant_hands E := pull_hands;
  tenant_laden := no_load; tenant_provenance := pull_provenance; tenant_closes E := pull_closes;
  tenant_asleep := pull_asleep; tenant_asleep_guard := pull_asleep_guard; tenant_sleeps E := pull_sleeps
|}.
#[export] Instance Sub_tenant : Tenant Sub := {|
  tenant_protocol E := Sub.Sub_protocol;
  tenant_inv := Sub.Sub_inv; tenant_guard := Sub.Sub_guard; tenant_pending := Sub.Sub_pending;
  tenant_timers := λ _, [];
  tenant_step_ok E := Sub.Sub_step_ok; tenant_discreet E := sub_discreet; tenant_hands E := sub_hands;
  tenant_laden := no_load; tenant_provenance := sub_provenance; tenant_closes E := sub_closes;
  tenant_asleep := sub_asleep; tenant_asleep_guard := sub_asleep_guard; tenant_sleeps E := sub_sleeps
|}.
#[export] Instance Bus_tenant : Tenant Bus := {|
  tenant_protocol E := Bus.Bus_protocol;
  tenant_inv := Bus.Bus_inv; tenant_guard := Bus.Bus_guard; tenant_pending := Bus.Bus_pending;
  tenant_timers := λ _, [];
  tenant_step_ok E := Bus.Bus_step_ok; tenant_discreet E := bus_discreet; tenant_hands E := bus_hands;
  tenant_laden := no_load; tenant_provenance := bus_provenance; tenant_closes E := bus_closes;
  tenant_asleep := bus_asleep; tenant_asleep_guard := bus_asleep_guard; tenant_sleeps E := bus_sleeps
|}.
#[export] Instance Pub_tenant : Tenant Pub := {|
  tenant_protocol E := Publ.Pub_protocol;
  tenant_inv := Publ.Pub_inv; tenant_guard := Publ.Pub_guard; tenant_pending := λ _, None;
  tenant_timers := λ _, [];
  tenant_step_ok E := Publ.Pub_step_ok; tenant_discreet E := pub_discreet; tenant_hands E := pub_hands;
  tenant_laden := no_load; tenant_provenance := pub_provenance; tenant_closes E := pub_closes;
  tenant_asleep := λ _, True; tenant_asleep_guard := λ _ _, true; tenant_sleeps E := pub_sleeps
|}.
#[export] Instance Pair_tenant : Tenant Pair := {|
  tenant_protocol E := Pair.Pair_protocol;
  tenant_inv := Pair.Pair_inv; tenant_guard := Pair.Pair_guard; tenant_pending := Pair.Pair_pending;
  tenant_timers := λ _, [];
  tenant_step_ok E := Pair.Pair_step_ok; tenant_discreet E := pair_discreet; tenant_hands E := pair_hands;
  tenant_laden := pair_laden; tenant_provenance := pair_provenance; tenant_closes E := pair_closes;
  tenant_asleep := pair_asleep; tenant_asleep_guard := λ _ _, true; tenant_sleeps E := pair_sleeps
|}.
#[export] Instance Req_tenant : Tenant Req := {|
  tenant_protocol E := Req.Req_protocol;
  tenant_inv := Req.Req_inv; tenant_guard := Req.Req_guard; tenant_pending := Req.Req_pending;
  tenant_timers := Req.Req_timers;
  tenant_step_ok E := Req.Req_step_ok; tenant_discreet E := req_discreet; tenant_hands E := req_hands;
  tenant_laden := req_laden; tenant_provenance := req_provenance; tenant_closes E := req_closes;
  tenant_asleep := req_asleep; tenant_asleep_guard := req_asleep_guard; tenant_sleeps E := req_sleeps
|}.
#[export] Instance Rep_tenant : Tenant Rep := {|
  tenant_protocol E := Rep.Rep_protocol;
  tenant_inv := Rep.Rep_inv; tenant_guard := Rep.Rep_guard; tenant_pending := Rep.Rep_pending;
  tenant_timers := λ _, [];
  tenant_step_ok E := Rep.Rep_step_ok; tenant_discreet E := rep_discreet; tenant_hands E := rep_hands;
  tenant_laden := rep_laden; tenant_provenance := rep_provenance; tenant_closes E := rep_closes;
  tenant_asleep := rep_asleep; tenant_asleep_guard := rep_asleep_guard; tenant_sleeps E := rep_sleeps
|}.
#[export] Instance Respondent_tenant : Tenant Respondent := {|
  tenant_protocol E := Resp.Respondent_protocol;
  tenant_inv := Resp.Respondent_inv; tenant_guard := Resp.Respondent_guard; tenant_pending := Resp.Respondent_pending;
  tenant_timers := λ _, [];
  tenant_step_ok E := Resp.Respondent_step_ok; tenant_discreet E := resp_discreet; tenant_hands E := resp_hands;
  tenant_laden := resp_laden; tenant_provenance := resp_provenance; tenant_closes E := resp_closes;
  tenant_asleep := λ s, rep_asleep (Resp.to_rep s); tenant_asleep_guard := λ i s, rep_asleep_guard i (Resp.to_rep s); tenant_sleeps E := resp_sleeps
|}.
#[export] Instance Surveyor_tenant : Tenant Surveyor := {|
  tenant_protocol E := Surv.Surveyor_protocol;
  tenant_inv := Surv.Surveyor_inv; tenant_guard := Surv.Surveyor_guard; tenant_pending := Surv.Surveyor_pending;
  tenant_timers := Surv.Surveyor_timers;
  tenant_step_ok E := Surv.Surveyor_step_ok; tenant_discreet E := surv_discreet; tenant_hands E := surv_hands;
  tenant_laden := no_load; tenant_provenance := surv_provenance; tenant_closes E := surv_closes;
  tenant_asleep := surv_asleep; tenant_asleep_guard := surv_asleep_guard; tenant_sleeps E := surv_sleeps
|}.

End tenants.

(** ** One of two protocols *)

Section either.
Context {T1 T2 : Type} `{Tenant T1} `{Tenant T2}.

Definition either {X} (f1 : T1 → X) (f2 : T2 → X) (s : T1 + T2) : X :=
  match s with inl x => f1 x | inr x => f2 x end.

(** A call goes to the one that is there.  The methods are functions, so that building
    the protocol of a sum does not build those of its parts. *)
Definition relay_to (f1 : T1 → P T1) (f2 : T2 → P T2) : T1 + T2 → P (T1 + T2) :=
  either (λ x, x ← f1 x; mret (inl x)) (λ x, x ← f2 x; mret (inr x)).

Definition either_protocol {E : Env} : Protocol (T1 + T2) := {|
  proto_id s := either proto_id proto_id s;
  peer_id s := either peer_id peer_id s;
  add_pipe eid pipe := relay_to (add_pipe eid pipe) (add_pipe eid pipe);
  remove_pipe eid := either (λ x, '(p, x) ← remove_pipe eid x; mret (p, inl x)) (λ x, '(p, x) ← remove_pipe eid x; mret (p, inr x));
  send msg t := relay_to (send msg t) (send msg t);
  on_send_ack eid := relay_to (on_send_ack eid) (on_send_ack eid);
  on_send_timeout s := relay_to on_send_timeout on_send_timeout s;
  on_send_ready eid := relay_to (on_send_ready eid) (on_send_ready eid);
  on_send_not_ready eid := relay_to (on_send_not_ready eid) (on_send_not_ready eid);
  recv t := relay_to (recv t) (recv t);
  on_recv_ack eid msg := relay_to (on_recv_ack eid msg) (on_recv_ack eid msg);
  on_recv_timeout s := relay_to on_recv_timeout on_recv_timeout s;
  on_recv_ready eid := relay_to (on_recv_ready eid) (on_recv_ready eid);
  on_recv_not_ready eid := relay_to (on_recv_not_ready eid) (on_recv_not_ready eid);
  is_send_ready s := either is_send_ready is_send_ready s;
  is_recv_ready s := either is_recv_ready is_recv_ready s;
  set_option opt := either (λ x, let '(r, x) := set_option opt x in (r, inl x)) (λ x, let '(r, x) := set_option opt x in (r, inr x));
  on_timer_tick task := relay_to (on_timer_tick task) (on_timer_tick task);
  on_device_plugged s := relay_to on_device_plugged on_device_plugged s;
  close s := relay_to close close s
|}.

#[local] Existing Instance either_protocol.

Lemma map_run {A B} (f : A → B) (m : P A) h : (x ← m; mret (f x)) h = outcome_map f (m h).
Proof. rewrite bind_run. destruct (m h); [|done]. cbn. by rewrite app_nil_r. Qed.

Lemma step_left {E : Env} i (x : T1) h : step i (inl x : T1 + T2) h = outcome_map inl (step i x h).
Proof.
  destruct i; try apply map_run; cbn.
  - rewrite !bind_run. destruct (remove_pipe eid x h) as [[p y] o|]; [|done]. cbn. by rewrite !app_nil_r.
  - by destruct (set_option opt x).
Qed.

Lemma step_right {E : Env} i (x : T2) h : step i (inr x : T1 + T2) h = outcome_map inr (step i x h).
Proof.
  destruct i; try apply map_run; cbn.
  - rewrite !bind_run. destruct (remove_pipe eid x h) as [[p y] o|]; [|done]. cbn. by rewrite !app_nil_r.
  - by destruct (set_option opt x).
Qed.

Lemma runs_carry {A B} (f : A → B) Q (R : A → Prop) (R' : B → Prop) (m : P A) (m' : P B) :
  (∀ h, m' h = outcome_map f (m h)) → runs Q R m → (∀ a, R a → R' (f a)) → runs Q R' m'.
Proof.
  intros Heq Hm Hf h b out Hrun. rewrite Heq in Hrun. destruct (m h) as [a o|] eqn:Hr; [|done].
  injection Hrun as <- <-. destruct (Hm _ _ _ Hr). auto.
Qed.

#[export] Instance either_tenant : Tenant (T1 + T2).
Proof.
  refine {|
    tenant_protocol E := either_protocol;
    tenant_inv s := either tenant_inv tenant_inv s;
    tenant_guard i := either (tenant_guard i) (tenant_guard i);
    tenant_pending s := either tenant_pending tenant_pending s;
    tenant_timers s := either tenant_timers tenant_timers s;
    tenant_laden G := either (tenant_laden G) (tenant_laden G);
    tenant_asleep s := either tenant_asleep tenant_asleep s;
    tenant_asleep_guard i := either (tenant_asleep_guard i) (tenant_asleep_guard i)
  |}.
  - intros E i [x|x] h Hi Hg Ha; destruct (tenant_step_ok i x h Hi Hg Ha) as (s' & out & Hrun & Hi' & Han & Hc);
      (eexists _, out; split; [by rewrite ?step_left, ?step_right, Hrun|done]).
  - intros E i [x|x]; (eapply runs_carry; [intros h; first [apply step_left|apply step_right]|apply (tenant_discreet i x)|done]).
  - intros E i [x|x] h s' out Hrun; rewrite ?step_left, ?step_right in Hrun;
      (destruct (step i x h) as [y o|] eqn:Hx; [injection Hrun as <- <-; by apply (tenant_hands i x h y o)|done]).
  - split.
    + intros G G' [x|x] HG; by apply (prov_more _ _ tenant_provenance).
    + intros E G i [x|x] Hx Hi; (eapply runs_carry; [intros h; first [apply step_left|apply step_right]|
        by apply (prov_gives _ _ tenant_provenance G i x)|done]).
    + intros E G [x|x] Hx; (eapply runs_carry; [intros h; apply map_run|by apply (prov_close _ _ tenant_provenance G x)|done]).
  - intros E [x|x]; destruct (tenant_closes x) as [Hs Hc]; (split; [|eapply runs_carry; [apply map_run|exact Hc|done]]);
      (apply (settles_bind _ _ _ _ Hs); intros y Hy; by apply settles_ret).
  - intros E. split.
    + intros [x|x]; apply (sleeps_idle _ _ _ _ tenant_sleeps).
    + intros i [x|x] Hs Hg He h; destruct (sleeps_step _ _ _ _ tenant_sleeps i x Hs Hg He h) as (s' & o & Hrun & Ho);
        (eexists _, o; split; [by rewrite ?step_left, ?step_right, Hrun|done]).
    + intros [x|x] Hi Hp h; destruct (sleeps_close _ _ _ _ tenant_sleeps x Hi Hp h) as (s' & o & Hrun & Ho);
        (eexists _, o; split; [cbn; by rewrite map_run, Hrun|done]).
Defined.

End either.

(** ** Any protocol *)

Definition AnyProtocol : Type :=
  Push + Pull + Sub + Bus + Pub + Pair + Req + Rep + Respondent + Surveyor.

#[export] Instance AnyProtocol_tenant `{ByteOrder} : Tenant AnyProtocol := _.
