(* ===== verification/Timers.v ===== *)
(** * The schedule over the timer

    The reactor knows a timed task by a [Scheduled] id, the timer of mio-extras by
    a handle.  [Schedule] maps one to the other; nothing is ever taken out of it
    when a task fires.  [pending_tasks] is what the two mean together: the tasks
    that are to fire, by id.  Scheduling adds one, cancelling takes one out, and
    what fires is one of them, which is then gone. *)

From S2P Require Import Prelude Core Context Protocol Socket Probe Device Session.
From S2P Require Import AsyncPipe Acceptor Adapter.

(** What mio-extras documents of its timer: a handle names one timeout, from
    [set_timeout] until it fires or is cancelled; a handle that fired is not given
    again (a slot may be reused, but for a later tick). *)
Class TimerLaws (Tm Hd : Type) `{Timer Tm Hd} `{Countable Hd} : Type := {
  armed_tasks : Tm → gmap Hd Task;
  fired : Tm → gset Hd;
  law_set : ∀ delay task tm hd tm', set_timeout delay task tm = (hd, tm') →
    armed_tasks tm !! hd = None ∧ hd ∉ fired tm ∧
    armed_tasks tm' = <[hd := task]> (armed_tasks tm) ∧ fired tm' = fired tm;
  law_cancel : ∀ hd tm,
    armed_tasks (cancel_timeout hd tm) = delete hd (armed_tasks tm) ∧ fired (cancel_timeout hd tm) = fired tm;
  law_poll : ∀ now tm task tm', timer_poll now tm = (task, tm') →
    match task with
    | Some task => ∃ hd, armed_tasks tm !! hd = Some task ∧
        armed_tasks tm' = delete hd (armed_tasks tm) ∧ fired tm' = {[hd]} ∪ fired tm
    | None => armed_tasks tm' = armed_tasks tm ∧ fired tm' = fired tm
    end
}.

Section timers.
Context `{Build} {Tm Hd : Type} `{TimerLaws Tm Hd}.

(** The tasks that are to fire. *)
Definition pending_tasks (s : Schedule (Hd := Hd)) (tm : Tm) : gmap Scheduled Task :=
  omap (λ hd, armed_tasks tm !! hd) (items s).

Record schedule_ok (s : Schedule (Hd := Hd)) (tm : Tm) : Prop := {
  sch_positive : 0 <= sch_ids s;
  sch_drawn : ∀ t hd, items s !! t = Some hd → Scheduled_into t < sch_ids s;
  sch_once : ∀ t1 t2 hd, items s !! t1 = Some hd → items s !! t2 = Some hd → t1 = t2;
  sch_known : ∀ t hd, items s !! t = Some hd → is_Some (armed_tasks tm !! hd) ∨ hd ∈ fired tm;
  sch_all : ∀ hd task, armed_tasks tm !! hd = Some task → ∃ t, items s !! t = Some hd
}.

Lemma pending_lookup s tm t :
  pending_tasks s tm !! t = items s !! t ≫= λ hd, armed_tasks tm !! hd.
Proof. apply lookup_omap. Qed.

Lemma pending_drawn s tm t task :
  schedule_ok s tm → pending_tasks s tm !! t = Some task → Scheduled_into t < sch_ids s.
Proof.
  intros Hok. rewrite pending_lookup. destruct (items s !! t) as [hd|] eqn:Hi; [|done]. intros _.
  by eapply sch_drawn.
Qed.

(** Arming a timer and entering it. *)
Lemma schedule_insert_ok delay task s tm :
  schedule_ok s tm → sch_ids s + 1 < 2 ^ 64 →
  let '(hd, tm') := set_timeout delay task tm in
  let t := Scheduled_from (sch_ids s) in
  ∃ s', Schedule_insert hd s = Some (t, s') ∧ sch_ids s' = sch_ids s + 1 ∧ schedule_ok s' tm' ∧
    pending_tasks s tm !! t = None ∧ pending_tasks s' tm' = <[t := task]> (pending_tasks s tm).
Proof.
  intros Hok Hlt. destruct (set_timeout delay task tm) as [hd tm'] eqn:Hset.
  destruct (law_set _ _ _ _ _ Hset) as (Hnew & Hnf & Harm & Hfired). intros t.
  assert (Hfresh : items s !! t = None).
  { destruct (items s !! t) eqn:Hi; [|done]. pose proof (sch_drawn _ _ Hok _ _ Hi) as Hn. simpl in Hn. lia. }
  assert (Hother : ∀ t' hd', items s !! t' = Some hd' → hd' ≠ hd).
  { intros t' hd' Hi ->. destruct (sch_known _ _ Hok _ _ Hi) as [Ha|Hf]; [by rewrite Hnew in Ha; destruct Ha|done]. }
  eexists. split; [unfold Schedule_insert; by rewrite Sequence_next_fresh by (done || apply Hok)|].
  split; [done|]. split; [split; cbn [sch_ids items]|split].
  - pose proof (sch_positive _ _ Hok). lia.
  - intros t' hd'. destruct (decide (t' = t)) as [->|Hne]; [cbn; lia|]. rewrite lookup_insert_ne by done.
    intros Hi. pose proof (sch_drawn _ _ Hok _ _ Hi). lia.
  - intros t1 t2 hd'. fold t. destruct (decide (t1 = t)) as [->|Hn1], (decide (t2 = t)) as [->|Hn2];
      rewrite ?lookup_insert_eq, ?lookup_insert_ne by done; try done.
    + intros [= <-] Hi. by destruct (Hother _ _ Hi).
    + intros Hi [= <-]. by destruct (Hother _ _ Hi).
    + by apply (sch_once _ _ Hok).
  - intros t' hd'. fold t. rewrite Harm, Hfired. destruct (decide (t' = t)) as [->|Hne].
    + rewrite lookup_insert_eq. intros [= <-]. left. rewrite lookup_insert_eq. by eexists.
    + rewrite lookup_insert_ne by done. intros Hi. rewrite lookup_insert_ne by (symmetry; by eapply Hother).
      by apply (sch_known _ _ Hok _ _ Hi).
  - intros hd' task'. rewrite Harm. destruct (decide (hd' = hd)) as [->|Hne].
    + intros _. exists t. by rewrite lookup_insert_eq.
    + rewrite lookup_insert_ne by done. intros Ha. destruct (sch_all _ _ Hok _ _ Ha) as [t' Hi]. exists t'.
      rewrite lookup_insert_ne; [done|]. intros <-. fold t in Hi. congruence.
  - by rewrite pending_lookup, Hfresh.
  - apply map_eq. intros t'. rewrite pending_lookup. cbn [items]. fold t. rewrite Harm.
    destruct (decide (t' = t)) as [->|Hne].
    + rewrite !lookup_insert_eq. cbn. by rewrite lookup_insert_eq.
    + rewrite !lookup_insert_ne, pending_lookup by done. destruct (items s !! t') as [hd'|] eqn:Hi; [|done]. cbn.
      rewrite lookup_insert_ne; [done|]. intros <-. by eapply Hother.
Qed.

(** Cancelling: the task goes, if it is still to fire. *)
Lemma schedule_cancel_ok t s tm :
  schedule_ok s tm →
  let '(handle, s') := Schedule_remove t s in
  let tm' := match handle with Some hd => cancel_timeout hd tm | None => tm end in
  sch_ids s' = sch_ids s ∧ schedule_ok s' tm' ∧ pending_tasks s' tm' = delete t (pending_tasks s tm).
Proof.
  intros Hok. unfold Schedule_remove. cbn beta iota. cbn [sch_ids].
  destruct (items s !! t) as [hd|] eqn:Ht.
  - destruct (law_cancel hd tm) as [Harm Hfired]. split; [done|].
    assert (Hother : ∀ t' hd', t' ≠ t → items s !! t' = Some hd' → hd' ≠ hd).
    { intros t' hd' Hne Hi ->. by apply Hne, (sch_once _ _ Hok _ _ hd). }
    split; [split; cbn [sch_ids items]; [by apply (sch_positive _ _ Hok)|..]|].
    + intros t' hd' [_ Hi]%lookup_delete_Some. by apply (sch_drawn _ _ Hok _ _ Hi).
    + intros t1 t2 hd' [_ Hi1]%lookup_delete_Some [_ Hi2]%lookup_delete_Some. by apply (sch_once _ _ Hok _ _ hd').
    + intros t' hd' [Hne Hi]%lookup_delete_Some. rewrite Harm, Hfired, lookup_delete_ne by (symmetry; by apply (Hother t')).
      by apply (sch_known _ _ Hok _ _ Hi).
    + intros hd' task. rewrite Harm. intros [Hne Ha]%lookup_delete_Some. destruct (sch_all _ _ Hok _ _ Ha) as [t' Hi].
      exists t'. rewrite lookup_delete_ne; [done|]. intros <-. congruence.
    + apply map_eq. intros t'. rewrite pending_lookup. cbn [items]. rewrite Harm.
      destruct (decide (t' = t)) as [->|Hne]; [by rewrite !lookup_delete_eq|].
      rewrite !lookup_delete_ne, pending_lookup by done. destruct (items s !! t') as [hd'|] eqn:Hi; [|done]. cbn.
      rewrite lookup_delete_ne; [done|]. intros <-. by eapply Hother.
  - split; [done|]. rewrite delete_id by done. split; [by destruct s|].
    rewrite delete_id; [by destruct s|]. by rewrite pending_lookup, Ht.
Qed.

(** Firing: one of the tasks, which goes; its id stays in the schedule. *)
Lemma schedule_poll_ok now s tm :
  schedule_ok s tm →
  let '(task, tm') := timer_poll now tm in
  schedule_ok s tm' ∧
  match task with
  | Some task => ∃ t, pending_tasks s tm !! t = Some task ∧ pending_tasks s tm' = delete t (pending_tasks s tm)
  | None => pending_tasks s tm' = pending_tasks s tm
  end.
Proof.
  intros Hok. destruct (timer_poll now tm) as [[task|] tm'] eqn:Hpoll.
  - destruct (law_poll _ _ _ _ Hpoll) as (hd & Ha & Harm & Hfired).
    destruct (sch_all _ _ Hok _ _ Ha) as [t Ht].
    assert (Hother : ∀ t' hd', t' ≠ t → items s !! t' = Some hd' → hd' ≠ hd).
    { intros t' hd' Hne Hi ->. by apply Hne, (sch_once _ _ Hok _ _ hd). }
    split; [split; [apply Hok..| |]|].
    + intros t' hd' Hi. rewrite Harm, Hfired. destruct (decide (hd' = hd)) as [->|Hne]; [right; set_solver|].
      rewrite lookup_delete_ne by done. destruct (sch_known _ _ Hok _ _ Hi); [by left|right; set_solver].
    + intros hd' task'. rewrite Harm. intros [_ Ha']%lookup_delete_Some. by apply (sch_all _ _ Hok _ _ Ha').
    + exists t. split; [by rewrite pending_lookup, Ht|]. apply map_eq.
      intros t'. rewrite pending_lookup, Harm.
      destruct (decide (t' = t)) as [->|Hne]; [rewrite Ht; cbn; by rewrite !lookup_delete_eq|].
      rewrite lookup_delete_ne, pending_lookup by done. destruct (items s !! t') as [hd'|] eqn:Hi; [|done]. cbn.
      rewrite lookup_delete_ne; [done|]. intros <-. by eapply Hother.
  - destruct (law_poll _ _ _ _ Hpoll) as [Harm Hfired]. split.
    + destruct Hok as [Hp Hdr Ho Hk Ha]. split; rewrite ?Harm, ?Hfired; done.
    + apply map_eq. intros t'. by rewrite !pending_lookup, Harm.
Qed.

Lemma schedule_new_ok tm : armed_tasks tm = ∅ → schedule_ok (Schedule_new Sequence_new) tm ∧
  pending_tasks (Schedule_new Sequence_new) tm = ∅.
Proof.
  intros He. split; [split; try done|].
  - intros hd task. by rewrite He.
  - apply map_eq. intros t. by rewrite pending_lookup.
Qed.

End timers.

(** ** In the reactor *)

Section world.
Context `{Build} {Tr Pp Ac Net Tm Hd : Type} `{TimerLaws Tm Hd}.
Abbreviation W := (@World Tr Pp Ac Net Tm Hd).
Implicit Types w : W.

Definition clock_ok w : Prop := schedule_ok (schedule w) (timer w).
Definition to_fire w : gmap Scheduled Task := pending_tasks (schedule w) (timer w).
Definition next_timer w : Scheduled := Scheduled_from (sch_ids (schedule w)).

Lemma Scheduler_schedule_ok task delay w :
  clock_ok w → sch_ids (schedule w) + 1 < 2 ^ 64 →
  ∃ s t, Scheduler_schedule task delay w = Some (Ok (next_timer w), with_schedule s t w) ∧
    let w' := with_schedule s t w in
    clock_ok w' ∧ sch_ids s = sch_ids (schedule w) + 1 ∧ to_fire w !! next_timer w = None ∧
    to_fire w' = <[next_timer w := task]> (to_fire w).
Proof.
  intros Hok Hlt. pose proof (schedule_insert_ok delay task _ _ Hok Hlt) as Hins. unfold Scheduler_schedule.
  destruct (set_timeout delay task (timer w)) as [hd tm']. destruct Hins as (s' & Hs' & Hn & Hok' & Hnone & Heq).
  exists s', tm'. rewrite Hs'. split; [done|]. split; [exact Hok'|]. split; [exact Hn|]. split; [exact Hnone|exact Heq].
Qed.

Lemma Scheduler_cancel_ok t w :
  clock_ok w → ∃ s tm, Scheduler_cancel t w = with_schedule s tm w ∧
    let w' := with_schedule s tm w in
    clock_ok w' ∧ sch_ids s = sch_ids (schedule w) ∧ to_fire w' = delete t (to_fire w).
Proof.
  intros Hok. pose proof (schedule_cancel_ok t _ _ Hok) as Hc. unfold Scheduler_cancel.
  destruct (Schedule_remove t (schedule w)) as [[hd|] s']; destruct Hc as (Hn & Hok' & Heq);
    eexists s', _; (split; [done|]); (split; [exact Hok'|]); (split; [exact Hn|exact Heq]).
Qed.

Lemma timer_poll_ok now w :
  clock_ok w →
  let '(task, tm) := timer_poll now (timer w) in
  let w' := with_schedule (schedule w) tm w in
  clock_ok w' ∧
  match task with
  | Some task => ∃ t, to_fire w !! t = Some task ∧ to_fire w' = delete t (to_fire w)
  | None => to_fire w' = to_fire w
  end.
Proof.
  intros Hok. pose proof (schedule_poll_ok now _ _ Hok) as Hp.
  destruct (timer_poll now (timer w)) as [task tm]. exact Hp.
Qed.

(** What is asked of the schedule, and what it answers. *)
Inductive timer_op : Type :=
| OpSchedule (task : Task) (delay : Duration)
| OpCancel (t : Scheduled)
| OpPoll (now : Z).

Inductive timer_answer : Type :=
| AnsScheduled (t : Scheduled)
| AnsCancelled
| AnsFired (task : option Task).

Definition timer_step (op : timer_op) w : option (timer_answer * W) :=
  match op with
  | OpSchedule task delay =>
      '(r, w) ← Scheduler_schedule task delay w;
      match r with Ok t => Some (AnsScheduled t, w) | Err _ => None end
  | OpCancel t => Some (AnsCancelled, Scheduler_cancel t w)
  | OpPoll now =>
      let '(task, tm) := timer_poll now (timer w) in
      Some (AnsFired task, with_schedule (schedule w) tm w)
  end.

Fixpoint timer_run (ops : list timer_op) w : option (list timer_answer * W) :=
  match ops with
  | [] => Some ([], w)
  | op :: rest =>
      '(a, w) ← timer_step op w;
      '(rest, w) ← timer_run rest w;
      Some (a :: rest, w)
  end.

(** The specification: the tasks to fire, under ids that are never given twice. *)
Inductive spec_step : timer_op → Z * gmap Scheduled Task → timer_answer → Z * gmap Scheduled Task → Prop :=
| spec_schedule n m task delay :
    m !! Scheduled_from n = None →
    spec_step (OpSchedule task delay) (n, m) (AnsScheduled (Scheduled_from n)) (n + 1, <[Scheduled_from n := task]> m)
| spec_cancel n m t : spec_step (OpCancel t) (n, m) AnsCancelled (n, delete t m)
| spec_fire n m t task now :
    m !! t = Some task → spec_step (OpPoll now) (n, m) (AnsFired (Some task)) (n, delete t m)
| spec_idle n m now : spec_step (OpPoll now) (n, m) (AnsFired None) (n, m).

Inductive spec_run : list timer_op → Z * gmap Scheduled Task → list timer_answer → Z * gmap Scheduled Task → Prop :=
| spec_end s : spec_run [] s [] s
| spec_more op ops s a s' rest s'' :
    spec_step op s a s' → spec_run ops s' rest s'' → spec_run (op :: ops) s (a :: rest) s''.

Definition spec_of w : Z * gmap Scheduled Task := (sch_ids (schedule w), to_fire w).

Lemma timer_step_ok op w :
  clock_ok w → sch_ids (schedule w) + 1 < 2 ^ 64 →
  ∃ a w', timer_step op w = Some (a, w') ∧ clock_ok w' ∧ sch_ids (schedule w') <= sch_ids (schedule w) + 1 ∧
    spec_step op (spec_of w) a (spec_of w').
Proof.
  intros Hok Hlt. destruct op as [task delay|t|now]; unfold timer_step, spec_of.
  - destruct (Scheduler_schedule_ok task delay w Hok Hlt) as (s & t & -> & Hok' & Hn & Hnone & Heq).
    eexists _, _. split; [done|]. split; [done|]. cbn [schedule with_schedule] in *. rewrite Hn. split; [lia|].
    rewrite Heq. by constructor.
  - destruct (Scheduler_cancel_ok t w Hok) as (s & tm & -> & Hok' & Hn & Heq).
    eexists _, _. split; [done|]. split; [done|]. cbn [schedule with_schedule] in *. rewrite Hn. split; [lia|].
    rewrite Heq. constructor.
  - pose proof (timer_poll_ok now w Hok) as Hp. destruct (timer_poll now (timer w)) as [task tm]. destruct Hp as [Hok' Hp].
    eexists _, _. split; [done|]. split; [done|]. split; [cbn; lia|]. cbn [schedule with_schedule].
    destruct task as [task|]; [destruct Hp as (t & Ht & ->); by econstructor|]. rewrite Hp. constructor.
Qed.

(** C9: The schedule of the reactor, an id table over the timer of mio-extras that
    forgets nothing when a task fires, implements its specification: ids are
    never given twice, what fires was scheduled, was not cancelled, and fires
    once; cancelling an id takes out its task and no other, even when the
    task fired long ago. *)
Theorem schedule_refines w ops :
  armed_tasks (timer w) = ∅ → schedule w = Schedule_new Sequence_new → Z.of_nat (length ops) < 2 ^ 64 →
  ∃ answers w', timer_run ops w = Some (answers, w') ∧ spec_run ops (0, ∅) answers (spec_of w').
Proof.
  intros Hempty Hnew Hlen. destruct (schedule_new_ok (timer w) Hempty) as [Hok Hnone].
  rewrite <- Hnew in Hok. change (schedule_ok (schedule w) (timer w)) with (clock_ok w) in Hok.
  assert (Hs : spec_of w = (0, ∅)) by (unfold spec_of, to_fire; by rewrite Hnew, Hnone). rewrite <- Hs.
  assert (Hlt : sch_ids (schedule w) + Z.of_nat (length ops) < 2 ^ 64) by (rewrite Hnew; done).
  clear Hempty Hnew Hlen Hnone Hs. revert w Hok Hlt.
  induction ops as [|op ops IH]; intros w Hok Hlt; [by eexists [], w; repeat constructor|]. cbn [length timer_run] in *.
  destruct (timer_step_ok op w Hok) as (a & w1 & Hst & Hok1 & Hn & Hspec); [lia|].
  destruct (IH w1 Hok1) as (rest & w2 & Hrun & Hspecs); [lia|]. exists (a :: rest), w2. rewrite Hst. simpl. rewrite Hrun.
  split; [done|]. by econstructor.
Qed.

End world.

(** ** A timer that is a list *)

(** The timeouts by handle, with when they are due, and the handles that fired. *)
Record ListTimer : Type := mkListTimer { clock : Z; due : gmap N (Z * Task); rung : gset N }.

Definition new_handle (tm : ListTimer) : N :=
  (1 + foldr N.max 0 (elements (dom (due tm) ∪ rung tm)))%N.

Definition list_set_timeout (delay : Duration) (task : Task) (tm : ListTimer) : N * ListTimer :=
  (new_handle tm, mkListTimer (clock tm) (<[new_handle tm := (clock tm + delay, task)]> (due tm)) (rung tm)).
Definition list_cancel (hd : N) (tm : ListTimer) : ListTimer := mkListTimer (clock tm) (delete hd (due tm)) (rung tm).
Definition list_poll (now : Z) (tm : ListTimer) : option Task * ListTimer :=
  match filter (λ e, e.2.1 <= now) (map_to_list (due tm)) with
  | [] => (None, mkListTimer now (due tm) (rung tm))
  | (hd, (_, task)) :: _ => (Some task, mkListTimer now (delete hd (due tm)) ({[hd]} ∪ rung tm))
  end.

#[export] Instance ListTimer_timer : Timer ListTimer N := {|
  set_timeout := list_set_timeout; cancel_timeout := list_cancel; timer_poll := list_poll |}.

Lemma new_handle_fresh tm hd : hd ∈ dom (due tm) ∪ rung tm → (hd < new_handle tm)%N.
Proof.
  rewrite <- elem_of_elements. unfold new_handle. generalize (elements (dom (due tm) ∪ rung tm)) as l.
  induction l as [|x l IH]; intros Hin; [by apply elem_of_nil in Hin|].
  apply elem_of_cons in Hin as [->|Hin]; cbn [foldr]; [lia|]. specialize (IH Hin). lia.
Qed.

#[export] Instance ListTimer_laws : TimerLaws ListTimer N.
Proof.
  refine {| armed_tasks tm := snd <$> due tm; fired := rung |}.
  - intros delay task tm hd tm' [= <- <-]. split; [|split; [|split; [exact (fmap_insert snd _ _ _)|done]]].
    + rewrite lookup_fmap. destruct (due tm !! new_handle tm) eqn:Hl; [|done].
      assert (Hin : new_handle tm ∈ dom (due tm) ∪ rung tm) by (apply elem_of_union; left; by apply elem_of_dom_2 in Hl).
      apply new_handle_fresh in Hin. lia.
    + intros Hin. assert (Hin' : new_handle tm ∈ dom (due tm) ∪ rung tm) by set_solver.
      apply new_handle_fresh in Hin'. lia.
  - intros hd tm. split; [apply fmap_delete|done].
  - intros now tm task tm' Hpoll. unfold timer_poll, ListTimer_timer, list_poll in Hpoll.
    destruct (filter _ _) as [|[hd [at_ task']] l] eqn:Hf; injection Hpoll as <- <-; [done|].
    exists hd. split; [|split; [apply fmap_delete|done]].
    assert (Hin : (hd, (at_, task')) ∈ map_to_list (due tm)).
    { assert (Hin : (hd, (at_, task')) ∈ filter (λ e : N * (Z * Task), e.2.1 <= now) (map_to_list (due tm)))
        by (rewrite Hf; apply list_elem_of_here). by apply list_elem_of_filter in Hin as [_ Hin]. }
    apply elem_of_map_to_list in Hin. by rewrite lookup_fmap, Hin.
Defined.

Lemma schedule_refines_witness :
  let w : @World () () () () ListTimer N :=
    mkWorld EventLoopBus_new Sequence_new (EndpointCollection_new ∅) (Schedule_new Sequence_new) (mkListTimer 0 ∅ ∅) () in
  let ops := [OpSchedule (TaskProbe (ProbeId_from 7)) 10; OpSchedule (TaskProbe (ProbeId_from 8)) 20; OpPoll 15;
              OpCancel (Scheduled_from 0); OpSchedule (TaskProbe (ProbeId_from 9)) 1; OpPoll 15; OpCancel (Scheduled_from 1); OpPoll 99] in
  let B := {| overflow_checks := true |} in
  ∃ w', timer_run ops w = Some ([AnsScheduled (Scheduled_from 0); AnsScheduled (Scheduled_from 1);
        AnsFired (Some (TaskProbe (ProbeId_from 7))); AnsCancelled; AnsScheduled (Scheduled_from 2); AnsFired None; AnsCancelled;
        AnsFired (Some (TaskProbe (ProbeId_from 9)))], w') ∧
    spec_run ops (0, ∅) [AnsScheduled (Scheduled_from 0); AnsScheduled (Scheduled_from 1);
        AnsFired (Some (TaskProbe (ProbeId_from 7))); AnsCancelled; AnsScheduled (Scheduled_from 2); AnsFired None; AnsCancelled;
        AnsFired (Some (TaskProbe (ProbeId_from 9)))] (spec_of w').
Proof.
  intros w ops B.
  destruct (schedule_refines w ops) as (answers & w' & Hrun & Hspec); [by vm_compute|done|by vm_compute|].
  exists w'. assert (Hans : answers = (default ([], w) (timer_run ops w)).1) by (by rewrite Hrun).
  vm_compute in Hans. rewrite Hans in Hrun, Hspec. by split.
Defined.
