(* ===== verification/Reactor.v ===== *)
(** * Sockets in the reactor

    The contract of the sockets supposes that a timer fires only while its request
    waits.  The reactor sees to it: [reactor_conversation] shows that, however
    requests, signals, timeouts and readiness interleave over any number of
    sockets, devices and probes, the thread does not panic and each socket answers
    its requests one by one. *)

From S2P Require Import Prelude Core Context Protocol Socket Probe Device Session.
From S2P Require Import AsyncPipe Acceptor Adapter Dispatcher Closed Delivery Tenants Timers.

(** ** A socket and its timers *)

Definition request_of_task (task : Schedulable) : option kind :=
  match task with TaskSendTimeout => Some KSend | TaskRecvTimeout => Some KRecv | _ => None end.

Section socket_timers.
Context {T : Type} `{Tenant T} {E : Env}.
Implicit Types (self : Socket T) (c : call).

(** [out], from a handler that ran against [h], arms the timer [t] for [task] and
    leaves it so. *)
Definition arms (task : Schedulable) (h out : trace) (t : Scheduled) : Prop :=
  ∃ o1 d o2, out = o1 ++ SchSchedule task d :: o2 ∧ schedule_answer (h ++ o1) task d = Ok t ∧ t ∉ cancels o2.

Lemma discreet_arms task h out t : Forall discreet out → is_request_task task = true → ¬ arms task h out t.
Proof.
  intros Hd Ht (o1 & d & o2 & -> & _). apply Forall_app in Hd as [_ Hd]. apply Forall_cons in Hd as [Hd _].
  simpl in Hd. congruence.
Qed.

(** The calls of the protocol are discreet. *)
#[local] Hint Extern 1 => as_step; apply tenant_discreet : handler.

(** The calls that arm no timer of a request. *)
Definition unarmed c self : Prop :=
  match c with
  | CSend _ => get_send_timeout self = None
  | CRecv => get_recv_timeout self = None
  | _ => True
  end.

Lemma unarmed_discreet c self : unarmed c self → every discreet (Socket_step c self).
Proof.
  destruct c; intros Hu; simpl in Hu; simpl Socket_step; unfold Socket_send, Socket_recv; rewrite ?Hu; tread.
Qed.

(** A timed request: the timer armed is that of the request, or is cancelled. *)
Lemma timed_arms task0 d k f i self h self' out task t k' :
  is_request_task task0 = true → request_of_task task0 = Some k →
  (∀ t0, step (i t0) (protocol self) = f t0 (protocol self)) → (∀ t0, request (i t0) = Some (k, Some t0)) →
  tenant_inv (protocol self) → (∀ t0, schedule_answer h task0 d = Ok t0 → tenant_guard (i t0) (protocol self) = true) →
  tenant_pending (protocol self) = None →
  (r ← ctx_schedule task0 d;
   match r with
   | Ok timeout => ask (f timeout) self
   | Err e => send_reply (ReplyErr e);; mret self
   end) h = Done self' out →
  request_of_task task = Some k' → arms task h out t → tenant_pending (protocol self') = Some (k', Some t).
Proof.
  intros Ht0 Hk Hstep Hreq Hinv Hg Hpend Hrun Hk' (o1 & d' & o2 & Hout & Hans & Hnc).
  assert (Ht : is_request_task task = true) by (by destruct task).
  unfold ctx_schedule, history in Hrun. rewrite !bind_run in Hrun. cbn [app] in Hrun. rewrite app_nil_r in Hrun.
  rewrite emit_run, ret_run in Hrun. cbn [app] in Hrun.
  destruct (schedule_answer h task0 d) as [t0|e] eqn:Hs; cbv beta iota in Hrun.
  - unfold ask in Hrun. rewrite bind_run, <- Hstep in Hrun.
    destruct (tenant_step_ok (i t0) (protocol self) (h ++ [SchSchedule task0 d]) Hinv (Hg t0 eq_refl)) as (s' & o & Hst & _ & _ & Hc).
    { unfold allowed. by rewrite Hreq, Hpend. }
    pose proof (tenant_discreet (i t0) (protocol self) _ _ _ Hst) as [Hd _].
    rewrite Hst, ret_run, app_nil_r in Hrun. injection Hrun as <- <-. cbn [protocol set_protocol].
    destruct o1 as [|e1 o1]; cbn [app] in Hout.
    + injection Hout as <- <- <-. rewrite app_nil_r in Hans. rewrite Hs in Hans. injection Hans as <-.
      rewrite Hk in Hk'. injection Hk' as <-. rewrite Hpend in Hc.
      inversion Hc; subst; rewrite Hreq in *; simplify_eq; [|done]. exfalso. set_solver.
    + injection Hout as _ Ho. exfalso. rewrite Ho in Hd. apply Forall_app in Hd as [_ Hd].
      apply Forall_cons in Hd as [Hd _]. simpl in Hd. congruence.
  - unfold send_reply in Hrun. cbn in Hrun. injection Hrun as <- <-. destruct o1 as [|e1 [|e2 o1]]; cbn [app] in Hout.
    + injection Hout as <- <- <-. rewrite app_nil_r in Hans. congruence.
    + by injection Hout.
    + injection Hout as _ _ Ho. by destruct o1.
Qed.

(** What the facade and the network must see to; the reactor sees to the timers. *)
Definition call_guarded c self : bool :=
  match demanded c, tenant_pending (protocol self) with Some _, Some _ => false | _, _ => true end &&
  match relay c self [] with Some i => tenant_guard i (protocol self) | None => true end.

Definition fires_call c : option kind :=
  match c with CSendTimeout => Some KSend | CRecvTimeout => Some KRecv | _ => None end.

Definition timely c self : Prop :=
  ∀ k, fires_call c = Some k → ∃ t, tenant_pending (protocol self) = Some (k, Some t).

Lemma guarded_allowed c self : call_guarded c self = true → timely c self → sock_allowed c self [] = true.
Proof.
  intros [Hone Hg]%andb_true_iff Ht. unfold sock_allowed. apply andb_true_iff. split; [exact Hone|].
  destruct (relay c self []) as [i|] eqn:Hrel; [|done]. apply andb_true_iff. split; [exact Hg|].
  unfold allowed. destruct (request i) as [[k t]|] eqn:Hreq.
  - pose proof (relay_request c self [] i Hrel) as Hd. change (pending (protocol self)) with (tenant_pending (protocol self)).
    destruct (demanded c) as [[]|]; rewrite Hreq in Hd; simpl in Hd; try done; try (by destruct (tenant_pending (protocol self))).
  - destruct (fires i) as [k|] eqn:Hf; [|done]. pose proof (relay_fires c self [] i k Hrel Hf) as ->.
    destruct (Ht k) as [t Hp]; [by destruct k|]. change (pending (protocol self)) with (tenant_pending (protocol self)).
    rewrite Hp. by apply bool_decide_eq_true.
Qed.

(** What a closed socket is still called for: what was on its way to it. *)
Definition call_quiet c self : bool :=
  match demanded c with Some _ => false | None => true end &&
  match relay c self [] with Some i => tenant_asleep_guard i (protocol self) | None => true end.

(** A call, run against a fresh history: the facade's side, and the timers. *)
Record stepped (Q : T → Prop) c self (out : trace) self' : Prop := {
  st_id : sock_id self' = sock_id self;
  st_inv : Q (protocol self');
  st_balanced : balanced (waiting self ++ option_list (demanded c)) out (waiting self');
  st_keeps : ∀ k t, tenant_pending (protocol self) = Some (k, Some t) → fires_call c ≠ Some k →
    tenant_pending (protocol self') = Some (k, Some t) ∨ t ∈ cancels out;
  st_arms : ∀ task k t, request_of_task task = Some k → arms task [] out t →
    tenant_pending (protocol self') = Some (k, Some t)
}.

Lemma step_keeps_id c self h self' out : Socket_step c self h = Done self' out → sock_id self' = sock_id self.
Proof.
  assert (Hk : runs (λ _ : effect, True) (λ s : Socket T, sock_id s = sock_id self) (Socket_step c self)).
  { assert (Hask : ∀ f s, sock_id s = sock_id self → runs (λ _ : effect, True) (λ s : Socket T, sock_id s = sock_id self) (ask f s)).
    { intros f s Hs h0 a o. unfold ask. rewrite bind_run. destruct (f _ h0); [|done]. cbn. intros [= <- <-].
      split; [apply Forall_true|]; done. }
    assert (Hany : ∀ {A} (m : P A), every (λ _ : effect, True) m) by (intros A m h0 a o _; split; [by apply Forall_true|done]).
    assert (Hrm : ∀ eid s, sock_id s = sock_id self → runs (λ _ : effect, True) (λ rs : option EndpointSpec * Socket T, sock_id rs.2 = sock_id self) (Socket_remove_pipe eid s)).
    { intros eid s Hs. unfold Socket_remove_pipe. destruct (sock_pipes s !! eid); [apply every_bind; [apply Hany|intros; by apply runs_ret]|].
      apply every_bind; [apply Hany|]. intros [[p|] s']; [apply every_bind; [apply Hany|]; intros|]; by apply runs_ret. }
    assert (Hra : ∀ eid s, sock_id s = sock_id self →
      runs (λ _ : effect, True) (λ rs : option EndpointSpec * Socket T, sock_id rs.2 = sock_id self) (remove_acceptor eid s)).
    { intros eid s Hs. unfold remove_acceptor. destruct (acceptors s !! eid); [|by apply runs_ret].
      apply every_bind; [apply Hany|intros; by apply runs_ret]. }
    assert (Hopt : ∀ opt s r (s' : Socket T), sock_id s = sock_id self →
      (if is_generic opt then let '(res, config) := Config_set opt (config s) in (res, set_config config s)
       else let '(res, proto) := set_option opt (protocol s) in (res, set_protocol proto s)) = (r, s') → sock_id s' = sock_id self).
    { intros opt s r s' Hs. destruct (is_generic opt); [destruct (Config_set opt (config s))|destruct (set_option opt (protocol s))]; by intros [= _ <-]. }
    destruct c; simpl Socket_step; unfold Socket_connect, Socket_bind, Socket_send, Socket_try_send, Socket_recv, Socket_try_recv,
      Socket_set_option, Socket_poll, Socket_reconnect, Socket_rebind, on_pipe_opened, on_pipe_accepted, close_pipe,
      on_pipe_error, on_acceptor_error, close_acceptor, Socket_on_send_ack, Socket_on_send_timeout,
      Socket_on_send_ready, Socket_on_recv_ack, Socket_on_recv_timeout, Socket_on_recv_ready, Socket_on_timer_tick,
      Socket_on_device_plugged, on_connect_success, on_connect_error, on_bind_success, on_bind_error, on_reconnect_success,
      on_reconnect_error, on_rebind_success, on_rebind_error, Socket_insert_pipe, insert_acceptor, schedule_reconnect, schedule_rebind;
    repeat first
      [ solve [by apply Hask] | by apply runs_ret | by apply runs_ret; eapply Hopt
      | eapply runs_bind; [first [by apply Hrm|by apply Hra]|intros [? ?] ?; cbn [snd] in *]
      | apply (runs_bind _ (λ s : Socket T, sock_id s = sock_id self)); [|intros ? ?]
      | apply every_bind; [by apply Hany|intros ?]
      | match goal with |- runs _ _ (match ?x with _ => _ end) => destruct x eqn:? end ]. }
  intros Hrun. by destruct (Hk _ _ _ Hrun).
Qed.

Lemma guarded_one c self d : call_guarded c self = true → demanded c = Some d → tenant_pending (protocol self) = None.
Proof. unfold call_guarded. intros [Ho _]%andb_true_iff Hd. rewrite Hd in Ho. by destruct (tenant_pending _). Qed.

Lemma step_arms c self self' out task k t :
  tenant_inv (protocol self) → call_guarded c self = true → Socket_step c self [] = Done self' out →
  request_of_task task = Some k → arms task [] out t → tenant_pending (protocol self') = Some (k, Some t).
Proof.
  intros Hinv Hg Hrun Hk Harm.
  assert (Hun : ¬ unarmed c self).
  { intros Hu. apply (discreet_arms task [] out t); [by apply (unarmed_discreet c self Hu _ _ _ Hrun)|by destruct task|done]. }
  pose proof (guarded_one c self) as Hone. unfold call_guarded in Hg. apply andb_true_iff in Hg as [Ho Hg].
  assert (Hg' : call_guarded c self = true) by (unfold call_guarded; by rewrite Ho).
  destruct c as [u|u|msg|msg| | |opt| |eid sp|eid sp|eid|aid eid|eid|eid err|eid err|eid|eid| |eid ready
    |eid msg| |eid ready|tk|]; try (by destruct Hun); simpl in Hun; simpl Socket_step in Hrun; unfold Socket_send, Socket_recv in Hrun.
  - destruct (get_send_timeout self) as [d|] eqn:Hd; [|done].
    eapply (timed_arms TaskSendTimeout d KSend (λ t0, send msg (Some t0)) (λ t0, ISend msg (Some t0)) self []); try done; [|by eapply Hone].
    intros t0 Hs. simpl relay in Hg. unfold armed in Hg. rewrite Hd in Hg. cbn in Hg. by rewrite Hs in Hg.
  - destruct (get_recv_timeout self) as [d|] eqn:Hd; [|done].
    eapply (timed_arms TaskRecvTimeout d KRecv (λ t0, recv (Some t0)) (λ t0, IRecv (Some t0)) self []); try done; [|by eapply Hone].
    intros t0 Hs. simpl relay in Hg. unfold armed in Hg. rewrite Hd in Hg. cbn in Hg. by rewrite Hs in Hg.
Qed.

Lemma step_stepped c self :
  tenant_inv (protocol self) → call_guarded c self = true → timely c self →
  ∃ self' out, Socket_step c self [] = Done self' out ∧ stepped tenant_inv c self out self'.
Proof.
  intros Hinv Hg Ht. destruct (Socket_step_ok (H1 := tenant_contract) c self [] Hinv (guarded_allowed c self Hg Ht))
    as (self' & out & Hrun & Hinv' & _ & Hdis & Hbal).
  exists self', out. split; [done|]. split; [by eapply step_keeps_id|done|done| |].
  - intros k t Hp Hf. destruct (Hdis k t Hp) as [?|[?|Hc]]; [by left|by right|]. exfalso. apply Hf. subst c. by destruct k.
  - intros task k t. by apply (step_arms c self).
Qed.

Lemma relay_event c self i : relay c self [] = Some i → demanded c = None → fires_call c = None → is_event i.
Proof.
  destruct c; try done; cbn; intros Hrel _ _; repeat case_match; simplify_eq; try done.
  apply fmap_Some in Hrel as (p & _ & ->). done.
Qed.

(** A closed socket takes what still comes: no panic, no reply, no timer of a
    request, and its protocol stays asleep. *)
Lemma step_asleep c self :
  tenant_asleep (protocol self) → call_quiet c self = true → fires_call c = None →
  ∃ self' out, Socket_step c self [] = Done self' out ∧ stepped tenant_asleep c self out self'.
Proof.
  intros Hinv [Hd Hg]%andb_true_iff Hf. destruct (demanded c) eqn:Hdem; [done|].
  assert (Hgo : ∃ self' out, Socket_step c self [] = Done self' out ∧ tenant_asleep (protocol self') ∧ replies out = []).
  { destruct (relay c self []) as [i|] eqn:Hrel.
    - destruct (relayed c self [] i Hrel) as (pre & _ & Hpre & Hgo).
      destruct (sleeps_step _ _ _ _ tenant_sleeps i (protocol self) Hinv Hg (relay_event c self i Hrel Hdem Hf) ([] ++ pre))
        as (p & o & Hrun & Ho & Hp).
      destruct (Hgo p o Hrun) as (self' & post & Hs & <- & _ & Hown). exists self', (pre ++ o ++ post). split; [done|]. split; [done|].
      rewrite !replies_app, Hpre, Ho. by destruct c.
    - destruct (unrelayed c self [] Hrel) as (self' & out & Hs & Hp & _ & Ha & _).
      exists self', out. rewrite Hp. split; [done|]. split; [done|]. unfold answered_here in Ha. rewrite Hdem in Ha. by inversion Ha. }
  destruct Hgo as (self' & out & Hrun & Hp & Ho). exists self', out. split; [done|].
  assert (Hpend : tenant_pending (protocol self) = None) by by apply (sleeps_idle _ _ _ _ tenant_sleeps).
  assert (Hpend' : tenant_pending (protocol self') = None) by by apply (sleeps_idle _ _ _ _ tenant_sleeps).
  split; [by eapply step_keeps_id|done| | |].
  - exists []. unfold waiting. change (pending (protocol self)) with (tenant_pending (protocol self)).
    change (pending (protocol self')) with (tenant_pending (protocol self')). by rewrite Hpend, Hpend', Hdem, Ho.
  - intros k t Hk. congruence.
  - intros task k t Hk Harm. exfalso. apply (discreet_arms task [] out t); [|by destruct task|done].
    apply (unarmed_discreet c self) in Hrun; [by apply Hrun|by destruct c].
Qed.

End socket_timers.

(** ** Carrying out what a handler did *)

Section carry.
Context `{Build} {Tr Pp Ac Net Tm Hd : Type}.
Context `{PipeTrait Pp} `{AcceptorTrait Pp Ac} `{Transport Tr Pp Ac Net} `{TimerLaws Tm Hd} `{HashOrder}.
Abbreviation W := (@World Tr Pp Ac Net Tm Hd).
Implicit Types w : W.

(** [n] more ids and timers can be drawn. *)
Definition room (n : nat) w : bool :=
  bool_decide (ids w + Z.of_nat n < 2 ^ 64 ∧ sch_ids (schedule w) + Z.of_nat n < 2 ^ 64).

Lemma room_le n m w : (m <= n)%nat → room n w = true → room m w = true.
Proof. unfold room. intros Hle Hr. apply bool_decide_eq_true in Hr. apply bool_decide_eq_true. lia. Qed.

(** The world goes on: its clock is sound and no id is drawn twice. *)
Record goes_on (n : nat) w w' : Prop := {
  on_clock : clock_ok w';
  on_ids : ids w <= ids w' <= ids w + Z.of_nat n;
  on_timers : sch_ids (schedule w) <= sch_ids (schedule w') <= sch_ids (schedule w) + Z.of_nat n
}.

Lemma goes_on_refl w : clock_ok w → goes_on 0 w w.
Proof. intros Hc. split; [done|lia..]. Qed.

Lemma goes_on_trans n m w1 w2 w3 : goes_on n w1 w2 → goes_on m w2 w3 → goes_on (n + m) w1 w3.
Proof. intros [? ? ?] [? ? ?]. split; [done|lia..]. Qed.

Lemma goes_on_le n m w w' : goes_on n w w' → (n <= m)%nat → goes_on m w w'.
Proof. intros [? ? ?] Hle. split; [done|lia..]. Qed.

Lemma room_left n m w w' : goes_on n w w' → room (n + m) w = true → room m w' = true.
Proof. unfold room. intros [_ Hi Ht] Hr. apply bool_decide_eq_true in Hr. apply bool_decide_eq_true. lia. Qed.

(** Two worlds with the same clock and ids. *)
Definition same_clock w w' : Prop := schedule w' = schedule w ∧ timer w' = timer w ∧ ids w' = ids w.

Lemma same_clock_on w w' : clock_ok w → same_clock w w' → goes_on 0 w w' ∧ to_fire w' = to_fire w.
Proof.
  intros Hc (Hs & Ht & Hi). unfold to_fire, clock_ok in *. rewrite Hs, Ht. split; [|done].
  split; [unfold clock_ok; by rewrite Hs, Ht|rewrite Hi; lia|rewrite Hs; lia].
Qed.

Definition after_act (sid : SocketId) (e : effect) w : gmap Scheduled Task :=
  match e with
  | SchSchedule task _ => <[next_timer w := TaskSocket sid task]> (to_fire w)
  | SchCancel t => delete t (to_fire w)
  | _ => to_fire w
  end.

Lemma dial_same {X} (go : Tr → Destination → Net → result X * Net) tmpl w r w' :
  dial go tmpl w = (r, w') → same_clock w w' ∧ endpoints w' = endpoints w.
Proof.
  unfold dial. destruct (split_url _) as [[sch a]|]; [|by intros [= <- <-]].
  destruct (get_transport _ _); [|by intros [= <- <-]]. destruct (go _ _ _). by intros [= <- <-].
Qed.

Lemma drawn_on w i e : clock_ok w → ids w <= i <= ids w + 1 → goes_on 1 w (with_endpoints i e w).
Proof. intros Hc Hi. split; cbn; [done|lia|lia]. Qed.

Lemma same_clock_trans w1 w2 w3 : same_clock w1 w2 → same_clock w2 w3 → same_clock w1 w3.
Proof. unfold same_clock. intuition congruence. Qed.

Lemma Network_connect_on sid tmpl w :
  clock_ok w → 0 <= ids w → room 1 w = true →
  ∃ r w', Network_connect sid tmpl w = Some (r, w') ∧ goes_on 1 w w' ∧ to_fire w' = to_fire w.
Proof.
  intros Hc Hp [Hr _]%bool_decide_eq_true. unfold Network_connect, SocketContext_connect.
  destruct (dial transport_connect tmpl w) as [[pipe|e] w1] eqn:Hdial; destruct (dial_same _ _ _ _ _ Hdial) as [Hs _];
    destruct (same_clock_on w w1 Hc Hs) as [Hon Hf].
  - unfold insert_pipe. rewrite Sequence_next_fresh by (destruct Hs as (_ & _ & ->); lia).
    eexists _, _. split; [reflexivity|]. split; [|exact Hf].
    apply (goes_on_trans 0 1 _ w1); [done|]. apply drawn_on; [apply Hon|lia].
  - eexists _, _. split; [reflexivity|]. split; [by apply (goes_on_le 0); [|lia]|done].
Qed.

Lemma Network_bind_on sid tmpl w :
  clock_ok w → 0 <= ids w → room 1 w = true →
  ∃ r w', Network_bind sid tmpl w = Some (r, w') ∧ goes_on 1 w w' ∧ to_fire w' = to_fire w.
Proof.
  intros Hc Hp [Hr _]%bool_decide_eq_true. unfold Network_bind, SocketContext_bind.
  destruct (dial transport_bind tmpl w) as [[acc|e] w1] eqn:Hdial; destruct (dial_same _ _ _ _ _ Hdial) as [Hs _];
    destruct (same_clock_on w w1 Hc Hs) as [Hon Hf].
  - unfold ep_insert_acceptor. rewrite Sequence_next_fresh by (destruct Hs as (_ & _ & ->); lia).
    eexists _, _. split; [reflexivity|]. split; [|exact Hf].
    apply (goes_on_trans 0 1 _ w1); [done|]. apply drawn_on; [apply Hon|lia].
  - eexists _, _. split; [reflexivity|]. split; [by apply (goes_on_le 0); [|lia]|done].
Qed.

Lemma same_clock_act w w' : clock_ok w → same_clock w w' → goes_on 1 w w' ∧ to_fire w' = to_fire w.
Proof. intros Hc Hs. destruct (same_clock_on w w' Hc Hs). split; [by apply (goes_on_le 0); [|lia]|done]. Qed.

Lemma Network_reconnect_same sid eid tmpl w : same_clock w (Network_reconnect sid eid tmpl w).2.
Proof.
  unfold Network_reconnect, SocketContext_connect. destruct (dial transport_connect tmpl w) as [[p|e] w1] eqn:Hdial;
    destruct (dial_same _ _ _ _ _ Hdial) as [Hs _]; exact Hs.
Qed.
Lemma Network_rebind_same sid eid tmpl w : same_clock w (Network_rebind sid eid tmpl w).2.
Proof.
  unfold Network_rebind, SocketContext_bind. destruct (dial transport_bind tmpl w) as [[p|e] w1] eqn:Hdial;
    destruct (dial_same _ _ _ _ _ Hdial) as [Hs _]; exact Hs.
Qed.

Lemma act_on sid e w :
  clock_ok w → 0 <= ids w → room 1 w = true →
  ∃ w', act sid e w = Some w' ∧ goes_on 1 w w' ∧ to_fire w' = after_act sid e w.
Proof.
  intros Hc Hp Hr.
  assert (Hsame : ∀ w', same_clock w w' → goes_on 1 w w' ∧ to_fire w' = to_fire w) by (intros; by apply same_clock_act).
  destruct e as [s tmpl|s eid tmpl|s tmpl|s eid tmpl|eid []|eid []|eid msg|eid|task d|t|evt|r]; cbn [act after_act];
    try (eexists; split; [reflexivity|]; apply Hsame; by repeat split).
  - destruct (Network_connect_on s tmpl w Hc Hp Hr) as (a & w' & -> & Hon & Hf). by exists w'.
  - eexists. split; [reflexivity|]. apply Hsame, Network_reconnect_same.
  - destruct (Network_bind_on s tmpl w Hc Hp Hr) as (a & w' & -> & Hon & Hf). by exists w'.
  - eexists. split; [reflexivity|]. apply Hsame, Network_rebind_same.
  - apply bool_decide_eq_true in Hr as [_ Hr].
    destruct (Scheduler_schedule_ok (TaskSocket sid task) d w Hc) as (s & tm & -> & Hok & Hn & _ & Hf); [lia|].
    eexists. split; [reflexivity|]. split; [|exact Hf]. split; [done|cbn; lia|cbn in *; lia].
  - destruct (Scheduler_cancel_ok t w Hc) as (s & tm & -> & Hok & Hn & Hf).
    eexists. split; [reflexivity|]. split; [|exact Hf]. split; [done|cbn; lia|cbn in *; lia].
Qed.

Lemma carry_out_app sid es1 es2 w :
  carry_out sid (es1 ++ es2) w = (w ← carry_out sid es1 w; carry_out sid es2 w).
Proof.
  revert w. induction es1 as [|e es1 IH]; intros w; [done|]. cbn. destruct (act sid e w); [|done]. cbn. apply IH.
Qed.

(** What is to fire after a handler: what was, but for what it cancelled, and what
    it armed. *)
Lemma carry_on sid w0 done w rest :
  carry_out sid done w0 = Some w → clock_ok w → 0 <= ids w → room (length rest) w = true →
  ∃ w', carry_out sid rest w = Some w' ∧ goes_on (length rest) w w' ∧
    ∀ t tk, to_fire w' !! t = Some tk →
      (to_fire w !! t = Some tk ∧ t ∉ cancels rest) ∨
      ∃ task, tk = TaskSocket sid task ∧ arms (E := context_env sid w0) task done rest t.
Proof.
  revert done w. induction rest as [|e rest IH]; intros done w Hdone Hc Hp Hr.
  { exists w. split; [done|]. split; [by apply goes_on_refl|]. intros t tk Ht. left. split; [done|set_solver]. }
  cbn [length] in Hr. destruct (act_on sid e w Hc Hp) as (w1 & Hact & Hon & Hf); [by apply (room_le (S (length rest))); [lia|]|].
  destruct (IH (done ++ [e]) w1) as (w2 & Hrun & Hon2 & Hfire).
  { rewrite carry_out_app, Hdone. cbn. by rewrite Hact. }
  { apply Hon. } { pose proof (on_ids _ _ _ Hon). lia. } { by apply (room_left 1 _ w). }
  exists w2. cbn. rewrite Hact. split; [done|]. split; [by apply (goes_on_trans 1 _ _ w1)|].
  intros t tk Ht. destruct (Hfire t tk Ht) as [[Hold Hnc]|(task & -> & o1 & d & o2 & -> & Hans & Hnc)].
  - rewrite Hf in Hold. destruct e as [| | | | | | | |task d|t0| |]; cbn [after_act cancels] in *; try (left; done).
    + destruct (decide (t = next_timer w)) as [->|Hne].
      * rewrite lookup_insert_eq in Hold. injection Hold as <-. right. exists task. split; [done|].
        exists [], d, rest. split; [done|]. split; [|done]. rewrite app_nil_r. cbn. rewrite Hdone. cbn.
        apply bool_decide_eq_true in Hr as [_ Hr].
        destruct (Scheduler_schedule_ok (TaskSocket sid task) d w Hc) as (s & tm & -> & _); [lia|done].
      * rewrite lookup_insert_ne in Hold by done. by left.
    + apply lookup_delete_Some in Hold as [Hne Hold]. left. split; [done|]. set_solver.
  - right. exists task. split; [done|]. exists (e :: o1), d, o2. split; [done|]. split; [|done].
    by rewrite <- app_assoc in Hans.
Qed.

End carry.

(** ** The thread *)

Section reactor.
Context `{Build} {Tr Pp Ac Net Tm Hd : Type}.
Context `{PipeTrait Pp} `{AcceptorTrait Pp Ac} `{Transport Tr Pp Ac Net} `{TimerLaws Tm Hd} `{HashOrder}.
Context {T : Type} `{Tenant T}.
Abbreviation W := (@World Tr Pp Ac Net Tm Hd).
Abbreviation Rx := (@Dispatcher Tr Pp Ac Net Tm Hd T).
Implicit Types (w : W) (d : Rx) (sid : SocketId) (c : call).

Definition socket_at sid d : option (Socket T) := get_socket_mut sid (session d).

(** The sockets asked to close: their protocols are asleep. *)
Context (closed : gset SocketId).

(** What always holds between two steps: in particular, a timer that is to fire for
    a request of the facade is that of the request that waits. *)
Record rx_ok d : Prop := {
  ok_session : session_ok (ids (world d)) (session d);
  ok_clock : clock_ok (world d);
  ok_tenants : ∀ sid s, socket_at sid d = Some s → sid ∉ closed → tenant_inv (protocol s);
  ok_timers : ∀ t sid task k s, to_fire (world d) !! t = Some (TaskSocket sid task) → request_of_task task = Some k →
    socket_at sid d = Some s → tenant_pending (protocol s) = Some (k, Some t);
  ok_drawn : ∀ t sid task, to_fire (world d) !! t = Some (TaskSocket sid task) → SocketId_into sid < ids (world d);
  ok_wf : ∀ pid p, get_probe_mut pid (session d) = Some p → probe_wf (poll_opts p) p;
  ok_fresh : ∀ ctor, ForSession (CreateSocket ctor) ∈ channel d → tenant_inv ctor ∧ tenant_pending ctor = None;
  ok_closed : ∀ sid s, socket_at sid d = Some s → sid ∈ closed → tenant_asleep (protocol s);
  ok_left : ∀ sid, sid ∈ closed → SocketId_into sid < ids (world d)
}.

Definition waiting_of sid d : list demand :=
  match socket_at sid d with
  | Some s => option_list (demand_of ∘ fst <$> tenant_pending (protocol s))
  | None => []
  end.

Definition replies_to sid (out : list rx_effect) : list Reply :=
  omap (λ e, match e with ToSocket s r => if bool_decide (s = sid) then Some r else None | _ => None end) out.

(** From [d] to [d'], the requests [ds] being made: each socket answered, in order,
    those that do not wait any more; and a closed socket that is gone did not come
    back. *)
Definition stays_gone sid d d' : Prop := sid ∈ closed → socket_at sid d = None → socket_at sid d' = None.
Definition settled (ds : SocketId → list demand) d (out : list rx_effect) d' : Prop :=
  ∀ sid, ∃ served, waiting_of sid d ++ ds sid = served ++ waiting_of sid d' ∧ Forall2 serves served (replies_to sid out) ∧
    stays_gone sid d d'.

Definition nothing (sid : SocketId) : list demand := [].
Definition just sid (ds : list demand) (s : SocketId) : list demand := if bool_decide (s = sid) then ds else [].

Definition goes ds (m : Rx → R Rx) d : Prop :=
  ∀ h, ∃ d' out, m d h = Done d' out ∧ rx_ok d' ∧ settled ds d out d'.

Lemma replies_to_app sid o1 o2 : replies_to sid (o1 ++ o2) = replies_to sid o1 ++ replies_to sid o2.
Proof. apply omap_app. Qed.

Lemma settled_app ds1 ds2 d1 d2 d3 o1 o2 :
  settled ds1 d1 o1 d2 → settled ds2 d2 o2 d3 → settled (λ sid, ds1 sid ++ ds2 sid) d1 (o1 ++ o2) d3.
Proof.
  intros Hs1 Hs2 sid. destruct (Hs1 sid) as (s1 & Heq1 & Hf1 & Hg1). destruct (Hs2 sid) as (s2 & Heq2 & Hf2 & Hg2).
  exists (s1 ++ s2). rewrite replies_to_app. split; [|split; [by apply Forall2_app|intros Hin Hx; auto]].
  by rewrite app_assoc, Heq1, <- !app_assoc, Heq2.
Qed.

Lemma settled_ext ds ds' d out d' : (∀ sid, ds sid = ds' sid) → settled ds d out d' → settled ds' d out d'.
Proof. intros Heq Hs sid. rewrite <- Heq. apply Hs. Qed.

(** Nothing was said and nothing waits differently. *)
Lemma settled_quiet d out d' :
  (∀ sid, replies_to sid out = []) → (∀ sid, waiting_of sid d' = waiting_of sid d) → (∀ sid, stays_gone sid d d') →
  settled nothing d out d'.
Proof. intros Ho Hw Hg sid. exists []. rewrite Ho, Hw. unfold nothing. by rewrite app_nil_r. Qed.

(** The session did not change. *)
Lemma settled_still d out d' : (∀ sid, replies_to sid out = []) → session d' = session d → settled nothing d out d'.
Proof.
  intros Ho Hs. apply settled_quiet; [done| |]; intros sid.
  - unfold waiting_of, socket_at. by rewrite Hs.
  - intros _. unfold socket_at. by rewrite Hs.
Qed.

Lemma goes_ret d : rx_ok d → goes nothing mret d.
Proof. intros Hok h. exists d, []. split; [done|]. split; [done|]. by apply settled_still. Qed.

Lemma goes_bind ds (m k : Rx → R Rx) d :
  goes ds m d → (∀ h d' out, m d h = Done d' out → rx_ok d' → goes nothing k d') → goes ds (λ d, d ← m d; k d) d.
Proof.
  intros Hm Hk h. destruct (Hm h) as (d1 & o1 & Hrun1 & Hok1 & Hs1).
  destruct (Hk h d1 o1 Hrun1 Hok1 (h ++ o1)) as (d2 & o2 & Hrun2 & Hok2 & Hs2).
  exists d2, (o1 ++ o2). split; [by eapply bind_done|]. split; [done|].
  eapply settled_ext; [|by eapply settled_app]. intros sid. unfold nothing. by rewrite app_nil_r.
Qed.

Lemma session_ok_le i i' (s : Session T) : session_ok i s → i <= i' → session_ok i' s.
Proof.
  intros Hok Hle. destruct s as [ss ds ps]. apply (session_ok_sockets i i' (mkSession ss ds ps)); [done|done|].
  intros id x Hx. destruct (ok_sockets _ _ Hok id x Hx). split; [done|lia].
Qed.

(** Only the world changed, and it arms nothing for sockets. *)
Definition no_more w w' : Prop :=
  ∀ t tk, to_fire w' !! t = Some tk → to_fire w !! t = Some tk ∨ ∃ pid, tk = TaskProbe pid.

Lemma rx_ok_world n w' d : rx_ok d → goes_on n (world d) w' → no_more (world d) w' → rx_ok (set_world w' d).
Proof.
  intros [Hs Hc Ht Htm Hdr Hwf Hfr Hcl Hlt] [Hc' Hi _] Hno. split; cbn [world session set_world channel]; try done.
  - eapply session_ok_le; [done|lia].
  - intros t sid task k s Hf. destruct (Hno _ _ Hf) as [Hf'|[pid [=]]]. by apply Htm.
  - intros t sid task Hf. destruct (Hno _ _ Hf) as [Hf'|[pid [=]]]. specialize (Hdr _ _ _ Hf'). lia.
  - intros sid Hin. specialize (Hlt _ Hin). lia.
Qed.

Lemma waiting_world w' d sid : waiting_of sid (set_world w' d) = waiting_of sid d.
Proof. done. Qed.

(** ** A call on a socket *)

(** What a protocol promises: its contract, and once closed, to sleep. *)
Definition promised sid (p : T) : Prop := if bool_decide (sid ∈ closed) then tenant_asleep p else tenant_inv p.

Lemma promised_ok sid d s : rx_ok d → socket_at sid d = Some s → promised sid (protocol s).
Proof. intros Hok Hs. unfold promised. case_bool_decide; [by eapply (ok_closed d)|by eapply (ok_tenants d)]. Qed.

Definition call_allowed sid c d : bool :=
  match socket_at sid d with
  | None => true
  | Some s =>
      let E := context_env sid (world d) in
      (if bool_decide (sid ∈ closed) then call_quiet c s else call_guarded c s) &&
      match Socket_step c s [] with Done _ out => room (length out) (world d) | Panicked => true end
  end.

(** A timer that fires is not among those that are to fire any more. *)
Definition in_time c d s : Prop :=
  ∀ k, fires_call c = Some k → ∃ t, tenant_pending (protocol s) = Some (k, Some t) ∧ to_fire (world d) !! t = None.

Lemma call_stepped sid c d s :
  rx_ok d → socket_at sid d = Some s → call_allowed sid c d = true → in_time c d s →
  let E := context_env sid (world d) in
  ∃ s' out, Socket_step c s [] = Done s' out ∧ room (length out) (world d) = true ∧ stepped (promised sid) c s out s'.
Proof.
  intros Hok Hs Hall Htime. unfold call_allowed in Hall. rewrite Hs in Hall. cbv zeta in Hall.
  apply andb_true_iff in Hall as [Hg Hroom]. pose proof (promised_ok _ _ _ Hok Hs) as Hp. unfold promised in *.
  assert (Hgo : let E := context_env sid (world d) in ∃ s' out, Socket_step c s [] = Done s' out ∧ stepped (promised sid) c s out s').
  { unfold promised. case_bool_decide.
    - apply step_asleep; [done..|]. destruct (fires_call c) as [k|] eqn:Hk; [|done]. destruct (Htime k Hk) as (t & Hpend & _).
      by rewrite (sleeps_idle _ _ _ _ (tenant_sleeps (E := context_env sid (world d))) _ Hp) in Hpend.
    - apply step_stepped; [done..|]. intros k Hk. destruct (Htime k Hk) as (t & Hpend & _). eauto. }
  destruct Hgo as (s' & out & Hrun & Hst). rewrite Hrun in Hroom. eauto.
Qed.

Definition call_on sid c : Rx → R Rx := apply_on_socket sid (λ E, Socket_step c).

Lemma socket_output_replies sid sid' out :
  replies_to sid' (omap (socket_output sid) out) = if bool_decide (sid' = sid) then replies out else [].
Proof.
  induction out as [|e out IH]; [by case_bool_decide|].
  destruct e; cbn [omap list_omap socket_output replies] in *; try exact IH.
  unfold replies_to in *. cbn. destruct (decide (sid' = sid)) as [->|Hne].
  - rewrite !bool_decide_true in * by done. by rewrite IH.
  - rewrite !bool_decide_false in * by congruence. exact IH.
Qed.

Lemma socket_at_put sid s d w sid' :
  socket_at sid' (set_world w (set_session (put_socket sid s (session d)) d)) =
  if bool_decide (sid' = sid) then Some s else socket_at sid' d.
Proof.
  unfold socket_at, get_socket_mut, SocketCollection_get_socket_mut. cbn [session set_session set_world put_socket ses_sockets sockets].
  case_bool_decide as Hs; [subst; apply lookup_insert_eq|by apply lookup_insert_ne].
Qed.

Lemma call_on_ok sid c d s :
  rx_ok d → socket_at sid d = Some s → call_allowed sid c d = true → in_time c d s →
  goes (just sid (option_list (demanded c))) (call_on sid c) d.
Proof.
  intros Hok Hs Hall Htime h. destruct (call_stepped sid c d s Hok Hs Hall Htime) as (s' & out & Hrun & Hroom & Hst).
  destruct (carry_on sid (world d) [] (world d) out eq_refl (ok_clock _ Hok)) as (w' & Hcarry & Hon & Hfire);
    [apply (ok_session _ Hok)|done|].
  exists (set_world w' (set_session (put_socket sid s' (session d)) d)), (omap (socket_output sid) out).
  split; [|split].
  - unfold call_on, apply_on_socket. change (get_socket_mut sid (session d)) with (socket_at sid d). by rewrite Hs, Hrun, Hcarry.
  - split; cbn [world session set_world set_session channel].
    + eapply session_ok_le; [|apply (on_ids _ _ _ Hon)].
      destruct (PutSocket_stepped sid s' _ _ (ok_session _ Hok)) as [Hput _]; [|exact Hput].
      exists s. split; [exact Hs|apply (st_id _ _ _ _ _ Hst)].
    + apply Hon.
    + intros sid' x. rewrite socket_at_put. case_bool_decide as Heq.
      * intros [= <-] Hout. subst sid'. pose proof (st_inv _ _ _ _ _ Hst) as Hpr. unfold promised in Hpr. by rewrite bool_decide_false in Hpr by done.
      * apply (ok_tenants _ Hok).
    + intros t sid' task k x Ht Hk. rewrite socket_at_put.
      destruct (Hfire _ _ Ht) as [[Hold Hnc]|(task' & [= -> ->] & Harm)].
      * case_bool_decide as Heq; [|by eapply (ok_timers _ Hok)]. intros [= <-]. subst sid'.
        pose proof (ok_timers _ Hok _ _ _ _ _ Hold Hk Hs) as Hp.
        destruct (decide (fires_call c = Some k)) as [Hf|Hf].
        { destruct (Htime k Hf) as (t' & Hp' & Hgone). rewrite Hp in Hp'. injection Hp' as <-. congruence. }
        by destruct (st_keeps _ _ _ _ _ Hst k t Hp Hf).
      * rewrite bool_decide_true by done. intros [= <-]. by eapply (st_arms _ _ _ _ _ Hst).
    + intros t sid' task Ht. pose proof (on_ids _ _ _ Hon) as Hi.
      destruct (Hfire _ _ Ht) as [[Hold _]|(task' & [= -> ->] & _)]; [pose proof (ok_drawn _ Hok _ _ _ Hold); lia|].
      destruct (ok_sockets _ _ (ok_session _ Hok) _ _ Hs). lia.
    + apply (ok_wf _ Hok).
    + apply (ok_fresh _ Hok).
    + intros sid' x. rewrite socket_at_put. case_bool_decide as Heq; [|apply (ok_closed _ Hok)].
      intros [= <-] Hin. subst sid'. pose proof (st_inv _ _ _ _ _ Hst) as Hpr. unfold promised in Hpr. by rewrite bool_decide_true in Hpr by done.
    + intros sid' Hin. pose proof (on_ids _ _ _ Hon). pose proof (ok_left _ Hok _ Hin). lia.
  - intros sid'. unfold just, waiting_of. rewrite socket_at_put, socket_output_replies. case_bool_decide as Heq.
    + subst sid'. rewrite Hs. destruct (st_balanced _ _ _ _ _ Hst) as (served & Heq' & Hf). exists served.
      split; [exact Heq'|]. split; [exact Hf|]. intros _ Hgone. congruence.
    + exists []. rewrite app_nil_r. split; [done|]. split; [done|]. intros _. rewrite socket_at_put. by case_bool_decide.
Qed.

(** A call that is no request, on a socket that may be gone. *)
Lemma call_on_goes sid c d :
  rx_ok d → demanded c = None → call_allowed sid c d = true → (∀ s, socket_at sid d = Some s → in_time c d s) →
  goes nothing (call_on sid c) d.
Proof.
  intros Hok Hdem Hall Htime. destruct (socket_at sid d) as [s|] eqn:Hs.
  - intros h. destruct (call_on_ok sid c d s Hok Hs Hall (Htime s eq_refl) h) as (d' & out & Hrun & Hok' & Hset).
    exists d', out. split; [done|]. split; [done|]. eapply settled_ext; [|done]. intros sid'. unfold just, nothing.
    rewrite Hdem. by case_bool_decide.
  - intros h. exists d, []. split; [|by split; [|apply settled_still]].
    unfold call_on, apply_on_socket. change (get_socket_mut sid (session d)) with (socket_at sid d). by rewrite Hs.
Qed.

Lemma not_timed c d : fires_call c = None → ∀ s, in_time c d s.
Proof. intros Hc s k Hk. congruence. Qed.

(** ** Endpoints *)

Definition finishes {A} (o : outcome rx_effect A) : bool := match o with Done _ _ => true | Panicked => false end.

Lemma no_more_eq w w' : to_fire w' = to_fire w → no_more w w'.
Proof. intros Heq t tk. rewrite Heq. by left. Qed.

Lemma goes_world n ds d w' (out : list rx_effect) (m : Rx → R Rx) :
  rx_ok d → goes_on n (world d) w' → no_more (world d) w' →
  (∀ sid, replies_to sid out = []) → (∀ sid, ds sid = []) →
  (∀ h, m d h = Done (set_world w' d) out) → goes ds m d.
Proof.
  intros Hok Hon Hno Hout Hds Hm h. exists (set_world w' d), out. split; [done|].
  split; [by eapply rx_ok_world|]. eapply settled_ext; [|by apply settled_still]. intros sid. by rewrite Hds.
Qed.

Lemma same_clock_refl w : same_clock w w.
Proof. by repeat split. Qed.

Lemma fold_same {X} (f : W → X → W) l w :
  (∀ w x, same_clock w (f w x)) → same_clock w (foldl f w l).
Proof.
  intros Hf. revert w. induction l as [|x l IH]; intros w; [apply same_clock_refl|]. cbn [foldl].
  eapply same_clock_trans; [apply Hf|apply IH].
Qed.

Lemma omap_no_replies {X} (f : X → option rx_effect) sid l :
  (∀ x e, f x = Some e → ∀ s r, e ≠ ToSocket s r) → replies_to sid (omap f l) = [].
Proof.
  intros Hf. induction l as [|x l IH]; [done|]. cbn. destruct (f x) as [e|] eqn:He; [|exact IH].
  cbn. specialize (Hf x e He). destruct e; try exact IH. by destruct (Hf sid0 r).
Qed.

Lemma goes_same ds d w' (out : list rx_effect) (m : Rx → R Rx) :
  rx_ok d → same_clock (world d) w' → (∀ sid, replies_to sid out = []) → (∀ sid, ds sid = []) →
  (∀ h, m d h = Done (set_world w' d) out) → goes ds m d.
Proof.
  intros Hok Hs. destruct (same_clock_on _ _ (ok_clock _ Hok) Hs) as [Hon Hf].
  apply (goes_world 0); [done|done|by apply no_more_eq].
Qed.

Lemma goes_pipe eid (f : Pp → Q Pp) controller d :
  rx_ok d → finishes (run_pipe f controller (world d) []) = true →
  goes nothing (λ d, with_pipe eid d (run_pipe f) controller) d.
Proof.
  intros Hok Hfin. unfold run_pipe in Hfin. destruct (f (pc_pipe controller) []) as [p out|] eqn:Hrun; [|done].
  set (w1 := foldl (λ w e, endpoint_act (pc_socket_id controller) (pc_endpoint_id controller) e w) (world d) out).
  assert (Hw1 : same_clock (world d) w1) by (apply fold_same; intros w []; by repeat split).
  eapply (goes_same _ _ (with_endpoints (ids w1) _ w1) (omap (endpoint_output (pc_endpoint_id controller)) out)); try done.
  - intros sid. apply omap_no_replies. intros [] e; cbn; naive_solver.
  - intros h. unfold with_pipe, run_pipe. rewrite bind_run, Hrun, ret_run. cbv beta iota. by rewrite app_nil_r.
Qed.

Lemma goes_acceptor eid (f : Ac → Am Pp Ac) controller d :
  rx_ok d → finishes (run_acceptor f controller (world d) []) = true →
  goes nothing (λ d, with_acceptor eid d (run_acceptor f) controller) d.
Proof.
  intros Hok Hfin. unfold run_acceptor in Hfin. destruct (f (ac_acceptor controller) []) as [p out|] eqn:Hrun; [|done].
  set (w1 := foldl (λ w e, acceptor_act (ac_socket_id controller) (ac_endpoint_id controller) e w) (world d) out).
  assert (Hw1 : same_clock (world d) w1) by (apply fold_same; intros w []; by repeat split).
  eapply (goes_same _ _ (with_endpoints (ids w1) _ w1) (omap (acceptor_output (ac_endpoint_id controller)) out)); try done.
  - intros sid. apply omap_no_replies. intros [] e; cbn; naive_solver.
  - intros h. unfold with_acceptor, run_acceptor. rewrite bind_run, Hrun, ret_run. cbv beta iota. by rewrite app_nil_r.
Qed.

(** ** Devices and probes *)

Lemma settled_items (d : Rx) (w' : W) s' out :
  (∀ sid, get_socket_mut sid s' = get_socket_mut sid (session d)) → (∀ sid, replies_to sid out = []) →
  settled nothing d out (set_world w' (set_session s' d)).
Proof.
  intros Hs Ho. apply settled_quiet; [done| |]; intros sid; unfold stays_gone, waiting_of, socket_at; cbn [session set_world set_session];
    by rewrite Hs.
Qed.

(** The items change, not the sockets. *)
Lemma rx_ok_items n w' s' d :
  rx_ok d → goes_on n (world d) w' → no_more (world d) w' → session_ok (ids w') s' →
  (∀ sid, get_socket_mut sid s' = get_socket_mut sid (session d)) →
  (∀ pid p, get_probe_mut pid s' = Some p → probe_wf (poll_opts p) p) →
  rx_ok (set_world w' (set_session s' d)).
Proof.
  intros [Hs Hc Ht Htm Hdr Hwf Hfr Hcl Hlt] [Hc' Hi _] Hno Hs' Hsock Hprobes.
  split; cbn [world session set_world set_session channel]; try done.
  - intros sid s. unfold socket_at. cbn [session set_world set_session]. rewrite Hsock. apply Ht.
  - intros t sid task k s Hf. unfold socket_at. cbn [session set_world set_session]. rewrite Hsock.
    destruct (Hno _ _ Hf) as [Hf'|[pid [=]]]. by apply Htm.
  - intros t sid task Hf. destruct (Hno _ _ Hf) as [Hf'|[pid [=]]]. specialize (Hdr _ _ _ Hf'). lia.
  - intros sid s. unfold socket_at. cbn [session set_world set_session]. rewrite Hsock. apply Hcl.
  - intros sid Hin. specialize (Hlt _ Hin). lia.
Qed.

Lemma Device_step_settles (c : device_call) (self : Device) :
  settles (λ d : Device, get_left_id d = get_left_id self ∧ get_right_id d = get_right_id self) (Device_step c self).
Proof.
  assert (Hsend : ∀ x, settles (λ d : Device, get_left_id d = get_left_id x ∧ get_right_id d = get_right_id x) (send_check_reply x)).
  { intros x. unfold send_check_reply. apply settles_then; [by apply settles_emit|]. intros _. by apply settles_ret. }
  destruct c as [|sid x]; cbn [Device_step].
  - unfold Device_check. destruct (_ || _); [apply Hsend|]. apply settles_then; [by apply settles_emit|]. intros _.
    apply settles_then; [by apply settles_emit|]. intros _. by apply settles_ret.
  - unfold Device_on_socket_can_recv. cbv zeta.
    set (self1 := if bool_decide (sid = left self) then _ else _).
    assert (Hsame : get_left_id self1 = get_left_id self ∧ get_right_id self1 = get_right_id self)
      by (unfold self1; repeat case_bool_decide; done).
    destruct (_ && _); [|by apply settles_ret]. destruct Hsame as [<- <-]. apply Hsend.
Qed.

Lemma goes_device did device (c : device_call) d :
  rx_ok d → get_device_mut did (session d) = Some device → goes nothing (on_device did device (Device_step c)) d.
Proof.
  intros Hok Hdev h. destruct (Device_step_settles c device []) as (device' & out & Hrun & Hl & Hr).
  set (w1 := foldl (λ w e, device_act e w) (world d) out).
  assert (Hw1 : same_clock (world d) w1) by (apply fold_same; intros w []; by repeat split).
  destruct (same_clock_on _ _ (ok_clock _ Hok) Hw1) as [Hon Hf].
  eexists _, _. split; [unfold on_device; by rewrite Hrun|]. split.
  - apply (rx_ok_items 0); [done|done|by apply no_more_eq| |done|apply (ok_wf _ Hok)].
    destruct (PutDevice_stepped did device' _ _ (ok_session _ Hok)) as [Hput _]; [by exists device|].
    eapply session_ok_le; [exact Hput|apply (on_ids _ _ _ Hon)].
  - apply settled_items; [done|]. intros sid. apply omap_no_replies. intros [] e; cbn; naive_solver.
Qed.

Lemma probe_act_on pid e w :
  clock_ok w → 0 <= ids w → room 1 w = true → ∃ w', probe_act pid e w = Some w' ∧ goes_on 1 w w' ∧ no_more w w'.
Proof.
  intros Hc Hp Hr. destruct e as [delay|t|sid|r]; cbn [probe_act].
  - apply bool_decide_eq_true in Hr as [_ Hr].
    destruct (Scheduler_schedule_ok (TaskProbe pid) delay w Hc) as (s & tm & -> & Hok & Hn & _ & Hf); [lia|].
    eexists. split; [reflexivity|]. split; [split; [done|cbn; lia|cbn in *; lia]|].
    intros t tk Ht. change (to_fire (with_schedule s tm w) !! t = Some tk) in Ht. rewrite Hf in Ht.
    destruct (decide (t = next_timer w)) as [->|Hne].
    + rewrite lookup_insert_eq in Ht. injection Ht as <-. right. by eexists.
    + rewrite lookup_insert_ne in Ht by done. by left.
  - destruct (Scheduler_cancel_ok t w Hc) as (s & tm & -> & Hok & Hn & Hf).
    eexists. split; [reflexivity|]. split; [split; [done|cbn; lia|cbn in *; lia]|].
    intros t' tk Ht. change (to_fire (with_schedule s tm w) !! t' = Some tk) in Ht. rewrite Hf in Ht.
    apply lookup_delete_Some in Ht as [_ Ht]. by left.
  - eexists. split; [reflexivity|]. destruct (same_clock_act w (ProbeContext_poll sid w) Hc) as [Hon Hf]; [by repeat split|].
    split; [done|by apply no_more_eq].
  - eexists. split; [reflexivity|]. destruct (same_clock_act w w Hc) as [Hon Hf]; [by repeat split|].
    split; [done|by apply no_more_eq].
Qed.

Lemma probe_carry_on pid es w :
  clock_ok w → 0 <= ids w → room (length es) w = true →
  ∃ w', probe_carry_out pid es w = Some w' ∧ goes_on (length es) w w' ∧ no_more w w'.
Proof.
  revert w. induction es as [|e es IH]; intros w Hc Hp Hr.
  { exists w. split; [done|]. split; [by apply goes_on_refl|by apply no_more_eq]. }
  cbn [length] in Hr. destruct (probe_act_on pid e w Hc Hp) as (w1 & Hact & Hon & Hno); [by apply (room_le (S (length es))); [lia|]|].
  destruct (IH w1) as (w2 & Hrun & Hon2 & Hno2); [apply Hon|pose proof (on_ids _ _ _ Hon); lia|by apply (room_left 1 _ w)|].
  exists w2. cbn. rewrite Hact. split; [done|]. split; [by apply (goes_on_trans 1 _ _ w1)|].
  intros t tk Ht. destruct (Hno2 _ _ Ht) as [Ht'|?]; [by apply Hno|by right].
Qed.

Definition probe_allowed pid (c : probe_call) d : bool :=
  match get_probe_mut pid (session d) with
  | None => true
  | Some p =>
      let E := probe_context_env pid (world d) in
      match Probe_step c p [] with Done _ out => room (length out) (world d) | Panicked => true end
  end.

Lemma goes_probe pid p (c : probe_call) d :
  rx_ok d → get_probe_mut pid (session d) = Some p → probe_allowed pid c d = true →
  goes nothing (on_probe pid p (λ E, Probe_step c)) d.
Proof.
  intros Hok Hp Hall h. unfold probe_allowed in Hall. rewrite Hp in Hall. cbv zeta in Hall.
  destruct (Probe_step_settles (H := probe_context_env pid (world d)) (poll_opts p) c p (ok_wf _ Hok _ _ Hp) [])
    as (p' & out & Hrun & Hwf). rewrite Hrun in Hall.
  destruct (probe_carry_on pid out (world d) (ok_clock _ Hok)) as (w' & Hcarry & Hon & Hno); [apply (ok_session _ Hok)|done|].
  eexists _, _. split; [unfold on_probe; by rewrite Hrun, Hcarry|]. split.
  - eapply rx_ok_items; [done|done|done| |done|].
    + destruct (PutProbe_stepped pid p' _ _ (ok_session _ Hok)) as [Hput _].
      { exists p. split; [done|]. unfold get_socket_ids. by rewrite (wf_opts _ _ Hwf). }
      eapply session_ok_le; [exact Hput|apply (on_ids _ _ _ Hon)].
    + intros pid' q. unfold get_probe_mut, ProbeCollection_get_probe_mut. cbn [put_probe ses_probes probes].
      destruct (decide (pid' = pid)) as [->|Hne].
      * rewrite lookup_insert_eq. intros [= <-]. by rewrite (wf_opts _ _ Hwf).
      * rewrite lookup_insert_ne by done. apply (ok_wf _ Hok).
  - apply settled_items; [done|]. intros sid. apply omap_no_replies. intros [] e; cbn; naive_solver.
Qed.

(** ** Requests *)

Definition call_of_request (r : Request) : option call :=
  match r with
  | RequestConnect u => Some (CConnect u)
  | RequestBind u => Some (CBind u)
  | RequestSend msg false => Some (CSend msg)
  | RequestSend msg true => Some (CTrySend msg)
  | RequestRecv false => Some CRecv
  | RequestRecv true => Some CTryRecv
  | RequestSetOption x => Some (CSetOption x)
  | RequestClose => None
  end.

Lemma request_is_call sid req c : call_of_request req = Some c → process_socket_request (T := T) sid req = call_on sid c.
Proof. destruct req as [u|u|msg []|[]|o|]; by intros [= <-]. Qed.

(** A socket is asked to close once, when nothing waits on it. *)
Definition close_allowed sid d : bool :=
  match socket_at sid d with
  | None => true
  | Some s =>
      let E := context_env sid (world d) in
      bool_decide (sid ∉ closed) && bool_decide (waiting_of sid d = []) &&
      match Socket_close s [] with Done _ out => room (length out) (world d) | Panicked => true end
  end.

Definition request_allowed (req : rx_request T) d : bool :=
  match req with
  | ForSession (CreateSocket _) | ForSession (CreateProbe _) => room 1 (world d)
  | ForSession (CreateDevice l r) =>
      call_allowed l CDevicePlugged d &&
      match call_on l CDevicePlugged d [] with
      | Done d1 _ =>
          call_allowed r CDevicePlugged d1 &&
          match call_on r CDevicePlugged d1 [] with Done d2 _ => room 1 (world d2) | Panicked => true end
      | Panicked => true
      end
  | ForSession Shutdown => true
  | ForSocket sid req =>
      match call_of_request req with
      | Some c => bool_decide (is_Some (socket_at sid d)) && call_allowed sid c d
      | None => close_allowed sid d
      end
  | ForEndpoint sid eid (EndpointClose remote) =>
      call_allowed sid (if remote then CClosePipe eid else CCloseAcceptor eid) d
  | ForDevice _ _ => true
  | ForProbe pid (RequestPoll delay) => probe_allowed pid (AskPoll delay) d
  | ForProbe _ RequestProbeClose => true
  end.

(** What a request asks of a socket. *)
Definition demands_of (req : rx_request T) : SocketId → list demand :=
  match req with
  | ForSocket sid req => just sid (option_list (call_of_request req ≫= demanded))
  | _ => nothing
  end.

(** An item is added and announced. *)
Lemma goes_reply r s' d :
  rx_ok d → room 1 (world d) = true → session_ok (ids (world d) + 1) s' →
  (∀ sid, get_socket_mut sid s' = get_socket_mut sid (session d)) →
  (∀ pid p, get_probe_mut pid s' = Some p → probe_wf (poll_opts p) p) →
  goes nothing (reply_session (Some (r, ids (world d) + 1, s'))) d.
Proof.
  intros Hok Hr Hs' Hsock Hprobes h. apply bool_decide_eq_true in Hr as [Hr _].
  assert (Hon : goes_on 1 (world d) (with_endpoints (ids (world d) + 1) (endpoints (world d)) (world d))).
  { apply drawn_on; [apply Hok|lia]. }
  eexists _, _. split; [unfold reply_session; rewrite bind_run, lift_some; cbv beta iota; rewrite bind_run, emit_run, ret_run; reflexivity|].
  split; [by apply (rx_ok_items 1); [..|apply no_more_eq| | |]|]. by apply settled_items.
Qed.

Lemma goes_add_probe opts d :
  rx_ok d → room 1 (world d) = true → goes nothing (λ d, reply_session (add_probe opts (ids (world d)) (session d)) d) d.
Proof.
  intros Hok Hr. pose proof Hr as Hr'. apply bool_decide_eq_true in Hr' as [Hr' _].
  pose proof (ok_positive _ _ (ok_session _ Hok)) as Hpos.
  destruct (AddProbe_stepped opts _ _ (ok_session _ Hok)) as (rs & i & s & Hst & Hs & _); [lia|]. intros h.
  assert (Hadd : add_probe opts (ids (world d)) (session d) = Some (ProbeCreated (ProbeId_from (ids (world d))), ids (world d) + 1, s)
    ∧ i = ids (world d) + 1 ∧ s = mkSession (ses_sockets (session d)) (ses_devices (session d)) (ses_probes s) ∧
    probes (ses_probes s) = <[ProbeId_from (ids (world d)) := Probe_new opts]> (probes (ses_probes (session d)))).
  { simpl in Hst. unfold add_probe, ProbeCollection_add in *. rewrite draw_run in * by lia. by injection Hst as <- <- <-. }
  destruct Hadd as (-> & -> & Hsame & Hprobes). apply (goes_reply _ _ _ Hok Hr Hs); [by rewrite Hsame|].
  intros pid p. unfold get_probe_mut, ProbeCollection_get_probe_mut. rewrite Hprobes.
  destruct (decide (pid = ProbeId_from (ids (world d)))) as [->|Hne].
  - rewrite lookup_insert_eq. intros [= <-]. apply probe_new_wf.
  - rewrite lookup_insert_ne by done. apply (ok_wf _ Hok).
Qed.

Lemma goes_add_device l r d :
  rx_ok d → room 1 (world d) = true → goes nothing (λ d, reply_session (add_device l r (ids (world d)) (session d)) d) d.
Proof.
  intros Hok Hr. pose proof Hr as Hr'. apply bool_decide_eq_true in Hr' as [Hr' _].
  pose proof (ok_positive _ _ (ok_session _ Hok)) as Hpos.
  destruct (AddDevice_stepped l r _ _ (ok_session _ Hok)) as (rs & i & s & Hst & Hs & _); [lia|]. intros h.
  assert (Hadd : add_device l r (ids (world d)) (session d) = Some (DeviceCreated (DeviceId_from (ids (world d))), ids (world d) + 1, s)
    ∧ i = ids (world d) + 1 ∧ s = mkSession (ses_sockets (session d)) (ses_devices s) (ses_probes (session d))).
  { simpl in Hst. unfold add_device, DeviceCollection_add in *. rewrite draw_run in * by lia. by injection Hst as <- <- <-. }
  destruct Hadd as (-> & -> & Hsame). apply (goes_reply _ _ _ Hok Hr Hs); [by rewrite Hsame|].
  intros pid p Hp. apply (ok_wf _ Hok pid). by rewrite Hsame in Hp.
Qed.

Lemma goes_add_socket ctor d :
  rx_ok d → room 1 (world d) = true → tenant_inv ctor → tenant_pending ctor = None →
  goes nothing (λ d, reply_session (add_socket ctor (ids (world d)) (session d)) d) d.
Proof.
  intros Hok Hr Hinv Hpend h. pose proof Hr as Hr'. apply bool_decide_eq_true in Hr' as [Hr' _].
  pose proof (ok_positive _ _ (ok_session _ Hok)) as Hpos.
  destruct (AddSocket_stepped ctor _ _ (ok_session _ Hok)) as (rs & i & s & Hst & Hs & _); [lia|].
  set (n := ids (world d)) in *. set (sid := SocketId_from n) in *.
  assert (Hadd : add_socket ctor n (session d) = Some (SocketCreated sid, n + 1, s) ∧ i = n + 1 ∧
    s = mkSession (mkSocketCollection (<[sid := Socket_new sid ctor]> (sockets (ses_sockets (session d)))))
          (ses_devices (session d)) (ses_probes (session d))).
  { simpl in Hst. unfold add_socket, SocketCollection_add in *. rewrite draw_run in * by lia. by injection Hst as <- <- <-. }
  destruct Hadd as (Hadd & -> & Hsame).
  set (w := with_endpoints (n + 1) (endpoints (world d)) (world d)).
  assert (Hat : ∀ x, get_socket_mut x s = if bool_decide (x = sid) then Some (Socket_new sid ctor) else socket_at x d).
  { intros x. rewrite Hsame. unfold get_socket_mut, SocketCollection_get_socket_mut. cbn [ses_sockets sockets].
    case_bool_decide as Hx; [subst; apply lookup_insert_eq|by apply lookup_insert_ne]. }
  assert (Hnone : socket_at sid d = None).
  { destruct (socket_at sid d) as [x|] eqn:Hx; [|done]. destruct (ok_sockets _ _ (ok_session _ Hok) _ _ Hx) as [_ Hlt]. simpl in Hlt. lia. }
  exists (set_world w (set_session s d)), [ToSession (SocketCreated sid)]. split; [|split].
  - unfold reply_session. rewrite Hadd, bind_run, lift_some. cbv beta iota. by rewrite bind_run, emit_run, ret_run.
  - destruct Hok as [_ Hc Ht Htm Hdr Hwf Hfr Hcl Hlt]. split; cbn [world session set_world set_session channel]; try done.
    + intros x y. unfold socket_at. cbn [session set_world set_session]. rewrite Hat.
      case_bool_decide; [by intros [= <-]|apply Ht].
    + intros t x task k y Hf Hk. unfold socket_at. cbn [session set_world set_session]. rewrite Hat.
      case_bool_decide as Hx; [|by eapply Htm]. subst x. specialize (Hdr _ _ _ Hf). simpl in Hdr. lia.
    + intros t x task Hf. specialize (Hdr _ _ _ Hf). cbn. lia.
    + by rewrite Hsame.
    + intros x y. unfold socket_at. cbn [session set_world set_session]. rewrite Hat.
      case_bool_decide as Heq; [|apply Hcl]. intros _ Hin. subst x. specialize (Hlt _ Hin). simpl in Hlt. lia.
    + intros x Hin. specialize (Hlt _ Hin). cbn. lia.
  - apply settled_quiet; [done| |].
    2: { intros x Hin Hx. change (get_socket_mut x s = None). rewrite Hat. case_bool_decide as Heq; [|exact Hx].
         subst x. pose proof (ok_left _ Hok _ Hin) as Hlt. simpl in Hlt. lia. }
    intros x. unfold waiting_of. change (socket_at x (set_world w (set_session s d))) with (get_socket_mut x s).
    rewrite Hat. case_bool_decide as Hx; [|done]. subst x. rewrite Hnone. cbn. by rewrite Hpend.
Qed.

Lemma goes_remove_probe pid d : rx_ok d → goes nothing (process_probe_request pid RequestProbeClose) d.
Proof.
  intros Hok h. cbn [process_probe_request]. destruct (RemoveProbe_stepped pid _ _ (ok_session _ Hok)) as [Hs _].
  assert (Hsock : ∀ sid, get_socket_mut sid (remove_probe pid (session d)).2 = get_socket_mut sid (session d)).
  { intros sid. unfold remove_probe. by destruct (ProbeCollection_remove pid _). }
  assert (Hwf : ∀ x p, get_probe_mut x (remove_probe pid (session d)).2 = Some p → probe_wf (poll_opts p) p).
  { intros x p. unfold remove_probe, ProbeCollection_remove. destruct (probes (ses_probes (session d)) !! pid) as [q|] eqn:Hq;
      [|apply (ok_wf _ Hok x)]. unfold get_probe_mut, ProbeCollection_get_probe_mut. cbn. intros Hl.
    apply lookup_delete_Some in Hl as [_ Hl]. by apply (ok_wf _ Hok x). }
  destruct (remove_probe pid (session d)) as [dropped s] eqn:Hrm. cbn [snd] in *.
  assert (Hok' : rx_ok (set_session s d)).
  { change (set_session s d) with (set_world (world d) (set_session s d)).
    apply (rx_ok_items 0); [done|apply goes_on_refl, Hok|by apply no_more_eq|done..]. }
  exists (set_session s d), (match dropped with Some _ => [ToProbe pid ProbeClosed] | None => [] end).
  split; [by destruct dropped|split; [exact Hok'|]].
  - change (set_session s d) with (set_world (world d) (set_session s d)). apply settled_items; [done|]. by destruct dropped.
Qed.

Lemma find_probe_get sid pid p (s : Session T) : find_probe_mut sid s = Some (pid, p) → get_probe_mut pid s = Some p.
Proof.
  unfold find_probe_mut, ProbeCollection_find_probe_mut. destruct (_ !! sid) as [i|]; [|done].
  unfold get_probe_mut, ProbeCollection_get_probe_mut. destruct (probes _ !! i) eqn:Hi; [|done]. by intros [= <- <-].
Qed.

Lemma find_device_get sid did x (s : Session T) : find_device_mut sid s = Some (did, x) → get_device_mut did s = Some x.
Proof.
  unfold find_device_mut, DeviceCollection_find_device_mut. destruct (_ !! sid) as [i|]; [|done].
  unfold get_device_mut, DeviceCollection_get_device_mut. destruct (devices _ !! i) eqn:Hi; [|done]. by intros [= <- <-].
Qed.

Lemma goes_apply_probe pid (c : probe_call) d :
  rx_ok d → probe_allowed pid c d = true → goes nothing (apply_on_probe pid (λ E, Probe_step c)) d.
Proof.
  intros Hok Hall. unfold apply_on_probe. destruct (get_probe_mut pid (session d)) as [p|] eqn:Hp.
  - intros h. rewrite Hp. by apply goes_probe.
  - intros h. rewrite Hp. by apply goes_ret.
Qed.

Lemma goes_apply_device did (c : device_call) d : rx_ok d → goes nothing (apply_on_device did (Device_step c)) d.
Proof.
  intros Hok h. unfold apply_on_device. destruct (get_device_mut did (session d)) as [x|] eqn:Hx; [by apply goes_device|by apply goes_ret].
Qed.

Definition link_allowed sid (c : probe_call) d : bool :=
  match find_probe_mut sid (session d) with Some (pid, _) => probe_allowed pid c d | None => true end.

Lemma goes_probe_link sid (c : probe_call) d :
  rx_ok d → link_allowed sid c d = true → goes nothing (apply_on_probe_link sid (λ E, Probe_step c)) d.
Proof.
  intros Hok Hall h. unfold link_allowed in Hall. unfold apply_on_probe_link.
  destruct (find_probe_mut sid (session d)) as [[pid p]|] eqn:Hp; [|by apply goes_ret].
  by apply goes_probe; [|eapply find_probe_get|].
Qed.

Lemma goes_device_link sid (c : device_call) d : rx_ok d → goes nothing (apply_on_device_link sid (Device_step c)) d.
Proof.
  intros Hok h. unfold apply_on_device_link. destruct (find_device_mut sid (session d)) as [[did x]|] eqn:Hx; [|by apply goes_ret].
  by apply goes_device; [|eapply find_device_get].
Qed.

Lemma call_no_history sid c d h : call_on sid c d h = call_on sid c d [].
Proof. reflexivity. Qed.

(** All but the request to close. *)
Definition stays_open (req : rx_request T) : Prop := match req with ForSocket _ RequestClose => False | _ => True end.

Lemma process_request_goes req d :
  rx_ok d → request_allowed req d = true → stays_open req →
  (∀ ctor, req = ForSession (CreateSocket ctor) → tenant_inv ctor ∧ tenant_pending ctor = None) →
  goes (demands_of req) (process_request req) d.
Proof.
  intros Hok Hall Hopen Hfresh. destruct req as [[ctor|l r|opts|]|sid req|sid eid [remote]|did []|pid [delay|]];
    cbn [process_request process_session_request demands_of] in *.
  - destruct (Hfresh _ eq_refl). by apply goes_add_socket.
  - cbn [request_allowed] in Hall. apply andb_true_iff in Hall as [Hl Hall].
    apply (goes_bind nothing (call_on l CDevicePlugged)); [by apply call_on_goes; [..|intros; apply not_timed]|].
    intros h d1 out Hrun Hok1. rewrite call_no_history in Hrun. rewrite Hrun in Hall. apply andb_true_iff in Hall as [Hr Hall].
    apply (goes_bind nothing (call_on r CDevicePlugged)); [by apply call_on_goes; [..|intros; apply not_timed]|].
    intros h' d2 out' Hrun' Hok2. rewrite call_no_history in Hrun'. rewrite Hrun' in Hall. by apply goes_add_device.
  - by apply goes_add_probe.
  - intros h. exists (shutdown d), []. split; [done|]. split; [by destruct Hok|by apply settled_still].
  - cbn [request_allowed] in Hall. destruct (call_of_request req) as [c|] eqn:Hc; [|by destruct req as [| |? []|[]| |]].
    apply andb_true_iff in Hall as [[s Hs]%bool_decide_eq_true Hall].
    match goal with |- goes ?ds _ d => change (goes ds (process_socket_request sid req) d) end.
    rewrite (request_is_call sid req c Hc). cbn [mbind option_bind].
    apply (call_on_ok sid c d s Hok Hs Hall). apply not_timed. by destruct req as [u|u|msg []|[]|o|]; simplify_eq/=.
  - cbn [request_allowed] in Hall. destruct remote.
    + apply (call_on_goes sid (CClosePipe eid)); [done..|intros; by apply not_timed].
    + apply (call_on_goes sid (CCloseAcceptor eid)); [done..|intros; by apply not_timed].
  - exact (goes_apply_device did AskCheck d Hok).
  - by apply goes_ret.
  - by apply (goes_apply_probe pid (AskPoll delay)).
  - by apply goes_remove_probe.
Qed.

(** ** Signals *)

(** What a pipe or a timer tells a socket. *)
Definition call_of_evt (eid : EndpointId) (evt : PipeEvent) : option call :=
  match evt with
  | Opened => Some (CPipeOpened eid)
  | AsyncPipe.CanSend x => Some (CSendReady eid x)
  | Sent => Some (CSendAck eid)
  | AsyncPipe.CanRecv x => Some (CRecvReady eid x)
  | Received msg => Some (CRecvAck eid msg)
  | PipeError err => Some (CPipeError eid err)
  | AsyncPipe.Closed => None
  end.

Definition call_of_task (task : Schedulable) : call :=
  match task with
  | Reconnect eid sp => CReconnect eid sp
  | Rebind eid sp => CRebind eid sp
  | TaskSendTimeout => CSendTimeout
  | TaskRecvTimeout => CRecvTimeout
  | other => CTimerTick other
  end.

Fixpoint accept_allowed sid (aid : EndpointId) (pipes : list Pp) d : bool :=
  match pipes with
  | [] => true
  | pipe :: rest =>
      let w := world d in
      room 1 w &&
      match insert_pipe sid pipe (ids w) (endpoints w) with
      | Some (pipe_id, i, eps) =>
          let d := set_world (with_endpoints i eps w) d in
          call_allowed sid (CPipeAccepted aid pipe_id) d &&
          match call_on sid (CPipeAccepted aid pipe_id) d [] with
          | Done d _ => accept_allowed sid aid rest d
          | Panicked => true
          end
      | None => true
      end
  end.

(** Protocols are called as their guards say, ids do not run out, and neither pipes
    nor acceptors panic; a socket does not go while a request waits on it. *)
Definition signal_allowed (s : Signal Pp) d : bool :=
  match s with
  | PipeCmd _ eid cmd =>
      match get_pipe_mut eid (endpoints (world d)) with
      | Some pc => finishes (PipeController_process cmd pc (world d) [])
      | None => true
      end
  | AcceptorCmd _ eid cmd =>
      match get_acceptor_mut eid (endpoints (world d)) with
      | Some ac => finishes (AcceptorController_process cmd ac (world d) [])
      | None => true
      end
  | SocketCmd sid Poll => call_allowed sid CPoll d
  | PipeEvt sid eid evt => match call_of_evt eid evt with Some c => call_allowed sid c d | None => true end
  | AcceptorEvt sid eid (AcceptorError e) => call_allowed sid (CAcceptorError eid e) d
  | AcceptorEvt sid eid (Accepted pipes) => accept_allowed sid eid pipes d
  | AcceptorEvt _ _ _ => true
  | SocketEvt sid (Core.CanRecv x) =>
      match apply_on_device_link sid (Device_on_socket_can_recv sid x) d [] with
      | Done d _ => link_allowed sid (VoteRecv sid x) d
      | Panicked => true
      end
  | SocketEvt sid (Core.CanSend x) => link_allowed sid (VoteSend sid x) d
  | SocketEvt sid Core.Closed => bool_decide (waiting_of sid d = [])
  end.

Lemma goes_accept sid aid pipes d :
  rx_ok d → accept_allowed sid aid pipes d = true → goes nothing (accept_pipes sid aid pipes) d.
Proof.
  revert d. induction pipes as [|pipe pipes IH]; intros d Hok Hall; cbn [accept_pipes accept_allowed] in *; [by apply goes_ret|].
  apply andb_true_iff in Hall as [Hr Hall]. pose proof Hr as Hr'. apply bool_decide_eq_true in Hr' as [Hr' _].
  pose proof (ok_positive _ _ (ok_session _ Hok)) as Hpos.
  unfold insert_pipe in Hall. rewrite Sequence_next_fresh in Hall by lia. cbn [mbind option_bind] in Hall.
  set (w := with_endpoints _ _ (world d)) in *. set (c := CPipeAccepted _ _) in *.
  assert (Hon : goes_on 1 (world d) w) by (apply drawn_on; [apply Hok|lia]).
  assert (Hok1 : rx_ok (set_world w d)) by (by apply (rx_ok_world 1); [..|apply no_more_eq]).
  apply andb_true_iff in Hall as [Hc Hall]. intros h.
  assert (Hgo : goes nothing (λ d, d ← call_on sid c d; accept_pipes sid aid pipes d) (set_world w d)).
  { apply goes_bind; [by apply call_on_goes; [..|intros; by apply not_timed]|].
    intros h1 d1 out Hrun Hokd. rewrite call_no_history in Hrun. rewrite Hrun in Hall. by apply IH. }
  destruct (Hgo h) as (d' & out & Hrun & Hok' & Hset). exists d', out. split; [|by split].
  rewrite bind_run. unfold insert_pipe. rewrite Sequence_next_fresh by lia. cbn [mbind option_bind].
  rewrite lift_some. cbv beta iota. rewrite app_nil_r. 
  match goal with |- match ?m with _ => _ end = _ =>
    change m with ((d ← call_on sid c (set_world w d); accept_pipes sid aid pipes d) h) end.
  by rewrite Hrun.
Qed.

Lemma goes_remove_socket sid d :
  rx_ok d → waiting_of sid d = [] → goes nothing (λ d, mret (set_session (remove_socket sid (session d)) d)) d.
Proof.
  intros Hok Hw h. set (s' := remove_socket sid (session d)).
  assert (Hat : ∀ x, get_socket_mut x s' = if bool_decide (x = sid) then None else socket_at x d).
  { intros x. unfold get_socket_mut, SocketCollection_get_socket_mut. cbn. case_bool_decide as Hx.
    - subst. apply lookup_delete_eq. - by apply lookup_delete_ne. }
  exists (set_session s' d), []. split; [done|]. split.
  - destruct Hok as [Hs Hc Ht Htm Hdr Hwf Hfr Hcl Hlt]. split; cbn [world session set_session channel]; try done.
    + destruct (session d) as [ss ds ps] eqn:Hses. apply (session_ok_sockets (ids (world d)) _ (mkSession ss ds ps)); [done|done|].
      intros x y Hl. cbn in Hl. apply lookup_delete_Some in Hl as [_ Hl]. by apply (ok_sockets _ _ Hs).
    + intros x y. unfold socket_at. cbn [session set_session]. rewrite Hat. case_bool_decide; [done|apply Ht].
    + intros t x task k y Hf Hk. unfold socket_at. cbn [session set_session]. rewrite Hat.
      case_bool_decide; [done|by eapply Htm].
    + intros x y. unfold socket_at. cbn [session set_session]. rewrite Hat. case_bool_decide; [done|apply Hcl].
  - apply settled_quiet; [done| |].
    2: { intros x _ Hx. change (get_socket_mut x s' = None). rewrite Hat. by case_bool_decide. }
    intros x. unfold waiting_of at 1. change (socket_at x (set_session s' d)) with (get_socket_mut x s').
    rewrite Hat. case_bool_decide as Hx; [by subst x|done].
Qed.

Lemma process_signal_goes s d : rx_ok d → signal_allowed s d = true → goes nothing (process_signal s) d.
Proof.
  intros Hok Hall. destruct s as [sid eid cmd|sid eid evt|sid eid cmd|sid eid evt|sid []|sid evt]; cbn [process_signal signal_allowed] in *.
  - intros h. cbn [process_signal]. unfold process_pipe_cmd. destruct (get_pipe_mut eid _) as [pc|]; [|by apply goes_ret].
    destruct cmd as [| |msg|]; by apply goes_pipe.
  - unfold process_pipe_evt. destruct (call_of_evt eid evt) as [c|] eqn:Hc.
    + assert (Hgo : goes nothing (call_on sid c) d).
      { apply call_on_goes; [done|by destruct evt; simplify_eq/=|done|]. intros; apply not_timed. by destruct evt; simplify_eq/=. }
      destruct evt; try done; injection Hc as <-; exact Hgo.
    + destruct evt; try done. eapply (goes_same _ _ (with_endpoints _ _ _) []); try done.
  - intros h. cbn [process_signal]. unfold process_acceptor_cmd. destruct (get_acceptor_mut eid _) as [ac|]; [|by apply goes_ret].
    destruct cmd; by apply goes_acceptor.
  - destruct evt as [| |pipes|e]; try (by apply goes_ret); [by apply goes_accept|].
    apply (call_on_goes sid (CAcceptorError eid e)); [done..|]. intros; by apply not_timed.
  - apply (call_on_goes sid CPoll); [done..|]. intros; by apply not_timed.
  - destruct evt as [x|x|]; cbn [process_socket_evt].
    + by apply (goes_probe_link sid (VoteSend sid x)).
    + apply (goes_bind nothing (apply_on_device_link sid (Device_on_socket_can_recv sid x)));
        [by apply (goes_device_link sid (CanRecvNow sid x))|]. intros h d1 out Hrun Hok1.
      assert (Hany : apply_on_device_link sid (Device_on_socket_can_recv sid x) d [] = Done d1 out)
        by (rewrite <- Hrun; unfold apply_on_device_link; by destruct (find_device_mut sid (session d)) as [[]|]).
      rewrite Hany in Hall. by apply (goes_probe_link sid (VoteRecv sid x)).
    + apply bool_decide_eq_true in Hall. by apply goes_remove_socket.
Qed.

(** ** Timed tasks and readiness *)

Definition tick_allowed (task : Task) d : bool :=
  match task with
  | TaskSocket sid task => call_allowed sid (call_of_task task) d
  | TaskProbe pid => probe_allowed pid PollTimeout d
  end.

Lemma process_tick_goes task d :
  rx_ok d → tick_allowed task d = true →
  (∀ sid tsk s, task = TaskSocket sid tsk → socket_at sid d = Some s → in_time (call_of_task tsk) d s) →
  goes nothing (process_tick task) d.
Proof.
  intros Hok Hall Htime. destruct task as [sid tsk|pid]; cbn [process_tick tick_allowed] in *.
  - assert (Hgo : goes nothing (call_on sid (call_of_task tsk)) d).
    { apply call_on_goes; [done|by destruct tsk|done|]. intros s. by apply Htime. }
    destruct tsk; exact Hgo.
  - exact (goes_apply_probe pid PollTimeout d Hok Hall).
Qed.

Definition io_allowed (eid : EndpointId) (events : Ready) d : bool :=
  match get_pipe_mut eid (endpoints (world d)) with
  | Some pc => finishes (PipeController_ready events pc (world d) [])
  | None =>
      match get_acceptor_mut eid (endpoints (world d)) with
      | Some ac => finishes (AcceptorController_ready events ac (world d) [])
      | None => true
      end
  end.

Lemma process_io_goes eid events d : rx_ok d → io_allowed eid events d = true → goes nothing (process_io eid events) d.
Proof.
  intros Hok Hall h. unfold io_allowed, process_io in *. destruct (get_pipe_mut eid _) as [pc|]; [by apply goes_pipe|].
  destruct (get_acceptor_mut eid _) as [ac|]; [by apply goes_acceptor|by apply goes_ret].
Qed.

End reactor.

Section runs.
Context `{Build} {Tr Pp Ac Net Tm Hd : Type}.
Context `{PipeTrait Pp} `{AcceptorTrait Pp Ac} `{Transport Tr Pp Ac Net} `{TimerLaws Tm Hd} `{HashOrder}.
Context {T : Type} `{Tenant T}.
Abbreviation W := (@World Tr Pp Ac Net Tm Hd).
Abbreviation Rx := (@Dispatcher Tr Pp Ac Net Tm Hd T).
Implicit Types (w : W) (d : Rx) (sid : SocketId) (closed : gset SocketId).

(** ** Closing a socket *)

(** What a socket says when it closes. *)
Definition farewell (e : effect) : Prop := match e with NetClose _ _ | Context.Raise Core.Closed => True | _ => False end.

Lemma Socket_close_says {E : Env} (s : Socket T) h :
  tenant_inv (protocol s) → tenant_pending (protocol s) = None →
  ∃ s' out, Socket_close s h = Done s' out ∧ sock_id s' = sock_id s ∧
    tenant_asleep (protocol s') ∧ Forall farewell out.
Proof.
  intros Hinv Hnone. destruct (socket_closes s h) as (pids & aids & Hrun & _). cbv zeta in Hrun.
  set (said := ((λ id, NetClose id true) <$> pids) ++ ((λ id, NetClose id false) <$> aids)) in Hrun. destruct (tenant_closes (protocol s)) as [_ Hc].
  destruct (sleeps_close _ _ _ _ tenant_sleeps (protocol s) Hinv Hnone (h ++ said)) as (p & out & Hp & _ & Hsleep). rewrite Hp in Hrun.
  exists (mkSocket (sock_id s) p ∅ ∅ (config s)), (said ++ out ++ [Context.Raise Core.Closed]).
  split; [exact Hrun|]. split; [done|]. split; [exact Hsleep|]. apply Forall_app. split.
  - apply Forall_app. split; apply Forall_fmap, Forall_true; done.
  - apply Forall_app. split; [|by repeat constructor]. destruct (Hc _ _ _ Hp) as [Ho _].
    eapply Forall_impl; [exact Ho|]. by intros [].
Qed.

Lemma farewell_arms (E : Env) task out t : Forall farewell out → ¬ arms task [] out t.
Proof.
  intros Hf (o1 & d & o2 & -> & _). apply Forall_app in Hf as [_ Hf]. by apply Forall_cons in Hf as [Hf _].
Qed.

Lemma farewell_silent sid sid' out : Forall farewell out → replies_to sid' (omap (socket_output sid) out) = [].
Proof.
  intros Hf. rewrite socket_output_replies. case_bool_decide; [|done].
  induction Hf as [|e out He _ IH]; [done|]. by destruct e as [| | | | | | | | | |[]|].
Qed.

(** The sockets asked to close, after a request or a step. *)
Definition closed_by closed (req : rx_request T) d : gset SocketId :=
  match req with
  | ForSocket sid RequestClose => match socket_at sid d with Some _ => {[sid]} ∪ closed | None => closed end
  | _ => closed
  end.

Lemma goes_close closed sid d :
  rx_ok closed d → close_allowed closed sid d = true →
  goes (closed_by closed (ForSocket sid RequestClose) d) nothing (process_socket_request sid RequestClose) d.
Proof.
  intros Hok Hall h. unfold close_allowed in Hall. cbn [process_socket_request closed_by]. unfold apply_on_socket.
  change (get_socket_mut sid (session d)) with (socket_at sid d). destruct (socket_at sid d) as [s|] eqn:Hs.
  2: { exists d, []. split; [done|]. split; [done|by apply settled_still]. }
  cbv zeta in Hall. apply andb_true_iff in Hall as [[Hopen Hw]%andb_true_iff Hroom].
  apply bool_decide_eq_true in Hopen, Hw.
  assert (Hnone : tenant_pending (protocol s) = None).
  { unfold waiting_of in Hw. rewrite Hs in Hw. by destruct (tenant_pending (protocol s)). }
  destruct (Socket_close_says (E := context_env sid (world d)) s [] (ok_tenants _ _ Hok _ _ Hs Hopen) Hnone)
    as (s' & out & Hrun & Hid & Hsleep & Hsays).
  assert (Hpend : tenant_pending (protocol s') = None) by by apply (sleeps_idle _ _ _ _ (tenant_sleeps (E := context_env sid (world d)))).
  rewrite Hrun in *.
  destruct (carry_on sid (world d) [] (world d) out eq_refl (ok_clock _ _ Hok)) as (w' & Hcarry & Hon & Hfire);
    [apply (ok_session _ _ Hok)|done|]. rewrite Hcarry.
  assert (Hold : ∀ t tk, to_fire w' !! t = Some tk → to_fire (world d) !! t = Some tk).
  { intros t tk Ht. destruct (Hfire _ _ Ht) as [[Hold _]|(task & _ & Harm)]; [done|]. by apply farewell_arms in Harm. }
  exists (set_world w' (set_session (put_socket sid s' (session d)) d)), (omap (socket_output sid) out).
  split; [done|]. split.
  - destruct Hok as [Hse Hc Ht Htm Hdr Hwf Hfr Hcl Hlt]. split; cbn [world session set_world set_session channel]; try done.
    + eapply session_ok_le; [|apply (on_ids _ _ _ Hon)].
      destruct (PutSocket_stepped sid s' _ _ Hse) as [Hput _]; [|exact Hput]. exists s. by split; [exact Hs|].
    + apply Hon.
    + intros x y. rewrite socket_at_put. case_bool_decide as Heq; intros Hx [Hne Hn]%not_elem_of_union; [|by apply (Ht x y Hx)].
      destruct Hne. by apply elem_of_singleton.
    + intros t x task k y Hf Hk. rewrite socket_at_put. apply Hold in Hf. case_bool_decide as Heq; [|by eapply Htm].
      intros [= <-]. subst x. rewrite Hpend, <- Hnone. by eapply Htm.
    + intros t x task Hf. pose proof (on_ids _ _ _ Hon). specialize (Hdr _ _ _ (Hold _ _ Hf)). lia.
    + intros x y. rewrite socket_at_put. case_bool_decide as Heq; [by intros [= <-] _|].
      intros Hx [Hin%elem_of_singleton|Hin]%elem_of_union; [done|by apply (Hcl x y Hx)].
    + intros x [->%elem_of_singleton|Hin]%elem_of_union; pose proof (on_ids _ _ _ Hon); [|specialize (Hlt _ Hin); lia].
      destruct (ok_sockets _ _ Hse _ _ Hs). lia.
  - apply settled_quiet; [intros x; exact (farewell_silent sid x out Hsays)| |].
    2: { intros x _. rewrite socket_at_put. case_bool_decide as Heq; [|done]. subst x. congruence. }
    intros x. unfold waiting_of. rewrite socket_at_put.
    case_bool_decide as Heq; [|done]. subst x. by rewrite Hs, Hpend, Hnone.
Qed.

(** ** Steps and runs *)

(** Sockets are made of protocols that nothing waits on. *)
Definition fresh_request (req : rx_request T) : Prop :=
  match req with ForSession (CreateSocket ctor) => tenant_inv ctor ∧ tenant_pending ctor = None | _ => True end.
Definition fresh_input (i : rx_input (T := T)) : Prop := match i with Arrive reqs => Forall fresh_request reqs | _ => True end.

(** What is supposed of a step. *)
Definition input_allowed closed (i : rx_input (T := T)) d : bool :=
  match i with
  | Arrive _ => true
  | TurnChannel => match channel d with [] => true | req :: rest => request_allowed closed req (set_channel rest d) end
  | TurnBus =>
      let '(signal, bus) := bus_recv (signal_tx (world d)) in
      match signal with None => true | Some s => signal_allowed closed s (set_world (with_bus bus (world d)) d) end
  | TurnTimer now =>
      let w := world d in
      let '(task, t) := timer_poll now (timer w) in
      match task with None => true | Some task => tick_allowed closed task (set_world (with_schedule (schedule w) t w) d) end
  | TurnIo eid events => io_allowed eid events d
  end.

Definition closing closed (i : rx_input (T := T)) d : gset SocketId :=
  match i, channel d with TurnChannel, req :: _ => closed_by closed req d | _, _ => closed end.

(** What a step takes from the facade. *)
Definition asked (i : rx_input (T := T)) d : SocketId → list demand :=
  match i, channel d with TurnChannel, req :: _ => demands_of req | _, _ => nothing end.

Lemma goes_turn closed ds (m : Rx → R (bool * Rx)) (k : Rx → R Rx) d b :
  goes closed ds k d → (∀ h, m d h = (d ← k d; mret (b, d)) h) → goes closed ds (λ d, '(_, d) ← m d; mret d) d.
Proof.
  intros Hk Hm h. destruct (Hk h) as (d' & out & Hrun & Hok & Hs). exists d', out. split; [|done].
  rewrite turn_step, Hm, bind_run, Hrun, ret_run. cbn. by rewrite app_nil_r.
Qed.

(** From another start. *)
Lemma goes_from closed ds (m k : Rx → R Rx) d d1 :
  session d1 = session d → (∀ h, m d h = k d1 h) → goes closed ds k d1 → goes closed ds m d.
Proof.
  intros Hw Hm Hk h. rewrite Hm. destruct (Hk h) as (d' & out & Hrun & Hok & Hs). exists d', out. split; [done|].
  split; [done|]. intros sid. destruct (Hs sid) as (served & Heq & Hf). exists served.
  unfold stays_gone, waiting_of, socket_at in *. by rewrite <- Hw.
Qed.

Lemma rx_ok_channel closed reqs d : rx_ok closed d → Forall fresh_request reqs → rx_ok closed (set_channel reqs d).
Proof.
  intros [Hs Hc Ht Htm Hdr Hwf Hfr Hcl Hlt] Hfresh. split; cbn [world session set_channel channel]; try done.
  intros ctor Hin. by apply (proj1 (Forall_forall _ _) Hfresh _ Hin).
Qed.

Lemma rx_ok_fresh closed d : rx_ok closed d → Forall fresh_request (channel d).
Proof.
  intros Hok. apply Forall_forall. intros [[]| | | |] Hin; try done. by apply (ok_fresh _ _ Hok).
Qed.

Lemma process_goes closed req d :
  rx_ok closed d → request_allowed closed req d = true → fresh_request req →
  goes (closed_by closed req d) (demands_of req) (process_request req) d.
Proof.
  intros Hok Hall Hfresh.
  assert (Hdec : stays_open req ∨ ∃ sid, req = ForSocket sid RequestClose) by (destruct req as [|sid []| | |]; eauto; by left).
  destruct Hdec as [Hopen|[sid ->]].
  - assert (Hgo : goes closed (demands_of req) (process_request req) d) by (apply process_request_goes; [done..|by intros ctor ->]).
    by destruct req as [|sid []| | |].
  - intros h. destruct (goes_close closed sid d Hok Hall h) as (d' & out & Hrun & Hok' & Hs). exists d', out.
    split; [exact Hrun|]. split; [done|]. eapply settled_ext; [|exact Hs]. intros x. cbn. unfold just. by case_bool_decide.
Qed.

Lemma rx_step_goes closed i d :
  rx_ok closed d → fresh_input i → input_allowed closed i d = true → goes (closing closed i d) (asked i d) (rx_step i) d.
Proof.
  intros Hok Hfresh Hall. unfold closing. destruct i as [reqs| | |now|eid events]; cbn [rx_step input_allowed asked fresh_input] in *.
  - intros h. eexists _, _. split; [done|]. split; [|by apply settled_still].
    apply rx_ok_channel; [done|]. apply Forall_app. split; [by eapply rx_ok_fresh|done].
  - pose proof (rx_ok_fresh closed d Hok) as Hq. destruct (channel d) as [|req rest] eqn:Hch.
    + apply (goes_turn closed _ channel_turn mret d false); [by apply goes_ret|]. intros h. unfold channel_turn. by rewrite Hch.
    + apply Forall_cons in Hq as [Hreq Hrest].
      apply (goes_turn _ _ channel_turn (λ d, process_request req (set_channel rest d)) d true).
      * apply (goes_from _ _ _ (process_request req) d (set_channel rest d)); [done..|].
        change (closed_by closed req d) with (closed_by closed req (set_channel rest d)).
        apply process_goes; [by apply rx_ok_channel|done..].
      * intros h. unfold channel_turn. by rewrite Hch.
  - destruct (bus_recv (signal_tx (world d))) as [signal bus] eqn:Hbus.
    set (d1 := set_world (with_bus bus (world d)) d) in *.
    assert (Hok1 : rx_ok closed d1).
    { apply (rx_ok_world closed 0); [done|by apply same_clock_on; [apply Hok|]|by apply no_more_eq]. }
    destruct signal as [s|].
    + apply (goes_turn closed _ bus_turn (λ _, process_signal s d1) d true).
      * apply (goes_from closed _ _ (process_signal s) d d1); [done..|]. by apply process_signal_goes.
      * intros h. unfold bus_turn. by rewrite Hbus.
    + apply (goes_turn closed _ bus_turn (λ _, mret d1) d false).
      * apply (goes_from closed _ _ mret d d1); [done..|]. by apply goes_ret.
      * intros h. unfold bus_turn. by rewrite Hbus.
  - cbv zeta in Hall. pose proof (timer_poll_ok now (world d) (ok_clock _ _ Hok)) as Hp.
    destruct (timer_poll now (timer (world d))) as [task tm] eqn:Htm.
    cbv zeta in Hp. set (w1 := with_schedule (schedule (world d)) tm (world d)) in *. destruct Hp as [Hc1 Hp].
    assert (Hok1 : rx_ok closed (set_world w1 d)).
    { apply (rx_ok_world closed 0); [done|split; cbn; [done|lia|lia]|]. intros t tk Ht. left. destruct task as [task|].
      - destruct Hp as (t' & _ & Heq). rewrite Heq in Ht. by apply lookup_delete_Some in Ht as [_ Ht].
      - by rewrite <- Hp. }
    destruct task as [task|].
    + apply (goes_turn closed _ (timer_turn now) (λ _, process_tick task (set_world w1 d)) d true).
      * apply (goes_from closed _ _ (process_tick task) d (set_world w1 d)); [done..|]. apply (process_tick_goes closed); [done..|].
        intros sid tsk s -> Hs k Hk. destruct Hp as (t & Ht & Heq). exists t. split.
        -- apply (ok_timers _ _ Hok t sid tsk k s); [done|by destruct tsk|done].
        -- cbn [world set_world]. rewrite Heq. apply lookup_delete_eq.
      * intros h. unfold timer_turn. by rewrite Htm.
    + apply (goes_turn closed _ (timer_turn now) (λ _, mret (set_world w1 d)) d false).
      * apply (goes_from closed _ _ mret d (set_world w1 d)); [done..|]. by apply goes_ret.
      * intros h. unfold timer_turn. by rewrite Htm.
  - by apply process_io_goes.
Qed.

(** Along a run, that began with the history [h]. *)
Fixpoint rx_disciplined closed (ins : list (rx_input (T := T))) d (h : list rx_effect) : bool :=
  match ins with
  | [] => true
  | i :: rest =>
      input_allowed closed i d &&
      match rx_step i d h with Done d' out => rx_disciplined (closing closed i d) rest d' (h ++ out) | Panicked => true end
  end.

Fixpoint asked_along (ins : list (rx_input (T := T))) d (h : list rx_effect) (sid : SocketId) : list demand :=
  match ins with
  | [] => []
  | i :: rest =>
      asked i d sid ++
      match rx_step i d h with Done d out => asked_along rest d (h ++ out) sid | Panicked => [] end
  end.

(** The sockets asked to close in a run. *)
Fixpoint closed_along closed (ins : list (rx_input (T := T))) d (h : list rx_effect) : gset SocketId :=
  match ins with
  | [] => closed
  | i :: rest =>
      match rx_step i d h with Done d' out => closed_along (closing closed i d) rest d' (h ++ out) | Panicked => closed end
  end.

Lemma closing_more closed i d : closed ⊆ closing closed i d.
Proof.
  unfold closing, closed_by. destruct i; try done. destruct (channel d) as [|[|sid []| | |] rest]; try done.
  destruct (socket_at sid d); [|done]. apply union_subseteq_r.
Qed.

Lemma settled_fewer closed closed' : closed ⊆ closed' → ∀ ds d out d', settled closed' ds d out d' → settled closed ds d out d'.
Proof.
  intros Hsub ds d out d' Hs sid. destruct (Hs sid) as (served & Heq & Hf & Hg). exists served.
  split; [done|]. split; [done|]. intros Hin. by apply Hg, Hsub.
Qed.

Lemma rx_run_goes closed ins d h :
  rx_ok closed d → Forall fresh_input ins → rx_disciplined closed ins d h = true →
  ∃ d' out, rx_run ins d h = Done d' out ∧ rx_ok (closed_along closed ins d h) d' ∧ settled closed (asked_along ins d h) d out d'.
Proof.
  revert closed d h. induction ins as [|i ins IH]; intros closed d h Hok Hfresh Hall; cbn [rx_run rx_disciplined asked_along closed_along] in *.
  { exists d, []. split; [done|]. split; [done|]. by apply settled_still. }
  apply Forall_cons in Hfresh as [Hf Hfresh]. apply andb_true_iff in Hall as [Hi Hall].
  destruct (rx_step_goes closed i d Hok Hf Hi h) as (d1 & o1 & Hrun1 & Hok1 & Hs1). rewrite Hrun1 in *.
  destruct (IH _ d1 (h ++ o1) Hok1 Hfresh Hall) as (d2 & o2 & Hrun2 & Hok2 & Hs2).
  exists d2, (o1 ++ o2). split; [by eapply bind_done|]. split; [done|].
  by apply (settled_app closed _ _ _ d1); apply (settled_fewer _ _ (closing_more closed i d)).
Qed.

Lemma Dispatcher_new_ok trs clock net : armed_tasks clock = ∅ → rx_ok ∅ (Dispatcher_new trs clock net : Rx).
Proof.
  intros Hempty. destruct (schedule_new_ok clock Hempty) as [Hc Hnone].
  split; cbn [world session Dispatcher_new channel]; try done.
  intros ctor Hin. by apply not_elem_of_nil in Hin.
Qed.

(** C2: The thread of the reactor. However requests, signals, timeouts and readiness
    interleave over any number of sockets, devices and probes, as long as
    [rx_disciplined] holds (ids do not run out, each request is for a socket that
    exists and does not wait already, protocols are called as their guards say,
    and nothing is asked of a socket asked to close), the thread does not
    panic; each socket answers its requests one by one, in order and with the reply
    for each; the requests not answered yet are those the sockets wait on; a
    timer armed for a request is that of the request that waits, so no timeout
    ever hits a later request; and nothing waits on a socket asked to close, which
    still takes what was on its way to it, and says nothing. *)
Theorem reactor_conversation (trs : gmap string Tr) (clock : Tm) (net : Net) (ins : list (rx_input (T := T))) :
  armed_tasks clock = ∅ → Forall fresh_input ins → rx_disciplined ∅ ins (Dispatcher_new trs clock net) [] = true →
  ∃ d out, rx_run ins (Dispatcher_new trs clock net) [] = Done d out ∧
    (∀ sid, ∃ served, asked_along ins (Dispatcher_new trs clock net) [] sid = served ++ waiting_of sid d ∧
      Forall2 serves served (replies_to sid out)) ∧
    (∀ t sid task k s, to_fire (world d) !! t = Some (TaskSocket sid task) → request_of_task task = Some k →
      socket_at sid d = Some s → tenant_pending (protocol s) = Some (k, Some t)) ∧
    (∀ sid, sid ∈ closed_along ∅ ins (Dispatcher_new trs clock net) [] → waiting_of sid d = []).
Proof.
  intros Hempty Hfresh Hall. destruct (rx_run_goes ∅ ins _ [] (Dispatcher_new_ok trs clock net Hempty) Hfresh Hall)
    as (d & out & Hrun & Hok & Hs).
  exists d, out. split; [exact Hrun|]. split; [|split; [apply (ok_timers _ _ Hok)|]].
  - intros sid. destruct (Hs sid) as (served & Heq & Hf & _). by exists served.
  - intros sid Hin. unfold waiting_of. destruct (socket_at sid d) as [s|] eqn:Hx; [|done]. by rewrite (sleeps_idle _ _ _ _ (tenant_sleeps (E := context_env sid (world d))) _ (ok_closed _ _ Hok _ _ Hx Hin)).
Qed.

End runs.

(** ** An example: a PULL socket times out, then receives, then closes while the
    news that a pipe opened is on its way to it *)

#[local] Existing Instances ex_pipes ex_acceptors ex_transport ex_build ex_order.

Definition ex_start : @Dispatcher () (list Message) () () ListTimer N (Push.Push + Pull.Pull) :=
  Dispatcher_new {[ "ex" := () ]} (mkListTimer 0 ∅ ∅) ().

Definition ex_run : list (rx_input (T := Push.Push + Pull.Pull)) :=
  let pull := SocketId_from 0 in
  [ Arrive [ForSession (CreateSocket (inr Pull.Pull_from)); ForSocket pull (RequestSetOption (RecvTimeout (Some 100)));
            ForSocket pull (RequestRecv false)];
    TurnChannel; TurnChannel; TurnChannel; TurnTimer 50; TurnTimer 150;
    Arrive [ForSocket pull (RequestConnect "ex://there"); ForSocket pull (RequestRecv false)];
    TurnChannel; TurnBus; TurnBus; TurnBus; TurnBus; TurnChannel; TurnBus; TurnBus; TurnBus; TurnBus; TurnTimer 999;
    Arrive [ForSocket pull (RequestConnect "ex://too late")]; TurnChannel; TurnBus;
    Arrive [ForSocket pull RequestClose]; TurnChannel; TurnBus; TurnBus; TurnBus; TurnBus; TurnBus ].

Lemma reactor_conversation_witness :
  let replies := [ReplySetOption; ReplyErr (timedout_io_error "Recv timed out"); ReplyConnect (EndpointId_from 1);
                  ReplyRecv (from_body [42]); ReplyConnect (EndpointId_from 2)] in
  ∃ d out, rx_run ex_run ex_start [] = Done d out ∧ replies_to (SocketId_from 0) out = replies ∧
    (∃ served, [DSetOption; DRecv; DConnect; DRecv; DConnect] = served ++ waiting_of (SocketId_from 0) d ∧ Forall2 serves served replies) ∧
    socket_at (SocketId_from 0) d = None.
Proof.
  intros rs. destruct (reactor_conversation {[ "ex" := () ]} (mkListTimer 0 ∅ ∅) () ex_run) as (d & out & Hrun & Hs & _ & _).
  - reflexivity.
  - unfold ex_run. repeat constructor. exact Pull.Pull_from_inv.
  - vm_compute. reflexivity.
  - exists d, out. split; [exact Hrun|]. destruct (Hs (SocketId_from 0)) as (served & Heq & Hf).
    assert (Hout : replies_to (SocketId_from 0) out = rs).
    { transitivity (replies_to (SocketId_from 0) (match rx_run ex_run ex_start [] with Done _ o => o | Panicked => [] end)).
      - change (Dispatcher_new _ _ _) with ex_start in Hrun. by rewrite Hrun.
      - vm_compute. reflexivity. }
    split; [exact Hout|]. split.
    + exists served. rewrite Hout in Hf. split; [|exact Hf]. rewrite <- Heq. vm_compute. reflexivity.
    + transitivity (match rx_run ex_run ex_start [] with Done d _ => socket_at (SocketId_from 0) d | Panicked => None end).
      * change (Dispatcher_new _ _ _) with ex_start in Hrun. by rewrite Hrun.
      * vm_compute. reflexivity.
Defined.
