(* ===== verification/Walk.v ===== *)
(** * A walk through the reactor

    Whatever the reactor does for a request, a signal or a timed task comes down to
    calls on sockets and to things that leave the sockets alone and put nothing that
    matters on the bus.  [walk_request], [walk_tick] and [walk_signal] go through its
    handlers once and for all: what calls preserve and the rest does not disturb, they
    preserve. *)

From S2P Require Import Prelude Core Context Protocol Socket Probe Device Session.
From S2P Require Import AsyncPipe Acceptor Adapter Dispatcher Tenants Timers Reactor.

Section walk.
Context `{Build} {Tr Pp Ac Net Tm Hd : Type}.
Context `{PipeTrait Pp} `{AcceptorTrait Pp Ac} `{Transport Tr Pp Ac Net} `{TimerLaws Tm Hd} `{HashOrder}.
Context {T : Type} `{Tenant T}.
Abbreviation W := (@World Tr Pp Ac Net Tm Hd).
Abbreviation Rx := (@Dispatcher Tr Pp Ac Net Tm Hd T).
Implicit Types (w : W) (d : Rx) (sid : SocketId).

(** ** What is on the bus *)

Definition posted w : list (Signal Pp) := queue (signal_tx w).

Lemma posted_send s w : posted (send_signal s w) = posted w ++ [s].
Proof. unfold posted, send_signal, bus_send. cbn [signal_tx]. by case_bool_decide. Qed.

Lemma posted_recv s bus w :
  bus_recv (signal_tx w) = (s, bus) → posted w = option_list s ++ posted (with_bus bus w).
Proof.
  unfold posted, bus_recv. cbn [signal_tx with_bus]. set (b := if bool_decide _ then _ else _).
  assert (Hb : queue b = queue (signal_tx w)) by (unfold b; by case_bool_decide). rewrite <- Hb. cbv zeta.
  destruct (queue b) as [|x rest] eqn:Hq; by intros [= <- <-].
Qed.

(** What a call of the context of a socket puts there. *)
Definition signal_of sid (e : effect) : option (Signal Pp) :=
  match e with
  | NetOpen eid true => Some (PipeCmd sid eid PipeCmdOpen)
  | NetOpen eid false => Some (AcceptorCmd sid eid AcceptorCmdOpen)
  | NetClose eid true => Some (PipeCmd sid eid PipeCmdClose)
  | NetClose eid false => Some (AcceptorCmd sid eid AcceptorCmdClose)
  | NetSend eid msg => Some (PipeCmd sid eid (PipeCmdSend msg))
  | NetRecv eid => Some (PipeCmd sid eid PipeCmdRecv)
  | Context.Raise evt => Some (SocketEvt sid evt)
  | _ => None
  end.

Lemma dial_bus {X} (go : Tr → Destination → Net → result X * Net) tmpl w r w' : dial go tmpl w = (r, w') → signal_tx w' = signal_tx w.
Proof.
  unfold dial. destruct (split_url _) as [[sch a]|]; [|by intros [= <- <-]].
  destruct (get_transport _ _); [|by intros [= <- <-]]. destruct (go _ _ _). by intros [= <- <-].
Qed.

Lemma schedule_bus task delay w r w' : Scheduler_schedule task delay w = Some (r, w') → signal_tx w' = signal_tx w.
Proof. unfold Scheduler_schedule. destruct (set_timeout _ _ _). destruct (Schedule_insert _ _) as [[n s]|]; [|done]. by intros [= <- <-]. Qed.
Lemma cancel_bus t w : signal_tx (Scheduler_cancel t w) = signal_tx w.
Proof. unfold Scheduler_cancel. by destruct (Schedule_remove _ _) as [[hd|] s]. Qed.

Lemma act_posts sid e w w' : act sid e w = Some w' → posted w' = posted w ++ option_list (signal_of sid e).
Proof.
  assert (Hsame : ∀ w1, signal_tx w1 = signal_tx w → posted w1 = posted w ++ []) by (intros w1 Heq; unfold posted; by rewrite Heq, app_nil_r).
  destruct e as [s tmpl|s eid tmpl|s tmpl|s eid tmpl|eid []|eid []|eid msg|eid|task dl|t|evt|r]; cbn [act signal_of option_list];
    try (intros [= <-]; apply posted_send); try (intros [= <-]; by apply Hsame).
  - unfold Network_connect, SocketContext_connect. destruct (dial _ _ _) as [[p|e] w1] eqn:Hgo; apply dial_bus in Hgo; cbn.
    + unfold insert_pipe. destruct (Sequence_next _) as [[n i]|]; [|done]. intros [= <-]. by apply Hsame.
    + intros [= <-]. by apply Hsame.
  - intros [= <-]. unfold Network_reconnect, SocketContext_connect.
    destruct (dial _ _ _) as [[p|e] w1] eqn:Hgo; apply dial_bus in Hgo; by apply Hsame.
  - unfold Network_bind, SocketContext_bind. destruct (dial _ _ _) as [[p|e] w1] eqn:Hgo; apply dial_bus in Hgo; cbn.
    + unfold ep_insert_acceptor. destruct (Sequence_next _) as [[n i]|]; [|done]. intros [= <-]. by apply Hsame.
    + intros [= <-]. by apply Hsame.
  - intros [= <-]. unfold Network_rebind, SocketContext_bind.
    destruct (dial _ _ _) as [[p|e] w1] eqn:Hgo; apply dial_bus in Hgo; by apply Hsame.
  - intros ([r w1] & Hx & ->)%fmap_Some. by apply Hsame, (schedule_bus _ _ _ _ _ Hx).
  - intros [= <-]. apply Hsame, cancel_bus.
Qed.

Lemma carry_posts sid es w w' : carry_out sid es w = Some w' → posted w' = posted w ++ omap (signal_of sid) es.
Proof.
  revert w. induction es as [|e es IH]; intros w; cbn [carry_out]; [intros [= <-]; by rewrite app_nil_r|].
  destruct (act sid e w) as [w1|] eqn:Ha; [|done]. intros Hc. rewrite (IH _ Hc), (act_posts _ _ _ _ Ha), <- app_assoc.
  by cbn; destruct (signal_of sid e).
Qed.

(** Signals that are no business of pipes. *)
Definition slight (s : Signal Pp) : Prop := match s with PipeCmd _ _ _ | PipeEvt _ _ _ => False | _ => True end.
Definition posts_slight w w' : Prop := ∃ more, posted w' = posted w ++ more ∧ Forall slight more.

Lemma slight_same w w' : signal_tx w' = signal_tx w → posts_slight w w'.
Proof. intros Heq. exists []. unfold posted. by rewrite Heq, app_nil_r. Qed.
Lemma slight_send s w : slight s → posts_slight w (send_signal s w).
Proof. intros Hs. exists [s]. split; [apply posted_send|by repeat constructor]. Qed.
Lemma slight_trans w1 w2 w3 : posts_slight w1 w2 → posts_slight w2 w3 → posts_slight w1 w3.
Proof. intros (m1 & Hq1 & ?) (m2 & Hq2 & ?). exists (m1 ++ m2). split; [by rewrite Hq2, Hq1, app_assoc|by apply Forall_app]. Qed.
Lemma slight_fold {X} (f : W → X → W) l w : (∀ w x, posts_slight w (f w x)) → posts_slight w (foldl f w l).
Proof.
  intros Hf. revert w. induction l as [|x l IH]; intros w; [by apply slight_same|]. cbn [foldl]. eapply slight_trans; [apply Hf|apply IH].
Qed.

Lemma slight_probe id es w w' : probe_carry_out id es w = Some w' → posts_slight w w'.
Proof.
  revert w. induction es as [|e es IH]; intros w; cbn; [intros [= <-]; by apply slight_same|].
  destruct (probe_act id e w) as [w1|] eqn:Ha; [|done]. intros Hc. apply (slight_trans _ w1); [clear -Ha|by apply IH].
  destruct e as [delay|t|s|r]; cbn [probe_act] in Ha.
  - apply fmap_Some in Ha as ([r w2] & Hx & ->). by eapply slight_same, schedule_bus.
  - injection Ha as <-. apply slight_same, cancel_bus.
  - injection Ha as <-. by apply slight_send.
  - injection Ha as <-. by apply slight_same.
Qed.

(** ** A call *)

Lemma call_inv id f d h d' out :
  apply_on_socket id f d h = Done d' out →
  (socket_at id d = None ∧ d' = d ∧ out = []) ∨
  ∃ s s' o, socket_at id d = Some s ∧ f (context_env id (world d)) s [] = Done s' o ∧ out = omap (socket_output id) o ∧
    (∀ x, socket_at x d' = if bool_decide (x = id) then Some s' else socket_at x d) ∧
    posted (world d') = posted (world d) ++ omap (signal_of id) o ∧ channel d' = channel d.
Proof.
  unfold apply_on_socket. change (get_socket_mut id (session d)) with (socket_at id d).
  destruct (socket_at id d) as [s|] eqn:Hs; [|intros [= <- <-]; by left].
  destruct (f _ _ _) as [s' o|] eqn:Hf; [|done]. destruct (carry_out _ _ _) as [w|] eqn:Hc; [|done].
  intros [= <- <-]. right. exists s, s', o. split; [done|]. split; [done|]. split; [done|].
  split; [intros x; apply socket_at_put|]. split; [by apply (carry_posts id)|done].
Qed.

(** ** What a step is *)

Lemma turn_is i (turn : R (bool * Rx)) (m : R Rx) d b h :
  rx_step i d h = outcome_map snd (turn h) → turn h = (d ← m; mret (b, d)) h → rx_step i d h = m h.
Proof. intros -> ->. rewrite bind_run. destruct (m h) as [d1 o|]; [|done]. cbn. by rewrite app_nil_r. Qed.

Lemma channel_step_is d h :
  rx_step TurnChannel d h = match channel d with [] => mret d | req :: rest => process_request req (set_channel rest d) end h.
Proof.
  apply (turn_is _ (channel_turn d) _ _ (bool_decide (channel d ≠ []))); [apply turn_step|]. unfold channel_turn. by destruct (channel d).
Qed.

Lemma bus_step_is d h :
  let '(s, bus) := bus_recv (signal_tx (world d)) in
  let d1 := set_world (with_bus bus (world d)) d in
  rx_step TurnBus d h = match s with Some s => process_signal s d1 | None => mret d1 end h.
Proof.
  destruct (bus_recv (signal_tx (world d))) as [s bus] eqn:Hbus.
  apply (turn_is _ (bus_turn d) _ _ (bool_decide (is_Some s))); [apply turn_step|]. unfold bus_turn. rewrite Hbus. by destruct s.
Qed.

Lemma timer_step_is now d h :
  let '(task, tm) := timer_poll now (timer (world d)) in
  let d1 := set_world (with_schedule (schedule (world d)) tm (world d)) d in
  rx_step (TurnTimer now) d h = match task with Some task => process_tick task d1 | None => mret d1 end h.
Proof.
  destruct (timer_poll now (timer (world d))) as [task tm] eqn:Htm.
  apply (turn_is _ (timer_turn now d) _ _ (bool_decide (is_Some task))); [apply turn_step|]. unfold timer_turn. rewrite Htm. by destruct task.
Qed.

(** A command of a pipe, by what it makes the pipe do. *)
Definition pipe_command (cmd : PipeCommand) : Pp → Q Pp :=
  match cmd with PipeCmdOpen => pipe_open | PipeCmdClose => pipe_close | PipeCmdSend msg => pipe_send msg | PipeCmdRecv => pipe_recv end.

Lemma process_cmd_is eid cmd d : process_pipe_cmd eid cmd d =
  match get_pipe_mut eid (endpoints (world d)) with Some p => with_pipe eid d (run_pipe (pipe_command cmd)) p | None => mret d end.
Proof. unfold process_pipe_cmd. by destruct (get_pipe_mut _ _), cmd. Qed.

Lemma with_pipe_inv eid f p d h d' out :
  with_pipe eid d (run_pipe f) p h = Done d' out →
  ∃ q o, f (pc_pipe p) [] = Done q o ∧ out = omap (endpoint_output (pc_endpoint_id p)) o ∧
    session d' = session d ∧ channel d' = channel d ∧
    posted (world d') = posted (world d) ++ omap (λ e, match e with AsyncPipe.Raise evt => Some (PipeEvt (pc_socket_id p) (pc_endpoint_id p) evt) | _ => None end) o.
Proof.
  unfold with_pipe, run_pipe. rewrite bind_run. destruct (f _ _) as [c o|]; [|done].
  rewrite ret_run, app_nil_r. intros [= <- <-]. exists c, o. repeat (split; [done|]).
  set (w := foldl _ (world d) o). change (posted (set_world (with_endpoints _ _ w) d).(world)) with (posted w). unfold w. clear w.
  generalize (world d) as w. induction o as [|e o IH]; intros w; cbn [foldl omap list_omap]; [by rewrite app_nil_r|]. rewrite IH.
  destruct e; try done. cbn [endpoint_act]. by rewrite posted_send, <- app_assoc.
Qed.

(** ** The walk *)

(** Sockets stay as they are or go, and nothing for the pipes is posted. *)
Record drifts d d' : Prop := {
  dr_sockets : ∀ sid, socket_at sid d' = socket_at sid d ∨ socket_at sid d' = None;
  dr_posted : posts_slight (world d) (world d');
  dr_channel : channel d' = channel d
}.

(** The calls the reactor makes on its own. *)
Definition routine (c : call) : Prop := match c with CSend _ | CTrySend _ | CRecvAck _ _ => False | _ => True end.

(** What the walk asks of [I], which it preserves, of the effects [Q] and of the calls
    that are [fine]. *)
Record walkable (Q : rx_effect → Prop) (I : Rx → Prop) (fine : SocketId → call → Prop) (fine_ctor : T → Prop) : Prop := {
  wk_other : ∀ e, (∀ s r, e ≠ ToSocket s r) → Q e;
  wk_drifts : ∀ d d', drifts d d' → I d → I d';
  wk_call : ∀ id c d, fine id c → I d → runs Q I (call_on id c d);
  wk_close : ∀ id d, I d → runs Q I (apply_on_socket id (λ E, Socket_close) d);
  wk_create : ∀ ctor i rep i' s d, add_socket ctor i (session d) = Some (rep, i', s) → fine_ctor ctor → I d →
    I (set_world (with_endpoints i' (endpoints (world d)) (world d)) (set_session s d));
  wk_routine : ∀ id c, routine c → fine id c
}.

Section preserved.
Context (Q : rx_effect → Prop) (I : Rx → Prop) (fine : SocketId → call → Prop) (fine_ctor : T → Prop).
Context (Hwalk : walkable Q I fine fine_ctor).

Definition fine_request (req : rx_request T) : Prop :=
  match req with
  | ForSession (CreateSocket ctor) => fine_ctor ctor
  | ForSocket id (RequestSend m false) => fine id (CSend m)
  | ForSocket id (RequestSend m true) => fine id (CTrySend m)
  | _ => True
  end.

Abbreviation keeps m := (runs Q I m).

Lemma walk_keeps_ret d : I d → keeps (mret d).
Proof. apply runs_ret. Qed.
Lemma walk_keeps_then (m : R Rx) (k : Rx → R Rx) : keeps m → (∀ d, I d → keeps (k d)) → keeps (m ≫= k).
Proof. apply runs_bind. Qed.

Lemma drift_world w d : posts_slight (world d) w → I d → I (set_world w d).
Proof. intros Hw. apply (wk_drifts _ _ _ _ Hwalk). split; [by left|done|done]. Qed.

Lemma drift_session w s d :
  (∀ sid, get_socket_mut sid s = socket_at sid d ∨ get_socket_mut sid s = None) → posts_slight (world d) w → I d → I (set_world w (set_session s d)).
Proof. intros Hs Hw. apply (wk_drifts _ _ _ _ Hwalk). by split. Qed.

Lemma others_said {X} (f : X → option rx_effect) l : (∀ x e, f x = Some e → ∀ s r, e ≠ ToSocket s r) → Forall Q (omap f l).
Proof.
  intros Hf. induction l as [|x l IH]; [done|]. cbn. destruct (f x) as [e|] eqn:He; [|exact IH].
  constructor; [|exact IH]. by eapply (wk_other _ _ _ _ Hwalk), Hf.
Qed.

Lemma keeps_call id c d : I d → routine c → keeps (apply_on_socket id (λ E, Socket_step c) d).
Proof. intros HI Hc. by apply (wk_call _ _ _ _ Hwalk); [apply (wk_routine _ _ _ _ Hwalk)|]. Qed.

Lemma keeps_device id x f d : I d → keeps (on_device id x f d).
Proof.
  intros HI h d' out. unfold on_device. destruct (f _ _) as [y o|]; [|done]. intros [= <- <-]. split.
  - apply others_said. by intros [] e [= <-].
  - apply drift_session; [by left| |done]. apply slight_fold. intros w []; [by apply slight_send|by apply slight_same].
Qed.

Lemma keeps_probe id p f d : I d → keeps (on_probe id p f d).
Proof.
  intros HI h d' out. unfold on_probe. destruct (f _ _ _) as [y o|]; [|done]. destruct (probe_carry_out _ _ _) as [w|] eqn:Hc; [|done].
  intros [= <- <-]. split; [apply others_said; by intros [] e [= <-]|]. apply drift_session; [by left| |done]. by eapply slight_probe.
Qed.

Lemma keeps_reply r d :
  (∀ rep i s, r = Some (rep, i, s) → I (set_world (with_endpoints i (endpoints (world d)) (world d)) (set_session s d))) →
  keeps (reply_session r d).
Proof.
  intros Hr. apply (runs_bind _ (λ x, r = Some x)); [by apply runs_lift|]. intros [[rep i] s] Heq.
  apply every_bind; [by apply runs_emit; [apply (wk_other _ _ _ _ Hwalk)|]|]. intros _. apply runs_ret. by eapply Hr.
Qed.

Lemma walk_request req d : fine_request req → I d → keeps (process_request req d).
Proof.
  intros Hreq HI. destruct req as [req|s req|s eid [remote]|did []|pid [delay|]]; cbn [process_request].
  - destruct req as [ctor|l r|opts|]; cbn [process_session_request].
    + apply keeps_reply. intros rep i s Hadd. by eapply (wk_create _ _ _ _ Hwalk).
    + apply walk_keeps_then; [by apply (keeps_call l CDevicePlugged)|]. intros d1 HI1.
      apply walk_keeps_then; [by apply (keeps_call r CDevicePlugged)|]. intros d2 HI2. apply keeps_reply. intros rep i s.
      unfold add_device. destruct (DeviceCollection_add _ _ _ _) as [[[? ?] ?]|]; [|done]. intros [= _ _ <-].
      apply drift_session; [by left|by apply slight_same|done].
    + apply keeps_reply. intros rep i s. unfold add_probe. destruct (ProbeCollection_add _ _ _) as [[[? ?] ?]|]; [|done].
      intros [= _ _ <-]. apply drift_session; [by left|by apply slight_same|done].
    + apply walk_keeps_ret. eapply (wk_drifts _ _ _ _ Hwalk); [|done]. split; [by left|by apply slight_same|done].
  - destruct req as [u|u|msg []|[]|o|]; [by apply (keeps_call s (CConnect u))|by apply (keeps_call s (CBind u))|
      by apply (wk_call _ _ _ _ Hwalk s (CTrySend msg))|by apply (wk_call _ _ _ _ Hwalk s (CSend msg))|by apply (keeps_call s CTryRecv)|
      by apply (keeps_call s CRecv)|by apply (keeps_call s (CSetOption o))|by apply (wk_close _ _ _ _ Hwalk)].
  - destruct remote; [by apply (keeps_call s (CClosePipe eid))|by apply (keeps_call s (CCloseAcceptor eid))].
  - cbn. unfold apply_on_device. destruct (get_device_mut did _); [by apply keeps_device|by apply walk_keeps_ret].
  - by apply walk_keeps_ret.
  - cbn. unfold apply_on_probe. destruct (get_probe_mut pid _); [by apply keeps_probe|by apply walk_keeps_ret].
  - cbn. unfold remove_probe. destruct (ProbeCollection_remove pid _) as [dropped ps]. apply every_bind.
    + apply every_if_some. intros p _. by apply runs_emit; [apply (wk_other _ _ _ _ Hwalk)|].
    + intros _. apply walk_keeps_ret. eapply (wk_drifts _ _ _ _ Hwalk); [|done]. split; [by left|by apply slight_same|done].
Qed.

Lemma walk_accept s aid pipes d : I d → keeps (accept_pipes s aid pipes d).
Proof.
  revert d. induction pipes as [|p pipes IH]; intros d HI; cbn [accept_pipes]; [by apply walk_keeps_ret|].
  apply every_bind; [by apply runs_lift|]. intros [[pid i] eps]. apply walk_keeps_then; [|exact IH].
  apply (keeps_call s (CPipeAccepted aid pid)); [|done]. apply drift_world; [by apply slight_same|done].
Qed.

Lemma walk_tick task d : I d → keeps (process_tick task d).
Proof.
  intros HI. destruct task as [s tk|pid].
  - assert (Htk : keeps (apply_on_socket s (λ E, Socket_on_timer_tick tk) d)) by (by apply (keeps_call s (CTimerTick tk))).
    destruct tk as [eid sp|eid sp| | | |]; try exact Htk; [by apply (keeps_call s (CReconnect eid sp))|
      by apply (keeps_call s (CRebind eid sp))|by apply (keeps_call s CSendTimeout)|by apply (keeps_call s CRecvTimeout)].
  - cbn. unfold process_probe_task, apply_on_probe. destruct (get_probe_mut pid _); [by apply keeps_probe|by apply walk_keeps_ret].
Qed.

Lemma walk_acceptor eid f a d : I d → keeps (with_acceptor eid d (run_acceptor f) a).
Proof.
  intros HI h d' out. unfold with_acceptor, run_acceptor. rewrite bind_run. destruct (f _ _) as [c o|]; [|done].
  rewrite ret_run, app_nil_r. intros [= <- <-]. split; [apply others_said; by intros [] e [= <-]|].
  apply drift_world; [|done].
  apply (slight_trans _ (foldl (λ w e, acceptor_act (ac_socket_id a) (ac_endpoint_id a) e w) (world d) o)); [|by apply slight_same].
  apply slight_fold. intros w []; [by apply slight_same..|by apply slight_send].
Qed.

(** Commands of pipes are not calls. *)
Lemma walk_signal s d :
  (∀ x eid cmd, s ≠ PipeCmd x eid cmd) → (∀ id eid m, s = PipeEvt id eid (Received m) → fine id (CRecvAck eid m)) →
  I d → keeps (process_signal s d).
Proof.
  intros Hc Hm HI. destruct s as [id eid cmd|id eid evt|id eid cmd|id eid evt|id []|id evt]; cbn [process_signal].
  - by destruct (Hc id eid cmd).
  - destruct evt as [| |r|r| |m|e]; cbn [process_pipe_evt]; [by apply (keeps_call id (CPipeOpened eid))| |
      by apply (keeps_call id (CSendReady eid r))|by apply (keeps_call id (CRecvReady eid r))|by apply (keeps_call id (CSendAck eid))|
      by apply (wk_call _ _ _ _ Hwalk id (CRecvAck eid m)); [apply Hm|]|by apply (keeps_call id (CPipeError eid e))].
    apply walk_keeps_ret, drift_world; [by apply slight_same|done].
  - unfold process_acceptor_cmd. destruct (get_acceptor_mut eid _) as [a|]; [|by apply walk_keeps_ret]. destruct cmd; by apply walk_acceptor.
  - destruct evt as [| |pipes|e]; try (by apply walk_keeps_ret); [by apply walk_accept|by apply (keeps_call id (CAcceptorError eid e))].
  - by apply (keeps_call id CPoll).
  - assert (Hlink : ∀ f d, I d → keeps (apply_on_probe_link id f d)).
    { intros f d1 HI1. unfold apply_on_probe_link. destruct (find_probe_mut id _) as [[]|]; [by apply keeps_probe|by apply walk_keeps_ret]. }
    destruct evt; cbn [process_socket_evt]; [by apply Hlink| |].
    + apply walk_keeps_then; [|by intros; apply Hlink]. unfold apply_on_device_link.
      destruct (find_device_mut id _) as [[]|]; [by apply keeps_device|by apply walk_keeps_ret].
    + apply walk_keeps_ret. eapply (wk_drifts _ _ _ _ Hwalk); [|done]. split; [|by apply slight_same|done]. intros x.
      unfold socket_at, get_socket_mut, SocketCollection_get_socket_mut. cbn. destruct (decide (x = id)) as [->|Hne].
      * right. apply lookup_delete_eq.
      * left. by apply lookup_delete_ne.
Qed.

End preserved.
End walk.
