(* ===== verification/System.v ===== *)
(** * The application and the thread of the reactor

    Threads of the application, one per socket as [&mut self] sees to, that call
    the facade, and the thread of the reactor.  [facade_conversation] composes
    what was shown of each: no call of the facade ever gets an unexpected reply,
    and the reactor never sees two requests at once for a socket. *)

From S2P Require Import Prelude Core Context Protocol Socket Probe Device Session.
From S2P Require Import AsyncPipe Acceptor Adapter Dispatcher Facade Tenants Timers Reactor.

(** ** Calls on a socket *)

Inductive socket_op : Type :=
| OpConnect (u : string)
| OpBind (u : string)
| OpSend (msg : Message)
| OpTrySend (msg : Message)
| OpRecv
| OpTryRecv
| OpSetOption (opt : ConfigOption).

Inductive answer : Type :=
| GotEndpoint (r : result FacadeEndpoint)
| GotUnit (r : result ())
| GotMessage (r : result Message).

Definition run_op {T} (op : socket_op) (self : FacadeSocket) : client T answer :=
  match op with
  | OpConnect u => r ← connect u self; mret (GotEndpoint r)
  | OpBind u => r ← bind u self; mret (GotEndpoint r)
  | OpSend msg => r ← send_msg msg self; mret (GotUnit r)
  | OpTrySend msg => r ← try_send_msg msg self; mret (GotUnit r)
  | OpRecv => r ← recv_msg self; mret (GotMessage r)
  | OpTryRecv => r ← try_recv_msg self; mret (GotMessage r)
  | OpSetOption opt => r ← facade_set_option opt self; mret (GotUnit r)
  end.

Definition request_of (op : socket_op) : Request :=
  match op with
  | OpConnect u => RequestConnect u
  | OpBind u => RequestBind u
  | OpSend msg => RequestSend msg false
  | OpTrySend msg => RequestSend msg true
  | OpRecv => RequestRecv false
  | OpTryRecv => RequestRecv true
  | OpSetOption opt => RequestSetOption opt
  end.

Definition op_demand (op : socket_op) : demand :=
  match op with
  | OpConnect _ => DConnect
  | OpBind _ => DBind
  | OpSend _ | OpTrySend _ => DSend
  | OpRecv | OpTryRecv => DRecv
  | OpSetOption _ => DSetOption
  end.

(** What the reply [r] amounts to, for the caller: nothing is ever unexpected. *)
Definition answer_to (op : socket_op) (self : FacadeSocket) (r : Reply) : option answer :=
  match op, r with
  | (OpConnect _ | OpBind _), ReplyErr e => Some (GotEndpoint (Err e))
  | (OpSend _ | OpTrySend _ | OpSetOption _), ReplyErr e => Some (GotUnit (Err e))
  | (OpRecv | OpTryRecv), ReplyErr e => Some (GotMessage (Err e))
  | OpConnect _, ReplyConnect eid => Some (GotEndpoint (Ok (mkFacadeEndpoint (fs_id self) eid true)))
  | OpBind _, ReplyBind eid => Some (GotEndpoint (Ok (mkFacadeEndpoint (fs_id self) eid false)))
  | (OpSend _ | OpTrySend _), ReplySend | OpSetOption _, ReplySetOption => Some (GotUnit (Ok ()))
  | (OpRecv | OpTryRecv), ReplyRecv m => Some (GotMessage (Ok m))
  | _, _ => None
  end.

(** An operation is a request and a wait. *)
Lemma run_op_request {T} op self :
  ∃ k, run_op (T := T) op self = SendRequest (ForSocket (fs_id self) (request_of op)) k ∧
  ∃ k', k None = AwaitSocket (fs_id self) k' ∧
    ∀ r, serves (op_demand op) r → ∃ a, answer_to op self r = Some a ∧ k' (Some r) = Return a.
Proof.
  destruct op; (eexists; split; [reflexivity|]); (eexists; split; [reflexivity|]);
    intros r Hr; destruct r; try done; eexists; split; reflexivity.
Qed.

Lemma request_of_call op : ∃ c, call_of_request (request_of op) = Some c ∧ demanded c = Some (op_demand op).
Proof. destruct op; eexists; split; reflexivity. Qed.

(** ** The system *)

Section system.
Context `{Build} {Tr Pp Ac Net Tm Hd : Type}.
Context `{PipeTrait Pp} `{AcceptorTrait Pp Ac} `{Transport Tr Pp Ac Net} `{TimerLaws Tm Hd} `{HashOrder}.
Context {T : Type} `{Tenant T}.
Abbreviation Rx := (@Dispatcher Tr Pp Ac Net Tm Hd T).
Implicit Types (d : Rx) (sid : SocketId) (closed : gset SocketId).

(** What a thread does of its socket after its last call: nothing, or its drop. *)
Inductive ending : Type :=
| Keeps
| Drops
| Dropping (prog : client T ())
| Dropped.

(** A thread that makes one call after the other on its socket. [th_heard]: the
    replies it took from the channel of the socket. *)
Record Thread : Type := mkThread {
  th_socket : FacadeSocket;
  th_now : option (socket_op * client T answer);
  th_next : list socket_op;
  th_done : list (socket_op * answer);
  th_heard : list Reply;
  th_end : ending
}.

Definition Thread_new (socket : FacadeSocket) (ops : list socket_op) (drops : bool) : Thread :=
  mkThread socket None ops [] [] (if drops then Drops else Keeps).

(** [emitted]: what left the thread of the reactor. *)
Record System : Type := mkSystem {
  threads : gmap SocketId Thread;
  rx : Rx;
  rx_log : list rx_effect
}.

(** What the channel of a socket has for who took [n] replies: the next one, that it
    is closed when the socket is [gone], nothing yet. *)
Definition channel_next sid (n : nat) (log : list rx_effect) (gone : bool) : option (option Reply) :=
  match replies_to sid log !! n with
  | Some r => Some (Some r)
  | None => if gone then Some None else None
  end.

(** A program of the thread makes a step, or waits: what is left of it, the request
    it leaves and the reply it takes. *)
Definition client_step {A} (c : client T A) (n : nat) (log : list rx_effect) (gone : bool)
    : option (client T A * option (rx_request T) * option Reply) :=
  match c with
  | SendRequest req k => Some (k None, Some req, None)
  | AwaitSocket s k => (λ r, (k r, None, r)) <$> channel_next s n log gone
  | _ => None
  end.

Definition thread_step (th : Thread) (log : list rx_effect) (gone : bool) : Thread * option (rx_request T) :=
  let '(mkThread socket now next past heard fin) := th in
  match now, next, fin with
  | Some (op, Return a), _, _ => (mkThread socket None next (past ++ [(op, a)]) heard fin, None)
  | Some (op, prog), _, _ =>
      match client_step prog (length heard) log gone with
      | Some (prog, req, r) => (mkThread socket (Some (op, prog)) next past (heard ++ option_list r) fin, req)
      | None => (th, None)
      end
  | None, op :: rest, _ => (mkThread socket (Some (op, run_op op socket)) rest past heard fin, None)
  | None, [], Drops => (mkThread socket None [] past heard (Dropping (FacadeSocket_drop socket)), None)
  | None, [], Dropping (Return _) => (mkThread socket None [] past heard Dropped, None)
  | None, [], Dropping prog =>
      match client_step prog (length heard) log gone with
      | Some (prog, req, r) => (mkThread socket None [] past (heard ++ option_list r) (Dropping prog), req)
      | None => (th, None)
      end
  | None, [], _ => (th, None)
  end.

Inductive sys_input : Type :=
| ThreadStep (sid : SocketId)
| ReactorStep (i : rx_input (T := T)).

(** [None] when the thread of the reactor panics. *)
Definition sys_step (i : sys_input) (s : System) : option System :=
  match i with
  | ThreadStep sid =>
      match threads s !! sid with
      | Some th =>
          let '(th, req) := thread_step th (rx_log s) (bool_decide (socket_at sid (rx s) = None)) in
          Some (mkSystem (<[sid := th]> (threads s)) (set_channel (channel (rx s) ++ option_list req) (rx s)) (rx_log s))
      | None => Some s
      end
  | ReactorStep i =>
      match rx_step i (rx s) (rx_log s) with
      | Done d out => Some (mkSystem (threads s) d (rx_log s ++ out))
      | Panicked => None
      end
  end.

Fixpoint sys_run (ins : list sys_input) (s : System) : option System :=
  match ins with
  | [] => Some s
  | i :: rest => s ← sys_step i s; sys_run rest s
  end.

(** What is still supposed of the reactor's steps: that ids do not run out, that
    protocols are called as their guards say, and that the socket of a thread is closed by its drop only.  Nothing is supposed of
    the order of requests. *)
Definition op_assumed (sid : SocketId) (req : Request) d : bool :=
  match socket_at sid d with
  | Some s =>
      let E := context_env sid (world d) in
      match call_of_request req with
      | Some c =>
          match relay c s [] with Some i => tenant_guard i (protocol s) | None => true end &&
          match Socket_step c s [] with Done _ out => room (length out) (world d) | Panicked => true end
      | None => match Socket_close s [] with Done _ out => room (length out) (world d) | Panicked => true end
      end
  | None => true
  end.

Definition request_assumed (owned : gset SocketId) closed (req : rx_request T) d : bool :=
  match req with
  | ForSocket sid r => if bool_decide (sid ∈ owned) then op_assumed sid r d else request_allowed closed req d
  | _ => request_allowed closed req d
  end.

Definition of_another (owned : gset SocketId) (req : rx_request T) : bool :=
  match req with ForSocket sid _ => bool_decide (sid ∉ owned) | _ => true end.

Definition input_assumed (owned : gset SocketId) closed (i : rx_input (T := T)) d : bool :=
  match i with
  | Arrive reqs => forallb (of_another owned) reqs
  | TurnChannel => match channel d with [] => true | req :: rest => request_assumed owned closed req (set_channel rest d) end
  | TurnBus =>
      input_allowed closed TurnBus d &&
      match (bus_recv (signal_tx (world d))).1 with
      | Some (SocketEvt sid Core.Closed) => bool_decide (sid ∉ owned ∨ sid ∈ closed)
      | _ => true
      end
  | _ => input_allowed closed i d
  end.

Definition sys_assumed closed (i : sys_input) (s : System) : bool :=
  match i with ThreadStep _ => true | ReactorStep i => input_assumed (dom (threads s)) closed i (rx s) end.

Definition sys_closing closed (i : sys_input) (s : System) : gset SocketId :=
  match i with ThreadStep _ => closed | ReactorStep i => closing closed i (rx s) end.

(** Along a run, where the sockets [closed] were asked to close. *)
Fixpoint sys_disciplined closed (ins : list sys_input) (s : System) : bool :=
  match ins with
  | [] => true
  | i :: rest =>
      sys_assumed closed i s &&
      match sys_step i s with Some s' => sys_disciplined (sys_closing closed i s) rest s' | None => true end
  end.

Definition sys_fresh (i : sys_input) : Prop := match i with ReactorStep i => fresh_input i | ThreadStep _ => True end.

(** ** What holds of a thread

    At most one demand is under way for its socket: its request is in the channel,
    or the socket waits, or the reply is there. *)
Definition requested (sid : SocketId) (reqs : list (rx_request T)) : list demand := reqs ≫= λ req, demands_of req sid.

Definition in_flight sid (ds : list demand) d (pend : list Reply) : Prop :=
  ∃ replied, ds = replied ++ waiting_of sid d ++ requested sid (channel d) ∧ Forall2 serves replied pend.

Definition answered (self : FacadeSocket) (oa : socket_op * answer) (r : Reply) : Prop :=
  serves (op_demand oa.1) r ∧ answer_to oa.1 self r = Some oa.2.

Inductive stage (self : FacadeSocket) : option (socket_op * client T answer) → list demand → list Reply → Prop :=
| stage_idle : stage self None [] []
| stage_asking op : stage self (Some (op, run_op op self)) [] []
| stage_waiting op k :
    (∀ r, serves (op_demand op) r → ∃ a, answer_to op self r = Some a ∧ k (Some r) = Return a) →
    stage self (Some (op, AwaitSocket (fs_id self) k)) [op_demand op] []
| stage_answered op a r : answered self (op, a) r → stage self (Some (op, Return a)) [] [r].

Lemma stage_awaits self op s k ds last :
  stage self (Some (op, AwaitSocket s k)) ds last → ds = [op_demand op] ∧ last = [].
Proof.
  intros Hst. inversion Hst as [|op' Hop|op' k' Hk|]; subst; [|done].
  destruct (run_op_request (T := T) op self) as (k' & Hrun & _). rewrite Hrun in *. done.
Qed.

Definition ops_of (th : Thread) : list socket_op :=
  (th_done th).*1 ++ option_list (fst <$> th_now th) ++ th_next th.

(** How often the socket is asked to close by what is in the channel. *)
Definition is_close (sid : SocketId) (req : rx_request T) : nat :=
  match req with ForSocket s RequestClose => Nat.b2n (bool_decide (s = sid)) | _ => 0 end.
Definition close_requests (sid : SocketId) (reqs : list (rx_request T)) : nat := sum_list_with (is_close sid) reqs.

(** The thread has left its request to close. *)
Definition asked_close (fin : ending) : bool :=
  match fin with Keeps | Drops | Dropping (SendRequest _ _) => false | Dropping _ | Dropped => true end.

(** A drop comes after the last call; once it is over, the socket is gone. *)
Definition ending_ok sid closed (th : Thread) d : Prop :=
  let gone := sid ∈ closed ∧ socket_at sid d = None in
  match th_end th with
  | Keeps | Drops => True
  | Dropping prog =>
      th_now th = None ∧ th_next th = [] ∧
      (prog = FacadeSocket_drop (th_socket th) ∨ (∃ k, prog = AwaitSocket sid k ∧ ∀ r, k r = Return ()) ∨ prog = Return () ∧ gone)
  | Dropped => th_now th = None ∧ th_next th = [] ∧ gone
  end.

Record thread_ok closed sid (ops : list socket_op) (th : Thread) d (log : list rx_effect) : Prop := {
  to_socket : fs_id (th_socket th) = sid;
  to_there : sid ∉ closed → is_Some (socket_at sid d);
  to_ops : ops_of th = ops;
  to_stage : ∃ ds heard last pend, stage (th_socket th) (th_now th) ds last ∧
    th_heard th = heard ++ last ∧ Forall2 (answered (th_socket th)) (th_done th) heard ∧
    replies_to sid log = th_heard th ++ pend ∧ in_flight sid ds d pend;
  to_asked : (close_requests sid (channel d) + Nat.b2n (bool_decide (sid ∈ closed)) = Nat.b2n (asked_close (th_end th)))%nat;
  to_end : ending_ok sid closed th d
}.

Lemma requested_app sid l1 l2 : requested sid (l1 ++ l2) = requested sid l1 ++ requested sid l2.
Proof. apply bind_app. Qed.

Lemma requested_other sid sid' req : sid' ≠ sid → requested sid [ForSocket sid' req] = [].
Proof. intros Hne. unfold requested, just. cbn. unfold just. by rewrite bool_decide_false by congruence. Qed.

Lemma requested_op sid op : requested sid [ForSocket sid (request_of op)] = [op_demand op].
Proof.
  unfold requested. cbn. unfold just. rewrite bool_decide_true by done. destruct (request_of_call op) as (c & -> & Hc).
  cbn. by rewrite Hc.
Qed.

Lemma requested_not_mine sid owned reqs : sid ∈ owned → forallb (of_another owned) reqs = true → requested sid reqs = [].
Proof.
  intros Hin Hall. induction reqs as [|req reqs IH]; [done|]. cbn in Hall. apply andb_true_iff in Hall as [Hreq Hall].
  change (req :: reqs) with ([req] ++ reqs). rewrite requested_app, (IH Hall), app_nil_r.
  destruct req as [|s r| | |]; try done. apply bool_decide_eq_true in Hreq. apply requested_other. by intros ->.
Qed.

(** The reply that is there serves the only demand under way. *)
Lemma in_flight_reply sid D d pend r :
  in_flight sid [D] d (r :: pend) → serves D r ∧ in_flight sid [] d pend.
Proof.
  intros ([|x replied] & Heq & Hf); [by inversion Hf|]. injection Heq as <- Heq. inversion Hf; subst. split; [done|].
  exists replied. by split.
Qed.

Lemma in_flight_asks sid op d pend :
  in_flight sid [] d pend → in_flight sid [op_demand op] (set_channel (channel d ++ [ForSocket sid (request_of op)]) d) pend.
Proof.
  intros (replied & Heq & Hf). symmetry in Heq. apply app_nil in Heq as [-> Heq]. apply app_nil in Heq as [Hw Hr].
  exists []. split; [|done]. unfold in_flight. cbn [channel set_channel]. rewrite requested_app, Hr, requested_op.
  change (waiting_of sid (set_channel _ d)) with (waiting_of sid d). by rewrite Hw.
Qed.

Lemma close_requests_app sid l1 l2 : close_requests sid (l1 ++ l2) = (close_requests sid l1 + close_requests sid l2)%nat.
Proof. apply sum_list_with_app. Qed.

Lemma close_requests_op sid sid' op : close_requests sid [ForSocket sid' (request_of op)] = 0%nat.
Proof. by destruct op. Qed.

Lemma close_requests_close sid sid' : close_requests sid [ForSocket sid' RequestClose] = Nat.b2n (bool_decide (sid' = sid)).
Proof. cbn. lia. Qed.

Lemma requested_close sid sid' : requested sid [ForSocket sid' RequestClose] = [].
Proof. unfold requested, just. cbn. unfold just. by case_bool_decide. Qed.

(** A request that asks nothing of [sid] is left. *)
Lemma in_flight_more sid ds d pend req :
  requested sid [req] = [] → in_flight sid ds d pend → in_flight sid ds (set_channel (channel d ++ [req]) d) pend.
Proof.
  intros Hreq (replied & Heq & Hf). exists replied. split; [|done]. cbn [channel set_channel]. by rewrite requested_app, Hreq, app_nil_r.
Qed.

(** Nothing is under way: there is no reply to take. *)
Lemma in_flight_nothing sid d pend : in_flight sid [] d pend → pend = [] ∧ waiting_of sid d = [] ∧ requested sid (channel d) = [].
Proof.
  intros (replied & Heq & Hf). symmetry in Heq. apply app_nil in Heq as [-> Heq]. apply app_nil in Heq as [Hw Hr].
  by inversion Hf.
Qed.

(** A call goes on while the socket is there. *)
Lemma busy_open closed sid ops th d log :
  thread_ok closed sid ops th d log → th_now th ≠ None → (sid ∉ closed) ∧ close_requests sid (channel d) = 0%nat ∧ is_Some (socket_at sid d).
Proof.
  intros [_ Hthere _ _ Hasked Hend] Hnow. unfold ending_ok in Hend.
  assert (Hno : asked_close (th_end th) = false) by (destruct (th_end th) as [| |prog|]; try done; by destruct Hend).
  rewrite Hno in Hasked. case_bool_decide as Hin; cbn in Hasked; [lia|]. split; [done|]. split; [lia|auto].
Qed.

(** ** Steps of a thread *)

(** What a step of a thread gives, and the request it leaves, if any. *)
Definition left_ok closed sid (ops : list socket_op) (th : Thread) d (log : list rx_effect) (req : option (rx_request T)) : Prop :=
  match req with
  | None => thread_ok closed sid ops th d log
  | Some req => thread_ok closed sid ops th (set_channel (channel d ++ [req]) d) log ∧
      ((∃ op, req = ForSocket sid (request_of op)) ∨ req = ForSocket sid RequestClose)
  end.

(** Nothing is dropped while a call goes on. *)
Lemma ending_busy sid closed th d th' d' :
  ending_ok sid closed th d → th_now th ≠ None → th_end th' = th_end th → ending_ok sid closed th' d'.
Proof. unfold ending_ok. intros Hend Hnow ->. destruct (th_end th); try done; by destruct Hend. Qed.

(** After its last call. *)
Lemma drop_step_ok closed self ops past hd fin d log th' req :
  let th := mkThread self None [] past hd fin in
  thread_ok closed (fs_id self) ops th d log →
  thread_step th log (bool_decide (socket_at (fs_id self) d = None)) = (th', req) → left_ok closed (fs_id self) ops th' d log req.
Proof.
  intros th [_ Hthere Hops (ds & heard & last & pend & Hst & Hh & Hans & Hlog & Hfl) Hasked Hend] Hstep. subst th.
  cbn [th_socket th_now th_next th_done th_heard th_end ops_of] in *. inversion Hst. subst ds last.
  pose proof (in_flight_nothing _ _ _ Hfl) as (-> & Hw & Hreq). rewrite app_nil_r in Hh, Hlog. subst heard.
  assert (Hidle : ∀ d', in_flight (fs_id self) [] d' [] → ∃ ds heard last pend, stage self None ds last ∧ hd = heard ++ last ∧
    Forall2 (answered self) past heard ∧ replies_to (fs_id self) log = hd ++ pend ∧ in_flight (fs_id self) ds d' pend).
  { intros d' Hfl'. exists [], hd, [], []. rewrite !app_nil_r. by split; [apply stage_idle|]. }
  assert (Hstay : left_ok closed (fs_id self) ops (mkThread self None [] past hd fin) d log None) by (split; auto).
  destruct fin as [| |prog|]; cbn [thread_step] in Hstep; [by injection Hstep as <- <-| | |by injection Hstep as <- <-].
  - injection Hstep as <- <-. split; auto. split; [done|]. split; [done|by left].
  - destruct Hend as (_ & _ & [Hp|[(k & Hp & Hk)|[Hp Hgone]]]); cbn [th_socket] in Hp; subst prog.
    + cbn in Hstep. injection Hstep as <- <-. split; [|by right]. cbn in Hasked.
      split; cbn [th_socket th_now th_next th_done th_heard th_end channel set_channel]; try done.
      * rewrite app_nil_r. by apply Hidle, in_flight_more; [apply requested_close|].
      * rewrite close_requests_app, close_requests_close, bool_decide_true by done. cbn. lia.
      * split; [done|]. split; [done|]. right. left. by eexists.
    + cbn [client_step channel_next] in Hstep. unfold channel_next in Hstep.
      rewrite Hlog, lookup_ge_None_2 in Hstep by done. case_bool_decide as Hgone; injection Hstep as <- <-; [|exact Hstay].
      cbn [option_list]. rewrite app_nil_r. split; auto.
      * by rewrite Hk.
      * split; [done|]. split; [done|]. right. right. split; [apply Hk|]. split; [|done].
        destruct (decide (fs_id self ∈ closed)) as [|Hn]; [done|]. destruct (Hthere Hn). congruence.
    + injection Hstep as <- <-. split; auto. by repeat split; apply Hgone.
Qed.

Lemma thread_step_ok closed sid ops th d log th' req :
  thread_ok closed sid ops th d log → thread_step th log (bool_decide (socket_at sid d = None)) = (th', req) →
  left_ok closed sid ops th' d log req.
Proof.
  intros Hok Hstep. pose proof (busy_open _ _ _ _ _ _ Hok) as Hbusy.
  destruct th as [self now next past hd fin]. pose proof Hok as Hok'.
  destruct Hok as [Hsock Hthere Hops (ds & heard & last & pend & Hst & Hh & Hans & Hlog & Hfl) Hasked Hend].
  cbn [th_socket th_now th_next th_done th_heard th_end ops_of] in *. subst sid.
  unfold ops_of in Hops. cbn in Hops. destruct Hst as [|op|op k Hk|op a r Ha].
  - destruct next as [|op rest].
    + by eapply drop_step_ok.
    + injection Hstep as <- <-. split; try done; [|destruct fin; try done; by destruct Hend as (_ & ? & _)].
      exists [], heard, [], pend. by repeat (split; [constructor || done|]).
  - destruct (run_op_request (T := T) op self) as (k & Hrun & k' & Hk & Hk'). rewrite Hrun in Hstep.
    cbn in Hstep. injection Hstep as <- <-. destruct Hbusy as (Hin & Hnone & Hsome); [done|].
    split; [|left; by exists op]. split; cbn [th_socket th_now th_next th_done th_heard th_end option_list]; rewrite ?app_nil_r; try done.
    + exists [op_demand op], heard, [], pend. rewrite Hk.
      split; [by constructor|]. split; [done|]. split; [done|]. split; [done|]. by apply in_flight_asks.
    + cbn [channel set_channel]. by rewrite close_requests_app, close_requests_op, Nat.add_0_r.
    + by eapply ending_busy.
  - destruct Hbusy as (Hin & Hnone & Hsome); [done|].
    rewrite bool_decide_false in Hstep by (by intros Hx; rewrite Hx in Hsome; destruct Hsome).
    cbn [thread_step client_step] in Hstep. unfold channel_next in Hstep. rewrite Hlog, lookup_app_r, Nat.sub_diag in Hstep by done.
    destruct pend as [|r pend]; cbn in Hstep; injection Hstep as <- <-.
    + split; try done. exists [op_demand op], heard, [], []. by repeat (split; [by constructor || done|]).
    + apply in_flight_reply in Hfl as [Hr Hfl]. destruct (Hk r Hr) as (a & Ha & Hret).
      split; cbn [th_socket th_now th_next th_done th_heard th_end option_list]; try done; [|by eapply ending_busy].
      exists [], heard, [r], pend. rewrite Hret. split; [by constructor|].
      split; [by rewrite Hh, app_nil_r|]. split; [done|]. by split; [rewrite <- app_assoc|].
  - injection Hstep as <- <-. split; try done; [| |by eapply ending_busy].
    + unfold ops_of. cbn. rewrite fmap_app. cbn. by rewrite <- app_assoc.
    + exists [], (heard ++ [r]), [], pend. split; [constructor|]. split; [by rewrite app_nil_r|].
      by split; [apply Forall2_app; [done|by constructor]|].
Qed.

(** The step of a thread is nothing to the others. *)
Lemma thread_ok_other closed sid sid' ops th d log req :
  sid' ≠ sid → (∃ op, req = ForSocket sid' (request_of op)) ∨ req = ForSocket sid' RequestClose →
  thread_ok closed sid ops th d log → thread_ok closed sid ops th (set_channel (channel d ++ [req]) d) log.
Proof.
  intros Hne Hreq [Hsock Hthere Hops (ds & heard & last & pend & Hst & Hh & Hans & Hlog & Hfl) Hasked Hend].
  split; try done.
  - exists ds, heard, last, pend. split; [done|]. split; [done|]. split; [done|]. split; [done|].
    apply in_flight_more; [|done]. by destruct Hreq as [[op ->]| ->]; apply requested_other.
  - cbn [channel set_channel]. rewrite close_requests_app.
    assert (Hno : close_requests sid [req] = 0%nat).
    { destruct Hreq as [[op ->]| ->]; [apply close_requests_op|]. rewrite close_requests_close. by rewrite bool_decide_false. }
    rewrite Hno. lia.
Qed.

(** ** Steps of the reactor *)

(** A request of the facade for a socket that a thread owns comes when nothing waits
    on it, before it is closed. *)
Lemma one_at_a_time closed sid ops th d log r c rest :
  thread_ok closed sid ops th d log → channel d = ForSocket sid r :: rest → call_of_request r = Some c →
  waiting_of sid d = [] ∧ (sid ∉ closed) ∧ is_Some (socket_at sid d).
Proof.
  intros Hok Hch Hc. pose proof (busy_open _ _ _ _ _ _ Hok) as Hbusy.
  destruct Hok as [_ _ _ (ds & heard & last & pend & Hst & _ & _ & _ & replied & Heq & _) _ _].
  assert (Hone : (length ds <= 1)%nat) by (destruct Hst; cbn; lia).
  assert (Hdem : ∃ D, demanded c = Some D) by (destruct r as [u|u|m []|[]|o|]; simplify_eq/=; by eexists).
  destruct Hdem as [D Hdem].
  assert (Hreq : requested sid (channel d) = D :: requested sid rest).
  { rewrite Hch. unfold requested. cbn. unfold just. rewrite bool_decide_true, Hc by done. cbn. by rewrite Hdem. }
  rewrite Hreq in Heq. split.
  - rewrite Heq, !length_app in Hone. cbn [length] in Hone. destruct (waiting_of sid d); [done|cbn in Hone; lia].
  - destruct Hbusy as (Hin & _ & Hsome); [|done]. intros Hnone. rewrite Hnone in Hst.
    assert (Hds : ds = []) by (by inversion Hst). rewrite Hds in Heq. by destruct replied, (waiting_of sid d).
Qed.

(** So does its request to close. *)
Lemma closes_last closed sid ops th d log rest :
  thread_ok closed sid ops th d log → channel d = ForSocket sid RequestClose :: rest → waiting_of sid d = [] ∧ (sid ∉ closed).
Proof.
  intros [_ _ _ (ds & heard & last & pend & Hst & _ & _ & _ & Hfl) Hasked Hend] Hch.
  assert (Hone : (1 <= close_requests sid (channel d))%nat).
  { rewrite Hch. change (ForSocket sid RequestClose :: rest) with ([ForSocket sid RequestClose] ++ rest).
    rewrite close_requests_app, close_requests_close, bool_decide_true by done. cbn. lia. }
  case_bool_decide as Hin; [destruct (asked_close (th_end th)); cbn in Hasked; lia|]. split; [|done].
  assert (Hnow : th_now th = None).
  { unfold ending_ok in Hend. destruct (th_end th) as [| |prog|]; [cbn in Hasked; lia..| |]; by destruct Hend. }
  rewrite Hnow in Hst. inversion Hst; subst ds. by apply in_flight_nothing in Hfl as (_ & Hw & _).
Qed.

Lemma assumed_allowed owned closed i d log (ths : gmap SocketId Thread) (ops : SocketId → list socket_op) :
  owned = dom ths → (∀ sid th, ths !! sid = Some th → thread_ok closed sid (ops sid) th d log) →
  input_assumed owned closed i d = true → input_allowed closed i d = true.
Proof.
  intros Hown Hths Hall. destruct i as [reqs| | |now|eid events]; cbn [input_assumed] in Hall; try done.
  2: by apply andb_true_iff in Hall as [Hall _].
  cbn [input_allowed]. destruct (channel d) as [|req rest] eqn:Hch; [done|].
  destruct req as [|sid r| | |]; try done. cbn [request_assumed] in Hall. case_bool_decide as Hin; [|done].
  rewrite Hown in Hin. apply elem_of_dom in Hin as [th Hth]. pose proof (Hths _ _ Hth) as Hok.
  unfold op_assumed in Hall. cbn [request_allowed]. change (socket_at sid (set_channel rest d)) with (socket_at sid d) in *.
  destruct (call_of_request r) as [c|] eqn:Hc.
  - destruct (one_at_a_time _ _ _ _ _ _ _ _ _ Hok Hch Hc) as (Hw & Hopen & s & Hs). rewrite Hs in *.
    unfold call_allowed. change (socket_at sid (set_channel rest d)) with (socket_at sid d). rewrite Hs. cbv zeta in *.
    apply andb_true_iff in Hall as [Hg Hroom]. rewrite bool_decide_true, (bool_decide_false (sid ∈ closed)) by done. cbn [andb]. apply andb_true_iff. split; [|exact Hroom].
    unfold call_guarded, waiting_of in *. rewrite Hs in Hw.
    destruct (tenant_pending (protocol s)); [done|]. apply andb_true_iff. split; [by destruct (demanded c)|exact Hg].
  - assert (Hr : r = RequestClose) by (by destruct r as [| |? []|[]| |]). subst r.
    destruct (closes_last _ _ _ _ _ _ _ Hok Hch) as [Hw Hopen]. unfold close_allowed.
    change (socket_at sid (set_channel rest d)) with (socket_at sid d). destruct (socket_at sid d) as [s|]; [|done].
    change (waiting_of sid (set_channel rest d)) with (waiting_of sid d). cbv zeta in *.
    by rewrite !bool_decide_true.
Qed.

Lemma rx_step_channel i d (h : list rx_effect) d' out :
  rx_step i d h = Done d' out →
  channel d' = match i with Arrive reqs => channel d ++ reqs | TurnChannel => tail (channel d) | _ => channel d end.
Proof.
  set (c := match i with Arrive reqs => _ | TurnChannel => _ | _ => _ end). intros Hrun.
  assert (Hkeep : runs (λ _ : rx_effect, True) (λ d, channel d = c) (rx_step i d)).
  { apply holds_step; [done..| |by intros; destruct i]. destruct i; try done. unfold c. by destruct (channel d). }
  by destruct (Hkeep _ _ _ Hrun).
Qed.

Lemma rx_step_stays owned closed i d (h : list rx_effect) d' out sid :
  rx_step i d h = Done d' out → input_assumed owned closed i d = true → sid ∈ owned → sid ∉ closed →
  is_Some (socket_at sid d) → is_Some (socket_at sid d').
Proof.
  intros Hrun Hall Hin Hopen Hthere.
  assert (Hkeep : runs (λ _ : rx_effect, True) (λ d, is_Some (socket_at sid d)) (rx_step i d)).
  { apply holds_step; [done|done|by intros s x Hstay; apply Hstay| |].
    - destruct i; try done. by destruct (channel d).
    - intros x bus -> Hbus. cbn [input_assumed] in Hall. rewrite Hbus in Hall. apply andb_true_iff in Hall as [_ Hx].
      apply bool_decide_eq_true in Hx. unfold socket_at, get_socket_mut, SocketCollection_get_socket_mut.
      cbn. rewrite lookup_delete_ne; [done|]. intros ->. by destruct Hx. }
  by destruct (Hkeep _ _ _ Hrun).
Qed.

(** What is under way for a socket goes on. *)
Lemma in_flight_step owned closed closed' i d (h : list rx_effect) d' out sid ds pend :
  rx_step i d h = Done d' out → input_assumed owned closed i d = true → sid ∈ owned → settled closed' (asked i d) d out d' →
  in_flight sid ds d pend → in_flight sid ds d' (pend ++ replies_to sid out).
Proof.
  intros Hrun Hall Hin Hs (replied & -> & Hf). destruct (Hs sid) as (served & Heq & Hserved & _).
  assert (Hreq : requested sid (channel d) = asked i d sid ++ requested sid (channel d')).
  { rewrite (rx_step_channel _ _ _ _ _ Hrun). unfold asked. destruct i as [reqs| | | |]; try done.
    - cbn [input_assumed] in Hall. by rewrite requested_app, (requested_not_mine sid owned reqs), app_nil_r.
    - by destruct (channel d) as [|req rest]. }
  exists (replied ++ served). split; [|by apply Forall2_app]. by rewrite Hreq, (app_assoc (waiting_of sid d)), Heq, !app_assoc.
Qed.

Lemma close_not_mine sid owned reqs : sid ∈ owned → forallb (of_another owned) reqs = true → close_requests sid reqs = 0%nat.
Proof.
  intros Hin Hall. induction reqs as [|req reqs IH]; [done|]. cbn in Hall. apply andb_true_iff in Hall as [Hreq Hall].
  change (req :: reqs) with ([req] ++ reqs). rewrite close_requests_app, (IH Hall), Nat.add_0_r.
  destruct req as [|s []| | |]; try done. rewrite close_requests_close. apply bool_decide_eq_true in Hreq.
  by rewrite bool_decide_false by (by intros ->).
Qed.

(** The request of a thread to close goes from the channel to the sockets closed. *)
Lemma close_requests_step owned closed i d (h : list rx_effect) d' out sid :
  rx_step i d h = Done d' out → input_assumed owned closed i d = true → sid ∈ owned →
  (sid ∉ closed → is_Some (socket_at sid d)) → (close_requests sid (channel d) + Nat.b2n (bool_decide (sid ∈ closed)) <= 1)%nat →
  (close_requests sid (channel d') + Nat.b2n (bool_decide (sid ∈ closing closed i d)) =
   close_requests sid (channel d) + Nat.b2n (bool_decide (sid ∈ closed)))%nat.
Proof.
  intros Hrun Hall Hin Hthere Hle. rewrite (rx_step_channel _ _ _ _ _ Hrun). unfold closing.
  destruct i as [reqs| | | |]; try done.
  - rewrite close_requests_app. cbn [input_assumed] in Hall.
    by rewrite (close_not_mine sid owned reqs), Nat.add_0_r.
  - destruct (channel d) as [|req rest]; [done|]. cbn [tail]. change (req :: rest) with ([req] ++ rest) in *.
    rewrite close_requests_app in *. unfold closed_by.
    destruct req as [|s []| | |]; try done. rewrite close_requests_close in *.
    destruct (decide (s = sid)) as [->|Hne].
    + rewrite (bool_decide_true (sid = sid)) in * by done. case_bool_decide as Hc; cbn in Hle; [lia|].
      destruct (Hthere Hc) as [x ->]. rewrite bool_decide_true by (by apply elem_of_union_l, elem_of_singleton). cbn. lia.
    + rewrite (bool_decide_false (s = sid)) in * by done. cbn. f_equal. f_equal. apply bool_decide_ext.
      destruct (socket_at s d); [|done]. rewrite elem_of_union, elem_of_singleton. naive_solver.
Qed.

Lemma thread_ok_step owned closed i sid ops th d log d' out :
  rx_step i d log = Done d' out → input_assumed owned closed i d = true → sid ∈ owned →
  settled (closing closed i d) (asked i d) d out d' →
  thread_ok closed sid ops th d log → thread_ok (closing closed i d) sid ops th d' (log ++ out).
Proof.
  intros Hrun Hall Hin Hs [Hsock Hthere Hops (ds & heard & last & pend & Hst & Hh & Hans & Hlog & Hfl) Hasked Hend].
  pose proof (closing_more closed i d) as Hmore. split; try done.
  - intros Hn. eapply rx_step_stays; [done|done|done| |]; [|apply Hthere]; intros Hc; by apply Hn, Hmore.
  - exists ds, heard, last, (pend ++ replies_to sid out).
    split; [done|]. split; [done|]. split; [done|]. split; [by rewrite replies_to_app, Hlog, app_assoc|].
    by eapply in_flight_step.
  - rewrite <- Hasked. eapply close_requests_step; [done..|]. rewrite Hasked. destruct (asked_close _); cbn; lia.
  - destruct (Hs sid) as (_ & _ & _ & Hgone).
    assert (Hstill : sid ∈ closed ∧ socket_at sid d = None → sid ∈ closing closed i d ∧ socket_at sid d' = None).
    { intros [Hc Hx]. split; [by apply Hmore|]. apply Hgone; [by apply Hmore|done]. }
    unfold ending_ok in *. destruct (th_end th) as [| |prog|]; [done..| |].
    + destruct Hend as (? & ? & [?|[?|[? ?]]]); repeat (split; [done|]); [by left|by right; left|right; right; auto].
    + destruct Hend as (? & ? & ?). auto.
Qed.

(** ** Runs *)

Definition sys_ok closed (ths : gmap SocketId Thread) (s : System) : Prop :=
  rx_ok closed (rx s) ∧ dom (threads s) = dom ths ∧
  ∀ sid th, threads s !! sid = Some th → thread_ok closed sid (default [] (ops_of <$> ths !! sid)) th (rx s) (rx_log s).

(** The step of a thread, in the system. *)
Lemma sys_thread_ok closed ths s sid th th' req :
  sys_ok closed ths s → threads s !! sid = Some th →
  thread_step th (rx_log s) (bool_decide (socket_at sid (rx s) = None)) = (th', req) →
  sys_ok closed ths (mkSystem (<[sid := th']> (threads s)) (set_channel (channel (rx s) ++ option_list req) (rx s)) (rx_log s)).
Proof.
  intros (Hrx & Hdom & Hths) Hth Hstep. pose proof (thread_step_ok _ _ _ _ _ _ _ _ (Hths _ _ Hth) Hstep) as Hleft.
  assert (Hthere : dom (<[sid := th']> (threads s)) = dom ths).
  { rewrite dom_insert_L, <- Hdom. apply elem_of_dom_2 in Hth. apply subseteq_union_1_L, singleton_subseteq_l, Hth. }
  assert (Hnone : set_channel (channel (rx s) ++ []) (rx s) = rx s) by (rewrite app_nil_r; by destruct (rx s)).
  destruct req as [req|]; cbn [left_ok] in *.
  - destruct Hleft as [Hok Hreq]. split; [|split; [exact Hthere|]]; cbn [rx threads rx_log].
    + apply rx_ok_channel; [done|]. apply Forall_app. split; [by eapply rx_ok_fresh|].
      destruct Hreq as [[op ->]| ->]; by repeat constructor.
    + intros x y. destruct (decide (x = sid)) as [->|Hne]; [rewrite lookup_insert_eq; by intros [= <-]|].
      rewrite lookup_insert_ne by done. intros Hx. by apply (thread_ok_other _ _ sid); [done| |apply Hths].
  - change (option_list None) with (@nil (rx_request T)). rewrite Hnone.
    split; [done|]. split; [exact Hthere|]. cbn [rx threads rx_log]. intros x y.
    destruct (decide (x = sid)) as [->|Hne]; [rewrite lookup_insert_eq; by intros [= <-]|].
    rewrite lookup_insert_ne by done. apply Hths.
Qed.

Lemma sys_step_ok closed ths i s :
  sys_ok closed ths s → sys_fresh i → sys_assumed closed i s = true →
  ∃ s', sys_step i s = Some s' ∧ sys_ok (sys_closing closed i s) ths s'.
Proof.
  intros Hok Hfresh Hall. destruct i as [sid|i]; cbn [sys_step sys_assumed sys_fresh sys_closing] in *.
  - destruct (threads s !! sid) as [th|] eqn:Hth; [|by exists s].
    destruct (thread_step _ _ _) as [th' req] eqn:Hstep. eexists. split; [done|]. by eapply sys_thread_ok.
  - destruct Hok as (Hrx & Hdom & Hths).
    pose proof (assumed_allowed _ closed i (rx s) (rx_log s) (threads s) _ eq_refl Hths Hall) as Hallowed.
    destruct (rx_step_goes closed i (rx s) Hrx Hfresh Hallowed (rx_log s)) as (d' & out & Hrun & Hok' & Hs).
    rewrite Hrun. eexists. split; [done|]. split; [done|]. split; [done|]. cbn [rx threads rx_log]. intros sid th Hth.
    eapply thread_ok_step; [done|done| |done|by apply Hths]. by apply elem_of_dom_2 in Hth.
Qed.

(** The sockets asked to close in a run. *)
Fixpoint sys_closed closed (ins : list sys_input) (s : System) : gset SocketId :=
  match ins with
  | [] => closed
  | i :: rest => match sys_step i s with Some s' => sys_closed (sys_closing closed i s) rest s' | None => closed end
  end.

Lemma sys_run_ok closed ths ins s :
  sys_ok closed ths s → Forall sys_fresh ins → sys_disciplined closed ins s = true →
  ∃ s', sys_run ins s = Some s' ∧ sys_ok (sys_closed closed ins s) ths s'.
Proof.
  revert closed s. induction ins as [|i ins IH]; intros closed s Hok Hfresh Hall;
    cbn [sys_run sys_disciplined sys_closed] in *; [by exists s|].
  apply Forall_cons in Hfresh as [Hf Hfresh]. apply andb_true_iff in Hall as [Hi Hall].
  destruct (sys_step_ok closed ths i s Hok Hf Hi) as (s1 & Hrun & Hok1). rewrite Hrun in *. cbn. by apply IH.
Qed.

(** The threads find their sockets made and open, with nothing under way. *)
Definition ready_to_run closed (ths : gmap SocketId Thread) d : Prop :=
  channel d = [] ∧
  ∀ sid th, ths !! sid = Some th →
    (∃ drops, th = Thread_new (mkFacadeSocket sid) (th_next th) drops) ∧ (sid ∉ closed) ∧ is_Some (socket_at sid d) ∧ waiting_of sid d = [].

Lemma sys_start_ok closed ths d : rx_ok closed d → ready_to_run closed ths d → sys_ok closed ths (mkSystem ths d []).
Proof.
  intros Hok [Hch Hready]. split; [done|]. split; [done|]. cbn [threads rx rx_log]. intros sid th Hth.
  destruct (Hready _ _ Hth) as ([drops Heq] & Hopen & Hthere & Hw). rewrite Hth. cbn. split; [by rewrite Heq|done|done| | |].
  - exists [], [], [], []. rewrite Heq. split; [constructor|]. split; [done|]. split; [constructor|]. split; [done|].
    exists []. split; [|done]. by rewrite Hch, Hw.
  - rewrite Hch, bool_decide_false by done. rewrite Heq. by destruct drops.
  - rewrite Heq. by destruct drops.
Qed.

(** A run of the system, from a reactor that ran alone. *)
Lemma system_runs (trs : gmap string Tr) (clock : Tm) (net : Net) setup d out (ths : gmap SocketId Thread) ins :
  let closed := closed_along ∅ setup (Dispatcher_new trs clock net) [] in
  armed_tasks clock = ∅ → Forall fresh_input setup → rx_disciplined ∅ setup (Dispatcher_new trs clock net) [] = true →
  rx_run setup (Dispatcher_new trs clock net) [] = Done d out → ready_to_run closed ths d →
  Forall sys_fresh ins → sys_disciplined closed ins (mkSystem ths d []) = true →
  ∃ s, sys_run ins (mkSystem ths d []) = Some s ∧ sys_ok (sys_closed closed ins (mkSystem ths d [])) ths s.
Proof.
  intros closed Hempty Hfr Hdis Hsetup Hready Hfresh Hall.
  destruct (rx_run_goes ∅ setup _ [] (Dispatcher_new_ok trs clock net Hempty) Hfr Hdis) as (d' & out' & Hrun & Hok & _).
  rewrite Hsetup in Hrun. injection Hrun as <- <-.
  by apply sys_run_ok; [apply sys_start_ok|..].
Qed.

(** C1: The facade and the reactor. Threads of the application, each calling the
    facade on its own socket and dropping it in the end if it likes, and the thread
    of the reactor, however their steps and those of the network interleave, in
    every disciplined run (as in [reactor_conversation]: no pipe or acceptor panics,
    ids do not run out, and the guards of the protocols hold, which exclude the
    hazard of [remove] and the messages from the network that are too short): the
    reactor does not panic; every call that returned got, in the order of the
    calls, the next reply of its socket, which is one for that call, so no reply is
    ever unexpected; a call that has not returned is not forgotten: its reply is
    there, or its socket waits for it, or its request is in the channel; and a drop
    comes after the last call and returns only once its socket is gone. *)
Theorem facade_conversation (trs : gmap string Tr) (clock : Tm) (net : Net) setup d out (ths : gmap SocketId Thread) ins :
  let closed := closed_along ∅ setup (Dispatcher_new trs clock net) [] in
  armed_tasks clock = ∅ → Forall fresh_input setup → rx_disciplined ∅ setup (Dispatcher_new trs clock net) [] = true →
  rx_run setup (Dispatcher_new trs clock net) [] = Done d out → ready_to_run closed ths d →
  Forall sys_fresh ins → sys_disciplined closed ins (mkSystem ths d []) = true →
  ∃ s, sys_run ins (mkSystem ths d []) = Some s ∧
    ∀ sid th, threads s !! sid = Some th →
      (∃ th0, ths !! sid = Some th0 ∧ ops_of th = th_next th0) ∧
      (∃ heard rest, replies_to sid (rx_log s) = heard ++ rest ∧ Forall2 (answered (mkFacadeSocket sid)) (th_done th) heard) ∧
      (∀ op k, th_now th = Some (op, AwaitSocket sid k) →
        (∃ r, replies_to sid (rx_log s) !! length (th_heard th) = Some r ∧ serves (op_demand op) r) ∨
        waiting_of sid (rx s) = [op_demand op] ∨ requested sid (channel (rx s)) = [op_demand op]) ∧
      (th_end th = Dropped → th_now th = None ∧ th_next th = [] ∧ socket_at sid (rx s) = None ∧
        replies_to sid (rx_log s) = th_heard th).
Proof.
  intros closed Hempty Hfr Hdis Hsetup Hready Hfresh Hall.
  destruct (system_runs _ _ _ _ _ _ _ _ Hempty Hfr Hdis Hsetup Hready Hfresh Hall) as (s & Hrun & _ & Hdom & Hths).
  exists s. split; [exact Hrun|]. intros sid th Hth.
  destruct (Hths _ _ Hth) as [Hsock _ Hops (ds & heard & last & pend & Hst & Hh & Hans & Hlog & Hfl) _ Hend].
  apply elem_of_dom_2 in Hth. rewrite Hdom in Hth. apply elem_of_dom in Hth as [th0 Hth0]. rewrite Hth0 in Hops.
  destruct (proj2 Hready _ _ Hth0) as ([drops Hnew] & _). split; [|split; [|split]].
  - exists th0. split; [done|]. cbn in Hops. rewrite Hops, Hnew. done.
  - exists heard, (last ++ pend). rewrite Hlog, Hh, <- app_assoc. split; [done|].
    assert (Hself : th_socket th = mkFacadeSocket sid) by (destruct (th_socket th); cbn in Hsock; by subst). by rewrite Hself in Hans.
  - intros op k Hnow. destruct Hfl as (replied & Heq & Hf). rewrite Hnow in Hst. apply stage_awaits in Hst as [-> ->].
    destruct replied as [|D replied]; cbn [app] in Heq.
    + right. destruct (waiting_of _ (rx s)) as [|D w]; cbn [app] in Heq; [by right|]. left.
      injection Heq as <- Hnil. symmetry in Hnil. by apply app_nil in Hnil as [-> _].
    + left. injection Heq as <- _. inversion Hf; subst. eexists. split; [|done]. rewrite Hlog. by rewrite lookup_app_r, Nat.sub_diag.
  - intros Hdropped. unfold ending_ok in Hend. rewrite Hdropped in Hend. destruct Hend as (Hnow & Hnext & _ & Hgone).
    split; [done|]. split; [done|]. split; [done|]. rewrite Hnow in Hst. assert (Hds : ds = []) by (by inversion Hst).
    subst ds. apply in_flight_nothing in Hfl as [-> _]. by rewrite Hlog, app_nil_r.
Qed.

End system.

(** ** An example: two threads, one that receives and drops its socket, and one whose
    send is refused *)

#[local] Existing Instances ex_pipes ex_acceptors ex_transport ex_build ex_order.

Definition ex_setup : list (rx_input (T := Push.Push + Pull.Pull)) :=
  [ Arrive [ForSession (CreateSocket (inr Pull.Pull_from)); ForSession (CreateSocket (inl Push.Push_from))];
    TurnChannel; TurnChannel ].
Definition ex_ready : @Dispatcher () (list Message) () () ListTimer N (Push.Push + Pull.Pull) :=
  match rx_run ex_setup ex_start [] with Done d _ => d | Panicked => ex_start end.

Definition ex_threads : gmap SocketId (Thread (T := Push.Push + Pull.Pull)) :=
  <[SocketId_from 0 := Thread_new (mkFacadeSocket (SocketId_from 0)) [OpSetOption (RecvTimeout (Some 100)); OpConnect "ex://there"; OpRecv; OpRecv] true]>
  {[SocketId_from 1 := Thread_new (mkFacadeSocket (SocketId_from 1)) [OpTrySend (from_body [1])] false]}.

Definition ex_inputs : list (sys_input (T := Push.Push + Pull.Pull)) :=
  let a := ThreadStep (SocketId_from 0) in
  let b := ThreadStep (SocketId_from 1) in
  let io := ReactorStep TurnBus in
  let rq := ReactorStep TurnChannel in
  [a; a; b; b; rq; a; a; b; a; a; rq; a; rq; b; b; io; io; a; a; a; a; a; rq; io; io; io; io; io; a; a; a; a; rq;
   ReactorStep (TurnTimer 50); a; ReactorStep (TurnTimer 500); a; a;
   a; a; a; rq; a; io; io; io; a; a].

Lemma ex_setup_fresh : Forall fresh_input ex_setup.
Proof. unfold ex_setup. repeat constructor; [exact Pull.Pull_from_inv|exact Push.Push_from_inv]. Qed.

Lemma ex_threads_ready : ready_to_run (closed_along ∅ ex_setup ex_start []) ex_threads ex_ready.
Proof.
  split; [vm_compute; reflexivity|]. intros sid th Hth. unfold ex_threads in Hth.
  apply lookup_insert_Some in Hth as [[<- <-]|[_ Hth]]; [|apply lookup_singleton_Some in Hth as [<- <-]];
    (split; [eexists; reflexivity|]); (split; [vm_compute; by intros ?|]); (split; [vm_compute; by eexists|vm_compute; reflexivity]).
Qed.

Lemma facade_conversation_witness :
  ∃ s th, sys_run ex_inputs (mkSystem ex_threads ex_ready []) = Some s ∧ threads s !! SocketId_from 0 = Some th ∧
    th_done th = [(OpSetOption (RecvTimeout (Some 100)), GotUnit (Ok ()));
                  (OpConnect "ex://there", GotEndpoint (Ok (mkFacadeEndpoint (SocketId_from 0) (EndpointId_from 2) true)));
                  (OpRecv, GotMessage (Ok (from_body [42])));
                  (OpRecv, GotMessage (Err (timedout_io_error "Recv timed out")))] ∧
    th_end th = Dropped ∧ socket_at (SocketId_from 0) (rx s) = None ∧
    ∃ heard rest, replies_to (SocketId_from 0) (rx_log s) = heard ++ rest ∧
      Forall2 (answered (mkFacadeSocket (SocketId_from 0))) (th_done th) heard.
Proof.
  destruct (facade_conversation {[ "ex" := () ]} (mkListTimer 0 ∅ ∅) () ex_setup ex_ready
    (match rx_run ex_setup ex_start [] with Done _ o => o | Panicked => [] end) ex_threads ex_inputs) as (s & Hrun & Hths).
  - reflexivity.
  - exact ex_setup_fresh.
  - vm_compute. reflexivity.
  - vm_compute. reflexivity.
  - exact ex_threads_ready.
  - repeat constructor.
  - vm_compute. reflexivity.
  - assert (Hth : (λ t : Thread, (th_done t, th_end t)) <$> (threads s !! SocketId_from 0) = (λ t : Thread, (th_done t, th_end t)) <$>
      (match sys_run ex_inputs (mkSystem ex_threads ex_ready []) with Some s => threads s !! SocketId_from 0 | None => None end))
      by (by rewrite Hrun).
    destruct (threads s !! SocketId_from 0) as [th|] eqn:Hs; [|vm_compute in Hth; discriminate].
    exists s, th. split; [exact Hrun|]. split; [exact Hs|]. destruct (Hths _ _ Hs) as (_ & Hans & _ & Hdrop).
    vm_compute in Hth. injection Hth as Hdone Hend. split; [exact Hdone|]. split; [exact Hend|].
    split; [apply (Hdrop Hend)|exact Hans].
Defined.
