(* ===== verification/Integrity.v ===== *)
(** * What the application gets

    [Delivery], up to the application: what its calls of recv return is drawn, in
    order and each once, from what the pipes of the socket read, whatever the
    protocol and whatever else goes on in the reactor. *)

From S2P Require Import Prelude Core Context Protocol Socket Probe Device Session.
From S2P Require Import AsyncPipe Acceptor Adapter Dispatcher Facade Delivery Tenants Timers Reactor Walk System.

(** ** A socket *)

Section socket.
Context {T : Type} `{Tenant T} {E : Env}.

(** Only the end of a reception delivers. *)
Lemma hands_nothing {A} (m : P A) : hands [] m → every quiet m.
Proof.
  intros Hm h a out Hrun. split; [|done]. destruct (Hm _ _ _ Hrun) as (src & Hsub & Hf). apply sublist_nil_r in Hsub.
  subst src. apply Forall2_nil_inv_l in Hf. clear -Hf. revert Hf. induction out as [|e out IH]; [constructor|].
  intros Hd. destruct e as [| | | | | | | | | | |[]]; by (constructor; [|apply IH]).
Qed.

Definition quietly (i : input) : Prop := ∀ s : T, every quiet (step i s).
Lemma tenant_quiet i : brought i = [] → quietly i.
Proof. intros Hi s. apply hands_nothing. rewrite <- Hi. apply tenant_hands. Qed.

Lemma quiet_close (s : T) : every quiet (close s).
Proof. apply (runs_mono is_closing quiet (λ _, True) (λ _, True)); [apply tenant_closes|by intros []|done]. Qed.

#[local] Hint Resolve quiet_close : handler.
#[local] Hint Extern 1 => as_step; by apply tenant_quiet : handler.

Definition is_recv_ack (c : call) : bool := match c with CRecvAck _ _ => true | _ => false end.

Lemma socket_quiet c self : is_recv_ack c = false → every quiet (Socket_step c self).
Proof.
  destruct c; intros Hc; try done; simpl Socket_step; tread.
  apply (runs_emit quiet (SendReply _)); by destruct r.
Qed.

Lemma socket_close_quiet self : every quiet (Socket_close self).
Proof.
  unfold Socket_close. tread; apply every_for_each; intros ? _; tread.
Qed.

Lemma socket_hands eid msg self : hands [msg] (Socket_on_recv_ack eid msg self).
Proof. apply hands_first; [apply (tenant_hands (IRecvAck eid msg))|]. intros s. tread. Qed.

End socket.

(** ** The reactor *)

Section reactor.
Context `{Build} {Tr Pp Ac Net Tm Hd : Type}.
Context `{PipeTrait Pp} `{AcceptorTrait Pp Ac} `{Transport Tr Pp Ac Net} `{TimerLaws Tm Hd} `{HashOrder}.
Context {T : Type} `{Tenant T}.
Abbreviation W := (@World Tr Pp Ac Net Tm Hd).
Abbreviation Rx := (@Dispatcher Tr Pp Ac Net Tm Hd T).
Implicit Types (w : W) (d : Rx).

(** The socket that is followed. *)
Context (sid : SocketId).

(** The messages the facade gets. *)
Definition received (out : list rx_effect) : list Message :=
  omap (λ r, match r with ReplyRecv m => Some m | _ => None end) (replies_to sid out).

(** A message for the socket, on the bus; and all of them. *)
Definition letter (s : Signal Pp) : option Message :=
  match s with PipeEvt s _ (Received m) => if bool_decide (s = sid) then Some m else None | _ => None end.
Definition mail w : list Message := omap letter (posted w).

Lemma mail_send s w : mail (send_signal s w) = mail w ++ option_list (letter s).
Proof. unfold mail. rewrite posted_send, omap_app. cbn. by destruct (letter s). Qed.

Lemma mail_recv s bus w :
  bus_recv (signal_tx w) = (s, bus) → mail w = option_list (s ≫= letter) ++ mail (with_bus bus w).
Proof.
  intros Hbus. unfold mail. rewrite (posted_recv _ _ _ Hbus), omap_app. destruct s as [s|]; [|done]. cbn. by destruct (letter s).
Qed.

(** What sockets, devices, probes and acceptors do puts no message on the bus. *)
Lemma no_letter_slight more : Forall slight more → omap letter more = [].
Proof. induction 1 as [|s more Hs _ IH]; [done|]. by destruct s. Qed.
Lemma no_letter_signals id es : omap letter (omap (signal_of id) es) = [].
Proof. induction es as [|e es IH]; [done|]. destruct e as [| | | |? []|? []| | | | | |]; exact IH. Qed.

(** What a pipe reads goes on the bus. *)
Definition read_of (out : list pipe_effect) : list Message :=
  omap (λ e, match e with AsyncPipe.Raise (Received m) => Some m | _ => None end) out.

Lemma letters_read s eid out :
  omap letter (omap (λ e, match e with AsyncPipe.Raise evt => Some (PipeEvt s eid evt) | _ => None end) out) =
  if bool_decide (s = sid) then read_of out else [].
Proof.
  induction out as [|e out IH]; [by case_bool_decide|]. destruct e as [| | |[]]; try exact IH. cbn in *.
  case_bool_decide; cbn; by rewrite IH.
Qed.

(** *** What delivers nothing and leaves the mail as it is *)

Definition unheard (e : rx_effect) : Prop := match e with ToSocket s (ReplyRecv _) => s ≠ sid | _ => True end.

Lemma unheard_received out : Forall unheard out → received out = [].
Proof.
  unfold received. induction 1 as [|e out He _ IH]; [done|]. destruct e as [|s []| | | | |]; try exact IH; cbn in *;
    case_bool_decide; done.
Qed.

Definition still X (m : R Rx) : Prop := runs unheard (λ d, mail (world d) = X) m.

Lemma still_ret X d : mail (world d) = X → still X (mret d).
Proof. intros HX. by apply (runs_ret unheard (λ d, mail (world d) = X)). Qed.

(** What handlers say, as it leaves. *)
Lemma others_unheard {X} (f : X → option rx_effect) l : (∀ x e, f x = Some e → unheard e) → Forall unheard (omap f l).
Proof.
  intros Hf. induction l as [|x l IH]; [done|]. cbn. destruct (f x) as [e|] eqn:He; [|exact IH]. constructor; [by eapply Hf|exact IH].
Qed.

Lemma quiet_unheard id out : id ≠ sid ∨ Forall quiet out → Forall unheard (omap (socket_output id) out).
Proof.
  intros [Hne|Hq].
  - apply others_unheard. intros [] e; try done. intros [= <-]. by destruct r.
  - induction Hq as [|e out He _ IH]; [done|]. destruct e as [| | | | | | | | | | |r]; try exact IH.
    constructor; [by destruct r|exact IH].
Qed.

Lemma still_socket X id f d :
  mail (world d) = X → id ≠ sid ∨ (∀ (E : Env) s, every quiet (f E s)) → still X (apply_on_socket id f d).
Proof.
  intros HX Hq h d' out Hrun. destruct (call_inv _ _ _ _ _ _ Hrun) as [(_ & -> & ->)|(s & s' & o & _ & Hf & -> & _ & Hp & _)]; [done|].
  split; [|unfold mail; by rewrite Hp, omap_app, no_letter_signals, app_nil_r].
  apply quiet_unheard. destruct Hq as [|Hq]; [by left|right; by eapply Hq].
Qed.

(** The calls that deliver nothing to the socket. *)
Definition undelivering (id : SocketId) (c : call) : Prop := id ≠ sid ∨ is_recv_ack c = false.

Lemma still_call X id c d : undelivering id c → mail (world d) = X → still X (call_on id c d).
Proof.
  intros Hc HX. apply still_socket; [done|]. destruct Hc as [Hne|Hc]; [by left|]. right. intros E s. by apply socket_quiet.
Qed.

Lemma still_close X id d : mail (world d) = X → still X (apply_on_socket id (λ E, Socket_close) d).
Proof. intros HX. apply still_socket; [done|]. right. intros. apply socket_close_quiet. Qed.

Lemma still_drifts X d d' : drifts d d' → mail (world d) = X → mail (world d') = X.
Proof. intros [_ (more & Hp & Hs) _] HX. unfold mail in *. by rewrite Hp, omap_app, (no_letter_slight _ Hs), app_nil_r. Qed.

Lemma unheard_other e : (∀ s r, e ≠ ToSocket s r) → unheard e.
Proof. intros He. destruct e as [|s r| | | | |]; try done. by destruct (He s r). Qed.

Lemma routine_undelivering id c : routine c → undelivering id c.
Proof. right. by destruct c. Qed.

Lemma still_walkable X : walkable unheard (λ d, mail (world d) = X) undelivering (λ _ : T, True).
Proof.
  split; [exact unheard_other|exact (still_drifts X)|exact (still_call X)|exact (still_close X)|by intros|exact routine_undelivering].
Qed.

Lemma still_request X req d : mail (world d) = X → still X (process_request req d).
Proof.
  intros HX. apply (walk_request _ _ _ _ (still_walkable X)); [|done]. destruct req as [[]|? [| |? []| | |]| | |]; try done; by right.
Qed.

(** *** Steps *)

(** What a pipe reads when it is run: by its socket's command, or when it is ready. *)
Definition reading (f : Pp → Q Pp) (p : PipeController) : list Message :=
  if bool_decide (pc_socket_id p = sid) then match f (pc_pipe p) [] with Done _ out => read_of out | Panicked => [] end else [].

(** What the pipes of the socket read in a step. *)
Definition read_in (i : rx_input (T := T)) d : list Message :=
  match i with
  | TurnIo eid events =>
      match get_pipe_mut eid (endpoints (world d)) with Some p => reading (pipe_ready events) p | None => [] end
  | TurnBus =>
      match (bus_recv (signal_tx (world d))).1 with
      | Some (PipeCmd _ eid cmd) =>
          match get_pipe_mut eid (endpoints (world d)) with Some p => reading (pipe_command cmd) p | None => [] end
      | _ => []
      end
  | _ => []
  end.

(** [m] gives the facade what is drawn from [took], which it takes off the mail, and
    puts [put] there. *)
Definition conveys (took put : list Message) d (m : R Rx) : Prop :=
  ∀ h d' out, m h = Done d' out → drawn took (received out) ∧ took ++ mail (world d') = mail (world d) ++ put.

Lemma still_conveys d (m : R Rx) : still (mail (world d)) m → conveys [] [] d m.
Proof.
  intros Hm h d' out Hrun. destruct (Hm _ _ _ Hrun) as [Ho Hx]. rewrite (unheard_received _ Ho), app_nil_r. by split; [apply drawn_nil|].
Qed.

(** What it starts with was taken off the mail. *)
Lemma conveys_from took put ms d d1 (m : R Rx) : mail (world d) = ms ++ mail (world d1) → took = ms →
  (∀ h d' out, m h = Done d' out → drawn took (received out) ∧ mail (world d') = mail (world d1) ++ put) → conveys took put d m.
Proof. intros Hx -> Hm h d' out Hrun. destruct (Hm _ _ _ Hrun) as [Hdr ->]. split; [done|]. by rewrite Hx, app_assoc. Qed.

Lemma conveys_pipe eid f p d : conveys [] (reading f p) d (with_pipe eid d (run_pipe f) p).
Proof.
  intros h d' out Hrun. destruct (with_pipe_inv _ _ _ _ _ _ _ Hrun) as (q & o & Hf & -> & _ & _ & Hp).
  rewrite unheard_received by (apply others_unheard; by intros [] e [= <-]). split; [apply drawn_nil|].
  unfold mail, reading. cbn [app]. by rewrite Hp, omap_app, letters_read, Hf.
Qed.

Lemma received_delivered out : received (omap (socket_output sid) out) = delivered out.
Proof.
  unfold received, delivered. rewrite socket_output_replies, bool_decide_true by done.
  induction out as [|e out IH]; [done|]. destruct e as [| | | | | | | | | | |[]]; cbn; rewrite ?IH; try exact IH; done.
Qed.

(** The one call that delivers. *)
Lemma conveys_letter eid m d h d' out :
  apply_on_socket sid (λ E, Socket_on_recv_ack eid m) d h = Done d' out →
  drawn [m] (received out) ∧ mail (world d') = mail (world d).
Proof.
  intros Hrun. destruct (call_inv _ _ _ _ _ _ Hrun) as [(_ & -> & ->)|(s & s' & o & _ & Hf & -> & _ & Hp & _)]; [by split; [apply drawn_nil|]|].
  rewrite received_delivered. split; [by eapply socket_hands|]. unfold mail. by rewrite Hp, omap_app, no_letter_signals, app_nil_r.
Qed.

(** The other signals. *)
Lemma still_signal X s d :
  mail (world d) = X → letter s = None → (∀ x eid cmd, s ≠ PipeCmd x eid cmd) → still X (process_signal s d).
Proof.
  intros HX Hl Hc. apply (walk_signal _ _ _ _ (still_walkable X)); [done| |done]. intros id eid m ->. left. intros ->.
  cbn in Hl. by rewrite bool_decide_true in Hl.
Qed.

(** What a step takes off the mail. *)
Definition taken_in (i : rx_input (T := T)) d : list Message :=
  match i with TurnBus => option_list ((bus_recv (signal_tx (world d))).1 ≫= letter) | _ => [] end.

Lemma conveys_is took put i (m : R Rx) d : (∀ h, rx_step i d h = m h) → conveys took put d m → conveys took put d (rx_step i d).
Proof. intros Hi Hm h d' out. rewrite Hi. apply Hm. Qed.

Lemma bus_conveys d : conveys (taken_in TurnBus d) (read_in TurnBus d) d (rx_step TurnBus d).
Proof.
  pose proof (bus_step_is d) as Hstep. destruct (bus_recv (signal_tx (world d))) as [s bus] eqn:Hbus. pose proof (mail_recv _ _ _ Hbus) as Hmail.
  set (d1 := set_world (with_bus bus (world d)) d) in *. eapply conveys_is; [exact Hstep|]. clear Hstep.
  apply (conveys_from _ _ (option_list (s ≫= letter)) d d1); [exact Hmail|cbn; by rewrite Hbus|]. cbn [taken_in read_in]. rewrite Hbus. cbn [fst].
  intros h d' out. destruct s as [s|]; cbn [option_list mbind option_bind].
  2: { intros [= <- <-]. rewrite app_nil_r. by split; [apply drawn_nil|]. }
  assert (Hstill : still (mail (world d1)) (process_signal s d1) → process_signal s d1 h = Done d' out →
    drawn (option_list (letter s)) (received out) ∧ mail (world d') = mail (world d1) ++ []).
  { intros Hs Hrun. destruct (Hs _ _ _ Hrun) as [Ho ->]. rewrite (unheard_received _ Ho), app_nil_r. by split; [apply drawn_nil|]. }
  destruct s as [id eid cmd|id eid [| |r|r| |m|e]|id eid cmd|id eid evt|id cmd|id evt]; try (by apply Hstill, still_signal).
  - cbn [process_signal]. rewrite process_cmd_is. change (endpoints (world d)) with (endpoints (world d1)).
    destruct (get_pipe_mut eid _) as [p|]; [apply conveys_pipe|]. intros [= <- <-]. rewrite app_nil_r. by split; [apply drawn_nil|].
  - destruct (decide (id = sid)) as [->|Hne].
    + cbn [letter]. rewrite bool_decide_true, app_nil_r by done. apply conveys_letter.
    + apply Hstill, still_signal; [done| |done]. cbn. by rewrite bool_decide_false.
Qed.

Lemma step_conveys i d : conveys (taken_in i d) (read_in i d) d (rx_step i d).
Proof.
  destruct i as [reqs| | |now|eid events]; [| |apply bus_conveys| |]; cbn [taken_in read_in].
  - by apply still_conveys, still_ret.
  - eapply conveys_is; [apply channel_step_is|]. apply still_conveys. destruct (channel d); [by apply still_ret|by apply still_request].
  - pose proof (timer_step_is now d) as Hstep. destruct (timer_poll now (timer (world d))) as [task tm].
    eapply conveys_is; [exact Hstep|]. apply still_conveys.
    destruct task; [by apply (walk_tick _ _ _ _ (still_walkable _))|by apply still_ret].
  - cbn [rx_step]. unfold process_io. destruct (get_pipe_mut eid _) as [p|]; [apply conveys_pipe|].
    apply still_conveys. destruct (get_acceptor_mut eid _) as [a|]; [by apply (walk_acceptor _ _ _ _ (still_walkable _))|by apply still_ret].
Qed.

(** *** Runs *)

(** What the pipes of the socket read along a run. *)
Fixpoint read_along (ins : list (rx_input (T := T))) d (h : list rx_effect) : list Message :=
  match ins with
  | [] => []
  | i :: rest => read_in i d ++ match rx_step i d h with Done d out' => read_along rest d (h ++ out') | Panicked => [] end
  end.

Lemma received_app o1 o2 : received (o1 ++ o2) = received o1 ++ received o2.
Proof. unfold received. by rewrite replies_to_app, omap_app. Qed.

Lemma run_conveys ins d h d' out :
  rx_run ins d h = Done d' out →
  ∃ took, drawn took (received out) ∧ took ++ mail (world d') = mail (world d) ++ read_along ins d h.
Proof.
  revert d h out. induction ins as [|i ins IH]; intros d h out; cbn [rx_run read_along].
  - intros [= <- <-]. exists []. rewrite app_nil_r. by split; [apply drawn_nil|].
  - rewrite bind_run. destruct (rx_step i d h) as [d1 o1|] eqn:Hstep; [|done].
    destruct (rx_run ins d1 (h ++ o1)) as [d2 o2|] eqn:Hrun; [|done]. intros [= <- <-].
    destruct (step_conveys i d h d1 o1 Hstep) as [Hd1 Hm1]. destruct (IH _ _ _ Hrun) as (took & Hd2 & Hm2).
    exists (taken_in i d ++ took). rewrite received_app. split; [by apply drawn_app|].
    by rewrite <- app_assoc, Hm2, !app_assoc, Hm1.
Qed.

End reactor.

(** ** The application *)

Section application.
Context `{Build} {Tr Pp Ac Net Tm Hd : Type}.
Context `{PipeTrait Pp} `{AcceptorTrait Pp Ac} `{Transport Tr Pp Ac Net} `{TimerLaws Tm Hd} `{HashOrder}.
Context {T : Type} `{Tenant T}.
Implicit Types (s : System (Tr := Tr) (Pp := Pp) (Ac := Ac) (Net := Net) (Tm := Tm) (Hd := Hd) (T := T)) (sid : SocketId).

(** What the calls of a thread returned that are messages, in the order of the calls. *)
Definition got (calls : list (socket_op * answer)) : list Message :=
  omap (λ oa, match oa.2 with GotMessage (Ok m) => Some m | _ => None end) calls.

(** What the pipes of a socket read along a run of the system. *)
Fixpoint sys_read sid (ins : list (sys_input (T := T))) s : list Message :=
  match ins with
  | [] => []
  | i :: rest =>
      match i with ReactorStep i => read_in sid i (rx s) | ThreadStep _ => [] end ++
      match sys_step i s with Some s => sys_read sid rest s | None => [] end
  end.

Lemma sys_conveys sid ins s s' :
  sys_run ins s = Some s' →
  ∃ took ds, received sid (rx_log s') = received sid (rx_log s) ++ ds ∧ drawn took ds ∧
    took ++ mail sid (world (rx s')) = mail sid (world (rx s)) ++ sys_read sid ins s.
Proof.
  revert s. induction ins as [|i ins IH]; intros s; cbn [sys_run sys_read].
  { intros [= <-]. exists [], []. rewrite !app_nil_r. by split; [|split; [apply drawn_nil|]]. }
  destruct (sys_step i s) as [s1|] eqn:Hstep; [|done]. intros Hrun. cbn in Hrun.
  destruct (IH _ Hrun) as (took & ds & Hlog & Hd2 & Hm).
  assert (Hone : ∃ took1 ds1, received sid (rx_log s1) = received sid (rx_log s) ++ ds1 ∧ drawn took1 ds1 ∧
    took1 ++ mail sid (world (rx s1)) = mail sid (world (rx s)) ++ match i with ReactorStep i => read_in sid i (rx s) | ThreadStep _ => [] end).
  { destruct i as [t|i]; cbn [sys_step] in Hstep.
    - exists [], []. rewrite !app_nil_r. destruct (threads s !! t); [destruct (thread_step _ _ _)|];
        injection Hstep as <-; by split; [|split; [apply drawn_nil|]].
    - destruct (rx_step i (rx s) (rx_log s)) as [d o|] eqn:Hrx; [|done]. injection Hstep as <-. cbn [rx_log rx].
      exists (taken_in sid i (rx s)), (received sid o). rewrite received_app. split; [done|]. by eapply step_conveys. }
  destruct Hone as (took1 & ds1 & Hlog1 & Hd1 & Hm1). exists (took1 ++ took), (ds1 ++ ds). split; [by rewrite Hlog, Hlog1, app_assoc|].
  split; [by apply drawn_app|]. by rewrite <- app_assoc, Hm, !app_assoc, Hm1.
Qed.

(** The messages returned are those of the replies. *)
Lemma got_heard self calls heard :
  Forall2 (answered self) calls heard → got calls = omap (λ r, match r with ReplyRecv m => Some m | _ => None end) heard.
Proof.
  unfold got. induction 1 as [|[op a] r calls heard [Hserves Ha] _ IH]; [done|]. cbn. rewrite IH. cbn in Hserves, Ha.
  destruct op, r; simplify_eq/=; done.
Qed.

(** C3: From the pipes to the application, and nothing else: what its calls of recv
    return, in the order of the calls, is drawn, in order and each once, from what
    the pipes of its socket read since the beginning, each payload being the end of
    what was read; whatever the protocol of the socket, and however the steps of the
    threads, of the reactor and of the network interleave, in every disciplined run
    (as in [facade_conversation]). *)
Theorem application_gets (trs : gmap string Tr) (clock : Tm) (net : Net) setup d out (ths : gmap SocketId Thread) ins :
  let start := Dispatcher_new trs clock net in
  let closed := closed_along ∅ setup start [] in
  armed_tasks clock = ∅ → Forall fresh_input setup → rx_disciplined ∅ setup start [] = true →
  rx_run setup start [] = Done d out → ready_to_run closed ths d →
  Forall sys_fresh ins → sys_disciplined closed ins (mkSystem ths d []) = true →
  ∃ s, sys_run ins (mkSystem ths d []) = Some s ∧
    ∀ sid th, threads s !! sid = Some th →
      drawn (read_along sid setup start [] ++ sys_read sid ins (mkSystem ths d [])) (got (th_done th)).
Proof.
  intros start closed Hempty Hfr Hdis Hsetup Hready Hfresh Hall.
  destruct (system_runs _ _ _ _ _ _ _ _ Hempty Hfr Hdis Hsetup Hready Hfresh Hall) as (s & Hrun & _ & _ & Hths).
  exists s. split; [exact Hrun|]. intros sid th Hth.
  destruct (Hths _ _ Hth) as [_ _ _ (ds & heard & last & pend & _ & Hh & Hans & Hlog & _) _ _].
  destruct (sys_conveys sid _ _ _ Hrun) as (took & got' & Hrec & Hdr & Hm). cbn [rx rx_log] in Hrec, Hm.
  destruct (run_conveys sid _ _ _ _ _ Hsetup) as (took0 & _ & Hm0). cbn in Hm0.
  apply (drawn_before _ _ (omap (λ r, match r with ReplyRecv m => Some m | _ => None end) (last ++ pend))).
  rewrite (got_heard _ _ _ Hans), <- omap_app, app_assoc, <- Hh, <- Hlog. unfold received in Hrec. rewrite Hrec. cbn [app].
  apply (drawn_less took); [|exact Hdr]. etrans; [|apply sublist_app; [|reflexivity]].
  - rewrite <- Hm. by apply sublist_inserts_r.
  - rewrite <- Hm0. by apply sublist_inserts_l.
Qed.

End application.

#[local] Existing Instances ex_pipes ex_acceptors ex_transport ex_build ex_order.

(** The thread that receives, in the example of [System]: one message came, one was got. *)
Lemma application_gets_witness :
  let read := read_along (SocketId_from 0) ex_setup ex_start [] ++ sys_read (SocketId_from 0) ex_inputs (mkSystem ex_threads ex_ready []) in
  ∃ s th, sys_run ex_inputs (mkSystem ex_threads ex_ready []) = Some s ∧ threads s !! SocketId_from 0 = Some th ∧
    read = [from_body [42]] ∧ got (th_done th) = [from_body [42]] ∧ drawn read (got (th_done th)).
Proof.
  intros read. destruct (application_gets {[ "ex" := () ]} (mkListTimer 0 ∅ ∅) () ex_setup ex_ready
    (match rx_run ex_setup ex_start [] with Done _ o => o | Panicked => [] end) ex_threads ex_inputs) as (s & Hrun & Hths).
  - reflexivity.
  - exact ex_setup_fresh.
  - vm_compute. reflexivity.
  - vm_compute. reflexivity.
  - exact ex_threads_ready.
  - repeat constructor.
  - vm_compute. reflexivity.
  - assert (Hth : got ∘ th_done <$> (threads s !! SocketId_from 0) = got ∘ th_done <$>
      (match sys_run ex_inputs (mkSystem ex_threads ex_ready []) with Some s => threads s !! SocketId_from 0 | None => None end))
      by (by rewrite Hrun).
    destruct (threads s !! SocketId_from 0) as [th|] eqn:Hs; [|vm_compute in Hth; discriminate].
    exists s, th. split; [exact Hrun|]. split; [exact Hs|]. split; [vm_compute; reflexivity|].
    split; [|exact (Hths _ _ Hs)]. vm_compute in Hth. by injection Hth.
Defined.
