(* ===== verification/Outbound.v ===== *)
(** * What the pipes are given

    [Provenance], from the application to the pipes: a message the pipes of a socket
    are given to send has the payload of one the application asked that socket to
    send, whatever the protocol and whatever else goes on in the reactor. *)

From S2P Require Import Prelude Core Context Protocol Socket Probe Device Session.
From S2P Require Import AsyncPipe Acceptor Adapter Dispatcher Facade Delivery Provenance Tenants Timers Reactor Walk System Integrity.

(** ** A socket *)

Section socket.
Context {T : Type} `{Tenant T} {E : Env} (G : bytes → Prop).

Definition sock_laden (s : Socket T) : Prop := tenant_laden G (protocol s).
Definition giving_call (c : call) : Prop := match c with CSend m | CTrySend m => G (body m) | _ => True end.

#[local] Hint Extern 1 => as_step; apply (prov_gives _ _ tenant_provenance); [held|held] : handler.

Ltac haul_socket :=
  haul_with ltac:(first
    [ apply (runs_bind _ (tenant_laden G)); [|intros ? ?]
    | apply (runs_bind _ (λ x, tenant_laden G (snd x))); [|intros [? ?] ?; cbn in * |-]
    | apply (runs_bind _ sock_laden); [|intros ? ?]
    | apply (runs_bind _ (λ x, sock_laden (snd x))); [|intros [? ?] ?; cbn in * |-] ]).

Lemma socket_gives c self : sock_laden self → giving_call c → runs (given G) sock_laden (Socket_step c self).
Proof.
  intros Hs Hc. destruct c; simpl in Hc; simpl Socket_step; unfold sock_laden in Hs; haul_socket.
  apply runs_ret. pose proof (prov_gives _ _ tenant_provenance G (ISetOption opt) (protocol self) Hs I [] _ [] eq_refl) as [_ Hopt].
  destruct (is_generic opt).
  - destruct (Config_set opt (config self)). simplify_eq. exact Hs.
  - destruct (set_option opt (protocol self)). by simplify_eq.
Qed.

Lemma socket_close_gives self : sock_laden self → runs (given G) sock_laden (Socket_close self).
Proof.
  intros Hs. assert (Hclose : ∀ s : T, tenant_laden G s → runs (given G) (tenant_laden G) (close s)) by (intros s; apply (prov_close _ _ tenant_provenance)).
  unfold Socket_close. unfold sock_laden in Hs.
  apply every_bind; [tread|intros ?]. apply every_bind; [apply every_for_each; intros ? _; tread|intros ?].
  apply every_bind; [tread|intros ?]. apply every_bind; [apply every_for_each; intros ? _; tread|intros ?].
  unfold ask. apply (runs_bind _ sock_laden); [|intros s Hx; haul_socket].
  apply (runs_bind _ (tenant_laden G)); [by apply Hclose|]. intros p Hp. by apply runs_ret.
Qed.

End socket.

(** ** The reactor *)

Section reactor.
Context `{Build} {Tr Pp Ac Net Tm Hd : Type}.
Context `{PipeTrait Pp} `{AcceptorTrait Pp Ac} `{Transport Tr Pp Ac Net} `{TimerLaws Tm Hd} `{HashOrder}.
Context {T : Type} `{Tenant T}.
Abbreviation W := (@World Tr Pp Ac Net Tm Hd).
Abbreviation Rx := (@Dispatcher Tr Pp Ac Net Tm Hd T).
Implicit Types (w : W) (d : Rx).

(** The socket that is followed, and what it may send. *)
Context (sid : SocketId) (G : bytes → Prop).

(** A message for the pipes of the socket, on the bus. *)
Definition parcel (s : Signal Pp) : option Message :=
  match s with PipeCmd s _ (PipeCmdSend m) => if bool_decide (s = sid) then Some m else None | _ => None end.

(** What the socket holds and what it put on the bus is in [G]. *)
Record bound d : Prop := {
  bound_socket : ∀ s, socket_at sid d = Some s → sock_laden G s;
  bound_bus : Forall (λ m, G (body m)) (omap parcel (posted (world d)))
}.

Definition fine_call (id : SocketId) (c : call) : Prop := id = sid → giving_call G c.
(** A socket starts with nothing to send. *)
Definition unladen (ctor : T) : Prop := tenant_laden (λ _, False) ctor.

Lemma parcels_given id o : (id = sid → Forall (given G) o) → Forall (λ m, G (body m)) (omap parcel (omap (signal_of id) o)).
Proof.
  intros Ho. destruct (decide (id = sid)) as [->|Hne].
  - specialize (Ho eq_refl). induction Ho as [|e o He _ IH]; [done|].
    destruct e as [| | | |? []|? []|eid m| | | | |]; try exact IH. cbn -[bool_decide]. rewrite bool_decide_true by done. by constructor.
  - clear Ho. induction o as [|e o IH]; [done|]. destruct e as [| | | |? []|? []|eid m| | | | |]; try exact IH.
    cbn -[bool_decide]. by rewrite bool_decide_false.
Qed.

Lemma parcels_slight more : Forall slight more → omap parcel more = [].
Proof. induction 1 as [|s more Hs _ IH]; [done|]. by destruct s. Qed.

Lemma bound_apply id (f : ∀ E : Env, Socket T → P (Socket T)) d :
  (id = sid → ∀ (E : Env) s, sock_laden G s → runs (given G) (sock_laden G) (f E s)) →
  bound d → runs (λ _ : rx_effect, True) bound (apply_on_socket id f d).
Proof.
  intros Hf [Hs Hb] h d' out Hrun. split; [by apply Forall_true|].
  destruct (call_inv _ _ _ _ _ _ Hrun) as [(_ & -> & ->)|(s & s' & o & Hid & Hrun' & -> & Hat & Hp & _)]; [by split|].
  assert (Hgo : id = sid → Forall (given G) o ∧ sock_laden G s').
  { intros Heq. eapply Hf; [done| |exact Hrun']. apply Hs. by rewrite <- Heq. }
  split.
  - intros x. rewrite Hat. case_bool_decide as Heq; [|apply Hs]. intros [= <-]. by apply Hgo.
  - rewrite Hp, omap_app. apply Forall_app. split; [done|]. apply parcels_given. intros Heq. by apply Hgo.
Qed.

Lemma bound_walkable : walkable (λ _ : rx_effect, True) bound fine_call unladen.
Proof.
  split; [done| | | | |].
  - intros d d' [Hs (more & Hp & Hm) _] [Hb Hq]. split; [|by rewrite Hp, omap_app, (parcels_slight _ Hm), app_nil_r].
    intros s Hat. destruct (Hs sid) as [Heq|Heq]; rewrite Heq in Hat; [by apply Hb|done].
  - intros id c d Hc Hb. apply bound_apply; [|done]. intros Heq E s Hs. by apply socket_gives; [|apply Hc].
  - intros id d Hb. apply bound_apply; [|done]. intros _ E s Hs. by apply socket_close_gives.
  - intros ctor i rep i' s d Hadd Hctor [Hb Hq]. split; [|exact Hq]. intros x.
    unfold add_socket, SocketCollection_add in Hadd. destruct (Sequence_next i) as [[n i2]|]; [|done].
    injection Hadd as _ _ <-. unfold socket_at, get_socket_mut, SocketCollection_get_socket_mut. cbn.
    intros [[_ <-]|[_ Hx]]%lookup_insert_Some; [|by apply Hb].
    by apply (prov_more _ _ tenant_provenance (λ _, False)).
  - intros id [] Hc _; done.
Qed.

(** *** Steps *)

Definition empty_handed (req : rx_request T) : Prop :=
  match req with ForSession (CreateSocket ctor) => unladen ctor | _ => True end.
Definition arrives_empty (i : rx_input (T := T)) : Prop := match i with Arrive reqs => Forall empty_handed reqs | _ => True end.

(** The messages that requests ask the socket to send. *)
Definition asks (req : rx_request T) : option Message :=
  match req with ForSocket id (RequestSend m _) => if bool_decide (id = sid) then Some m else None | _ => None end.

(** What a step takes of them from the channel, and what it hands to the pipes. *)
Definition asked_in (i : rx_input (T := T)) d : list Message :=
  match i, channel d with TurnChannel, req :: _ => option_list (asks req) | _, _ => [] end.
Definition handed_in (i : rx_input (T := T)) d : list Message :=
  match i with TurnBus => option_list ((bus_recv (signal_tx (world d))).1 ≫= parcel) | _ => [] end.

Definition ins_G (ms : list Message) : Prop := Forall (λ m, G (body m)) ms.

Lemma fine_asks req : empty_handed req → ins_G (option_list (asks req)) → fine_request fine_call unladen req.
Proof.
  intros He Hm. destruct req as [[]|id [| |m []| | |]| | |]; try done; intros ->; unfold asks in Hm; rewrite bool_decide_true in Hm by done;
    by apply Forall_cons in Hm as [Hm _].
Qed.

(** Running a pipe tells what happened to it, and no more. *)
Lemma bound_pipe eid f p d : bound d → runs (λ _ : rx_effect, True) bound (with_pipe eid d (run_pipe f) p).
Proof.
  intros [Hs Hb] h d' out Hrun. destruct (with_pipe_inv _ _ _ _ _ _ _ Hrun) as (q & o & _ & _ & Hse & _ & Hp).
  split; [by apply Forall_true|]. split; [unfold socket_at; by rewrite Hse|]. rewrite Hp, omap_app. apply Forall_app. split; [done|].
  clear. induction o as [|e o IH]; [done|]. by destruct e.
Qed.

Lemma bound_is i (m : R Rx) d :
  (∀ h, rx_step i d h = m h) → runs (λ _ : rx_effect, True) bound m → runs (λ _ : rx_effect, True) bound (rx_step i d).
Proof. intros Hi Hm h. rewrite Hi. apply Hm. Qed.

Lemma bus_bound d : bound d → ins_G (handed_in TurnBus d) ∧ runs (λ _ : rx_effect, True) bound (rx_step TurnBus d).
Proof.
  pose proof (bus_step_is d) as Hstep. cbn [handed_in]. destruct (bus_recv (signal_tx (world d))) as [s bus] eqn:Hbus.
  set (d1 := set_world (with_bus bus (world d)) d) in *. intros [Hs Hq].
  rewrite (posted_recv _ _ _ Hbus), omap_app in Hq. apply Forall_app in Hq as [Hq1 Hq2].
  split; [destruct s as [s|]; [|done]; cbn in Hq1; cbn; by destruct (parcel s)|].
  assert (Hb1 : bound d1) by by split. eapply bound_is; [exact Hstep|]. destruct s as [s|]; [|by apply runs_ret].
  assert (Hother : (∀ x eid cmd, s ≠ PipeCmd x eid cmd) → runs (λ _ : rx_effect, True) bound (process_signal s d1)).
  { intros Hc. by apply (walk_signal _ _ _ _ bound_walkable). }
  destruct s as [id eid cmd| | | | |]; try (by apply Hother).
  cbn [process_signal]. rewrite process_cmd_is. destruct (get_pipe_mut eid _) as [p|]; [by apply bound_pipe|by apply runs_ret].
Qed.

Lemma step_bound i d :
  bound d → Forall empty_handed (channel d) → ins_G (asked_in i d) →
  ins_G (handed_in i d) ∧ runs (λ _ : rx_effect, True) bound (rx_step i d).
Proof.
  intros Hb Hfresh Hasked. destruct i as [reqs| | |now|eid events]; [| |by apply bus_bound| |]; (split; [by apply Forall_nil_2|]).
  - apply runs_ret. by destruct Hb; split.
  - eapply bound_is; [apply channel_step_is|]. unfold asked_in in Hasked. destruct (channel d); [by apply runs_ret|].
    apply Forall_cons in Hfresh as [Hreq _]. apply (walk_request _ _ _ _ bound_walkable); [by apply fine_asks|]. by destruct Hb; split.
  - pose proof (timer_step_is now d) as Hstep. destruct (timer_poll now (timer (world d))) as [task tm]. eapply bound_is; [exact Hstep|].
    set (d1 := set_world _ d). assert (Hb1 : bound d1) by (by destruct Hb; split).
    destruct task; [by apply (walk_tick _ _ _ _ bound_walkable)|by apply runs_ret].
  - cbn [rx_step]. unfold process_io. destruct (get_pipe_mut eid _) as [p|]; [by apply bound_pipe|].
    destruct (get_acceptor_mut eid _) as [a|]; [by apply (walk_acceptor _ _ _ _ bound_walkable)|by apply runs_ret].
Qed.

End reactor.

(** *** Runs *)

Section runs.
Context `{Build} {Tr Pp Ac Net Tm Hd : Type}.
Context `{PipeTrait Pp} `{AcceptorTrait Pp Ac} `{Transport Tr Pp Ac Net} `{TimerLaws Tm Hd} `{HashOrder}.
Context {T : Type} `{Tenant T}.
Abbreviation Rx := (@Dispatcher Tr Pp Ac Net Tm Hd T).
Implicit Types (d : Rx) (G : bytes → Prop) (sid : SocketId).

Lemma ins_more G G' ms : (∀ b, G b → G' b) → ins_G G ms → ins_G G' ms.
Proof. intros HG Hm. eapply Forall_impl; [exact Hm|]. intros m. apply HG. Qed.

Lemma bound_more sid G G' d : (∀ b, G b → G' b) → bound sid G d → bound sid G' d.
Proof.
  intros HG [Hs Hb]. split; [|by eapply ins_more]. intros s Hat. apply (prov_more _ _ tenant_provenance G); [done|by apply Hs].
Qed.

(** What the socket was asked to send, and what was handed to its pipes, along a run. *)
Fixpoint along (f : rx_input (T := T) → Rx → list Message) (ins : list (rx_input (T := T))) d (h : list rx_effect) : list Message :=
  match ins with
  | [] => []
  | i :: rest => f i d ++ match rx_step i d h with Done d out => along f rest d (h ++ out) | Panicked => [] end
  end.

Lemma step_channel_empty i d (h : list rx_effect) d' out :
  rx_step i d h = Done d' out → Forall empty_handed (channel d) → arrives_empty i → Forall empty_handed (channel d').
Proof.
  intros Hrun Hch Hi. rewrite (rx_step_channel _ _ _ _ _ Hrun). destruct i; try done; [by apply Forall_app|].
  destruct Hch; [done|]. done.
Qed.

Lemma run_bound sid G ins d (h : list rx_effect) d' out :
  rx_run ins d h = Done d' out → bound sid G d → Forall empty_handed (channel d) → Forall arrives_empty ins →
  ins_G G (along (asked_in sid) ins d h) →
  bound sid G d' ∧ Forall empty_handed (channel d') ∧ ins_G G (along (handed_in sid) ins d h).
Proof.
  revert d h out. induction ins as [|i ins IH]; intros d h out; cbn [rx_run along].
  - intros [= <- <-] Hb Hch _ _. by split; [|split; [|apply Forall_nil_2]].
  - rewrite bind_run. destruct (rx_step i d h) as [d1 o1|] eqn:Hstep; [|done].
    destruct (rx_run ins d1 (h ++ o1)) as [d2 o2|] eqn:Hrun; [|done]. intros [= <- <-] Hb Hch Hins Hask.
    apply Forall_cons in Hins as [Hi Hins]. apply Forall_app in Hask as [Hask1 Hask].
    destruct (step_bound sid G i d Hb Hch Hask1) as [Hhand Hkeep]. destruct (Hkeep _ _ _ Hstep) as [_ Hb1].
    destruct (IH _ _ _ Hrun Hb1 (step_channel_empty _ _ _ _ _ Hstep Hch Hi) Hins Hask) as (Hb2 & Hch2 & Hh).
    split; [done|]. split; [done|]. by apply Forall_app.
Qed.

(** ** The application *)

Implicit Types (s : System (Tr := Tr) (Pp := Pp) (Ac := Ac) (Net := Net) (Tm := Tm) (Hd := Hd) (T := T)).

Definition sends (op : socket_op) : option Message := match op with OpSend m | OpTrySend m => Some m | _ => None end.
(** What the calls a thread made, or is making, ask to send. *)
Definition asked_by (th : Thread (T := T)) : list Message := omap sends ((th_done th).*1 ++ option_list (fst <$> th_now th)).

(** The payload of one of [ms]. *)
Definition payload_of (ms : list Message) (b : bytes) : Prop := ∃ m, m ∈ ms ∧ body m = b.

Lemma payload_more ms ms' b : ms ⊆ ms' → payload_of ms b → payload_of ms' b.
Proof. intros Hsub (m & Hm & <-). exists m. split; [by apply Hsub|done]. Qed.

Lemma thread_asks closed sid ops th d log gone th' req :
  thread_ok closed sid ops th d log → thread_step th log gone = (th', req) →
  asked_by th ⊆ asked_by th' ∧ (req ≫= asks sid = None ∨ ∃ m, req ≫= asks sid = Some m ∧ m ∈ asked_by th').
Proof.
  intros [Hsock _ _ (ds & heard & last & pend & Hst & _) _ Hend] Hstep. destruct th as [self now next past hd fin].
  cbn [th_socket th_now th_done th_next th_end th_heard] in *. subst sid.
  destruct Hst as [|op|op k Hk|op a r Ha].
  - destruct next as [|op rest].
    + assert (Hsame : asked_by th' = asked_by (mkThread self None [] past hd fin) ∧ req ≫= asks (fs_id self) = None); [|by destruct Hsame as [-> ->]; split; [|left]].
      destruct fin as [| |prog|]; cbn [thread_step] in Hstep; try (by injection Hstep as <- <-).
      destruct Hend as (_ & _ & [Hp|[(k & Hp & Hk)|[Hp _]]]); cbn [th_socket] in Hp; subst prog; [by injection Hstep as <- <-| |by injection Hstep as <- <-].
      cbn in Hstep. destruct (channel_next _ _ _ _) as [r|]; by injection Hstep as <- <-.
    + injection Hstep as <- <-. split; [|by left]. unfold asked_by. cbn. rewrite app_nil_r, omap_app. intros m Hm. apply elem_of_app. by left.
  - destruct (run_op_request (T := T) op self) as (k & Hrun & _). rewrite Hrun in Hstep. cbn in Hstep. injection Hstep as <- <-.
    split; [done|]. cbn. destruct op as [| |m|m| | |]; cbn -[bool_decide]; try (by left); right; exists m; rewrite bool_decide_true by done;
      (split; [done|]); unfold asked_by; cbn; rewrite omap_app; apply elem_of_app; right; by apply list_elem_of_here.
  - cbn in Hstep. destruct (channel_next _ _ _ _) as [r|]; injection Hstep as <- <-; by split; [|left].
  - injection Hstep as <- <-. split; [|by left]. unfold asked_by. cbn. by rewrite fmap_app, app_nil_r.
Qed.

(** What was handed to the pipes of a socket along a run of the system. *)
Fixpoint sys_handed sid (ins : list (sys_input (T := T))) s : list Message :=
  match ins with
  | [] => []
  | i :: rest =>
      match i with ReactorStep i => handed_in sid i (rx s) | ThreadStep _ => [] end ++
      match sys_step i s with Some s => sys_handed sid rest s | None => [] end
  end.

Definition sys_arrives_empty (i : sys_input (T := T)) : Prop := match i with ReactorStep i => arrives_empty i | ThreadStep _ => True end.

(** [base]: what the socket was asked before the threads started. *)
Definition may_send (base : list Message) (th : Thread (T := T)) : bytes → Prop := payload_of (base ++ asked_by th).

Definition sent_ok (base : SocketId → list Message) s : Prop :=
  Forall empty_handed (channel (rx s)) ∧
  ∀ sid th, threads s !! sid = Some th →
    bound sid (may_send (base sid) th) (rx s) ∧ ins_G (may_send (base sid) th) (omap (asks sid) (channel (rx s))).

Lemma may_send_more base th th' b : asked_by th ⊆ asked_by th' → may_send base th b → may_send base th' b.
Proof. intros Hsub. apply payload_more. set_solver. Qed.

Lemma asks_another sid owned reqs : sid ∈ owned → forallb (of_another owned) reqs = true → omap (asks (T := T) sid) reqs = [].
Proof.
  intros Hin. induction reqs as [|req reqs IH]; [done|]. cbn [forallb]. intros [Hreq Hall]%andb_true_iff.
  destruct req as [|id []| | |]; try exact (IH Hall). cbn in Hreq. apply bool_decide_eq_true in Hreq. cbn -[bool_decide].
  rewrite bool_decide_false by (by intros ->). by apply IH.
Qed.

Lemma thread_sent closed ths base sid s s' :
  sys_ok closed ths s → sent_ok base s → sys_step (ThreadStep sid) s = Some s' →
  sent_ok base s' ∧ ∀ x th, threads s !! x = Some th → ∃ th', threads s' !! x = Some th' ∧ asked_by th ⊆ asked_by th'.
Proof.
  intros (_ & _ & Hths) [Hch Hsent] Hstep. cbn [sys_step] in Hstep. destruct (threads s !! sid) as [th|] eqn:Hth; [|injection Hstep as <-; split; [by split|by eauto]].
  destruct (thread_step _ _ _) as [th1 req] eqn:Hrun. injection Hstep as <-.
  destruct (thread_asks _ _ _ _ _ _ _ _ _ (Hths _ _ Hth) Hrun) as [Hmore Hreq].
  pose proof (thread_step_ok _ _ _ _ _ _ _ _ (Hths _ _ Hth) Hrun) as Hleft.
  assert (Hmine : ∀ r, req = Some r → empty_handed r ∧ ∀ x, x ≠ sid → asks x r = None).
  { intros r ->. destruct Hleft as [_ [[op ->]| ->]]; (split; [done|]); intros x Hne; [|done].
    destruct op; try done; cbn -[bool_decide]; by rewrite bool_decide_false. }
  split; [split|]; cbn [rx threads channel set_channel].
  - apply Forall_app. split; [done|]. destruct req as [r|]; [|done]. constructor; [|done]. by apply Hmine.
  - intros x y Hx. destruct (decide (x = sid)) as [->|Hne].
    + rewrite lookup_insert_eq in Hx. injection Hx as <-. destruct (Hsent _ _ Hth) as [Hb Ha].
      pose proof (λ b, may_send_more (base sid) th th1 b Hmore) as HG. split; [by destruct (bound_more _ _ _ _ HG Hb); split|].
      rewrite omap_app. apply Forall_app. split; [by eapply ins_more|]. destruct req as [r|]; [|done]. cbn in Hreq |- *.
      destruct Hreq as [->|(m & -> & Hm)]; [done|]. constructor; [|done]. exists m. split; [|done]. apply elem_of_app. by right.
    + rewrite lookup_insert_ne in Hx by done. destruct (Hsent _ _ Hx) as [Hb Ha]. split; [by destruct Hb; split|].
      rewrite omap_app. apply Forall_app. split; [done|]. destruct req as [r|]; [|done]. cbn. by rewrite (proj2 (Hmine r eq_refl)).
  - intros x y Hx. destruct (decide (x = sid)) as [->|Hne].
    + rewrite Hth in Hx. injection Hx as <-. exists th1. by rewrite lookup_insert_eq.
    + exists y. by rewrite lookup_insert_ne.
Qed.

Lemma reactor_sent closed base i s s' :
  sent_ok base s → arrives_empty i → sys_assumed closed (ReactorStep i) s = true → sys_step (ReactorStep i) s = Some s' →
  sent_ok base s' ∧ threads s' = threads s ∧ ∀ sid th, threads s !! sid = Some th → ins_G (may_send (base sid) th) (handed_in sid i (rx s)).
Proof.
  intros [Hch Hsent] Hi Hall Hstep. cbn [sys_step] in Hstep. destruct (rx_step i (rx s) (rx_log s)) as [d out|] eqn:Hrun; [|done].
  injection Hstep as <-.
  assert (Hgo : ∀ sid th, threads s !! sid = Some th →
    ins_G (may_send (base sid) th) (handed_in sid i (rx s)) ∧ bound sid (may_send (base sid) th) d ∧ ins_G (may_send (base sid) th) (omap (asks sid) (channel d))).
  { intros sid th Hth. destruct (Hsent _ _ Hth) as [Hb Ha].
    assert (Hasked : ins_G (may_send (base sid) th) (asked_in sid i (rx s))).
    { unfold asked_in. destruct i; try apply Forall_nil_2. destruct (channel (rx s)) as [|req rest]; [apply Forall_nil_2|].
      cbn in Ha. destruct (asks sid req); [|apply Forall_nil_2]. apply Forall_cons in Ha as [Ha _]. by constructor. }
    destruct (step_bound sid _ i (rx s) Hb Hch Hasked) as [Hhand Hkeep]. split; [done|]. split; [by apply (Hkeep _ _ _ Hrun)|].
    rewrite (rx_step_channel _ _ _ _ _ Hrun). destruct i as [reqs| | | |]; try done.
    - cbn [sys_assumed input_assumed] in Hall. rewrite omap_app, (asks_another sid (dom (threads s)) reqs), app_nil_r; [done| |done].
      by eapply elem_of_dom_2.
    - destruct (channel (rx s)) as [|req rest]; [done|]. cbn in Ha |- *. destruct (asks sid req); [|done]. by apply Forall_cons in Ha as [_ Ha]. }
  split; [split|].
  - cbn [rx]. by eapply step_channel_empty.
  - cbn [rx threads]. intros sid th Hth. by apply (Hgo sid th Hth).
  - split; [done|]. intros sid th Hth. by apply Hgo.
Qed.

Lemma sys_sent closed ths base ins s s' :
  sys_ok closed ths s → sent_ok base s → Forall sys_fresh ins → Forall sys_arrives_empty ins → sys_disciplined closed ins s = true →
  sys_run ins s = Some s' →
  ∀ sid th, threads s !! sid = Some th →
    ∃ th', threads s' !! sid = Some th' ∧ asked_by th ⊆ asked_by th' ∧ ins_G (may_send (base sid) th') (sys_handed sid ins s).
Proof.
  revert closed s. induction ins as [|i ins IH]; intros closed s Hok Hsent Hfr Har Hall Hrun sid th Hth; cbn [sys_run sys_handed sys_disciplined] in *.
  { injection Hrun as <-. exists th. by split; [|split; [|apply Forall_nil_2]]. }
  apply Forall_cons in Hfr as [Hf Hfr]. apply Forall_cons in Har as [Ha Har]. apply andb_true_iff in Hall as [Hi Hall].
  destruct (sys_step_ok _ _ _ _ Hok Hf Hi) as (s1 & Hstep & Hok1). rewrite Hstep in *. cbn in Hrun.
  assert (Hnext : sent_ok base s1 ∧ ∃ th1, threads s1 !! sid = Some th1 ∧ asked_by th ⊆ asked_by th1 ∧
    ins_G (may_send (base sid) th1) (match i with ReactorStep i => handed_in sid i (rx s) | ThreadStep _ => [] end)).
  { destruct i as [x|i].
    - destruct (thread_sent _ _ _ _ _ _ Hok Hsent Hstep) as [Hs1 Hmore]. split; [done|]. destruct (Hmore _ _ Hth) as (th1 & ? & ?).
      exists th1. by split; [|split; [|apply Forall_nil_2]].
    - destruct (reactor_sent _ _ _ _ _ Hsent Ha Hi Hstep) as (Hs1 & Hths & Hhand). split; [done|]. exists th. rewrite Hths.
      split; [done|]. split; [done|]. by apply Hhand. }
  destruct Hnext as (Hsent1 & th1 & Hth1 & Hsub & Hhand).
  destruct (IH _ _ Hok1 Hsent1 Hfr Har Hall Hrun sid th1 Hth1) as (th' & Hth' & Hsub' & Hrest).
  exists th'. split; [done|]. split; [by etrans|]. apply Forall_app. split; [|done].
  eapply ins_more; [|exact Hhand]. intros b. by apply may_send_more.
Qed.

(** C4: From the application to the pipes, and nothing else: a message handed to the
    pipes of a socket, whether it is sent, sent again, broadcast, or held back first,
    has the very payload of one the thread of that socket asked to send, in a call
    that it made or is making, or that the socket was asked to send before the
    threads started; whatever the protocol of the socket, and however the steps of
    the threads, of the reactor and of the network interleave, in every disciplined
    run (as in [facade_conversation]) in which messages arrive from the network with
    an empty header, as the framing makes them ([Framing.read_payload]). *)
Theorem application_sends (trs : gmap string Tr) (clock : Tm) (net : Net) setup d out (ths : gmap SocketId Thread) ins :
  let start := Dispatcher_new trs clock net in
  let closed := closed_along ∅ setup start [] in
  armed_tasks clock = ∅ → Forall fresh_input setup → rx_disciplined ∅ setup start [] = true →
  rx_run setup start [] = Done d out → ready_to_run closed ths d →
  Forall sys_fresh ins → sys_disciplined closed ins (mkSystem ths d []) = true →
  Forall arrives_empty setup → Forall sys_arrives_empty ins →
  ∃ s, sys_run ins (mkSystem ths d []) = Some s ∧
    ∀ sid th m, threads s !! sid = Some th →
      m ∈ along (handed_in sid) setup start [] ++ sys_handed sid ins (mkSystem ths d []) →
      ∃ m0, m0 ∈ along (asked_in sid) setup start [] ++ asked_by th ∧ body m = body m0.
Proof.
  intros start closed Hempty Hfr Hdis Hsetup Hready Hfresh Hall Hse Har. subst start.
  destruct (rx_run_goes ∅ setup _ [] (Dispatcher_new_ok trs clock net Hempty) Hfr Hdis) as (d' & out' & Hrun & Hok & _).
  assert (Hdd : d' = d) by congruence. subst d'.
  destruct (system_runs _ _ _ _ _ _ _ _ Hempty Hfr Hdis Hsetup Hready Hfresh Hall) as (s & Hgo & _ & Hdom & _).
  exists s. split; [exact Hgo|]. set (base := λ sid, along (asked_in sid) setup (Dispatcher_new trs clock net) []).
  assert (Hset : ∀ sid, bound sid (payload_of (base sid)) d ∧ Forall empty_handed (channel d) ∧
    ins_G (payload_of (base sid)) (along (handed_in sid) setup (Dispatcher_new trs clock net) [])).
  { intros sid. apply (run_bound sid _ setup _ [] d out Hsetup); [split; [done|apply Forall_nil_2]|apply Forall_nil_2|done|].
    apply Forall_forall. intros m Hm. by exists m. }
  assert (Hstart : sent_ok base (mkSystem ths d [])).
  { split; [apply (Hset (SocketId_from 0))|]. cbn [threads rx]. intros sid th Hth. destruct Hready as [Hch _]. rewrite Hch. split; [|apply Forall_nil_2].
    eapply bound_more; [|apply (Hset sid)]. intros b. apply payload_more. set_solver. }
  intros sid th m Hth Hm. assert (Hin : sid ∈ dom (threads (mkSystem ths d []))) by (cbn [threads]; rewrite <- Hdom; by eapply elem_of_dom_2).
  apply elem_of_dom in Hin as [th0 Hth0].
  destruct (sys_sent _ _ base _ _ _ (sys_start_ok _ _ _ Hok Hready) Hstart Hfresh Har Hall Hgo sid th0 Hth0) as (th' & Hth' & _ & Hhand).
  rewrite Hth in Hth'. injection Hth' as <-. apply elem_of_app in Hm as [Hm|Hm].
  - destruct (Hset sid) as (_ & _ & Hh). unfold ins_G in Hh. rewrite Forall_forall in Hh. destruct (Hh m Hm) as (m0 & Hm0 & <-). exists m0.
    split; [|done]. apply elem_of_app. by left.
  - unfold ins_G in Hhand. rewrite Forall_forall in Hhand. destruct (Hhand m Hm) as (m0 & Hm0 & <-). by exists m0.
Qed.

End runs.

(** ** An example: a PUSH socket that holds a message until its pipe takes messages,
    and a PULL socket beside it *)

Inductive ex_line : Type := ExLine.
Definition ex_line_raise (evt : PipeEvent) : Q () := emit (AsyncPipe.Raise evt).
#[local] Instance ex_lines : PipeTrait ex_line := {|
  pipe_ready _ p := ex_line_raise (AsyncPipe.CanSend true);; mret p;
  pipe_open p := ex_line_raise Opened;; mret p;
  pipe_close p := ex_line_raise AsyncPipe.Closed;; mret p;
  pipe_send _ p := ex_line_raise Sent;; mret p;
  pipe_recv p := mret p
|}.
#[local] Instance ex_line_acceptors : AcceptorTrait ex_line () := {|
  acceptor_ready _ a := mret a; acceptor_open a := mret a; acceptor_close a := mret a |}.
#[local] Instance ex_line_transport : Transport () ex_line () () := {|
  transport_connect _ _ n := (Ok ExLine, n); transport_bind _ _ n := (Ok (), n) |}.
#[local] Existing Instances ex_build ex_order.

Definition ex_line_start : @Dispatcher () ex_line () () ListTimer N (Push.Push + Pull.Pull) :=
  Dispatcher_new {[ "ex" := () ]} (mkListTimer 0 ∅ ∅) ().
Definition ex_line_setup : list (rx_input (T := Push.Push + Pull.Pull)) :=
  [ Arrive [ForSession (CreateSocket (inl Push.Push_from)); ForSession (CreateSocket (inr Pull.Pull_from))]; TurnChannel; TurnChannel ].
Definition ex_line_ready : @Dispatcher () ex_line () () ListTimer N (Push.Push + Pull.Pull) :=
  match rx_run ex_line_setup ex_line_start [] with Done d _ => d | Panicked => ex_line_start end.
Definition ex_line_threads : gmap SocketId (Thread (T := Push.Push + Pull.Pull)) :=
  <[SocketId_from 0 := Thread_new (mkFacadeSocket (SocketId_from 0)) [OpConnect "ex://there"; OpSend (from_body [7]); OpTrySend (from_body [8])] true]>
  {[SocketId_from 1 := Thread_new (mkFacadeSocket (SocketId_from 1)) [OpTrySend (from_body [9])] false]}.
Definition ex_line_inputs : list (sys_input (T := Push.Push + Pull.Pull)) :=
  let a := ThreadStep (SocketId_from 0) in
  let b := ThreadStep (SocketId_from 1) in
  let io := ReactorStep TurnBus in
  let rq := ReactorStep TurnChannel in
  [a; a; b; rq; a; b; a; io; io; a; rq; a; a; b; rq; io; io;
   ReactorStep (TurnIo (EndpointId_from 2) (mkReady true true false false));
   io; io; io; io; io; a; a; a; a; rq; io; io; io; a; a; b; b; a; a].

Lemma application_sends_witness :
  let pushed := SocketId_from 0 in
  let handed := along (handed_in pushed) ex_line_setup ex_line_start [] ++ sys_handed pushed ex_line_inputs (mkSystem ex_line_threads ex_line_ready []) in
  ∃ s th, sys_run ex_line_inputs (mkSystem ex_line_threads ex_line_ready []) = Some s ∧ threads s !! pushed = Some th ∧
    handed = [from_body [7]] ∧
    along (asked_in pushed) ex_line_setup ex_line_start [] ++ asked_by th = [from_body [7]; from_body [8]] ∧
    ∀ m, m ∈ handed → ∃ m0, m0 ∈ along (asked_in pushed) ex_line_setup ex_line_start [] ++ asked_by th ∧ body m = body m0.
Proof.
  intros pushed handed. destruct (application_sends {[ "ex" := () ]} (mkListTimer 0 ∅ ∅) () ex_line_setup ex_line_ready
    (match rx_run ex_line_setup ex_line_start [] with Done _ o => o | Panicked => [] end) ex_line_threads ex_line_inputs) as (s & Hrun & Hths).
  - reflexivity.
  - unfold ex_line_setup. repeat constructor; [exact Push.Push_from_inv|exact Pull.Pull_from_inv].
  - vm_compute. reflexivity.
  - vm_compute. reflexivity.
  - split; [vm_compute; reflexivity|]. intros sid th Hth. unfold ex_line_threads in Hth.
    apply lookup_insert_Some in Hth as [[<- <-]|[_ Hth]]; [|apply lookup_singleton_Some in Hth as [<- <-]];
      (split; [eexists; reflexivity|]); (split; [vm_compute; by intros ?|]); (split; [vm_compute; by eexists|vm_compute; reflexivity]).
  - repeat constructor.
  - vm_compute. reflexivity.
  - repeat constructor.
  - repeat constructor.
  - assert (Hth : asked_by <$> (threads s !! pushed) = Some [from_body [7]; from_body [8]]).
    { transitivity (asked_by <$>
        (match sys_run ex_line_inputs (mkSystem ex_line_threads ex_line_ready []) with Some s => threads s !! pushed | None => None end));
        [by rewrite Hrun|vm_compute; reflexivity]. }
    destruct (threads s !! pushed) as [th|] eqn:Hs; [|discriminate]. cbn [fmap option_fmap option_map] in Hth. injection Hth as Hth.
    exists s, th. split; [exact Hrun|]. split; [exact Hs|]. split; [vm_compute; reflexivity|].
    split; [|intros m; exact (Hths _ _ m Hs)]. rewrite Hth. vm_compute. reflexivity.
Defined.
