(* ===== verification/Loopback.v ===== *)
(** * A machine to run the library on

    The programs of src/test run the whole library: the facade, the thread of the
    reactor, the protocols, and pipes over the sockets of the operating system.
    Here they run on the model: the operating system is a loop back, whose lines
    carry what is written at one end to the other, a window at a time, and whose
    poll is level triggered; the threads of a program go in turns with the reactor,
    and time passes when nothing else can happen.

    The loop back and the turns are of this file's making, in the place of the
    operating system; all the rest is the model of the library, as it is. *)

From S2P Require Import Prelude Core Context Codec Protocol Socket Probe Device Session.
From S2P Require Import Stream Framing Tcp Ipc AsyncPipe Acceptor Adapter Dispatcher Facade Tenants Timers.

(** ** The operating system *)

(** The addresses that are listened to, the calls not yet answered, and the lines:
    line [n] has ends [2 * n], that called, and [2 * n + 1]. *)
Record Lines : Type := mkLines { bound : list string; dialed : list (string * nat); lines : nat }.

(** What a line holds before it is read; it is writable when half of it is free. *)
Definition window : nat := 2048.
Definition low_water : nat := 1024.

Definition refused : io_error := mk_io_error (KUnlisted 111) "Connection refused".

Definition line_connect (a : string) (net : Lines) : result nat * Lines :=
  if bool_decide (a ∈ bound net)
  then (Ok (2 * lines net)%nat, mkLines (bound net) (dialed net ++ [(a, S (2 * lines net))]) (S (lines net)))
  else (Err refused, net).

Definition line_bind {X} (listener : X) (a : string) (net : Lines) : result X * Lines :=
  if bool_decide (a ∈ bound net) then (Err (mk_io_error (KUnlisted 98) "Address already in use"), net)
  else (Ok listener, mkLines (a :: bound net) (dialed net) (lines net)).

#[local] Instance loopback_os : Os Lines nat := {|
  SocketAddr := string;
  from_str a := if bool_decide (a = "") then None else Some a;
  TcpStream_connect := line_connect;
  TcpListener_bind := line_bind (mkTcpListener []);
  UnixStream_connect := line_connect;
  UnixListener_bind := line_bind (mkUnixListener []);
  is_socket _ _ := Ok false;
  remove_file _ net := (Ok (), net);
  nodelay _ s := Ok s;
  carried _ := (mkSink [Ok window] [], mkSource [])
|}.

(** ** TCP and IPC side by side

    [Box<dyn Pipe>] and [Box<dyn Acceptor>], each with its end of a line or its address. *)

Definition tcp_pipe : PipeTrait (AsyncPipe PipeStub) := AsyncPipe_pipe (H := TcpPipeStub_stub (H := be_ref) (HV := iovec_ref)).
Definition ipc_pipe : PipeTrait (AsyncPipe PipeStub) := AsyncPipe_pipe (H := IpcPipeStub_stub (H := be_ref)).

Record Wire : Type := mkWire { wire_end : nat; over_ipc : bool; wire_pipe : AsyncPipe PipeStub }.

Definition on_wire (f : PipeTrait (AsyncPipe PipeStub) → AsyncPipe PipeStub → Q (AsyncPipe PipeStub)) (w : Wire) : Q Wire :=
  p ← f (if over_ipc w then ipc_pipe else tcp_pipe) (wire_pipe w);
  mret (mkWire (wire_end w) (over_ipc w) p).

#[local] Instance wires : PipeTrait Wire := {|
  pipe_ready events := on_wire (λ P, pipe_ready (PipeTrait := P) events);
  pipe_open := on_wire (λ P, pipe_open (PipeTrait := P));
  pipe_close := on_wire (λ P, pipe_close (PipeTrait := P));
  pipe_send msg := on_wire (λ P, pipe_send (PipeTrait := P) msg);
  pipe_recv := on_wire (λ P, pipe_recv (PipeTrait := P))
|}.

Record Door : Type := mkDoor { door_addr : string; door : TcpAcceptor (Str := nat) + IpcAcceptor (Str := nat) }.

(** The lines an acceptor is about to answer. *)
Definition callers (d : Door) : list nat :=
  match door d with
  | inl a => omap (λ r, match r with Ok s => Some s | Err _ => None end) (backlog (listener a))
  | inr a => omap (λ r, match r with Ok s => s | Err _ => None end) (unix_backlog (ipc_listener a))
  end.

Definition door_effect (ipc : bool) (ends : list nat) (e : acceptor_effect (AsyncPipe PipeStub)) : acceptor_effect Wire :=
  match e with
  | AcceptorRegister i opt => AcceptorRegister i opt
  | AcceptorDeregister => AcceptorDeregister
  | AcceptorRaise AcceptorOpened => AcceptorRaise AcceptorOpened
  | AcceptorRaise AcceptorClosed => AcceptorRaise AcceptorClosed
  | AcceptorRaise (Accepted pipes) => AcceptorRaise (Accepted (zip_with (λ n p, mkWire n ipc p) ends pipes))
  | AcceptorRaise (AcceptorError e) => AcceptorRaise (AcceptorError e)
  end.

Definition through {A} (ipc : bool) (d : Door) (wrap : A → TcpAcceptor (Str := nat) + IpcAcceptor (Str := nat))
    (m : Am (AsyncPipe PipeStub) A) : Am Wire Door := λ _,
  match m [] with
  | Done a out => Done (mkDoor (door_addr d) (wrap a)) (door_effect ipc (callers d) <$> out)
  | Panicked => Panicked
  end.

Definition on_door (tcp : TcpAcceptor (Str := nat) → Am (AsyncPipe PipeStub) (TcpAcceptor (Str := nat)))
    (ipc : IpcAcceptor (Str := nat) → Am (AsyncPipe PipeStub) (IpcAcceptor (Str := nat))) (d : Door) : Am Wire Door :=
  match door d with
  | inl a => through false d inl (tcp a)
  | inr a => through true d inr (ipc a)
  end.

#[local] Instance doors : AcceptorTrait Wire Door := {|
  acceptor_ready events := on_door (TcpAcceptor_ready nodelay carried events) (IpcAcceptor_ready carried events);
  acceptor_open := on_door TcpAcceptor_open IpcAcceptor_open;
  acceptor_close := on_door TcpAcceptor_close IpcAcceptor_close
|}.

(** [Box<dyn Transport>]; [Subway] is the one of src/test/test.rs. *)
Inductive AnyTransport : Type := Tcp | Ipc | Subway.

Definition dialing (ipc : bool) (net : Lines) (r : result (AsyncPipe PipeStub) * Lines) : result Wire * Lines :=
  (match r.1 with Ok p => Ok (mkWire (2 * lines net) ipc p) | Err e => Err e end, r.2).
Definition binding {A} (wrap : A → TcpAcceptor (Str := nat) + IpcAcceptor (Str := nat)) (a : string) (r : result A * Lines)
    : result Door * Lines :=
  (match r.1 with Ok x => Ok (mkDoor a (wrap x)) | Err e => Err e end, r.2).

Definition Subway_connect {A} (net : Lines) : result A * Lines := (Err (other_io_error "test only"), net).

#[local] Instance any_transport : Transport AnyTransport Wire Door Lines := {|
  transport_connect tr dest net :=
    match tr with
    | Tcp => dialing false net (Tcp_connect dest net)
    | Ipc => dialing true net (Ipc_connect dest net)
    | Subway => Subway_connect net
    end;
  transport_bind tr dest net :=
    match tr with
    | Tcp => binding inl (addr dest) (Tcp_bind dest net)
    | Ipc => binding inr (addr dest) (Ipc_bind dest net)
    | Subway => Subway_connect net
    end
|}.

(** ** Carrying *)

Abbreviation Tm := ListTimer.
Abbreviation Rx := (@Dispatcher AnyTransport Wire Door Lines Tm N AnyProtocol).
Abbreviation Wd := (@World AnyTransport Wire Door Lines Tm N).

Definition state_stub (s : PipeState PipeStub) : option PipeStub :=
  match s with
  | Initial s _ | HandshakeTx s _ | HandshakeRx s _ => Some s
  | Live a => Some (stub a)
  | Dead => None
  end.
Definition wire_stub (w : Wire) : option PipeStub := pipe_state (wire_pipe w) ≫= state_stub.

Definition with_wire_stub (f : PipeStub → PipeStub) (w : Wire) : Wire :=
  mkWire (wire_end w) (over_ipc w) (mkAsyncPipe ((λ s, match s with
    | Initial s p => Initial (f s) p
    | HandshakeTx s p => HandshakeTx (f s) p
    | HandshakeRx s p => HandshakeRx (f s) p
    | Live a => Live (mkActive (f (stub a)) (can_send_msg a) (can_recv_msg a))
    | Dead => Dead
    end) <$> pipe_state (wire_pipe w))).

(** The other end of the line. *)
Definition peer (n : nat) : nat := if Nat.even n then S n else pred n.

Definition all_wires (w : Wd) : list Wire := (λ c, pc_pipe c.2) <$> map_to_list (ep_pipes (endpoints w)).
Definition wire_at (n : nat) (w : Wd) : option Wire := head (filter (λ x, wire_end x = n) (all_wires w)).
Definition stub_at (n : nat) (w : Wd) : option PipeStub := wire_at n w ≫= wire_stub.

(** An end that was closed: the other one hangs up once it read what was sent. *)
Definition gone (n : nat) (w : Wd) : bool :=
  match wire_at n w with Some x => bool_decide (wire_stub x = None) | None => false end.

Definition unread (s : PipeStub) : nat := length (pending_bytes (source s)).

(** An end takes what the other wrote when it read all it had; the other may then
    write a window more. *)
Definition takes (n : nat) (w : Wd) : bytes :=
  match stub_at n w, stub_at (peer n) w with
  | Some mine, Some theirs => if bool_decide (unread mine = 0%nat) then sent (sink theirs) else []
  | _, _ => []
  end.

Definition refresh (w : Wd) (n : nat) (s : PipeStub) : PipeStub :=
  let got := takes n w in
  let left := match takes (peer n) w with [] => sent (sink s) | _ => [] end in
  let room := (window - length left)%nat in
  with_sink (with_source s (mkSource (arrivals (source s) ++ match got with [] => [] | _ => [Ok got] end)))
    (mkSink (if bool_decide (room = 0%nat) then [] else [Ok room]) left).

(** The calls that wait for an acceptor reach it. *)
Definition answer_calls (calls : list (string * nat)) (d : Door) : Door :=
  let mine := omap (λ c, if bool_decide (c.1 = door_addr d) then Some c.2 else None) calls in
  mkDoor (door_addr d) (match door d with
    | inl a => inl (mkTcpAcceptor (mkTcpListener (backlog (listener a) ++ (Ok <$> mine))) (proto_ids a) (no_delay a) (acceptor_max a))
    | inr a => inr (mkIpcAcceptor (mkUnixListener (unix_backlog (ipc_listener a) ++ (Ok ∘ Some <$> mine))) (ipc_proto_ids a) (ipc_max a))
    end).

Definition carry (w : Wd) : Wd :=
  let eps := endpoints w in
  let pipes := (λ c, mkPipeController (pc_socket_id c) (pc_endpoint_id c)
    (with_wire_stub (refresh w (wire_end (pc_pipe c))) (pc_pipe c))) <$> ep_pipes eps in
  let acceptors := (λ c, mkAcceptorController (ac_socket_id c) (ac_endpoint_id c)
    (answer_calls (dialed (net w)) (ac_acceptor c))) <$> ep_acceptors eps in
  with_net (mkLines (bound (net w)) [] (lines (net w)))
    (with_endpoints (ids w) (mkEndpointCollection (transports eps) pipes acceptors) w).

Definition carries (w : Wd) : bool :=
  negb (bool_decide (dialed (net w) = [])) || existsb (λ x, negb (bool_decide (takes (wire_end x) w = []))) (all_wires w).

(** ** The poll *)

Definition pipe_readiness (w : Wd) (x : Wire) : Ready :=
  match wire_stub x with
  | Some s =>
      let over := gone (peer (wire_end x)) w in
      mkReady (negb (bool_decide (arrivals (source s) = [])) || over) (bool_decide (low_water <= window - length (sent (sink s)))%nat)
        (over && bool_decide (arrivals (source s) = [])) false
  | None => mkReady false false false false
  end.

Definition asked_for (interest events : Ready) : Ready :=
  mkReady (is_readable interest && is_readable events) (is_writable interest && is_writable events)
    (is_hup interest && is_hup events) (is_error interest && is_error events).

Definition endpoint_readiness (eid : EndpointId) (w : Wd) : Ready :=
  match ep_pipes (endpoints w) !! eid, ep_acceptors (endpoints w) !! eid with
  | Some c, _ => pipe_readiness w (pc_pipe c)
  | None, Some c => mkReady (negb (bool_decide (callers (ac_acceptor c) = []))) false false false
  | None, None => mkReady false false false false
  end.

Definition any_ready (r : Ready) : bool := is_readable r || is_writable r || is_hup r || is_error r.

(** What the endpoints asked of the poll, after they asked more. *)
Definition watch (watched : gmap EndpointId Ready) (e : rx_effect) : gmap EndpointId Ready :=
  match e with
  | PollRegister eid interest _ | PollReregister eid interest _ => <[eid := interest]> watched
  | PollDeregister eid => delete eid watched
  | _ => watched
  end.

Definition io_events (watched : gmap EndpointId Ready) (w : Wd) : list (Z * Ready) :=
  omap (λ x, let r := asked_for x.2 (endpoint_readiness x.1 w) in
    if any_ready r then Some (EndpointId_into x.1, r) else None) (map_to_list watched).

Definition readable : Ready := mkReady true false false false.

(** ** Programs

    A thread of a test: calls of the facade, each with what is done with its result,
    sleeps, and threads that it spawns and joins. *)

Abbreviation C A := (client AnyProtocol A).

Inductive script : Type :=
| Finish
| Failed (why : string)
| Call {B : Type} (c : C B) (k : B → script)
| Sleep (d : Duration) (k : script)
| Spawn (p : script) (k : script)
| Join (k : script).

(** What is done in a thread, given what is done next. *)
Definition act (A : Type) : Type := (A → script) → script.
#[export] Instance act_ret : MRet act := λ A a k, k a.
#[export] Instance act_bind : MBind act := λ A B f m k, m (λ a, f a k).

(** A result may be [unwrap]ped, or its error; or it is let go, as in [let _ = ..]. *)
Definition unwrap {A} (c : C (result A)) : act A := λ k,
  Call c (λ r, match r with Ok a => k a | Err e => Failed (err_msg e) end).
Definition unwrap_err {A} (c : C (result A)) : act io_error := λ k,
  Call c (λ r, match r with Ok _ => Failed "an error was expected" | Err e => k e end).
Definition run {A} (c : C A) : act A := Call c.
Definition assert (b : bool) : act () := λ k, if b then k () else Failed "assertion failed".
Definition sleep (d : Duration) : act () := λ k, Sleep d (k ()).
Definition spawn (p : act ()) : act () := λ k, Spawn (p (λ _, Finish)) (k ()).
Definition join : act () := λ k, Join (k ()).

(** A thread, and until when it sleeps. *)
Record Runner : Type := mkRunner { wakes : option Z; todo : script }.

(** [letters]: the replies that were not taken from their channels. *)
Record Bench : Type := mkBench {
  reactor : Rx;
  rx_history : list rx_effect;
  requests : list (rx_request AnyProtocol);
  letters : list rx_effect;
  watched : gmap EndpointId Ready;
  runners : list Runner;
  now : Z
}.

#[local] Instance machine : Build := {| overflow_checks := true |}.
#[local] Instance machine_order : HashOrder := {|
  order_set _ s := elements s; order_map _ _ m := map_to_list m;
  order_set_perm _ _ := reflexivity _; order_map_perm _ _ _ := reflexivity _ |}.
#[local] Existing Instance be_ref.

(** [SessionBuilder]: the thread is started. *)
Definition make_bench (trs : gmap string AnyTransport) (main : script) : Bench :=
  let d := Dispatcher_new trs (mkListTimer 0 ∅ ∅) (mkLines [] [] 0) in
  let started := match Dispatcher_run (Ok (), Ok (), Ok ()) 1 [] d [] with Done (_, d) _ => d | Panicked => d end in
  mkBench started [] [] [] ∅ [mkRunner None main] 0.

(** *** A thread *)

Fixpoint take_letter {A} (f : rx_effect → option A) (letters : list rx_effect) : option (A * list rx_effect) :=
  match letters with
  | [] => None
  | e :: rest =>
      match f e with
      | Some a => Some (a, rest)
      | None => '(a, rest) ← take_letter f rest; Some (a, e :: rest)
      end
  end.

(** What a channel gives: a reply, its end once who replies is [over], or nothing yet. *)
Definition channel_gives {A} (f : rx_effect → option A) (over : bool) (b : Bench) : option (option A * list rx_effect) :=
  match take_letter f (letters b) with
  | Some (a, rest) => Some (Some a, rest)
  | None => if over then Some (None, letters b) else None
  end.

Definition stopped (b : Bench) : bool := negb (running (reactor b)).
Definition reply_for (sid : SocketId) (e : rx_effect) : option Reply :=
  match e with ToSocket s r => if bool_decide (s = sid) then Some r else None | _ => None end.
Definition device_reply_for (did : DeviceId) (e : rx_effect) : option DeviceReply :=
  match e with ToDevice d r => if bool_decide (d = did) then Some r else None | _ => None end.
Definition probe_reply_for (pid : ProbeId) (e : rx_effect) : option ProbeReply :=
  match e with ToProbe p r => if bool_decide (p = pid) then Some r else None | _ => None end.
Definition session_reply (e : rx_effect) : option SessionReply := match e with ToSession r => Some r | _ => None end.
Definition absent {X} (x : option X) : bool := match x with None => true | Some _ => false end.

Definition with_letters (l : list rx_effect) (b : Bench) : Bench :=
  mkBench (reactor b) (rx_history b) (requests b) l (watched b) (runners b) (now b).

(** A step of a call: [None] when it waits. *)
Definition step_client {A} (c : C A) (b : Bench) : option (C A * Bench) :=
  let receiving {R} (f : rx_effect → option R) (over : bool) (k : option R → C A) :=
    '(r, l) ← channel_gives f (over || stopped b) b; Some (k r, with_letters l b) in
  match c with
  | Return a => None
  | SendRequest req k =>
      if stopped b then Some (k (Some Disconnected), b)
      else Some (k None, mkBench (reactor b) (rx_history b) (requests b ++ [req]) (letters b) (watched b) (runners b) (now b))
  | AwaitSession k => receiving session_reply false k
  | AwaitSocket sid k => receiving (reply_for sid) (absent (get_socket_mut sid (session (reactor b)))) k
  | AwaitDevice did k => receiving (device_reply_for did) (absent (get_device_mut did (session (reactor b)))) k
  | AwaitProbe pid k => receiving (probe_reply_for pid) (absent (get_probe_mut pid (session (reactor b)))) k
  end.

Definition finished (r : Runner) : bool := match todo r with Finish => true | _ => false end.

(** A step of the script of thread [i]: what is left of it, the threads it spawned
    and the rest; [None] when it waits. *)
Definition step_script (i : nat) (s : script) (b : Bench) : option (Runner * list Runner * Bench) :=
  match s with
  | Finish | Failed _ => None
  | Call (Return a) k => Some (mkRunner None (k a), [], b)
  | Call c k => '(c, b) ← step_client c b; Some (mkRunner None (Call c k), [], b)
  | Sleep d k => Some (mkRunner (Some (now b + d)) k, [], b)
  | Spawn p k => Some (mkRunner None k, [mkRunner None p], b)
  | Join k => if forallb finished (delete i (runners b)) then Some (mkRunner None k, [], b) else None
  end.

Definition step_runner (i : nat) (b : Bench) : option Bench :=
  r ← runners b !! i;
  if bool_decide (default 0 (wakes r) <= now b) then
    '(r, more, b) ← step_script i (todo r) b;
    Some (mkBench (reactor b) (rx_history b) (requests b) (letters b) (watched b) (<[i := r]> (runners b) ++ more) (now b))
  else None.

(** Each thread makes a step, if it can; whether one did. *)
Definition step_runners (b : Bench) : bool * Bench :=
  foldl (λ acc i, match step_runner i acc.2 with Some b => (true, b) | None => acc end) (false, b) (seq 0 (length (runners b))).

(** *** The reactor *)

Definition due_now (b : Bench) : bool :=
  existsb (λ e, bool_decide (e.2.1 <= now b)) (map_to_list (due (timer (world (reactor b))))).

Definition poll_answer (b : Bench) : PollAnswer (T := AnyProtocol) :=
  let w := world (reactor b) in
  mkPollAnswer (requests b) (now b) (Ok (
    io_events (watched b) w ++
    (if bool_decide (requests b = []) then [] else [(CHANNEL_TOKEN, readable)]) ++
    (if bool_decide (readiness (signal_tx w) = Some true) then [(BUS_TOKEN, readable)] else []) ++
    (if due_now b then [(TIMER_TOKEN, readable)] else []))).

Definition set_clock (t : Z) (d : Rx) : Rx :=
  let w := world d in
  let tm := timer w in
  set_world (with_schedule (schedule w) (mkListTimer t (due tm) (rung tm)) w) d.

(** A turn of the event loop, after the lines carried; whether anything happened. *)
Definition turn (b : Bench) : option (bool * Bench) :=
  if stopped b then Some (false, b)
  else
    let moves := carries (world (reactor b)) in
    let d := set_clock (now b) (set_world (carry (world (reactor b))) (reactor b)) in
    let b := mkBench d (rx_history b) (requests b) (letters b) (watched b) (runners b) (now b) in
    let answer := poll_answer b in
    match run_once 1000 answer d (rx_history b) with
    | Panicked => None
    | Done (_, d) out =>
        let happened := moves || negb (bool_decide (arrived answer = [])) || negb (bool_decide (out = [])) ||
          due_now b || bool_decide (readiness (signal_tx (world d)) = Some true) ||
          bool_decide (readiness (signal_tx (world (reactor b))) = Some true) in
        Some (happened, mkBench d (rx_history b ++ out) [] (letters b ++ out) (foldl watch (watched b) out) (runners b) (now b))
    end.

(** *** Time *)

Definition next_time (b : Bench) : option Z :=
  let wakings := omap wakes (runners b) ++ ((λ e, e.2.1) <$> map_to_list (due (timer (world (reactor b))))) in
  match filter (λ t, now b < t) wakings with
  | [] => None
  | t :: ts => Some (foldr Z.min t ts)
  end.

Inductive verdict : Type :=
| Passed
| AssertFailed (why : string)
| ReactorPanicked
| Stuck
| OutOfFuel.

Definition failure (b : Bench) : option string :=
  head (omap (λ r, match todo r with Failed why => Some why | _ => None end) (runners b)).

(** A test ends with its main thread, the first one. *)
Fixpoint exercise (fuel : nat) (b : Bench) : verdict * Bench :=
  match fuel with
  | O => (OutOfFuel, b)
  | S fuel =>
      match failure b with
      | Some why => (AssertFailed why, b)
      | None =>
          if from_option finished false (head (runners b)) then (Passed, b)
          else
            let '(stepped, b) := step_runners b in
            match turn b with
            | None => (ReactorPanicked, b)
            | Some (happened, b) =>
                if stepped || happened then exercise fuel b
                else match next_time b with
                     | Some t => exercise fuel (mkBench (reactor b) (rx_history b) (requests b) (letters b) (watched b) (runners b) t)
                     | None => (Stuck, b)
                     end
            end
      end
  end.

Definition make_session : gmap string AnyTransport :=
  SessionBuilder_with "ipc" Ipc (SessionBuilder_with "tcp" Tcp SessionBuilder_new).

Definition trial (main : act ()) : verdict * Bench := exercise 5000 (make_bench make_session (main (λ _, Finish))).
Definition verdict_of (main : act ()) : verdict := (trial main).1.
