(* ===== verification/IntegrationTests.v ===== *)
(** * The integration tests (src/test), on the whole model

    One module per file of src/test, one program per test, line by line: [x ← unwrap c]
    is [let x = c.unwrap()], or [expect]; [run] lets the result go.  The locals that
    are dropped when a test ends are, except those a thread takes with it, left as
    they are: nothing looks at them any more.  The barriers of the tests of devices
    make a thread wait for its start, and are left out. *)

From S2P Require Import Prelude Core Context Codec Protocol Socket Probe Device Session.
From S2P Require Import Adapter Dispatcher Facade Tenants Loopback.

(** ** test.rs *)

Definition SYS_TIMEOUT : Z := 300.
Definition sleep_some : act () := sleep (from_millis SYS_TIMEOUT).
Definition make_hard_timeout : Duration := from_millis SYS_TIMEOUT.
Definition make_timeout : option Duration := Some make_hard_timeout.

(** [urls::tcp::get] and [urls::ipc::get], given the port and the number that are drawn. *)
Definition tcp_get (port : string) : string := ("tcp://127.0.0.1:" ++ port)%string.
Definition ipc_get (num : string) : string := ("ipc:///tmp/named-pipe_" ++ num)%string.

Definition assert_eq {A} `{EqDecision A} (x y : A) : act () := assert (bool_decide (x = y)).

(** What [create_socket::<T>] makes. *)
Definition Push : AnyProtocol := inl (inl (inl (inl (inl (inl (inl (inl (inl Push.Push_from)))))))).
Definition Pull : AnyProtocol := inl (inl (inl (inl (inl (inl (inl (inl (inr Pull.Pull_from)))))))).
Definition Sub : AnyProtocol := inl (inl (inl (inl (inl (inl (inl (inr Sub.Sub_from))))))).
Definition Bus : AnyProtocol := inl (inl (inl (inl (inl (inl (inr Bus.Bus_from)))))).
Definition Pub : AnyProtocol := inl (inl (inl (inl (inl (inr Publ.Pub_from))))).
Definition Pair : AnyProtocol := inl (inl (inl (inl (inr Pair.Pair_from)))).
Definition Req : AnyProtocol := inl (inl (inl (inr (Req.Req_from 7)))).
Definition Rep : AnyProtocol := inl (inl (inr Rep.Rep_from)).
Definition Respondent : AnyProtocol := inl (inr Resp.Respondent_from).
Definition Surveyor : AnyProtocol := inr (Surv.Surveyor_from 7).

Definition drop_session : act () := run FacadeSession_drop.

(** The thread of a device: [device.run()] ends on an error. *)
Definition device_thread (device : FacadeDevice) : act () :=
  res ← run (FacadeDevice_run 100 device);
  assert (bool_decide (is_Some res)).

(** ** pipeline.rs *)

Module pipeline.

Definition before_each : act (FacadeSocket * FacadeSocket * string) :=
  push ← unwrap (create_socket Push);
  pull ← unwrap (create_socket Pull);
  let url := tcp_get "18080" in
  let timeout := make_timeout in
  unwrap (set_send_timeout timeout push);;
  unwrap (set_recv_timeout timeout pull);;
  mret (push, pull, url).

Definition send_a_message_through_local_endpoint : act () :=
  '(push, pull, url) ← before_each;
  unwrap (bind url push);;
  unwrap (connect url pull);;
  let sent := [65; 66; 67] in
  unwrap (send sent push);;
  received ← unwrap (recv pull);
  assert_eq [65; 66; 67] received;;
  drop_session.

Definition send_a_message_through_remote_endpoint : act () :=
  '(push, pull, url) ← before_each;
  unwrap (bind url pull);;
  unwrap (connect url push);;
  let sent := [65; 66; 67] in
  unwrap (send sent push);;
  received ← unwrap (recv pull);
  assert_eq [65; 66; 67] received;;
  drop_session.

End pipeline.

(** ** pair.rs *)

Module pair.

Definition before_each : act (FacadeSocket * FacadeSocket * string) :=
  left ← unwrap (create_socket Pair);
  right ← unwrap (create_socket Pair);
  let url := ipc_get "42" in
  let timeout := make_timeout in
  unwrap (set_send_timeout timeout left);;
  unwrap (set_recv_timeout timeout left);;
  unwrap (set_send_timeout timeout right);;
  unwrap (set_recv_timeout timeout right);;
  mret (left, right, url).

Definition send_a_message_through_local_endpoint : act () :=
  '(left, right, url) ← before_each;
  unwrap (bind url left);;
  sleep_some;;
  unwrap (connect url right);;
  sleep_some;;
  let sent := [65; 66; 67] in
  unwrap (send sent left);;
  received ← unwrap (recv right);
  assert_eq [65; 66; 67] received;;
  drop_session.

Definition send_a_message_through_remote_endpoint : act () :=
  '(left, right, url) ← before_each;
  unwrap (bind url right);;
  sleep_some;;
  unwrap (connect url left);;
  sleep_some;;
  let sent := [65; 66; 67] in
  unwrap (send sent left);;
  received ← unwrap (recv right);
  assert_eq [65; 66; 67] received;;
  drop_session.

Definition send_a_message_back_and_forth : act () :=
  '(left, right, url) ← before_each;
  unwrap (bind url left);;
  sleep_some;;
  unwrap (connect url right);;
  sleep_some;;
  let sent_ltr := [65; 66; 67] in
  unwrap (send sent_ltr left);;
  received_ltr ← unwrap (recv right);
  assert_eq [65; 66; 67] received_ltr;;
  let sent_rtl := [67; 66; 65] in
  unwrap (send sent_rtl right);;
  received_rtl ← unwrap (recv left);
  assert_eq [67; 66; 65] received_rtl;;
  drop_session.

End pair.

(** ** socket.rs *)

Module socket.

Definition before_each : act string :=
  mret (tcp_get "18080").

(** The loop; [None] of [fuel] left is a failure. *)
Fixpoint try_send_until_full (push : FacadeSocket) (fuel : nat) (sent : bool) : act () :=
  match fuel with
  | O => assert false
  | S fuel =>
      r ← run (try_send (replicate 512 6) push);
      match r with
      | Ok _ => try_send_until_full push fuel true
      | Err err => assert sent;; assert_eq KWouldBlock (err_kind err)
      end
  end.

Definition send_can_complete_when_initiated_before_any_connection : act () :=
  url ← before_each;
  push ← unwrap (create_socket Push);
  pull ← unwrap (create_socket Pull);
  let pull_url := url in
  spawn (
    sleep (from_millis 50);;
    unwrap (set_recv_timeout make_timeout pull);;
    unwrap (connect pull_url pull);;
    received ← unwrap (recv pull);
    assert_eq [65; 66; 67] received;;
    run (FacadeSocket_drop pull));;
  unwrap (set_send_timeout make_timeout push);;
  unwrap (bind url push);;
  unwrap (send [65; 66; 67] push);;
  join;;
  drop_session.

Definition send_should_return_an_error_when_timed_out : act () :=
  url ← before_each;
  push ← unwrap (create_socket Push);
  let timeout := Some (from_millis 50) in
  unwrap (bind url push);;
  unwrap (set_send_timeout timeout push);;
  err ← unwrap_err (send [65; 66; 67] push);
  assert_eq KTimedOut (err_kind err);;
  drop_session.

Definition recv_can_complete_when_initiated_before_any_connection : act () :=
  url ← before_each;
  push ← unwrap (create_socket Push);
  pull ← unwrap (create_socket Pull);
  let push_url := url in
  unwrap (set_recv_timeout make_timeout pull);;
  unwrap (bind url pull);;
  spawn (
    sleep (from_millis 50);;
    unwrap (set_send_timeout make_timeout push);;
    unwrap (connect push_url push);;
    unwrap (send [65; 66; 67] push);;
    sleep (from_millis 50);;
    run (FacadeSocket_drop push));;
  received ← unwrap (recv pull);
  assert_eq [65; 66; 67] received;;
  join;;
  drop_session.

Definition recv_should_return_an_error_when_timed_out : act () :=
  url ← before_each;
  push ← unwrap (create_socket Push);
  pull ← unwrap (create_socket Pull);
  let timeout := Some (from_millis 50) in
  unwrap (set_recv_timeout timeout pull);;
  unwrap (bind url pull);;
  unwrap (connect url push);;
  sleep_some;;
  err ← unwrap_err (recv pull);
  assert_eq KTimedOut (err_kind err);;
  drop_session.

Definition try_send_return_would_block_when_no_peer_is_connected : act () :=
  _ ← before_each;
  push ← unwrap (create_socket Push);
  err ← unwrap_err (try_send [65; 66; 67] push);
  assert_eq KWouldBlock (err_kind err);;
  drop_session.

Definition try_send_return_would_block_when_peer_buffer_is_full : act () :=
  _ ← before_each;
  push ← unwrap (create_socket Push);
  pull ← unwrap (create_socket Pull);
  let url := tcp_get "18081" in
  unwrap (bind url push);;
  unwrap (connect url pull);;
  sleep_some;;
  try_send_until_full push 100 false;;
  drop_session.

Definition try_recv_return_would_block_when_no_peer_is_connected : act () :=
  _ ← before_each;
  pull ← unwrap (create_socket Pull);
  err ← unwrap_err (try_recv pull);
  assert_eq KWouldBlock (err_kind err);;
  drop_session.

Definition try_recv_return_would_block_when_buffer_is_empty : act () :=
  _ ← before_each;
  push ← unwrap (create_socket Push);
  pull ← unwrap (create_socket Pull);
  let url := tcp_get "18081" in
  unwrap (bind url push);;
  unwrap (connect url pull);;
  sleep_some;;
  err ← unwrap_err (try_recv pull);
  assert_eq KWouldBlock (err_kind err);;
  drop_session.

Definition set_option_should_support_max_recv_size : act () :=
  _ ← before_each;
  req ← unwrap (create_socket Req);
  rep ← unwrap (create_socket Rep);
  unwrap (facade_set_option (RecvMaxSize 64) req);;
  unwrap (facade_set_option (RecvMaxSize 64) rep).

End socket.

(** ** reqrep.rs *)

Module reqrep.

Definition before_each : act (FacadeSocket * FacadeSocket * string) :=
  req ← unwrap (create_socket Req);
  rep ← unwrap (create_socket Rep);
  let url := tcp_get "18080" in
  let timeout := make_timeout in
  unwrap (set_send_timeout timeout req);;
  unwrap (set_send_timeout timeout rep);;
  unwrap (set_recv_timeout timeout req);;
  unwrap (set_recv_timeout timeout rep);;
  mret (req, rep, url).

Definition send_a_request_and_receive_a_reply : act () :=
  '(req, rep, url) ← before_each;
  unwrap (bind url rep);;
  unwrap (connect url req);;
  let sent_request := [65; 66; 67] in
  unwrap (send sent_request req);;
  received_request ← unwrap (recv rep);
  assert_eq [65; 66; 67] received_request;;
  let sent_reply := [66; 65; 67] in
  unwrap (send sent_reply rep);;
  received_reply ← unwrap (recv req);
  assert_eq [66; 65; 67] received_reply;;
  drop_session.

Definition refuse_to_receive_a_reply_before_sending_a_request : act () :=
  '(req, rep, url) ← before_each;
  unwrap (bind url rep);;
  unwrap (connect url req);;
  not_received ← unwrap_err (recv req);
  assert_eq KOther (err_kind not_received);;
  drop_session.

Definition refuse_to_send_a_reply_before_receiving_a_request : act () :=
  '(req, rep, url) ← before_each;
  unwrap (bind url rep);;
  unwrap (connect url req);;
  not_sent ← unwrap_err (send [66; 65; 67] rep);
  assert_eq KInvalidData (err_kind not_sent);;
  drop_session.

Definition resend_the_request_silently_when_the_timeout_is_reached : act () :=
  '(req, rep, url) ← before_each;
  let resend_ivl := from_millis 1000 in
  unwrap (bind url rep);;
  unwrap (connect url req);;
  unwrap (facade_set_option (ReqResendIvl resend_ivl) req);;
  let sent_request := [65; 66; 67] in
  unwrap (send sent_request req);;
  received_request1 ← unwrap (recv rep);
  assert_eq [65; 66; 67] received_request1;;
  sleep resend_ivl;;
  sleep (from_millis 100);;
  received_request2 ← unwrap (recv rep);
  assert_eq [65; 66; 67] received_request2;;
  let sent_reply := [66; 65; 67] in
  unwrap (send sent_reply rep);;
  received_reply ← unwrap (recv req);
  assert_eq [66; 65; 67] received_reply;;
  drop_session.

End reqrep.

(** ** pubsub.rs *)

Module pubsub.

Definition before_each : act (FacadeSocket * FacadeSocket * FacadeSocket * FacadeSocket) :=
  publ ← unwrap (create_socket Pub);
  sub1 ← unwrap (create_socket Sub);
  sub2 ← unwrap (create_socket Sub);
  sub3 ← unwrap (create_socket Sub);
  let timeout := make_timeout in
  unwrap (set_recv_timeout timeout sub1);;
  unwrap (set_recv_timeout timeout sub2);;
  unwrap (set_recv_timeout timeout sub3);;
  mret (publ, sub1, sub2, sub3).

Definition broadcast_a_message_through_local_endpoint : act () :=
  '(publ, sub1, sub2, sub3) ← before_each;
  let url := tcp_get "18080" in
  unwrap (bind url publ);;
  unwrap (connect url sub1);;
  unwrap (connect url sub2);;
  unwrap (connect url sub3);;
  unwrap (facade_set_option (Subscribe "A") sub1);;
  unwrap (facade_set_option (Subscribe "A") sub2);;
  unwrap (facade_set_option (Subscribe "A") sub3);;
  sleep_some;;
  let sent := [65; 66; 67] in
  unwrap (send sent publ);;
  received1 ← unwrap (recv sub1);
  received2 ← unwrap (recv sub2);
  received3 ← unwrap (recv sub3);
  assert_eq [65; 66; 67] received1;;
  assert_eq [65; 66; 67] received2;;
  assert_eq [65; 66; 67] received3;;
  drop_session.

Definition broadcast_a_message_through_remote_endpoint : act () :=
  '(publ, sub1, sub2, sub3) ← before_each;
  let url1 := tcp_get "18080" in
  let url2 := tcp_get "18081" in
  let url3 := tcp_get "18082" in
  unwrap (facade_set_option (Subscribe "A") sub1);;
  unwrap (facade_set_option (Subscribe "A") sub2);;
  unwrap (facade_set_option (Subscribe "A") sub3);;
  unwrap (bind url1 sub1);;
  unwrap (bind url2 sub2);;
  unwrap (bind url3 sub3);;
  unwrap (connect url1 publ);;
  unwrap (connect url2 publ);;
  unwrap (connect url3 publ);;
  sleep_some;;
  let sent := [65; 66; 67] in
  unwrap (send sent publ);;
  received1 ← unwrap (recv sub1);
  received2 ← unwrap (recv sub2);
  received3 ← unwrap (recv sub3);
  assert_eq [65; 66; 67] received1;;
  assert_eq [65; 66; 67] received2;;
  assert_eq [65; 66; 67] received3;;
  drop_session.

Definition ignores_messages_based_on_subscriptions : act () :=
  '(publ, sub1, sub2, sub3) ← before_each;
  let url := tcp_get "18080" in
  unwrap (bind url publ);;
  unwrap (connect url sub1);;
  unwrap (connect url sub2);;
  unwrap (connect url sub3);;
  unwrap (facade_set_option (Subscribe "A") sub1);;
  unwrap (facade_set_option (Subscribe "B") sub2);;
  unwrap (facade_set_option (Subscribe "A") sub3);;
  sleep_some;;
  let sent := [65; 66; 67] in
  unwrap (send sent publ);;
  received1 ← unwrap (recv sub1);
  not_received2 ← unwrap_err (recv sub2);
  received3 ← unwrap (recv sub3);
  assert_eq [65; 66; 67] received1;;
  assert_eq KTimedOut (err_kind not_received2);;
  assert_eq [65; 66; 67] received3;;
  drop_session.

End pubsub.

(** ** survey.rs *)

Module survey.

Definition before_each : act (FacadeSocket * FacadeSocket * FacadeSocket * string) :=
  surv ← unwrap (create_socket Surveyor);
  resp1 ← unwrap (create_socket Respondent);
  resp2 ← unwrap (create_socket Respondent);
  let url := tcp_get "18080" in
  let timeout := make_timeout in
  unwrap (set_recv_timeout timeout surv);;
  unwrap (set_send_timeout timeout resp1);;
  unwrap (set_recv_timeout timeout resp1);;
  unwrap (set_send_timeout timeout resp2);;
  unwrap (set_recv_timeout timeout resp2);;
  mret (surv, resp1, resp2, url).

Definition send_a_survey_and_receive_several_responses : act () :=
  '(surv, resp1, resp2, url) ← before_each;
  unwrap (bind url surv);;
  unwrap (connect url resp1);;
  unwrap (connect url resp2);;
  sleep_some;;
  let sent_survey := [65; 66; 67] in
  unwrap (send sent_survey surv);;
  received_survey1 ← unwrap (recv resp1);
  received_survey2 ← unwrap (recv resp2);
  assert_eq [65; 66; 67] received_survey1;;
  assert_eq [65; 66; 67] received_survey2;;
  let sent_response1 := [66; 67; 65] in
  let sent_response2 := [65; 67; 66] in
  unwrap (send sent_response1 resp1);;
  unwrap (send sent_response2 resp2);;
  unwrap (recv surv);;
  unwrap (recv surv);;
  drop_session.

Definition refuse_to_receive_a_response_before_sending_a_survey : act () :=
  '(surv, resp1, resp2, url) ← before_each;
  unwrap (bind url surv);;
  unwrap (connect url resp1);;
  unwrap (connect url resp2);;
  not_received ← unwrap_err (recv surv);
  assert_eq KOther (err_kind not_received);;
  drop_session.

Definition refuse_to_send_a_response_before_receiving_a_survey : act () :=
  '(surv, resp1, resp2, url) ← before_each;
  unwrap (bind url surv);;
  unwrap (connect url resp1);;
  unwrap (connect url resp2);;
  not_sent ← unwrap_err (send [66; 65; 67] resp1);
  assert_eq KInvalidData (err_kind not_sent);;
  drop_session.

End survey.

(** ** bus.rs *)

Module bus.

Definition before_each : act (FacadeSocket * FacadeSocket * FacadeSocket) :=
  bus1 ← unwrap (create_socket Bus);
  bus2 ← unwrap (create_socket Bus);
  bus3 ← unwrap (create_socket Bus);
  let timeout := make_timeout in
  unwrap (set_recv_timeout timeout bus1);;
  unwrap (set_recv_timeout timeout bus2);;
  unwrap (set_recv_timeout timeout bus3);;
  mret (bus1, bus2, bus3).

Definition broadcast_a_message_through_local_endpoint : act () :=
  '(bus1, bus2, bus3) ← before_each;
  let url := tcp_get "18080" in
  unwrap (bind url bus1);;
  unwrap (connect url bus2);;
  unwrap (connect url bus3);;
  sleep_some;;
  let sent := [65; 66; 67] in
  unwrap (send sent bus1);;
  received2 ← unwrap (recv bus2);
  received3 ← unwrap (recv bus3);
  assert_eq [65; 66; 67] received2;;
  assert_eq [65; 66; 67] received3;;
  drop_session.

Definition broadcast_a_message_through_remote_endpoint : act () :=
  '(bus1, bus2, bus3) ← before_each;
  let url2 := tcp_get "18080" in
  let url3 := tcp_get "18081" in
  unwrap (bind url2 bus2);;
  unwrap (bind url3 bus3);;
  unwrap (connect url2 bus1);;
  unwrap (connect url3 bus1);;
  sleep_some;;
  let sent := [65; 66; 67] in
  unwrap (send sent bus1);;
  received2 ← unwrap (recv bus2);
  received3 ← unwrap (recv bus3);
  assert_eq [65; 66; 67] received2;;
  assert_eq [65; 66; 67] received3;;
  drop_session.

Definition avoid_to_broadcast_back_to_originator : act () :=
  '(bus1, bus2, bus3) ← before_each;
  let url1 := tcp_get "18080" in
  let url2 := tcp_get "18081" in
  let url3 := tcp_get "18082" in
  unwrap (bind url1 bus1);;
  unwrap (bind url2 bus2);;
  unwrap (bind url3 bus3);;
  unwrap (connect url1 bus2);;
  unwrap (connect url3 bus2);;
  unwrap (connect url1 bus3);;
  sleep_some;;
  let sent := [65; 66; 67] in
  unwrap (send sent bus1);;
  unwrap (recv_msg bus2);;
  received3 ← unwrap (recv_msg bus3);
  sleep_some;;
  unwrap (send_msg received3 bus3);;
  not_received1 ← unwrap_err (recv bus1);
  received2 ← unwrap (recv bus2);
  assert_eq KTimedOut (err_kind not_received1);;
  assert_eq [65; 66; 67] received2;;
  drop_session.

End bus.

(** ** fair_queue.rs *)

Module fair_queue.

Definition when_activations_are_intertwined_with_recv : act () :=
  pull ← unwrap (create_socket Pull);
  let url := tcp_get "18080" in
  let timeout := make_timeout in
  push1 ← unwrap (create_socket Push);
  push2 ← unwrap (create_socket Push);
  push3 ← unwrap (create_socket Push);
  unwrap (bind url pull);;
  unwrap (connect url push1);;
  unwrap (connect url push2);;
  unwrap (connect url push3);;
  sleep_some;;
  unwrap (set_send_timeout timeout push1);;
  unwrap (set_send_timeout timeout push2);;
  unwrap (set_send_timeout timeout push3);;
  unwrap (set_recv_timeout timeout pull);;
  unwrap (send [65; 66; 67] push2);;
  received1 ← unwrap (recv pull);
  assert_eq [65; 66; 67] received1;;
  unwrap (send [67; 66; 65] push2);;
  received2 ← unwrap (recv pull);
  assert_eq [67; 66; 65] received2;;
  unwrap (send [66; 67; 65] push1);;
  received3 ← unwrap (recv pull);
  assert_eq [66; 67; 65] received3;;
  unwrap (send [66; 67; 68] push3);;
  received3 ← unwrap (recv pull);
  assert_eq [66; 67; 68] received3.

Definition when_activations_are_batched_before_several_recv : act () :=
  pull ← unwrap (create_socket Pull);
  let url := tcp_get "18080" in
  let timeout := make_timeout in
  push ← unwrap (create_socket Push);
  unwrap (bind url pull);;
  unwrap (connect url push);;
  unwrap (set_send_timeout timeout push);;
  unwrap (set_recv_timeout timeout pull);;
  sleep_some;;
  unwrap (send [65; 66; 67] push);;
  unwrap (send [67; 66; 65] push);;
  received1 ← unwrap (recv pull);
  assert_eq [65; 66; 67] received1;;
  received2 ← unwrap (recv pull);
  assert_eq [67; 66; 65] received2.

End fair_queue.

(** ** probe.rs *)

Module probe.

(** The length of the result, and whether each socket may recv and send. *)
Definition assert_readiness (expected : list (bool * bool)) (poll_result : list PollRes) : act () :=
  assert_eq expected ((λ r, (res_recv r, res_send r)) <$> poll_result).

Definition report_socket_readiness : act () :=
  let timeout := make_hard_timeout in
  push ← unwrap (create_socket Push);
  pull ← unwrap (create_socket Pull);
  let requests := [create_poll_req false true push; create_poll_req true false pull] in
  probe ← unwrap (create_probe requests);
  let url := tcp_get "18080" in
  unwrap (set_send_timeout make_timeout push);;
  unwrap (set_recv_timeout make_timeout pull);;
  unwrap (bind url push);;
  unwrap (connect url pull);;
  poll_result ← unwrap (FacadeProbe_poll timeout probe);
  assert_readiness [(false, true); (false, false)] poll_result;;
  unwrap (send_msg (from_body []) push);;
  poll_result ← unwrap (FacadeProbe_poll timeout probe);
  assert_readiness [(false, true); (true, false)] poll_result;;
  unwrap (recv_msg pull);;
  poll_result ← unwrap (FacadeProbe_poll timeout probe);
  assert_readiness [(false, true); (false, false)] poll_result;;
  drop_session.

End probe.

(** ** device.rs *)

Module device.

Definition relay_messages : act () :=
  let timeout := make_timeout in
  server ← unwrap (create_socket Bus);
  client1 ← unwrap (create_socket Bus);
  client2 ← unwrap (create_socket Bus);
  let url := tcp_get "18080" in
  unwrap (bind url server);;
  unwrap (connect url client1);;
  unwrap (connect url client2);;
  unwrap (set_send_timeout timeout client1);;
  unwrap (set_send_timeout timeout client2);;
  unwrap (set_recv_timeout timeout client1);;
  unwrap (set_recv_timeout timeout client2);;
  sleep_some;;
  device ← unwrap (mret (create_relay_device server));
  spawn (device_thread device);;
  sleep_some;;
  unwrap (send [65; 66; 67] client1);;
  received ← unwrap (recv client2);
  assert_eq [65; 66; 67] received;;
  err ← unwrap_err (recv client1);
  assert_eq KTimedOut (err_kind err);;
  drop_session;;
  join.

Definition forward_messages : act () :=
  let timeout := make_timeout in
  d_push ← unwrap (create_socket Push);
  d_pull ← unwrap (create_socket Pull);
  push ← unwrap (create_socket Push);
  pull ← unwrap (create_socket Pull);
  let d_push_url := tcp_get "18080" in
  let d_pull_url := tcp_get "18081" in
  unwrap (bind d_push_url d_push);;
  unwrap (bind d_pull_url d_pull);;
  unwrap (set_send_timeout timeout push);;
  unwrap (set_recv_timeout timeout pull);;
  device ← unwrap (create_bridge_device d_pull d_push);
  spawn (device_thread device);;
  sleep_some;;
  unwrap (connect d_pull_url push);;
  unwrap (connect d_push_url pull);;
  sleep_some;;
  unwrap (send [65; 66; 67] push);;
  received ← unwrap (recv pull);
  assert_eq [65; 66; 67] received;;
  err ← unwrap_err (recv pull);
  assert_eq KTimedOut (err_kind err);;
  drop_session;;
  join.

Definition forward_messages_back_and_forth : act () :=
  let timeout := make_timeout in
  d_req ← unwrap (create_socket Req);
  d_rep ← unwrap (create_socket Rep);
  req ← unwrap (create_socket Req);
  rep ← unwrap (create_socket Rep);
  let d_req_url := tcp_get "18080" in
  let d_rep_url := tcp_get "18081" in
  unwrap (bind d_req_url d_req);;
  unwrap (bind d_rep_url d_rep);;
  unwrap (set_send_timeout timeout req);;
  unwrap (set_recv_timeout timeout req);;
  unwrap (set_send_timeout timeout rep);;
  unwrap (set_recv_timeout timeout rep);;
  device ← unwrap (create_bridge_device d_rep d_req);
  spawn (device_thread device);;
  sleep_some;;
  unwrap (connect d_rep_url req);;
  unwrap (connect d_req_url rep);;
  sleep_some;;
  let sent_request := [65; 66; 67] in
  unwrap (send sent_request req);;
  received_request ← unwrap (recv rep);
  assert_eq [65; 66; 67] received_request;;
  let sent_reply := [66; 65; 67] in
  unwrap (send sent_reply rep);;
  received_reply ← unwrap (recv req);
  assert_eq [66; 65; 67] received_reply;;
  drop_session;;
  join.

End device.

(** ** reqrep_device.rs *)

Module reqrep_device.

Definition create_a_many_to_many_topology : act () :=
  req_1 ← unwrap (create_socket Req);
  req_2 ← unwrap (create_socket Req);
  d_rep ← unwrap (create_socket Rep);
  d_req ← unwrap (create_socket Req);
  rep_1 ← unwrap (create_socket Rep);
  rep_2 ← unwrap (create_socket Rep);
  let l_url := tcp_get "18080" in
  let r_url := tcp_get "18081" in
  let timeout := make_timeout in
  unwrap (set_send_timeout timeout req_1);;
  unwrap (set_send_timeout timeout req_2);;
  unwrap (set_send_timeout timeout rep_1);;
  unwrap (set_send_timeout timeout rep_2);;
  unwrap (set_recv_timeout timeout req_1);;
  unwrap (set_recv_timeout timeout req_2);;
  unwrap (set_recv_timeout timeout rep_1);;
  unwrap (set_recv_timeout timeout rep_2);;
  unwrap (bind l_url d_rep);;
  unwrap (bind r_url d_req);;
  unwrap (connect l_url req_1);;
  unwrap (connect r_url rep_1);;
  sleep_some;;
  unwrap (connect l_url req_2);;
  unwrap (connect r_url rep_2);;
  device ← unwrap (create_bridge_device d_rep d_req);
  spawn (device_thread device);;
  sleep_some;;
  unwrap (send [65; 66; 67] req_1);;
  received ← unwrap (recv rep_1);
  assert_eq [65; 66; 67] received;;
  unwrap (send [65; 66; 68] req_2);;
  received ← unwrap (recv rep_2);
  assert_eq [65; 66; 68] received;;
  unwrap (send [66; 66; 66] rep_2);;
  received ← unwrap (recv req_2);
  assert_eq [66; 66; 66] received;;
  unwrap (send [69; 69; 69] rep_1);;
  received ← unwrap (recv req_1);
  assert_eq [69; 69; 69] received;;
  drop_session;;
  join.

End reqrep_device.

(** test.rs: [can_use_custom_transport] *)
Definition can_use_custom_transport : verdict * Bench :=
  exercise 5000 (make_bench (SessionBuilder_with "subway" Subway SessionBuilder_new) Finish).

(** ** All of them *)

Definition integration_tests : list (string * act ()) :=
  [ ("pipeline.send_a_message_through_local_endpoint", pipeline.send_a_message_through_local_endpoint);
    ("pipeline.send_a_message_through_remote_endpoint", pipeline.send_a_message_through_remote_endpoint);
    ("pair.send_a_message_through_local_endpoint", pair.send_a_message_through_local_endpoint);
    ("pair.send_a_message_through_remote_endpoint", pair.send_a_message_through_remote_endpoint);
    ("pair.send_a_message_back_and_forth", pair.send_a_message_back_and_forth);
    ("socket.send_can_complete_when_initiated_before_any_connection", socket.send_can_complete_when_initiated_before_any_connection);
    ("socket.send_should_return_an_error_when_timed_out", socket.send_should_return_an_error_when_timed_out);
    ("socket.recv_can_complete_when_initiated_before_any_connection", socket.recv_can_complete_when_initiated_before_any_connection);
    ("socket.recv_should_return_an_error_when_timed_out", socket.recv_should_return_an_error_when_timed_out);
    ("socket.try_send_return_would_block_when_no_peer_is_connected", socket.try_send_return_would_block_when_no_peer_is_connected);
    ("socket.try_send_return_would_block_when_peer_buffer_is_full", socket.try_send_return_would_block_when_peer_buffer_is_full);
    ("socket.try_recv_return_would_block_when_no_peer_is_connected", socket.try_recv_return_would_block_when_no_peer_is_connected);
    ("socket.try_recv_return_would_block_when_buffer_is_empty", socket.try_recv_return_would_block_when_buffer_is_empty);
    ("socket.set_option_should_support_max_recv_size", socket.set_option_should_support_max_recv_size);
    ("reqrep.send_a_request_and_receive_a_reply", reqrep.send_a_request_and_receive_a_reply);
    ("reqrep.refuse_to_receive_a_reply_before_sending_a_request", reqrep.refuse_to_receive_a_reply_before_sending_a_request);
    ("reqrep.refuse_to_send_a_reply_before_receiving_a_request", reqrep.refuse_to_send_a_reply_before_receiving_a_request);
    ("reqrep.resend_the_request_silently_when_the_timeout_is_reached", reqrep.resend_the_request_silently_when_the_timeout_is_reached);
    ("pubsub.broadcast_a_message_through_local_endpoint", pubsub.broadcast_a_message_through_local_endpoint);
    ("pubsub.broadcast_a_message_through_remote_endpoint", pubsub.broadcast_a_message_through_remote_endpoint);
    ("pubsub.ignores_messages_based_on_subscriptions", pubsub.ignores_messages_based_on_subscriptions);
    ("survey.send_a_survey_and_receive_several_responses", survey.send_a_survey_and_receive_several_responses);
    ("survey.refuse_to_receive_a_response_before_sending_a_survey", survey.refuse_to_receive_a_response_before_sending_a_survey);
    ("survey.refuse_to_send_a_response_before_receiving_a_survey", survey.refuse_to_send_a_response_before_receiving_a_survey);
    ("bus.broadcast_a_message_through_local_endpoint", bus.broadcast_a_message_through_local_endpoint);
    ("bus.broadcast_a_message_through_remote_endpoint", bus.broadcast_a_message_through_remote_endpoint);
    ("bus.avoid_to_broadcast_back_to_originator", bus.avoid_to_broadcast_back_to_originator);
    ("fair_queue.when_activations_are_intertwined_with_recv", fair_queue.when_activations_are_intertwined_with_recv);
    ("fair_queue.when_activations_are_batched_before_several_recv", fair_queue.when_activations_are_batched_before_several_recv);
    ("probe.report_socket_readiness", probe.report_socket_readiness);
    ("device.relay_messages", device.relay_messages);
    ("device.forward_messages", device.forward_messages);
    ("device.forward_messages_back_and_forth", device.forward_messages_back_and_forth);
    ("reqrep_device.create_a_many_to_many_topology", reqrep_device.create_a_many_to_many_topology) ].

Lemma integration_suite_passes : ∀ name test, (name, test) ∈ integration_tests → verdict_of test = Passed.
Proof. intros name test Hin. unfold integration_tests in Hin. repeat (apply elem_of_cons in Hin as [[= -> ->]|Hin]; [vm_compute; reflexivity|]). by apply not_elem_of_nil in Hin. Qed.

Lemma custom_transport_passes : can_use_custom_transport.1 = Passed.
Proof. vm_compute. reflexivity. Qed.
