(* ===== verification/Scenarios.v ===== *)
(** * What goes wrong, from the application to the network and back

    Programs that call the facade, on the machine of [Loopback], in which the library
    does not do what it says: each shows that something the other files find in one
    component, or exclude by a hypothesis, is within reach of an application. *)

From S2P Require Import Prelude Core Context Codec Protocol Socket Probe Device Session.
From S2P Require Import Adapter Dispatcher Facade Tenants Loopback IntegrationTests.

Fixpoint times (n : nat) (p : act ()) : act () :=
  match n with O => mret () | S n => p;; times n p end.

(** Two sockets, one bound and one connected to it. *)
Definition linked (server client : AnyProtocol) : act (FacadeSocket * FacadeSocket) :=
  s ← unwrap (create_socket server);
  c ← unwrap (create_socket client);
  let url := tcp_get "18080" in
  unwrap (bind url s);;
  unwrap (connect url c);;
  sleep_some;;
  mret (s, c).

(** ** A peer that leaves *)

(** [leaver]: which of the two peers of a PULL leaves, between two receptions. *)
Definition peer_that_leaves (leaver : bool) : act () :=
  pull ← unwrap (create_socket Pull);
  push1 ← unwrap (create_socket Push);
  push2 ← unwrap (create_socket Push);
  let url := tcp_get "18080" in
  unwrap (bind url pull);;
  unwrap (connect url push1);;
  unwrap (connect url push2);;
  sleep_some;;
  unwrap (send [1] push1);;
  unwrap (send [2] push2);;
  sleep_some;;
  received ← unwrap (recv pull);
  assert_eq [1] received;;
  run (FacadeSocket_drop (if leaver then push1 else push2));;
  sleep_some;;
  unwrap (set_recv_timeout make_timeout pull);;
  run (recv pull);;
  mret ().

(** What [remove_safe] excludes from the conversations happens: a PULL socket read
    from its first peer and is about to read from the second, and last; the first
    leaves, the second takes its place in the priority list, and the next recv
    looks past the end: the thread of the reactor panics, and with it every socket
    of the session.  Nothing happens when the second one leaves. *)
Lemma peer_that_leaves_panics :
  verdict_of (peer_that_leaves true) = ReactorPanicked ∧ verdict_of (peer_that_leaves false) = Passed.
Proof. split; vm_compute; reflexivity. Qed.

(** ** Calls that do not return *)

(** A [try_send] waits until the network took the whole message: when it is larger
    than what the line holds and the peer does not read, it waits for ever. *)
Definition try_send_of_a_large_message (size : nat) : act () :=
  '(push, pull) ← linked Push Pull;
  unwrap (try_send (replicate size 6) push).

Lemma try_send_blocks :
  verdict_of (try_send_of_a_large_message 5000) = Stuck ∧ verdict_of (try_send_of_a_large_message 500) = Passed.
Proof. split; vm_compute; reflexivity. Qed.

(** A bridge whose run ends on an error, here because a PULL socket cannot send: its
    drop asks the reactor to close the device, and the reactor does not answer. *)
Definition bridge_on_error : act () :=
  '(front, push) ← linked Pull Push;
  back ← unwrap (create_socket Pull);
  device ← unwrap (create_bridge_device front back);
  spawn (device_thread device);;
  unwrap (send [65; 66; 67] push);;
  join.

Lemma bridge_drop_blocks : verdict_of bridge_on_error = Stuck.
Proof. vm_compute. reflexivity. Qed.

(** Past its deadline a survey still waits for a response, while the documentation
    says that recv returns [TimedOut]. *)
Definition survey_without_response : act () :=
  '(surv, resp) ← linked Surveyor Respondent;
  unwrap (facade_set_option (SurveyDeadline (from_millis 100)) surv);;
  unwrap (send [65; 66; 67] surv);;
  unwrap_err (recv surv);;
  mret ().

Lemma survey_deadline_waits : verdict_of survey_without_response = Stuck.
Proof. vm_compute. reflexivity. Qed.

(** A REP socket sends a reply that the network takes in part; the requester leaves,
    and the send is never answered. *)
Definition reply_to_who_left : act () :=
  '(rep, req) ← linked Rep Req;
  unwrap (send [65; 66; 67] req);;
  unwrap (recv rep);;
  spawn (sleep_some;; run (FacadeSocket_drop req));;
  run (send (replicate 5000 6) rep);;
  mret ().

Lemma reply_to_who_left_blocks : verdict_of reply_to_who_left = Stuck.
Proof. vm_compute. reflexivity. Qed.

(** ** Requests that are lost *)

(** A request is not sent again while its reply is awaited: in five intervals, the
    responder that ignores it gets it once. *)
Definition request_once : act () :=
  '(rep, req) ← linked Rep Req;
  unwrap (facade_set_option (ReqResendIvl (from_millis 1000)) req);;
  unwrap (set_recv_timeout (Some (from_millis 5000)) rep);;
  unwrap (send [65; 66; 67] req);;
  spawn (run (recv req);; mret ());;
  unwrap (recv rep);;
  err ← unwrap_err (recv rep);
  assert_eq KTimedOut (err_kind err).

Lemma request_is_not_resent : verdict_of request_once = Passed.
Proof. vm_compute. reflexivity. Qed.

(** The responder leaves while its reply is awaited: there is no active request any
    more, though another responder could have had it. *)
Definition responder_leaves : act () :=
  '(rep, req) ← linked Rep Req;
  unwrap (send [65; 66; 67] req);;
  unwrap (recv rep);;
  spawn (sleep_some;; run (FacadeSocket_drop rep));;
  err ← unwrap_err (recv req);
  assert_eq KOther (err_kind err).

Lemma request_is_lost : verdict_of responder_leaves = Passed.
Proof. vm_compute. reflexivity. Qed.

(** ** A probe that forgets *)

(** Two probes watch one socket; the first is dropped, unless it is kept. *)
Definition two_probes (keep : bool) : act () :=
  '(push, pull) ← linked Push Pull;
  first ← unwrap (create_probe [create_poll_req false true push]);
  second ← unwrap (create_probe [create_poll_req false true push]);
  (if keep then mret () else run (FacadeProbe_drop first));;
  res ← unwrap (FacadeProbe_poll make_hard_timeout second);
  assert_eq [true] (res_send <$> res).

Lemma probe_forgotten :
  verdict_of (two_probes false) = AssertFailed "assertion failed" ∧ verdict_of (two_probes true) = Passed.
Proof. split; vm_compute; reflexivity. Qed.

(** ** A priority that is out of range *)

(** The second pipe of a PUSH has priority [p]; five messages are more than the first
    one takes. *)
Definition second_priority (p : Z) : act () :=
  push ← unwrap (create_socket Push);
  pull1 ← unwrap (create_socket Pull);
  pull2 ← unwrap (create_socket Pull);
  let url1 := tcp_get "18080" in
  let url2 := tcp_get "18081" in
  unwrap (set_send_timeout make_timeout push);;
  unwrap (bind url1 pull1);;
  unwrap (bind url2 pull2);;
  unwrap (connect url1 push);;
  unwrap (set_send_priority p push);;
  unwrap (connect url2 push);;
  sleep_some;;
  times 5 (unwrap (send (replicate 1000 6) push)).

Lemma priority_17_starves :
  verdict_of (second_priority 16) = Passed ∧ verdict_of (second_priority 17) = AssertFailed "Send timed out".
Proof. split; vm_compute; reflexivity. Qed.

(** ** What is not given back *)

(** The pipes of sockets that are gone stay among the endpoints. *)
Definition sockets_dropped : act () :=
  '(push, pull) ← linked Push Pull;
  run (FacadeSocket_drop push);;
  run (FacadeSocket_drop pull);;
  sleep_some.

Lemma pipes_stay :
  let d := reactor (trial sockets_dropped).2 in
  sockets (ses_sockets (session d)) = ∅ ∧ size (ep_pipes (endpoints (world d))) = 2%nat.
Proof. vm_compute. split; reflexivity. Qed.

(** A timer that fired stays in the schedule. *)
Definition recv_timeouts (n : nat) : act () :=
  pull ← unwrap (create_socket Pull);
  unwrap (set_recv_timeout make_timeout pull);;
  times n (unwrap_err (recv pull);; mret ()).

Lemma fired_timers_stay : size (items (schedule (world (reactor (trial (recv_timeouts 7)).2)))) = 7%nat.
Proof. vm_compute. reflexivity. Qed.
