(* ===== verification/Bench.v ===== *)
(** * The bench of the unit tests (core/tests.rs)

    The repository's tests run a protocol in a [TestContext] that notes in a sensor
    what is asked of it, and a channel of replies; a test that fails panics.  Here a
    test is a handler of type [P ()]: the sensor is read off the history, a failed
    assertion panics, and [passes] runs the test from an empty history.  The files
    [*Tests] translate the tests themselves; that they pass says that the model does
    what the authors of the code expect of it. *)

From S2P Require Import Prelude Core Context Protocol Codec.

(** ** Assertions *)

Definition assert {E} (b : bool) : M E () := if b then mret () else panic.
Definition assert_eq {E} `{EqDecision A} (x y : A) : M E () := assert (bool_decide (x = y)).

Definition len {A} (l : list A) : Z := Z.of_nat (length l).

(** [x - y] at width [w]; [None] is a panic. *)
Definition checked_sub `{Build} (w x y : Z) : option Z :=
  if decide (y <= x) then Some (x - y) else if overflow_checks then None else Some (wrap w (x - y)).

(** [BigEndian::write_u32(&mut body[lo..hi], n)]. *)
Definition write_u32 `{ByteOrder} (n : Z) (lo hi : nat) (body : bytes) : P bytes :=
  if decide (lo <= hi <= length body /\ 4 <= hi - lo)%nat
  then mret (take lo body ++ be_write_u32 n ++ drop (lo + 4) body) else panic.

(** ** The sensor *)

Definition new_test_endpoint_desc : EndpointDesc := {|
  send_priority := 0;
  recv_priority := 0;
  tcp_no_delay := false;
  recv_max_size := 1024
|}.
Definition new_test_pipe (id : EndpointId) : Pipe := Pipe_new_accepted id new_test_endpoint_desc.

Record TestContextSensor : Type := mkTestContextSensor {
  close_calls : list (EndpointId * bool);
  send_calls : list (EndpointId * Message);
  recv_calls : list EndpointId;
  raised_events : list Event;
  schedule_cancellations : list Scheduled
}.

Definition TestContextSensor_default : TestContextSensor := mkTestContextSensor [] [] [] [] [].

Definition push_close_call (eid : EndpointId) (remote : bool) (s : TestContextSensor) : TestContextSensor :=
  mkTestContextSensor (close_calls s ++ [(eid, remote)]) (send_calls s) (recv_calls s) (raised_events s) (schedule_cancellations s).
Definition push_send_call (eid : EndpointId) (msg : Message) (s : TestContextSensor) : TestContextSensor :=
  mkTestContextSensor (close_calls s) (send_calls s ++ [(eid, msg)]) (recv_calls s) (raised_events s) (schedule_cancellations s).
Definition push_recv_call (eid : EndpointId) (s : TestContextSensor) : TestContextSensor :=
  mkTestContextSensor (close_calls s) (send_calls s) (recv_calls s ++ [eid]) (raised_events s) (schedule_cancellations s).
Definition push_raised_event (evt : Event) (s : TestContextSensor) : TestContextSensor :=
  mkTestContextSensor (close_calls s) (send_calls s) (recv_calls s) (raised_events s ++ [evt]) (schedule_cancellations s).
Definition push_schedule_cancellation (scheduled : Scheduled) (s : TestContextSensor) : TestContextSensor :=
  mkTestContextSensor (close_calls s) (send_calls s) (recv_calls s) (raised_events s) (schedule_cancellations s ++ [scheduled]).

Definition assert_no_send_call (self : TestContextSensor) : P () := assert_eq 0 (len (send_calls self)).
Definition assert_send_to (eid : EndpointId) (times : Z) (self : TestContextSensor) : P () :=
  let count := len (filter (λ call, call.1 = eid) (send_calls self)) in
  assert_eq times count.
Definition assert_one_send_to (eid : EndpointId) (self : TestContextSensor) : P () :=
  assert_eq 1 (len (send_calls self));;
  '(id, _) ← lift (send_calls self !! 0%nat);
  assert_eq eid id.
Definition assert_no_event_raised (self : TestContextSensor) : P () := assert_eq 0 (len (raised_events self)).
Definition assert_one_cancellation (scheduled : Scheduled) (self : TestContextSensor) : P () :=
  assert_eq 1 (len (schedule_cancellations self));;
  s ← lift (schedule_cancellations self !! 0%nat);
  assert_eq scheduled s.
Definition assert_no_recv_call (self : TestContextSensor) : P () := assert_eq 0 (len (recv_calls self)).
Definition assert_one_recv_from (eid : EndpointId) (self : TestContextSensor) : P () :=
  assert_eq 1 (len (recv_calls self));;
  id ← lift (recv_calls self !! 0%nat);
  assert_eq eid id.

(** ** The context

    What it answers, and what it notes; the calls it does not implement panic,
    whatever they would have answered. *)

Definition TestContext : Env := {|
  env_build := {| overflow_checks := true |};
  connect_answer _ _ _ := Err (other_io_error "unimplemented");
  reconnect_answer _ _ _ _ := Err (other_io_error "unimplemented");
  bind_answer _ _ _ := Err (other_io_error "unimplemented");
  rebind_answer _ _ _ _ := Err (other_io_error "unimplemented");
  schedule_answer _ _ _ := Err (other_io_error "test");
  drain_set _ s := elements s;
  drain_map _ _ m := map_to_list m;
  drain_set_perm _ _ := reflexivity _;
  drain_map_perm _ _ _ := reflexivity _
|}.

Definition sense (s : TestContextSensor) (e : effect) : option TestContextSensor :=
  match e with
  | NetConnect _ _ | NetReconnect _ _ _ | NetBind _ _ | NetRebind _ _ _ | NetOpen _ _ => None
  | NetClose eid remote => Some (push_close_call eid remote s)
  | NetSend eid msg => Some (push_send_call eid msg s)
  | NetRecv eid => Some (push_recv_call eid s)
  | SchSchedule _ _ => Some s
  | SchCancel scheduled => Some (push_schedule_cancellation scheduled s)
  | Raise evt => Some (push_raised_event evt s)
  | SendReply _ => Some s
  end.

Fixpoint sensed (s : TestContextSensor) (h : trace) : option TestContextSensor :=
  match h with
  | [] => Some s
  | e :: h => s ← sense s e; sensed s h
  end.

(** [ctx_sensor.borrow()]. *)
Definition borrow : P TestContextSensor := h ← history; lift (sensed TestContextSensor_default h).

(** ** The channel of replies: how many were received *)

Definition channel : nat := 0%nat.

(** [rx.try_recv().expect(..)]; [rx.recv()] would block for ever instead of failing. *)
Definition rx_recv (rx : nat) : P (Reply * nat) :=
  h ← history; reply ← lift (replies h !! rx); mret (reply, S rx).
(** [assert!(rx.try_recv().is_err())]. *)
Definition rx_empty (rx : nat) : P () := h ← history; assert (bool_decide (replies h !! rx = None)).

(** ** Running the tests *)

Definition passes (test : P ()) : bool :=
  match test [] with
  | Done _ out => match sensed TestContextSensor_default out with Some _ => true | None => false end
  | Panicked => false
  end.

(** The tests that fail, by name. *)
Definition failures (suite : list (string * P ())) : list string :=
  omap (λ '(name, test), if passes test then None else Some name) suite.
