(* ===== verification/PushTests.v ===== *)
(** * The unit tests of proto/push.rs, on [Push] *)

From S2P Require Import Prelude Core Context Protocol Codec Push Bench.

#[local] Existing Instances TestContext be_ref.

Definition when_send_succeed_it_is_notified_and_timeout_is_cancelled : P () :=
  let rx := channel in
  let push := Push_from in
  let eid := EndpointId_from 0 in
  let pipe := new_test_pipe eid in
  push ← add_pipe eid pipe push;
  push ← on_send_ready eid push;
  let msg := Message_new in
  let timeout := Scheduled_from 1 in
  push ← send msg (Some timeout) push;
  push ← on_send_ack eid push;
  '(reply, rx) ← rx_recv rx;
  let is_reply_ok := match reply with ReplySend => true | _ => false end in
  assert is_reply_ok;;
  sensor ← borrow;
  assert_one_send_to eid sensor;;
  assert_one_cancellation timeout sensor.

Definition when_send_starts_event_is_raised : P () :=
  let push := Push_from in
  let eid := EndpointId_from 1 in
  let pipe := new_test_pipe eid in
  push ← add_pipe eid pipe push;
  push ← on_send_ready eid push;
  push ← send Message_new None push;
  push ← on_send_ack eid push;
  push ← on_send_ready eid push;
  sensor ← borrow;
  let raised_evts := raised_events sensor in
  assert_eq 3 (len raised_evts);;
  evt ← lift (raised_evts !! 0%nat);
  assert_eq (Core.CanSend true) evt;;
  evt ← lift (raised_evts !! 1%nat);
  assert_eq (Core.CanSend false) evt;;
  evt ← lift (raised_evts !! 2%nat);
  assert_eq (Core.CanSend true) evt.

Definition when_send_ack_event_is_raised_if_there_is_another_pipe_ready : P () :=
  let push := Push_from in
  let eid1 := EndpointId_from 1 in
  let pipe1 := new_test_pipe eid1 in
  let eid2 := EndpointId_from 2 in
  let pipe2 := new_test_pipe eid2 in
  push ← add_pipe eid1 pipe1 push;
  push ← add_pipe eid2 pipe2 push;
  push ← on_send_ready eid1 push;
  push ← send Message_new None push;
  push ← on_send_ready eid2 push;
  push ← on_send_ack eid1 push;
  sensor ← borrow;
  let raised_evts := raised_events sensor in
  assert_eq 3 (len raised_evts);;
  evt ← lift (raised_evts !! 0%nat);
  assert_eq (Core.CanSend true) evt;;
  evt ← lift (raised_evts !! 1%nat);
  assert_eq (Core.CanSend false) evt;;
  evt ← lift (raised_evts !! 2%nat);
  assert_eq (Core.CanSend true) evt.

Definition when_send_ready_pipe_is_removed_event_is_raised : P () :=
  let push := Push_from in
  let eid := EndpointId_from 3 in
  let pipe := new_test_pipe eid in
  push ← add_pipe eid pipe push;
  push ← on_send_ready eid push;
  '(_, push) ← remove_pipe eid push;
  sensor ← borrow;
  let raised_evts := raised_events sensor in
  assert_eq 2 (len raised_evts);;
  evt ← lift (raised_evts !! 0%nat);
  assert_eq (Core.CanSend true) evt;;
  evt ← lift (raised_evts !! 1%nat);
  assert_eq (Core.CanSend false) evt.

Definition push_suite : list (string * P ()) :=
  [ ("when_send_succeed_it_is_notified_and_timeout_is_cancelled", when_send_succeed_it_is_notified_and_timeout_is_cancelled);
    ("when_send_starts_event_is_raised", when_send_starts_event_is_raised);
    ("when_send_ack_event_is_raised_if_there_is_another_pipe_ready", when_send_ack_event_is_raised_if_there_is_another_pipe_ready);
    ("when_send_ready_pipe_is_removed_event_is_raised", when_send_ready_pipe_is_removed_event_is_raised) ].

Lemma push_suite_passes : failures push_suite = [].
Proof. vm_compute. reflexivity. Qed.
