(* ===== verification/PullTests.v ===== *)
(** * The unit tests of proto/pull.rs, on [Pull] *)

From S2P Require Import Prelude Core Context Protocol Codec Pull Bench.

#[local] Existing Instances TestContext be_ref.

Definition when_recv_succeed_it_is_notified_and_timeout_is_cancelled : P () :=
  let rx := channel in
  let pull := Pull_from in
  let eid := EndpointId_from 0 in
  let pipe := new_test_pipe eid in
  pull ← add_pipe eid pipe pull;
  pull ← on_recv_ready eid pull;
  let msg := Message_new in
  let timeout := Scheduled_from 1 in
  pull ← recv (Some timeout) pull;
  pull ← on_recv_ack eid msg pull;
  '(reply, rx) ← rx_recv rx;
  let is_reply_ok := match reply with ReplyRecv _ => true | _ => false end in
  assert is_reply_ok;;
  sensor ← borrow;
  assert_one_recv_from eid sensor;;
  assert_one_cancellation timeout sensor.

Definition when_recv_starts_event_is_raised : P () :=
  let pull := Pull_from in
  let eid := EndpointId_from 1 in
  let pipe := new_test_pipe eid in
  pull ← add_pipe eid pipe pull;
  pull ← on_recv_ready eid pull;
  pull ← recv None pull;
  pull ← on_recv_ack eid Message_new pull;
  pull ← on_recv_ready eid pull;
  sensor ← borrow;
  let raised_evts := raised_events sensor in
  assert_eq 3 (len raised_evts);;
  evt ← lift (raised_evts !! 0%nat);
  assert_eq (Core.CanRecv true) evt;;
  evt ← lift (raised_evts !! 1%nat);
  assert_eq (Core.CanRecv false) evt;;
  evt ← lift (raised_evts !! 2%nat);
  assert_eq (Core.CanRecv true) evt.

Definition when_recv_ack_event_is_raised_if_there_is_another_pipe_ready : P () :=
  let pull := Pull_from in
  let eid1 := EndpointId_from 1 in
  let pipe1 := new_test_pipe eid1 in
  let eid2 := EndpointId_from 2 in
  let pipe2 := new_test_pipe eid2 in
  pull ← add_pipe eid1 pipe1 pull;
  pull ← add_pipe eid2 pipe2 pull;
  pull ← on_recv_ready eid1 pull;
  pull ← recv None pull;
  pull ← on_recv_ready eid2 pull;
  pull ← on_recv_ack eid1 Message_new pull;
  sensor ← borrow;
  let raised_evts := raised_events sensor in
  assert_eq 3 (len raised_evts);;
  evt ← lift (raised_evts !! 0%nat);
  assert_eq (Core.CanRecv true) evt;;
  evt ← lift (raised_evts !! 1%nat);
  assert_eq (Core.CanRecv false) evt;;
  evt ← lift (raised_evts !! 2%nat);
  assert_eq (Core.CanRecv true) evt.

Definition when_recv_ready_pipe_is_removed_event_is_raised : P () :=
  let pull := Pull_from in
  let eid := EndpointId_from 3 in
  let pipe := new_test_pipe eid in
  pull ← add_pipe eid pipe pull;
  pull ← on_recv_ready eid pull;
  '(_, pull) ← remove_pipe eid pull;
  sensor ← borrow;
  let raised_evts := raised_events sensor in
  assert_eq 2 (len raised_evts);;
  evt ← lift (raised_evts !! 0%nat);
  assert_eq (Core.CanRecv true) evt;;
  evt ← lift (raised_evts !! 1%nat);
  assert_eq (Core.CanRecv false) evt.

Definition pull_suite : list (string * P ()) :=
  [ ("when_recv_succeed_it_is_notified_and_timeout_is_cancelled", when_recv_succeed_it_is_notified_and_timeout_is_cancelled);
    ("when_recv_starts_event_is_raised", when_recv_starts_event_is_raised);
    ("when_recv_ack_event_is_raised_if_there_is_another_pipe_ready", when_recv_ack_event_is_raised_if_there_is_another_pipe_ready);
    ("when_recv_ready_pipe_is_removed_event_is_raised", when_recv_ready_pipe_is_removed_event_is_raised) ].

Lemma pull_suite_passes : failures pull_suite = [].
Proof. vm_compute. reflexivity. Qed.
