(* ===== verification/SubTests.v ===== *)
(** * The unit tests of proto/sub.rs, on [Sub] *)

From S2P Require Import Prelude Core Context Protocol Codec Sub Bench.

#[local] Existing Instances TestContext be_ref.

Definition when_recv_succeed_it_is_notified_and_timeout_is_cancelled : P () :=
  let rx := channel in
  let sub := Sub_from in
  let '(_, sub) := set_option (Subscribe "") sub in
  let eid := EndpointId_from 0 in
  let pipe := new_test_pipe eid in
  sub ← add_pipe eid pipe sub;
  sub ← on_recv_ready eid sub;
  let msg := Message_new in
  let timeout := Scheduled_from 1 in
  sub ← recv (Some timeout) sub;
  sub ← on_recv_ack eid msg sub;
  '(reply, rx) ← rx_recv rx;
  let is_reply_ok := match reply with ReplyRecv _ => true | _ => false end in
  assert is_reply_ok;;
  sensor ← borrow;
  assert_one_recv_from eid sensor;;
  assert_one_cancellation timeout sensor.

Definition when_recv_starts_event_is_raised : P () :=
  let sub := Sub_from in
  let '(_, sub) := set_option (Subscribe "") sub in
  let eid := EndpointId_from 1 in
  let pipe := new_test_pipe eid in
  sub ← add_pipe eid pipe sub;
  sub ← on_recv_ready eid sub;
  sub ← recv None sub;
  sub ← on_recv_ack eid Message_new sub;
  sub ← on_recv_ready eid sub;
  sensor ← borrow;
  let raised_evts := raised_events sensor in
  assert_eq 3 (len raised_evts);;
  evt ← lift (raised_evts !! 0%nat);
  assert_eq (Core.CanRecv true) evt;;
  evt ← lift (raised_evts !! 1%nat);
  assert_eq (Core.CanRecv false) evt;;
  evt ← lift (raised_evts !! 2%nat);
  assert_eq (Core.CanRecv true) evt.

Definition sub_suite : list (string * P ()) :=
  [ ("when_recv_succeed_it_is_notified_and_timeout_is_cancelled", when_recv_succeed_it_is_notified_and_timeout_is_cancelled);
    ("when_recv_starts_event_is_raised", when_recv_starts_event_is_raised) ].

Lemma sub_suite_passes : failures sub_suite = [].
Proof. vm_compute. reflexivity. Qed.
