(* ===== verification/BusTests.v ===== *)
(** * The unit tests of proto/bus.rs, on [Bus] *)

From S2P Require Import Prelude Core Context Protocol Codec Bus Bench.

#[local] Existing Instances TestContext be_ref.

Definition when_send_succeeds_it_is_notified_and_timeout_is_cancelled : P () :=
  let rx := channel in
  let bus := Bus_from in
  let msg := Message_new in
  let timeout := Scheduled_from 0 in
  bus ← send msg (Some timeout) bus;
  '(reply, rx) ← rx_recv rx;
  let is_reply_ok := match reply with ReplySend => true | _ => false end in
  assert is_reply_ok;;
  sensor ← borrow;
  assert_one_cancellation timeout sensor.

Definition send_broadcast_to_all_ready_pipes : P () :=
  let bus := Bus_from in
  let eid1 := EndpointId_from 1 in
  let pipe1 := new_test_pipe eid1 in
  let eid2 := EndpointId_from 2 in
  let pipe2 := new_test_pipe eid2 in
  let eid3 := EndpointId_from 3 in
  let pipe3 := new_test_pipe eid3 in
  bus ← add_pipe eid1 pipe1 bus;
  bus ← add_pipe eid2 pipe2 bus;
  bus ← add_pipe eid3 pipe3 bus;
  bus ← on_send_ready eid1 bus;
  bus ← on_send_ready eid3 bus;
  bus ← send Message_new None bus;
  sensor ← borrow;
  assert_send_to eid1 1 sensor;;
  assert_send_to eid2 0 sensor;;
  assert_send_to eid3 1 sensor.

Definition when_ready_pipe_list_becomes_not_empty_event_is_raised : P () :=
  let bus := Bus_from in
  let eid1 := EndpointId_from 1 in
  let pipe1 := new_test_pipe eid1 in
  let eid2 := EndpointId_from 2 in
  let pipe2 := new_test_pipe eid2 in
  bus ← add_pipe eid1 pipe1 bus;
  bus ← add_pipe eid2 pipe2 bus;
  sensor ← borrow;
  assert_no_event_raised sensor;;
  bus ← on_send_ready eid2 bus;
  sensor ← borrow;
  let raised_evts := raised_events sensor in
  assert_eq 1 (len raised_evts);;
  evt ← lift (raised_evts !! 0%nat);
  assert_eq (Core.CanSend true) evt.

Definition when_send_starts_event_is_raised : P () :=
  let bus := Bus_from in
  let eid := EndpointId_from 1 in
  let pipe := new_test_pipe eid in
  bus ← add_pipe eid pipe bus;
  bus ← on_send_ready eid bus;
  bus ← send Message_new None bus;
  sensor ← borrow;
  let raised_evts := raised_events sensor in
  assert_eq 2 (len raised_evts);;
  evt ← lift (raised_evts !! 0%nat);
  assert_eq (Core.CanSend true) evt;;
  evt ← lift (raised_evts !! 1%nat);
  assert_eq (Core.CanSend false) evt.

Definition when_recv_starts_event_is_raised : P () :=
  let bus := Bus_from in
  let eid := EndpointId_from 1 in
  let pipe := new_test_pipe eid in
  bus ← add_pipe eid pipe bus;
  bus ← on_recv_ready eid bus;
  bus ← recv None bus;
  bus ← on_recv_ack eid Message_new bus;
  bus ← on_recv_ready eid bus;
  sensor ← borrow;
  let raised_evts := raised_events sensor in
  assert_eq 3 (len raised_evts);;
  evt ← lift (raised_evts !! 0%nat);
  assert_eq (Core.CanRecv true) evt;;
  evt ← lift (raised_evts !! 1%nat);
  assert_eq (Core.CanRecv false) evt;;
  evt ← lift (raised_evts !! 2%nat);
  assert_eq (Core.CanRecv true) evt.

Definition when_recv_ack_event_is_raised_if_there_is_another_pipe_ready : P () :=
  let bus := Bus_from in
  let eid1 := EndpointId_from 1 in
  let pipe1 := new_test_pipe eid1 in
  let eid2 := EndpointId_from 2 in
  let pipe2 := new_test_pipe eid2 in
  bus ← add_pipe eid1 pipe1 bus;
  bus ← add_pipe eid2 pipe2 bus;
  bus ← on_recv_ready eid1 bus;
  bus ← recv None bus;
  bus ← on_recv_ready eid2 bus;
  bus ← on_recv_ack eid1 Message_new bus;
  sensor ← borrow;
  let raised_evts := raised_events sensor in
  assert_eq 3 (len raised_evts);;
  evt ← lift (raised_evts !! 0%nat);
  assert_eq (Core.CanRecv true) evt;;
  evt ← lift (raised_evts !! 1%nat);
  assert_eq (Core.CanRecv false) evt;;
  evt ← lift (raised_evts !! 2%nat);
  assert_eq (Core.CanRecv true) evt.

Definition when_send_ready_pipe_is_removed_event_is_raised : P () :=
  let bus := Bus_from in
  let eid := EndpointId_from 5 in
  let pipe := new_test_pipe eid in
  bus ← add_pipe eid pipe bus;
  sensor ← borrow;
  assert_eq 0 (len (raised_events sensor));;
  bus ← on_send_ready eid bus;
  sensor ← borrow;
  assert_eq 1 (len (raised_events sensor));;
  '(_, bus) ← remove_pipe eid bus;
  sensor ← borrow;
  assert_eq 2 (len (raised_events sensor));;
  sensor ← borrow;
  let raised_evts := raised_events sensor in
  assert_eq 2 (len raised_evts);;
  evt ← lift (raised_evts !! 0%nat);
  assert_eq (Core.CanSend true) evt;;
  evt ← lift (raised_evts !! 1%nat);
  assert_eq (Core.CanSend false) evt.

Definition when_recv_ready_pipe_is_removed_event_is_raised : P () :=
  let bus := Bus_from in
  let eid := EndpointId_from 5 in
  let pipe := new_test_pipe eid in
  bus ← add_pipe eid pipe bus;
  bus ← on_recv_ready eid bus;
  '(_, bus) ← remove_pipe eid bus;
  sensor ← borrow;
  let raised_evts := raised_events sensor in
  assert_eq 2 (len raised_evts);;
  evt ← lift (raised_evts !! 0%nat);
  assert_eq (Core.CanRecv true) evt;;
  evt ← lift (raised_evts !! 1%nat);
  assert_eq (Core.CanRecv false) evt.

Definition bus_suite : list (string * P ()) :=
  [ ("when_send_succeeds_it_is_notified_and_timeout_is_cancelled", when_send_succeeds_it_is_notified_and_timeout_is_cancelled);
    ("send_broadcast_to_all_ready_pipes", send_broadcast_to_all_ready_pipes);
    ("when_ready_pipe_list_becomes_not_empty_event_is_raised", when_ready_pipe_list_becomes_not_empty_event_is_raised);
    ("when_send_starts_event_is_raised", when_send_starts_event_is_raised);
    ("when_recv_starts_event_is_raised", when_recv_starts_event_is_raised);
    ("when_recv_ack_event_is_raised_if_there_is_another_pipe_ready", when_recv_ack_event_is_raised_if_there_is_another_pipe_ready);
    ("when_send_ready_pipe_is_removed_event_is_raised", when_send_ready_pipe_is_removed_event_is_raised);
    ("when_recv_ready_pipe_is_removed_event_is_raised", when_recv_ready_pipe_is_removed_event_is_raised) ].

Lemma bus_suite_passes : failures bus_suite = [].
Proof. vm_compute. reflexivity. Qed.
