(* ===== verification/PairTests.v ===== *)
(** * The unit tests of proto/pair.rs, on [Pair] *)

From S2P Require Import Prelude Core Context Protocol Codec Pair Bench.

#[local] Existing Instances TestContext be_ref.

Definition adding_more_than_one_pipe_should_close_the_subsequent_ones : P () :=
  let pair := Pair_from in
  let eid1 := EndpointId_from 1 in
  let pipe1 := new_test_pipe eid1 in
  let eid2 := EndpointId_from 2 in
  let pipe2 := new_test_pipe eid2 in
  pair ← add_pipe eid1 pipe1 pair;
  pair ← add_pipe eid2 pipe2 pair;
  sensor ← borrow;
  let close_calls := close_calls sensor in
  assert_eq 1 (len close_calls);;
  '(eid, remote) ← lift (close_calls !! 0%nat);
  assert_eq eid2 eid;;
  assert remote.

Definition remove_returns_the_added_pipe : P () :=
  let pair := Pair_from in
  let eid := EndpointId_from 3 in
  let pipe := new_test_pipe eid in
  pair ← add_pipe eid pipe pair;
  '(removed, pair) ← remove_pipe eid pair;
  assert (bool_decide (is_Some removed));;
  if_some removed (λ pipe, Pipe_close pipe;; mret ());;
  sensor ← borrow;
  let close_calls := close_calls sensor in
  assert_eq 1 (len close_calls);;
  '(id, remote) ← lift (close_calls !! 0%nat);
  assert_eq eid id;;
  assert remote.

Definition can_put_send_on_hold_and_resume_when_a_pipe_is_added_and_becomes_ready : P () :=
  let pair := Pair_from in
  let msg := Message_new in
  pair ← send msg None pair;
  sensor ← borrow;
  assert_no_send_call sensor;;
  let eid := EndpointId_from 4 in
  let pipe := new_test_pipe eid in
  pair ← add_pipe eid pipe pair;
  sensor ← borrow;
  assert_no_send_call sensor;;
  pair ← on_send_ready eid pair;
  sensor ← borrow;
  assert_one_send_to eid sensor.

Definition when_send_succeed_it_is_notified_and_timeout_is_cancelled : P () :=
  let rx := channel in
  let pair := Pair_from in
  let eid := EndpointId_from 5 in
  let pipe := new_test_pipe eid in
  pair ← add_pipe eid pipe pair;
  pair ← on_send_ready eid pair;
  let msg := Message_new in
  let timeout := Scheduled_from 6 in
  pair ← send msg (Some timeout) pair;
  pair ← on_send_ack eid pair;
  '(reply, rx) ← rx_recv rx;
  let is_reply_ok := match reply with ReplySend => true | _ => false end in
  assert is_reply_ok;;
  sensor ← borrow;
  assert_one_send_to eid sensor;;
  assert_one_cancellation timeout sensor.

Definition when_send_timeout_is_reached_err_is_notified : P () :=
  let rx := channel in
  let pair := Pair_from in
  let eid := EndpointId_from 7 in
  let pipe := new_test_pipe eid in
  pair ← add_pipe eid pipe pair;
  pair ← on_send_ready eid pair;
  let msg := Message_new in
  let timeout := Scheduled_from 8 in
  pair ← send msg (Some timeout) pair;
  pair ← on_send_timeout pair;
  '(reply, rx) ← rx_recv rx;
  let is_reply_err := match reply with ReplyErr _ => true | _ => false end in
  assert is_reply_err.

Definition when_recv_succeed_it_is_notified_and_timeout_is_cancelled : P () :=
  let rx := channel in
  let pair := Pair_from in
  let eid := EndpointId_from 9 in
  let pipe := new_test_pipe eid in
  pair ← add_pipe eid pipe pair;
  pair ← on_recv_ready eid pair;
  let timeout := Scheduled_from 0 in
  pair ← recv (Some timeout) pair;
  pair ← on_recv_ack eid Message_new pair;
  '(reply, rx) ← rx_recv rx;
  let is_reply_ok := match reply with ReplyRecv _ => true | _ => false end in
  assert is_reply_ok;;
  sensor ← borrow;
  assert_one_recv_from eid sensor;;
  assert_one_cancellation timeout sensor.

Definition can_put_recv_on_hold_and_resume_when_a_pipe_is_added_and_becomes_ready : P () :=
  let pair := Pair_from in
  pair ← recv None pair;
  sensor ← borrow;
  assert_no_recv_call sensor;;
  let eid := EndpointId_from 1 in
  let pipe := new_test_pipe eid in
  pair ← add_pipe eid pipe pair;
  sensor ← borrow;
  assert_no_recv_call sensor;;
  pair ← on_recv_ready eid pair;
  sensor ← borrow;
  assert_one_recv_from eid sensor.

Definition when_recv_timeout_is_reached_err_is_notified : P () :=
  let rx := channel in
  let pair := Pair_from in
  let eid := EndpointId_from 2 in
  let pipe := new_test_pipe eid in
  pair ← add_pipe eid pipe pair;
  let timeout := Scheduled_from 3 in
  pair ← recv (Some timeout) pair;
  pair ← on_recv_timeout pair;
  '(reply, rx) ← rx_recv rx;
  let is_reply_err := match reply with ReplyErr _ => true | _ => false end in
  assert is_reply_err.

Definition when_peer_becomes_writable_can_send_event_is_raised : P () :=
  let pair := Pair_from in
  let eid := EndpointId_from 4 in
  let pipe := new_test_pipe eid in
  pair ← add_pipe eid pipe pair;
  pair ← on_send_ready eid pair;
  sensor ← borrow;
  let raised_evts := raised_events sensor in
  assert_eq 1 (len raised_evts);;
  evt ← lift (raised_evts !! 0%nat);
  assert_eq (Core.CanSend true) evt.

Definition when_send_starts_event_is_raised : P () :=
  let pair := Pair_from in
  let eid := EndpointId_from 5 in
  let pipe := new_test_pipe eid in
  pair ← add_pipe eid pipe pair;
  pair ← on_send_ready eid pair;
  pair ← send Message_new None pair;
  pair ← on_send_ack eid pair;
  pair ← on_send_ready eid pair;
  sensor ← borrow;
  let raised_evts := raised_events sensor in
  assert_eq 3 (len raised_evts);;
  evt ← lift (raised_evts !! 0%nat);
  assert_eq (Core.CanSend true) evt;;
  evt ← lift (raised_evts !! 1%nat);
  assert_eq (Core.CanSend false) evt;;
  evt ← lift (raised_evts !! 2%nat);
  assert_eq (Core.CanSend true) evt.

Definition when_recv_starts_event_is_raised : P () :=
  let pair := Pair_from in
  let eid := EndpointId_from 6 in
  let pipe := new_test_pipe eid in
  pair ← add_pipe eid pipe pair;
  pair ← on_recv_ready eid pair;
  pair ← recv None pair;
  pair ← on_recv_ack eid Message_new pair;
  pair ← on_recv_ready eid pair;
  sensor ← borrow;
  let raised_evts := raised_events sensor in
  assert_eq 3 (len raised_evts);;
  evt ← lift (raised_evts !! 0%nat);
  assert_eq (Core.CanRecv true) evt;;
  evt ← lift (raised_evts !! 1%nat);
  assert_eq (Core.CanRecv false) evt;;
  evt ← lift (raised_evts !! 2%nat);
  assert_eq (Core.CanRecv true) evt.

Definition when_send_ready_pipe_is_removed_event_is_raised : P () :=
  let pair := Pair_from in
  let eid := EndpointId_from 5 in
  let pipe := new_test_pipe eid in
  pair ← add_pipe eid pipe pair;
  pair ← on_send_ready eid pair;
  '(_, pair) ← remove_pipe eid pair;
  sensor ← borrow;
  let raised_evts := raised_events sensor in
  assert_eq 2 (len raised_evts);;
  evt ← lift (raised_evts !! 0%nat);
  assert_eq (Core.CanSend true) evt;;
  evt ← lift (raised_evts !! 1%nat);
  assert_eq (Core.CanSend false) evt.

Definition when_recv_ready_pipe_is_removed_event_is_raised : P () :=
  let pair := Pair_from in
  let eid := EndpointId_from 5 in
  let pipe := new_test_pipe eid in
  pair ← add_pipe eid pipe pair;
  pair ← on_recv_ready eid pair;
  '(_, pair) ← remove_pipe eid pair;
  sensor ← borrow;
  let raised_evts := raised_events sensor in
  assert_eq 2 (len raised_evts);;
  evt ← lift (raised_evts !! 0%nat);
  assert_eq (Core.CanRecv true) evt;;
  evt ← lift (raised_evts !! 1%nat);
  assert_eq (Core.CanRecv false) evt.

Definition pair_suite : list (string * P ()) :=
  [ ("adding_more_than_one_pipe_should_close_the_subsequent_ones", adding_more_than_one_pipe_should_close_the_subsequent_ones);
    ("remove_returns_the_added_pipe", remove_returns_the_added_pipe);
    ("can_put_send_on_hold_and_resume_when_a_pipe_is_added_and_becomes_ready", can_put_send_on_hold_and_resume_when_a_pipe_is_added_and_becomes_ready);
    ("when_send_succeed_it_is_notified_and_timeout_is_cancelled", when_send_succeed_it_is_notified_and_timeout_is_cancelled);
    ("when_send_timeout_is_reached_err_is_notified", when_send_timeout_is_reached_err_is_notified);
    ("when_recv_succeed_it_is_notified_and_timeout_is_cancelled", when_recv_succeed_it_is_notified_and_timeout_is_cancelled);
    ("can_put_recv_on_hold_and_resume_when_a_pipe_is_added_and_becomes_ready", can_put_recv_on_hold_and_resume_when_a_pipe_is_added_and_becomes_ready);
    ("when_recv_timeout_is_reached_err_is_notified", when_recv_timeout_is_reached_err_is_notified);
    ("when_peer_becomes_writable_can_send_event_is_raised", when_peer_becomes_writable_can_send_event_is_raised);
    ("when_send_starts_event_is_raised", when_send_starts_event_is_raised);
    ("when_recv_starts_event_is_raised", when_recv_starts_event_is_raised);
    ("when_send_ready_pipe_is_removed_event_is_raised", when_send_ready_pipe_is_removed_event_is_raised);
    ("when_recv_ready_pipe_is_removed_event_is_raised", when_recv_ready_pipe_is_removed_event_is_raised) ].

Lemma pair_suite_passes : failures pair_suite = [].
Proof. vm_compute. reflexivity. Qed.
