(* ===== verification/ReqTests.v ===== *)
(** * The unit tests of proto/req.rs, on [Req] (the seed of the ids is 7) *)

From S2P Require Import Prelude Core Context Protocol Codec Req Bench.

#[local] Existing Instances TestContext be_ref.

Definition when_send_succeed_it_is_notified_and_timeout_is_cancelled : P () :=
  let rx := channel in
  let req := (Req_from 7) in
  let eid := EndpointId_from 0 in
  let pipe := new_test_pipe eid in
  req ← add_pipe eid pipe req;
  req ← on_send_ready eid req;
  let msg := Message_new in
  let timeout := Scheduled_from 1 in
  req ← send msg (Some timeout) req;
  req ← on_send_ack eid req;
  '(reply, rx) ← rx_recv rx;
  let is_reply_ok := match reply with ReplySend => true | _ => false end in
  assert is_reply_ok;;
  sensor ← borrow;
  assert_one_send_to eid sensor;;
  assert_one_cancellation timeout sensor.

Definition when_send_starts_event_is_raised : P () :=
  let req := (Req_from 7) in
  let eid := EndpointId_from 1 in
  let pipe := new_test_pipe eid in
  req ← add_pipe eid pipe req;
  req ← on_send_ready eid req;
  req ← send Message_new None req;
  req ← on_send_ack eid req;
  req ← on_send_ready eid req;
  sensor ← borrow;
  let raised_evts := raised_events sensor in
  assert_eq 3 (len raised_evts);;
  evt ← lift (raised_evts !! 0%nat);
  assert_eq (Core.CanSend true) evt;;
  evt ← lift (raised_evts !! 1%nat);
  assert_eq (Core.CanSend false) evt;;
  evt ← lift (raised_evts !! 2%nat);
  assert_eq (Core.CanSend true) evt.

Definition when_send_ready_pipe_is_removed_event_is_raised : P () :=
  let req := (Req_from 7) in
  let eid := EndpointId_from 2 in
  let pipe := new_test_pipe eid in
  req ← add_pipe eid pipe req;
  req ← on_send_ready eid req;
  '(_, req) ← remove_pipe eid req;
  sensor ← borrow;
  let raised_evts := raised_events sensor in
  assert_eq 2 (len raised_evts);;
  evt ← lift (raised_evts !! 0%nat);
  assert_eq (Core.CanSend true) evt;;
  evt ← lift (raised_evts !! 1%nat);
  assert_eq (Core.CanSend false) evt.

Definition when_active_pipe_is_removed_event_is_raised : P () :=
  let req := (Req_from 7) in
  let eid := EndpointId_from 1 in
  let pipe := new_test_pipe eid in
  let eid_o := EndpointId_from 2 in
  let pipe_o := new_test_pipe eid in
  req ← add_pipe eid pipe req;
  req ← add_pipe eid_o pipe_o req;
  sensor ← borrow;
  assert_eq 0 (len (raised_events sensor));;
  req ← on_send_ready eid req;
  sensor ← borrow;
  assert_eq 1 (len (raised_events sensor));;
  sensor ← borrow;
  evt ← lift ((raised_events sensor) !! 0%nat);
  assert_eq (Core.CanSend true) evt;;
  req ← send Message_new None req;
  sensor ← borrow;
  assert_eq 2 (len (raised_events sensor));;
  sensor ← borrow;
  evt ← lift ((raised_events sensor) !! 1%nat);
  assert_eq (Core.CanSend false) evt;;
  req ← on_send_ack eid req;
  sensor ← borrow;
  assert_eq 2 (len (raised_events sensor));;
  req ← on_recv_ready eid_o req;
  sensor ← borrow;
  assert_eq 2 (len (raised_events sensor));;
  req ← on_recv_ready eid req;
  sensor ← borrow;
  assert_eq 3 (len (raised_events sensor));;
  sensor ← borrow;
  evt ← lift ((raised_events sensor) !! 2%nat);
  assert_eq (Core.CanRecv true) evt;;
  '(_, req) ← remove_pipe eid req;
  sensor ← borrow;
  assert_eq 4 (len (raised_events sensor));;
  sensor ← borrow;
  evt ← lift ((raised_events sensor) !! 3%nat);
  assert_eq (Core.CanRecv false) evt.

Definition when_in_regular_mode_send_will_append_request_id_to_the_header : P () :=
  let req := (Req_from 7) in
  let eid := EndpointId_from 4 in
  let pipe := new_test_pipe eid in
  let app_msg := from_body [1; 2; 3] in
  req ← add_pipe eid pipe req;
  req ← on_send_ready eid req;
  req ← send app_msg None req;
  sensor ← borrow;
  let send_calls := send_calls sensor in
  assert_eq 1 (len send_calls);;
  '(_, proto_msg) ← lift (send_calls !! 0%nat);
  let header := get_header proto_msg in
  let body := get_body proto_msg in
  assert_eq 4 (len header);;
  assert_eq 3 (len body);;
  let req_id := be_read_u32 header in
  let control := Z.land req_id 0x80000000 in
  assert_eq 0x80000000 control.

Definition when_in_raw_mode_send_will_not_append_anything_to_the_header : P () :=
  let req := (Req_from 7) in
  let eid := EndpointId_from 5 in
  let pipe := new_test_pipe eid in
  let app_msg := from_body [1; 2; 3] in
  req ← on_device_plugged req;
  req ← add_pipe eid pipe req;
  req ← on_send_ready eid req;
  req ← send app_msg None req;
  sensor ← borrow;
  let send_calls := send_calls sensor in
  assert_eq 1 (len send_calls);;
  '(_, proto_msg) ← lift (send_calls !! 0%nat);
  let header := get_header proto_msg in
  let body := get_body proto_msg in
  assert_eq 0 (len header);;
  assert_eq 3 (len body).

Definition when_in_regular_mode_recv_while_idle_will_fail : P () :=
  let rx := channel in
  let req := (Req_from 7) in
  let eid := EndpointId_from 0 in
  let pipe := new_test_pipe eid in
  req ← add_pipe eid pipe req;
  req ← on_recv_ready eid req;
  req ← recv None req;
  '(reply, rx) ← rx_recv rx;
  let is_reply_err := match reply with ReplyErr _ => true | _ => false end in
  assert is_reply_err.

Definition when_in_regular_mode_recv_while_active_will_drop_msg_with_wrong_request_id : P () :=
  let rx := channel in
  let req := (Req_from 7) in
  let eid := EndpointId_from 0 in
  let pipe := new_test_pipe eid in
  req ← add_pipe eid pipe req;
  req ← on_send_ready eid req;
  req ← send Message_new None req;
  req ← on_send_ack eid req;
  '(_, rx) ← rx_recv rx;
  id ← lift (checked_sub 32 (req_id_seq (inner req)) 1);
  let bad_request_id := Z.lor id 0x80000000 in
  let body := [0; 0; 0; 0; 4; 2; 1] in
  body ← write_u32 bad_request_id 0 4 body;
  let msg := from_body body in
  req ← on_recv_ready eid req;
  req ← recv None req;
  req ← on_recv_ack eid msg req;
  rx_empty rx.

Definition when_in_regular_mode_recv_while_active_will_accept_msg_with_right_request_id : P () :=
  let rx := channel in
  let req := (Req_from 7) in
  let eid := EndpointId_from 0 in
  let pipe := new_test_pipe eid in
  req ← add_pipe eid pipe req;
  req ← on_send_ready eid req;
  req ← send Message_new None req;
  req ← on_send_ack eid req;
  '(_, rx) ← rx_recv rx;
  let good_request_id := Z.lor (req_id_seq (inner req)) 0x80000000 in
  let body := [0; 0; 0; 0; 4; 2; 1] in
  body ← write_u32 good_request_id 0 4 body;
  let msg := from_body body in
  req ← on_recv_ready eid req;
  req ← recv None req;
  req ← on_recv_ack eid msg req;
  '(reply, rx) ← rx_recv rx;
  let is_reply_ok := match reply with ReplyRecv _ => true | _ => false end in
  assert is_reply_ok.

Definition when_in_regular_mode_recv_moves_the_request_id_from_the_body_to_the_header : P () :=
  let rx := channel in
  let req := (Req_from 7) in
  let eid := EndpointId_from 0 in
  let pipe := new_test_pipe eid in
  req ← add_pipe eid pipe req;
  req ← on_send_ready eid req;
  req ← send Message_new None req;
  req ← on_send_ack eid req;
  '(_, rx) ← rx_recv rx;
  let good_request_id := Z.lor (req_id_seq (inner req)) 0x80000000 in
  let body := [0; 0; 0; 0; 4; 2; 1] in
  body ← write_u32 good_request_id 0 4 body;
  let msg := from_body body in
  req ← on_recv_ready eid req;
  req ← recv None req;
  req ← on_recv_ack eid msg req;
  '(reply, rx) ← rx_recv rx;
  let reply_msg := match reply with ReplyRecv msg => Some msg | _ => None end in
  app_msg ← lift reply_msg;
  assert_eq 4 (len (get_header app_msg));;
  assert_eq 3 (len (get_body app_msg)).

Definition when_in_raw_mode_recv_while_active_will_accept_msg_with_any_request_id : P () :=
  let rx := channel in
  let req := (Req_from 7) in
  let eid := EndpointId_from 0 in
  let pipe := new_test_pipe eid in
  req ← on_device_plugged req;
  req ← add_pipe eid pipe req;
  req ← on_send_ready eid req;
  req ← send Message_new None req;
  req ← on_send_ack eid req;
  '(_, rx) ← rx_recv rx;
  id ← lift (checked_add 32 (req_id_seq (inner req)) 666);
  let bad_request_id := Z.lor id 0x80000000 in
  let body := [0; 0; 0; 0; 4; 2; 1] in
  body ← write_u32 bad_request_id 0 4 body;
  let msg := from_body body in
  req ← on_recv_ready eid req;
  req ← recv None req;
  req ← on_recv_ack eid msg req;
  '(reply, rx) ← rx_recv rx;
  let is_reply_ok := match reply with ReplyRecv _ => true | _ => false end in
  assert is_reply_ok.

Definition when_in_raw_mode_recv_while_idle_will_succeed : P () :=
  let rx := channel in
  let req := (Req_from 7) in
  let eid := EndpointId_from 0 in
  let pipe := new_test_pipe eid in
  id ← lift (checked_add 32 (req_id_seq (inner req)) 666);
  let request_id := Z.lor id 0x80000000 in
  let body := [0; 0; 0; 0; 4; 2; 1] in
  body ← write_u32 request_id 0 4 body;
  let msg := from_body body in
  req ← on_device_plugged req;
  req ← add_pipe eid pipe req;
  req ← on_recv_ready eid req;
  req ← recv None req;
  req ← on_recv_ack eid msg req;
  '(reply, rx) ← rx_recv rx;
  let is_reply_ok := match reply with ReplyRecv _ => true | _ => false end in
  assert is_reply_ok.

Definition when_in_raw_mode_recv_moves_the_request_id_from_the_body_to_the_header : P () :=
  let rx := channel in
  let req := (Req_from 7) in
  let eid := EndpointId_from 0 in
  let pipe := new_test_pipe eid in
  id ← lift (checked_add 32 (req_id_seq (inner req)) 666);
  let request_id := Z.lor id 0x80000000 in
  let body := [0; 0; 0; 0; 4; 2; 1] in
  body ← write_u32 request_id 0 4 body;
  let msg := from_body body in
  req ← on_device_plugged req;
  req ← add_pipe eid pipe req;
  req ← on_recv_ready eid req;
  req ← recv None req;
  req ← on_recv_ack eid msg req;
  '(reply, rx) ← rx_recv rx;
  let reply_msg := match reply with ReplyRecv msg => Some msg | _ => None end in
  app_msg ← lift reply_msg;
  assert_eq 4 (len (get_header app_msg));;
  assert_eq 3 (len (get_body app_msg)).

Definition when_in_raw_mode_recv_will_accept_any_msg_with_a_four_bytes_header : P () :=
  let rx := channel in
  let req := (Req_from 7) in
  let eid := EndpointId_from 0 in
  let pipe := new_test_pipe eid in
  let request_id := 666 in
  let body := [0; 0; 0; 0; 4; 2] in
  body ← write_u32 request_id 0 4 body;
  let msg := from_body body in
  req ← on_device_plugged req;
  req ← add_pipe eid pipe req;
  req ← on_recv_ready eid req;
  req ← recv None req;
  req ← on_recv_ack eid msg req;
  '(reply, rx) ← rx_recv rx;
  let reply_msg := match reply with ReplyRecv msg => Some msg | _ => None end in
  app_msg ← lift reply_msg;
  assert_eq 4 (len (get_header app_msg));;
  assert_eq 2 (len (get_body app_msg)).

Definition req_suite : list (string * P ()) :=
  [ ("when_send_succeed_it_is_notified_and_timeout_is_cancelled", when_send_succeed_it_is_notified_and_timeout_is_cancelled);
    ("when_send_starts_event_is_raised", when_send_starts_event_is_raised);
    ("when_send_ready_pipe_is_removed_event_is_raised", when_send_ready_pipe_is_removed_event_is_raised);
    ("when_active_pipe_is_removed_event_is_raised", when_active_pipe_is_removed_event_is_raised);
    ("when_in_regular_mode_send_will_append_request_id_to_the_header", when_in_regular_mode_send_will_append_request_id_to_the_header);
    ("when_in_raw_mode_send_will_not_append_anything_to_the_header", when_in_raw_mode_send_will_not_append_anything_to_the_header);
    ("when_in_regular_mode_recv_while_idle_will_fail", when_in_regular_mode_recv_while_idle_will_fail);
    ("when_in_regular_mode_recv_while_active_will_drop_msg_with_wrong_request_id", when_in_regular_mode_recv_while_active_will_drop_msg_with_wrong_request_id);
    ("when_in_regular_mode_recv_while_active_will_accept_msg_with_right_request_id", when_in_regular_mode_recv_while_active_will_accept_msg_with_right_request_id);
    ("when_in_regular_mode_recv_moves_the_request_id_from_the_body_to_the_header", when_in_regular_mode_recv_moves_the_request_id_from_the_body_to_the_header);
    ("when_in_raw_mode_recv_while_active_will_accept_msg_with_any_request_id", when_in_raw_mode_recv_while_active_will_accept_msg_with_any_request_id);
    ("when_in_raw_mode_recv_while_idle_will_succeed", when_in_raw_mode_recv_while_idle_will_succeed);
    ("when_in_raw_mode_recv_moves_the_request_id_from_the_body_to_the_header", when_in_raw_mode_recv_moves_the_request_id_from_the_body_to_the_header);
    ("when_in_raw_mode_recv_will_accept_any_msg_with_a_four_bytes_header", when_in_raw_mode_recv_will_accept_any_msg_with_a_four_bytes_header) ].

Lemma req_suite_passes : failures req_suite = [].
Proof. vm_compute. reflexivity. Qed.
