(* ===== verification/RepTests.v ===== *)
(** * The unit tests of proto/rep.rs, on [Rep] *)

From S2P Require Import Prelude Core Context Protocol Codec Rep Bench.

#[local] Existing Instances TestContext be_ref.

Definition when_recv_succeed_it_is_notified_and_timeout_is_cancelled : P () :=
  let rx := channel in
  let rep := Rep_from in
  let eid := EndpointId_from 0 in
  let pipe := new_test_pipe eid in
  let timeout := Scheduled_from 1 in
  let request_id := Z.lor 666 0x80000000 in
  let body := [0; 0; 0; 0; 4; 2; 1] in
  body ← write_u32 request_id 0 4 body;
  let msg := from_body body in
  rep ← add_pipe eid pipe rep;
  rep ← on_recv_ready eid rep;
  rep ← recv (Some timeout) rep;
  rep ← on_recv_ack eid msg rep;
  '(reply, rx) ← rx_recv rx;
  let is_reply_ok := match reply with ReplyRecv _ => true | _ => false end in
  assert is_reply_ok;;
  sensor ← borrow;
  assert_one_recv_from eid sensor;;
  assert_one_cancellation timeout sensor.

Definition send_before_recv_notifies_an_error : P () :=
  let rx := channel in
  let rep := Rep_from in
  let eid := EndpointId_from 0 in
  let pipe := new_test_pipe eid in
  rep ← add_pipe eid pipe rep;
  rep ← on_send_ready eid rep;
  let msg := Message_new in
  let timeout := Scheduled_from 1 in
  rep ← send msg (Some timeout) rep;
  rep ← on_send_ack eid rep;
  '(reply, rx) ← rx_recv rx;
  let is_reply_err := match reply with ReplyErr _ => true | _ => false end in
  assert is_reply_err;;
  sensor ← borrow;
  assert_no_send_call sensor;;
  assert_one_cancellation timeout sensor.

Definition when_send_succeed_it_is_notified_and_timeout_is_cancelled : P () :=
  let rx := channel in
  let rep := Rep_from in
  let eid := EndpointId_from 0 in
  let pipe := new_test_pipe eid in
  let timeout := Scheduled_from 1 in
  let request_id := Z.lor 666 0x80000000 in
  let body := [0; 0; 0; 0; 4; 2; 1] in
  body ← write_u32 request_id 0 4 body;
  let msg := from_body body in
  rep ← add_pipe eid pipe rep;
  rep ← on_recv_ready eid rep;
  rep ← recv None rep;
  rep ← on_recv_ack eid msg rep;
  '(_, rx) ← rx_recv rx;
  rep ← on_send_ready eid rep;
  rep ← send Message_new (Some timeout) rep;
  rep ← on_send_ack eid rep;
  '(reply, rx) ← rx_recv rx;
  let is_reply_ok := match reply with ReplySend => true | _ => false end in
  assert is_reply_ok;;
  sensor ← borrow;
  assert_one_send_to eid sensor;;
  assert_one_cancellation timeout sensor.

Definition when_recv_starts_event_is_raised : P () :=
  let rep := Rep_from in
  let eid := EndpointId_from 1 in
  let pipe := new_test_pipe eid in
  rep ← add_pipe eid pipe rep;
  rep ← on_recv_ready eid rep;
  rep ← recv None rep;
  rep ← on_recv_ack eid Message_new rep;
  rep ← on_recv_ready eid rep;
  sensor ← borrow;
  let raised_evts := raised_events sensor in
  assert_eq 3 (len raised_evts);;
  evt ← lift (raised_evts !! 0%nat);
  assert_eq (Core.CanRecv true) evt;;
  evt ← lift (raised_evts !! 1%nat);
  assert_eq (Core.CanRecv false) evt;;
  evt ← lift (raised_evts !! 2%nat);
  assert_eq (Core.CanRecv true) evt.

Definition when_send_starts_event_is_raised : P () :=
  let rx := channel in
  let rep := Rep_from in
  let eid := EndpointId_from 1 in
  let pipe := new_test_pipe eid in
  let request_id := Z.lor 666 0x80000000 in
  let body := [0; 0; 0; 0; 4; 2; 1] in
  body ← write_u32 request_id 0 4 body;
  let msg := from_body body in
  rep ← add_pipe eid pipe rep;
  rep ← on_recv_ready eid rep;
  rep ← recv None rep;
  rep ← on_recv_ack eid msg rep;
  '(_, rx) ← rx_recv rx;
  rep ← on_send_ready eid rep;
  rep ← send Message_new None rep;
  rep ← on_send_ack eid rep;
  sensor ← borrow;
  let raised_evts := raised_events sensor in
  assert_eq 4 (len raised_evts);;
  evt ← lift (raised_evts !! 0%nat);
  assert_eq (Core.CanRecv true) evt;;
  evt ← lift (raised_evts !! 1%nat);
  assert_eq (Core.CanRecv false) evt;;
  evt ← lift (raised_evts !! 2%nat);
  assert_eq (Core.CanSend true) evt;;
  evt ← lift (raised_evts !! 3%nat);
  assert_eq (Core.CanSend false) evt.

Definition when_recv_ready_pipe_is_removed_event_is_raised : P () :=
  let rep := Rep_from in
  let eid := EndpointId_from 2 in
  let pipe := new_test_pipe eid in
  rep ← add_pipe eid pipe rep;
  rep ← on_recv_ready eid rep;
  '(_, rep) ← remove_pipe eid rep;
  sensor ← borrow;
  let raised_evts := raised_events sensor in
  assert_eq 2 (len raised_evts);;
  evt ← lift (raised_evts !! 0%nat);
  assert_eq (Core.CanRecv true) evt;;
  evt ← lift (raised_evts !! 1%nat);
  assert_eq (Core.CanRecv false) evt.

Definition when_in_regular_mode_recv_will_store_endpoint_and_backtrace_in_socket_state : P () :=
  let rx := channel in
  let rep := Rep_from in
  let eid := EndpointId_from 0 in
  let pipe := new_test_pipe eid in
  let request_id := Z.lor 666 0x80000000 in
  let body := [0; 2; 4; 2; 0; 0; 0; 0; 4; 2; 1] in
  body ← write_u32 request_id 4 8 body;
  let msg := from_body body in
  rep ← add_pipe eid pipe rep;
  rep ← on_recv_ready eid rep;
  rep ← recv None rep;
  rep ← on_recv_ack eid msg rep;
  '(reply, rx) ← rx_recv rx;
  let reply_msg := match reply with ReplyRecv msg => Some msg | _ => None end in
  app_msg ← lift reply_msg;
  assert_eq 0 (len (get_header app_msg));;
  assert_eq 3 (len (get_body app_msg));;
  assert_eq 12 (len (Inner_get_backtrace (inner rep))).

Definition when_in_raw_mode_recv_will_store_endpoint_and_backtrace_in_msg_header : P () :=
  let rx := channel in
  let rep := Rep_from in
  let eid := EndpointId_from 0 in
  let pipe := new_test_pipe eid in
  let request_id := Z.lor 666 0x80000000 in
  let body := [0; 2; 4; 2; 0; 0; 0; 0; 4; 2; 1] in
  body ← write_u32 request_id 4 8 body;
  let msg := from_body body in
  rep ← on_device_plugged rep;
  rep ← add_pipe eid pipe rep;
  rep ← on_recv_ready eid rep;
  rep ← recv None rep;
  rep ← on_recv_ack eid msg rep;
  '(reply, rx) ← rx_recv rx;
  let reply_msg := match reply with ReplyRecv msg => Some msg | _ => None end in
  app_msg ← lift reply_msg;
  assert_eq 12 (len (get_header app_msg));;
  assert_eq 3 (len (get_body app_msg));;
  assert_eq 0 (len (Inner_get_backtrace (inner rep))).

Definition when_in_regular_mode_send_will_restore_backtrace_from_socket_state_in_header_before_removing_endoint_id : P () :=
  let rx := channel in
  let rep := Rep_from in
  let eid := EndpointId_from 0 in
  let pipe := new_test_pipe eid in
  let request_id := Z.lor 666 0x80000000 in
  let body := [0; 2; 4; 2; 0; 0; 0; 0; 4; 2; 1] in
  body ← write_u32 request_id 4 8 body;
  let msg := from_body body in
  rep ← add_pipe eid pipe rep;
  rep ← on_recv_ready eid rep;
  rep ← recv None rep;
  rep ← on_recv_ack eid msg rep;
  '(reply, rx) ← rx_recv rx;
  let reply_msg := match reply with ReplyRecv msg => Some msg | _ => None end in
  app_msg ← lift reply_msg;
  assert_eq 0 (len (get_header app_msg));;
  assert_eq 3 (len (get_body app_msg));;
  assert_eq 12 (len (Inner_get_backtrace (inner rep)));;
  rep ← on_send_ready eid rep;
  rep ← send Message_new None rep;
  rep ← on_send_ack eid rep;
  sensor ← borrow;
  assert_one_send_to eid sensor;;
  assert_eq 0 (len (Inner_get_backtrace (inner rep))).

Definition when_in_raw_mode_send_will_remove_endpoint_id_from_header : P () :=
  let rep := Rep_from in
  let eid := EndpointId_from 1 in
  let pipe := new_test_pipe eid in
  let header := [0; 0; 0; 1] in
  let body := [6; 6; 6; 6; 4; 2; 1] in
  let msg := from_header_and_body header body in
  rep ← on_device_plugged rep;
  rep ← add_pipe eid pipe rep;
  rep ← on_send_ready eid rep;
  rep ← send msg None rep;
  rep ← on_send_ack eid rep;
  sensor ← borrow;
  assert_one_send_to eid sensor;;
  let send_calls := send_calls sensor in
  assert_eq 1 (len send_calls);;
  '(_, proto_msg) ← lift (send_calls !! 0%nat);
  let header := get_header proto_msg in
  let body := get_body proto_msg in
  assert_eq 0 (len header);;
  assert_eq 7 (len body).

Definition when_in_raw_mode_send_while_peer_is_not_ready_drops_the_message_and_reports_success : P () :=
  let rx := channel in
  let rep := Rep_from in
  let eid := EndpointId_from 1 in
  let pipe := new_test_pipe eid in
  let header := [0; 0; 0; 1] in
  let body := [6; 6; 6; 6; 4; 2; 1] in
  let msg := from_header_and_body header body in
  rep ← on_device_plugged rep;
  rep ← add_pipe eid pipe rep;
  rep ← send msg None rep;
  rep ← on_send_ack eid rep;
  '(reply, rx) ← rx_recv rx;
  let is_reply_ok := match reply with ReplySend => true | _ => false end in
  assert is_reply_ok;;
  sensor ← borrow;
  assert_no_send_call sensor.

Definition rep_suite : list (string * P ()) :=
  [ ("when_recv_succeed_it_is_notified_and_timeout_is_cancelled", when_recv_succeed_it_is_notified_and_timeout_is_cancelled);
    ("send_before_recv_notifies_an_error", send_before_recv_notifies_an_error);
    ("when_send_succeed_it_is_notified_and_timeout_is_cancelled", when_send_succeed_it_is_notified_and_timeout_is_cancelled);
    ("when_recv_starts_event_is_raised", when_recv_starts_event_is_raised);
    ("when_send_starts_event_is_raised", when_send_starts_event_is_raised);
    ("when_recv_ready_pipe_is_removed_event_is_raised", when_recv_ready_pipe_is_removed_event_is_raised);
    ("when_in_regular_mode_recv_will_store_endpoint_and_backtrace_in_socket_state", when_in_regular_mode_recv_will_store_endpoint_and_backtrace_in_socket_state);
    ("when_in_raw_mode_recv_will_store_endpoint_and_backtrace_in_msg_header", when_in_raw_mode_recv_will_store_endpoint_and_backtrace_in_msg_header);
    ("when_in_regular_mode_send_will_restore_backtrace_from_socket_state_in_header_before_removing_endoint_id", when_in_regular_mode_send_will_restore_backtrace_from_socket_state_in_header_before_removing_endoint_id);
    ("when_in_raw_mode_send_will_remove_endpoint_id_from_header", when_in_raw_mode_send_will_remove_endpoint_id_from_header);
    ("when_in_raw_mode_send_while_peer_is_not_ready_drops_the_message_and_reports_success", when_in_raw_mode_send_while_peer_is_not_ready_drops_the_message_and_reports_success) ].

Lemma rep_suite_passes : failures rep_suite = [].
Proof. vm_compute. reflexivity. Qed.
