(* ===== verification/PriolistTests.v ===== *)
(** * The unit tests of proto/priolist.rs, on [Priolist] *)

From S2P Require Import Prelude Core Context Priolist Bench.

#[local] Existing Instance TestContext.

Definition insert_does_not_activate : P () :=
  let priolist := new in
  let eid := EndpointId_from 0 in
  let priolist := insert eid 8 priolist in
  '(next, priolist) ← lift (pop priolist);
  assert (bool_decide (next = None)).

Definition activate_makes_next_available : P () :=
  let priolist := new in
  let eid := EndpointId_from 0 in
  let priolist := insert eid 8 priolist in
  priolist ← lift (activate eid priolist);
  '(next, priolist) ← lift (pop priolist);
  assert_eq (Some eid) next.

Definition activate_does_not_change_existing_next : P () :=
  let priolist := new in
  let first := EndpointId_from 0 in
  let second := EndpointId_from 1 in
  let priolist := insert first 8 priolist in
  let priolist := insert second 8 priolist in
  priolist ← lift (activate first priolist);
  priolist ← lift (activate second priolist);
  '(next, priolist) ← lift (pop priolist);
  assert_eq (Some first) next.

Definition next_can_move_forward : P () :=
  let priolist := new in
  let first := EndpointId_from 0 in
  let second := EndpointId_from 1 in
  let priolist := insert first 8 priolist in
  let priolist := insert second 8 priolist in
  priolist ← lift (activate first priolist);
  priolist ← lift (activate second priolist);
  '(next, priolist) ← lift (pop priolist);
  assert_eq (Some first) next;;
  '(next, priolist) ← lift (pop priolist);
  assert_eq (Some second) next.

Definition next_can_wrap : P () :=
  let priolist := new in
  let one := EndpointId_from 0 in
  let two := EndpointId_from 1 in
  let three := EndpointId_from 2 in
  let four := EndpointId_from 3 in
  let priolist := insert one 8 priolist in
  let priolist := insert two 8 priolist in
  let priolist := insert three 8 priolist in
  let priolist := insert four 8 priolist in
  priolist ← lift (activate three priolist);
  priolist ← lift (activate four priolist);
  priolist ← lift (activate one priolist);
  priolist ← lift (activate two priolist);
  '(next, priolist) ← lift (pop priolist);
  assert_eq (Some three) next;;
  '(next, priolist) ← lift (pop priolist);
  assert_eq (Some four) next;;
  '(next, priolist) ← lift (pop priolist);
  assert_eq (Some one) next;;
  '(next, priolist) ← lift (pop priolist);
  assert_eq (Some two) next.

Definition next_deactivates : P () :=
  let priolist := new in
  let eid := EndpointId_from 0 in
  let priolist := insert eid 8 priolist in
  priolist ← lift (activate eid priolist);
  '(next, priolist) ← lift (pop priolist);
  assert_eq (Some eid) next;;
  '(next, priolist) ← lift (pop priolist);
  assert_eq None next.

Definition next_can_skip_lower_priorities : P () :=
  let priolist := new in
  let one := EndpointId_from 0 in
  let two := EndpointId_from 1 in
  let three := EndpointId_from 2 in
  let four := EndpointId_from 3 in
  let priolist := insert one 0 priolist in
  let priolist := insert two 8 priolist in
  let priolist := insert three 0 priolist in
  let priolist := insert four 8 priolist in
  priolist ← lift (activate three priolist);
  priolist ← lift (activate four priolist);
  priolist ← lift (activate one priolist);
  priolist ← lift (activate two priolist);
  '(next, priolist) ← lift (pop priolist);
  assert_eq (Some three) next;;
  '(next, priolist) ← lift (pop priolist);
  assert_eq (Some one) next.

Definition remove_current_can_make_next_unavailable : P () :=
  let priolist := new in
  let one := EndpointId_from 0 in
  let two := EndpointId_from 1 in
  let three := EndpointId_from 2 in
  let four := EndpointId_from 3 in
  let priolist := insert one 0 priolist in
  let priolist := insert two 8 priolist in
  let priolist := insert three 0 priolist in
  let priolist := insert four 8 priolist in
  priolist ← lift (activate three priolist);
  priolist ← lift (remove three priolist);
  '(next, priolist) ← lift (pop priolist);
  assert_eq None next.

Definition remove_current_can_move_forward : P () :=
  let priolist := new in
  let one := EndpointId_from 0 in
  let two := EndpointId_from 1 in
  let three := EndpointId_from 2 in
  let four := EndpointId_from 3 in
  let priolist := insert one 8 priolist in
  let priolist := insert two 8 priolist in
  let priolist := insert three 8 priolist in
  let priolist := insert four 8 priolist in
  priolist ← lift (activate three priolist);
  priolist ← lift (activate four priolist);
  priolist ← lift (remove three priolist);
  '(next, priolist) ← lift (pop priolist);
  assert_eq (Some four) next.

Definition remove_current_can_wrap : P () :=
  let priolist := new in
  let one := EndpointId_from 0 in
  let two := EndpointId_from 1 in
  let three := EndpointId_from 2 in
  let four := EndpointId_from 3 in
  let priolist := insert one 8 priolist in
  let priolist := insert two 8 priolist in
  let priolist := insert three 8 priolist in
  let priolist := insert four 8 priolist in
  priolist ← lift (activate three priolist);
  priolist ← lift (activate two priolist);
  priolist ← lift (remove three priolist);
  '(next, priolist) ← lift (pop priolist);
  assert_eq (Some two) next.

Definition remove_can_skip_lower_priorities : P () :=
  let priolist := new in
  let one := EndpointId_from 0 in
  let two := EndpointId_from 1 in
  let three := EndpointId_from 2 in
  let four := EndpointId_from 3 in
  let priolist := insert one 0 priolist in
  let priolist := insert two 8 priolist in
  let priolist := insert three 0 priolist in
  let priolist := insert four 8 priolist in
  priolist ← lift (activate three priolist);
  priolist ← lift (activate one priolist);
  priolist ← lift (activate two priolist);
  priolist ← lift (activate four priolist);
  priolist ← lift (remove three priolist);
  '(next, priolist) ← lift (pop priolist);
  assert_eq (Some one) next.

Definition activate_higher_priority_changes_next : P () :=
  let priolist := new in
  let one := EndpointId_from 0 in
  let two := EndpointId_from 1 in
  let three := EndpointId_from 2 in
  let four := EndpointId_from 3 in
  let priolist := insert one 8 priolist in
  let priolist := insert two 4 priolist in
  let priolist := insert three 0 priolist in
  let priolist := insert four 8 priolist in
  priolist ← lift (activate one priolist);
  priolist ← lift (activate four priolist);
  '(next, priolist) ← lift (pop priolist);
  assert_eq (Some one) next;;
  priolist ← lift (activate two priolist);
  '(next, priolist) ← lift (pop priolist);
  assert_eq (Some two) next;;
  priolist ← lift (activate three priolist);
  '(next, priolist) ← lift (pop priolist);
  assert_eq (Some three) next.

Definition deactivate_single_can_make_next_unavailable : P () :=
  let priolist := new in
  let eid := EndpointId_from 0 in
  let priolist := insert eid 8 priolist in
  priolist ← lift (activate eid priolist);
  assert_eq (peek priolist) true;;
  priolist ← lift (deactivate eid priolist);
  assert_eq (peek priolist) false.

Definition deactivate_current_can_make_next_unavailable : P () :=
  let priolist := new in
  let one := EndpointId_from 0 in
  let two := EndpointId_from 1 in
  let three := EndpointId_from 2 in
  let four := EndpointId_from 3 in
  let priolist := insert one 0 priolist in
  let priolist := insert two 8 priolist in
  let priolist := insert three 0 priolist in
  let priolist := insert four 8 priolist in
  priolist ← lift (activate three priolist);
  priolist ← lift (deactivate three priolist);
  assert_eq (peek priolist) false.

Definition deactivate_current_can_move_forward : P () :=
  let priolist := new in
  let one := EndpointId_from 0 in
  let two := EndpointId_from 1 in
  let three := EndpointId_from 2 in
  let four := EndpointId_from 3 in
  let priolist := insert one 8 priolist in
  let priolist := insert two 8 priolist in
  let priolist := insert three 8 priolist in
  let priolist := insert four 8 priolist in
  priolist ← lift (activate three priolist);
  priolist ← lift (activate four priolist);
  priolist ← lift (deactivate three priolist);
  '(next, priolist) ← lift (pop priolist);
  assert_eq (Some four) next.

Definition priolist_suite : list (string * P ()) :=
  [ ("insert_does_not_activate", insert_does_not_activate);
    ("activate_makes_next_available", activate_makes_next_available);
    ("activate_does_not_change_existing_next", activate_does_not_change_existing_next);
    ("next_can_move_forward", next_can_move_forward);
    ("next_can_wrap", next_can_wrap);
    ("next_deactivates", next_deactivates);
    ("next_can_skip_lower_priorities", next_can_skip_lower_priorities);
    ("remove_current_can_make_next_unavailable", remove_current_can_make_next_unavailable);
    ("remove_current_can_move_forward", remove_current_can_move_forward);
    ("remove_current_can_wrap", remove_current_can_wrap);
    ("remove_can_skip_lower_priorities", remove_can_skip_lower_priorities);
    ("activate_higher_priority_changes_next", activate_higher_priority_changes_next);
    ("deactivate_single_can_make_next_unavailable", deactivate_single_can_make_next_unavailable);
    ("deactivate_current_can_make_next_unavailable", deactivate_current_can_make_next_unavailable);
    ("deactivate_current_can_move_forward", deactivate_current_can_move_forward) ].

Lemma priolist_suite_passes : failures priolist_suite = [].
Proof. vm_compute. reflexivity. Qed.
