(* ===== verification/PipeBench.v ===== *)
(** * The bench of the unit tests of pipes (transport/mod.rs, transport/async/tests.rs)

    As [Bench], for the states of a pipe: the context of a test notes registrations
    and events, which are read off the history, and the stub is one whose next
    answers the test chooses through a sensor it shares with it.  The sensor is in
    the stub, and the stub in the state: that is where the test finds it. *)

From S2P Require Import Prelude Core Stream AsyncPipe Windows Bench.

(** ** The context *)

Record TestPipeContext : Type := mkTestPipeContext {
  registrations : list (Ready * PollOpt);
  reregistrations : list (Ready * PollOpt);
  deregistrations : Z;
  raised_events : list PipeEvent
}.

Definition TestPipeContext_new : TestPipeContext := mkTestPipeContext [] [] 0 [].

Definition notes (ctx : TestPipeContext) (e : pipe_effect) : TestPipeContext :=
  match e with
  | Register interest opt =>
      mkTestPipeContext (registrations ctx ++ [(interest, opt)]) (reregistrations ctx) (deregistrations ctx) (raised_events ctx)
  | Reregister interest opt =>
      mkTestPipeContext (registrations ctx) (reregistrations ctx ++ [(interest, opt)]) (deregistrations ctx) (raised_events ctx)
  | Deregister => mkTestPipeContext (registrations ctx) (reregistrations ctx) (deregistrations ctx + 1) (raised_events ctx)
  | Raise evt => mkTestPipeContext (registrations ctx) (reregistrations ctx) (deregistrations ctx) (raised_events ctx ++ [evt])
  end.

Definition pipe_context : Q TestPipeContext := h ← history; mret (foldl notes TestPipeContext_new h).

(** ** The stub *)

Record TestStepStreamSensor : Type := mkTestStepStreamSensor {
  sent_handshakes : list (Z * Z);
  received_handshakes : Z;
  start_send_result : option bool;
  resume_send_result : option bool;
  start_recv_result : option Message;
  resume_recv_result : option Message
}.

Definition TestStepStreamSensor_new : TestStepStreamSensor := mkTestStepStreamSensor [] 0 (Some true) None None None.

Definition push_sent_handshake (sent_handshake : Z * Z) (s : TestStepStreamSensor) : TestStepStreamSensor :=
  mkTestStepStreamSensor (sent_handshakes s ++ [sent_handshake]) (received_handshakes s)
    (start_send_result s) (resume_send_result s) (start_recv_result s) (resume_recv_result s).
Definition push_received_handshake (s : TestStepStreamSensor) : TestStepStreamSensor :=
  mkTestStepStreamSensor (sent_handshakes s) (received_handshakes s + 1)
    (start_send_result s) (resume_send_result s) (start_recv_result s) (resume_recv_result s).
Definition set_start_send_result (res : option bool) (s : TestStepStreamSensor) : TestStepStreamSensor :=
  mkTestStepStreamSensor (sent_handshakes s) (received_handshakes s) res (resume_send_result s) (start_recv_result s) (resume_recv_result s).
Definition set_resume_send_result (res : option bool) (s : TestStepStreamSensor) : TestStepStreamSensor :=
  mkTestStepStreamSensor (sent_handshakes s) (received_handshakes s) (start_send_result s) res (start_recv_result s) (resume_recv_result s).
Definition set_start_recv_result (res : option Message) (s : TestStepStreamSensor) : TestStepStreamSensor :=
  mkTestStepStreamSensor (sent_handshakes s) (received_handshakes s) (start_send_result s) (resume_send_result s) res (resume_recv_result s).
Definition set_resume_recv_result (res : option Message) (s : TestStepStreamSensor) : TestStepStreamSensor :=
  mkTestStepStreamSensor (sent_handshakes s) (received_handshakes s) (start_send_result s) (resume_send_result s) (start_recv_result s) res.

Definition take_start_send_result (s : TestStepStreamSensor) : option bool * TestStepStreamSensor :=
  (start_send_result s, set_start_send_result None s).
Definition take_resume_send_result (s : TestStepStreamSensor) : option bool * TestStepStreamSensor :=
  (resume_send_result s, set_resume_send_result None s).
Definition take_start_recv_result (s : TestStepStreamSensor) : option Message * TestStepStreamSensor :=
  (start_recv_result s, set_start_recv_result None s).
Definition take_resume_recv_result (s : TestStepStreamSensor) : option Message * TestStepStreamSensor :=
  (resume_recv_result s, set_resume_recv_result None s).

Record TestStepStream : Type := mkTestStepStream {
  sensor : TestStepStreamSensor;
  send_handshake_ok : bool;
  recv_handshake_ok : bool;
  pending_send : bool;
  pending_recv : bool
}.

Definition TestStepStream_with_sensor (sensor : TestStepStreamSensor) : TestStepStream :=
  mkTestStepStream sensor true true false false.
Definition TestStepStream_new : TestStepStream := TestStepStream_with_sensor TestStepStreamSensor_new.

Definition set_sensor (x : TestStepStreamSensor) (s : TestStepStream) : TestStepStream :=
  mkTestStepStream x (send_handshake_ok s) (recv_handshake_ok s) (pending_send s) (pending_recv s).
Definition set_pending_send (x : bool) (s : TestStepStream) : TestStepStream :=
  mkTestStepStream (sensor s) (send_handshake_ok s) (recv_handshake_ok s) x (pending_recv s).
Definition set_pending_recv (x : bool) (s : TestStepStream) : TestStepStream :=
  mkTestStepStream (sensor s) (send_handshake_ok s) (recv_handshake_ok s) (pending_send s) x.

Definition TestStepStream_send_handshake (pids : Z * Z) : IO TestStepStream () := λ self,
  let self := set_sensor (push_sent_handshake pids (sensor self)) self in
  if send_handshake_ok self then (IOk (), self) else (IErr (other_io_error "test"), self).
Definition TestStepStream_recv_handshake (_ : Z * Z) : IO TestStepStream () := λ self,
  let self := set_sensor (push_received_handshake (sensor self)) self in
  if recv_handshake_ok self then (IOk (), self) else (IErr (other_io_error "test"), self).

Definition TestStepStream_start_send (_ : Message) : IO TestStepStream bool := λ self,
  let '(res, sensor) := take_start_send_result (sensor self) in
  let self := set_sensor sensor self in
  match res with
  | Some true => (IOk true, set_pending_send false self)
  | Some false => (IOk false, set_pending_send true self)
  | None => (IErr (other_io_error "test"), self)
  end.
Definition TestStepStream_resume_send : IO TestStepStream bool := λ self,
  let '(res, sensor) := take_resume_send_result (sensor self) in
  let self := set_sensor sensor self in
  match res with
  | Some true => (IOk true, set_pending_send false self)
  | Some false => (IOk false, set_pending_send true self)
  | None => (IErr (other_io_error "test"), self)
  end.

Definition TestStepStream_start_recv : IO TestStepStream (option Message) := λ self,
  let '(res, sensor) := take_start_recv_result (sensor self) in
  let self := set_sensor sensor self in
  match res with
  | Some msg => (IOk (Some msg), set_pending_recv false self)
  | None => (IOk None, set_pending_recv true self)
  end.
Definition TestStepStream_resume_recv : IO TestStepStream (option Message) := λ self,
  let '(res, sensor) := take_resume_recv_result (sensor self) in
  let self := set_sensor sensor self in
  match res with
  | Some msg => (IOk (Some msg), set_pending_recv false self)
  | None => (IOk None, set_pending_recv true self)
  end.

#[export] Instance TestStepStream_stub : AsyncPipeStub TestStepStream := {|
  stub_start_send := TestStepStream_start_send;
  stub_resume_send := TestStepStream_resume_send;
  stub_has_pending_send := pending_send;
  stub_start_recv := TestStepStream_start_recv;
  stub_resume_recv := TestStepStream_resume_recv;
  stub_has_pending_recv := pending_recv;
  stub_send_handshake := TestStepStream_send_handshake;
  stub_recv_handshake := TestStepStream_recv_handshake
|}.

(** On Windows, nothing is done by [read_and_write_void] and by the default [registered]. *)
#[export] Instance TestStepStream_windows : WindowsStub TestStepStream := {|
  stub_read_and_write_void s := s;
  stub_registered s := s
|}.

(** ** What the tests look at *)

Abbreviation PipeState := (AsyncPipe.PipeState TestStepStream).

Definition PipeState_name (self : PipeState) : string :=
  match self with
  | Initial _ _ => "Initial"
  | HandshakeTx _ _ => "HandshakeTx"
  | HandshakeRx _ _ => "HandshakeRx"
  | Live _ => "Active"
  | Dead => "Dead"
  end.

(** The sensor of the stub, where there is one. *)
Definition sensor_of (self : PipeState) : option TestStepStreamSensor :=
  match self with
  | Initial s _ | HandshakeTx s _ | HandshakeRx s _ => Some (sensor s)
  | Live a => Some (sensor (stub a))
  | Dead => None
  end.
Definition edit_sensor (f : TestStepStreamSensor → TestStepStreamSensor) (self : PipeState) : option PipeState :=
  let edit s := set_sensor (f (sensor s)) s in
  match self with
  | Initial s pids => Some (Initial (edit s) pids)
  | HandshakeTx s pids => Some (HandshakeTx (edit s) pids)
  | HandshakeRx s pids => Some (HandshakeRx (edit s) pids)
  | Live a => Some (Live (set_stub a (edit (stub a))))
  | Dead => None
  end.

Definition Ready_readable : Ready := mkReady true false false false.
Definition Ready_writable : Ready := mkReady false true false false.
Definition Ready_hup : Ready := mkReady false false true false.
Definition ready_or (a b : Ready) : Ready :=
  mkReady (is_readable a || is_readable b) (is_writable a || is_writable b) (is_hup a || is_hup b) (is_error a || is_error b).

Definition pipe_passes (test : Q ()) : bool := match test [] with Done _ _ => true | Panicked => false end.
Definition pipe_failures (suite : list (string * Q ())) : list string :=
  omap (λ '(name, test), if pipe_passes test then None else Some name) suite.
