(* ===== verification/PipeTests.v ===== *)
(** * The unit tests of the states of a pipe (initial.rs, handshake.rs, active/unix.rs
    and dead.rs of transport/async), on [AsyncPipe] *)

From S2P Require Import Prelude Core Stream AsyncPipe Windows Bench PipeBench.
Import AsyncPipe.

(** ** initial.rs *)

Definition open_should_cause_transition_to_handshake : Q () :=
  let stub := TestStepStream_new in
  let state := Initial stub (1, 1) in
  new_state ← PipeState_open state;
  ctx ← pipe_context;
  assert_eq 1 (len (registrations ctx));;
  assert_eq 0 (len (reregistrations ctx));;
  assert_eq 0 (deregistrations ctx);;
  assert_eq "HandshakeTx" (PipeState_name new_state).

Definition close_should_cause_a_transition_to_dead : Q () :=
  let stub := TestStepStream_new in
  let state := Initial stub (1, 1) in
  new_state ← PipeState_close state;
  ctx ← pipe_context;
  assert_eq 0 (len (registrations ctx));;
  assert_eq 0 (len (reregistrations ctx));;
  assert_eq 0 (deregistrations ctx);;
  assert_eq "Dead" (PipeState_name new_state).

(** ** handshake.rs *)

Definition on_enter_tx_should_register : Q () :=
  let stub := TestStepStream_new in
  let state := HandshakeTx stub (4, 2) in
  enter state;;
  ctx ← pipe_context;
  assert_eq 1 (len (registrations ctx));;
  assert_eq 0 (len (reregistrations ctx));;
  assert_eq 0 (deregistrations ctx);;
  '(interest, poll_opt) ← lift (registrations ctx !! 0%nat);
  let all := Ready_writable in
  let edge := PollLevel in
  assert_eq all interest;;
  assert_eq edge poll_opt.

Definition tx_close_should_deregister_and_cause_a_transition_to_dead : Q () :=
  let stub := TestStepStream_new in
  let state := HandshakeTx stub (1, 1) in
  new_state ← PipeState_close state;
  ctx ← pipe_context;
  assert_eq 0 (len (registrations ctx));;
  assert_eq 0 (len (reregistrations ctx));;
  assert_eq 1 (deregistrations ctx);;
  assert_eq "Dead" (PipeState_name new_state).

Definition on_writable_the_handshake_should_be_sent : Q () :=
  let stub := TestStepStream_new in
  let pids := (4, 2) in
  let state := HandshakeTx stub pids in
  let events := Ready_writable in
  new_state ← PipeState_ready events state;
  sensor ← lift (sensor_of new_state);
  assert_eq 1 (len (sent_handshakes sensor));;
  sensor ← lift (sensor_of new_state);
  sent ← lift (sent_handshakes sensor !! 0%nat);
  assert_eq pids sent;;
  assert_eq "HandshakeRx" (PipeState_name new_state).

Definition on_enter_rx_should_reregister : Q () :=
  let stub := TestStepStream_new in
  let state := HandshakeRx stub (4, 2) in
  enter state;;
  ctx ← pipe_context;
  assert_eq 0 (len (registrations ctx));;
  assert_eq 1 (len (reregistrations ctx));;
  assert_eq 0 (deregistrations ctx);;
  '(interest, poll_opt) ← lift (reregistrations ctx !! 0%nat);
  let all := Ready_readable in
  let edge := PollLevel in
  assert_eq all interest;;
  assert_eq edge poll_opt.

Definition rx_close_should_deregister_and_cause_a_transition_to_dead : Q () :=
  let stub := TestStepStream_new in
  let state := HandshakeRx stub (1, 1) in
  new_state ← PipeState_close state;
  ctx ← pipe_context;
  assert_eq 0 (len (registrations ctx));;
  assert_eq 0 (len (reregistrations ctx));;
  assert_eq 1 (deregistrations ctx);;
  assert_eq "Dead" (PipeState_name new_state).

Definition readable_the_handshake_should_be_received : Q () :=
  let stub := TestStepStream_new in
  let pids := (6, 6) in
  let state := HandshakeRx stub pids in
  let events := Ready_readable in
  new_state ← PipeState_ready events state;
  sensor ← lift (sensor_of new_state);
  assert_eq 1 (received_handshakes sensor);;
  assert_eq "Active" (PipeState_name new_state).

(** ** active/unix.rs *)

Definition on_enter_stub_is_reregistered_and_an_event_is_raised : Q () :=
  let stub := TestStepStream_new in
  let state := Live (Active_new stub) in
  enter state;;
  ctx ← pipe_context;
  assert_eq 0 (len (registrations ctx));;
  assert_eq 1 (len (reregistrations ctx));;
  assert_eq 0 (deregistrations ctx);;
  '(interest, poll_opt) ← lift (reregistrations ctx !! 0%nat);
  let all := AsyncPipe.interest in
  let level := PollLevel in
  assert_eq all interest;;
  assert_eq level poll_opt;;
  assert_eq 1 (len (raised_events ctx));;
  evt ← lift (raised_events ctx !! 0%nat);
  let is_opened := match evt with AsyncPipe.Opened => true | _ => false end in
  assert is_opened.

Definition close_should_deregister_and_cause_a_transition_to_dead : Q () :=
  let stub := TestStepStream_new in
  let state := Live (Active_new stub) in
  new_state ← PipeState_close state;
  ctx ← pipe_context;
  assert_eq 0 (len (registrations ctx));;
  assert_eq 0 (len (reregistrations ctx));;
  assert_eq 1 (deregistrations ctx);;
  assert_eq "Dead" (PipeState_name new_state).

Definition send_with_immediate_success : Q () :=
  let stub := TestStepStream_new in
  let state := Live (Active_new stub) in
  let payload := [66; 65; 67] in
  let msg := from_body payload in
  new_state ← PipeState_send msg state;
  assert_eq "Active" (PipeState_name new_state);;
  ctx ← pipe_context;
  assert_eq 1 (len (raised_events ctx));;
  evt ← lift (raised_events ctx !! 0%nat);
  let is_sent := match evt with AsyncPipe.Sent => true | _ => false end in
  assert is_sent.

Definition send_with_postponed_success : Q () :=
  let stub := TestStepStream_new in
  let state := Live (Active_new stub) in
  state ← lift (edit_sensor (set_start_send_result (Some false)) state);
  let payload := [66; 65; 67] in
  let msg := from_body payload in
  new_state ← PipeState_send msg state;
  assert_eq "Active" (PipeState_name new_state);;
  ctx ← pipe_context;
  assert_eq 0 (len (raised_events ctx));;
  new_state ← lift (edit_sensor (set_resume_send_result (Some true)) new_state);
  let events := Ready_writable in
  new_state ← PipeState_ready events new_state;
  assert_eq "Active" (PipeState_name new_state);;
  ctx ← pipe_context;
  assert_eq 1 (len (raised_events ctx));;
  evt ← lift (raised_events ctx !! 0%nat);
  let is_sent := match evt with AsyncPipe.Sent => true | _ => false end in
  assert is_sent.

Definition when_writable_should_raise_an_event : Q () :=
  let stub := TestStepStream_new in
  let state := Live (Active_new stub) in
  let events := Ready_writable in
  new_state ← PipeState_ready events state;
  assert_eq "Active" (PipeState_name new_state);;
  ctx ← pipe_context;
  assert_eq 1 (len (raised_events ctx));;
  evt ← lift (raised_events ctx !! 0%nat);
  let is_can_send := match evt with AsyncPipe.CanSend x => x | _ => false end in
  assert is_can_send.

Definition when_writable_should_raise_an_event_unless_no_change : Q () :=
  let stub := TestStepStream_new in
  let state := Live (Active_new stub) in
  let events := Ready_writable in
  new_state ← PipeState_ready events state;
  assert_eq "Active" (PipeState_name new_state);;
  ctx ← pipe_context;
  assert_eq 1 (len (raised_events ctx));;
  new_state ← PipeState_ready events new_state;
  assert_eq "Active" (PipeState_name new_state);;
  ctx ← pipe_context;
  assert_eq 1 (len (raised_events ctx)).

Definition when_writable_hup_should_not_raise_an_event_and_transition_to_dead : Q () :=
  let stub := TestStepStream_new in
  let state := Live (Active_new stub) in
  let hup := Ready_hup in
  let writable := Ready_writable in
  let events := ready_or writable hup in
  new_state ← PipeState_ready events state;
  assert_eq "Dead" (PipeState_name new_state);;
  ctx ← pipe_context;
  assert_eq 1 (len (raised_events ctx));;
  evt ← lift (raised_events ctx !! 0%nat);
  let is_error := match evt with PipeError _ => true | _ => false end in
  assert is_error.

Definition recv_with_immediate_success : Q () :=
  let stub := TestStepStream_new in
  let state := Live (Active_new stub) in
  let payload := [66; 65; 67] in
  let msg := from_body payload in
  state ← lift (edit_sensor (set_start_recv_result (Some msg)) state);
  new_state ← PipeState_recv state;
  assert_eq "Active" (PipeState_name new_state);;
  ctx ← pipe_context;
  assert_eq 1 (len (raised_events ctx));;
  evt ← lift (raised_events ctx !! 0%nat);
  let is_recv := match evt with AsyncPipe.Received _ => true | _ => false end in
  assert is_recv.

Definition recv_with_postponed_success : Q () :=
  let stub := TestStepStream_new in
  let state := Live (Active_new stub) in
  let payload := [66; 65; 67] in
  let msg := from_body payload in
  state ← lift (edit_sensor (set_start_recv_result None) state);
  new_state ← PipeState_recv state;
  assert_eq "Active" (PipeState_name new_state);;
  ctx ← pipe_context;
  assert_eq 0 (len (raised_events ctx));;
  new_state ← lift (edit_sensor (set_resume_recv_result (Some msg)) new_state);
  let events := Ready_readable in
  new_state ← PipeState_ready events new_state;
  assert_eq "Active" (PipeState_name new_state);;
  ctx ← pipe_context;
  assert_eq 1 (len (raised_events ctx));;
  evt ← lift (raised_events ctx !! 0%nat);
  let is_recv := match evt with AsyncPipe.Received _ => true | _ => false end in
  assert is_recv.

Definition when_readable_should_raise_an_event : Q () :=
  let stub := TestStepStream_new in
  let state := Live (Active_new stub) in
  let events := Ready_readable in
  new_state ← PipeState_ready events state;
  assert_eq "Active" (PipeState_name new_state);;
  ctx ← pipe_context;
  assert_eq 1 (len (raised_events ctx));;
  evt ← lift (raised_events ctx !! 0%nat);
  let is_can_recv := match evt with AsyncPipe.CanRecv x => x | _ => false end in
  assert is_can_recv.

Definition when_readable_hup_should_not_raise_an_event_and_transition_to_dead : Q () :=
  let stub := TestStepStream_new in
  let state := Live (Active_new stub) in
  let readable := Ready_readable in
  let hup := Ready_hup in
  let events := ready_or readable hup in
  new_state ← PipeState_ready events state;
  assert_eq "Dead" (PipeState_name new_state);;
  ctx ← pipe_context;
  assert_eq 1 (len (raised_events ctx));;
  evt ← lift (raised_events ctx !! 0%nat);
  let is_error := match evt with PipeError _ => true | _ => false end in
  assert is_error.

(** ** dead.rs *)

Definition on_enter_an_event_is_raised : Q () :=
  let state := @Dead TestStepStream in
  enter state;;
  ctx ← pipe_context;
  assert_eq 0 (len (registrations ctx));;
  assert_eq 0 (len (reregistrations ctx));;
  assert_eq 0 (deregistrations ctx);;
  assert_eq 1 (len (raised_events ctx));;
  evt ← lift (raised_events ctx !! 0%nat);
  let is_closed := match evt with AsyncPipe.Closed => true | _ => false end in
  assert is_closed.

Definition pipe_suite : list (string * Q ()) :=
  [ ("open_should_cause_transition_to_handshake", open_should_cause_transition_to_handshake);
    ("close_should_cause_a_transition_to_dead", close_should_cause_a_transition_to_dead);
    ("on_enter_tx_should_register", on_enter_tx_should_register);
    ("tx_close_should_deregister_and_cause_a_transition_to_dead", tx_close_should_deregister_and_cause_a_transition_to_dead);
    ("on_writable_the_handshake_should_be_sent", on_writable_the_handshake_should_be_sent);
    ("on_enter_rx_should_reregister", on_enter_rx_should_reregister);
    ("rx_close_should_deregister_and_cause_a_transition_to_dead", rx_close_should_deregister_and_cause_a_transition_to_dead);
    ("readable_the_handshake_should_be_received", readable_the_handshake_should_be_received);
    ("on_enter_stub_is_reregistered_and_an_event_is_raised", on_enter_stub_is_reregistered_and_an_event_is_raised);
    ("close_should_deregister_and_cause_a_transition_to_dead", close_should_deregister_and_cause_a_transition_to_dead);
    ("send_with_immediate_success", send_with_immediate_success);
    ("send_with_postponed_success", send_with_postponed_success);
    ("when_writable_should_raise_an_event", when_writable_should_raise_an_event);
    ("when_writable_should_raise_an_event_unless_no_change", when_writable_should_raise_an_event_unless_no_change);
    ("when_writable_hup_should_not_raise_an_event_and_transition_to_dead", when_writable_hup_should_not_raise_an_event_and_transition_to_dead);
    ("recv_with_immediate_success", recv_with_immediate_success);
    ("recv_with_postponed_success", recv_with_postponed_success);
    ("when_readable_should_raise_an_event", when_readable_should_raise_an_event);
    ("when_readable_hup_should_not_raise_an_event_and_transition_to_dead", when_readable_hup_should_not_raise_an_event_and_transition_to_dead);
    ("on_enter_an_event_is_raised", on_enter_an_event_is_raised) ].

Lemma pipe_suite_passes : pipe_failures pipe_suite = [].
Proof. vm_compute. reflexivity. Qed.
