(* ===== verification/WindowsTests.v ===== *)
(** * The unit tests of transport/async/active/windows.rs, on [Windows] *)

From S2P Require Import Prelude Core Stream AsyncPipe Windows Bench PipeBench.

Definition on_enter_stub_is_reregistered_and_an_event_is_raised : Q () :=
  let stub := TestStepStream_new in
  let state := Live (Active_new stub) in
  _ ← Windows.enter state;
  ctx ← pipe_context;
  assert_eq 0 (len (registrations ctx));;
  assert_eq 1 (len (reregistrations ctx));;
  assert_eq 0 (deregistrations ctx);;
  '(interest, poll_opt) ← lift (reregistrations ctx !! 0%nat);
  let all := ready_or Ready_readable Ready_writable in
  let edge := PollEdge in
  assert_eq all interest;;
  assert_eq edge poll_opt;;
  assert_eq 1 (len (raised_events ctx));;
  evt ← lift (raised_events ctx !! 0%nat);
  let is_opened := match evt with AsyncPipe.Opened => true | _ => false end in
  assert is_opened.

Definition close_should_deregister_and_cause_a_transition_to_dead : Q () :=
  let stub := TestStepStream_new in
  let state := Live (Active_new stub) in
  new_state ← Windows.PipeState_close state;
  ctx ← pipe_context;
  assert_eq 0 (len (registrations ctx));;
  assert_eq 0 (len (reregistrations ctx));;
  assert_eq 1 (deregistrations ctx);;
  assert_eq "Dead" (PipeState_name new_state).

Definition send_with_immediate_success : Q () :=
  let stub := TestStepStream_new in
  let state := Live (Active_new stub) in
  let payload := [66; 65; 67] in
  let msg := from_body payload in
  new_state ← Windows.PipeState_send msg state;
  assert_eq "Active" (PipeState_name new_state);;
  ctx ← pipe_context;
  assert_eq 1 (len (raised_events ctx));;
  evt ← lift (raised_events ctx !! 0%nat);
  let is_sent := match evt with AsyncPipe.Sent => true | _ => false end in
  assert is_sent.

Definition send_with_postponed_success : Q () :=
  let stub := TestStepStream_new in
  let state := Live (Active_new stub) in
  state ← lift (edit_sensor (set_start_send_result (Some false)) state);
  let payload := [66; 65; 67] in
  let msg := from_body payload in
  new_state ← Windows.PipeState_send msg state;
  assert_eq "Active" (PipeState_name new_state);;
  ctx ← pipe_context;
  assert_eq 0 (len (raised_events ctx));;
  new_state ← lift (edit_sensor (set_resume_send_result (Some true)) new_state);
  let events := Ready_writable in
  new_state ← Windows.PipeState_ready events new_state;
  assert_eq "Active" (PipeState_name new_state);;
  ctx ← pipe_context;
  assert_eq 1 (len (raised_events ctx));;
  evt ← lift (raised_events ctx !! 0%nat);
  let is_sent := match evt with AsyncPipe.Sent => true | _ => false end in
  assert is_sent.

Definition when_writable_should_raise_an_event : Q () :=
  let stub := TestStepStream_new in
  let state := Live (Active_new stub) in
  let events := Ready_writable in
  new_state ← Windows.PipeState_ready events state;
  assert_eq "Active" (PipeState_name new_state);;
  ctx ← pipe_context;
  assert_eq 1 (len (raised_events ctx));;
  evt ← lift (raised_events ctx !! 0%nat);
  let is_can_send := match evt with AsyncPipe.CanSend x => x | _ => false end in
  assert is_can_send.

Definition when_writable_should_raise_an_event_unless_no_change : Q () :=
  let stub := TestStepStream_new in
  let state := Live (Active_new stub) in
  let events := Ready_writable in
  new_state ← Windows.PipeState_ready events state;
  assert_eq "Active" (PipeState_name new_state);;
  ctx ← pipe_context;
  assert_eq 1 (len (raised_events ctx));;
  new_state ← Windows.PipeState_ready events new_state;
  assert_eq "Active" (PipeState_name new_state);;
  ctx ← pipe_context;
  assert_eq 1 (len (raised_events ctx)).

Definition recv_with_immediate_success : Q () :=
  let stub := TestStepStream_new in
  let state := Live (Active_new stub) in
  let payload := [66; 65; 67] in
  let msg := from_body payload in
  state ← lift (edit_sensor (set_start_recv_result (Some msg)) state);
  new_state ← Windows.PipeState_recv state;
  assert_eq "Active" (PipeState_name new_state);;
  ctx ← pipe_context;
  assert_eq 1 (len (raised_events ctx));;
  evt ← lift (raised_events ctx !! 0%nat);
  let is_recv := match evt with AsyncPipe.Received _ => true | _ => false end in
  assert is_recv.

Definition recv_with_postponed_success : Q () :=
  let stub := TestStepStream_new in
  let state := Live (Active_new stub) in
  let payload := [66; 65; 67] in
  let msg := from_body payload in
  state ← lift (edit_sensor (set_start_recv_result None) state);
  new_state ← Windows.PipeState_recv state;
  assert_eq "Active" (PipeState_name new_state);;
  ctx ← pipe_context;
  assert_eq 0 (len (raised_events ctx));;
  new_state ← lift (edit_sensor (set_resume_recv_result (Some msg)) new_state);
  let events := Ready_readable in
  new_state ← Windows.PipeState_ready events new_state;
  assert_eq "Active" (PipeState_name new_state);;
  ctx ← pipe_context;
  assert_eq 1 (len (raised_events ctx));;
  evt ← lift (raised_events ctx !! 0%nat);
  let is_recv := match evt with AsyncPipe.Received _ => true | _ => false end in
  assert is_recv.

Definition when_readable_should_raise_an_event : Q () :=
  let stub := TestStepStream_new in
  let state := Live (Active_new stub) in
  let events := Ready_readable in
  new_state ← Windows.PipeState_ready events state;
  assert_eq "Active" (PipeState_name new_state);;
  ctx ← pipe_context;
  assert_eq 1 (len (raised_events ctx));;
  evt ← lift (raised_events ctx !! 0%nat);
  let is_can_recv := match evt with AsyncPipe.CanRecv x => x | _ => false end in
  assert is_can_recv.

Definition windows_suite : list (string * Q ()) :=
  [ ("on_enter_stub_is_reregistered_and_an_event_is_raised", on_enter_stub_is_reregistered_and_an_event_is_raised);
    ("close_should_deregister_and_cause_a_transition_to_dead", close_should_deregister_and_cause_a_transition_to_dead);
    ("send_with_immediate_success", send_with_immediate_success);
    ("send_with_postponed_success", send_with_postponed_success);
    ("when_writable_should_raise_an_event", when_writable_should_raise_an_event);
    ("when_writable_should_raise_an_event_unless_no_change", when_writable_should_raise_an_event_unless_no_change);
    ("recv_with_immediate_success", recv_with_immediate_success);
    ("recv_with_postponed_success", recv_with_postponed_success);
    ("when_readable_should_raise_an_event", when_readable_should_raise_an_event) ].

Lemma windows_suite_passes : pipe_failures windows_suite = [].
Proof. vm_compute. reflexivity. Qed.
