(* ===== verification/SocketTests.v ===== *)
(** * The unit tests of core/socket.rs, on [Socket] *)

From S2P Require Import Prelude Core Context Protocol Socket Bench.

(** ** A protocol that does nothing, and two contexts *)

Inductive TestProto : Type := mkTestProto.

#[local] Instance TestProto_protocol : Protocol TestProto := {|
  proto_id _ := 0;
  peer_id _ := 0;
  add_pipe _ _ self := mret self;
  remove_pipe _ self := mret (None, self);
  send _ _ self := mret self;
  on_send_ack _ self := mret self;
  on_send_timeout self := mret self;
  on_send_ready _ self := mret self;
  on_send_not_ready _ self := mret self;
  recv _ self := mret self;
  on_recv_ack _ _ self := mret self;
  on_recv_timeout self := mret self;
  on_recv_ready _ self := mret self;
  on_recv_not_ready _ self := mret self;
  is_send_ready _ := false;
  is_recv_ready _ := false;
  set_option := default_set_option;
  on_timer_tick := default_on_timer_tick;
  on_device_plugged := default_on_device_plugged;
  close self := mret self
|}.

Definition FailingNetwork : Env := {|
  env_build := {| overflow_checks := true |};
  connect_answer _ _ _ := Err (other_io_error "FailingNetwork can only fail");
  reconnect_answer _ _ _ _ := Err (other_io_error "FailingNetwork can only fail");
  bind_answer _ _ _ := Err (other_io_error "FailingNetwork can only fail");
  rebind_answer _ _ _ _ := Err (other_io_error "FailingNetwork can only fail");
  schedule_answer _ _ _ := Err (other_io_error "FailingNetwork can only fail");
  drain_set _ s := elements s;
  drain_map _ _ m := map_to_list m;
  drain_set_perm _ _ := reflexivity _;
  drain_map_perm _ _ _ := reflexivity _
|}.

Definition WorkingNetwork (eid : EndpointId) : Env := {|
  env_build := {| overflow_checks := true |};
  connect_answer _ _ _ := Ok eid;
  reconnect_answer _ _ _ _ := Ok ();
  bind_answer _ _ _ := Ok eid;
  rebind_answer _ _ _ _ := Ok ();
  schedule_answer _ _ _ := Ok (Scheduled_from 0);
  drain_set _ s := elements s;
  drain_map _ _ m := map_to_list m;
  drain_set_perm _ _ := reflexivity _;
  drain_map_perm _ _ _ := reflexivity _
|}.

(** ** The tests *)

Definition when_connect_fails : P () :=
  let id := SocketId_from 1 in
  let rx := channel in
  let proto := mkTestProto in
  let network := FailingNetwork in
  let socket := Socket_new id proto in
  socket ← Socket_connect (H := network) "test://fake" socket;
  '(reply, rx) ← rx_recv rx;
  match reply with
  | ReplyErr _ => mret ()
  | _ => assert false
  end.

Definition when_connect_succeeds : P () :=
  let id := SocketId_from 1 in
  let rx := channel in
  let proto := mkTestProto in
  let network := WorkingNetwork (EndpointId_from 1) in
  let socket := Socket_new id proto in
  socket ← Socket_connect (H := network) "test://fake" socket;
  '(reply, rx) ← rx_recv rx;
  match reply with
  | ReplyConnect eid => assert_eq (EndpointId_from 1) eid
  | _ => assert false
  end.

(** These contexts implement every call. *)
Lemma socket_suite_passes :
  ∀ name test, (name, test) ∈ [("when_connect_fails", when_connect_fails); ("when_connect_succeeds", when_connect_succeeds)] →
    returned (test []) = Some ().
Proof. intros name test Hin. repeat (apply elem_of_cons in Hin as [[= -> ->]|Hin]; [by vm_compute|]). by apply not_elem_of_nil in Hin. Qed.
