(* ===== verification/ProbeTests.v ===== *)
(** * The unit tests of core/probe.rs, on [Probe] *)

From S2P Require Import Prelude Core Probe Bench.

(** ** The context *)

Record TestContextSensor : Type := mkTestContextSensor { schedule_cancellations : list Scheduled; poll_calls : list SocketId }.

Definition TestContextSensor_default : TestContextSensor := mkTestContextSensor [] [].
Definition push_schedule_cancellation (scheduled : Scheduled) (s : TestContextSensor) : TestContextSensor :=
  mkTestContextSensor (schedule_cancellations s ++ [scheduled]) (poll_calls s).
Definition push_poll_call (sid : SocketId) (s : TestContextSensor) : TestContextSensor :=
  mkTestContextSensor (schedule_cancellations s) (poll_calls s ++ [sid]).

(** The ids of timers follow each other, from 1. *)
Definition scheduled_seq (h : list probe_effect) : Z :=
  len (filter (λ e, match e with ProbeSchedule _ => true | _ => false end = true) h).
#[local] Instance TestContext : ProbeEnv := {| poll_schedule_answer h _ := Ok (Scheduled_from (scheduled_seq h + 1)) |}.

Definition sense (s : TestContextSensor) (e : probe_effect) : TestContextSensor :=
  match e with
  | ProbeCancel scheduled => push_schedule_cancellation scheduled s
  | PollSocket sid => push_poll_call sid s
  | ProbeSchedule _ | ProbeAnswer _ => s
  end.

(** The channel of replies: how many were received. *)
Definition answers (h : list probe_effect) : list ProbeReply := omap (λ e, match e with ProbeAnswer r => Some r | _ => None end) h.
Definition rx_recv (rx : nat) : K (ProbeReply * nat) := h ← history; reply ← lift (answers h !! rx); mret (reply, S rx).
Definition rx_empty (rx : nat) : K () := h ← history; assert (bool_decide (length (answers h) <= rx)%nat).

(** ** The tests *)

Definition when_not_ready_event_with_interest_is_received_no_reply_is_sent : K () :=
  let rx := channel in
  let sid := SocketId_from 1 in
  let poll_req := mkPollReq sid true false in
  let probe := Probe_new [poll_req] in
  probe ← poll (from_millis 100) probe;
  probe ← on_socket_can_recv sid false probe;
  rx_empty rx.

Definition when_ready_event_without_interest_is_received_no_reply_is_sent : K () :=
  let rx := channel in
  let sid := SocketId_from 1 in
  let poll_req := mkPollReq sid true false in
  let probe := Probe_new [poll_req] in
  probe ← poll (from_millis 100) probe;
  probe ← on_socket_can_send sid true probe;
  rx_empty rx.

Definition when_ready_event_with_interest_is_received_reply_is_sent : K () :=
  let rx := channel in
  let sid := SocketId_from 1 in
  let poll_req := mkPollReq sid true false in
  let probe := Probe_new [poll_req] in
  probe ← poll (from_millis 100) probe;
  probe ← on_socket_can_recv sid true probe;
  '(reply, rx) ← rx_recv rx;
  let reply_poll_res := match reply with ProbePoll x => Some x | _ => None end in
  poll_res ← lift reply_poll_res;
  assert_eq 1 (len poll_res);;
  first ← lift (poll_res !! 0%nat);
  assert (res_recv first);;
  assert (negb (res_send first)).

Lemma probe_suite_passes :
  returned (when_not_ready_event_with_interest_is_received_no_reply_is_sent []) = Some () ∧
  returned (when_ready_event_without_interest_is_received_no_reply_is_sent []) = Some () ∧
  returned (when_ready_event_with_interest_is_received_reply_is_sent []) = Some ().
Proof. by vm_compute. Qed.
