(* ===== verification/IpcTests.v ===== *)
(** * The unit tests of transport/ipc/send.rs and transport/ipc/recv.rs, on [Ipc] *)

From S2P Require Import Prelude Core Codec Stream Framing Ipc Bench.

#[local] Existing Instance be_ref.

(** A vector takes all that is written to it; a cursor gives all it holds. *)
Definition Vec_new : Sink := mkSink (replicate 8 (Ok 1024%nat)) [].
Definition Cursor_new (buffer : bytes) : Source := mkSource [Ok buffer].

Definition run_on {E S A} (m : IO S A) (stream : S) : M E (A * S) :=
  match m stream with
  | (IOk a, stream) => mret (a, stream)
  | _ => panic
  end.

(** [Result::expect]. *)
Definition expect {E A} (r : result A) : M E A := match r with Ok a => mret a | Err _ => panic end.

Definition send_in_one_run : M Empty_set () :=
  let header := [1; 4; 3; 2] in
  let payload := [65; 66; 67; 69] in
  let msg := from_header_and_body header payload in
  let operation := SendOperation_new msg in
  let stream := Vec_new in
  '((result, operation), stream) ← run_on (SendOperation_run operation) stream;
  result ← expect result;
  let expected_bytes := [1; 0; 0; 0; 0; 0; 0; 0; 8; 1; 4; 3; 2; 65; 66; 67; 69] in
  assert result;;
  assert_eq expected_bytes (sent stream).

Definition recv_in_one_run : M Empty_set () :=
  let buffer := [1; 0; 0; 0; 0; 0; 0; 0; 8; 1; 4; 3; 2; 65; 66; 67; 69] in
  let stream := Cursor_new buffer in
  let operation := RecvOperation_new 1024 in
  '((result, operation), stream) ← run_on (RecvOperation_run operation) stream;
  done ← expect result;
  msg ← lift done;
  let expected_bytes := [1; 4; 3; 2; 65; 66; 67; 69] in
  assert_eq expected_bytes (get_body msg).

Lemma ipc_suite_passes : returned (send_in_one_run []) = Some () ∧ returned (recv_in_one_run []) = Some ().
Proof. by vm_compute. Qed.
